(* ===== verification/_CoqProject ===== *)
-Q . S2P
Prelude.v
GoLib.v
Crypto.v
Calendar.v
Cron.v
Uptime.v
NetIP.v
Auth.v
SafeDial.v
HttpApi.v
Regexp.v
AccessRoute.v
ProxyRoutes.v
Queue.v
QueueSpec.v
Effects.v
Scheduler.v
Json.v
GitWebhook.v
ControlDB.v
Host.v
Daemon.v
ProxyApply.v
DeployBuild.v
DeployRun.v
DeploySafety.v
DeployLive.v
DeployCases.v
ComposeDeploy.v
ComposeSafety.v
ComposeCases.v
ServerCleanup.v
Envelope.v
Backups.v
WebhookReceive.v
WebhookDeploy.v
PreviewHost.v
Previews.v
ScaleZero.v
WebhookProcess.v
PreviewSafety.v
PreviewLife.v
Totp.v
Session.v
Tunnel.v
AgentWire.v
Waker.v
WakeLive.v
ComposePlan.v
ComposePolicy.v
ComposeMagic.v
LogRedact.v
