(* ===== verification/Prelude.v ===== *)
(** * AkerDock verification library

    AkerDock (under [src/]) is a self-hosted deployment platform: one Go server
    with an API, a dashboard, background workers and tunnels into the servers
    it manages.  This library models the parts of the server that take
    decisions — who may do what, which job runs, when a schedule fires, in
    which order a stack starts, which container serves, which backup is kept,
    which bytes reach which stream — as executable definitions over the code's
    own data, and proves what makes them correct.

    ** How the parts interact

    A request reaches the middleware of [internal/auth] with a bearer token or
    a session cookie.  Tokens are resolved there; cookies by [internal/session],
    which asks [internal/totp] for the second factor and [internal/auth] for the
    permissions of a membership.  Handlers enqueue work with [internal/queue];
    worker processes lease it from a shared table.  The scheduler enqueues on
    the clock, through [internal/cronexpr], and alerts through
    [internal/uptime].  A Git forge delivers webhooks to [internal/handlers],
    which authenticates them with [internal/gitwebhook], stores them and queues
    a job; the job ([internal/jobs]) deploys the application of a push or drives
    the preview of a pull request, which comments, API orders, deployment runs
    and the scheduler drive too, all through the same tables
    ([internal/store]).  The run of a deployment ([internal/jobs/deploymentrun.go])
    builds an image on the target or on a build server, starts a candidate beside
    the container that serves, switches the route of the proxy to it
    ([proxyapply.go]) and promotes it; the cleanup of a server, which removes what
    deployments leave, and deployments keep out of each other's way through the
    same tables.  Other jobs back databases up, restore and drill them, with files
    on the server and objects in a bucket, and re-encrypt the secrets of the
    database under a new key ([internal/envelope]).  Stacks are compose files,
    checked and ordered by [internal/compose] and deployed service by service
    ([composedeploy.go]).  [internal/tunnel] carries TCP streams over one
    connection to a server.  Domains and access walls become files of the
    server's proxy through [internal/proxy] and [internal/accessroute].  In front
    of the API, [internal/httpapi] decides which address a request comes from
    and runs a keyed request once; requests the server itself makes on behalf of
    users go through [internal/safedial]; its logs go through
    [internal/logredact].
    On a managed server the agent ([internal/agent]) wakes sleeping stacks in
    the order of their dependencies and answers the commands that arrive over
    [internal/agentwire].

    ** Files

    - [Prelude]: notations, the hint database [akd], Go's machine integers,
      loops that run under a bound ([run], [run_nat]) and what their answers
      mean, reachability, counting in finite maps.
    - [GoLib]: the functions of [strings], [strconv] and [path] the code calls,
      on byte strings.
    - [Crypto]: executable SHA-256, HMAC and hexadecimal.
    - [Calendar]: instants in nanoseconds, zones as tables of offset changes,
      the civil calendar, [time.Date] and [AddDate] with their choice in a gap
      or a repeated hour.
    - [Cron] ([internal/cronexpr/cronexpr.go]): [Parse], [parseField],
      [boundedValue], [Next], [matchesDay].
    - [Uptime] ([internal/uptime/uptime.go]): [probe], [Transition].
    - [NetIP]: addresses and prefixes of [net/netip] and their text, for the
      allow lists, the client address and the outgoing guard.
    - [Auth] ([internal/auth]): the permission catalogue and [Closure], the
      system and custom roles, the coarse hierarchy, token parsing,
      [ResolveAPIToken] and the [Handler] middleware, against the class
      [SessionAuthenticator] of session managers and their [SessionPromises].
    - [SafeDial] ([internal/safedial/safedial.go]): [Blocked] over the ranges
      of [net.IP], the socket hook [control], [safeRedirect].
    - [HttpApi] ([internal/httpapi]): modules [RealIP] (the walk over the
      forwarded addresses) and [Idempotency] (the key table, the middleware
      before and after the handler; [step] interleaves requests, crashes and
      purges).
    - [Regexp]: the fragment of Go's [regexp] the code writes, read from its
      text; [AccessRoute] ([internal/accessroute/accessroute.go]): the public
      exceptions of a protected resource, their validation and the rule they
      become; [ProxyRoutes] ([internal/proxy/proxy.go] and [parseDomain]):
      priorities, the routers of a group and the generated file.
    - [Queue] ([internal/queue] and the statements of
      [internal/store/jobs.sql.go]): the table of jobs, [Enqueue], the life of
      an attempt, the retry delay, the cancellation of queued jobs; [step]
      interleaves worker processes, crashes, lease expiries, cancellations and
      the maintenance loop.
    - [QueueSpec]: an abstract store of tickets, and the table of [Queue] as a
      refinement of it.
    - [Effects]: code over a database whose statements can fail.  A statement is
      applied, refused, or applied with its answer lost; the list of fates is an
      argument, so that a theorem about every list covers every failure.  With
      it a weakest precondition [wp], what every run keeps ([keeps]), what a run
      achieves when nothing fails ([steady]) and the hint database [effects].
    - [Scheduler] ([internal/scheduler]: [scheduledtasks.go], [backups.go],
      [drills.go], [cleanup.go]; [internal/jobs/scheduledtask.go] and
      [scheduledworkflow.go]): windows and their advance, overlap and missed-run
      policies, locks, the run of a task; [step] interleaves passes, run-now
      requests, workers and the edits of a task, each taken as a whole.
    - [Json]: values of [encoding/json] and how they fill a structure;
      [GitWebhook] ([internal/gitwebhook]): headers, signatures, pushes, pull
      requests and comments of three forges.
    - [ControlDB]: the tables of deliveries, deployments, previews, applications
      and jobs, one definition per statement of [internal/store].
    - [Host]: a managed server as the jobs see it.  The class [Surroundings] has
      the state of the server, its answer to each call (Docker, files, commands on
      the target or the build server) and what the other writers of the tables do
      between two statements; nothing is assumed of them.  A [Site] is that state
      with the tables, the variables of the job and the log of its calls.
      [Daemon]: a server that behaves as Docker and the proxy document, an
      instance of the class.
    - [ProxyApply] ([internal/jobs/proxyapply.go]): a routing file applied,
      verified and rolled back, with its revisions.
    - [DeployBuild] and [DeployRun] ([internal/jobs/deploymentrun.go],
      [applyrouting.go]): statuses and cancellation, credentials and the build by
      each build pack; candidate, health check, switch, promotion, retention,
      compensations and the resumption of a switch.  [DeploySafety] has what no
      attempt does, whatever its surroundings; [DeployLive] what it achieves on the
      [Daemon]; [DeployCases] runs an example in which something fails.
    - [ComposeDeploy] ([internal/jobs/composedeploy.go], [composecreate.go], the
      routes of components of [applyrouting.go]): [executeCompose], from the clone
      and the plan to the replacement of each service, by a switch beside the old
      container or a recreation, and the resumption of a switch.  [ComposeSafety]
      has what no attempt does; [ComposeCases] runs an example.
    - [ServerCleanup] ([internal/jobs/servercleanup.go]): guard and deferral, live
      owners, the sweeps of images, volumes, networks and dead candidates;
      [guard_step] interleaves the guards of cleanups and deployments.
    - [Envelope] ([internal/envelope], [internal/jobs/encryptionrotate.go] and the
      functions of migration 00093): the key file, [Encrypt], [Decrypt] over the
      class [Aead], and the rotation with the edits of others in between.
    - [Backups] ([internal/jobs/backup.go], [backupdrill.go],
      [internal/hostops/pipes.go], [internal/s3/s3.go]): dump, upload, retention,
      restore, drill, over the class [Codec] of compressors and digests and the
      class [Databases] of what pg_dump and psql do.
    - [WebhookReceive] ([internal/handlers/gitwebhooks.go]), [WebhookDeploy]
      (push policies and [EnqueueWebhookDeployment]) and [WebhookProcess]
      ([internal/jobs/webhookprocess.go] and the fan-outs of the GitHub App).
    - [PreviewHost] (host names from templates), [Previews]
      ([internal/jobs/previewpr.go], [previewcommands.go], [previewdestroy.go],
      [internal/handlers/previews.go], the redeployment without a build of
      [applyconfig.go], [reapPreviews]) and [ScaleZero]
      ([scaleZeroPreviews] and the wake-ups an agent reports);
      [PreviewSafety] has what each operation keeps, [PreviewLife] composes
      them into histories.
    - [Totp] ([internal/totp]): [Validate], [hotp], [GenerateSecret] with
      executable SHA-1, HMAC and base32.
    - [Session] ([internal/session] and its statements): [Login], the second
      step, [Authenticate], [SwitchTeam], the role-inspection mode, TOTP and
      recovery codes, on a database of users, sessions, members and factors;
      the manager is an instance of the interface of [Auth].
    - [Tunnel] ([internal/tunnel]): modules [Frame] (wire format),
      [StreamQueue] (the bounded queue of one stream and the goroutine that
      drains it), [Bridge] (the multiplexer next to the target) and [Origin]
      (admission and shutdown on the other side).
    - [AgentWire] ([internal/agentwire]): the table of commands in flight on a
      shared connection, a stream interleaved with its consumer, the sender
      [PumpReader], typed errors.
    - [Waker] ([internal/agent/waker.go]): [WakeResource] over the class
      [Docker] of daemons, the handler [ServeHTTP] in front of it; [WakeLive]:
      a daemon that keeps its word, an instance of that class, and what a wake
      achieves with it.
    - [ComposePlan] ([internal/compose/transform.go]): [topologicalOrder],
      [findCycle].
    - [ComposePolicy] ([internal/compose/policy.go]): the per-service checks,
      with [path.Clean]; [ComposeMagic] ([internal/compose/magic.go]): the names
      of magic variables, their scan and the values generated for them.
    - [LogRedact] ([internal/logredact/logredact.go]): [redact] and the handler
      around the sinks.

    ** What the theorems show

    - Queue: in every interleaving the lease columns agree with the status, a
      lock key is held once, a job is leased at most
      [max_attempts + maxResumes] times; [DequeueJob] picks the first candidate;
      [Enqueue] is idempotent per key; the delay doubles up to its cap for every
      attempt number of 32 bits; the whole refines a store in which a ticket is
      submitted once per key, taken by one holder of its lock, and finished,
      given back, withdrawn or buried.
    - Access: custom roles cannot elevate, a token never exceeds its creator,
      the middleware serves exactly the requests it should, [Closure] is the
      least closed set, a request served on a cookie is confined to a live team of
      its user and carries the CSRF token when it may change state, the
      inspection mode only narrows, the passwords and codes tried between two
      successes are bounded by the lockout, one-time and recovery codes work once.
    - Time: [Next] is the first matching minute in a zone of constant offset;
      what it does on the nights the clock changes is shown by execution; a
      cron field denotes the union of its parts; [Parse] is total; the uptime
      verdict flips only after its streak.
    - Tunnels: a stalled stream buffers a bounded amount and delivers a prefix
      of what it accepted; streams do not mix; the bridge and the originating
      side leak no connection and no admission slot.
    - Compose: the start order is a topological order, complete exactly when
      the graph has no cycle, and independent of map iteration; [findCycle] is
      exact; an accepted service stays within the privileges and paths of the
      server policy; [escapesBase] is exact; a magic variable reads back as what
      it was written from and its value has the shape of its type.
    - Webhooks: a job stems from an authenticated delivery, once per delivery id
      within the retention, whatever fails; the receiver's answer on each branch;
      a signature verifies exactly when it proves the secret, and what is signed
      verifies; the forges agree on the same change; queueing a deployment only
      supersedes what it should and respects the server's limit.
    - Previews: in every history of events, comments, orders, runs and passes,
      with any statement failing, nothing of a preview marked as a fork is deployed
      before a first approval of it and no manual-first reservation without an
      order; a promotion respects the cap;
      what a forge delivers is a history of events, comments and pushes; a
      scale-to-zero pass makes exactly the transitions that are due.
    - Deployments: whatever fails and wherever a process dies, an attempt touches
      the serving container only when it created the replacement, then saw it up,
      then saw the proxy send to it (or read no enabled health check, or resumes a
      switch that had begun); the statuses it writes follow a state machine, and
      what it ends as says which earlier writes were answered; with a server that
      does its part a deployment, of an image kept or built from a repository, and
      the next attempt of one that died in the switch, succeed and change nothing
      else; a
      routing file is applied or rolled back; retention reclaims exactly what is
      beyond its window; a quoted value is one word of the shell.
    - Stacks: a routed service with a health check is touched only after its
      candidate was seen up (healthy, or running twice) and then, left alone, the
      proxy seen to send to it; the services are replaced in the order of the plan,
      each once the ones before it are done with, seen up since they were started,
      and the images of all of them are on the server.
    - Cleanups: nothing of a live owner is removed, whatever the server answers; no
      deployment is under way on a server that is being cleaned.
    - Secrets: a value survives every rotation of the key file that keeps its key;
      a rotation loses nothing, ends, and leaves all under the active key.
    - Backups: the last success of a plan has a copy with its checksum as long as no
      other dump takes its name; what was dumped is what a restore feeds to psql; a
      restore checks before it feeds; a drill touches nothing but its disposable
      container, leaves the dumps alone and passes only when the tables agree.
    - Scheduler: no overlap, while the policy of a task forbids it, in any history of
      whole operations; a pass moves a window to the first matching minute and runs exactly what is due; a workflow is dispatched at
      most once per occurrence run, even when its result is lost.
    - Logs: nothing under a sensitive key reaches a sink, nothing else is lost.
    - Outside: the guard of outgoing dials refuses exactly the addresses that
      are not public; a client cannot forge its address past a trusted proxy; a
      keyed request that does not fail runs once a day at most and is replayed
      faithfully.
    - Proxy: the rule of a public exception without backquotes, read back from its
      text, admits exactly the hosts, methods and paths that were written; over all
      the files of a server with quotable hosts, methods and paths the most specific
      route answers, behind its access wall unless the request is one of its own
      exceptions; validation is a normal form.
    - Agent: a wake respects dependencies and cleans up after itself whatever
      the daemon answers, always ends, and succeeds when the daemon does its
      part; every answer of the handler in front says what it did; a stream that
      ends cleanly is complete; an answer reaches the command that asked; an
      error keeps its kind across the channel.

    A few theorems state behaviour the comments of the code do not promise:
    [Next_diverges_when_clock_set_back], [stale_report_exceeds_max_attempts],
    [concurrent_logins_exceed_lockout], [duplicate_open_leaks],
    [dial_during_teardown_leaks], [root_slash_allows_nothing_below],
    [failed_request_not_retriable], [backquote_method_breaks_rule],
    [domain_path_leaves_quotes], [doubled_slash_ties];
    [failed_enqueue_starves_the_task], [lost_result_repeats_the_command],
    [no_occurrence_fires_every_pass], [unmoved_window_fires_again],
    [enabled_again_fires_at_once], [interleaved_requests_overlap]; [forged_delivery_shadows_the_genuine_one],
    [failed_enqueue_loses_the_delivery], [redelivery_deploys_again],
    [large_push_is_ignored], [gitlab_push_is_ignored],
    [deleted_fork_is_no_fork], [Command_is_case_sensitive],
    [watch_paths_observed]; [cap_blocks_its_own_preview],
    [late_runs_observed], [reopened_is_deployed_unasked],
    [approval_covers_later_pushes], [waking_ignores_the_cap];
    [magic_names_observed]; the lemmas of [DeployCases] and
    [ComposeCases];
    [unreadable_revisions_remove_the_file], [unrecorded_apply_stays];
    [overlapping_guards_both_pass], [cleanup_removes_the_serving_candidate];
    [replaced_secret_is_lost], [removed_secret_is_back];
    [empty_dump_succeeds], [same_second_overwrites],
    [unmarked_drop_is_not_restored], [fetched_dump_stays].

    ** Bounds and fuel

    Every bound is proved sufficient, so that a result is a result of the code.
    [Next] runs at most [next_bound] turns, one per minute of its five-year
    window.  [Closure] walks [closure_depth] levels; the longest chain of
    prerequisites is shorter.  Kahn's loop takes one turn per service and one to
    stop; the depth-first search has one level per service.  [writeAll] takes
    one unit per byte, since a write that makes no progress is an error.  A wake
    takes [enough] turns: one budget of polls per container and one more, for
    each release restarts the budget.  A rotation takes one batch more than a
    column has values under other keys.  The polls of a health check and of the
    verification of a route are counted, as their deadlines divided by their
    interval; a poll budget that runs out is the time-out of the code.
    Integers are kept at the width of the code where they can overflow: cron
    steps, attempt numbers, the shift of the retry delay, stream and command
    identifiers.

    ** What is assumed

    Hash functions and the Argon2 verifier are arguments of the definitions that
    call them ([HashToken], [hashToken], [Verify]), as is the parser of UUIDs
    ([scan_uuid]), the request fingerprint and the JSON check of the idempotency
    store ([sha256], [json_valid]); random values are arguments.  No theorem
    assumes anything of them.  The predicates of the errors library
    ([AgentWire], section [ErrorLaws]) come with the laws it documents; Docker
    is any instance of the class [Docker], with a clock that does not go back
    ([DockerTime]) where a theorem needs time to pass.  The rule language of the
    proxy ([AccessRoute]) is read for the fragment the code writes, with a
    request answered by a matching router of the highest priority.  A SQL
    statement is one atomic update of the tables it names, as the database's
    isolation makes it; network and disk failures show as the error branches of
    the code.  In the histories of webhooks, previews and the scheduler a handler
    runs to its end, every statement failing or not, before the next begins: the
    scheduler has one leader and the jobs of a preview share a lock, but the API
    and a job may interleave in ways these histories do not show
    ([interleaved_requests_overlap] shows one).  What a forge,
    an agent or a container answers is an argument ([rights], [channel],
    [activity], [stopped], [pipeline], [command_end], [dispatch_end]), as are the
    slug of a preview ([slug_of]), the zone database ([LoadLocation]) and the
    normal form of a stored document ([jsonb]).  The cipher of the envelope is any
    instance of [Aead] with [AeadLaws] (what was sealed opens); compressor and
    digest are instances of [Codec] with [CodecLaws].  The rotation theorems
    suppose that nobody else writes the columns meanwhile, the exclusion of
    cleanups and deployments that statements take effect one at a time and a
    cleanup's lease outlives it, the backup theorems that the names of a new dump
    are not taken, the theorems on stacks that no service bears the name of another
    one's candidate ([well_named]) and that the stack was not adopted from another
    platform: the lemmas named above show what happens otherwise.  Random bytes
    come from any instance of [RandLaws].

    ** What is not modelled

    Passkeys and federated logins, cookies, the logins that go on after a failed
    reading of the settings or of the second factor (a failing statement ends the
    request in [Session]), the deliveries of the GitHub App
    ([ReceiveGithubAppWebhook]), the validation of numeric limits in
    compose files and the rate limiter, which compute in floating point, the
    timers of a tunnel and tunnels over HTTP; of deployments the values of
    environment variables and the storages and file mounts of the container; of
    stacks the reading of the YAML file, the body of a container and its
    fingerprints, and the map of the routes of a preview; the HTTP handlers
    other than those named above and the generated API, which are glue; the
    resolution of backup targets, the presigning of addresses, adapters to Docker,
    SSH and DNS, the adoption of foreign containers, SCIM, the terminal and the
    command-line client, which are input and output; notifications, feedback to
    forges, outbox events and step records, which no modelled decision reads; the
    remaining loops of the scheduler (scale-to-zero of applications, purges,
    certificates) and the election of its leader. *)
From Stdlib Require Export ZArith Lia.
From stdpp Require Export base list strings gmap sets sorting.

(** ** Notations of the development *)
Declare Scope go_scope.
Delimit Scope go_scope with go.

(** ** Machine integers

    Go's [int] is 64 bits wide on every platform the program is built for;
    arithmetic wraps silently. *)
Definition int64_min : Z := - 2 ^ 63.
Definition int64_max : Z := 2 ^ 63 - 1.
Definition wrap64 (z : Z) : Z := (z + 2 ^ 63) `mod` 2 ^ 64 - 2 ^ 63.
Definition wrap32 (z : Z) : Z := (z + 2 ^ 31) `mod` 2 ^ 32 - 2 ^ 31.
Definition in_int64 (z : Z) : Prop := (int64_min ≤ z ≤ int64_max)%Z.
Definition in_int32 (z : Z) : Prop := (- 2 ^ 31 ≤ z < 2 ^ 31)%Z.

Notation "a +64 b" := (wrap64 (a + b)) (at level 50, left associativity) : go_scope.
Notation "a +32 b" := (wrap32 (a + b)) (at level 50, left associativity) : go_scope.

(** The three facts every overflow argument uses. *)
Lemma wrap64_id z : in_int64 z → wrap64 z = z.
Proof. unfold in_int64, int64_min, int64_max, wrap64. intros. rewrite Z.mod_small; lia. Qed.

Lemma wrap32_id z : in_int32 z → wrap32 z = z.
Proof. unfold in_int32, wrap32. intros. rewrite Z.mod_small; lia. Qed.

Lemma wrap64_range z : in_int64 (wrap64 z).
Proof.
  unfold in_int64, int64_min, int64_max, wrap64.
  pose proof (Z.mod_pos_bound (z + 2 ^ 63) (2 ^ 64)). lia.
Qed.

(** ** Loops

    A Go [for] loop is a step function that either goes on with a new loop
    state or returns.  [run] iterates it at most [p] times, [p] in binary, so
    that a bound of millions of iterations costs nothing until it is used. *)
Inductive outcome (St R : Type) : Type :=
| Continue (s : St)
| Done (r : R).
Arguments Continue {_ _} _.
Arguments Done {_ _} _.

Section Loops.
Context {St R : Type} (step : St → outcome St R).

Fixpoint run (p : positive) (s : St) : outcome St R :=
  match p with
  | xH => step s
  | xO q => match run q s with Continue s' => run q s' | Done r => Done r end
  | xI q =>
      match step s with
      | Continue s1 => match run q s1 with Continue s' => run q s' | Done r => Done r end
      | Done r => Done r
      end
  end.

Fixpoint run_nat (n : nat) (s : St) : outcome St R :=
  match n with
  | O => Continue s
  | S n' => match step s with Continue s' => run_nat n' s' | Done r => Done r end
  end.

Lemma run_nat_add m n s :
  run_nat (m + n) s =
  match run_nat m s with Continue s' => run_nat n s' | Done r => Done r end.
Proof. revert s. induction m as [|m IH]; intros s; simpl; [done|]. destruct (step s); auto. Qed.

Lemma run_run_nat p s : run p s = run_nat (Pos.to_nat p) s.
Proof.
  revert s. induction p as [q IH|q IH|]; intros s; simpl run.
  - replace (Pos.to_nat (q~1)) with (S (Pos.to_nat q + Pos.to_nat q)) by lia.
    simpl. destruct (step s) as [s1|]; [|done].
    rewrite run_nat_add, <- IH. destruct (run q s1); [apply IH|done].
  - replace (Pos.to_nat (q~0)) with (Pos.to_nat q + Pos.to_nat q) by lia.
    rewrite run_nat_add, <- IH. destruct (run q s); [apply IH|done].
  - simpl. by destruct (step s).
Qed.

(** Total correctness of a loop: an invariant [I] preserved by the step, a
    measure [mu] it decreases, and a postcondition [Q] every return satisfies. *)
Lemma run_nat_total (I : St → Prop) (mu : St → nat) (Q : R → Prop) :
  (∀ s, I s → match step s with
              | Continue s' => I s' ∧ mu s' < mu s
              | Done r => Q r
              end) →
  ∀ n s, I s → mu s < n → ∃ r, run_nat n s = Done r ∧ Q r.
Proof.
  intros Hstep n. induction n as [|n IH]; intros s HI Hmu; [lia|].
  simpl. specialize (Hstep s HI). destruct (step s) as [s'|r]; [|eauto].
  destruct Hstep. apply IH; [done|lia].
Qed.

(** Divergence: a set of states the step never leaves and never returns from. *)
Lemma run_nat_diverges (I : St → Prop) :
  (∀ s, I s → ∃ s', step s = Continue s' ∧ I s') →
  ∀ n s, I s → ∃ s', run_nat n s = Continue s' ∧ I s'.
Proof.
  intros Hstep n. induction n as [|n IH]; intros s HI; simpl; [eauto|].
  destruct (Hstep s HI) as (s' & -> & HI'). by apply IH.
Qed.

(** More fuel never changes the answer of a loop that returned. *)
Lemma run_nat_mono m n s r : m ≤ n → run_nat m s = Done r → run_nat n s = Done r.
Proof.
  intros Hle Hm. replace n with (m + (n - m)) by lia. by rewrite run_nat_add, Hm.
Qed.
End Loops.

(** ** Step relations and reachability *)
Section Reach.
Context {St : Type} (R : St → St → Prop).

Inductive reachable_from (s0 : St) : St → Prop :=
| reach_here : reachable_from s0 s0
| reach_step s s' : reachable_from s0 s → R s s' → reachable_from s0 s'.

(** The invariant rule: what holds initially and is preserved by each step
    holds in every reachable state. *)
Lemma reachable_invariant (I : St → Prop) s0 :
  I s0 → (∀ s s', I s → R s s' → I s') → ∀ s, reachable_from s0 s → I s.
Proof. intros H0 Hstep s Hr. induction Hr; eauto. Qed.
End Reach.

Lemma forallb_false {A} (f : A → bool) l : forallb f l = false → ∃ x, x ∈ l ∧ f x = false.
Proof.
  induction l as [|x l IH]; [done|]. cbn. intros [Hx|Hl]%andb_false_iff.
  - exists x. split; [by left|done].
  - destruct (IH Hl) as (y & Hy & Hf). exists y. split; [by right|done].
Qed.

(** A list has at least as many elements as the set of them. *)
Lemma size_list_to_set_le `{Countable A} (l : list A) : size (list_to_set l : gset A) ≤ length l.
Proof.
  induction l as [|x l IH]; [done|]. cbn [list_to_set length].
  rewrite size_union_alt, size_singleton.
  pose proof (subseteq_size (list_to_set l ∖ {[ x ]}) (list_to_set l : gset A) ltac:(set_solver)). lia.
Qed.

(** ** Counting the entries of a finite map *)
Section Count.
Context {K A : Type} `{Countable K}.

Definition count (P : A → bool) (m : gmap K A) : Z :=
  Z.of_nat (size (filter (λ x, P x.2 = true) m)).

Definition b2z (b : bool) : Z := if b then 1%Z else 0%Z.

Lemma count_empty P : count P ∅ = 0%Z.
Proof. unfold count. by rewrite map_filter_empty, map_size_empty. Qed.

Lemma count_insert_new P m k x :
  m !! k = None → count P (<[ k := x ]> m) = (count P m + b2z (P x))%Z.
Proof.
  intros Hk. unfold count, b2z. destruct (P x) eqn:E.
  - rewrite map_filter_insert_True, map_size_insert_None by
      (try done; by apply map_lookup_filter_None_2; left). lia.
  - rewrite map_filter_insert_False, map_filter_delete by (simpl; congruence).
    rewrite delete_id; [lia|]. apply map_lookup_filter_None_2. by left.
Qed.

Lemma count_delete P m k x :
  m !! k = Some x → count P (delete k m) = (count P m - b2z (P x))%Z.
Proof.
  intros Hk. rewrite <- (insert_delete_id m k x Hk) at 2.
  rewrite count_insert_new by apply lookup_delete_eq. lia.
Qed.

Lemma count_insert P m k x y :
  m !! k = Some y → count P (<[ k := x ]> m) = (count P m - b2z (P y) + b2z (P x))%Z.
Proof.
  intros Hk. rewrite <- insert_delete_eq.
  rewrite count_insert_new by apply lookup_delete_eq. rewrite (count_delete P m k y Hk). lia.
Qed.

Lemma count_nonneg P m : (0 <= count P m)%Z.
Proof. unfold count. lia. Qed.

Lemma count_pos_lookup P m k x : m !! k = Some x → P x = true → (0 < count P m)%Z.
Proof.
  intros Hk Hx. pose proof (count_nonneg P (delete k m)) as Hn.
  rewrite (count_delete P m k x Hk), Hx in Hn. simpl in Hn. lia.
Qed.

(** Rewriting the entries counts no new one when the counted ones only shrink. *)
Lemma count_fmap_le P (f : A → A) m :
  (∀ x, P (f x) = true → P x = true) → (count P (f <$> m) <= count P m)%Z.
Proof.
  intros Hf. induction m as [|k x m Hk IH] using map_ind; [by rewrite fmap_empty|].
  rewrite fmap_insert, !count_insert_new by (rewrite ?lookup_fmap, ?Hk; done).
  specialize (Hf x). destruct (P (f x)); [rewrite Hf by done|]; destruct (P x); simpl; lia.
Qed.
End Count.

(** ** Automation *)
Create HintDb akd discriminated.
Create Rewrite HintDb akd.
#[export] Hint Resolve wrap64_range : akd.
#[export] Hint Rewrite @length_app @length_map @length_take @length_drop : akd.

(** Split every conditional of the goal or of a hypothesis and clean up. *)
Ltac split_ifs :=
  repeat match goal with
  | |- context [if ?b then _ else _] => let E := fresh "E" in destruct b eqn:E
  | H : context [if ?b then _ else _] |- _ => let E := fresh "E" in destruct b eqn:E
  end; simplify_eq/=.

(** Turn boolean tests on [Z], [nat] and [bool] into propositions. *)
Ltac reflect_bools :=
  repeat match goal with
  | H : (_ && _) = true |- _ => apply andb_prop in H as [? ?]
  | H : (_ && _) = false |- _ => apply andb_false_iff in H
  | H : (_ || _) = true |- _ => apply orb_prop in H
  | H : (_ || _) = false |- _ => apply orb_false_elim in H as [? ?]
  | H : negb _ = true |- _ => apply negb_true_iff in H
  | H : negb _ = false |- _ => apply negb_false_iff in H
  | H : bool_decide _ = true |- _ => apply bool_decide_eq_true in H
  | H : bool_decide _ = false |- _ => apply bool_decide_eq_false in H
  | H : (_ <? _)%Z = true |- _ => apply Z.ltb_lt in H
  | H : (_ <? _)%Z = false |- _ => apply Z.ltb_ge in H
  | H : (_ <=? _)%Z = true |- _ => apply Z.leb_le in H
  | H : (_ <=? _)%Z = false |- _ => apply Z.leb_gt in H
  | H : (_ =? _)%Z = true |- _ => apply Z.eqb_eq in H
  | H : (_ =? _)%Z = false |- _ => apply Z.eqb_neq in H
  end.
