(* ===== verification/GoLib.v ===== *)
(** * The part of the Go standard library the modelled code calls

    Go strings are byte strings, here [string] with one [ascii] per byte.
    [strings.Fields] and [strings.TrimSpace] follow [unicode.IsSpace] on UTF-8
    input: a multi-byte space is recognised by its encoding, which cannot
    overlap another character because its first byte is a lead byte.  Case
    mapping is the ASCII part of [strings.ToLower]/[strings.ToUpper]. *)
From S2P Require Import Prelude.
From Stdlib Require Export Ascii.
Local Open Scope Z_scope.

Lemma append_cons a s t : String a s +:+ t = String a (s +:+ t).
Proof. reflexivity. Qed.

Lemma append_empty_l t : EmptyString +:+ t = t.
Proof. reflexivity. Qed.

Lemma append_nil_r (s : string) : s +:+ EmptyString = s.
Proof. induction s as [|a s IH]; [done|]. rewrite append_cons. by f_equal. Qed.

Lemma append_assoc (a b c : string) : (a +:+ b) +:+ c = a +:+ (b +:+ c).
Proof. induction a as [|x a IH]; [done|]. rewrite !append_cons. by f_equal. Qed.

Lemma append_length (s t : string) : String.length (s +:+ t) = (String.length s + String.length t)%nat.
Proof. induction s as [|a s IH]; [done|]. rewrite append_cons. simpl. by rewrite IH. Qed.

Ltac str_simpl :=
  repeat match goal with
  | H : context [EmptyString +:+ _] |- _ => rewrite append_empty_l in H
  | H : context [String _ _ +:+ _] |- _ => rewrite append_cons in H
  | |- context [EmptyString +:+ _] => rewrite append_empty_l
  | |- context [String _ _ +:+ _] => rewrite append_cons
  end; simplify_eq/=.

Definition byte_val (a : ascii) : Z := Z.of_N (N_of_ascii a).

(** ** Prefixes, cuts and splits *)

(** [strings.CutPrefix] *)
Fixpoint cut_prefix (p s : string) : option string :=
  match p, s with
  | EmptyString, _ => Some s
  | String a p', String b s' => if decide (a = b) then cut_prefix p' s' else None
  | _, EmptyString => None
  end.

(** [strings.HasPrefix] *)
Definition has_prefix (s p : string) : bool :=
  match cut_prefix p s with Some _ => true | None => false end.

Lemma cut_prefix_Some p s t : cut_prefix p s = Some t ↔ s = p +:+ t.
Proof.
  revert s. induction p as [|a p IH]; intros s; simpl.
  { split; [by intros [= ->]|by intros ->]. }
  destruct s as [|b s]; [done|]. rewrite append_cons.
  destruct (decide (a = b)) as [->|Hab]; [rewrite IH; naive_solver|naive_solver].
Qed.

Lemma has_prefix_spec s p : has_prefix s p = true ↔ ∃ t, s = p +:+ t.
Proof.
  unfold has_prefix. destruct (cut_prefix p s) as [t|] eqn:E.
  - apply cut_prefix_Some in E. split; [by exists t|done].
  - split; [done|]. intros [t Ht]. apply cut_prefix_Some in Ht. congruence.
Qed.

(** [strings.Contains] *)
Fixpoint contains_sub (sub s : string) : bool :=
  has_prefix s sub || match s with EmptyString => false | String _ s' => contains_sub sub s' end.

(** [strings.Cut] with a one-byte separator. *)
Fixpoint cut (c : ascii) (s : string) : option (string * string) :=
  match s with
  | EmptyString => None
  | String a s' =>
      if decide (a = c) then Some (EmptyString, s')
      else match cut c s' with
           | Some (before, after) => Some (String a before, after)
           | None => None
           end
  end.

(** [strings.Split] with a one-byte separator: never empty. *)
Fixpoint split (c : ascii) (s : string) : list string :=
  match s with
  | EmptyString => [EmptyString]
  | String a s' =>
      if decide (a = c) then EmptyString :: split c s'
      else match split c s' with
           | [] => [String a EmptyString]
           | w :: ws => String a w :: ws
           end
  end.

(** [strings.Contains] with a one-byte needle. *)
Definition contains (c : ascii) (s : string) : bool :=
  match cut c s with Some _ => true | None => false end.

Fixpoint no_char (c : ascii) (s : string) : Prop :=
  match s with EmptyString => True | String a s' => a ≠ c ∧ no_char c s' end.

Lemma cut_Some c s b a : cut c s = Some (b, a) ↔ s = b +:+ String c a ∧ no_char c b.
Proof.
  revert b. induction s as [|x s IH]; intros b; simpl.
  { split; [done|]. intros [H _]. by destruct b. }
  destruct (decide (x = c)) as [->|Hx].
  - split; [intros [= <- <-]; done|].
    intros [H Hn]. destruct b as [|y b]; str_simpl; naive_solver.
  - split.
    + destruct (cut c s) as [[b' a']|] eqn:Hc; [|done]. intros [= <- <-].
      destruct (proj1 (IH b') eq_refl) as [-> ?]. done.
    + intros [H Hn]. destruct b as [|y b]; str_simpl. destruct Hn as [_ Hn].
      rewrite (proj2 (IH b)); done.
Qed.

Lemma split_not_nil c s : split c s ≠ [].
Proof. destruct s as [|a s]; simpl; [done|]. destruct (decide (a = c)); [done|]. by destruct (split c s). Qed.

Lemma split_no_char c s : Forall (no_char c) (split c s).
Proof.
  induction s as [|a s IH]; simpl; [by repeat constructor|].
  destruct (decide (a = c)) as [->|Ha]; [by constructor|].
  destruct (split c s) as [|w ws]; [by repeat constructor|].
  apply Forall_cons in IH as [Hw Hws]. by repeat constructor.
Qed.

Lemma split_single c w : no_char c w → split c w = [w].
Proof.
  induction w as [|a w IH]; [done|]. simpl. intros [Ha Hw]. rewrite decide_False by done.
  by rewrite (IH Hw).
Qed.

Lemma split_app c a b : split c (a +:+ String c b) = split c a ++ split c b.
Proof.
  induction a as [|x a IH]; [str_simpl; by rewrite decide_True|].
  rewrite append_cons. simpl. rewrite IH. destruct (decide (x = c)); [done|].
  destruct (split c a) as [|w ws] eqn:E; [by apply split_not_nil in E|done].
Qed.

(** ** Slash-separated paths *)

Definition slash : ascii := "/".

(** [strings.Join] with a slash. *)
Fixpoint join (l : list string) : string :=
  match l with
  | [] => ""
  | [w] => w
  | w :: l' => w +:+ String slash (join l')
  end.

Lemma split_join l : l ≠ [] → Forall (no_char slash) l → split slash (join l) = l.
Proof.
  induction l as [|w l IH]; [done|]. intros _ [Hw Hl]%Forall_cons. destruct l as [|v l].
  - by apply split_single.
  - change (join (w :: v :: l)) with (w +:+ String slash (join (v :: l))).
    rewrite split_app, (split_single _ _ Hw). by rewrite IH.
Qed.

Lemma join_split s : join (split slash s) = s.
Proof.
  induction s as [|a s IH]; [done|]. cbn [split]. pose proof (split_not_nil slash s) as Hne.
  destruct (decide (a = slash)) as [->|Ha]; (destruct (split slash s) as [|w ws]; [done|]).
  - change (join ("" :: w :: ws)) with (String slash (join (w :: ws))). by rewrite IH.
  - destruct ws; cbn in *; by rewrite <- IH.
Qed.

Lemma join_inj l k : l ≠ [] → k ≠ [] → Forall (no_char slash) l → Forall (no_char slash) k →
  join l = join k → l = k.
Proof. intros Hl Hk Fl Fk E. rewrite <- (split_join l Hl Fl), <- (split_join k Hk Fk). by rewrite E. Qed.

Lemma join_app l k : l ≠ [] → k ≠ [] → join (l ++ k) = join l +:+ String slash (join k).
Proof.
  intros Hl Hk. induction l as [|w l IH]; [done|]. destruct l as [|v l].
  - simpl. by destruct k.
  - change (join ((w :: v :: l) ++ k)) with (w +:+ String slash (join ((v :: l) ++ k))).
    change (join (w :: v :: l)) with (w +:+ String slash (join (v :: l))).
    rewrite IH by done. rewrite append_assoc. by rewrite append_cons.
Qed.

(** Going below a directory, on text and on components. *)
Lemma below_spec l k :
  l ≠ [] → k ≠ [] → Forall (no_char slash) l → Forall (no_char slash) k →
  join k = join l ∨ (∃ t, join k = join l +:+ String slash t) ↔ l `prefix_of` k.
Proof.
  intros Hl Hk Fl Fk. split.
  - intros [E|[t E]].
    + by rewrite (join_inj k l Hk Hl Fk Fl E).
    + exists (split slash t). rewrite <- (split_join k Hk Fk), E, split_app. by rewrite split_join.
  - intros [m ->]. destruct m as [|w m]; [left; by rewrite app_nil_r|right].
    rewrite join_app by done. eauto.
Qed.

(** ** Sorting *)

(** [sort.Strings]: any sort gives the same list. *)
Definition sort_strings : list string → list string := merge_sort String.le.

Lemma sort_strings_perm l : sort_strings l ≡ₚ l.
Proof. apply merge_sort_Permutation. Qed.

Lemma sort_strings_unique l1 l2 : l1 ≡ₚ l2 → sort_strings l1 = sort_strings l2.
Proof.
  intros Hp. apply (StronglySorted_unique String.le); [apply StronglySorted_merge_sort; apply _..|].
  unfold sort_strings. by rewrite !merge_sort_Permutation.
Qed.

(** ** White space *)
Inductive piece := Space (bytes : string) | Byte (b : ascii).

Definition ascii_space (a : ascii) : bool :=
  let v := byte_val a in (v =? 32) || ((9 <=? v) && (v <=? 13)).

(** U+0085 and U+00A0. *)
Definition space2 (a b : ascii) : bool :=
  (byte_val a =? 194) && ((byte_val b =? 133) || (byte_val b =? 160)).

(** U+1680, U+2000..U+200A, U+2028, U+2029, U+202F, U+205F and U+3000. *)
Definition space3 (a b c : ascii) : bool :=
  let '(x, y, z) := (byte_val a, byte_val b, byte_val c) in
  ((x =? 225) && (y =? 154) && (z =? 128)) ||
  ((x =? 226) && (y =? 128) &&
     (((128 <=? z) && (z <=? 138)) || (z =? 168) || (z =? 169) || (z =? 175))) ||
  ((x =? 226) && (y =? 129) && (z =? 159)) ||
  ((x =? 227) && (y =? 128) && (z =? 128)).

Fixpoint pieces (s : string) : list piece :=
  match s with
  | EmptyString => []
  | String a s1 =>
      if ascii_space a then Space (String a EmptyString) :: pieces s1
      else match s1 with
           | EmptyString => [Byte a]
           | String b s2 =>
               if space2 a b then Space (String a (String b EmptyString)) :: pieces s2
               else match s2 with
                    | EmptyString => Byte a :: pieces s1
                    | String c s3 =>
                        if space3 a b c
                        then Space (String a (String b (String c EmptyString))) :: pieces s3
                        else Byte a :: pieces s1
                    end
           end
  end.

Fixpoint unpieces (ps : list piece) : string :=
  match ps with
  | [] => EmptyString
  | Space w :: ps' => w +:+ unpieces ps'
  | Byte b :: ps' => String b (unpieces ps')
  end.

Fixpoint drop_spaces (ps : list piece) : list piece :=
  match ps with Space _ :: ps' => drop_spaces ps' | _ => ps end.

(** [strings.TrimSpace] *)
Definition trim_space (s : string) : string :=
  unpieces (reverse (drop_spaces (reverse (drop_spaces (pieces s))))).

(** [strings.Fields]: the maximal runs of non-space bytes. *)
Fixpoint fields_of (ps : list piece) (cur : string) : list string :=
  match ps with
  | [] => match cur with EmptyString => [] | _ => [cur] end
  | Space _ :: ps' =>
      match cur with
      | EmptyString => fields_of ps' EmptyString
      | _ => cur :: fields_of ps' EmptyString
      end
  | Byte b :: ps' => fields_of ps' (cur +:+ String b EmptyString)
  end.

Definition fields (s : string) : list string := fields_of (pieces s) EmptyString.

(** ** Decimal integers *)
Definition digit (a : ascii) : option Z :=
  let v := byte_val a in if (48 <=? v) && (v <=? 57) then Some (v - 48) else None.

Fixpoint digits (acc : Z) (s : string) : option Z :=
  match s with
  | EmptyString => Some acc
  | String a s' => match digit a with Some d => digits (10 * acc + d) s' | None => None end
  end.

Definition unsigned (s : string) : option Z :=
  match s with EmptyString => None | _ => digits 0 s end.

(** [strconv.Atoi]: an optional sign and decimal digits, in range of [int]. *)
Definition atoi (s : string) : option Z :=
  let signed :=
    match s with
    | String "-"%char s' => Z.opp <$> unsigned s'
    | String "+"%char s' => unsigned s'
    | _ => unsigned s
    end in
  match signed with
  | Some z => if (int64_min <=? z) && (z <=? int64_max) then Some z else None
  | None => None
  end.

Lemma atoi_range s z : atoi s = Some z → in_int64 z.
Proof.
  unfold atoi, in_int64. intros H. case_match; [|done]. split_ifs. reflect_bools. lia.
Qed.

(** ** Case mapping *)
Definition lower_byte (a : ascii) : ascii :=
  let v := N_of_ascii a in
  if (N.leb 65 v && N.leb v 90)%bool then ascii_of_N (v + 32) else a.
Definition upper_byte (a : ascii) : ascii :=
  let v := N_of_ascii a in
  if (N.leb 97 v && N.leb v 122)%bool then ascii_of_N (v - 32) else a.

Fixpoint map_string (f : ascii → ascii) (s : string) : string :=
  match s with EmptyString => EmptyString | String a s' => String (f a) (map_string f s') end.

(** [strings.ToLower], [strings.ToUpper] *)
Definition to_lower : string → string := map_string lower_byte.
Definition to_upper : string → string := map_string upper_byte.

(** [strings.ToUpper] as far as ASCII can come out of it: besides the small
    letters, U+0131 and U+017F map to [I] and [S]; every other character beyond
    ASCII stays beyond it, and is left as it is here. *)
Fixpoint ToUpper (s : string) : string :=
  match s with
  | EmptyString => EmptyString
  | String a s1 =>
      match s1 with
      | String b s2 =>
          if (byte_val a =? 196) && (byte_val b =? 177) then String "I" (ToUpper s2)
          else if (byte_val a =? 197) && (byte_val b =? 191) then String "S" (ToUpper s2)
          else String (upper_byte a) (ToUpper s1)
      | EmptyString => String (upper_byte a) EmptyString
      end
  end.

(** [strings.ToLower] likewise: U+0130 and U+212A map to [i] and [k]. *)
Fixpoint ToLower (s : string) : string :=
  match s with
  | EmptyString => EmptyString
  | String a s1 =>
      match s1 with
      | String b s2 =>
          if (byte_val a =? 196) && (byte_val b =? 176) then String "i" (ToLower s2)
          else match s2 with
               | String c s3 =>
                   if (byte_val a =? 226) && (byte_val b =? 132) && (byte_val c =? 170) then String "k" (ToLower s3)
                   else String (lower_byte a) (ToLower s1)
               | EmptyString => String (lower_byte a) (ToLower s1)
               end
      | EmptyString => String (lower_byte a) EmptyString
      end
  end.

Example fields_ex : fields " */5  0 1,2 * 1-5 " = ["*/5"; "0"; "1,2"; "*"; "1-5"].
Proof. reflexivity. Qed.
Example atoi_ex : (atoi "-12", atoi "+7", atoi "", atoi "1x") = (Some (-12), Some 7, None, None).
Proof. reflexivity. Qed.

(** ** Positional notation

    The digits of a number in a base, most significant first: big-endian
    integers ([encoding/binary]), base32 and decimal padding are instances. *)
Fixpoint pos_digits (b : Z) (n : nat) (z : Z) : list Z :=
  match n with
  | O => []
  | S n' => (z / b ^ Z.of_nat n') `mod` b :: pos_digits b n' z
  end.
Definition pos_value (b : Z) (l : list Z) : Z := foldl (λ acc d, acc * b + d) 0 l.

Definition is_digit (b d : Z) : Prop := 0 <= d < b.

Lemma pos_digits_length b n z : length (pos_digits b n z) = n.
Proof. induction n; simpl; auto. Qed.

Lemma pos_digits_Forall b n z : 0 < b → Forall (is_digit b) (pos_digits b n z).
Proof.
  intros Hb. induction n; simpl; constructor; [|done]. unfold is_digit. apply Z.mod_pos_bound. lia.
Qed.

Lemma foldl_pos_value b acc l :
  foldl (λ a d, a * b + d) acc l = acc * b ^ Z.of_nat (length l) + pos_value b l.
Proof.
  unfold pos_value. revert acc. induction l as [|d l IH]; intros acc; cbn [foldl length]; [simpl; lia|].
  rewrite (IH (acc * b + d)), (IH (0 * b + d)). rewrite Nat2Z.inj_succ, Z.pow_succ_r by lia. lia.
Qed.

Lemma pos_value_cons b d l : pos_value b (d :: l) = d * b ^ Z.of_nat (length l) + pos_value b l.
Proof. unfold pos_value at 1. cbn [foldl]. by rewrite foldl_pos_value. Qed.

Lemma pos_value_range b l : 0 < b → Forall (is_digit b) l → 0 <= pos_value b l < b ^ Z.of_nat (length l).
Proof.
  intros Hb. induction 1 as [|d l Hd _ IH]; [done|]. rewrite pos_value_cons. simpl length.
  rewrite Nat2Z.inj_succ, Z.pow_succ_r by lia. unfold is_digit in Hd. nia.
Qed.

Lemma pos_value_digits b n z : 0 < b → pos_value b (pos_digits b n z) = z `mod` b ^ Z.of_nat n.
Proof.
  intros Hb. induction n as [|n IH]; simpl pos_digits.
  - unfold pos_value. simpl. by rewrite Z.mod_1_r.
  - rewrite pos_value_cons, IH, pos_digits_length.
    rewrite Nat2Z.inj_succ, Z.pow_succ_r, (Z.mul_comm b) by lia.
    rewrite Z.rem_mul_r by (try apply Z.pow_nonzero; lia). lia.
Qed.

Lemma pos_digits_add b n q z :
  0 < b → pos_digits b n (q * b ^ Z.of_nat n + z) = pos_digits b n z.
Proof.
  intros Hb. revert q. induction n as [|n IH]; intros q; [done|]. cbn [pos_digits].
  replace (q * b ^ Z.of_nat (S n) + z) with (q * b * b ^ Z.of_nat n + z)
    by (rewrite Nat2Z.inj_succ, Z.pow_succ_r by lia; lia).
  f_equal; [|apply IH]. rewrite Z.div_add_l by (apply Z.pow_nonzero; lia).
  rewrite Z.add_comm. apply Z_mod_plus_full.
Qed.

Lemma pos_digits_value b l :
  0 < b → Forall (is_digit b) l → pos_digits b (length l) (pos_value b l) = l.
Proof.
  intros Hb. induction 1 as [|d l Hd Hl IH]; [done|]. simpl length. cbn [pos_digits].
  rewrite pos_value_cons. pose proof (pos_value_range b l Hb Hl). f_equal.
  - rewrite Z.div_add_l by lia. rewrite (Z.div_small (pos_value b l)) by done.
    unfold is_digit in Hd. rewrite Z.add_0_r. by apply Z.mod_small.
  - rewrite pos_digits_add by done. exact IH.
Qed.

Lemma pos_digits_app b m n z :
  0 < b → pos_digits b (m + n) z = pos_digits b m (z / b ^ Z.of_nat n) ++ pos_digits b n z.
Proof.
  intros Hb. induction m as [|m IH]; [done|]. cbn [pos_digits Nat.add app]. f_equal; [|exact IH].
  rewrite Z.div_div by lia. by rewrite <- Z.pow_add_r, <- Nat2Z.inj_add, (Nat.add_comm n) by lia.
Qed.

(** Only the low digits count. *)
Lemma pos_digits_mod b n z : 0 < b → pos_digits b n z = pos_digits b n (z `mod` b ^ Z.of_nat n).
Proof.
  intros Hb. rewrite (Z.div_mod z (b ^ Z.of_nat n)) at 1 by (apply Z.pow_nonzero; lia).
  by rewrite Z.mul_comm, pos_digits_add.
Qed.

Lemma pos_value_snoc b l d : pos_value b (l ++ [d]) = pos_value b l * b + d.
Proof. unfold pos_value. by rewrite foldl_app. Qed.

Lemma pos_value_inj b l m :
  0 < b → Forall (is_digit b) l → Forall (is_digit b) m → length l = length m →
  pos_value b l = pos_value b m → l = m.
Proof.
  intros Hb Hl Hm Hlen Hv. rewrite <- (pos_digits_value b l), <- (pos_digits_value b m) by done.
  by rewrite Hlen, Hv.
Qed.

(** ** Printable ASCII: [TrimSpace] leaves it alone *)
Definition plain (a : ascii) : Prop := 33 <= byte_val a <= 126.

Lemma pieces_plain l :
  Forall plain l → pieces (String.string_of_list_ascii l) = Byte <$> l.
Proof.
  induction 1 as [|a l Ha Hl IH]; [done|]. simpl. unfold plain in Ha.
  assert (Hs : ascii_space a = false) by (unfold ascii_space; lia). rewrite Hs.
  destruct l as [|b l]; [done|]. simpl in *.
  assert (H2 : space2 a b = false) by (unfold space2; lia). rewrite H2.
  destruct l as [|c l]; [by rewrite <- IH|]. simpl in *.
  assert (H3 : space3 a b c = false) by (unfold space3; lia). rewrite H3. by rewrite <- IH.
Qed.

Lemma unpieces_bytes l : unpieces (Byte <$> l) = String.string_of_list_ascii l.
Proof. induction l as [|a l IH]; [done|]. cbn. f_equal. exact IH. Qed.

Lemma drop_spaces_bytes l : drop_spaces (Byte <$> l) = Byte <$> l.
Proof. by destruct l. Qed.

Lemma trim_space_plain l :
  Forall plain l → trim_space (String.string_of_list_ascii l) = String.string_of_list_ascii l.
Proof.
  intros Hl. unfold trim_space. rewrite (pieces_plain l Hl), drop_spaces_bytes, <- fmap_reverse,
    drop_spaces_bytes, <- fmap_reverse, reverse_involutive. apply unpieces_bytes.
Qed.

(** ** Bytes *)

Definition bytes_of (s : string) : list Z := byte_val <$> String.list_ascii_of_string s.
Definition ascii_of_byte (z : Z) : ascii := ascii_of_N (Z.to_N z).
Definition string_of_bytes (l : list Z) : string := String.string_of_list_ascii (ascii_of_byte <$> l).

(** Big-endian integers of a given number of bytes. *)
Definition be_bytes : nat → Z → list Z := pos_digits 256.
Definition be_value : list Z → Z := pos_value 256.

Definition is_byte : Z → Prop := is_digit 256.

Lemma string_ascii_inv l : String.list_ascii_of_string (String.string_of_list_ascii l) = l.
Proof. apply String.list_ascii_of_string_of_list_ascii. Qed.

Lemma byte_val_is_byte a : is_byte (byte_val a).
Proof. unfold is_byte, is_digit, byte_val. pose proof (N_ascii_bounded a). lia. Qed.

Lemma byte_val_ascii z : is_byte z → byte_val (ascii_of_byte z) = z.
Proof.
  intros [H1 H2]. unfold byte_val, ascii_of_byte. rewrite N_ascii_embedding by lia. lia.
Qed.

Lemma bytes_of_string l : Forall is_byte l → bytes_of (string_of_bytes l) = l.
Proof.
  intros Hl. unfold bytes_of, string_of_bytes. rewrite string_ascii_inv, <- list_fmap_compose.
  induction Hl as [|z l Hz _ IH]; [done|]. csimpl. f_equal; [by apply byte_val_ascii|exact IH].
Qed.

(** 32-bit words. *)
Definition mask32 (z : Z) : Z := z `mod` 2 ^ 32.
