(* ===== verification/Crypto.v ===== *)
(** * HMAC-SHA256 and hexadecimal

    The parts of [crypto/sha256], [crypto/hmac] and [encoding/hex] the webhook
    signatures rest on, executable, so that a published signature can be
    computed and checked here. *)
From S2P Require Import Prelude GoLib.
Local Open Scope Z_scope.

(** ** SHA-256 *)

Definition rotr (n x : Z) : Z := mask32 (Z.lor (Z.shiftr x n) (Z.shiftl x (32 - n))).

Definition sha256_k : list Z :=
  [1116352408; 1899447441; 3049323471; 3921009573; 961987163; 1508970993; 2453635748; 2870763221;
   3624381080; 310598401; 607225278; 1426881987; 1925078388; 2162078206; 2614888103; 3248222580;
   3835390401; 4022224774; 264347078; 604807628; 770255983; 1249150122; 1555081692; 1996064986;
   2554220882; 2821834349; 2952996808; 3210313671; 3336571891; 3584528711; 113926993; 338241895;
   666307205; 773529912; 1294757372; 1396182291; 1695183700; 1986661051; 2177026350; 2456956037;
   2730485921; 2820302411; 3259730800; 3345764771; 3516065817; 3600352804; 4094571909; 275423344;
   430227734; 506948616; 659060556; 883997877; 958139571; 1322822218; 1537002063; 1747873779;
   1955562222; 2024104815; 2227730452; 2361852424; 2428436474; 2756734187; 3204031479; 3329325298].

(** The message schedule, newest word first. *)
Fixpoint sha256_schedule (n : nat) (w : list Z) : list Z :=
  match n with
  | O => w
  | S n' =>
      let at' i := nth i w 0 in
      let s0 := Z.lxor (Z.lxor (rotr 7 (at' 14%nat)) (rotr 18 (at' 14%nat))) (Z.shiftr (at' 14%nat) 3) in
      let s1 := Z.lxor (Z.lxor (rotr 17 (at' 1%nat)) (rotr 19 (at' 1%nat))) (Z.shiftr (at' 1%nat) 10) in
      sha256_schedule n' (mask32 (at' 15%nat + s0 + at' 6%nat + s1) :: w)
  end.

Definition sha256_round (st : list Z) (kw : Z * Z) : list Z :=
  match st with
  | [a; b; c; d; e; f; g; h] =>
      let s1 := Z.lxor (Z.lxor (rotr 6 e) (rotr 11 e)) (rotr 25 e) in
      let ch := Z.lxor (Z.land e f) (Z.land (Z.lxor e (2 ^ 32 - 1)) g) in
      let t1 := h + s1 + ch + kw.1 + kw.2 in
      let s0 := Z.lxor (Z.lxor (rotr 2 a) (rotr 13 a)) (rotr 22 a) in
      let maj := Z.lxor (Z.lxor (Z.land a b) (Z.land a c)) (Z.land b c) in
      [mask32 (t1 + s0 + maj); a; b; c; mask32 (d + t1); e; f; g]
  | _ => st
  end.

Definition sha256_block (h block : list Z) : list Z :=
  let words := (λ i, be_value (take 4 (drop (4 * i) block))) <$> seq 0 16 in
  let w := rev (sha256_schedule 48 (rev words)) in
  zip_with (λ x y, mask32 (x + y)) h (foldl sha256_round h (zip sha256_k w)).

Definition sha256_pad (m : list Z) : list Z :=
  let n := Z.of_nat (length m) in
  m ++ [128] ++ replicate (Z.to_nat ((55 - n) `mod` 64)) 0 ++ be_bytes 8 (8 * n).

Fixpoint sha256_blocks (n : nat) (h m : list Z) : list Z :=
  match n with
  | O => h
  | S n' => sha256_blocks n' (sha256_block h (take 64 m)) (drop 64 m)
  end.

Definition sha256_init : list Z :=
  [1779033703; 3144134277; 1013904242; 2773480762; 1359893119; 2600822924; 528734635; 1541459225].

Definition sha256 (m : list Z) : list Z :=
  let p := sha256_pad m in
  sha256_blocks (length p / 64)%nat sha256_init p ≫= be_bytes 4.

(** [hmac.New(sha256.New, key)], one [Write], [Sum(nil)]. *)
Definition hmac_sha256 (key msg : list Z) : list Z :=
  let key := if (64 <? length key)%nat then sha256 key else key in
  let key := key ++ replicate (64 - length key)%nat 0 in
  sha256 ((Z.lxor 92 <$> key) ++ sha256 ((Z.lxor 54 <$> key) ++ msg)).

(** ** Hexadecimal *)

Definition hex_digit (v : Z) : ascii := ascii_of_byte (if v <? 10 then 48 + v else 87 + v).
Definition hex_value (a : ascii) : option Z :=
  let v := byte_val a in
  if (48 <=? v) && (v <=? 57) then Some (v - 48)
  else if (97 <=? v) && (v <=? 102) then Some (v - 87)
  else if (65 <=? v) && (v <=? 70) then Some (v - 55)
  else None.

(** [hex.EncodeToString] *)
Definition EncodeToString (l : list Z) : string :=
  String.string_of_list_ascii (l ≫= λ b, [hex_digit (b / 16); hex_digit (b `mod` 16)]).

(** [hex.DecodeString] *)
Fixpoint DecodeString (s : string) : option (list Z) :=
  match s with
  | EmptyString => Some []
  | String a (String b s') =>
      x ← hex_value a; y ← hex_value b; l ← DecodeString s'; Some (16 * x + y :: l)
  | String _ EmptyString => None
  end.

(** ** The codec *)

Definition hex_digit_ok (n : nat) : bool :=
  let c := hex_digit (Z.of_nat n) in
  bool_decide (hex_value c = Some (Z.of_nat n)) && (33 <=? byte_val c) && (byte_val c <=? 126).

Lemma hex_digits_ok : forallb hex_digit_ok (seq 0 16) = true.
Proof. vm_compute. reflexivity. Qed.

Lemma hex_digit_spec v : is_digit 16 v → hex_value (hex_digit v) = Some v ∧ plain (hex_digit v).
Proof.
  intros Hv. unfold is_digit in Hv. pose proof hex_digits_ok as H. rewrite forallb_forall in H.
  specialize (H (Z.to_nat v)). rewrite in_seq in H. specialize (H ltac:(lia)).
  unfold hex_digit_ok in H. rewrite Z2Nat.id in H by lia. unfold plain. reflect_bools. auto.
Qed.

Lemma byte_digits b : is_byte b → is_digit 16 (b / 16) ∧ is_digit 16 (b `mod` 16).
Proof.
  unfold is_byte, is_digit. intros Hb. pose proof (Z.mod_pos_bound b 16 ltac:(lia)).
  split; [split; [apply Z.div_pos; lia|apply Z.div_lt_upper_bound; lia]|lia].
Qed.

Lemma DecodeString_Encode l : Forall is_byte l → DecodeString (EncodeToString l) = Some l.
Proof.
  unfold EncodeToString. induction 1 as [|b l Hb _ IH]; [done|]. destruct (byte_digits b Hb) as [H1 H2].
  csimpl. rewrite (proj1 (hex_digit_spec _ H1)), (proj1 (hex_digit_spec _ H2)). simpl. rewrite IH. simpl.
  do 2 f_equal. symmetry. apply Z.div_mod. lia.
Qed.

Lemma EncodeToString_plain l :
  Forall is_byte l → trim_space (EncodeToString l) = EncodeToString l.
Proof.
  intros Hl. apply trim_space_plain. induction Hl as [|b l Hb _ IH]; [constructor|].
  destruct (byte_digits b Hb) as [H1 H2]. csimpl.
  repeat constructor; [by apply hex_digit_spec..|exact IH].
Qed.

Lemma sha256_bytes m : Forall is_byte (sha256 m).
Proof.
  unfold sha256. apply Forall_bind. apply Forall_forall. intros x _. by apply pos_digits_Forall.
Qed.

Lemma hmac_sha256_bytes key msg : Forall is_byte (hmac_sha256 key msg).
Proof. apply sha256_bytes. Qed.

Lemma sha256_rounds_length kws st : length (foldl sha256_round st kws) = length st.
Proof.
  revert st. induction kws as [|kw kws IH]; intros st; [done|]. cbn [foldl]. rewrite IH.
  unfold sha256_round. do 9 (destruct st as [|? st]; [done|]). done.
Qed.

Lemma sha256_blocks_length n h m : length (sha256_blocks n h m) = length h.
Proof.
  revert h m. induction n as [|n IH]; intros h m; [done|]. cbn [sha256_blocks]. rewrite IH.
  unfold sha256_block. cbv zeta. rewrite length_zip_with, sha256_rounds_length. lia.
Qed.

(** A digest has 32 bytes. *)
Lemma sha256_length m : length (sha256 m) = 32%nat.
Proof.
  unfold sha256. cbv zeta.
  assert (length (sha256_blocks (length (sha256_pad m) / 64)%nat sha256_init (sha256_pad m)) = 8%nat) as H8
    by by rewrite sha256_blocks_length.
  generalize dependent (sha256_blocks (length (sha256_pad m) / 64)%nat sha256_init (sha256_pad m)).
  intros l H8. do 8 (destruct l as [|? l]; [done|]). destruct l; [|done].
  cbn [mbind list_bind]. rewrite !length_app. unfold be_bytes. rewrite !pos_digits_length. done.
Qed.

Lemma EncodeToString_length l : String.length (EncodeToString l) = (2 * length l)%nat.
Proof.
  unfold EncodeToString. induction l as [|b l IH]; [done|]. csimpl. rewrite IH. lia.
Qed.

(** FIPS 180-4, one block, and the empty message. *)
Example sha256_abc :
  EncodeToString (sha256 (bytes_of "abc")) =
  "ba7816bf8f01cfea414140de5dae2223b00361a396177a9cb410ff61f20015ad".
Proof. vm_compute. reflexivity. Qed.
Example sha256_empty :
  EncodeToString (sha256 []) = "e3b0c44298fc1c149afbf4c8996fb92427ae41e4649b934ca495991b7852b855".
Proof. vm_compute. reflexivity. Qed.
