(* ===== verification/Calendar.v ===== *)
(** * Instants, zones and the civil calendar

    The part of Go's [time] package the schedulers use: an instant is a number
    of nanoseconds since the Unix epoch, a [Location] a sorted table of offset
    changes, and [Date]/[AddDate] build instants from wall-clock fields with
    the normalisation and the zone lookup of the standard library. *)
From S2P Require Import Prelude.
Local Open Scope Z_scope.

Definition second : Z := 1000000000.
Definition minute : Z := 60 * second.
Definition hour : Z := 60 * minute.

(** ** Days and civil dates (proleptic Gregorian) *)

(** Days since 1970-01-01 of a year, a month in 1..12 and a day; the day may
    overflow the month. *)
Definition days_from_civil (y m d : Z) : Z :=
  let y' := if m <=? 2 then y - 1 else y in
  let era := y' `div` 400 in
  let yoe := y' `mod` 400 in
  let mp := (m + 9) `mod` 12 in
  let doy := (153 * mp + 2) `div` 5 + d - 1 in
  era * 146097 + (yoe * 365 + yoe `div` 4 - yoe `div` 100 + doy) - 719468.

(** Year, month and day of a number of days since 1970-01-01. *)
Definition civil_from_days (n : Z) : Z * Z * Z :=
  let z := n + 719468 in
  let era := z `div` 146097 in
  let doe := z `mod` 146097 in
  let yoe := (doe - doe `div` 1460 + doe `div` 36524 - doe `div` 146096) `div` 365 in
  let doy := doe - (365 * yoe + yoe `div` 4 - yoe `div` 100) in
  let mp := (5 * doy + 2) `div` 153 in
  let d := doy - (153 * mp + 2) `div` 5 + 1 in
  let m := if mp <? 10 then mp + 3 else mp - 9 in
  (yoe + era * 400 + (if m <=? 2 then 1 else 0), m, d).

(** Months are numbered consecutively: month [m] of year [y] is
    [12 * y + (m - 1)]. *)
Definition month_index (n : Z) : Z :=
  let '(y, m, _) := civil_from_days n in 12 * y + (m - 1).
Definition month_start (M : Z) : Z := days_from_civil (M `div` 12) (M `mod` 12 + 1) 1.

Definition year_of (n : Z) : Z := let '(y, _, _) := civil_from_days n in y.
Definition month_of (n : Z) : Z := let '(_, m, _) := civil_from_days n in m.
Definition day_of (n : Z) : Z := let '(_, _, d) := civil_from_days n in d.

(** Sunday is 0; 1970-01-01 was a Thursday. *)
Definition weekday_of (n : Z) : Z := (n + 4) `mod` 7.

(** *** Correctness of the calendar *)

(** Linear arithmetic with divisions by constants. *)
Ltac dlia := zify; Z.to_euclidean_division_equations; lia.

(** Counting months from March puts the leap day at the end of the year, and
    the first day of a month becomes a sum of floor divisions. *)
Lemma month_start_march M :
  month_start M =
    365 * ((M - 2) `div` 12) + ((M - 2) `div` 12) `div` 4 - ((M - 2) `div` 12) `div` 100 +
    ((M - 2) `div` 12) `div` 400 + (153 * ((M - 2) `mod` 12) + 2) `div` 5 - 719468.
Proof.
  unfold month_start, days_from_civil.
  assert ((M `mod` 12 + 1 + 9) `mod` 12 = (M - 2) `mod` 12) as -> by dlia.
  assert ((if M `mod` 12 + 1 <=? 2 then M `div` 12 - 1 else M `div` 12) = (M - 2) `div` 12) as ->
    by (destruct (Z.leb_spec (M `mod` 12 + 1) 2); dlia).
  set (y := (M - 2) `div` 12). set (mp := (M - 2) `mod` 12). dlia.
Qed.

Lemma month_start_succ M : month_start M < month_start (M + 1).
Proof.
  rewrite !month_start_march. replace (M + 1 - 2) with (M - 2 + 1) by lia.
  set (K := M - 2). assert (K `mod` 12 < 11 ∨ K `mod` 12 = 11) as [Hk|Hk] by dlia.
  - assert ((K + 1) `div` 12 = K `div` 12) as -> by dlia.
    assert ((K + 1) `mod` 12 = K `mod` 12 + 1) as -> by dlia. dlia.
  - assert ((K + 1) `div` 12 = K `div` 12 + 1) as -> by dlia.
    assert ((K + 1) `mod` 12 = 0) as -> by dlia. rewrite Hk. dlia.
Qed.

Lemma month_start_mono M N : M ≤ N → month_start M ≤ month_start N.
Proof.
  intros H. replace N with (M + Z.of_nat (Z.to_nat (N - M))) by lia.
  induction (Z.to_nat (N - M)) as [|k IH]; [by rewrite Z.add_0_r|].
  pose proof (month_start_succ (M + Z.of_nat k)).
  replace (M + Z.of_nat (S k)) with (M + Z.of_nat k + 1) by lia. lia.
Qed.

(** Day of a 400-year cycle to year of the cycle: the closed formula picks the
    year whose first day (counted from March) is not after it. *)
Lemma year_of_era_ok doe :
  0 ≤ doe < 146097 →
  let yoe := (doe - doe `div` 1460 + doe `div` 36524 - doe `div` 146096) `div` 365 in
  0 ≤ yoe ≤ 399 ∧ 365 * yoe + yoe `div` 4 - yoe `div` 100 ≤ doe ∧
  doe - (365 * yoe + yoe `div` 4 - yoe `div` 100) ≤
    365 + (yoe + 1) `div` 4 - yoe `div` 4 - ((yoe + 1) `div` 100 - yoe `div` 100)
    + (yoe + 1) `div` 400 - 1.
Proof. intros Hd yoe. subst yoe. dlia. Qed.

Lemma day_of_year_ok doy :
  0 ≤ doy ≤ 365 →
  let mp := (5 * doy + 2) `div` 153 in
  0 ≤ mp ≤ 11 ∧ (153 * mp + 2) `div` 5 ≤ doy ∧ (mp < 11 → doy < (153 * (mp + 1) + 2) `div` 5).
Proof. intros Hd mp. subst mp. dlia. Qed.

Lemma civil_month_ok n :
  let '(y, m, d) := civil_from_days n in
  let M := 12 * y + (m - 1) in
  month_start M ≤ n < month_start (M + 1) ∧ 1 ≤ m ≤ 12 ∧ d = n - month_start M + 1.
Proof.
  unfold civil_from_days.
  pose proof (Z.div_mod (n + 719468) 146097 ltac:(lia)) as Hn.
  pose proof (Z.mod_pos_bound (n + 719468) 146097 ltac:(lia)) as Hr.
  set (era := (n + 719468) `div` 146097) in *.
  set (doe := (n + 719468) `mod` 146097) in *.
  destruct (year_of_era_ok doe Hr) as (Hy & Hlo & Hhi).
  set (yoe := (doe - _ + _ - _) `div` 365) in *.
  set (doy := doe - (365 * yoe + yoe `div` 4 - yoe `div` 100)) in *.
  destruct (day_of_year_ok doy) as (Hm & Hml & Hmh); [dlia|].
  set (mp := (5 * doy + 2) `div` 153) in *.
  assert (∀ Y m, Y = yoe + era * 400 + (if m <=? 2 then 1 else 0) →
                 m = (if mp <? 10 then mp + 3 else mp - 9) →
                 12 * Y + (m - 1) - 2 = 12 * (yoe + era * 400) + mp) as HM.
  { intros Y m -> ->. destruct (Z.ltb_spec mp 10).
    - destruct (Z.leb_spec (mp + 3) 2); lia.
    - destruct (Z.leb_spec (mp - 9) 2); lia. }
  specialize (HM _ _ eq_refl eq_refl). simpl in HM |- *.
  set (M := 12 * _ + _) in *. rewrite !month_start_march.
  replace (M + 1 - 2) with (M - 2 + 1) by lia. rewrite HM.
  set (y := yoe + era * 400) in *.
  assert (365 * y + y `div` 4 - y `div` 100 + y `div` 400 =
          era * 146097 + (365 * yoe + yoe `div` 4 - yoe `div` 100)) as Hyear by (subst y; dlia).
  assert ((12 * y + mp) `div` 12 = y) as -> by dlia.
  assert ((12 * y + mp) `mod` 12 = mp) as -> by dlia.
  split; [|split; [destruct (Z.ltb_spec mp 10); lia|lia]].
  split; [lia|]. destruct (decide (mp = 11)) as [->|].
  - assert ((12 * y + 11 + 1) `div` 12 = y + 1) as -> by dlia.
    assert ((12 * y + 11 + 1) `mod` 12 = 0) as -> by dlia.
    subst y. clear Hyear HM Hml Hmh. dlia.
  - assert ((12 * y + mp + 1) `div` 12 = y) as -> by dlia.
    assert ((12 * y + mp + 1) `mod` 12 = mp + 1) as -> by dlia. lia.
Qed.

(** The month of a day is the unique one whose first day and whose successor's
    first day enclose it. *)
Lemma month_index_bounds n :
  month_start (month_index n) ≤ n < month_start (month_index n + 1) ∧
  1 ≤ month_of n ≤ 12 ∧ day_of n = n - month_start (month_index n) + 1 ∧
  month_index n = 12 * year_of n + (month_of n - 1).
Proof.
  pose proof (civil_month_ok n) as H. unfold month_index, month_of, day_of, year_of in *.
  destruct (civil_from_days n) as [[y m] d]. lia.
Qed.

Lemma month_index_unique n M : month_start M ≤ n < month_start (M + 1) → month_index n = M.
Proof.
  intros H. destruct (month_index_bounds n) as [Hb _].
  destruct (Z.lt_trichotomy (month_index n) M) as [?|[?|?]]; [|done|].
  - pose proof (month_start_mono (month_index n + 1) M ltac:(lia)). lia.
  - pose proof (month_start_mono (M + 1) (month_index n) ltac:(lia)). lia.
Qed.

Lemma month_of_index n : month_of n = month_index n `mod` 12 + 1.
Proof.
  destruct (month_index_bounds n) as (_ & Hm & _ & ->).
  replace (12 * year_of n + (month_of n - 1)) with (month_of n - 1 + year_of n * 12) by lia.
  rewrite Z.mod_add, Z.mod_small by lia. lia.
Qed.

(** The inverse: the days of a date are where the calendar puts it. *)
Lemma days_from_civil_month y m d :
  1 ≤ m ≤ 12 → days_from_civil y m d = month_start (12 * y + (m - 1)) + (d - 1).
Proof.
  intros Hm. unfold month_start.
  replace (12 * y + (m - 1)) with (m - 1 + y * 12) by lia.
  rewrite Z.mod_add, Z.div_add, Z.mod_small, Z.div_small by lia.
  replace (m - 1 + 1) with m by lia. replace (0 + y) with y by lia.
  unfold days_from_civil. lia.
Qed.

Lemma days_of_civil n : days_from_civil (year_of n) (month_of n) (day_of n) = n.
Proof.
  destruct (month_index_bounds n) as (Hb & Hm & Hd & Hi).
  rewrite days_from_civil_month, <- Hi by done. lia.
Qed.

(** ** Zones *)
Record Location := mkLocation { zone_base : Z; zone_tx : list (Z * Z) }.

Definition UTC : Location := mkLocation 0 [].
Definition fixed_zone (c : Z) : Location := mkLocation c [].

(** [Location.lookup]: the offset in force at a Unix second and the interval
    it is in force for. *)
Fixpoint lookup_tx (start : option Z) (off : Z) (tx : list (Z * Z)) (sec : Z)
    : Z * option Z * option Z :=
  match tx with
  | [] => (off, start, None)
  | (w, o) :: tx' => if sec <? w then (off, start, Some w) else lookup_tx (Some w) o tx' sec
  end.

Definition lookup (loc : Location) (sec : Z) : Z * option Z * option Z :=
  lookup_tx None (zone_base loc) (zone_tx loc) sec.

Definition offset (loc : Location) (sec : Z) : Z := let '(o, _, _) := lookup loc sec in o.

(** ** Instants *)
Definition unix (t : Z) : Z := t `div` second.

(** Wall-clock seconds since 1970-01-01T00:00 of the zone. *)
Definition wall (loc : Location) (t : Z) : Z := unix t + offset loc (unix t).
Definition day_number (loc : Location) (t : Z) : Z := wall loc t `div` 86400.
Definition Hour (loc : Location) (t : Z) : Z := (wall loc t `mod` 86400) `div` 3600.
Definition Minute (loc : Location) (t : Z) : Z := (wall loc t `mod` 3600) `div` 60.
Definition Second (loc : Location) (t : Z) : Z := wall loc t `mod` 60.

(** [time.Truncate] to a divisor of the epoch offset. *)
Definition truncate (d t : Z) : Z := t - t `mod` d.

(** [time.Date]: month overflow carries into the year, then the offset is the
    one in force at the wall time read as UTC, unless the resulting instant is
    outside that offset's interval, in which case the offset there is used. *)
Definition Date (y m d h mi s ns : Z) (loc : Location) : Z :=
  let y' := y + (m - 1) `div` 12 in
  let m' := (m - 1) `mod` 12 + 1 in
  let u := days_from_civil y' m' d * 86400 + h * 3600 + mi * 60 + s in
  let '(off, start, stop) := lookup loc u in
  let unix :=
    if off =? 0 then u
    else
      let utc := u - off in
      let outside :=
        match start with Some w => utc <? w | None => false end ||
        match stop with Some w => w <=? utc | None => false end in
      if outside then u - offset loc utc else utc in
  unix * second + ns.

(** [Time.AddDate] *)
Definition AddDate (years months days : Z) (loc : Location) (t : Z) : Z :=
  let n := day_number loc t in
  Date (year_of n + years) (month_of n + months) (day_of n + days)
    (Hour loc t) (Minute loc t) (Second loc t) (t `mod` second) loc.

Example date_ex : Date 2024 2 29 12 0 0 0 UTC = 1709208000 * second.
Proof. reflexivity. Qed.
Example civil_ex : civil_from_days 19782 = (2024, 2, 29).
Proof. reflexivity. Qed.
