(* ===== verification/Cron.v ===== *)
(** * Cron expressions

    Models [internal/cronexpr/cronexpr.go]: the parser of the 5-field grammar
    ([Parse], [parseField], [boundedValue]) with its machine integers, and the
    search for the next occurrence ([Next], [matchesDay]) in a time zone. *)
From S2P Require Import Prelude GoLib Calendar.
Local Open Scope Z_scope.
Local Open Scope go_scope.

(** ** Data *)

(** [cronexpr.bounds], in cron order. *)
Definition bounds : list (string * Z * Z) :=
  [("minute", 0, 59); ("hour", 0, 23); ("day of month", 1, 31);
   ("month", 1, 12); ("day of week", 0, 6)].

(** [cronexpr.Schedule]: one set of allowed values per field.  A Go
    [map[int]bool] that only ever stores [true] is a set. *)
Record Schedule := mkSchedule {
  minutes : gset Z; hours : gset Z; days : gset Z; months : gset Z; weekdays : gset Z;
  dayRestricted : bool; weekdayRestricted : bool
}.

Inductive field_error :=
| EmptyValue | InvalidStep | NotANumber | OutOfRange | InvertedRange | NoValue
| LoopBound (** the expansion loop ran out of its bound: shown unreachable *).

Inductive parse_error :=
| FieldCount (n : Z)
| InField (name : string) (e : field_error).

(** ** Parsing *)

(** [cronexpr.boundedValue] *)
Definition boundedValue (s : string) (minVal maxVal : Z) : field_error + Z :=
  match atoi (trim_space s) with
  | None => inl NotANumber
  | Some v => if (v <? minVal) || (maxVal <? v) then inl OutOfRange else inr v
  end.

(** The head of [parseField]'s loop body: the step, then the range. *)
Definition parse_step (part : string) : field_error + (Z * string) :=
  match cut "/"%char part with
  | Some (base, stepStr) =>
      match atoi stepStr with
      | Some n => if n <? 1 then inl InvalidStep else inr (n, base)
      | None => inl InvalidStep
      end
  | None => inr (1, part)
  end.

Definition parse_range (part : string) (step minVal maxVal : Z) : field_error + (Z * Z) :=
  if decide (part = "*") then inr (minVal, maxVal)
  else match cut "-"%char part with
  | Some (loStr, hiStr) =>
      match boundedValue loStr minVal maxVal with
      | inl e => inl e
      | inr lo =>
          match boundedValue hiStr minVal maxVal with
          | inl e => inl e
          | inr hi => if hi <? lo then inl InvertedRange else inr (lo, hi)
          end
      end
  | None =>
      match boundedValue part minVal maxVal with
      | inl e => inl e
      | inr v => inr (v, if 1 <? step then maxVal else v)
      end
  end.

(** [for v := lo; v <= hi; v += step { set[v] = true }], on 64-bit integers. *)
Definition expand_step (hi step : Z) (st : Z * gset Z) : outcome (Z * gset Z) (gset Z) :=
  let '(v, set) := st in
  if v <=? hi then Continue (v +64 step, {[ v ]} ∪ set) else Done set.

(** 512 iterations: a field has at most 60 values, and [expand_total] shows
    that no accepted step needs more. *)
Definition expand_bound : positive := 512.

Definition expand (lo hi step : Z) (set : gset Z) : field_error + gset Z :=
  match run (expand_step hi step) expand_bound (lo, set) with
  | Done set' => inr set'
  | Continue _ => inl LoopBound
  end.

Definition parse_part (part : string) (minVal maxVal : Z) : field_error + (Z * Z * Z) :=
  if decide (part = "") then inl EmptyValue
  else match parse_step part with
  | inl e => inl e
  | inr (step, base) =>
      match parse_range base step minVal maxVal with
      | inl e => inl e
      | inr (lo, hi) => inr (lo, hi, step)
      end
  end.

Fixpoint parse_parts (parts : list string) (minVal maxVal : Z) (set : gset Z)
    : field_error + gset Z :=
  match parts with
  | [] => inr set
  | part :: rest =>
      match parse_part part minVal maxVal with
      | inl e => inl e
      | inr (lo, hi, step) =>
          match expand lo hi step set with
          | inl e => inl e
          | inr set' => parse_parts rest minVal maxVal set'
          end
      end
  end.

(** [cronexpr.parseField] *)
Definition parseField (field : string) (minVal maxVal : Z) : field_error + gset Z :=
  match parse_parts (split ","%char field) minVal maxVal ∅ with
  | inl e => inl e
  | inr set => if decide (set = ∅) then inl NoValue else inr set
  end.

Fixpoint parse_fields (fs : list string) (bs : list (string * Z * Z))
    : parse_error + list (gset Z) :=
  match fs, bs with
  | f :: fs', (name, lo, hi) :: bs' =>
      match parseField f lo hi with
      | inl e => inl (InField name e)
      | inr set =>
          match parse_fields fs' bs' with inl e => inl e | inr sets => inr (set :: sets) end
      end
  | _, _ => inr []
  end.

(** [cronexpr.Parse] *)
Definition Parse (expr : string) : parse_error + Schedule :=
  match fields expr with
  | [f0; f1; f2; f3; f4] as fs =>
      match parse_fields fs bounds with
      | inl e => inl e
      | inr [s0; s1; s2; s3; s4] =>
          inr (mkSchedule s0 s1 s2 s3 s4 (bool_decide (f2 ≠ "*")) (bool_decide (f4 ≠ "*")))
      | inr _ => inl (FieldCount 5)
      end
  | fs => inl (FieldCount (Z.of_nat (length fs)))
  end.

(** ** The next occurrence *)

(** [cronexpr.maxLookahead] *)
Definition maxLookahead : Z := 5 * 366 * 24 * 60 * minute.

(** [Schedule.matchesDay], on the day number of an instant. *)
Definition matches_day_number (s : Schedule) (n : Z) : bool :=
  let day := bool_decide (day_of n ∈ days s) in
  let weekday := bool_decide (weekday_of n ∈ weekdays s) in
  if dayRestricted s && weekdayRestricted s then day || weekday else day && weekday.

Definition matchesDay (s : Schedule) (loc : Location) (t : Z) : bool :=
  matches_day_number s (day_number loc t).

(** One iteration of [Next]'s loop, its post statement [t = t.Add(Minute)]
    included: [continue] runs it too. *)
Definition next_step (s : Schedule) (loc : Location) (deadline t : Z)
    : outcome Z (option Z) :=
  if negb (t <? deadline) then Done None
  else
    let n := day_number loc t in
    if negb (bool_decide (month_of n ∈ months s)) then
      Continue (AddDate 0 1 0 loc (Date (year_of n) (month_of n) 1 0 0 0 0 loc) - minute + minute)
    else if negb (matchesDay s loc t) then
      Continue (AddDate 0 0 1 loc (Date (year_of n) (month_of n) (day_of n) 0 0 0 0 loc)
                - minute + minute)
    else if negb (bool_decide (Hour loc t ∈ hours s)) then
      Continue (Date (year_of n) (month_of n) (day_of n) (Hour loc t) 0 0 0 loc
                + (hour - minute) + minute)
    else if bool_decide (Minute loc t ∈ minutes s) then Done (Some t)
    else Continue (t + minute).

(** The first candidate: the minute after [after]. *)
Definition next_start (after : Z) : Z := truncate minute after + minute.

(** One iteration per minute of the window, at most. *)
Definition next_bound : positive := 2635201.

(** [Schedule.Next]; the zero time is [Some None], and [None] means the loop
    did not return within [next_bound] iterations. *)
Definition Next (s : Schedule) (after : Z) (loc : Location) : option (option Z) :=
  let t := next_start after in
  match run (next_step s loc (t + maxLookahead)) next_bound t with
  | Done r => Some r
  | Continue _ => None
  end.

Definition schedule_of (expr : string) : option Schedule :=
  match Parse expr with inr s => Some s | inl _ => None end.

Example parse_ex :
  (s ← schedule_of "*/15 0 1 * 1-5"; Some (bool_decide (minutes s = {[0; 15; 30; 45]}))) = Some true.
Proof. vm_compute. reflexivity. Qed.
Example next_ex :
  (s ← schedule_of "30 4 29 2 *"; Next s (Date 2025 1 1 0 0 0 0 UTC) UTC) =
  Some (Some (Date 2028 2 29 4 30 0 0 UTC)).
Proof. vm_compute. reflexivity. Qed.

(** ** The expansion loop *)

Lemma expand_run lo hi step set (n : nat) r :
  (n ≤ 512)%nat → run_nat (expand_step hi step) n (lo, set) = Done r →
  expand lo hi step set = inr r.
Proof.
  intros Hn H. unfold expand. rewrite run_run_nat.
  rewrite (run_nat_mono _ n (Pos.to_nat expand_bound) _ r); [done| |done].
  unfold expand_bound. lia.
Qed.

(** A step that cannot overflow: the largest field value is 59. *)
Definition sane_step (step : Z) : Prop := 1 ≤ step ≤ int64_max - 59.

(** No multiple of the step lies strictly between two consecutive indices. *)
Lemma multiple_gap lo k step x :
  1 ≤ step → x < lo + (k + 1) * step → (step | x - lo) → x ≤ lo + k * step.
Proof. intros Hs Hx [q Hq]. assert (q ≤ k) by nia. nia. Qed.

(** A sane loop visits exactly the multiples of the step in the range. *)
Lemma expand_sane lo hi step set :
  0 ≤ lo ≤ 59 → hi ≤ 59 → sane_step step →
  ∃ set', expand lo hi step set = inr set' ∧
    ∀ x, x ∈ set' ↔ x ∈ set ∨ (lo ≤ x ≤ hi ∧ (step | x - lo)).
Proof.
  intros Hlo Hhi [Hs1 Hs2].
  destruct (run_nat_total (expand_step hi step)
    (λ st, ∃ k, 0 ≤ k ∧ fst st = lo + k * step ∧ (k = 0 ∨ fst st - step ≤ hi) ∧
           ∀ x, x ∈ snd st ↔ x ∈ set ∨ (lo ≤ x < fst st ∧ (step | x - lo)))
    (λ st, Z.to_nat (hi + 1 - fst st))
    (λ r, ∀ x, x ∈ r ↔ x ∈ set ∨ (lo ≤ x ≤ hi ∧ (step | x - lo)))) with (n := 61%nat) (s := (lo, set))
    as (r & Hr & HQ).
  - intros [v s] (k & Hk & Hv & Hprev & Hin). simpl in *.
    destruct (Z.leb_spec v hi) as [Hle|Hgt].
    + rewrite wrap64_id by (unfold in_int64, int64_min, int64_max in *; lia).
      cbn [fst snd]. split; [|lia].
      exists (k + 1). split; [lia|]. split; [lia|]. split; [lia|]. intros x.
      rewrite elem_of_union, elem_of_singleton, Hin. split.
      * intros [->|[?|[? ?]]]; [right|by left|right].
        { split; [lia|]. exists k. lia. }
        { split; [lia|done]. }
      * intros [?|[Hx Hq]]; [by right; left|].
        destruct (decide (x = v)) as [->|]; [by left|]. right; right. split; [|done].
        pose proof (multiple_gap lo k step x Hs1 ltac:(lia) Hq). lia.
    + intros x. rewrite Hin. split; (intros [?|[Hx Hq]]; [by left|right]); (split; [|done]); [|lia].
      pose proof (multiple_gap lo (k - 1) step x Hs1 ltac:(lia) Hq). lia.
  - exists 0. simpl. split_and!; [lia|lia|by left|]. intros x. split; [by left|]. intros [?|?]; [done|lia].
  - simpl. lia.
  - exists r. split; [|done]. eapply expand_run; [|done]. lia.
Qed.

(** Whatever the step, the loop returns: a step close to the largest integer
    makes the index wrap, but each pair of wraps lowers it. *)
Lemma expand_total lo hi step set :
  0 ≤ lo ≤ 59 → hi ≤ 59 → 1 ≤ step ≤ int64_max → ∃ set', expand lo hi step set = inr set'.
Proof.
  intros Hlo Hhi Hs. destruct (decide (step ≤ int64_max - 59)) as [Hsane|Hbig].
  { destruct (expand_sane lo hi step set) as (s' & ? & _); eauto. by split; [lia|]. }
  unfold int64_max in *.
  destruct (run_nat_total (expand_step hi step)
    (λ st, -120 ≤ fst st < 2 ^ 63 ∨
           (0 ≤ fst st - step + 2 ^ 64 ≤ 59 ∧ 2 ^ 63 ≤ fst st + 2 ^ 64))
    (λ st, if fst st <? -1000 then Z.to_nat (2 * (fst st - step + 2 ^ 64) + 301)
           else if fst st <=? 59 then Z.to_nat (2 * fst st + 304) else O)
    (λ _, True)) with (n := 500%nat) (s := (lo, set)) as (r & Hr & _).
  - intros [v s] Hv. simpl in *. destruct (Z.leb_spec v hi) as [Hle|]; [|done]. simpl.
    destruct Hv as [Hv|Hv].
    + destruct (decide (v + step < 2 ^ 63)).
      * rewrite wrap64_id by (unfold in_int64, int64_min, int64_max; lia).
        split; [lia|]. split_ifs; reflect_bools; lia.
      * assert (wrap64 (v + step) = v + step - 2 ^ 64) as ->.
        { unfold wrap64. rewrite <- (Z.mod_unique (v + step + 2 ^ 63) (2 ^ 64) 1 (v + step - 2 ^ 63)); lia. }
        split; [lia|]. split_ifs; reflect_bools; lia.
    + assert (wrap64 (v + step) = v + step) as ->.
      { apply wrap64_id. unfold in_int64, int64_min, int64_max. lia. }
      split; [lia|]. split_ifs; reflect_bools; lia.
  - left. simpl. lia.
  - simpl. split_ifs; reflect_bools; lia.
  - exists r. eapply expand_run; [|done]. lia.
Qed.

(** ** What a field denotes *)

Lemma boundedValue_range s lo hi v : boundedValue s lo hi = inr v → lo ≤ v ≤ hi.
Proof. unfold boundedValue. intros H. case_match; [|done]. split_ifs. reflect_bools. lia. Qed.

Lemma parse_part_range part minVal maxVal lo hi step :
  minVal ≤ maxVal → parse_part part minVal maxVal = inr (lo, hi, step) →
  minVal ≤ lo ∧ lo ≤ hi ∧ hi ≤ maxVal ∧ 1 ≤ step ≤ int64_max.
Proof.
  intros Hmm. unfold parse_part. destruct (decide (part = "")); [done|].
  destruct (parse_step part) as [|[st base]] eqn:Hst; [done|].
  assert (1 ≤ st ≤ int64_max) as Hstep.
  { revert Hst. unfold parse_step. repeat case_match; intros; simplify_eq; try (unfold int64_max; lia).
    reflect_bools. match goal with H : atoi _ = Some _ |- _ => apply atoi_range in H end.
    unfold in_int64 in *. lia. }
  destruct (parse_range base st minVal maxVal) as [|[lo' hi']] eqn:Hr; [done|].
  intros [= <- <- <-]. revert Hr. unfold parse_range.
  repeat case_match; intros; simplify_eq; reflect_bools;
    repeat match goal with H : boundedValue _ _ _ = inr _ |- _ => apply boundedValue_range in H end;
    split_ifs; lia.
Qed.

(** The meaning of one part of a field: every [step]-th value of its range. *)
Definition part_denotes (part : string) (minVal maxVal x : Z) : Prop :=
  ∃ lo hi step, parse_part part minVal maxVal = inr (lo, hi, step) ∧
                lo ≤ x ≤ hi ∧ (step | x - lo).

(** Every step of the field is far enough from the largest integer. *)
Definition sane_field (field : string) (minVal maxVal : Z) : Prop :=
  ∀ part lo hi step, part ∈ split ","%char field →
    parse_part part minVal maxVal = inr (lo, hi, step) → sane_step step.

Lemma parse_parts_sound parts minVal maxVal set set' :
  0 ≤ minVal → minVal ≤ maxVal → maxVal ≤ 59 →
  (∀ part lo hi step, part ∈ parts →
     parse_part part minVal maxVal = inr (lo, hi, step) → sane_step step) →
  parse_parts parts minVal maxVal set = inr set' →
  ∀ x, x ∈ set' ↔ x ∈ set ∨ ∃ part, part ∈ parts ∧ part_denotes part minVal maxVal x.
Proof.
  intros Hmin Hmm Hmax. revert set. induction parts as [|part parts IH]; intros set Hsane H x; simpl in H.
  { simplify_eq. split; [by left|]. intros [?|(p & Hp & _)]; [done|]. by apply not_elem_of_nil in Hp. }
  destruct (parse_part part minVal maxVal) as [|[[lo hi] step]] eqn:Hp; [done|].
  pose proof (parse_part_range _ _ _ _ _ _ Hmm Hp) as Hr.
  destruct (expand_sane lo hi step set) as (s1 & He & Hs1);
    [lia|lia|eapply Hsane; [by left|done]|].
  rewrite He in H. rewrite (IH s1); [|by intros; eapply Hsane; [right|]|done]. rewrite Hs1.
  unfold part_denotes. setoid_rewrite elem_of_cons. split.
  - intros [[?|?]|(p & ? & ?)]; [by left|right; exists part|right; exists p]; eauto 10.
  - intros [?|(p & [->|?] & Hd)]; [by left; left| |by right; eauto].
    left; right. destruct Hd as (lo' & hi' & st' & Hp' & ?). rewrite Hp in Hp'. simplify_eq. done.
Qed.

(** A field denotes the union of its parts — the parser accepts exactly
    the values that are a whole number of steps above the start of one of the
    comma-separated ranges, within that range — as long as no step is within
    59 of the largest 64-bit integer. *)
Theorem parseField_denotes (field : string) (minVal maxVal : Z) (set : gset Z)
    (Hb : 0 ≤ minVal ∧ minVal ≤ maxVal ∧ maxVal ≤ 59)
    (Hsane : sane_field field minVal maxVal)
    (Hparse : parseField field minVal maxVal = inr set) :
  (∀ x, x ∈ set ↔ ∃ part, part ∈ split ","%char field ∧ part_denotes part minVal maxVal x) ∧
  (∀ x, x ∈ set → minVal ≤ x ≤ maxVal).
Proof.
  destruct Hb as (? & ? & ?). unfold parseField in Hparse.
  destruct (parse_parts _ minVal maxVal ∅) as [|s] eqn:Hp; [done|]. split_ifs.
  assert (∀ x, x ∈ set ↔ ∃ part, part ∈ split ","%char field ∧ part_denotes part minVal maxVal x) as Hin.
  { intros x. rewrite (parse_parts_sound _ _ _ _ _ ltac:(done) ltac:(done) ltac:(done) Hsane Hp x).
    split; [intros [Hx|?]; [by apply not_elem_of_empty in Hx|done]|by right]. }
  split; [done|]. intros x (part & _ & lo & hi & st & Hpp & Hx & _)%Hin.
  apply parse_part_range in Hpp; lia.
Qed.

Lemma parseField_denotes_witness :
  parseField "1-9/4,30" 0 59 = inr {[ 1; 5; 9; 30 ]} ∧
  (∀ x, x ∈ ({[ 1; 5; 9; 30 ]} : gset Z) → 0 ≤ x ≤ 59).
Proof.
  assert (parseField "1-9/4,30" 0 59 = inr {[ 1; 5; 9; 30 ]}) as H by (vm_compute; reflexivity).
  split; [exact H|].
  refine (proj2 (parseField_denotes "1-9/4,30" 0 59 _ _ _ H)); [lia|].
  intros part lo hi step Hin Hp. vm_compute in Hin.
  apply elem_of_cons in Hin as [->|[->|[]%not_elem_of_nil]%elem_of_cons];
    vm_compute in Hp; simplify_eq; unfold sane_step, int64_max; lia.
Defined.

Lemma parse_parts_total parts minVal maxVal set :
  0 ≤ minVal → minVal ≤ maxVal → maxVal ≤ 59 →
  parse_parts parts minVal maxVal set ≠ inl LoopBound.
Proof.
  intros ? ? ?. revert set. induction parts as [|part parts IH]; intros set; simpl; [done|].
  destruct (parse_part part minVal maxVal) as [e|[[lo hi] step]] eqn:Hp.
  - revert Hp. unfold parse_part, parse_step, parse_range, boundedValue.
    intros Hp [= ->]. repeat case_match; simplify_eq.
  - apply parse_part_range in Hp; [|done].
    destruct (expand_total lo hi step set) as [s' ->]; [lia|lia|lia|]. apply IH.
Qed.

(** Parsing terminates on every input: the expansion loop of a field
    returns within its bound, so the parser answers with a schedule or with
    one of the errors of the source, never by running out of iterations. *)
Theorem Parse_total (expr name : string) : Parse expr ≠ inl (InField name LoopBound).
Proof.
  unfold Parse. destruct (fields expr) as [|f0 [|f1 [|f2 [|f3 [|f4 [|]]]]]]; try done.
  destruct (parse_fields _ bounds) as [e|sets] eqn:Hp;
    [|by destruct sets as [|? [|? [|? [|? [|? [|]]]]]]].
  intros [= ->]. revert Hp. unfold bounds. simpl.
  assert (∀ f lo hi, 0 ≤ lo → lo ≤ hi → hi ≤ 59 → parseField f lo hi ≠ inl LoopBound) as Hf.
  { intros f lo hi ? ? ?. unfold parseField.
    pose proof (parse_parts_total (split ","%char f) lo hi ∅).
    destruct (parse_parts _ _ _ _); [naive_solver|]. by case_decide. }
  repeat match goal with
  | |- context [parseField ?f ?a ?b] =>
      pose proof (Hf f a b ltac:(lia) ltac:(lia) ltac:(lia));
      destruct (parseField f a b) as [[]|]; try (intros; simplify_eq; done)
  end.
Qed.

(** ** [Next] in a zone of constant offset *)

(** The specification of a match: month, day, hour and minute are listed; of a day,
    both its number and its weekday, and either is enough when the expression
    restricts both. *)
Definition day_admitted (s : Schedule) (n : Z) : bool :=
  let day := bool_decide (day_of n ∈ days s) in
  let weekday := bool_decide (weekday_of n ∈ weekdays s) in
  (day && weekday) || (dayRestricted s && weekdayRestricted s && (day || weekday)).
Lemma day_admitted_rule s n : matches_day_number s n = day_admitted s n.
Proof.
  unfold matches_day_number, day_admitted.
  by destruct (bool_decide (day_of n ∈ _)), (bool_decide (weekday_of n ∈ _)), (dayRestricted s), (weekdayRestricted s).
Qed.
Definition matches_at (s : Schedule) (loc : Location) (t : Z) : bool :=
  bool_decide (month_of (day_number loc t) ∈ months s) && day_admitted s (day_number loc t) &&
  bool_decide (Hour loc t ∈ hours s) && bool_decide (Minute loc t ∈ minutes s).

Section FixedZone.
Context (s : Schedule) (c : Z).
Let loc := fixed_zone c.

(** The instant whose wall clock shows minute [W] since 1970-01-01T00:00. *)
Definition inst (W : Z) : Z := (60 * W - c) * second.

Lemma unix_inst W : unix (inst W) = 60 * W - c.
Proof. unfold unix, inst, second. apply Z.div_mul. lia. Qed.

Lemma offset_fixed u : offset loc u = c.
Proof. done. Qed.

Lemma wall_inst W : wall loc (inst W) = 60 * W.
Proof. unfold wall. rewrite unix_inst, offset_fixed. lia. Qed.

Lemma clock_inst W :
  day_number loc (inst W) = W `div` 1440 ∧ Hour loc (inst W) = (W `mod` 1440) `div` 60 ∧
  Minute loc (inst W) = W `mod` 60 ∧ Second loc (inst W) = 0 ∧ inst W `mod` second = 0.
Proof.
  unfold day_number, Hour, Minute, Second. rewrite wall_inst.
  split_and!; [dlia|dlia|dlia|dlia|]. unfold inst, second. apply Z.mod_mul. lia.
Qed.

Lemma inst_lt W W' : inst W < inst W' ↔ W < W'.
Proof. unfold inst, second. lia. Qed.

Lemma inst_le W W' : inst W ≤ inst W' ↔ W ≤ W'.
Proof. unfold inst, second. lia. Qed.

Lemma inst_add W k : inst W + k * minute = inst (W + k).
Proof. unfold inst, minute. lia. Qed.

Lemma Date_fixed y m d h mi :
  Date y m d h mi 0 0 loc =
  inst (1440 * days_from_civil (y + (m - 1) `div` 12) ((m - 1) `mod` 12 + 1) d + 60 * h + mi).
Proof.
  unfold Date, lookup, loc, fixed_zone. simpl.
  set (D := days_from_civil _ _ _). unfold inst.
  destruct (Z.eqb_spec c 0) as [->|]; lia.
Qed.

(** First minute of the next month, and of an hour of day [n]. *)
Lemma Date_month n :
  AddDate 0 1 0 loc (Date (year_of n) (month_of n) 1 0 0 0 0 loc) =
  inst (1440 * month_start (month_index n + 1)).
Proof.
  rewrite Date_fixed. destruct (month_index_bounds n) as (Hb & Hm & _ & Hi).
  rewrite days_from_civil_month by dlia.
  replace (12 * (year_of n + (month_of n - 1) `div` 12) + ((month_of n - 1) `mod` 12 + 1 - 1))
    with (month_index n) by (rewrite Hi; dlia).
  set (M := month_index n) in *. set (W' := _ + 60 * 0 + 0).
  assert (W' = 1440 * month_start M) as -> by lia.
  unfold AddDate. destruct (clock_inst (1440 * month_start M)) as (-> & -> & -> & -> & ->).
  assert ((1440 * month_start M) `div` 1440 = month_start M) as -> by dlia.
  assert (month_index (month_start M) = M) as HM
    by (apply month_index_unique; pose proof (month_start_succ M); lia).
  destruct (month_index_bounds (month_start M)) as (_ & Hm' & Hd' & Hi'). rewrite HM in *.
  replace (((1440 * month_start M) `mod` 1440) `div` 60) with 0 by dlia.
  replace ((1440 * month_start M) `mod` 60) with 0 by dlia.
  rewrite Date_fixed, days_from_civil_month by dlia. f_equal.
  replace (12 * (year_of (month_start M) + 0 + (month_of (month_start M) + 1 - 1) `div` 12) +
           ((month_of (month_start M) + 1 - 1) `mod` 12 + 1 - 1)) with (M + 1) by dlia.
  lia.
Qed.

Lemma Date_day n h :
  Date (year_of n) (month_of n) (day_of n) h 0 0 0 loc = inst (1440 * n + 60 * h).
Proof.
  rewrite Date_fixed. destruct (month_index_bounds n) as (_ & Hm & _ & _).
  replace (year_of n + (month_of n - 1) `div` 12) with (year_of n) by dlia.
  replace ((month_of n - 1) `mod` 12 + 1) with (month_of n) by dlia.
  rewrite days_of_civil. f_equal. lia.
Qed.

Lemma AddDate_day n : AddDate 0 0 1 loc (inst (1440 * n)) = inst (1440 * (n + 1)).
Proof.
  unfold AddDate. destruct (clock_inst (1440 * n)) as (-> & -> & -> & -> & ->).
  assert ((1440 * n) `div` 1440 = n) as -> by dlia.
  replace (((1440 * n) `mod` 1440) `div` 60) with 0 by dlia.
  replace ((1440 * n) `mod` 60) with 0 by dlia.
  rewrite Date_fixed. destruct (month_index_bounds n) as (_ & Hm & _ & _).
  replace (year_of n + 0 + (month_of n + 0 - 1) `div` 12) with (year_of n) by dlia.
  replace ((month_of n + 0 - 1) `mod` 12 + 1) with (month_of n) by dlia.
  rewrite days_from_civil_month by done.
  pose proof (days_of_civil n) as Hd. rewrite days_from_civil_month in Hd by done.
  f_equal. lia.
Qed.

(** The match test at a wall-clock minute. *)
Definition matches_minute (W : Z) : bool :=
  bool_decide (month_of (W `div` 1440) ∈ months s) && matches_day_number s (W `div` 1440) &&
  bool_decide ((W `mod` 1440) `div` 60 ∈ hours s) && bool_decide (W `mod` 60 ∈ minutes s).

Lemma matches_at_inst W : matches_at s loc (inst W) = matches_minute W.
Proof.
  unfold matches_at, matches_minute. rewrite <- day_admitted_rule.
  by destruct (clock_inst W) as (-> & -> & -> & _).
Qed.

(** One iteration of the loop, on wall-clock minutes: it either stops, or
    moves forward past minutes that cannot match. *)
Lemma next_step_inst D W :
  match next_step s loc (inst D) (inst W) with
  | Done None => D ≤ W
  | Done (Some t) => W < D ∧ t = inst W ∧ matches_minute W = true
  | Continue t => ∃ W', W < D ∧ t = inst W' ∧ W < W' ∧
                        ∀ V, W ≤ V < W' → matches_minute V = false
  end.
Proof.
  unfold next_step. destruct (Z.ltb_spec (inst W) (inst D)) as [Hlt|Hge]; simpl;
    [|by apply inst_le].
  rewrite inst_lt in Hlt. unfold matchesDay.
  destruct (clock_inst W) as (-> & -> & -> & _). set (n := W `div` 1440).
  destruct (bool_decide (month_of n ∈ months s)) eqn:Hmon; simpl.
  2:{ exists (1440 * month_start (month_index n + 1)).
      split; [done|]. split; [rewrite Date_month; lia|].
      destruct (month_index_bounds n) as (Hb & _). split; [unfold n in *; dlia|].
      intros V HV. unfold matches_minute. rewrite month_of_index.
      rewrite (month_index_unique (V `div` 1440) (month_index n)) by (unfold n in *; dlia).
      rewrite <- month_of_index, Hmon. done. }
  destruct (matches_day_number s n) eqn:Hday; simpl.
  2:{ exists (1440 * (n + 1)). split; [done|].
      split; [rewrite Date_day, Z.mul_0_r, Z.add_0_r, AddDate_day; lia|].
      split; [unfold n; dlia|]. intros V HV. unfold matches_minute.
      assert (V `div` 1440 = n) as -> by (unfold n in *; dlia). rewrite Hday. by destruct (bool_decide _). }
  set (h := (W `mod` 1440) `div` 60).
  destruct (bool_decide (h ∈ hours s)) eqn:Hhour; simpl.
  2:{ exists (1440 * n + 60 * h + 60). split; [done|]. split.
      - rewrite Date_day. rewrite <- (inst_add _ 60). unfold hour. lia.
      - split; [unfold n, h; dlia|]. intros V HV. unfold matches_minute.
        assert ((V `mod` 1440) `div` 60 = h) as -> by (unfold n, h in *; dlia).
        rewrite Hhour. by rewrite andb_false_r. }
  destruct (bool_decide (W `mod` 60 ∈ minutes s)) eqn:Hmin; simpl.
  - split; [done|]. split; [done|]. unfold matches_minute. fold n. fold h.
    by rewrite Hmon, Hday, Hhour, Hmin.
  - exists (W + 1). split; [done|]. split; [rewrite <- inst_add; lia|]. split; [lia|].
    intros V HV. replace V with W by lia. unfold matches_minute. by rewrite Hmin, andb_false_r.
Qed.

(** The whole search, from minute [W0] over [K] minutes. *)
Lemma next_run W0 K :
  0 ≤ K → ∀ n, K < Z.of_nat n →
  ∃ r, run_nat (next_step s loc (inst (W0 + K))) n (inst W0) = Done r ∧
    match r with
    | Some t => ∃ W, t = inst W ∧ W0 ≤ W < W0 + K ∧ matches_minute W = true ∧
                     ∀ V, W0 ≤ V < W → matches_minute V = false
    | None => ∀ V, W0 ≤ V < W0 + K → matches_minute V = false
    end.
Proof.
  intros HK n Hn.
  apply (run_nat_total (next_step s loc (inst (W0 + K)))
    (λ t, ∃ W, t = inst W ∧ W0 ≤ W ∧ ∀ V, W0 ≤ V < W → matches_minute V = false)
    (λ t, Z.to_nat (W0 + K - (unix t + c) `div` 60))).
  - intros t (W & -> & HW & Hskip). pose proof (next_step_inst (W0 + K) W) as Hstep.
    destruct (next_step s loc (inst (W0 + K)) (inst W)) as [t'|[t'|]].
    + destruct Hstep as (W' & HWD & -> & HWW' & Hno). split.
      * exists W'. split; [done|]. split; [lia|]. intros V HV.
        destruct (decide (V < W)); [apply Hskip; lia|apply Hno; lia].
      * rewrite !unix_inst. dlia.
    + destruct Hstep as (? & -> & ?). exists W. split_and!; auto; lia.
    + intros V HV. apply Hskip. lia.
  - exists W0. split; [done|]. split; [lia|]. intros V HV. lia.
  - rewrite unix_inst. dlia.
Qed.
End FixedZone.

(** Minute-aligned instants are those a wall clock of whole-minute offset shows. *)
Lemma aligned_inst c t : c `mod` 60 = 0 → (minute | t) → ∃ W, t = inst c W.
Proof.
  intros Hc [k Hk]. exists (k + c `div` 60). unfold inst.
  assert (60 * (c `div` 60) = c) by dlia. subst t. unfold minute. lia.
Qed.

Lemma inst_aligned c W : c `mod` 60 = 0 → (minute | inst c W).
Proof.
  intros Hc. exists (W - c `div` 60). unfold inst, minute.
  assert (60 * (c `div` 60) = c) by dlia. lia.
Qed.

Lemma next_start_bounds after :
  (minute | next_start after) ∧ after < next_start after ≤ after + minute.
Proof.
  unfold next_start, truncate. assert (0 < minute) by done.
  pose proof (Z.div_mod after minute). pose proof (Z.mod_pos_bound after minute).
  split; [|lia]. exists (after `div` minute + 1). lia.
Qed.

Lemma Next_spec (s : Schedule) (c after : Z) (Hc : c `mod` 60 = 0) :
  let loc := fixed_zone c in
  ∃ r, Next s after loc = Some r ∧
    match r with
    | Some t => after < t < next_start after + maxLookahead ∧ (minute | t) ∧
                matches_at s loc t = true ∧
                ∀ t', after < t' < t → (minute | t') → matches_at s loc t' = false
    | None => ∀ t', after < t' < next_start after + maxLookahead → (minute | t') →
                    matches_at s loc t' = false
    end.
Proof.
  destruct (next_start_bounds after) as [Hal Hns].
  destruct (aligned_inst c (next_start after) Hc Hal) as [W0 HW0].
  set (K := 5 * 366 * 24 * 60).
  assert (next_start after + maxLookahead = inst c (W0 + K)) as Hdl.
  { rewrite HW0, <- inst_add. done. }
  destruct (next_run s c W0 K) with (n := Pos.to_nat next_bound) as (r & Hrun & Hr);
    [unfold K; lia|rewrite positive_nat_Z; unfold K, next_bound; lia|].
  exists r. split.
  { unfold Next. by rewrite run_run_nat, Hdl, HW0, Hrun. }
  assert (∀ t', (minute | t') → after < t' → ∃ V, t' = inst c V ∧ W0 ≤ V) as Hafter.
  { intros t' Ht' Hlt. destruct (aligned_inst c t' Hc Ht') as [V ->]. exists V. split; [done|].
    destruct (decide (V < W0)) as [HV|]; [|lia]. exfalso.
    rewrite <- (inst_lt c) in HV. rewrite <- HW0 in HV.
    destruct Hal as [k Hk]. destruct Ht' as [k' Hk']. assert (k' < k) by (unfold minute, second in *; lia).
    assert (inst c V ≤ next_start after - minute) by (unfold minute, second in *; lia). lia. }
  destruct r as [t|].
  - destruct Hr as (W & -> & HW & Hm & Hno). split_and!.
    + destruct (decide (W0 = W)) as [->|]; [lia|].
      assert (inst c W0 < inst c W) by (apply inst_lt; lia). lia.
    + rewrite Hdl. apply inst_lt. lia.
    + by apply inst_aligned.
    + by rewrite matches_at_inst.
    + intros t' [Hlt Ht'] Ha. destruct (Hafter t' Ha Hlt) as (V & -> & HV).
      rewrite inst_lt in Ht'. rewrite matches_at_inst. apply Hno. lia.
  - intros t' [Hlt Ht'] Ha. destruct (Hafter t' Ha Hlt) as (V & -> & HV).
    rewrite Hdl, inst_lt in Ht'. rewrite matches_at_inst. apply Hr. lia.
Qed.

(** C37: in a zone of constant whole-minute offset, [Next] always returns, and
    what it returns is the first matching minute strictly after [after]; it
    returns the zero time only if no minute of the five-year window matches. *)
Theorem Next_first_match (s : Schedule) (c after : Z) (Hc : c `mod` 60 = 0) :
  let loc := fixed_zone c in
  ∃ r, Next s after loc = Some r ∧
    match r with
    | Some t => after < t < next_start after + maxLookahead ∧ (minute | t) ∧
                matches_at s loc t = true ∧
                ∀ t', after < t' < t → (minute | t') → matches_at s loc t' = false
    | None => ∀ t', after < t' < next_start after + maxLookahead → (minute | t') →
                    matches_at s loc t' = false
    end.
Proof. by apply Next_spec. Qed.

(** [30 4 * * 0]: Sundays at 4:30. *)
Definition sundays : Schedule :=
  mkSchedule {[ 30 ]} {[ 4 ]} (list_to_set (seqZ 1 31)) (list_to_set (seqZ 1 12)) {[ 0 ]} false true.

Example sundays_ex : schedule_of "30 4 * * 0" = Some sundays.
Proof. vm_compute. reflexivity. Qed.

Lemma Next_first_match_witness :
  Next sundays (Date 2024 2 28 12 0 0 0 UTC) (fixed_zone 19800)
    = Some (Some (Date 2024 3 3 4 30 0 0 (fixed_zone 19800))) ∧
  matches_at sundays (fixed_zone 19800) (Date 2024 3 3 4 30 0 0 (fixed_zone 19800)) = true.
Proof.
  assert (Next sundays (Date 2024 2 28 12 0 0 0 UTC) (fixed_zone 19800)
          = Some (Some (Date 2024 3 3 4 30 0 0 (fixed_zone 19800)))) as Hn by (vm_compute; reflexivity).
  split; [exact Hn|].
  destruct (Next_first_match sundays 19800 (Date 2024 2 28 12 0 0 0 UTC) eq_refl) as (r & Hr & H).
  rewrite Hn in Hr. injection Hr as <-. apply H.
Defined.

(** ** Behaviour around an offset change, and at the edges *)

(** America/New_York around 2024: UTC-5, UTC-4 from March 10th 07:00 UTC,
    UTC-5 again from November 3rd 06:00 UTC. *)
Definition new_york : Location :=
  mkLocation (-18000)
    [(unix (Date 2024 3 10 7 0 0 0 UTC), -14400); (unix (Date 2024 11 3 6 0 0 0 UTC), -18000)].

(** Europe/Paris around 2024. *)
Definition paris : Location :=
  mkLocation 3600
    [(unix (Date 2024 3 31 1 0 0 0 UTC), 7200); (unix (Date 2024 10 27 1 0 0 0 UTC), 3600)].

(** [0 3 * * *]: every day at 3:00. *)
Definition daily3 : Schedule :=
  mkSchedule {[ 0 ]} {[ 3 ]} (list_to_set (seqZ 1 31)) (list_to_set (seqZ 1 12))
    (list_to_set (seqZ 0 7)) false false.

Example daily3_ex : schedule_of "0 3 * * *" = Some daily3.
Proof. vm_compute. reflexivity. Qed.

(** The occurrence of November 2nd, from which the next one is computed, and
    the second 1:00 of November 3rd. *)
Definition nov2 : Z := Date 2024 11 2 3 0 0 0 new_york.
Definition second_one_oclock : Z := Date 2024 11 3 6 0 0 0 UTC.

Lemma stuck_at_second_one_oclock :
  next_step daily3 new_york (next_start nov2 + maxLookahead) second_one_oclock
  = Continue second_one_oclock.
Proof. vm_compute. reflexivity. Qed.

Lemma reaches_second_one_oclock :
  run_nat (next_step daily3 new_york (next_start nov2 + maxLookahead)) 82 (next_start nov2)
  = Continue second_one_oclock.
Proof. vm_compute. reflexivity. Qed.

(** [Next] does not terminate on the night the clock is set back in a zone
    west of Greenwich: at the second 1:00 the hour does not match, the start of
    the hour is rebuilt with [time.Date], which picks the first 1:00, and one
    hour later the search is back where it was.  No number of iterations
    returns. *)
Theorem Next_diverges_when_clock_set_back (n : nat) :
  ∃ t, run_nat (next_step daily3 new_york (next_start nov2 + maxLookahead)) n (next_start nov2)
       = Continue t.
Proof.
  set (step := next_step _ _ _).
  assert (∀ k, ∃ t, run_nat step k second_one_oclock = Continue t) as Hloop.
  { intros k. destruct (run_nat_diverges step (λ t, t = second_one_oclock)) with (n := k)
      (s := second_one_oclock) as (t & Ht & _); [|done|by exists t].
    intros t ->. exists second_one_oclock. split; [apply stuck_at_second_one_oclock|done]. }
  destruct (run_nat step n (next_start nov2)) as [t|r] eqn:Hrun; [by exists t|exfalso].
  apply (run_nat_mono step n (82 + n)) in Hrun; [|lia].
  rewrite run_nat_add in Hrun. unfold step in Hrun at 1.
  rewrite reaches_second_one_oclock in Hrun. destruct (Hloop n) as [t Ht]. congruence.
Qed.

(** In a zone east of Greenwich the search terminates, but an occurrence in
    the repeated hour fires at both passes. *)
Theorem Next_fires_twice_in_repeated_hour :
  let s := mkSchedule {[ 30 ]} {[ 2 ]} (list_to_set (seqZ 1 31)) (list_to_set (seqZ 1 12))
             (list_to_set (seqZ 0 7)) false false in
  schedule_of "30 2 * * *" = Some s ∧
  let first := Date 2024 10 27 0 30 0 0 UTC in
  let again := Date 2024 10 27 1 30 0 0 UTC in
  Next s (Date 2024 10 26 12 0 0 0 UTC) paris = Some (Some first) ∧
  Next s first paris = Some (Some again) ∧
  day_number paris first = day_number paris again ∧ Hour paris first = Hour paris again.
Proof. vm_compute. auto. Qed.

(** The five-year window does not cover every expression: across 2100, which
    is not a leap year, a February 29th is eight years away and is not found. *)
Theorem Next_misses_leap_day_across_2100 :
  let s := mkSchedule {[ 0 ]} {[ 0 ]} {[ 29 ]} {[ 2 ]} (list_to_set (seqZ 0 7)) true false in
  schedule_of "0 0 29 2 *" = Some s ∧
  Next s (Date 2096 3 1 0 0 0 0 UTC) UTC = Some None ∧
  matches_at s UTC (Date 2104 2 29 0 0 0 0 UTC) = true.
Proof. vm_compute. auto. Qed.

(** A step close to the largest integer wraps the loop index: the expression
    allows minute 57 although its only part starts at 59. *)
Theorem step_overflow_admits_other_minutes :
  match Parse "59/9223372036854775807 * * * *" with
  | inr s => bool_decide (57 ∈ minutes s) && bool_decide (59 ∈ minutes s)
  | inl _ => false
  end = true.
Proof. vm_compute. reflexivity. Qed.
