(* ===== verification/Uptime.v ===== *)
(** * Uptime monitoring: the threshold state machine

    Models [internal/uptime/uptime.go]: the classification of one probe
    ([probe]) and the anti-flapping transition ([Transition]) whose verdict is
    what the scheduler alerts on. *)
From S2P Require Import Prelude.
Local Open Scope Z_scope.
Local Open Scope go_scope.

(** [uptime.Status]: the column is free text, the three constants are the only
    values the program writes. *)
Inductive Status := StatusUnknown | StatusUp | StatusDown.

#[export] Instance Status_eq_dec : EqDecision Status.
Proof. solve_decision. Defined.

(** [uptime.State]: the persisted counters of one check, both [int32]. *)
Record State := mkState {
  st_status : Status;
  consecutive_failures : Z;
  consecutive_successes : Z
}.

(** [uptime.Transition]: the new state and whether the verdict flipped.  The
    increments are [int32] increments and wrap. *)
Definition Transition (s : State) (ok : bool)
    (failure_threshold success_threshold : Z) : State * bool :=
  if ok then
    let succ := consecutive_successes s +32 1 in
    if bool_decide (st_status s = StatusUp) then (mkState (st_status s) 0 succ, false)
    else if bool_decide (st_status s = StatusUnknown) || (success_threshold <=? succ)
    then (mkState StatusUp 0 succ, true)
    else (mkState (st_status s) 0 succ, false)
  else
    let fail := consecutive_failures s +32 1 in
    if bool_decide (st_status s = StatusDown) then (mkState (st_status s) fail 0, false)
    else if failure_threshold <=? fail
    then (mkState StatusDown fail 0, true)
    else (mkState (st_status s) fail 0, false).

(** The scheduler folds [Transition] over the results of successive probes;
    the second component collects the verdicts that flipped. *)
Fixpoint transitions (s : State) (results : list bool) (ft st : Z) : State * list Status :=
  match results with
  | [] => (s, [])
  | ok :: rest =>
      let '(s1, changed) := Transition s ok ft st in
      let '(s2, alerts) := transitions s1 rest ft st in
      (s2, if changed then st_status s1 :: alerts else alerts)
  end.

(** Result of one probe ([uptime.Result], latency aside). *)
Record Result := mkResult { res_ok : bool; res_code : Z }.

(** What the network did to one probe: the tcp dial, or the http exchange
    (request construction, transport, response status). *)
Inductive probe_event :=
| TcpDial (connected : bool)
| HttpBadRequest
| HttpTransportError
| HttpResponse (code : Z).

(** [uptime.probe]: reachable is not up — a response of 400 or more is down. *)
Definition probe (e : probe_event) : Result :=
  match e with
  | TcpDial connected => mkResult connected 0
  | HttpBadRequest => mkResult false 0
  | HttpTransportError => mkResult false 0
  | HttpResponse code => if 400 <=? code then mkResult false code else mkResult true code
  end.

(** ** Invariant: at most one of the two counters is positive *)
Definition wf (s : State) : Prop :=
  0 ≤ consecutive_failures s ∧ 0 ≤ consecutive_successes s ∧
  (consecutive_failures s = 0 ∨ consecutive_successes s = 0).

Definition fresh_state : State := mkState StatusUnknown 0 0.

(** [n] probes can be counted without leaving [int32]. *)
Definition room (s : State) (n : Z) : Prop :=
  consecutive_failures s + n < 2 ^ 31 ∧ consecutive_successes s + n < 2 ^ 31.

Lemma Transition_wf s ok ft st n :
  wf s → room s (n + 1) → 0 ≤ n → wf (fst (Transition s ok ft st)) ∧ room (fst (Transition s ok ft st)) n.
Proof.
  unfold wf, room, Transition. intros (? & ? & _) [? ?] ?.
  destruct ok; rewrite !wrap32_id by (unfold in_int32; lia); split_ifs; lia.
Qed.

Lemma transitions_app s r1 r2 ft st :
  transitions s (r1 ++ r2) ft st =
  let '(s1, a1) := transitions s r1 ft st in
  let '(s2, a2) := transitions s1 r2 ft st in (s2, a1 ++ a2).
Proof.
  revert s. induction r1 as [|ok r1 IH]; intros s; simpl.
  { by destruct (transitions s r2 ft st). }
  destruct (Transition s ok ft st) as [s1 changed]. rewrite IH.
  destruct (transitions s1 r1 ft st) as [s2 a1], (transitions s2 r2 ft st) as [s3 a2].
  by destruct changed.
Qed.

(** An alert is sent exactly when the verdict differs from the one before. *)
Lemma Transition_changed s ok ft st s' changed :
  Transition s ok ft st = (s', changed) → changed = true ↔ st_status s' ≠ st_status s.
Proof.
  unfold Transition. intros H.
  destruct ok; split_ifs; reflect_bools; destruct (st_status s); naive_solver.
Qed.

(** Length of the run of results equal to [b] at the end of a history. *)
Definition streak (b : bool) (rs : list bool) : Z :=
  foldl (λ n r, if Bool.eqb r b then n + 1 else 0) 0 rs.

Lemma streak_snoc b rs r :
  streak b (rs ++ [r]) = if Bool.eqb r b then streak b rs + 1 else 0.
Proof. unfold streak. by rewrite foldl_app. Qed.

Lemma streak_bound b rs : 0 ≤ streak b rs ≤ Z.of_nat (length rs).
Proof.
  induction rs as [|r rs IH] using rev_ind; [done|].
  rewrite streak_snoc, length_app. simpl. destruct (Bool.eqb r b); lia.
Qed.

(** A streak of [n] means the last [n] results are all [b]. *)
Lemma streak_suffix b rs n :
  Z.of_nat n ≤ streak b rs → ∃ rs', rs = rs' ++ replicate n b.
Proof.
  revert n. induction rs as [|r rs IH] using rev_ind; intros n Hn.
  { exists []. destruct n; [done|]. unfold streak in Hn; simpl in Hn; lia. }
  rewrite streak_snoc in Hn. destruct n as [|n].
  { exists (rs ++ [r]). by rewrite app_nil_r. }
  destruct (Bool.eqb_spec r b) as [->|]; [|lia].
  destruct (IH n) as [rs' ->]; [lia|]. exists rs'.
  by rewrite <- app_assoc, <- replicate_S_end.
Qed.

Lemma fst_transitions_snoc s rs r ft st :
  fst (transitions s (rs ++ [r]) ft st) =
  fst (Transition (fst (transitions s rs ft st)) r ft st).
Proof.
  rewrite transitions_app. destruct (transitions s rs ft st) as [s1 a1]. simpl.
  by destruct (Transition s1 r ft st).
Qed.

(** The persisted counters are the lengths of the current streaks. *)
Lemma counters_are_streaks rs ft st :
  Z.of_nat (length rs) < 2 ^ 31 - 1 →
  let s := fst (transitions fresh_state rs ft st) in
  consecutive_failures s = streak false rs ∧ consecutive_successes s = streak true rs.
Proof.
  induction rs as [|r rs IH] using rev_ind; intros Hlen; [done|].
  rewrite length_app in Hlen. simpl in Hlen. rewrite fst_transitions_snoc, !streak_snoc.
  destruct IH as [IHf IHs]; [lia|].
  pose proof (streak_bound false rs). pose proof (streak_bound true rs).
  unfold Transition. rewrite IHf, IHs.
  destruct r; simpl Bool.eqb; rewrite !wrap32_id by (unfold in_int32; lia); split_ifs; done.
Qed.

(** A check is declared down only after [failure_threshold] consecutive
    failed probes, and a check that was down is declared up only after
    [success_threshold] consecutive successes: whatever the history of a check
    created in the [unknown] state, a transition whose verdict flips ends such
    a streak. *)
Theorem verdict_flip_needs_streak (rs : list bool) (ok : bool) (ft st : Z) (s' : State)
    (Hlen : Z.of_nat (length rs) < 2 ^ 31 - 2)
    (Hflip : Transition (fst (transitions fresh_state rs ft st)) ok ft st = (s', true)) :
  (st_status s' = StatusDown ∧ ∃ rs', rs ++ [ok] = rs' ++ replicate (Z.to_nat ft) false) ∨
  (st_status s' = StatusUp ∧
   (st_status (fst (transitions fresh_state rs ft st)) = StatusUnknown ∨
    ∃ rs', rs ++ [ok] = rs' ++ replicate (Z.to_nat st) true)).
Proof.
  destruct (counters_are_streaks (rs ++ [ok]) ft st) as [Hf Hs].
  { rewrite length_app. simpl. lia. }
  rewrite fst_transitions_snoc, Hflip in Hf, Hs. simpl in Hf, Hs.
  pose proof (streak_bound false (rs ++ [ok])). pose proof (streak_bound true (rs ++ [ok])).
  unfold Transition in Hflip. destruct ok; split_ifs; reflect_bools; [right|left].
  - split; [done|]. destruct E0 as [?|?]; reflect_bools; [by left|right].
    apply streak_suffix. lia.
  - split; [done|]. apply streak_suffix. lia.
Qed.

Lemma verdict_flip_needs_streak_witness :
  ∃ s', Transition (fst (transitions fresh_state [true; false; false] 3 2)) false 3 2 = (s', true) ∧
        st_status s' = StatusDown ∧ ∃ rs', [true; false; false] ++ [false] = rs' ++ replicate 3 false.
Proof.
  eexists. split; [reflexivity|].
  destruct (verdict_flip_needs_streak [true; false; false] false 3 2
              (mkState StatusDown 3 0)) as [H|[H _]]; [reflexivity|reflexivity|exact H|discriminate].
Defined.

(** The alert raised after a probe is exactly a change of verdict: a
    history sends one alert per flip, in order, each carrying the new verdict,
    and the last alert is the current verdict. *)
Theorem alerts_are_flips (s : State) (rs : list bool) (ft st : Z) :
  last (snd (transitions s rs ft st)) =
    (if bool_decide (snd (transitions s rs ft st) = []) then None
     else Some (st_status (fst (transitions s rs ft st)))) ∧
  (snd (transitions s rs ft st) = [] → st_status (fst (transitions s rs ft st)) = st_status s) ∧
  (∀ i v w, snd (transitions s rs ft st) !! i = Some v →
            snd (transitions s rs ft st) !! S i = Some w → v ≠ w).
Proof.
  revert s. induction rs as [|ok rs IH] using rev_ind; intros s; [done|].
  rewrite transitions_app. destruct (IH s) as (Hlast & Hnil & Hadj). clear IH.
  destruct (transitions s rs ft st) as [s1 a1]. simpl in *.
  destruct (Transition s1 ok ft st) as [s2 changed] eqn:HT. simpl.
  pose proof (Transition_changed _ _ _ _ _ _ HT) as Hch. destruct changed; simpl.
  - rewrite last_snoc, bool_decide_eq_false_2 by (by destruct a1).
    split; [done|]. split; [by destruct a1|]. intros i v w Hi HSi.
    apply lookup_app_Some in HSi as [HSi|[Hge HSi]].
    + eapply Hadj; [|done]. rewrite lookup_app_l in Hi; [done|].
      apply lookup_lt_Some in HSi. lia.
    + apply list_lookup_singleton_Some in HSi as [Hz <-].
      rewrite lookup_app_l in Hi by (apply lookup_lt_Some in Hi; rewrite length_app in Hi; simpl in Hi; lia).
      assert (last a1 = Some v) as Hl.
      { rewrite last_lookup. replace (pred (length a1)) with i by lia. done. }
      rewrite Hl in Hlast. case_bool_decide; simplify_eq.
      intros Hv. apply (proj1 Hch eq_refl). congruence.
  - rewrite app_nil_r. assert (st_status s2 = st_status s1) as Heq.
    { destruct (decide (st_status s2 = st_status s1)); [done|]. by apply Hch in n. }
    rewrite Heq. done.
Qed.
