(* ===== verification/NetIP.v ===== *)
(** * IP addresses and prefixes

    The part of Go's [net/netip] and [net] the access checks use.  An address
    is its value as a 32- or 128-bit integer; a scoped IPv6 address remembers
    that it carries a zone. *)
From S2P Require Import Prelude GoLib.
Local Open Scope Z_scope.

Inductive Addr :=
| V4 (a : Z)
| V6 (a : Z) (zoned : bool).

(** [netip.Prefix]: the address as written and the number of leading bits. *)
Record Prefix := mkPrefix { px_addr : Addr; px_bits : Z }.

(** An IPv4-mapped IPv6 address, ::ffff:a.b.c.d. *)
Definition mapped_base : Z := 65535 * 2 ^ 32.

(** [netip.Addr.Unmap] *)
Definition Unmap (a : Addr) : Addr :=
  match a with
  | V6 v _ => if (mapped_base <=? v) && (v <? mapped_base + 2 ^ 32) then V4 (v - mapped_base) else a
  | V4 _ => a
  end.

(** The [bits] leading bits of two [w]-bit values agree. *)
Definition same_prefix (w bits x y : Z) : bool :=
  Z.shiftr x (w - bits) =? Z.shiftr y (w - bits).

(** [netip.Prefix.Contains]: the families must match, a zone never does. *)
Definition Contains (p : Prefix) (a : Addr) : bool :=
  match px_addr p, a with
  | V4 n, V4 x => same_prefix 32 (px_bits p) x n
  | V6 n _, V6 x false => same_prefix 128 (px_bits p) x n
  | _, _ => false
  end.

(** Values that fit their width. *)
Definition valid_addr (a : Addr) : Prop :=
  match a with V4 x => 0 ≤ x < 2 ^ 32 | V6 x _ => 0 ≤ x < 2 ^ 128 end.

(** A prefix is the interval of addresses that share its leading bits. *)
Lemma same_prefix_interval w bits x y :
  0 ≤ bits ≤ w →
  same_prefix w bits x y = true ↔
  y `div` 2 ^ (w - bits) * 2 ^ (w - bits) ≤ x < (y `div` 2 ^ (w - bits) + 1) * 2 ^ (w - bits).
Proof.
  intros Hb. unfold same_prefix. rewrite Z.eqb_eq, !Z.shiftr_div_pow2 by lia.
  set (k := 2 ^ (w - bits)). assert (0 < k) by (apply Z.pow_pos_nonneg; lia).
  pose proof (Z.div_mod x k ltac:(lia)). pose proof (Z.mod_pos_bound x k ltac:(lia)).
  split; [intros; nia|]. intros ?. symmetry. apply (Z.div_unique_pos x k _ (x - y `div` k * k)); nia.
Qed.

Definition ipv4 (a b c d : Z) : Z := a * 2 ^ 24 + b * 2 ^ 16 + c * 2 ^ 8 + d.

Example contains_ex :
  Contains (mkPrefix (V4 (ipv4 10 0 0 0)) 8) (Unmap (V6 (mapped_base + ipv4 10 1 2 3) false)) = true.
Proof. reflexivity. Qed.

(** ** Addresses as text *)

(** One octet of dotted notation: decimal, at most 255, without leading zeros. *)
Definition parse_octet (s : string) : option Z :=
  match s with
  | String "0" EmptyString => Some 0
  | String "0" _ => None
  | _ => v ← unsigned s; if v <=? 255 then Some v else None
  end.

(** [netip.parseIPv4Fields] *)
Definition parseIPv4 (s : string) : option Z :=
  match split "." s with
  | [a; b; c; d] =>
      a ← parse_octet a; b ← parse_octet b; c ← parse_octet c; d ← parse_octet d;
      Some (ipv4 a b c d)
  | _ => None
  end.

Definition hex_digit (a : ascii) : option Z :=
  let v := byte_val a in
  if (48 <=? v) && (v <=? 57) then Some (v - 48)
  else if (97 <=? v) && (v <=? 102) then Some (v - 87)
  else if (65 <=? v) && (v <=? 70) then Some (v - 55)
  else None.

(** The leading hexadecimal digits of a string: how many, their value, the rest. *)
Fixpoint hex_run (n : nat) (acc : Z) (s : string) : nat * Z * string :=
  match s with
  | String a s' =>
      match hex_digit a with
      | Some d => hex_run (S n) (16 * acc + d) s'
      | None => (n, acc, s)
      end
  | EmptyString => (n, acc, s)
  end.

(** The loop of [netip.parseIPv6]: [groups] holds the 16-bit groups read so
    far, [ellipsis] how many of them came before the double colon, [fuel] how
    many more fit.  The answer is the groups and the ellipsis, once the text is
    used up. *)
Fixpoint ipv6_groups (fuel : nat) (s : string) (groups : list Z) (ellipsis : option nat)
    : option (list Z * option nat) :=
  match fuel with
  | O => None                                   (* trailing garbage *)
  | S fuel' =>
      let '(n, acc, rest) := hex_run 0 0 s in
      if bool_decide (n = 0%nat) || (4 <? n)%nat then None
      else match rest with
      | EmptyString => Some (groups ++ [acc], ellipsis)
      | String "." _ =>
          if (bool_decide (ellipsis = None) && negb (bool_decide (length groups = 6%nat))) ||
             (6 <? length groups)%nat then None
          else v ← parseIPv4 s; Some (groups ++ [v / 2 ^ 16; v `mod` 2 ^ 16], ellipsis)
      | String ":" EmptyString => None
      | String ":" (String ":" after) =>
          let groups := groups ++ [acc] in
          match ellipsis, after with
          | Some _, _ => None
          | None, EmptyString => Some (groups, Some (length groups))
          | None, _ => ipv6_groups fuel' after groups (Some (length groups))
          end
      | String ":" after => ipv6_groups fuel' after (groups ++ [acc]) ellipsis
      | _ => None
      end
  end.

(** The double colon stands for at least one group of zeros. *)
Definition expand_ellipsis (groups : list Z) (ellipsis : option nat) : option (list Z) :=
  match ellipsis with
  | None => if bool_decide (length groups = 8%nat) then Some groups else None
  | Some e =>
      if (length groups <? 8)%nat
      then Some (take e groups ++ replicate (8 - length groups) 0 ++ drop e groups)
      else None
  end.

(** [netip.parseIPv6] *)
Definition parseIPv6 (text : string) : option Addr :=
  let '(s, zone) := match cut "%" text with Some (s, z) => (s, Some z) | None => (text, None) end in
  if bool_decide (zone = Some "") then None
  else
    let zoned := bool_decide (is_Some zone) in
    match s with
    | String ":" (String ":" EmptyString) => Some (V6 0 zoned)
    | _ =>
        let '(s, ellipsis) :=
          match s with String ":" (String ":" after) => (after, Some 0%nat) | _ => (s, None) end in
        '(groups, ellipsis) ← ipv6_groups 8 s [] ellipsis;
        groups ← expand_ellipsis groups ellipsis;
        Some (V6 (pos_value (2 ^ 16) groups) zoned)
    end.

(** [netip.ParseAddr]: the first of [.], [:] and [%] decides the family. *)
Fixpoint parse_as (first : string) (s : string) : option Addr :=
  match first with
  | EmptyString => None
  | String "." _ => V4 <$> parseIPv4 s
  | String ":" _ => parseIPv6 s
  | String "%" _ => None
  | String _ first' => parse_as first' s
  end.
Definition ParseAddr (s : string) : option Addr := parse_as s s.

(** The last occurrence of a byte: what precedes and what follows it. *)
Fixpoint cut_last (c : ascii) (s : string) : option (string * string) :=
  match s with
  | EmptyString => None
  | String a s' =>
      match cut_last c s' with
      | Some (before, after) => Some (String a before, after)
      | None => if decide (a = c) then Some (EmptyString, s') else None
      end
  end.

(** [net.SplitHostPort] *)
Definition SplitHostPort (hostport : string) : option (string * string) :=
  '(before, port) ← cut_last ":" hostport;
  match before with
  | String "[" inner =>
      '(host, rest) ← cut "]" inner;
      if bool_decide (rest = "") && negb (contains "[" host) && negb (contains "[" port) && negb (contains "]" port)
      then Some (host, port) else None
  | _ =>
      if contains ":" before || contains "[" hostport || contains "]" hostport
      then None else Some (before, port)
  end.

(** ** Parsed addresses fit their width *)

Lemma parse_octet_range s v : parse_octet s = Some v → is_digit 256 v.
Proof.
  unfold parse_octet, is_digit. intros H.
  assert (∀ acc t w, 0 <= acc → digits acc t = Some w → 0 <= w) as Hpos.
  { intros acc t. revert acc. induction t as [|a t IH]; simpl; intros acc w Ha Hw; [by simplify_eq|].
    unfold digit in Hw. destruct (_ && _) eqn:E; [|done]. reflect_bools. eapply IH; [|exact Hw]. lia. }
  assert (∀ t w, (v' ← unsigned t; if v' <=? 255 then Some v' else None) = Some w → 0 <= w < 256) as Hgen.
  { intros t w. unfold unsigned. destruct t as [|a t]; [done|].
    destruct (digits 0 (String a t)) as [x|] eqn:E; [|done]. simpl. apply Hpos in E; [|done].
    destruct (Z.leb_spec x 255); [|done]. intros [= <-]. lia. }
  repeat (case_match; simplify_eq; try lia; try (by apply Hgen in H)).
Qed.

Lemma parseIPv4_range s v : parseIPv4 s = Some v → 0 <= v < 2 ^ 32.
Proof.
  unfold parseIPv4. intros H. destruct (split "." s) as [|a [|b [|c [|d [|]]]]]; try done.
  destruct (parse_octet a) eqn:Ha, (parse_octet b) eqn:Hb, (parse_octet c) eqn:Hc, (parse_octet d) eqn:Hd; try done.
  simpl in H. injection H as <-.
  apply parse_octet_range in Ha, Hb, Hc, Hd. unfold is_digit, ipv4 in *. lia.
Qed.

Lemma hex_run_range n acc s n' acc' rest :
  hex_run n acc s = (n', acc', rest) → 0 <= acc < 16 ^ Z.of_nat n → 0 <= acc' < 16 ^ Z.of_nat n'.
Proof.
  revert n acc. induction s as [|a s IH]; simpl; intros n acc H Hacc; [by simplify_eq|].
  unfold hex_digit in H. case_match eqn:E; [|by simplify_eq].
  eapply IH; [exact H|]. rewrite Nat2Z.inj_succ, Z.pow_succ_r by lia.
  repeat (destruct (_ && _) eqn:? in E; [injection E as <-; reflect_bools; lia|]). done.
Qed.

Lemma ipv6_groups_range fuel s gs e gs' e' :
  ipv6_groups fuel s gs e = Some (gs', e') → Forall (is_digit (2 ^ 16)) gs → Forall (is_digit (2 ^ 16)) gs'.
Proof.
  revert s gs e. induction fuel as [|fuel IH]; intros s gs e H Hgs; [done|]. simpl in H.
  destruct (hex_run 0 0 s) as [[n acc] rest] eqn:Hr.
  destruct (bool_decide (n = 0%nat) || (4 <? n)%nat) eqn:Hn; [done|].
  assert (is_digit (2 ^ 16) acc) as Hacc.
  { apply hex_run_range in Hr; [|simpl; lia]. apply orb_false_iff in Hn as [_ Hn]. apply Nat.ltb_ge in Hn.
    assert (16 ^ Z.of_nat n <= 16 ^ 4) by (apply Z.pow_le_mono_r; lia). unfold is_digit. lia. }
  assert (Forall (is_digit (2 ^ 16)) (gs ++ [acc])) as Happ by (apply Forall_app; auto).
  assert (∀ v, parseIPv4 s = Some v → Forall (is_digit (2 ^ 16)) (gs ++ [v / 2 ^ 16; v `mod` 2 ^ 16])) as H4.
  { intros v Hv%parseIPv4_range. apply Forall_app. split; [done|]. unfold is_digit.
    repeat constructor; [apply Z.div_pos; lia|apply Z.div_lt_upper_bound; lia|apply Z.mod_pos_bound; lia..]. }
  repeat (case_match; simplify_eq; try done; try (by eapply IH; [exact H|])).
  destruct (parseIPv4 s) as [v|]; simpl in H; simplify_eq. by apply H4.
Qed.

Lemma ParseAddr_valid s a : ParseAddr s = Some a → valid_addr a.
Proof.
  assert (∀ t a, parseIPv6 t = Some a → valid_addr a) as H6.
  { intros t b. unfold parseIPv6. intros H.
    destruct (match cut "%" t with Some (s', z) => (s', Some z) | None => (t, None) end) as [u zone].
    case_bool_decide; [done|].
    assert (∀ u' e z, ('(gs, e') ← ipv6_groups 8 u' [] e; gs' ← expand_ellipsis gs e';
               Some (V6 (pos_value (2 ^ 16) gs') z)) = Some b → valid_addr b) as Hgen.
    { intros u' e z Hg. destruct (ipv6_groups 8 u' [] e) as [[gs e']|] eqn:E; [|done]. simpl in Hg.
      destruct (expand_ellipsis gs e') as [gs'|] eqn:Ee; [|done]. simpl in Hg. injection Hg as <-.
      apply ipv6_groups_range in E; [|constructor].
      assert (Forall (is_digit (2 ^ 16)) gs' ∧ length gs' = 8%nat) as [Hd Hl].
      { unfold expand_ellipsis in Ee. destruct e' as [k|].
        - destruct (Nat.ltb_spec (length gs) 8); [|done]. injection Ee as <-. split.
          + repeat apply Forall_app_2; [by apply Forall_take| |by apply Forall_drop].
            apply Forall_replicate. unfold is_digit. lia.
          + rewrite !length_app, length_replicate, length_take, length_drop. lia.
        - case_bool_decide; [|done]. by injection Ee as <-. }
      pose proof (pos_value_range (2 ^ 16) gs' ltac:(lia) Hd) as Hr. rewrite Hl in Hr. exact Hr. }
    repeat (case_match; try (by eapply Hgen; exact H)); simplify_eq; simpl; lia. }
  unfold ParseAddr. generalize s at 1. intros first. induction first as [|c first IH]; [done|].
  intros H. simpl in H.
  destruct (decide (c = "."%char)) as [->|H1].
  { destruct (parseIPv4 s) as [v|] eqn:E; [|done]. injection H as <-. by eapply parseIPv4_range. }
  destruct (decide (c = ":"%char)) as [->|H2]; [by eapply H6|].
  destruct (decide (c = "%"%char)) as [->|H3]; [done|]. apply IH.
  destruct c as [[] [] [] [] [] [] [] []]; done.
Qed.

Example parse_addr_ex :
  (ParseAddr "10.1.2.3", ParseAddr "::ffff:10.1.2.3", ParseAddr "fe80::1%eth0", ParseAddr "1.2.3.04",
   ParseAddr "2001:db8::", ParseAddr "1:2:3:4:5:6:7::8", ParseAddr "::1:2:3:4:5:6:7:8", ParseAddr "1:2:3:4:5:6:7:8") =
  (Some (V4 (ipv4 10 1 2 3)), Some (V6 (mapped_base + ipv4 10 1 2 3) false),
   Some (V6 (65152 * 2 ^ 112 + 1) true), None, Some (V6 (8193 * 2 ^ 112 + 3512 * 2 ^ 96) false),
   None, None, Some (V6 (pos_value (2 ^ 16) [1; 2; 3; 4; 5; 6; 7; 8]) false)).
Proof. vm_compute. reflexivity. Qed.
Example split_host_port_ex :
  (SplitHostPort "10.0.0.1:80", SplitHostPort "[::1]:443", SplitHostPort "::1", SplitHostPort "10.0.0.1",
   SplitHostPort "[::1]", SplitHostPort "a]:1") =
  (Some ("10.0.0.1", "80"), Some ("::1", "443"), None, None, None, None).
Proof. vm_compute. reflexivity. Qed.
