(* ===== verification/Auth.v ===== *)
(** * Permissions, roles and API tokens

    Models [internal/auth]: the granular permission catalogue and its closure
    ([permissions.go]), the system roles ([roles.go]), the coarse permission
    hierarchy, token parsing ([auth.go]) and the bearer-token half of the
    authentication middleware ([middleware.go]). *)
From S2P Require Import Prelude GoLib NetIP.

(** ** The catalogue *)

(** [auth.Permission]: a string; the five coarse scopes of the public API. *)
Definition PermRead : string := "read".
Definition PermReadSensitive : string := "read:sensitive".
Definition PermWrite : string := "write".
Definition PermDeploy : string := "deploy".
Definition PermRoot : string := "root".

Definition AllPermissions : list string :=
  [PermRead; PermReadSensitive; PermWrite; PermDeploy; PermRoot].

(** [auth.Catalog]: every granular permission with its coarse socle. *)
Definition catalog_entries : list (string * string) :=
  [("team:read", PermRead); ("team:manage", PermWrite); ("members:read", PermRead);
   ("members:manage", PermWrite); ("invitations:manage", PermWrite);
   ("roles:read", PermRead); ("roles:manage", PermWrite); ("tokens:read", PermRead);
   ("tokens:create", PermWrite); ("tokens:revoke", PermWrite); ("projects:read", PermRead);
   ("projects:manage", PermWrite); ("environments:read", PermRead);
   ("environments:manage", PermWrite); ("environments:deploy", PermDeploy);
   ("resources:read", PermRead); ("resources:adopt", PermWrite);
   ("applications:read", PermRead); ("applications:create", PermWrite);
   ("applications:update", PermWrite); ("applications:delete", PermWrite);
   ("applications:deploy", PermDeploy); ("applications:lifecycle", PermDeploy);
   ("applications:exec", PermDeploy); ("databases:read", PermRead);
   ("databases:create", PermWrite); ("databases:update", PermWrite);
   ("databases:delete", PermWrite); ("databases:lifecycle", PermDeploy);
   ("databases:credentials", PermReadSensitive); ("services:read", PermRead);
   ("services:manage", PermWrite); ("services:deploy", PermDeploy);
   ("secrets:read", PermRead); ("secrets:reveal", PermReadSensitive);
   ("secrets:write", PermWrite); ("servers:read", PermRead); ("servers:manage", PermWrite);
   ("servers:maintain", PermWrite); ("servers:proxy", PermWrite); ("keys:read", PermRead);
   ("keys:manage", PermWrite); ("certificates:read", PermRead);
   ("certificates:renew", PermWrite); ("sources:read", PermRead);
   ("sources:manage", PermWrite); ("registries:manage", PermWrite);
   ("cloud:read", PermRead); ("cloud:manage", PermWrite); ("storages:manage", PermWrite);
   ("backups:read", PermRead); ("backups:manage", PermWrite);
   ("backups:restore", PermWrite); ("deployments:read", PermRead);
   ("deployments:cancel", PermDeploy); ("jobs:manage", PermWrite);
   ("previews:read", PermRead); ("previews:manage", PermWrite);
   ("templates:manage", PermWrite); ("terminal:open", PermWrite);
   ("terminal:root", PermWrite); ("port-forwards:open", PermWrite);
   ("external-endpoints:read", PermRead); ("external-endpoints:manage", PermWrite);
   ("ingress-endpoints:read", PermRead); ("ingress-endpoints:manage", PermWrite);
   ("ingress-tunnels:open", PermWrite); ("logs:read", PermRead);
   ("logs:manage", PermWrite); ("metrics:read", PermRead); ("audit:read", PermRead);
   ("uptime:read", PermRead); ("uptime:manage", PermWrite);
   ("notifications:read", PermRead); ("notifications:manage", PermWrite);
   ("config:export", PermRead); ("config:apply", PermWrite); ("instance:manage", PermRoot);
   ("instance:audit", PermRoot); ("instance:encryption", PermRoot)].

Definition Catalog : gmap string string := list_to_map catalog_entries.

(** [auth.extraPrerequisites] *)
Definition extra_entries : list (string * list string) :=
  [("invitations:manage", ["members:read"]);
   ("config:apply", ["config:export"]);
   ("environments:deploy", ["resources:read"; "environments:read"]);
   ("terminal:root", ["terminal:open"]);
   ("registries:manage", ["sources:read"]);
   ("storages:manage", ["applications:read"]);
   ("jobs:manage", ["deployments:read"]);
   ("ingress-tunnels:open", ["ingress-endpoints:read"])].

Definition extraPrerequisites : gmap string (list string) := list_to_map extra_entries.

Lemma Catalog_entries p socle : Catalog !! p = Some socle → (p, socle) ∈ catalog_entries.
Proof. apply elem_of_list_to_map_2. Qed.

Lemma extra_entries_of p qs : extraPrerequisites !! p = Some qs → (p, qs) ∈ extra_entries.
Proof. apply elem_of_list_to_map_2. Qed.

(** The two tables are looked up, never unfolded, by the proofs below. *)
#[global] Opaque Catalog extraPrerequisites.

(** The granular constants the handlers are wired with. *)
Definition granular_constants : list string :=
  ["applications:read"; "applications:create"; "applications:update"; "applications:delete";
   "applications:deploy"; "applications:lifecycle"; "applications:exec"; "resources:adopt";
   "databases:read"; "databases:create"; "databases:update"; "databases:delete";
   "databases:lifecycle"; "services:read"; "services:manage"; "services:deploy";
   "secrets:read"; "secrets:write"; "servers:read"; "servers:manage"; "servers:maintain";
   "servers:proxy"; "resources:read"; "projects:read"; "projects:manage"; "environments:read";
   "environments:manage"; "team:read"; "team:manage"; "members:read"; "members:manage";
   "roles:read"; "roles:manage"; "invitations:manage"; "tokens:read"; "tokens:create";
   "tokens:revoke"; "previews:read"; "previews:manage"; "deployments:read";
   "deployments:cancel"; "backups:read"; "backups:manage"; "backups:restore"; "logs:read";
   "metrics:read"; "jobs:manage"; "notifications:read"; "notifications:manage"; "cloud:read";
   "cloud:manage"; "certificates:read"; "certificates:renew"; "storages:manage"; "keys:read";
   "keys:manage"; "sources:read"; "sources:manage"; "registries:manage"; "terminal:open";
   "terminal:root"; "port-forwards:open"; "external-endpoints:read";
   "external-endpoints:manage"; "ingress-endpoints:read"; "ingress-endpoints:manage";
   "ingress-tunnels:open"; "audit:read"; "uptime:read"; "uptime:manage"; "instance:manage";
   "instance:audit"; "instance:encryption"].

(** Every one of them is a permission of the catalogue, under its own name. *)
Lemma granular_constants_in_catalog :
  NoDup granular_constants ∧ ∀ p, p ∈ granular_constants → is_Some (Catalog !! p).
Proof.
  split; [apply (bool_decide_unpack _); vm_compute; exact I|].
  assert (H : forallb (λ p, bool_decide (is_Some (Catalog !! p))) granular_constants = true)
    by (vm_compute; reflexivity).
  rewrite forallb_forall in H. intros p Hp%list_elem_of_In. specialize (H p Hp).
  by apply bool_decide_eq_true in H.
Qed.

(** [auth.reviewerPermissions], [auth.memberPermissions] *)
Definition reviewerPermissions : list string :=
  ["projects:read"; "environments:read"; "applications:read"; "previews:read"].

Definition memberPermissions : list string :=
  ["team:read"; "members:read"; "projects:read"; "projects:manage"; "environments:read";
   "environments:manage"; "resources:read"; "resources:adopt"; "applications:read";
   "applications:create"; "applications:update"; "applications:delete";
   "applications:deploy"; "applications:lifecycle"; "applications:exec"; "databases:read";
   "databases:create"; "databases:update"; "databases:delete"; "databases:lifecycle";
   "services:read"; "services:manage"; "services:deploy"; "secrets:read"; "secrets:write";
   "servers:read"; "certificates:read"; "keys:read"; "sources:read"; "sources:manage";
   "registries:manage"; "storages:manage"; "backups:read"; "backups:manage";
   "backups:restore"; "deployments:read"; "deployments:cancel"; "previews:read";
   "previews:manage"; "terminal:open"; "port-forwards:open"; "external-endpoints:read";
   "ingress-endpoints:read"; "ingress-tunnels:open"; "logs:read"; "metrics:read";
   "notifications:read"; "notifications:manage"; "uptime:read"; "uptime:manage";
   "audit:read"].

(** ** The permission hierarchy and the closure *)

(** [auth.Has]: root includes everything; write, read:sensitive and deploy
    include read. *)
Definition Has (granted : list string) (required : string) : bool :=
  existsb (λ g,
    bool_decide (g = PermRoot) || bool_decide (g = required) ||
    (bool_decide (required = PermRead) &&
     (bool_decide (g = PermWrite) || bool_decide (g = PermReadSensitive) ||
      bool_decide (g = PermDeploy)))) granted.

(** [auth.splitPerm]: "domain:action" with exactly one colon and two non-empty
    sides. *)
Definition splitPerm (perm : string) : option (string * string) :=
  match cut ":"%char perm with
  | Some (dom, action) =>
      if bool_decide (dom = "") || bool_decide (action = "") || contains ":"%char action
      then None else Some (dom, action)
  | None => None
  end.

(** [auth.Prerequisites] *)
Definition Prerequisites (perm : string) : list string :=
  (match splitPerm perm with
   | Some (dom, action) =>
       if bool_decide (action ≠ "read") && bool_decide (is_Some (Catalog !! (dom +:+ ":read")))
       then [dom +:+ ":read"] else []
   | None => []
   end) ++ default [] (extraPrerequisites !! perm).

(** [walk] of [auth.Closure]: a depth-first traversal with a shared [seen] map.
    The fuel bounds the recursion depth; [closure_set_total] shows that
    [closure_depth] is always enough. *)
Fixpoint walk (fuel : nat) (p : string) (seen : gset string) : option (gset string) :=
  match fuel with
  | O => None
  | S fuel' =>
      if decide (p ∈ seen) then Some seen
      else foldl (λ acc dep, seen' ← acc; walk fuel' dep seen')
             (Some ({[ p ]} ∪ seen)) (Prerequisites p)
  end.

Definition closure_depth : nat := 8.

Definition closure_set (perms : list string) : option (gset string) :=
  foldl (λ acc p, seen ← acc; walk closure_depth p seen) (Some ∅) perms.

(** [sort.Strings] of the keys of a map. *)
Definition sorted_keys (s : gset string) : list string := merge_sort String.le (elements s).

(** [auth.Closure] *)
Definition Closure (perms : list string) : list string :=
  sorted_keys (default ∅ (closure_set perms)).

(** [auth.ProjectScopes] *)
Definition ProjectScopes (scopes : list string) : list string :=
  if decide (PermRoot ∈ scopes) then Closure (catalog_entries.*1)
  else Closure (filter (λ e, e.2 ∈ scopes) catalog_entries).*1.

(** [auth.TeamAdminPermissions] *)
Definition TeamAdminPermissions : list string :=
  Closure (filter (λ e, e.2 ≠ PermRoot) catalog_entries).*1.

Definition socles (perms : list string) : list string :=
  omap (λ p, Catalog !! p) perms.

(** [auth.ExpandGranular] *)
Definition ExpandGranular (perms : list string) : list string :=
  let closed := Closure perms in
  sorted_keys (list_to_set closed ∪ list_to_set (socles closed)).

(** [auth.EffectivePermissions] *)
Definition EffectivePermissions (coarse : list string) : list string :=
  sorted_keys (list_to_set coarse ∪ list_to_set (ProjectScopes coarse)).

(** [auth.ValidateCustomPermissions]: the error names the first offender. *)
Inductive role_error :=
| UnknownPermission (p : string)
| InstanceScoped (p : string)
| NotHeld (p : string).

Fixpoint check_entries (perms : list string) : option role_error :=
  match perms with
  | [] => None
  | p :: rest =>
      match Catalog !! p with
      | None => Some (UnknownPermission p)
      | Some socle =>
          if decide (socle = PermRoot) then Some (InstanceScoped p) else check_entries rest
      end
  end.

Fixpoint check_held (closed composer : list string) : option role_error :=
  match closed with
  | [] => None
  | p :: rest => if Has composer p then check_held rest composer else Some (NotHeld p)
  end.

Definition ValidateCustomPermissions (perms composer : list string) : role_error + list string :=
  match check_entries perms with
  | Some e => inl e
  | None =>
      let closed := Closure perms in
      match check_held closed composer with
      | Some e => inl e
      | None => inr closed
      end
  end.

(** [store.TeamRole], with the legacy values the code still maps. *)
Inductive TeamRole := RoleOwner | RoleAdmin | RoleMember | RoleReviewer | RoleNone.

#[export] Instance TeamRole_eq_dec : EqDecision TeamRole.
Proof. solve_decision. Defined.

(** [auth.PermissionsForRole], [auth.PermissionsForMembership] *)
Definition PermissionsForRole (role : TeamRole) : list string :=
  match role with
  | RoleAdmin | RoleOwner => TeamAdminPermissions
  | RoleReviewer => reviewerPermissions
  | RoleNone => []
  | RoleMember => memberPermissions
  end.

Definition PermissionsForMembership (role : TeamRole) (hasCustomRole : bool)
    (customPermissions : list string) : list string :=
  if hasCustomRole then customPermissions else PermissionsForRole role.

(** [auth.Intersect]: the permissions of [a], in order, that [b] holds too. *)
Definition Intersect (a b : list string) : list string :=
  filter (λ p, p ∈ b) a.

(** ** The closure is the least closed set *)

(** One prerequisite edge, and the permissions a permission implies. *)
Definition prereq (p q : string) : Prop := q ∈ Prerequisites p.
Definition implied (p q : string) : Prop := rtc prereq p q.

(** Every chain of prerequisites from [p] is shorter than [n]. *)
Fixpoint chain_ok (n : nat) (p : string) : bool :=
  match n with O => false | S n' => forallb (chain_ok n') (Prerequisites p) end.

Lemma chain_ok_catalog : forallb (chain_ok 5) (catalog_entries.*1) = true.
Proof. vm_compute. reflexivity. Qed.

Lemma chain_ok_known p : is_Some (Catalog !! p) → chain_ok 5 p = true.
Proof.
  intros [socle Hp%Catalog_entries]. pose proof chain_ok_catalog as H.
  rewrite forallb_forall in H. apply H. rewrite <- list_elem_of_In.
  apply list_elem_of_fmap. by exists (p, socle).
Qed.

(** Every cross-domain prerequisite is a catalogue entry. *)
Lemma extra_known :
  forallb (λ e, forallb (λ q, bool_decide (is_Some (Catalog !! q))) e.2) extra_entries = true.
Proof. vm_compute. reflexivity. Qed.

Lemma extraPrerequisites_known p qs q :
  extraPrerequisites !! p = Some qs → q ∈ qs → is_Some (Catalog !! q).
Proof.
  intros Hp%extra_entries_of Hq. pose proof extra_known as H.
  rewrite forallb_forall in H. specialize (H (p, qs) ltac:(by apply list_elem_of_In)).
  rewrite forallb_forall in H. specialize (H q ltac:(by apply list_elem_of_In)).
  by reflect_bools.
Qed.

Lemma prereq_known p q : prereq p q → is_Some (Catalog !! q).
Proof.
  unfold prereq, Prerequisites. rewrite elem_of_app. intros [H|H].
  - destruct (splitPerm p) as [[dom action]|]; [|by apply not_elem_of_nil in H].
    destruct (_ && _) eqn:E; [|by apply not_elem_of_nil in H].
    apply list_elem_of_singleton in H as ->. by reflect_bools.
  - destruct (extraPrerequisites !! p) as [qs|] eqn:Hp; [|by apply not_elem_of_nil in H].
    by eapply extraPrerequisites_known.
Qed.

Lemma chain_ok_all p : chain_ok 6 p = true.
Proof.
  simpl. apply forallb_forall. intros q Hq%list_elem_of_In.
  apply (chain_ok_known q). by apply (prereq_known p).
Qed.

(** What a traversal adds to [seen] is closed, and reachable from its start. *)
Definition grows (R : string → Prop) (seen seen' : gset string) : Prop :=
  seen ⊆ seen' ∧
  ∀ x, x ∈ seen' → x ∈ seen ∨ (R x ∧ ∀ y, prereq x y → y ∈ seen').

Lemma grows_refl R seen : grows R seen seen.
Proof. split; [done|]. by left. Qed.

Lemma grows_trans R s1 s2 s3 : grows R s1 s2 → grows R s2 s3 → grows R s1 s3.
Proof.
  intros [H12 C12] [H23 C23]. split; [set_solver|]. intros x [Hx|Hx]%C23; [|by right].
  apply C12 in Hx as [?|[? Hy]]; [by left|right]. split; [done|]. intros y Hxy. apply H23. auto.
Qed.

Lemma grows_weaken (R R' : string → Prop) s s' : (∀ x, R x → R' x) → grows R s s' → grows R' s s'.
Proof. intros HR [? H]. split; [done|]. intros x Hx. destruct (H x Hx); naive_solver. Qed.

(** Folding a traversal over a list of starts. *)
Lemma fold_grows (f : string → gset string → option (gset string)) (R : string → Prop) ps seen :
  (∀ p, p ∈ ps → ∀ s, ∃ s', f p s = Some s' ∧ grows R s s' ∧ p ∈ s') →
  ∃ s', foldl (λ acc p, s ← acc; f p s) (Some seen) ps = Some s' ∧ grows R seen s' ∧
        ∀ p, p ∈ ps → p ∈ s'.
Proof.
  revert seen. induction ps as [|p ps IH]; intros seen Hf; simpl.
  { exists seen. split; [done|]. split; [apply grows_refl|]. by intros p ?%not_elem_of_nil. }
  destruct (Hf p ltac:(by left) seen) as (s1 & -> & Hg & Hp).
  destruct (IH s1) as (s2 & -> & Hg2 & Hps); [intros; apply Hf; by right|].
  exists s2. split; [done|]. split; [by eapply grows_trans|].
  intros q [->|?]%elem_of_cons; [|by apply Hps]. by apply Hg2.
Qed.

Lemma walk_spec n p seen fuel :
  chain_ok n p = true → n ≤ fuel →
  ∃ seen', walk fuel p seen = Some seen' ∧ grows (implied p) seen seen' ∧ p ∈ seen'.
Proof.
  revert p seen fuel. induction n as [|n IH]; intros p seen fuel Hc Hn; [done|].
  destruct fuel as [|fuel]; [lia|]. simpl in *. case_decide as Hin.
  { exists seen. split; [done|]. split; [apply grows_refl|done]. }
  rewrite forallb_forall in Hc.
  destruct (fold_grows (walk fuel) (implied p) (Prerequisites p) ({[ p ]} ∪ seen))
    as (s' & Hs' & [Hsub Hg] & Hdeps).
  { intros q Hq s. destruct (IH q s fuel) as (s' & ? & Hg & ?);
      [by apply Hc, list_elem_of_In|lia|].
    exists s'. split; [done|]. split; [|done]. eapply grows_weaken; [|done].
    intros x Hx. by eapply rtc_l. }
  exists s'. split; [done|]. split; [|set_solver]. split; [set_solver|].
  intros x [[->%elem_of_singleton|?]%elem_of_union|?]%Hg; [|by left|by right].
  right. split; [apply rtc_refl|]. exact Hdeps.
Qed.

(** The fuel of the traversal is always enough, and the traversal computes
    exactly the permissions implied by the given ones. *)
Lemma closure_set_spec perms :
  ∃ s, closure_set perms = Some s ∧ ∀ q, q ∈ s ↔ ∃ p, p ∈ perms ∧ implied p q.
Proof.
  destruct (fold_grows (walk closure_depth) (λ q, ∃ p, p ∈ perms ∧ implied p q) perms ∅)
    as (s & Hs & [_ Hg] & Hps).
  { intros p Hp s. destruct (walk_spec 6 p s closure_depth) as (s' & ? & ? & ?);
      [apply chain_ok_all|unfold closure_depth; lia|].
    exists s'. split; [done|]. split; [|done]. eapply grows_weaken; [|done]. eauto. }
  exists s. split; [done|]. intros q. split.
  - intros [Hq|[Hq _]]%Hg; [by apply not_elem_of_empty in Hq|done].
  - intros (p & Hp & Hpq). apply Hps in Hp. induction Hpq as [|x y z Hxy _ IH]; [done|].
    apply IH. destruct (Hg x Hp) as [Hx|[_ Hx]]; [by apply not_elem_of_empty in Hx|auto].
Qed.

Lemma elem_of_sorted_keys s q : q ∈ sorted_keys s ↔ q ∈ s.
Proof. unfold sorted_keys. by rewrite merge_sort_Permutation, elem_of_elements. Qed.

Lemma elem_of_Closure perms q : q ∈ Closure perms ↔ ∃ p, p ∈ perms ∧ implied p q.
Proof.
  unfold Closure. rewrite elem_of_sorted_keys.
  destruct (closure_set_spec perms) as (s & -> & Hs). apply Hs.
Qed.

#[export] Hint Resolve elem_of_Closure elem_of_sorted_keys : akd.

(** ** Bearer tokens *)

Definition tokenScheme : string := "akd_".
Definition PrefixLen : nat := String.length tokenScheme + 6.

(** [token[:PrefixLen]] *)
Definition token_prefix (token : string) : string := String.substring 0 PrefixLen token.

(** [strings.EqualFold] against an ASCII literal. *)
Definition equal_fold (a b : string) : bool := bool_decide (to_lower a = to_lower b).

(** [auth.SplitBearer]: the token of an Authorization header, or "". *)
Definition SplitBearer (header : string) : string :=
  match cut " "%char header with
  | None => ""
  | Some (scheme, token) =>
      if negb (equal_fold scheme "Bearer") then ""
      else
        let token := trim_space token in
        if negb (has_prefix token tokenScheme) || (String.length token <? PrefixLen)%nat then ""
        else token
  end.

(** [auth.Identity], the fields authorization reads. *)
Record Identity := mkIdentity {
  id_token : Z; id_team : Z; id_permissions : list string;
  id_session : bool; id_instance_root : bool; id_mfa_pending : bool;
  id_user : option Z; id_view_as : string
}.

(** [Identity.IsRoot], [Identity.CanAccessTeam] *)
Definition IsRoot (id : Identity) : bool := Has (id_permissions id) PermRoot.
Definition CanAccessTeam (id : Identity) (team : Z) : bool :=
  IsRoot id || bool_decide (id_team id = team).

(** One row of [GetActiveApiTokensByPrefix]. *)
Record token_row := mkTokenRow {
  tr_id : Z; tr_hash : string; tr_team : Z; tr_permissions : list string;
  tr_expires : option Z; tr_allowlist : list Prefix; tr_last_used : option Z;
  tr_created_by : option Z
}.

(** [GetTokenCreatorAuthority]: the creator's membership of the token's team. *)
Record authority := mkAuthority {
  au_user : Z; au_role : TeamRole; au_custom : option (list string)
}.

(** What the middleware reads from outside: the token table by prefix, the
    creator's membership, the caller's parsed address and the clock. *)
Record token_env := mkTokenEnv {
  te_candidates : string → option (list token_row);
  te_authority : Z → Z → option authority;
  te_remote : option Addr;
  te_now : Z
}.

Inductive auth_error := ErrInvalidAPIToken | ErrStore.

(** [auth.ipAllowed] *)
Definition ipAllowed (remote : option Addr) (allowlist : list Prefix) : bool :=
  match remote with
  | None => false
  | Some a => existsb (λ p, Contains p (Unmap a)) allowlist
  end.

(** [Middleware.boundToCreator] *)
Definition boundToCreator (env : token_env) (id : Identity) (row : token_row)
    (granted : list string) : Identity :=
  match tr_created_by row with
  | None => id
  | Some creator =>
      match te_authority env creator (tr_team row) with
      | None => mkIdentity (id_token id) (id_team id) [] (id_session id) (id_instance_root id)
                  (id_mfa_pending id) (id_user id) (id_view_as id)
      | Some a =>
          let base := PermissionsForMembership (au_role a)
                        (bool_decide (is_Some (au_custom a))) (default [] (au_custom a)) in
          mkIdentity (id_token id) (id_team id) (Intersect granted (ExpandGranular base))
            (id_session id) (id_instance_root id) (id_mfa_pending id) (Some (au_user a))
            (id_view_as id)
      end
  end.

Section Tokens.
(** [auth.HashToken]: the hex SHA-256 of a token. *)
Context (HashToken : string → string).

(** [Middleware.ResolveAPIToken]; the asynchronous [last_used_at] update
    changes nothing the request depends on. *)
Definition ResolveAPIToken (env : token_env) (token : string) : auth_error + Identity :=
  if (String.length token <? PrefixLen)%nat then inl ErrInvalidAPIToken
  else match te_candidates env (token_prefix token) with
  | None => inl ErrStore
  | Some rows =>
      match list_find (λ r, HashToken token = tr_hash r) rows with
      | None => inl ErrInvalidAPIToken
      | Some (_, row) =>
          if match tr_expires row with Some e => (e <? te_now env)%Z | None => false end
          then inl ErrInvalidAPIToken
          else if negb (bool_decide (tr_allowlist row = [])) &&
                  negb (ipAllowed (te_remote env) (tr_allowlist row))
          then inl ErrInvalidAPIToken
          else
            let granted := EffectivePermissions (tr_permissions row) in
            let id := mkIdentity (tr_id row) (tr_team row) granted false false false None "" in
            inr (boundToCreator env id row granted)
      end
  end.

(** *** The middleware *)

(** [SessionAuthenticator]: what the middleware asks of a session manager, its
    store being of type [M] and the browser's side of a request (method, cookie,
    headers) of type [B]. *)
Class SessionAuthenticator (M B : Type) := {
  session_identity : M → B → option Identity;   (** [Authenticate] *)
  session_csrf : M → B → bool                   (** [VerifyCSRF] returns no error *)
}.

(** What a session manager promises: under the invariant of its store, an
    accepted cookie with its CSRF proof speaks for someone, and the identity is
    marked as a session. *)
Class SessionPromises (M B : Type) `{!SessionAuthenticator M B} := {
  session_ok : M → Prop;
  session_speaks_for : M → B → Identity → Prop;
  session_marked m b id : session_identity m b = Some id → id_session id = true;
  session_promise m b id :
    session_ok m → session_identity m b = Some id → session_csrf m b = true →
    session_speaks_for m b id
}.

(** What the request carries, the session manager (absent when cookie auth is
    disabled) and the answer of the settings store. *)
Record api_request (M B : Type) := mkRequest {
  rq_path : string; rq_authorization : string;
  rq_sessions : option M; rq_browser : B;
  rq_api_enabled : option bool             (** None: the settings are unreadable *)
}.
#[global] Arguments mkRequest {M B} _ _ _ _ _.
#[global] Arguments rq_path {M B} _.
#[global] Arguments rq_authorization {M B} _.
#[global] Arguments rq_sessions {M B} _.
#[global] Arguments rq_browser {M B} _.
#[global] Arguments rq_api_enabled {M B} _.

Inductive response :=
| Served (id : option Identity)   (** the next handler ran *)
| Unauthorized | CSRFFailed | APIDisabled | InternalError.

(** [auth.apiGateExempt] *)
Definition apiGateExempt (id : Identity) (path : string) : bool :=
  id_session id || bool_decide (path = "/api/v1/system/api/enable").

(** [Middleware.authenticate] *)
Definition authenticate `{SessionAuthenticator M B} (env : token_env) (r : api_request M B)
    : response + Identity :=
  let token := SplitBearer (rq_authorization r) in
  if decide (token = "") then
    match rq_sessions r with
    | None => inl Unauthorized
    | Some m =>
        match session_identity m (rq_browser r) with
        | Some id => if session_csrf m (rq_browser r) then inr id else inl CSRFFailed
        | None => inl Unauthorized
        end
    end
  else match ResolveAPIToken env token with
  | inl ErrInvalidAPIToken => inl Unauthorized
  | inl ErrStore => inl InternalError
  | inr id => inr id
  end.

(** [Middleware.Handler] *)
Definition Handler `{SessionAuthenticator M B} (env : token_env) (r : api_request M B) : response :=
  if decide (rq_path r = "/api/v1/health") then Served None
  else match authenticate env r with
  | inl resp => resp
  | inr id =>
      if apiGateExempt id (rq_path r) then Served (Some id)
      else match rq_api_enabled r with
      | None => InternalError
      | Some false => APIDisabled
      | Some true => Served (Some id)
      end
  end.
End Tokens.

(** ** Lemmas on the hierarchy *)

(** The grant relation behind [Has]: [g] gives [r]. *)
Definition grants (g r : string) : Prop :=
  g = PermRoot ∨ g = r ∨ (r = PermRead ∧ (g = PermWrite ∨ g = PermReadSensitive ∨ g = PermDeploy)).

Lemma Has_grants granted r : Has granted r = true ↔ ∃ g, g ∈ granted ∧ grants g r.
Proof.
  unfold Has, grants. rewrite existsb_exists. setoid_rewrite <- list_elem_of_In.
  split; intros (g & Hg & H); exists g; (split; [done|]).
  - repeat (apply orb_prop in H as [H|H] || apply andb_prop in H as [? H]); reflect_bools; tauto.
  - rewrite !orb_true_iff, !andb_true_iff, !orb_true_iff, !bool_decide_eq_true. tauto.
Qed.

Lemma grants_trans a b c : grants a b → grants b c → grants a c.
Proof. unfold grants. intuition subst; try (left; done); right; right; intuition (subst; try done). Qed.

Lemma Has_trans granted g r : Has granted g = true → grants g r → Has granted r = true.
Proof.
  rewrite !Has_grants. intros (h & Hh & Hhg) Hgr. exists h. split; [done|]. by eapply grants_trans.
Qed.

Lemma elem_of_Intersect a b p : p ∈ Intersect a b ↔ p ∈ a ∧ p ∈ b.
Proof. unfold Intersect. rewrite list_elem_of_filter. tauto. Qed.

(** The ceiling law: what an intersection grants, both sides grant. *)
Lemma Has_Intersect a b r : Has (Intersect a b) r = true → Has a r = true ∧ Has b r = true.
Proof.
  rewrite !Has_grants. intros (g & [Ha Hb]%elem_of_Intersect & Hg). split; by exists g.
Qed.

Lemma elem_of_socles perms q : q ∈ socles perms ↔ ∃ p, p ∈ perms ∧ Catalog !! p = Some q.
Proof. unfold socles. apply list_elem_of_omap. Qed.

Lemma elem_of_ExpandGranular perms q :
  q ∈ ExpandGranular perms ↔
  q ∈ Closure perms ∨ ∃ p, p ∈ Closure perms ∧ Catalog !! p = Some q.
Proof.
  unfold ExpandGranular. rewrite elem_of_sorted_keys, elem_of_union, !elem_of_list_to_set.
  by rewrite elem_of_socles.
Qed.

Lemma Closure_closed perms p q : p ∈ Closure perms → prereq p q → q ∈ Closure perms.
Proof.
  rewrite !elem_of_Closure. intros (r & Hr & Hrp) Hpq. exists r. split; [done|].
  by eapply rtc_r.
Qed.

Lemma Closure_idemp perms q : q ∈ Closure (Closure perms) ↔ q ∈ Closure perms.
Proof.
  rewrite (elem_of_Closure (Closure perms)). split.
  - intros (p & Hp & Hpq). induction Hpq as [|x y z Hxy _ IH]; [done|].
    apply IH. by eapply Closure_closed.
  - intros Hq. exists q. split; [done|apply rtc_refl].
Qed.

(** *** Instance permissions stay out of reach of prerequisites *)
Fixpoint last_char (s : string) : option ascii :=
  match s with
  | EmptyString => None
  | String a EmptyString => Some a
  | String _ s' => last_char s'
  end.

Lemma last_char_app s t : t ≠ "" → last_char (s +:+ t) = last_char t.
Proof.
  intros Ht. induction s as [|a s IH]; [done|]. rewrite append_cons. simpl.
  rewrite IH. destruct (s +:+ t) eqn:E; [|done]. destruct s; str_simpl; done.
Qed.

(** A root entry of the catalogue neither ends in [:read] nor is the target of
    a cross-domain prerequisite; no socle is itself a granular permission. *)
Definition root_entry_ok (e : string * string) : bool :=
  implb (bool_decide (e.2 = PermRoot))
    (bool_decide (last_char e.1 ≠ Some "d"%char) &&
     forallb (λ x, bool_decide (e.1 ∉ x.2)) extra_entries).
Definition socle_ok (e : string * string) : bool := bool_decide (Catalog !! e.2 = None).

Lemma entries_ok : forallb (λ e, root_entry_ok e && socle_ok e) catalog_entries = true.
Proof. vm_compute. reflexivity. Qed.

Lemma Catalog_root_None : Catalog !! PermRoot = None.
Proof. vm_compute. reflexivity. Qed.

Lemma Catalog_read_None : Catalog !! PermRead = None.
Proof. vm_compute. reflexivity. Qed.

Lemma Catalog_entry_ok p socle :
  Catalog !! p = Some socle → root_entry_ok (p, socle) = true ∧ Catalog !! socle = None.
Proof.
  intros Hp%Catalog_entries. pose proof entries_ok as H. rewrite forallb_forall in H.
  specialize (H (p, socle) ltac:(by apply list_elem_of_In)). apply andb_prop in H as [? H].
  split; [done|]. unfold socle_ok in H. by reflect_bools.
Qed.

Lemma prereq_nonroot p q : prereq p q → ∃ socle, Catalog !! q = Some socle ∧ socle ≠ PermRoot.
Proof.
  intros Hpq. destruct (prereq_known p q Hpq) as [socle Hq]. exists socle. split; [done|].
  intros ->. destruct (Catalog_entry_ok q PermRoot Hq) as [Hok _]. unfold root_entry_ok in Hok.
  cbn [fst snd] in Hok. rewrite bool_decide_eq_true_2 in Hok by done. cbn [implb] in Hok.
  apply andb_prop in Hok as [Hl Hx]. apply bool_decide_eq_true in Hl.
  unfold prereq, Prerequisites in Hpq. apply elem_of_app in Hpq as [Hq'|Hq'].
  - destruct (splitPerm p) as [[dom action]|]; [|by apply not_elem_of_nil in Hq'].
    destruct (_ && _); [|by apply not_elem_of_nil in Hq'].
    apply list_elem_of_singleton in Hq' as ->.
    rewrite last_char_app in Hl by discriminate. exact (Hl eq_refl).
  - destruct (extraPrerequisites !! p) as [qs|] eqn:Hp; [|by apply not_elem_of_nil in Hq'].
    apply extra_entries_of in Hp. rewrite forallb_forall in Hx.
    specialize (Hx (p, qs) (proj1 (list_elem_of_In _ _) Hp)). apply bool_decide_eq_true in Hx.
    exact (Hx Hq').
Qed.

Lemma check_entries_None perms :
  check_entries perms = None ↔
  ∀ p, p ∈ perms → ∃ socle, Catalog !! p = Some socle ∧ socle ≠ PermRoot.
Proof.
  induction perms as [|p perms IH]; cbn [check_entries].
  { split; [|done]. by intros _ p ?%not_elem_of_nil. }
  split.
  - intros H q Hq. apply elem_of_cons in Hq. destruct (Catalog !! p) as [socle|] eqn:Hp; [|discriminate H].
    destruct (decide (socle = PermRoot)) as [Hr|Hr]; [discriminate H|].
    destruct Hq as [->|Hq]; [exists socle; split; assumption|]. exact (proj1 IH H q Hq).
  - intros H. destruct (H p ltac:(by left)) as (socle & Hp & Hr). rewrite Hp.
    rewrite decide_False by exact Hr. apply IH. intros q Hq. apply H. by right.
Qed.

Lemma check_held_None closed composer :
  check_held closed composer = None ↔ ∀ p, p ∈ closed → Has composer p = true.
Proof.
  induction closed as [|p closed IH]; simpl.
  { split; [|done]. by intros _ p ?%not_elem_of_nil. }
  setoid_rewrite elem_of_cons. destruct (Has composer p) eqn:Hp.
  - rewrite IH. naive_solver.
  - split; [done|]. intros H. rewrite H in Hp; [done|]. by left.
Qed.

Lemma Closure_nonroot perms :
  (∀ p, p ∈ perms → ∃ socle, Catalog !! p = Some socle ∧ socle ≠ PermRoot) →
  ∀ p, p ∈ Closure perms → ∃ socle, Catalog !! p = Some socle ∧ socle ≠ PermRoot.
Proof.
  intros Hp q (p & Hin & Hpq)%elem_of_Closure.
  apply rtc_inv_r in Hpq as [<-|(y & _ & Hy)]; [by apply Hp|by eapply prereq_nonroot].
Qed.

(** ** Theorems *)

(** [Closure] returns, sorted and without duplicates, exactly the
    permissions reachable from the given ones through prerequisites: it is the
    least closed set containing them, closing twice changes nothing, and the
    depth-first walk never needs more than [closure_depth] levels. *)
Theorem Closure_least (perms : list string) :
  (∃ s, closure_set perms = Some s) ∧
  Sorted String.le (Closure perms) ∧ NoDup (Closure perms) ∧
  (∀ q, q ∈ Closure perms ↔ ∃ p, p ∈ perms ∧ implied p q) ∧
  Closure (Closure perms) = Closure perms.
Proof.
  assert (∀ l, Sorted String.le (Closure l) ∧ NoDup (Closure l)) as HC.
  { intros l. unfold Closure, sorted_keys. split; [apply (Sorted_merge_sort _)|].
    rewrite merge_sort_Permutation. apply NoDup_elements. }
  destruct (HC perms) as [Hs Hn]. destruct (HC (Closure perms)) as [Hs' Hn'].
  split; [destruct (closure_set_spec perms) as (s & Hcs & _); by exists s|].
  split; [done|]. split; [done|]. split; [intros; apply elem_of_Closure|].
  apply (Sorted_unique String.le); [done|done|]. apply NoDup_Permutation; [done|done|].
  apply Closure_idemp.
Qed.

(** What [ValidateCustomPermissions] accepts. *)
Lemma Validate_inr perms composer closed :
  ValidateCustomPermissions perms composer = inr closed →
  closed = Closure perms ∧
  (∀ p, p ∈ closed → ∃ socle, Catalog !! p = Some socle ∧ socle ≠ PermRoot) ∧
  (∀ p, p ∈ closed → Has composer p = true).
Proof.
  unfold ValidateCustomPermissions. destruct (check_entries perms) eqn:He; [discriminate|].
  destruct (check_held (Closure perms) composer) eqn:Hh; [discriminate|]. intros [= <-].
  split; [reflexivity|]. split; [apply Closure_nonroot; by apply check_entries_None|].
  by apply check_held_None.
Qed.

(** A granular permission held by an expanded set was in its closure. *)
Lemma held_in_closure base p socle :
  Catalog !! p = Some socle → Has (ExpandGranular base) p = true →
  p ∈ Closure base ∨ Has (ExpandGranular base) PermRoot = true.
Proof.
  intros Hp (g & Hg & [->|[->|[-> _]]])%Has_grants.
  - right. apply Has_grants. exists PermRoot. split; [done|by left].
  - apply elem_of_ExpandGranular in Hg as [Hg|(q & _ & Hq)]; [by left|].
    apply Catalog_entry_ok in Hq as [_ Hq]. rewrite Hp in Hq. discriminate Hq.
  - rewrite Catalog_read_None in Hp. discriminate Hp.
Qed.

Lemma Has_root perms r : Has perms PermRoot = true → Has perms r = true.
Proof. intros H. eapply Has_trans; [exact H|by left]. Qed.

(** C22: nobody can mint a custom role more powerful than themselves: whatever
    permission — granular or coarse — the stored role gives its holder, the
    composer held; the role is closed under prerequisites, made of catalogue
    permissions only, and never carries [root] or an instance permission. *)
Theorem custom_role_no_elevation (perms base closed : list string)
    (Hok : ValidateCustomPermissions perms (ExpandGranular base) = inr closed) :
  (∀ r, Has (ExpandGranular closed) r = true → Has (ExpandGranular base) r = true) ∧
  (∀ p, p ∈ perms → p ∈ closed) ∧
  (∀ p q, p ∈ closed → prereq p q → q ∈ closed) ∧
  (∀ p, p ∈ ExpandGranular closed → p ≠ PermRoot ∧ Catalog !! p ≠ Some PermRoot).
Proof.
  destruct (Validate_inr _ _ _ Hok) as (-> & Hcat & Hheld). split_and!.
  - intros r (g & Hg & Hgr)%Has_grants. eapply Has_trans; [|exact Hgr].
    apply elem_of_ExpandGranular in Hg as [Hg|(p & Hp & Hsoc)].
    + apply Hheld. by apply Closure_idemp.
    + apply (proj1 (Closure_idemp perms p)) in Hp.
      destruct (held_in_closure base p g Hsoc (Hheld p Hp)) as [Hin|Hr]; [|by apply Has_root].
      apply Has_grants. exists g. split; [|by right; left].
      apply elem_of_ExpandGranular. right. exists p. split; assumption.
  - intros p Hp. apply elem_of_Closure. exists p. split; [done|apply rtc_refl].
  - intros p q. apply Closure_closed.
  - intros p Hp. assert (∀ q, q ∈ Closure (Closure perms) → ∃ socle, Catalog !! q = Some socle ∧ socle ≠ PermRoot) as Hcl.
    { intros q Hq. apply Hcat. by apply Closure_idemp. }
    apply elem_of_ExpandGranular in Hp as [Hp|(q & Hq & Hsoc)].
    + destruct (Hcl p Hp) as (socle & Hs & Hnr). split.
      * intros ->. rewrite Catalog_root_None in Hs. discriminate Hs.
      * rewrite Hs. intros [= ->]. exact (Hnr eq_refl).
    + destruct (Hcl q Hq) as (socle & Hs & Hnr). rewrite Hs in Hsoc. injection Hsoc as ->.
      split; [exact Hnr|]. apply Catalog_entry_ok in Hs as [_ ->]. discriminate.
Qed.

Lemma custom_role_no_elevation_witness :
  ValidateCustomPermissions ["registries:manage"] (ExpandGranular memberPermissions)
    = inr ["registries:manage"; "sources:read"] ∧
  (∀ r, Has (ExpandGranular ["registries:manage"; "sources:read"]) r = true →
        Has (ExpandGranular memberPermissions) r = true).
Proof.
  assert (ValidateCustomPermissions ["registries:manage"] (ExpandGranular memberPermissions)
    = inr ["registries:manage"; "sources:read"]) as H by (vm_compute; reflexivity).
  split; [exact H|].
  exact (proj1 (custom_role_no_elevation ["registries:manage"] memberPermissions
                  ["registries:manage"; "sources:read"] H)).
Defined.

Definition subset_of (a b : list string) : bool := forallb (λ p, bool_decide (p ∈ b)) a.

Lemma subset_of_spec a b : subset_of a b = true → ∀ p, p ∈ a → p ∈ b.
Proof.
  unfold subset_of. rewrite forallb_forall. intros H p Hp%list_elem_of_In.
  specialize (H p Hp). by apply bool_decide_eq_true in H.
Qed.

Lemma roles_ordered :
  subset_of (ExpandGranular (PermissionsForRole RoleReviewer)) (ExpandGranular (PermissionsForRole RoleMember)) &&
  subset_of (ExpandGranular (PermissionsForRole RoleMember)) (ExpandGranular (PermissionsForRole RoleAdmin)) &&
  forallb (λ p, bool_decide (p ≠ PermRoot) && bool_decide (Catalog !! p ≠ Some PermRoot))
    (ExpandGranular (PermissionsForRole RoleAdmin)) = true.
Proof. vm_compute. reflexivity. Qed.

(** The system roles are totally ordered — a reviewer holds nothing a
    member does not, a member nothing an admin does not — and no role, however
    expanded, reaches [root] or an instance-scoped permission. *)
Theorem system_roles_ordered (role : TeamRole) :
  (∀ p, p ∈ ExpandGranular (PermissionsForRole RoleReviewer) →
        p ∈ ExpandGranular (PermissionsForRole RoleMember)) ∧
  (∀ p, p ∈ ExpandGranular (PermissionsForRole RoleMember) →
        p ∈ ExpandGranular (PermissionsForRole RoleAdmin)) ∧
  (∀ p, p ∈ ExpandGranular (PermissionsForRole role) →
        p ≠ PermRoot ∧ Catalog !! p ≠ Some PermRoot).
Proof.
  pose proof roles_ordered as H. apply andb_prop in H as [H Hadmin]. apply andb_prop in H as [Hrm Hma].
  split; [exact (subset_of_spec _ _ Hrm)|]. split; [exact (subset_of_spec _ _ Hma)|].
  assert (∀ p, p ∈ ExpandGranular (PermissionsForRole RoleAdmin) →
               p ≠ PermRoot ∧ Catalog !! p ≠ Some PermRoot) as Ha.
  { intros p Hp%list_elem_of_In. rewrite forallb_forall in Hadmin. specialize (Hadmin p Hp).
    apply andb_prop in Hadmin as [H1 H2]. apply bool_decide_eq_true in H1, H2. split; assumption. }
  assert (PermissionsForRole RoleOwner = PermissionsForRole RoleAdmin) as Howner by reflexivity.
  assert (ExpandGranular (PermissionsForRole RoleNone) = []) as Hnone by (vm_compute; reflexivity).
  intros p Hp. apply Ha. destruct role; [rewrite <- Howner; exact Hp|exact Hp| | |].
  - exact (subset_of_spec _ _ Hma p Hp).
  - exact (subset_of_spec _ _ Hma p (subset_of_spec _ _ Hrm p Hp)).
  - exfalso. rewrite Hnone in Hp. by apply not_elem_of_nil in Hp.
Qed.

(** The authority a token row is capped at, for a creator still in the team. *)
Definition creator_base (a : authority) : list string :=
  PermissionsForMembership (au_role a) (bool_decide (is_Some (au_custom a))) (default [] (au_custom a)).

(** C34: a token that authenticates matches a stored hash, is not expired and
    comes from an allowed address; it acts in its own team; and it never grants
    more than its scopes, nor more than its creator holds in that team now — a
    creator who left the team leaves a token that grants nothing at all. *)
Theorem token_bounded_by_creator (HashToken : string → string) (env : token_env)
    (token : string) (id : Identity) (Hres : ResolveAPIToken HashToken env token = inr id) :
  ∃ rows row, te_candidates env (token_prefix token) = Some rows ∧ row ∈ rows ∧
    HashToken token = tr_hash row ∧
    (∀ e, tr_expires row = Some e → (te_now env ≤ e)%Z) ∧
    (tr_allowlist row = [] ∨ ipAllowed (te_remote env) (tr_allowlist row) = true) ∧
    id_team id = tr_team row ∧ id_session id = false ∧ id_instance_root id = false ∧
    (∀ r, Has (id_permissions id) r = true → Has (EffectivePermissions (tr_permissions row)) r = true) ∧
    (∀ c, tr_created_by row = Some c →
       match te_authority env c (tr_team row) with
       | None => ∀ r, Has (id_permissions id) r = false
       | Some a => id_user id = Some (au_user a) ∧
           ∀ r, Has (id_permissions id) r = true → Has (ExpandGranular (creator_base a)) r = true
       end).
Proof.
  unfold ResolveAPIToken in Hres. destruct (_ <? _); [discriminate|].
  destruct (te_candidates env (token_prefix token)) as [rows|]; [|discriminate].
  destruct (list_find _ rows) as [[i row]|] eqn:Hfind; [|discriminate].
  apply list_find_Some in Hfind as (Hi & Hhash & _).
  exists rows, row. split; [reflexivity|]. split; [by eapply list_elem_of_lookup_2|]. split; [exact Hhash|].
  destruct (match tr_expires row with Some e => (e <? te_now env)%Z | None => false end) eqn:Hexp;
    [discriminate|].
  split. { intros e He. rewrite He in Hexp. apply Z.ltb_ge in Hexp. exact Hexp. }
  destruct (_ && _) eqn:Hip; [discriminate|]. injection Hres as <-.
  split. { apply andb_false_iff in Hip as [Hip|Hip]; apply negb_false_iff in Hip; [left|by right].
           by apply bool_decide_eq_true in Hip. }
  unfold boundToCreator. destruct (tr_created_by row) as [c|].
  2:{ split; [reflexivity|]. split; [reflexivity|]. split; [reflexivity|].
      split; [intros r Hr; exact Hr|]. intros c [=]. }
  destruct (te_authority env c (tr_team row)) as [a|] eqn:Ha; cbn [id_team id_session id_instance_root id_permissions id_user];
    (split; [reflexivity|]; split; [reflexivity|]; split; [reflexivity|]; split).
  - intros r Hr. apply (Has_Intersect _ _ _ Hr).
  - intros c' [= <-]. rewrite Ha. split; [reflexivity|]. intros r Hr. apply (Has_Intersect _ _ _ Hr).
  - intros r Hr. discriminate Hr.
  - intros c' [= <-]. rewrite Ha. reflexivity.
Qed.

(** A deploy-scoped token whose creator has since become a reviewer. *)
Definition demo_row : token_row :=
  mkTokenRow 7 "akd_0123456789" 3 [PermDeploy] (Some 1000%Z) [mkPrefix (V4 (ipv4 10 0 0 0)) 8] None (Some 42%Z).
Definition demo_env : token_env :=
  mkTokenEnv (λ p, if decide (p = "akd_012345") then Some [demo_row] else Some [])
    (λ _ _, Some (mkAuthority 42 RoleReviewer None)) (Some (V4 (ipv4 10 1 2 3))) 500.

Lemma token_bounded_by_creator_witness :
  ∃ id, ResolveAPIToken (λ t, t) demo_env "akd_0123456789" = inr id ∧
        Has (id_permissions id) "applications:deploy" = false ∧
        Has (ExpandGranular reviewerPermissions) "applications:read" = true.
Proof.
  destruct (ResolveAPIToken (λ t, t) demo_env "akd_0123456789") as [e|id] eqn:H;
    [vm_compute in H; discriminate|].
  exists id. split; [reflexivity|].
  destruct (token_bounded_by_creator (λ t, t) demo_env "akd_0123456789" id H)
    as (rows & row & Hrows & Hrow & Hh & _ & _ & _ & _ & _ & _ & Hcap).
  injection Hrows as <-. apply list_elem_of_singleton in Hrow as ->.
  destruct (Hcap 42%Z eq_refl) as [_ Hc]. split; [|vm_compute; reflexivity].
  destruct (Has (id_permissions id) "applications:deploy") eqn:Hd; [|reflexivity].
  apply Hc in Hd. vm_compute in Hd. discriminate Hd.
Defined.

(** The gate after the credentials were resolved. *)
Lemma gate_served {M B} (r : api_request M B) id' id :
  (if apiGateExempt id' (rq_path r) then Served (Some id')
   else match rq_api_enabled r with
        | None => InternalError | Some false => APIDisabled | Some true => Served (Some id')
        end) = Served (Some id) ↔
  id' = id ∧ (id_session id = true ∨ rq_path r = "/api/v1/system/api/enable" ∨
              rq_api_enabled r = Some true).
Proof.
  unfold apiGateExempt. destruct (id_session id') eqn:Hs; simpl.
  { split; [intros [= ->]; auto|by intros [-> _]]. }
  case_bool_decide as Hp; [split; [intros [= ->]; auto|by intros [-> _]]|].
  destruct (rq_api_enabled r) as [[]|]; (split; [intros [=]; subst; auto|]);
    intros [-> [?|[?|?]]]; congruence.
Qed.

Lemma ResolveAPIToken_not_session HashToken env token id :
  ResolveAPIToken HashToken env token = inr id → id_session id = false.
Proof.
  unfold ResolveAPIToken, boundToCreator. repeat case_match; intros [= <-]; reflexivity.
Qed.

(** The two doors of the middleware, against any session manager. *)
Section Gate.
Context (HashToken : string → string) `{SessionPromises M B}.

(** The identity came through the cookie door. *)
Definition cookie_door (r : api_request M B) (id : Identity) : Prop :=
  SplitBearer (rq_authorization r) = "" ∧
  ∃ m, rq_sessions r = Some m ∧ session_identity m (rq_browser r) = Some id ∧
       session_csrf m (rq_browser r) = true.

(** The identity came through the token door. *)
Definition token_door (env : token_env) (r : api_request M B) (id : Identity) : Prop :=
  SplitBearer (rq_authorization r) ≠ "" ∧
  ResolveAPIToken HashToken env (SplitBearer (rq_authorization r)) = inr id ∧
  (rq_path r = "/api/v1/system/api/enable" ∨ rq_api_enabled r = Some true).

Lemma Handler_doors (env : token_env) (r : api_request M B) (id : Identity) :
  Handler HashToken env r = Served (Some id) ↔
  rq_path r ≠ "/api/v1/health" ∧ (cookie_door r id ∨ token_door env r id).
Proof.
  unfold Handler, authenticate, cookie_door, token_door.
  destruct (decide (rq_path r = "/api/v1/health")) as [|Hpath].
  { split; [discriminate|]. intros [? _]. contradiction. }
  destruct (decide (SplitBearer (rq_authorization r) = "")) as [Hb|Hb].
  - destruct (rq_sessions r) as [m|]; [|split; [discriminate|naive_solver]].
    destruct (session_identity m (rq_browser r)) as [id'|] eqn:Hi; [|split; [discriminate|naive_solver]].
    destruct (session_csrf m (rq_browser r)) eqn:Hc; [|split; [discriminate|intros (_ & [(_ & m1 & [= <-] & _ & ?)|(? & _)]); congruence]].
    rewrite gate_served. pose proof (session_marked _ _ _ Hi). naive_solver.
  - destruct (ResolveAPIToken HashToken env _) as [[]|id'] eqn:Ht;
      [split; [discriminate|naive_solver]..|].
    rewrite gate_served. pose proof (ResolveAPIToken_not_session _ _ _ _ Ht).
    split; [intros [-> [?|?]]; [congruence|naive_solver]|naive_solver].
Qed.

(** The gate of the public API, for any session manager that keeps its
    promises: a request is served with an identity exactly when it is not the
    health check and either carries no bearer token and a session cookie with a
    valid CSRF echo — whether or not the API is enabled — or carries a bearer
    token that resolves, on an enabled API or to enable it.  An invalid bearer
    token is never rescued by a cookie, and a cookie identity speaks for whom
    the manager says. *)
Theorem Handler_served (env : token_env) (r : api_request M B) (id : Identity) :
  (Handler HashToken env r = Served (Some id) ↔
   rq_path r ≠ "/api/v1/health" ∧ (cookie_door r id ∨ token_door env r id)) ∧
  (Handler HashToken env r = Served (Some id) → id_session id = true →
   ∃ m, rq_sessions r = Some m ∧ (session_ok m → session_speaks_for m (rq_browser r) id)).
Proof.
  split; [apply Handler_doors|]. rewrite Handler_doors.
  intros (_ & [(_ & m & Hm & Hi & Hc)|(_ & Ht & _)]) Hs.
  - exists m. split; [exact Hm|]. intros Hok. by apply session_promise.
  - apply ResolveAPIToken_not_session in Ht. congruence.
Qed.
End Gate.
