(* ===== verification/SafeDial.v ===== *)
(** * The guard of outgoing connections

    Models [internal/safedial/safedial.go]: [Blocked] on the bytes of a
    [net.IP], with the predicates of package [net] it calls, the dialer's
    [control] hook and [safeRedirect].  The theorems compare it with a table of
    the non-public ranges as intervals of integers. *)
From S2P Require Import Prelude GoLib NetIP.
Local Open Scope Z_scope.

(** [net.IP]: nil is the empty slice; 4 or 16 bytes otherwise. *)
Abbreviation IP := (list Z).

Definition v4InV6Prefix : list Z := replicate 10 0 ++ [255; 255].

(** [net.IP.To4] *)
Definition To4 (ip : IP) : option IP :=
  if bool_decide (length ip = 4%nat) then Some ip
  else if bool_decide (length ip = 16%nat) && bool_decide (take 12 ip = v4InV6Prefix)
  then Some (drop 12 ip) else None.

Definition byte_at (ip : IP) (i : nat) : Z := nth i ip 0.

(** [net.IP.IsLoopback], [IsUnspecified], [IsMulticast], [IsLinkLocalUnicast],
    [IsPrivate]; [Equal] identifies an IPv4 address with its mapped form. *)
Definition IsLoopback (ip : IP) : bool :=
  match To4 ip with
  | Some q => byte_at q 0 =? 127
  | None => bool_decide (ip = replicate 15 0 ++ [1])
  end.
Definition IsUnspecified (ip : IP) : bool :=
  match To4 ip with
  | Some q => bool_decide (q = replicate 4 0)
  | None => bool_decide (ip = replicate 16 0)
  end.
Definition IsBroadcast (ip : IP) : bool :=
  match To4 ip with Some q => bool_decide (q = replicate 4 255) | None => false end.
Definition IsMulticast (ip : IP) : bool :=
  match To4 ip with
  | Some q => Z.land (byte_at q 0) 240 =? 224
  | None => bool_decide (length ip = 16%nat) && (byte_at ip 0 =? 255)
  end.
Definition IsLinkLocalUnicast (ip : IP) : bool :=
  match To4 ip with
  | Some q => (byte_at q 0 =? 169) && (byte_at q 1 =? 254)
  | None => bool_decide (length ip = 16%nat) && (byte_at ip 0 =? 254) && (Z.land (byte_at ip 1) 192 =? 128)
  end.
Definition IsPrivate (ip : IP) : bool :=
  match To4 ip with
  | Some q => (byte_at q 0 =? 10) ||
              ((byte_at q 0 =? 172) && (Z.land (byte_at q 1) 240 =? 16)) ||
              ((byte_at q 0 =? 192) && (byte_at q 1 =? 168))
  | None => bool_decide (length ip = 16%nat) && (Z.land (byte_at ip 0) 254 =? 252)
  end.

(** [net.IP.IsGlobalUnicast] *)
Definition IsGlobalUnicast (ip : IP) : bool :=
  (bool_decide (length ip = 4%nat) || bool_decide (length ip = 16%nat)) &&
  negb (IsBroadcast ip) && negb (IsUnspecified ip) && negb (IsLoopback ip) &&
  negb (IsMulticast ip) && negb (IsLinkLocalUnicast ip).

(** [net.CIDRMask] and [net.IPNet]. *)
Definition CIDRMask (ones n : nat) : list Z :=
  map (λ i, let k := Z.of_nat (Nat.min 8 (ones - 8 * i)) in 256 - 2 ^ (8 - k)) (seq 0 n).
Record IPNet := mkIPNet { net_ip : IP; net_mask : list Z }.

(** [net.IPNet.Contains] *)
Definition net_contains (n : IPNet) (ip : IP) : bool :=
  let x := default ip (To4 ip) in
  bool_decide (length x = length (net_ip n)) &&
  bool_decide (zip_with Z.land (net_ip n) (net_mask n) = zip_with Z.land x (net_mask n)).

(** The networks of the source, [a.b.c.d/ones] and [g0:g1:g2::/ones]. *)
Definition cidr4 (a b c d : Z) (ones : nat) : IPNet := mkIPNet [a; b; c; d] (CIDRMask ones 4).
Definition cidr6 (g0 g1 g2 : Z) (ones : nat) : IPNet :=
  mkIPNet ([g0 / 256; g0 `mod` 256; g1 / 256; g1 `mod` 256; g2 / 256; g2 `mod` 256] ++ replicate 10 0)
    (CIDRMask ones 16).

Definition extraBlocked : list IPNet :=
  [ cidr4 0 0 0 0 8; cidr4 100 64 0 0 10; cidr4 192 0 0 0 24; cidr4 192 0 2 0 24; cidr4 192 88 99 0 24;
    cidr4 198 18 0 0 15; cidr4 198 51 100 0 24; cidr4 203 0 113 0 24; cidr4 240 0 0 0 4;
    cidr6 0 0 0 96; cidr6 0x64 0xff9b 1 48; cidr6 0x100 0 0 64; cidr6 0x2001 0 0 23;
    cidr6 0x2001 0xdb8 0 32; cidr6 0x3fff 0 0 20; cidr6 0x5f00 0 0 16; cidr6 0xfec0 0 0 10 ].
Definition nat64WellKnown : IPNet := cidr6 0x64 0xff9b 0 96.
Definition sixToFour : IPNet := cidr6 0x2002 0 0 16.

(** The tests of [Blocked] after the embedded destination was looked at. *)
Definition not_public (ip : IP) : bool :=
  negb (IsGlobalUnicast ip) || IsPrivate ip || existsb (λ n, net_contains n ip) extraBlocked.

(** [Blocked]: the recursive call is on an IPv4 address ([net.IPv4] builds its
    mapped form), which embeds nothing further. *)
Definition blocked4 (ip : IP) : bool :=
  not_public (default ip (To4 ip)).
Definition net_IPv4 (a b c d : Z) : IP := v4InV6Prefix ++ [a; b; c; d].
Definition Blocked (ip : IP) : bool :=
  match ip with
  | [] => true
  | _ =>
      match To4 ip with
      | Some q => not_public q
      | None =>
          (if bool_decide (length ip = 16%nat) then
             if net_contains nat64WellKnown ip
             then blocked4 (net_IPv4 (byte_at ip 12) (byte_at ip 13) (byte_at ip 14) (byte_at ip 15))
             else if net_contains sixToFour ip
             then blocked4 (net_IPv4 (byte_at ip 2) (byte_at ip 3) (byte_at ip 4) (byte_at ip 5))
             else false
           else false) || not_public ip
      end
  end.

(** [net.ParseIP]: the 16-byte form; a zone is refused. *)
Definition As16 (a : Addr) : IP :=
  match a with
  | V4 v => v4InV6Prefix ++ pos_digits 256 4 v
  | V6 v _ => pos_digits 256 16 v
  end.
Definition ParseIP (s : string) : IP :=
  match ParseAddr s with
  | Some (V6 _ true) | None => []
  | Some a => As16 a
  end.

(** [parsedHost], [parsedAddress] *)
Definition parsedHost (host : string) : IP :=
  ParseIP (match cut_last "%" host with Some (before, _) => before | None => host end).
Definition parsedAddress (address : string) : IP :=
  parsedHost (match SplitHostPort address with Some (host, _) => host | None => address end).

(** [control]: whether the socket may connect. *)
Definition control (address : string) : bool :=
  let ip := parsedAddress address in
  negb (bool_decide (ip = []) || Blocked ip).

(** [safeRedirect], on the scheme and host name of the next hop. *)
Inductive redirect := Follow | TooManyRedirects | BlockedAddress.
Definition safeRedirect (scheme hostname : string) (via : nat) : redirect :=
  if (10 <=? via)%nat then TooManyRedirects
  else if negb (bool_decide (scheme ∈ ["http"; "https"])) then BlockedAddress
  else
    let ip := parsedHost hostname in
    if negb (bool_decide (ip = [])) && Blocked ip then BlockedAddress else Follow.

(** ** The non-public ranges, as intervals *)

Definition range := (Z * Z)%type.
Definition in_range (x : Z) (r : range) : bool := (r.1 <=? x) && (x <? r.2).
Definition range4 (base bits : Z) : range := (base, base + 2 ^ (32 - bits)).
Definition range6 (g0 g1 g2 bits : Z) : range :=
  let base := g0 * 2 ^ 112 + g1 * 2 ^ 96 + g2 * 2 ^ 80 in (base, base + 2 ^ (128 - bits)).

(** This network, private use, shared address space, loopback, link local,
    private use, protocol assignments, TEST-NET-1, 6to4 relays, private use,
    benchmarking, TEST-NET-2 and 3, multicast and reserved up to the broadcast
    address. *)
Definition special4 : list range :=
  [ range4 (ipv4 0 0 0 0) 8; range4 (ipv4 10 0 0 0) 8; range4 (ipv4 100 64 0 0) 10;
    range4 (ipv4 127 0 0 0) 8; range4 (ipv4 169 254 0 0) 16; range4 (ipv4 172 16 0 0) 12;
    range4 (ipv4 192 0 0 0) 24; range4 (ipv4 192 0 2 0) 24; range4 (ipv4 192 88 99 0) 24;
    range4 (ipv4 192 168 0 0) 16; range4 (ipv4 198 18 0 0) 15; range4 (ipv4 198 51 100 0) 24;
    range4 (ipv4 203 0 113 0) 24; (ipv4 224 0 0 0, 2 ^ 32) ].

(** IPv4-compatible with loopback and the unspecified address, local NAT64,
    discard only, protocol assignments, documentation, segment routing, unique
    local, link local, site local, multicast. *)
Definition special6 : list range :=
  [ (0, 2 ^ 32); range6 0x64 0xff9b 1 48; range6 0x100 0 0 64; range6 0x2001 0 0 23;
    range6 0x2001 0xdb8 0 32; range6 0x3fff 0 0 20; range6 0x5f00 0 0 16; range6 0xfc00 0 0 7;
    range6 0xfe80 0 0 10; range6 0xfec0 0 0 10; range6 0xff00 0 0 8 ].

Definition public4 (x : Z) : bool := negb (existsb (in_range x) special4).

(** The IPv4 address a NAT64 or 6to4 address leads to. *)
Definition embedded (x : Z) : option Z :=
  if in_range x (range6 0x64 0xff9b 0 96) then Some (x `mod` 2 ^ 32)
  else if in_range x (range6 0x2002 0 0 16) then Some ((x / 2 ^ 80) `mod` 2 ^ 32)
  else None.

Definition public6 (x : Z) : bool :=
  negb (existsb (in_range x) special6) &&
  match embedded x with Some e => public4 e | None => true end.

(** A mapped address is the IPv4 address it maps. *)
Definition public (a : Addr) : bool :=
  match Unmap a with V4 x => public4 x | V6 x _ => public6 x end.

Example blocked_ex :
  (control "93.184.216.34:443", control "127.0.0.1:80", control "[::ffff:169.254.169.254]:80",
   control "[fe80::1%eth0]:80", control "[64:ff9b::10.0.0.1]:80", control "[2002:c0a8:1::]:80",
   control "[2606:4700::1]:443", control "example.org:80") =
  (true, false, false, false, false, false, true, false).
Proof. vm_compute. reflexivity. Qed.

(** ** Masks and intervals *)

Abbreviation bytes := (Forall (is_digit 256)).

(** The bits of a byte appended to a number. *)
Lemma testbit_snoc x y n :
  is_digit 256 y → 0 <= n → Z.testbit (x * 256 + y) n = if n <? 8 then Z.testbit y n else Z.testbit x (n - 8).
Proof.
  unfold is_digit. intros Hy Hn. destruct (Z.ltb_spec n 8) as [H|H].
  - rewrite <- (Z.mod_pow2_bits_low (x * 256 + y) 8) by lia. f_equal.
    change (2 ^ 8) with 256. rewrite Z.add_comm, Z_mod_plus_full. by apply Z.mod_small.
  - replace n with (n - 8 + 8) at 1 by lia. rewrite <- Z.div_pow2_bits by lia. f_equal.
    change (2 ^ 8) with 256. rewrite Z.div_add_l by lia. rewrite Z.div_small by done. lia.
Qed.

Lemma land_byte b d : is_digit 256 b → is_digit 256 d → is_digit 256 (Z.land b d).
Proof.
  unfold is_digit. intros Hb Hd. replace b with (Z.land b (Z.ones 8)).
  2:{ rewrite Z.land_ones by lia. by apply Z.mod_small. }
  rewrite <- Z.land_assoc, (Z.land_comm (Z.ones 8)), Z.land_assoc, Z.land_ones by lia.
  by apply Z.mod_pos_bound.
Qed.

Lemma land_snoc a b c d :
  is_digit 256 b → is_digit 256 d → Z.land (a * 256 + b) (c * 256 + d) = Z.land a c * 256 + Z.land b d.
Proof.
  intros Hb Hd. apply Z.bits_inj'. intros n Hn.
  rewrite Z.land_spec, !testbit_snoc by (done || by apply land_byte).
  destruct (n <? 8); by rewrite Z.land_spec.
Qed.

Lemma land_bytes l m : bytes l → bytes m → length l = length m → bytes (zip_with Z.land l m).
Proof.
  intros Hl. revert m. induction Hl as [|b l Hb Hl IH]; intros [|d m] Hm Hlen; try done; try by constructor.
  inversion Hm; subst. simpl. constructor; [by apply land_byte|]. apply IH; [done|]. by injection Hlen.
Qed.

Lemma pos_value_land l m :
  bytes l → bytes m → length l = length m →
  pos_value 256 (zip_with Z.land l m) = Z.land (pos_value 256 l) (pos_value 256 m).
Proof.
  revert m. induction l as [|b l IH] using rev_ind; intros m Hl Hm Hlen.
  { by destruct m. }
  destruct m as [|d m _] using rev_ind; [rewrite length_app in Hlen; simpl in Hlen; lia|].
  rewrite !length_app in Hlen. simpl in Hlen. assert (length l = length m) as Hlm by lia.
  apply Forall_app in Hl as [Hl [Hb _]%Forall_cons]. apply Forall_app in Hm as [Hm [Hd _]%Forall_cons].
  rewrite zip_with_app by done. cbn [zip_with]. rewrite !pos_value_snoc, land_snoc, IH by done. done.
Qed.

(** The mask of a prefix keeps the leading bits. *)
Lemma land_prefix w k x : 0 <= k <= w → 0 <= x < 2 ^ w → Z.land x (2 ^ w - 2 ^ k) = x / 2 ^ k * 2 ^ k.
Proof.
  intros Hk Hx. replace (2 ^ w - 2 ^ k) with (Z.shiftl (Z.ones (w - k)) k).
  2:{ rewrite Z.shiftl_mul_pow2, Z.ones_equiv by lia. replace (2 ^ w) with (2 ^ (w - k) * 2 ^ k); [lia|].
      rewrite <- Z.pow_add_r by lia. f_equal. lia. }
  rewrite <- Z.shiftl_mul_pow2, <- Z.shiftr_div_pow2 by lia.
  apply Z.bits_inj'. intros n Hn. rewrite Z.land_spec, !Z.shiftl_spec by done.
  destruct (Z.ltb_spec n k) as [H|H].
  { rewrite !(Z.testbit_neg_r _ (n - k)) by lia. apply andb_false_r. }
  rewrite Z.shiftr_spec by lia. replace (n - k + k) with n by lia.
  rewrite Z.testbit_ones_nonneg by lia. destruct (Z.ltb_spec (n - k) (w - k)); [apply andb_true_r|].
  rewrite andb_false_r. destruct (Z.eq_dec x 0) as [->|]; [by rewrite Z.bits_0|].
  symmetry. apply Z.bits_above_log2; [lia|]. enough (Z.log2 x < w) by lia. apply Z.log2_lt_pow2; lia.
Qed.

Definition mask_ok (n ones : nat) : bool :=
  bool_decide (pos_value 256 (CIDRMask ones n) = 2 ^ (8 * Z.of_nat n) - 2 ^ (8 * Z.of_nat n - Z.of_nat ones)) &&
  forallb (λ b, (0 <=? b) && (b <? 256)) (CIDRMask ones n).

(** Membership in a network is membership in an interval. *)
Lemma net_contains_range (base : list Z) ones (ip : IP) :
  bytes ip → bytes base → length ip = length base → To4 ip = None ∨ length ip = 4%nat →
  (ones <= 8 * length base)%nat → mask_ok (length base) ones = true →
  (2 ^ (8 * Z.of_nat (length base) - Z.of_nat ones) | pos_value 256 base) →
  net_contains (mkIPNet base (CIDRMask ones (length base))) ip =
  in_range (pos_value 256 ip)
    (pos_value 256 base, pos_value 256 base + 2 ^ (8 * Z.of_nat (length base) - Z.of_nat ones)).
Proof.
  intros Hip Hbase Hlen H4 Hones Hmask [q Hq]. unfold net_contains. cbv zeta. cbn [net_ip net_mask].
  assert (Hd : default ip (To4 ip) = ip).
  { destruct H4 as [->|H4]; [done|]. unfold To4. by rewrite bool_decide_eq_true_2. }
  rewrite Hd.   rewrite bool_decide_eq_true_2 by done. cbn [andb].
  unfold mask_ok in Hmask. apply andb_prop in Hmask as [Hv Hm]. apply bool_decide_eq_true in Hv.
  assert (bytes (CIDRMask ones (length base))) as Hmb.
  { apply Forall_forall. intros b Hb. apply list_elem_of_In in Hb.
    pose proof (proj1 (forallb_forall _ _) Hm b Hb) as Hbb. cbv beta in Hbb. unfold is_digit. lia. }
  assert (length (CIDRMask ones (length base)) = length base) as Hml
    by (unfold CIDRMask; by rewrite length_map, length_seq).
  set (w := 8 * Z.of_nat (length base)) in *. set (k := w - Z.of_nat ones) in *.
  assert (0 <= k <= w) as Hk by lia. assert (0 < 2 ^ k) as Hk0 by (apply Z.pow_pos_nonneg; lia).
  assert (256 ^ Z.of_nat (length base) = 2 ^ w) as Hw by (unfold w; by rewrite Z.pow_mul_r by lia).
  pose proof (pos_value_range 256 ip ltac:(lia) Hip) as Hx. rewrite Hlen, Hw in Hx.
  pose proof (pos_value_range 256 base ltac:(lia) Hbase) as Hy. rewrite Hw in Hy.
  assert (zip_with Z.land base (CIDRMask ones (length base)) = zip_with Z.land ip (CIDRMask ones (length base)) ↔
          pos_value 256 base / 2 ^ k * 2 ^ k = pos_value 256 ip / 2 ^ k * 2 ^ k) as Heq.
  { rewrite <- !(land_prefix w k), <- Hv, <- !pos_value_land by (done || congruence).
    split; [by intros ->|]. apply pos_value_inj; [done|apply land_bytes; done || congruence..|].
    rewrite !length_zip_with. congruence. }
  unfold in_range. cbn [fst snd].
  rewrite Hq, Z.div_mul in Heq by lia. rewrite Hq. clear Hq Hy. set (x := pos_value 256 ip) in *.
  pose proof (Z.div_mod x (2 ^ k) ltac:(lia)). pose proof (Z.mod_pos_bound x (2 ^ k) ltac:(lia)).
  apply Bool.eq_iff_eq_true. rewrite bool_decide_eq_true, Heq, andb_true_iff, Z.leb_le, Z.ltb_lt.
  set (P := 2 ^ k) in *. split; [intros; lia|]. intros [? ?]. f_equal.
  apply (Z.div_unique_pos x P q (x - q * P)); lia.
Qed.

(** Masked comparisons of a byte, as intervals. *)
Lemma byte_cases (P : Z → bool) b :
  forallb P (map Z.of_nat (seq 0 256)) = true → is_digit 256 b → P b = true.
Proof.
  intros H Hb. apply (proj1 (forallb_forall _ _) H). apply in_map_iff. exists (Z.to_nat b).
  unfold is_digit in Hb. split; [lia|]. apply in_seq. lia.
Qed.

Lemma land_byte_range b m v lo hi :
  is_digit 256 b →
  forallb (λ b, bool_decide ((Z.land b m =? v) = in_range b (lo, hi))) (map Z.of_nat (seq 0 256)) = true →
  (Z.land b m =? v) = in_range b (lo, hi).
Proof.
  intros Hb H. pose proof (byte_cases _ b H Hb) as Hc. cbv beta in Hc. by apply bool_decide_eq_true in Hc.
Qed.


Ltac inv_bytes H :=
  let H0 := fresh in pose proof H as H0; unfold is_digit in H0;
  repeat match type of H0 with
  | Forall _ (_ :: _) => let H1 := fresh in apply Forall_cons in H0 as [H1 H0]
  end.

(** Bounds of intervals as numerals. *)
Ltac norm_ranges :=
  repeat match goal with
  | |- context [in_range _ ?r] => progress (let v := eval vm_compute in r in change r with v)
  | H : context [in_range _ ?r] |- _ => progress (let v := eval vm_compute in r in change r with v in H)
  end.

(** Both sides are disjunctions of the same facts, up to the hypotheses. *)
Ltac same_disjuncts :=
  repeat match goal with
  | |- context [in_range ?x ?r] => let v := fresh in set (v := in_range x r) in *; clearbody v
  | |- context [bool_decide ?P] => let v := fresh in set (v := bool_decide P) in *; clearbody v
  end;
  let H := fresh in
  split; intros H;
  repeat match type of H with _ ∨ _ => destruct H as [H|H] end; auto 30.

Section V4.
Context (a b c d : Z) (Hbytes : bytes [a; b; c; d]).

Lemma cidr4_range n0 n1 n2 n3 ones :
  bytes [n0; n1; n2; n3] → (ones <= 32)%nat → mask_ok 4 ones = true →
  (2 ^ (32 - Z.of_nat ones) | ipv4 n0 n1 n2 n3) →
  net_contains (cidr4 n0 n1 n2 n3 ones) [a; b; c; d] =
  in_range (ipv4 a b c d) (range4 (ipv4 n0 n1 n2 n3) (Z.of_nat ones)).
Proof.
  intros Hn Hones Hm Hdiv.
  assert (∀ w x y z, pos_value 256 [w; x; y; z] = ipv4 w x y z) as Hpv
    by (intros; unfold pos_value, ipv4; cbn [foldl]; lia).
  unfold cidr4, range4. rewrite <- !Hpv.
  apply (net_contains_range [n0; n1; n2; n3] ones [a; b; c; d]); try done; [by right|]. by rewrite Hpv.
Qed.

Lemma cidr6_v4 g0 g1 g2 ones : net_contains (cidr6 g0 g1 g2 ones) [a; b; c; d] = false.
Proof. reflexivity. Qed.

Lemma first_byte lo hi : 
  (lo <=? a) && (a <? hi) = in_range (ipv4 a b c d) (lo * 2 ^ 24, hi * 2 ^ 24).
Proof. inv_bytes Hbytes. unfold in_range, ipv4. cbn [fst snd]. lia. Qed.

Lemma first_byte_eq k : (a =? k) = in_range (ipv4 a b c d) (k * 2 ^ 24, (k + 1) * 2 ^ 24).
Proof. rewrite <- first_byte. lia. Qed.

Lemma two_bytes k lo hi :
  0 <= lo → hi <= 256 →
  (a =? k) && ((lo <=? b) && (b <? hi)) =
  in_range (ipv4 a b c d) (k * 2 ^ 24 + lo * 2 ^ 16, k * 2 ^ 24 + hi * 2 ^ 16).
Proof. intros. inv_bytes Hbytes. unfold in_range, ipv4. cbn [fst snd]. lia. Qed.

Lemma two_bytes_eq k l :
  0 <= l < 256 →
  (a =? k) && (b =? l) = in_range (ipv4 a b c d) (k * 2 ^ 24 + l * 2 ^ 16, k * 2 ^ 24 + (l + 1) * 2 ^ 16).
Proof. intros. rewrite <- two_bytes by lia. f_equal. lia. Qed.

(** Broadcast and the unspecified address lie in ranges that are listed anyway. *)
Lemma all_bytes_range k lo hi :
  lo <= k < hi →
  bool_decide ([a; b; c; d] = replicate 4 k) = true →
  in_range (ipv4 a b c d) (lo * 2 ^ 24, hi * 2 ^ 24) = true.
Proof.
  intros Hk H%bool_decide_eq_true. assert (a = k) by (cbn in H; congruence). rewrite <- first_byte. lia.
Qed.

Lemma not_public4 : not_public [a; b; c; d] = negb (public4 (ipv4 a b c d)).
Proof.
  unfold not_public, public4. rewrite negb_involutive.
  unfold extraBlocked. cbn [existsb]. rewrite !cidr6_v4, !orb_false_r.
  rewrite !cidr4_range by
    (try (repeat constructor; unfold is_digit; lia); try lia; try (vm_compute; reflexivity);
     try (apply Z.mod_divide; [lia|vm_compute; reflexivity])).
  unfold IsGlobalUnicast, IsBroadcast, IsUnspecified, IsLoopback, IsMulticast, IsLinkLocalUnicast, IsPrivate.
  change (To4 [a; b; c; d]) with (Some [a; b; c; d]). cbn [byte_at nth].
  pose proof (all_bytes_range 255 240 256 ltac:(lia)) as Hbc.
  pose proof (all_bytes_range 0 0 1 ltac:(lia)) as Hun.
  assert (is_digit 256 a ∧ is_digit 256 b) as [Ha Hb] by (inv_bytes Hbytes; unfold is_digit; lia).
  rewrite (land_byte_range a 240 224 224 240 Ha) by (vm_compute; reflexivity).
  rewrite (land_byte_range b 240 16 16 32 Hb) by (vm_compute; reflexivity).
  unfold in_range at 1 2. cbn [fst snd].
  rewrite first_byte, two_bytes, !two_bytes_eq, !first_byte_eq by lia.
  assert (in_range (ipv4 a b c d) (ipv4 224 0 0 0, 2 ^ 32) =
          in_range (ipv4 a b c d) (224 * 2 ^ 24, 240 * 2 ^ 24) ||
          in_range (ipv4 a b c d) (range4 (ipv4 240 0 0 0) (Z.of_nat 4))) as Hhigh.
  { unfold in_range, range4, ipv4. cbn [fst snd]. change (2 ^ (32 - Z.of_nat 4)) with (2 ^ 28). lia. }
  unfold special4. cbn [existsb]. rewrite Hhigh, !orb_false_r. clear Hhigh.
  rewrite bool_decide_eq_true_2 by done. cbn [orb andb].
  apply Bool.eq_iff_eq_true. rewrite !orb_true_iff, !negb_andb, !negb_involutive, !orb_true_iff.
  norm_ranges. clear Hbytes Ha Hb. same_disjuncts.
Qed.
End V4.

Lemma pos_value_ipv4 a b c d : pos_value 256 [a; b; c; d] = ipv4 a b c d.
Proof. unfold pos_value, ipv4. cbn [foldl]. lia. Qed.

(** Any four bytes, as the digits of a number. *)
Lemma not_public_digits v :
  not_public (pos_digits 256 4 v) = negb (public4 (v `mod` 2 ^ 32)).
Proof.
  change (2 ^ 32) with (256 ^ Z.of_nat 4). rewrite <- pos_value_digits by lia.
  pose proof (pos_digits_Forall 256 4 v ltac:(lia)) as Hb. cbn [pos_digits] in *.
  rewrite pos_value_ipv4. by apply not_public4.
Qed.

(** ** IPv6 *)

Definition mapped (v : Z) : bool := in_range v (mapped_base, mapped_base + 2 ^ 32).

Section V6.
Context (v : Z) (Hv : 0 <= v < 2 ^ 128).

Lemma ip_split : pos_digits 256 16 v = pos_digits 256 12 (v / 2 ^ 32) ++ pos_digits 256 4 v.
Proof. apply (pos_digits_app 256 12 4 v). lia. Qed.

Lemma To4_v6 : To4 (pos_digits 256 16 v) = if mapped v then Some (pos_digits 256 4 v) else None.
Proof.
  unfold To4. rewrite pos_digits_length. cbn [bool_decide]. rewrite bool_decide_eq_false_2 by done.
  rewrite bool_decide_eq_true_2 by done. cbn [andb]. rewrite ip_split.
  rewrite take_app_length', drop_app_length' by (by rewrite pos_digits_length).
  assert (bool_decide (pos_digits 256 12 (v / 2 ^ 32) = v4InV6Prefix) = mapped v) as ->; [|done].
  pose proof (Z.div_mod v (2 ^ 32) ltac:(lia)). pose proof (Z.mod_pos_bound v (2 ^ 32) ltac:(lia)).
  unfold mapped, in_range, mapped_base. cbn [fst snd]. apply Bool.eq_iff_eq_true.
  rewrite bool_decide_eq_true, andb_true_iff, Z.leb_le, Z.ltb_lt.
  change v4InV6Prefix with (pos_digits 256 12 65535). split.
  - intros E%(f_equal (pos_value 256)). rewrite !pos_value_digits in E by lia.
    change (256 ^ Z.of_nat 12) with (2 ^ 96) in E. change (65535 `mod` 2 ^ 96) with 65535 in E.
    rewrite Z.mod_small in E by (split; [apply Z.div_pos; lia|apply Z.div_lt_upper_bound; lia]). lia.
  - intros. f_equal. lia.
Qed.

Context (Hmapped : mapped v = false).

Lemma To4_None : To4 (pos_digits 256 16 v) = None.
Proof. by rewrite To4_v6, Hmapped. Qed.

Lemma cidr4_v6 a b c d ones : net_contains (cidr4 a b c d ones) (pos_digits 256 16 v) = false.
Proof.
  unfold net_contains. cbv zeta. rewrite To4_None. cbn [default]. rewrite pos_digits_length.
  by rewrite bool_decide_eq_false_2.
Qed.

Definition cidr6_ok (g0 g1 g2 : Z) (ones : nat) : bool :=
  let base := net_ip (cidr6 g0 g1 g2 ones) in
  forallb (λ b, (0 <=? b) && (b <? 256)) base && mask_ok 16 ones &&
  (pos_value 256 base `mod` 2 ^ (128 - Z.of_nat ones) =? 0) && (ones <=? 128)%nat.

Lemma cidr6_range g0 g1 g2 (ones : nat) :
  cidr6_ok g0 g1 g2 ones = true →
  net_contains (cidr6 g0 g1 g2 ones) (pos_digits 256 16 v) =
  in_range v (pos_value 256 (net_ip (cidr6 g0 g1 g2 ones)),
              pos_value 256 (net_ip (cidr6 g0 g1 g2 ones)) + 2 ^ (128 - Z.of_nat ones)).
Proof.
  unfold cidr6_ok. cbv zeta. rewrite !andb_true_iff. intros (((Hb & Hm) & Hdiv) & Hones).
  apply Z.eqb_eq in Hdiv. apply Nat.leb_le in Hones.
  etransitivity; [apply (net_contains_range (net_ip (cidr6 g0 g1 g2 ones)) ones)|].
  - apply pos_digits_Forall. lia.
  - apply Forall_forall. intros x Hx%list_elem_of_In. pose proof (proj1 (forallb_forall _ _) Hb x Hx) as Hxx.
    cbv beta in Hxx. unfold is_digit. lia.
  - by rewrite pos_digits_length.
  - left. apply To4_None.
  - cbn. lia.
  - exact Hm.
  - change (Z.of_nat (length (net_ip (cidr6 g0 g1 g2 ones)))) with 16.
    apply Z.mod_divide; [|exact Hdiv]. apply Z.pow_nonzero; lia.
  - change (Z.of_nat (length (net_ip (cidr6 g0 g1 g2 ones)))) with 16.
    rewrite pos_value_digits by lia. change (256 ^ Z.of_nat 16) with (2 ^ 128).
    by rewrite Z.mod_small.
Qed.

Lemma first_bytes :
  ∃ b0 b1 lo, byte_at (pos_digits 256 16 v) 0 = b0 ∧ byte_at (pos_digits 256 16 v) 1 = b1 ∧
    is_digit 256 b0 ∧ is_digit 256 b1 ∧ 0 <= lo < 2 ^ 112 ∧ v = b0 * 2 ^ 120 + b1 * 2 ^ 112 + lo.
Proof.
  exists (v / 2 ^ 120), (v / 2 ^ 112 - v / 2 ^ 120 * 256), (v - v / 2 ^ 112 * 2 ^ 112).
  pose proof (Z.div_mod v (2 ^ 112) ltac:(lia)). pose proof (Z.mod_pos_bound v (2 ^ 112) ltac:(lia)).
  assert (v / 2 ^ 120 = v / 2 ^ 112 / 256) as E by (rewrite Z.div_div by lia; done).
  pose proof (Z.div_mod (v / 2 ^ 112) 256 ltac:(lia)). pose proof (Z.mod_pos_bound (v / 2 ^ 112) 256 ltac:(lia)).
  rewrite E. unfold byte_at, is_digit. cbn [pos_digits nth].
  change (256 ^ Z.of_nat 15) with (2 ^ 120). change (256 ^ Z.of_nat 14) with (2 ^ 112). rewrite E.
  split; [apply Z.mod_small; lia|]. lia.
Qed.

Lemma small_value l w :
  0 <= w < 2 ^ 32 → pos_value 256 l = w → bool_decide (pos_digits 256 16 v = l) = true →
  in_range v (0, 2 ^ 32) = true.
Proof.
  intros Hw Hl H%bool_decide_eq_true. apply (f_equal (pos_value 256)) in H.
  rewrite pos_value_digits, Hl in H by lia. change (256 ^ Z.of_nat 16) with (2 ^ 128) in H.
  rewrite Z.mod_small in H by done. unfold in_range. cbn [fst snd]. lia.
Qed.

Lemma not_public6 : not_public (pos_digits 256 16 v) = existsb (in_range v) special6.
Proof.
  unfold not_public, extraBlocked. cbn [existsb]. rewrite !cidr4_v6. cbn [orb].
  rewrite !cidr6_range by (vm_compute; reflexivity).
  unfold IsGlobalUnicast, IsBroadcast, IsUnspecified, IsLoopback, IsMulticast, IsLinkLocalUnicast, IsPrivate.
  rewrite To4_None, pos_digits_length.
  rewrite bool_decide_eq_false_2, bool_decide_eq_true_2 by done. cbn [andb orb negb].
  pose proof (small_value (replicate 16 0) 0 ltac:(lia) eq_refl) as Hun.
  pose proof (small_value (replicate 15 0 ++ [1]) 1 ltac:(lia) eq_refl) as Hlo.
  destruct first_bytes as (b0 & b1 & lo & -> & -> & Hb0 & Hb1 & Hlow & Hval).
  rewrite (land_byte_range b1 192 128 128 192 Hb1) by (vm_compute; reflexivity).
  rewrite (land_byte_range b0 254 252 252 254 Hb0) by (vm_compute; reflexivity).
  unfold is_digit in Hb0, Hb1.
  replace (b0 =? 255) with (in_range v (range6 0xff00 0 0 8))
    by (unfold in_range, range6; cbn [fst snd]; lia).
  replace ((b0 =? 254) && in_range b1 (128, 192)) with (in_range v (range6 0xfe80 0 0 10))
    by (unfold in_range, range6; cbn [fst snd]; lia).
  replace (in_range b0 (252, 254)) with (in_range v (range6 0xfc00 0 0 7))
    by (unfold in_range, range6; cbn [fst snd]; lia).
  clear b0 b1 lo Hb0 Hb1 Hlow Hval. unfold special6. cbn [existsb]. rewrite !orb_false_r.
  apply Bool.eq_iff_eq_true. rewrite !orb_true_iff, !negb_andb, !negb_involutive, !orb_true_iff.
  norm_ranges. clear Hv Hmapped. same_disjuncts.
Qed.
End V6.

(** The bytes a NAT64 or 6to4 address embeds. *)
Lemma blocked4_digits w a b c d :
  pos_digits 256 4 w = [a; b; c; d] → blocked4 (net_IPv4 a b c d) = negb (public4 (w `mod` 2 ^ 32)).
Proof.
  intros Hd. unfold blocked4. change (To4 (net_IPv4 a b c d)) with (Some [a; b; c; d]). cbn [default].
  rewrite <- Hd. apply not_public_digits.
Qed.

Lemma Blocked_v6 v :
  0 <= v < 2 ^ 128 → mapped v = false → Blocked (pos_digits 256 16 v) = negb (public6 v).
Proof.
  intros Hv Hm. unfold Blocked. destruct (pos_digits 256 16 v) as [|b l] eqn:E; [done|]. rewrite <- E.
  rewrite To4_None, pos_digits_length, bool_decide_eq_true_2 by done.
  unfold public6. rewrite negb_andb, negb_involutive, <- not_public6, (orb_comm (not_public _)) by done. f_equal.
  unfold nat64WellKnown, sixToFour, embedded. rewrite !cidr6_range by (done || (vm_compute; reflexivity)).
  change (in_range v (range6 0x64 0xff9b 0 96)) with
    (in_range v (0x64 * 2 ^ 112 + 0xff9b * 2 ^ 96 + 0 * 2 ^ 80, 0x64 * 2 ^ 112 + 0xff9b * 2 ^ 96 + 0 * 2 ^ 80 + 2 ^ (128 - 96))).
  norm_ranges. destruct (in_range v _); [by apply blocked4_digits|]. destruct (in_range v _); [|done].
  rewrite (blocked4_digits (v / 2 ^ 80)); [done|].
  cbn [byte_at nth pos_digits]. rewrite !Z.div_div by lia. reflexivity.
Qed.

Lemma Blocked_As16 a : valid_addr a → Blocked (As16 a) = negb (public a).
Proof.
  intros Hx. destruct a as [x|x z]; unfold public, Unmap.
  - pose proof (not_public_digits x) as H. rewrite Z.mod_small in H by done. exact H.
  - destruct ((mapped_base <=? x) && (x <? mapped_base + 2 ^ 32)) eqn:Hm; [|by apply Blocked_v6].
    unfold As16, Blocked. destruct (pos_digits 256 16 x) eqn:E; [done|]. rewrite <- E, To4_v6 by done.
    unfold mapped, in_range. cbn [fst snd]. rewrite Hm, not_public_digits. do 2 f_equal.
    symmetry. apply Z.mod_unique_pos with 65535; unfold mapped_base in *; lia.
Qed.

(** The host a dial address names: its port and its zone removed. *)
Definition zoneless (host : string) : string :=
  match cut_last "%" host with Some (before, _) => before | None => host end.
Definition host_text (address : string) : string :=
  zoneless (match SplitHostPort address with Some (host, _) => host | None => address end).

Definition dialable (host : string) : bool :=
  match ParseAddr host with Some (V6 _ true) | None => false | Some a => public a end.

Lemma ParseIP_dialable host :
  negb (bool_decide (ParseIP host = []) || Blocked (ParseIP host)) = dialable host.
Proof.
  unfold ParseIP, dialable. destruct (ParseAddr host) as [a|] eqn:Hp; [|done].
  apply ParseAddr_valid, Blocked_As16 in Hp.
  destruct a as [x|x []]; [|done|]; rewrite Hp, negb_orb, negb_involutive; [done|].
  rewrite bool_decide_eq_false_2; [done|]. intros E%(f_equal length). discriminate.
Qed.

(** C31: the guard is exact: an address may be dialled if and only if it is
    public — outside every loopback, private, link-local, shared, multicast,
    reserved and documentation range of either family, an IPv4-mapped address
    judged as the IPv4 address it maps, a NAT64 or 6to4 address also by the IPv4
    address it embeds.  The socket hook lets a connection through exactly when
    its host is the text of such an address, and a redirect is followed only to
    a web scheme, within ten hops, and not to the text of any other. *)
Theorem Blocked_exact :
  (∀ a, valid_addr a → Blocked (As16 a) = negb (public a)) ∧
  (∀ x, 0 <= x < 2 ^ 32 → Blocked (pos_digits 256 4 x) = negb (public4 x)) ∧
  (∀ address, control address = dialable (host_text address)) ∧
  (∀ scheme hostname via, safeRedirect scheme hostname via = Follow ↔
     (via < 10)%nat ∧ scheme ∈ ["http"; "https"] ∧
     (ParseIP (zoneless hostname) = [] ∨ dialable (zoneless hostname) = true)).
Proof.
  split; [exact Blocked_As16|]. split; [|split].
  - intros x Hx. pose proof (not_public_digits x) as H. rewrite Z.mod_small in H by done. exact H.
  - intros address. apply ParseIP_dialable.
  - intros scheme hostname via. rewrite <- ParseIP_dialable, negb_true_iff, orb_false_iff, bool_decide_eq_false.
    unfold safeRedirect, parsedHost. fold (zoneless hostname).
    destruct (Nat.leb_spec 10 via); [split; [done|lia]|]. case_bool_decide; [|naive_solver].
    cbn [negb]. case_bool_decide; destruct (Blocked _); cbn; naive_solver.
Qed.
