(* ===== verification/HttpApi.v ===== *)
(** * The public API: client addresses and idempotency keys

    Module [RealIP] models [internal/httpapi/realip.go]: which address a request
    is attributed to behind trusted proxies.  Module [Idempotency] models
    [internal/httpapi/idempotency.go] over the statements of
    [internal/store/idempotency.sql.go], with requests that interleave, crash
    and outlive the purge. *)
From S2P Require Import Prelude GoLib NetIP.
Local Open Scope Z_scope.

Module RealIP.

(** What the middleware reads of a request. *)
Record request := mkRequest {
  remote_addr : string; forwarded_for : list string; real_ip : string
}.

(** [addrOf] *)
Definition addrOf (s : string) : option Addr :=
  if decide (s = "") then None
  else Unmap <$> ParseAddr (match SplitHostPort s with Some (host, _) => host | None => s end).

(** [within] *)
Definition within (a : Addr) (prefixes : list Prefix) : bool :=
  existsb (λ p, Contains p a) prefixes.

(** The hops of the header, split after joining its values. *)
Definition hops (values : list string) : list string :=
  split "," (String.concat "," values).

(** The walk from right to left, over the reversed hops. *)
Fixpoint walk (trusted : list Prefix) (hops : list string) : option Addr :=
  match hops with
  | [] => None
  | h :: rest =>
      match addrOf (trim_space h) with
      | None => walk trusted rest
      | Some a => if within a trusted then walk trusted rest else Some a
      end
  end.

(** [clientFromForwarded] *)
Definition clientFromForwarded (r : request) (trusted : list Prefix) : option Addr :=
  match addrOf (remote_addr r) with
  | None => None
  | Some peer =>
      if negb (within peer trusted) then None
      else match walk trusted (reverse (hops (forwarded_for r))) with
      | Some a => Some a
      | None => addrOf (trim_space (real_ip r))
      end
  end.

(** [RealIP]: the remote address downstream handlers see, the one of the
    connection or a client's, with port 0. *)
Inductive remote := Connection (hostport : string) | Client (a : Addr).
Definition RealIP (trusted : list Prefix) (r : request) : remote :=
  match trusted with
  | [] => Connection (remote_addr r)
  | _ => match clientFromForwarded r trusted with
         | Some a => Client a
         | None => Connection (remote_addr r)
         end
  end.

(** ** Lemmas *)

Lemma concat_cons v vs :
  vs ≠ [] → String.concat "," (v :: vs) = v +:+ String "," (String.concat "," vs).
Proof. by destruct vs. Qed.

Lemma hops_app vs ws : vs ≠ [] → ws ≠ [] → hops (vs ++ ws) = hops vs ++ hops ws.
Proof.
  unfold hops. intros Hv Hw. induction vs as [|v vs IH]; [done|]. rewrite <- app_comm_cons.
  rewrite concat_cons, split_app by (by destruct vs). destruct (decide (vs = [])) as [->|Hvs]; [done|].
  rewrite IH, concat_cons, split_app by done. by rewrite app_assoc.
Qed.

Lemma walk_app trusted hs1 hs2 :
  walk trusted (hs1 ++ hs2) = match walk trusted hs1 with Some a => Some a | None => walk trusted hs2 end.
Proof. induction hs1 as [|h hs IH]; simpl; [done|]. repeat case_match; auto. Qed.

Lemma walk_untrusted trusted hs a : walk trusted hs = Some a → within a trusted = false.
Proof. induction hs as [|h hs IH]; simpl; [done|]. repeat case_match; naive_solver. Qed.

(** A chain holds an untrusted address exactly when the walk stops. *)
Lemma walk_None trusted hs :
  walk trusted hs = None ↔
  ∀ h a, h ∈ hs → addrOf (trim_space h) = Some a → within a trusted = true.
Proof.
  induction hs as [|h hs IH]; simpl.
  { split; [|done]. by intros _ h a ?%not_elem_of_nil. }
  setoid_rewrite elem_of_cons. destruct (addrOf (trim_space h)) as [a|] eqn:Ha.
  - destruct (within a trusted) eqn:Hw; [rewrite IH; naive_solver|].
    split; [done|]. intros H. rewrite (H h a) in Hw; [done|by left|done].
  - rewrite IH. naive_solver.
Qed.

(** C27: An address cannot be forged: without a trusted peer the headers are
    ignored; behind one, once the hops a proxy appended ([vs]) hold an untrusted
    address, nothing the client wrote to their left, nor its X-Real-IP, changes
    the answer, which is the rightmost address no trusted prefix contains. *)
Theorem RealIP_unforgeable trusted r vs :
  (∀ a, RealIP trusted r = Client a →
     ∃ peer, addrOf (remote_addr r) = Some peer ∧ within peer trusted = true) ∧
  (∀ h a, h ∈ hops vs → addrOf (trim_space h) = Some a → within a trusted = false →
     ∀ forged real,
       RealIP trusted (mkRequest (remote_addr r) (forged ++ vs) real) =
       RealIP trusted (mkRequest (remote_addr r) vs "")) ∧
  (∀ pre h post a, hops (forwarded_for r) = pre ++ h :: post →
     addrOf (trim_space h) = Some a → within a trusted = false →
     (∀ h' a', h' ∈ post → addrOf (trim_space h') = Some a' → within a' trusted = true) →
     (∃ peer, addrOf (remote_addr r) = Some peer ∧ within peer trusted = true) →
     RealIP trusted r = Client a).
Proof.
  split; [|split].
  - intros a. unfold RealIP, clientFromForwarded. destruct trusted as [|p ps]; [done|].
    destruct (addrOf (remote_addr r)) as [peer|]; [|done]. destruct (within peer (p :: ps)) eqn:Hw; [|done].
    intros _. by exists peer.
  - intros h a Hh Ha Hw forged real. unfold RealIP, clientFromForwarded. destruct trusted as [|p ps]; [done|].
    simpl remote_addr. destruct (addrOf (remote_addr r)) as [peer|]; [|done].
    destruct (within peer (p :: ps)); [|done]. simpl negb. cbn [forwarded_for real_ip].
    assert (∃ b, walk (p :: ps) (reverse (hops vs)) = Some b) as [b Hb].
    { destruct (walk (p :: ps) (reverse (hops vs))) eqn:E; [by eexists|].
      rewrite walk_None in E. rewrite (E h a) in Hw; [done|by apply elem_of_reverse|done]. }
    rewrite Hb. destruct forged as [|f fs]; [by rewrite app_nil_l, Hb|].
    destruct vs as [|v vs'].
    { exfalso. unfold hops in Hh. simpl in Hh. apply list_elem_of_singleton in Hh as ->. done. }
    by rewrite hops_app, reverse_app, walk_app, Hb.
  - intros pre h post a Hh Ha Hw Hpost (peer & Hp & Hpw). unfold RealIP, clientFromForwarded.
    destruct trusted as [|p ps]; [by rewrite (existsb_exists _ []) in Hpw; destruct Hpw as (? & [] & _)|].
    rewrite Hp, Hpw. simpl negb. rewrite Hh, reverse_app, reverse_cons, <- app_assoc, walk_app.
    rewrite (proj2 (walk_None (p :: ps) (reverse post))).
    2:{ intros h' a' Hin. apply Hpost. by apply elem_of_reverse. }
    cbn [app walk]. by rewrite Ha, Hw.
Qed.

(** Behind a proxy of 10.0.0.0/8, a client that claims an address of its own. *)
Definition office : list Prefix := [mkPrefix (V4 (ipv4 10 0 0 0)) 8].
Definition forging : request := mkRequest "10.0.0.1:443" ["1.2.3.4"; "203.0.113.7, 10.0.0.2"] "9.9.9.9".
Lemma RealIP_unforgeable_witness :
  RealIP office forging = RealIP office (mkRequest "10.0.0.1:443" ["203.0.113.7, 10.0.0.2"] "") ∧
  RealIP office forging = Client (V4 (ipv4 203 0 113 7)).
Proof.
  split; [|by vm_compute].
  destruct (RealIP_unforgeable office forging ["203.0.113.7, 10.0.0.2"]) as (_ & Hf & _).
  apply (Hf "203.0.113.7" (V4 (ipv4 203 0 113 7)) ltac:(left) eq_refl eq_refl ["1.2.3.4"] "9.9.9.9").
Defined.
End RealIP.

Module Idempotency.

(** A row of [idempotency_keys]; its team, key and endpoint are its place in
    the table.  [ik_done] is the stored status and body once completed. *)
Record Row := mkRow { ik_id : Z; ik_hash : string; ik_done : option (Z * string); ik_created : Z }.
Definition Key : Type := Z * string * string.
Record Table := mkTable { rows : gmap Key Row; next_id : Z }.

(** [ClaimIdempotencyKey]: insert, or the existing row; whether it is new. *)
Definition ClaimIdempotencyKey (t : Table) (k : Key) (hash : string) (now : Z) : Table * (Row * bool) :=
  match rows t !! k with
  | Some row => (t, (row, false))
  | None =>
      let row := mkRow (next_id t) hash None now in
      (mkTable (<[ k := row ]> (rows t)) (next_id t + 1), (row, true))
  end.

(** [CompleteIdempotencyKey] *)
Definition CompleteIdempotencyKey (t : Table) (id status : Z) (body : string) : Table :=
  mkTable ((λ row, if ik_id row =? id then mkRow (ik_id row) (ik_hash row) (Some (status, body)) (ik_created row)
                   else row) <$> rows t) (next_id t).

Definition retention : Z := 24 * 3600 * 1000000000.

(** [PurgeIdempotencyKeys] *)
Definition PurgeIdempotencyKeys (t : Table) (now : Z) : Table :=
  mkTable (filter (λ x, now - retention <= ik_created x.2) (rows t)) (next_id t).

(** [maxBodyBytes] *)
Definition maxBodyBytes : Z := 2 ^ 20.

(** What the middleware reads of a request; [rq_team] is the answer of the
    [teamID] callback, [rq_body] is [None] when reading it fails. *)
Record request := mkRequest {
  rq_method : string; rq_path : string; rq_query : string; rq_key : string;
  rq_team : option Z; rq_body : option string
}.

Section Middleware.
(** SHA-256 in hex, and [encoding/json.Valid]. *)
Context (sha256 : string → string) (json_valid : string → bool).

(** What the middleware does before the wrapped handler: hand the request over
    unprotected, answer it itself, or run the handler under a claimed row. *)
Inductive verdict :=
| PassThrough
| Unreadable | TooLarge | StoreFailed
| Conflict                          (** idempotency_conflict *)
| Replayed (status : Z) (body : string)
| InProgress                        (** operation_in_progress *)
| Run (row : Z).

Definition mutating (r : request) : bool :=
  bool_decide (rq_method r ∈ ["POST"; "PUT"; "PATCH"]).

(** The endpoint and the fingerprint of a request. *)
Definition key_of (r : request) (team : Z) : Key := (team, rq_key r, rq_method r +:+ " " +:+ rq_path r).
Definition hash_of (r : request) (body : string) : string :=
  sha256 (rq_query r +:+ String (ascii_of_nat 10) EmptyString +:+ body).

(** [Idempotency.Handler] up to the call of the wrapped handler; [store_up] is
    whether the statement succeeds. *)
Definition begin (t : Table) (r : request) (store_up : bool) (now : Z) : Table * verdict :=
  if bool_decide (rq_key r = "") || negb (mutating r) then (t, PassThrough)
  else match rq_team r with
  | None => (t, PassThrough)
  | Some team =>
      match rq_body r with
      | None => (t, Unreadable)
      | Some body =>
          if maxBodyBytes <? Z.of_nat (String.length body) then (t, TooLarge)
          else if negb store_up then (t, StoreFailed)
          else
            let hash := hash_of r body in
            let '(t, (row, is_new)) := ClaimIdempotencyKey t (key_of r team) hash now in
            if is_new then (t, Run (ik_id row))
            else if negb (bool_decide (ik_hash row = hash)) then (t, Conflict)
            else match ik_done row with
                 | Some (status, body) => (t, Replayed status body)
                 | None => (t, InProgress)
                 end
      end
  end.

(** [Idempotency.complete], whose failure is ignored. *)
Definition stored (body : string) : string := if json_valid body then body else "{}".
Definition complete (t : Table) (id status : Z) (body : string) (store_up : bool) : Table :=
  if store_up then CompleteIdempotencyKey t id status (stored body) else t.

(** The rest of the handler, once the wrapped one answered. *)
Definition success (status : Z) : bool := (200 <=? status) && (status <? 300).
Definition finish (t : Table) (id status : Z) (body : string) (store_up : bool) : Table :=
  if success status then complete t id status body store_up else t.

(** ** The running server

    Requests interleave between the two halves of the handler, processes crash
    in between and the purge runs at any time.  The history, latest event
    first, records what the outside world sees. *)
Inductive event :=
| Ran (k : Key) (hash : string) (at_ id : Z)     (** the wrapped handler ran under row [id] *)
| Answered (id status : Z) (body : string)       (** and answered *)
| Sent (k : Key) (hash : string) (status : Z) (body : string). (** a replayed answer *)

Record world := mkWorld { tb : Table; clock : Z; running : list Z; history : list event }.

Definition event_of (r : request) (v : verdict) (now : Z) : list event :=
  match rq_team r, rq_body r, v with
  | Some team, Some body, Run id => [Ran (key_of r team) (hash_of r body) now id]
  | Some team, Some body, Replayed s b => [Sent (key_of r team) (hash_of r body) s b]
  | _, _, _ => []
  end.

Definition started (v : verdict) : list Z := match v with Run id => [id] | _ => [] end.

Inductive step : world → world → Prop :=
| step_clock w d :
    0 <= d → step w (mkWorld (tb w) (clock w + d) (running w) (history w))
| step_request w r store_up t v :
    begin (tb w) r store_up (clock w) = (t, v) →
    step w (mkWorld t (clock w) (started v ++ running w) (event_of r v (clock w) ++ history w))
| step_answer w before id after status body store_up :
    running w = before ++ id :: after →
    step w (mkWorld (finish (tb w) id status body store_up) (clock w) (before ++ after)
              (Answered id status body :: history w))
| step_crash w before id after :
    running w = before ++ id :: after →
    step w (mkWorld (tb w) (clock w) (before ++ after) (history w))
| step_purge w :
    step w (mkWorld (PurgeIdempotencyKeys (tb w) (clock w)) (clock w) (running w) (history w)).

Definition fresh_world : world := mkWorld (mkTable ∅ 1) 0 [] [].

(** *** Invariant *)

(** The stored answer of a row was given by the handler that ran under it. *)
Definition backed (h : list event) (k : Key) (row : Row) : Prop :=
  Ran k (ik_hash row) (ik_created row) (ik_id row) ∈ h ∧
  (∀ hash t id, Ran k hash t id ∈ h → t <= ik_created row) ∧
  ∀ s b, ik_done row = Some (s, b) →
    ∃ body, Answered (ik_id row) s body ∈ h ∧ success s = true ∧ b = stored body.

(** A key without a row has not run for a whole retention period. *)
Definition forgotten (h : list event) (k : Key) (now : Z) : Prop :=
  ∀ hash t id, Ran k hash t id ∈ h → t + retention < now.

Fixpoint sound (h : list event) : Prop :=
  match h with
  | [] => True
  | e :: h' =>
      sound h' ∧
      match e with
      | Ran k _ t _ => forgotten h' k t
      | Sent k hash s b => ∃ t id body, Ran k hash t id ∈ h' ∧ Answered id s body ∈ h' ∧
                             success s = true ∧ b = stored body
      | Answered _ _ _ => True
      end
  end.

Definition inv (w : world) : Prop :=
  (∀ k row, rows (tb w) !! k = Some row → backed (history w) k row) ∧
  (∀ k, rows (tb w) !! k = None → forgotten (history w) k (clock w)) ∧
  sound (history w).

Lemma retention_pos : 0 < retention.
Proof. unfold retention. lia. Qed.

Lemma forgotten_mono h k now now' : now <= now' → forgotten h k now → forgotten h k now'.
Proof. unfold forgotten. intros Hn H hash t id Hr. specialize (H hash t id Hr). lia. Qed.

(** Events that are not runs of the key change neither. *)
Lemma backed_cons e h k row :
  (∀ hash t id, e ≠ Ran k hash t id) → backed h k row → backed (e :: h) k row.
Proof.
  intros He (H1 & H2 & H3). split; [by right|]. split.
  - intros hash t id [<-|Hin]%elem_of_cons; [by destruct (He hash t id)|eauto].
  - intros s b Hd. destruct (H3 s b Hd) as (body & Ha & Hs). exists body. split; [by right|done].
Qed.

Lemma forgotten_cons e h k now :
  (∀ hash t id, e ≠ Ran k hash t id) → forgotten h k now → forgotten (e :: h) k now.
Proof.
  intros He H hash t id [<-|Hin]%elem_of_cons; [by destruct (He hash t id)|eauto].
Qed.

(** What [begin] can come to. *)
Lemma begin_spec t r store_up now t' v :
  begin t r store_up now = (t', v) →
  (t' = t ∧ event_of r v now = []) ∨
  (∃ team body s b row, rq_team r = Some team ∧ rq_body r = Some body ∧ t' = t ∧ v = Replayed s b ∧
     rows t !! key_of r team = Some row ∧ ik_hash row = hash_of r body ∧ ik_done row = Some (s, b)) ∨
  (∃ team body, rq_team r = Some team ∧ rq_body r = Some body ∧ rows t !! key_of r team = None ∧
     v = Run (next_id t) ∧
     t' = mkTable (<[ key_of r team := mkRow (next_id t) (hash_of r body) None now ]> (rows t)) (next_id t + 1)).
Proof.
  unfold begin, ClaimIdempotencyKey, event_of. intros H.
  destruct (_ || _) eqn:?; [left; by simplify_eq; repeat case_match|].
  destruct (rq_team r) as [team|] eqn:Ht; [|left; by simplify_eq].
  destruct (rq_body r) as [body|] eqn:Hb; [|left; by simplify_eq].
  destruct (_ <? _); [left; by simplify_eq|].
  destruct store_up; cbn [negb] in H; [|left; by simplify_eq].
  destruct (rows t !! key_of r team) as [row|] eqn:Hr.
  - case_bool_decide as Hh; cbn [negb] in H; [|left; by simplify_eq].
    destruct (ik_done row) as [[s b]|] eqn:Hd; [|left; by simplify_eq].
    right; left. simplify_eq. exists team, body, s, b, row. done.
  - right; right. simplify_eq. exists team, body. done.
Qed.

Lemma request_inv w r store_up t v :
  inv w → begin (tb w) r store_up (clock w) = (t, v) →
  inv (mkWorld t (clock w) (started v ++ running w) (event_of r v (clock w) ++ history w)).
Proof.
  intros (Hb & Hf & Hs) H. unfold inv. cbn [tb clock history].
  destruct (begin_spec _ _ _ _ _ _ H)
    as [(-> & ->)|[(team & body & s & b & row & Ht & Hbd & -> & -> & Hr & Hh & Hd)|(team & body & Ht & Hbd & Hr & -> & ->)]];
    [done|..]; unfold event_of; rewrite Ht, Hbd; cbn [app rows].
  - split; [|split].
    + intros k row' Hk. apply backed_cons; [done|auto].
    + intros k Hk. apply forgotten_cons; [done|auto].
    + split; [done|]. destruct (Hb _ _ Hr) as (H1 & _ & H3). destruct (H3 s b Hd) as (bd & Ha & Hsu).
      rewrite Hh in H1. eauto 10.
  - split; [|split].
    + intros k row' Hk. destruct (decide (key_of r team = k)) as [<-|Hne].
      * rewrite lookup_insert_eq in Hk. injection Hk as <-. split; [by left|]. cbn. split; [|done].
        intros hash t' id [[=]|Hin]%elem_of_cons; [lia|].
        pose proof (Hf _ Hr hash t' id Hin). pose proof retention_pos. lia.
      * rewrite lookup_insert_ne in Hk by done. apply backed_cons; [naive_solver|auto].
    + intros k Hk. rewrite lookup_insert_None in Hk. destruct Hk as [Hk Hne].
      apply forgotten_cons; [naive_solver|auto].
    + split; [done|]. by apply Hf.
Qed.

Lemma answer_inv w run id status body store_up :
  inv w →
  inv (mkWorld (finish (tb w) id status body store_up) (clock w) run (Answered id status body :: history w)).
Proof.
  intros (Hb & Hf & Hs). unfold inv. cbn [tb clock history].
  assert (∀ k row, rows (tb w) !! k = Some row → backed (Answered id status body :: history w) k row) as Hb'.
  { intros k row Hk. apply backed_cons; [done|auto]. }
  assert (∀ k, rows (tb w) !! k = None → forgotten (Answered id status body :: history w) k (clock w)) as Hf'.
  { intros k Hk. apply forgotten_cons; [done|auto]. }
  unfold finish, complete. destruct (success status) eqn:Hsu; [destruct store_up|]; cbn; try by split_and!.
  split; [|split; [|done]].
  - intros k row'. rewrite lookup_fmap. destruct (rows (tb w) !! k) as [row|] eqn:Hk; [|done].
    intros [= <-]. destruct (Hb' k row Hk) as (H1 & H2 & H3).
    destruct (Z.eqb_spec (ik_id row) id) as [Hid|]; [|done].
    split; [exact H1|]. split; [exact H2|]. cbn. intros s b [= <- <-]. exists body.
    rewrite Hid. split; [by left|done].
  - intros k. rewrite lookup_fmap. destruct (rows (tb w) !! k) eqn:Hk; [done|]. auto.
Qed.

Lemma purge_inv w run :
  inv w → inv (mkWorld (PurgeIdempotencyKeys (tb w) (clock w)) (clock w) run (history w)).
Proof.
  intros (Hb & Hf & Hs). split; [|split; [|done]]; cbn.
  - intros k row [Hk _]%map_lookup_filter_Some. auto.
  - intros k [Hk|Hk]%map_lookup_filter_None; [auto|].
    destruct (rows (tb w) !! k) as [row|] eqn:Hr; [|auto].
    specialize (Hk row eq_refl). cbn in Hk. destruct (Hb k row Hr) as (_ & H2 & _).
    intros hash t id Hin. specialize (H2 hash t id Hin). lia.
Qed.

Lemma step_inv w w' : inv w → step w w' → inv w'.
Proof.
  intros Hi Hstep. destruct Hstep.
  - destruct Hi as (Hb & Hf & Hs). split; [done|]. split; [|done]. cbn. intros k Hk.
    eapply forgotten_mono; [|by apply Hf]. lia.
  - by eapply request_inv.
  - by apply answer_inv.
  - exact Hi.
  - by apply purge_inv.
Qed.

Lemma reachable_inv w : reachable_from step fresh_world w → inv w.
Proof.
  apply (reachable_invariant step inv); [|exact step_inv].
  split; [|split; [|done]]; cbn; intros k; [intros row|intros _]; [by rewrite lookup_empty|].
  by intros hash t id ?%not_elem_of_nil.
Qed.

Lemma sound_app h1 h2 : sound (h1 ++ h2) → sound h2.
Proof. induction h1 as [|e h1 IH]; [done|]. intros [? _]. auto. Qed.

End Middleware.

(** A creation that answers 201, retried with the same key. *)
Definition post : request := mkRequest "POST" "/api/v1/applications" "" "k1" (Some 7) (Some "{}").

Definition after_request (w : world) : world :=
  let '(t, v) := begin (λ s, s) (tb w) post true (clock w) in
  mkWorld t (clock w) (started v ++ running w) (event_of (λ s, s) post v (clock w) ++ history w).
Definition after_answer (w : world) : world :=
  mkWorld (finish (λ _, true) (tb w) 1 201 "{id}" true) (clock w) [] (Answered 1 201 "{id}" :: history w).
Definition demo_world : world := after_request (after_answer (after_request fresh_world)).

Lemma step_after_request w : step (λ s, s) (λ _, true) w (after_request w).
Proof.
  unfold after_request. destruct (begin _ _ _ _ _) as [t v] eqn:E. by eapply step_request.
Qed.

Lemma demo_reachable : reachable_from (step (λ s, s) (λ _, true)) fresh_world demo_world.
Proof.
  eapply reach_step; [eapply reach_step; [eapply reach_step; [apply reach_here|]|]|].
  - apply step_after_request.
  - apply (step_answer _ _ (after_request fresh_world) [] 1 [] 201 "{id}" true). vm_compute. reflexivity.
  - apply step_after_request.
Qed.


(** A request whose handler failed leaves its key claimed: until the purge, the
    same request is answered operation_in_progress. *)
Lemma failed_request_not_retriable sha256 json_valid status body store_up :
  success status = false →
  let '(t1, v1) := begin sha256 (mkTable ∅ 1) post true 0 in
  v1 = Run 1 ∧
  snd (begin sha256 (PurgeIdempotencyKeys (finish json_valid t1 1 status body store_up) retention) post true retention)
  = InProgress.
Proof.
  intros Hs. unfold begin at 1. cbn. split; [done|]. unfold finish. rewrite Hs.
  unfold begin, ClaimIdempotencyKey. cbn.
  erewrite (map_lookup_filter_Some_2 _ _ _ (mkRow 1 _ None 0));
    [|apply lookup_insert_eq|cbn; unfold retention; lia].
  cbn [ik_hash]. by rewrite (bool_decide_eq_true_2 (hash_of sha256 post "{}" = _)) by done.
Qed.
End Idempotency.
