(* ===== verification/Regexp.v ===== *)
(** * Regular expressions

    The fragment of Go's [regexp] the code writes: literals and their quotation
    by [QuoteMeta], classes, [+], groups of alternatives, and the anchors of a
    whole text.  [parse_regexp] reads a pattern of that fragment, character by
    character with a stack of open groups; patterns outside it, and bytes that
    are not ASCII, are refused.  [search] is [Regexp.MatchString]. *)
From S2P Require Import Prelude GoLib.
Local Open Scope Z_scope.

(** ** Characters *)

Definition chars (s : string) : list ascii := String.list_ascii_of_string s.

Definition between (a : ascii) (lo hi : ascii) : bool := (byte_val lo <=? byte_val a) && (byte_val a <=? byte_val hi).

Fixpoint all_chars (p : ascii → bool) (s : string) : bool :=
  match s with EmptyString => true | String a s' => p a && all_chars p s' end.

(** ** Expressions *)

Inductive re :=
| REmpty | RBol | REol
| RChr (c : ascii)
| RCls (ranges : list (ascii * ascii))
| RPlus (r : re)
| RCat (r1 r2 : re)
| RAlt (r1 r2 : re).

Definition in_class (ranges : list (ascii * ascii)) (c : ascii) : bool :=
  existsb (λ '(lo, hi), between c lo hi) ranges.

(** [rmatch r pre s post]: [r] matches [s] in the text [pre s post]. *)
Inductive rmatch : re → string → string → string → Prop :=
| m_empty pre post : rmatch REmpty pre "" post
| m_bol post : rmatch RBol "" "" post
| m_eol pre : rmatch REol pre "" ""
| m_chr c pre post : rmatch (RChr c) pre (String c "") post
| m_cls l c pre post : in_class l c = true → rmatch (RCls l) pre (String c "") post
| m_plus_one r pre s post : rmatch r pre s post → rmatch (RPlus r) pre s post
| m_plus_more r pre s1 s2 post :
    rmatch r pre s1 (s2 +:+ post) → rmatch (RPlus r) (pre +:+ s1) s2 post →
    rmatch (RPlus r) pre (s1 +:+ s2) post
| m_cat r1 r2 pre s1 s2 post :
    rmatch r1 pre s1 (s2 +:+ post) → rmatch r2 (pre +:+ s1) s2 post →
    rmatch (RCat r1 r2) pre (s1 +:+ s2) post
| m_alt_l r1 r2 pre s post : rmatch r1 pre s post → rmatch (RAlt r1 r2) pre s post
| m_alt_r r1 r2 pre s post : rmatch r2 pre s post → rmatch (RAlt r1 r2) pre s post.

(** [Regexp.MatchString]: a match anywhere in the text. *)
Definition search (r : re) (text : string) : Prop :=
  ∃ pre s post, text = pre +:+ s +:+ post ∧ rmatch r pre s post.

(** ** Quotation *)

(** [regexp.QuoteMeta] *)
Definition special (a : ascii) : bool :=
  bool_decide (a ∈ ["\"; "."; "+"; "*"; "?"; "("; ")"; "|"; "["; "]"; "{"; "}"; "^"; "$"]%char).

Fixpoint QuoteMeta (s : string) : string :=
  match s with
  | EmptyString => EmptyString
  | String a s' => if special a then String "\" (String a (QuoteMeta s')) else String a (QuoteMeta s')
  end.

(** ** Reading a pattern *)

Definition cat_of (items : list re) : re := foldr RCat REmpty items.

(** A group being read: its finished alternatives, if any, and the items of the
    current one, last first. *)
Definition group : Type := option re * list re.

Definition close_group (g : group) : re :=
  let r := cat_of (reverse (snd g)) in
  match fst g with Some a => RAlt a r | None => r end.

(** Inside a class: the ranges read, a character that may begin a range, and
    whether its dash was read. *)
Inductive mode :=
| Normal | Escaped
| Class (ranges : list (ascii * ascii)) (from : option ascii) (dash : bool).

Record reading := mkReading { rg_stack : list group; rg_group : group; rg_mode : mode }.

Definition add_item (st : reading) (r : re) : reading :=
  mkReading (rg_stack st) (fst (rg_group st), r :: snd (rg_group st)) Normal.

Definition single (c : ascii) : ascii * ascii := (c, c).

Definition read_class (st : reading) (l : list (ascii * ascii)) (from : option ascii) (dash : bool) (c : ascii)
    : option reading :=
  let go l from dash := Some (mkReading (rg_stack st) (rg_group st) (Class l from dash)) in
  if bool_decide (c ∈ ["\"; "["; "^"]%char) then None
  else match from, dash with
  | None, _ => if decide (c = "]"%char) then (if bool_decide (l = []) then None else Some (add_item st (RCls l)))
               else go l (Some c) false
  | Some a, false =>
      if decide (c = "]"%char) then Some (add_item st (RCls (l ++ [single a])))
      else if decide (c = "-"%char) then go l (Some a) true
      else go (l ++ [single a]) (Some c) false
  | Some a, true =>
      if decide (c = "]"%char) then Some (add_item st (RCls (l ++ [single a; single "-"%char])))
      else go (l ++ [(a, c)]) None false
  end.

Definition read_normal (st : reading) (c : ascii) : option reading :=
  let '(mkReading stack g _) := st in
  if decide (c = "\"%char) then Some (mkReading stack g Escaped)
  else if decide (c = "^"%char) then Some (add_item st RBol)
  else if decide (c = "$"%char) then Some (add_item st REol)
  else if decide (c = "["%char) then Some (mkReading stack g (Class [] None false))
  else if decide (c = "("%char) then Some (mkReading (g :: stack) (None, []) Normal)
  else if decide (c = ")"%char) then
    match stack with
    | [] => None
    | outer :: stack => Some (add_item (mkReading stack outer Normal) (close_group g))
    end
  else if decide (c = "|"%char) then Some (mkReading stack (Some (close_group g), []) Normal)
  else if decide (c = "+"%char) then
    match snd g with [] | RPlus _ :: _ => None | r :: items => Some (mkReading stack (fst g, RPlus r :: items) Normal) end
  else if special c then None
  else Some (add_item st (RChr c)).

Definition read_char (st : reading) (c : ascii) : option reading :=
  if 128 <=? byte_val c then None
  else match rg_mode st with
  | Normal => read_normal st c
  | Escaped => if special c then Some (add_item st (RChr c)) else None
  | Class l from dash => read_class st l from dash c
  end.

Fixpoint feed (s : string) (st : reading) : option reading :=
  match s with
  | EmptyString => Some st
  | String c s' => read_char st c ≫= feed s'
  end.

Definition parse_regexp (pattern : string) : option re :=
  st ← feed pattern (mkReading [] (None, []) Normal);
  match rg_stack st, rg_mode st with [], Normal => Some (close_group (rg_group st)) | _, _ => None end.

Example parse_regexp_ex :
  parse_regexp "^/v(1|2)/[A-Za-z._-]+$" =
  Some (cat_of [RBol; RChr "/"; RChr "v"; RAlt (cat_of [RChr "1"]) (cat_of [RChr "2"]); RChr "/";
                RPlus (RCls [("A", "Z"); ("a", "z"); (".", "."); ("_", "_"); ("-", "-")]%char); REol]).
Proof. reflexivity. Qed.

(** ** What a pattern says *)

(** The language of an expression that has no anchor. *)
Definition lang (r : re) (P : string → Prop) : Prop := ∀ pre s post, rmatch r pre s post ↔ P s.

Lemma lang_ext r P Q : (∀ s, P s ↔ Q s) → lang r P → lang r Q.
Proof. intros HPQ Hr pre s post. by rewrite (Hr pre s post). Qed.

Lemma lang_empty : lang REmpty (λ s, s = "").
Proof. intros pre s post. split; [by inversion 1|intros ->; constructor]. Qed.

Lemma lang_chr c : lang (RChr c) (λ s, s = String c "").
Proof. intros pre s post. split; [by inversion 1|intros ->; constructor]. Qed.

Lemma lang_cls l : lang (RCls l) (λ s, ∃ c, s = String c "" ∧ in_class l c = true).
Proof. intros pre s post. split; [inversion 1; eauto|intros (c & -> & ?); by constructor]. Qed.

Lemma lang_cat r1 r2 P1 P2 :
  lang r1 P1 → lang r2 P2 → lang (RCat r1 r2) (λ s, ∃ a b, s = a +:+ b ∧ P1 a ∧ P2 b).
Proof.
  intros H1 H2 pre s post. split.
  - inversion 1; subst. eexists _, _. split; [done|]. split; [by eapply H1|by eapply H2].
  - intros (a & b & -> & ? & ?). constructor; [by apply H1|by apply H2].
Qed.

Lemma lang_alt r1 r2 P1 P2 : lang r1 P1 → lang r2 P2 → lang (RAlt r1 r2) (λ s, P1 s ∨ P2 s).
Proof.
  intros H1 H2 pre s post. split.
  - inversion 1; subst; [left; by eapply H1|right; by eapply H2].
  - intros [?|?]; [apply m_alt_l; by apply H1|apply m_alt_r; by apply H2].
Qed.

Lemma all_chars_app p a b : all_chars p (a +:+ b) = all_chars p a && all_chars p b.
Proof. induction a as [|x a IH]; [done|]. rewrite append_cons. cbn. by rewrite IH, andb_assoc. Qed.

Lemma lang_plus_cls l : lang (RPlus (RCls l)) (λ s, s ≠ "" ∧ all_chars (in_class l) s = true).
Proof.
  intros pre s post. split.
  - intros H. remember (RPlus (RCls l)) as r eqn:Er. induction H; simplify_eq.
    + apply lang_cls in H as (c & -> & Hc). cbn. by rewrite Hc.
    + apply lang_cls in H as (c & -> & Hc). destruct IHrmatch2 as [_ IH]; [done|].
      rewrite append_cons. cbn. by rewrite Hc.
  - revert pre. induction s as [|c s IH]; intros pre [Hne Hs]; [done|]. cbn in Hs. apply andb_true_iff in Hs as [Hc Hs].
    destruct s as [|d s].
    + apply m_plus_one. by constructor.
    + apply (m_plus_more _ pre (String c "") (String d s)); [by constructor|]. by apply IH.
Qed.

Lemma rmatch_cat r1 r2 pre s post :
  rmatch (RCat r1 r2) pre s post ↔
  ∃ a b, s = a +:+ b ∧ rmatch r1 pre a (b +:+ post) ∧ rmatch r2 (pre +:+ a) b post.
Proof. split; [inversion 1; eauto 10|intros (a & b & -> & ? & ?); by constructor]. Qed.

Lemma rmatch_app l1 l2 pre s post :
  rmatch (cat_of (l1 ++ l2)) pre s post ↔
  ∃ a b, s = a +:+ b ∧ rmatch (cat_of l1) pre a (b +:+ post) ∧ rmatch (cat_of l2) (pre +:+ a) b post.
Proof.
  revert pre s. induction l1 as [|r l1 IH]; intros pre s.
  - rewrite app_nil_l. split.
    + intros Hs. exists "", s. split; [done|]. split; [constructor|]. by rewrite append_nil_r.
    + intros (a & b & -> & Ha & Hb). inversion Ha; subst. by rewrite append_nil_r in Hb.
  - cbn. setoid_rewrite rmatch_cat. split.
    + intros (a & b & -> & Hr & Hb). apply IH in Hb as (c & d & -> & Hc & Hd). exists (a +:+ c), d.
      rewrite append_assoc. split; [done|]. split; [|by rewrite <- append_assoc].
      exists a, c. by rewrite <- append_assoc.
    + intros (? & d & -> & (a & c & -> & Hr & Hc) & Hd). exists a, (c +:+ d). rewrite append_assoc. split; [done|].
      rewrite append_assoc. split; [done|]. apply IH. exists c, d. by rewrite append_assoc.
Qed.

Lemma lang_app l1 l2 P1 P2 :
  lang (cat_of l1) P1 → lang (cat_of l2) P2 → lang (cat_of (l1 ++ l2)) (λ s, ∃ a b, s = a +:+ b ∧ P1 a ∧ P2 b).
Proof.
  intros H1 H2 pre s post. rewrite rmatch_app. split; intros (a & b & -> & Ha & Hb); exists a, b.
  - split; [done|]. split; [by eapply H1|by eapply H2].
  - split; [done|]. split; [by apply H1|by apply H2].
Qed.

Lemma lang_one r P : lang r P → lang (cat_of [r]) P.
Proof.
  intros Hr. eapply lang_ext; [|apply (lang_cat r REmpty _ _ Hr lang_empty)]. cbn. intros s. split.
  - intros (a & b & -> & Ha & ->). by rewrite append_nil_r.
  - intros Hs. exists s, "". by rewrite append_nil_r.
Qed.

(** A word as an expression. *)
Definition word (w : string) : list re := RChr <$> chars w.

Lemma lang_word w : lang (cat_of (word w)) (λ s, s = w).
Proof.
  induction w as [|c w IH]; [apply lang_empty|].
  eapply lang_ext; [|apply (lang_cat (RChr c) (cat_of (word w)) _ _ (lang_chr c) IH)]. cbn. intros s. split.
  - by intros (a & b & -> & -> & ->).
  - intros ->. by exists (String c ""), w.
Qed.

(** Alternatives of words, as they are read: each joins those before it. *)
Definition one_of (v : string) (vs : list string) : re :=
  foldl (λ r w, RAlt r (cat_of (word w))) (cat_of (word v)) vs.

Lemma lang_one_of v vs : lang (one_of v vs) (λ s, s ∈ v :: vs).
Proof.
  unfold one_of. assert (∀ r P, lang r P →
    lang (foldl (λ r w, RAlt r (cat_of (word w))) r vs) (λ s, P s ∨ s ∈ vs)) as Hfold.
  { induction vs as [|w vs IH]; intros r P Hr; cbn.
    - eapply lang_ext; [|done]. set_solver.
    - eapply lang_ext; [|apply (IH _ _ (lang_alt _ _ _ _ Hr (lang_word w)))]. intros s. cbn. set_solver. }
  eapply lang_ext; [|apply (Hfold _ _ (lang_word v))]. intros s. cbn. set_solver.
Qed.

(** Between the anchors the whole text is matched. *)
Lemma search_anchored l P text :
  lang (cat_of l) P → search (cat_of ([RBol] ++ l ++ [REol])) text ↔ P text.
Proof.
  intros Hl. split.
  - intros (pre & s & post & -> & Hm). apply rmatch_app in Hm as (a & b & -> & Ha & Hb).
    apply rmatch_app in Hb as (c & d & -> & Hc & Hd).
    cbn in Ha, Hd. inversion Ha as [| | | | | | |? ? ? ? ? ? Hbol He| |]; subst. inversion Hbol; subst. inversion He; subst.
    inversion Hd as [| | | | | | |? ? ? ? ? ? Heol He'| |]; subst. inversion He'; subst. inversion Heol; subst.
    destruct post; [|done]. apply Hl in Hc. cbn. by rewrite !append_nil_r.
  - intros Ht. exists "", text, "". split; [cbn; by rewrite append_nil_r|]. apply rmatch_app. exists "", text.
    split; [done|]. split; [apply (m_cat RBol REmpty "" "" ""); constructor|]. apply rmatch_app. exists text, "".
    rewrite append_nil_r. split; [done|]. split; [by apply Hl|]. apply (m_cat REol REmpty _ "" ""); constructor.
Qed.

(** ** What a reading adds *)

Definition add_items (st : reading) (l : list re) : reading :=
  mkReading (rg_stack st) (fst (rg_group st), reverse l ++ snd (rg_group st)) Normal.

Lemma add_items_app st l1 l2 : add_items (add_items st l1) l2 = add_items st (l1 ++ l2).
Proof. unfold add_items. cbn. by rewrite reverse_app, app_assoc. Qed.

Lemma feed_app a b st : feed (a +:+ b) st = feed a st ≫= feed b.
Proof.
  revert st. induction a as [|c a IH]; intros st; [done|]. rewrite append_cons. cbn.
  destruct (read_char st c); [apply IH|done].
Qed.

Definition is_ascii (a : ascii) : bool := byte_val a <? 128.

(** Reading a quoted word back gives the word, whatever it contains. *)
Lemma feed_quote w st :
  all_chars is_ascii w = true → rg_mode st = Normal → feed (QuoteMeta w) st = Some (add_items st (word w)).
Proof.
  revert st. induction w as [|c w IH]; intros st Hw Hm.
  { destruct st as [? [? ?] ?]. cbn in *. by subst. }
  cbn in Hw. apply andb_true_iff in Hw as [Hc Hw]. unfold is_ascii in Hc. apply Z.ltb_lt in Hc.
  assert ((128 <=? byte_val c) = false) as Hlt by lia.
  assert (feed (QuoteMeta w) (add_item st (RChr c)) = Some (add_items st (word (String c w)))) as Hrest.
  { rewrite IH by done. f_equal. change (add_item st (RChr c)) with (add_items st [RChr c]). apply add_items_app. }
  destruct st as [stack g m]. cbn in Hm. subst m. cbn [QuoteMeta]. destruct (special c) eqn:Hs.
  - cbn [feed]. unfold read_char at 1. cbn. unfold read_char. rewrite Hlt. cbn. rewrite Hs. exact Hrest.
  - cbn [feed]. unfold read_char. rewrite Hlt. cbn [rg_mode]. unfold read_normal.
    assert (∀ x, special x = true → c ≠ x) as Hne by congruence.
    rewrite !decide_False by (apply Hne; reflexivity). rewrite Hs. exact Hrest.
Qed.

(** The alternatives of a group. *)
Fixpoint bars (ws : list string) : string :=
  match ws with
  | [] => ""
  | [w] => QuoteMeta w
  | w :: ws' => QuoteMeta w +:+ String "|" (bars ws')
  end.

Lemma close_word alt w :
  close_group (alt, reverse (word w) ++ []) =
  match alt with Some a => RAlt a (cat_of (word w)) | None => cat_of (word w) end.
Proof. unfold close_group. cbn [fst snd]. by rewrite app_nil_r, reverse_involutive. Qed.

Lemma read_bar stack g :
  read_char (mkReading stack g Normal) "|" = Some (mkReading stack (Some (close_group g), []) Normal).
Proof. reflexivity. Qed.

Lemma feed_bars ws w stack outer alt :
  Forall (λ v, all_chars is_ascii v = true) (w :: ws) →
  feed (bars (w :: ws) +:+ ")") (mkReading (outer :: stack) (alt, []) Normal) =
  Some (add_item (mkReading stack outer Normal)
          (foldl (λ r v, RAlt r (cat_of (word v)))
             (match alt with Some a => RAlt a (cat_of (word w)) | None => cat_of (word w) end) ws)).
Proof.
  revert w alt. induction ws as [|v ws IH]; intros w alt [Hw Hws]%Forall_cons.
  - cbn [bars]. rewrite feed_app, feed_quote by done. cbn [mbind option_bind feed].
    unfold read_char. cbn -[word close_group]. by rewrite close_word.
  - change (bars (w :: v :: ws)) with (QuoteMeta w +:+ String "|" (bars (v :: ws))).
    rewrite append_assoc, feed_app, feed_quote by done. rewrite append_cons. cbn [mbind option_bind].
    cbn [feed]. unfold add_items at 1. cbn [rg_stack rg_group fst snd]. rewrite read_bar, close_word.
    cbn [mbind option_bind]. rewrite IH by done. cbn [foldl]. by destruct alt.
Qed.

Lemma feed_one_of v vs st :
  Forall (λ v, all_chars is_ascii v = true) (v :: vs) → rg_mode st = Normal →
  feed ("(" +:+ bars (v :: vs) +:+ ")") st = Some (add_items st [one_of v vs]).
Proof.
  intros Hv Hm. destruct st as [stack [alt items] m]. cbn in Hm. subst m.
  change ("(" +:+ bars (v :: vs) +:+ ")") with (String "(" (bars (v :: vs) +:+ ")")).
  cbn [feed].
  change (read_char (mkReading stack (alt, items) Normal) "(")
    with (Some (mkReading ((alt, items) :: stack) (None, []) Normal)).
  cbn [mbind option_bind]. by rewrite feed_bars.
Qed.
