(* ===== verification/AccessRoute.v ===== *)
(** * Public exceptions of a protected resource

    Models [internal/accessroute/accessroute.go]: the validation of a public
    route, its rendering as a rule of the proxy, and [Covers].  What a rule
    says is read back from its text: [read_rule] follows the rule language of
    the proxy for the fragment the code writes, and a request is let through by
    a rule when every conjunct has a matcher that accepts it. *)
From S2P Require Import Prelude GoLib Regexp.
Local Open Scope Z_scope.

(** ** Routes *)

Definition MatchExact := "exact".
Definition MatchTemplate := "template".
Definition MatchPrefix := "prefix".

Definition maxPathBytes : Z := 2048.

Record Route := mkRoute {
  Path : string; Match : string; Methods : list string; Parameters : gmap string (list string)
}.

Inductive route_error :=
| BadMatch | PathRequired | PathTooLong | PathNotRooted | PathBadCharacter | PathSpace | PathEmptySegment
| PathDotSegment | NoMethods | BadMethod (raw : string) | PartialPlaceholder | PlaceholderNeedsTemplate
| BadParameterName (name : string) | NoPlaceholder | ParametersNeedTemplate | UnknownParameter (name : string)
| NoValues (name : string) | BadValue (name value : string).

(** ** The patterns of tokens *)

Definition is_upper (a : ascii) : bool := between a "A" "Z".
Definition is_lower (a : ascii) : bool := between a "a" "z".
Definition is_number (a : ascii) : bool := between a "0" "9".
Definition is_letter (a : ascii) : bool := is_upper a || is_lower a.

(** [parameterName]: a letter or an underscore, then letters, digits and
    underscores. *)
Definition parameterName (s : string) : bool :=
  match s with
  | EmptyString => false
  | String a s' =>
      (is_letter a || bool_decide (a = "_"%char)) &&
      all_chars (λ c, is_letter c || is_number c || bool_decide (c = "_"%char)) s'
  end.

(** [methodToken] *)
Definition method_symbols : list ascii :=
  ["!"; "#"; "$"; "%"; "&"; "'"; "*"; "+"; "."; "^"; "_"; "`"; "|"; "~"; "-"]%char.
Definition methodToken (s : string) : bool :=
  match s with
  | EmptyString => false
  | String a s' => is_upper a && all_chars (λ c, is_upper c || is_number c || bool_decide (c ∈ method_symbols)) s'
  end.

(** [segmentValue]: the unreserved characters of a URL. *)
Definition unreserved (c : ascii) : bool :=
  is_letter c || is_number c || bool_decide (c ∈ ["."; "_"; "~"; "-"]%char).
Definition segmentValue (s : string) : bool := bool_decide (s ≠ "") && all_chars unreserved s.

(** ** Validation *)

(** [validatePath]; a byte below U+0080 is a character of its own. *)
Definition validatePath (value : string) : option route_error :=
  if decide (value = "") then Some PathRequired
  else if maxPathBytes <? Z.of_nat (String.length value) then Some PathTooLong
  else if negb (has_prefix value "/") then Some PathNotRooted
  else if negb (all_chars (λ c, negb (bool_decide (c ∈ ["?"; "#"; "%"; "`"; "*"; "\"]%char))) value)
  then Some PathBadCharacter
  else if negb (all_chars (λ c, negb ((byte_val c <=? 32) || (byte_val c =? 127))) value) then Some PathSpace
  else if contains_sub "//" value then Some PathEmptySegment
  else if existsb (λ seg, bool_decide (seg = ".") || bool_decide (seg = "..")) (split slash value)
  then Some PathDotSegment
  else None.

(** The loop of [validateMatchPath] over the segments. *)
Fixpoint check_segments (match_ : string) (placeholders : gset string) (segs : list string)
    : route_error + gset string :=
  match segs with
  | [] => inr placeholders
  | seg :: rest =>
      match cut_prefix ":" seg with
      | None =>
          if contains ":" seg then inl PartialPlaceholder else check_segments match_ placeholders rest
      | Some name =>
          if negb (bool_decide (match_ = MatchTemplate)) then inl PlaceholderNeedsTemplate
          else if negb (parameterName name) then inl (BadParameterName name)
          else check_segments match_ ({[ name ]} ∪ placeholders) rest
      end
  end.

(** [strings.TrimPrefix] *)
Definition trim_prefix (s p : string) : string := default s (cut_prefix p s).

(** [validateMatchPath] *)
Definition validateMatchPath (value match_ : string) : route_error + gset string :=
  match check_segments match_ ∅ (split slash (trim_prefix value "/")) with
  | inl e => inl e
  | inr placeholders =>
      if bool_decide (match_ = MatchTemplate) && bool_decide (placeholders = ∅) then inl NoPlaceholder
      else inr placeholders
  end.

(** The loop over the methods; [out] are those kept, in order. *)
Fixpoint normalize_methods (out : list string) (methods : list string) : route_error + list string :=
  match methods with
  | [] => inr out
  | raw :: rest =>
      let method := ToUpper (trim_space raw) in
      if bool_decide (method = "") || negb (methodToken method) then inl (BadMethod raw)
      else normalize_methods (if bool_decide (method ∈ out) then out else out ++ [method]) rest
  end.

(** The values of one parameter, sorted and each kept once. *)
Fixpoint bad_value (values : list string) : option string :=
  match values with
  | [] => None
  | v :: rest =>
      if bool_decide (v = ".") || bool_decide (v = "..") || negb (segmentValue v) then Some v else bad_value rest
  end.
Definition normalize_values (values : list string) : list string :=
  sort_strings (elements (list_to_set values : gset string)).

(** The loop over the parameters, in the order a map is iterated in. *)
Fixpoint normalize_parameters (placeholders : gset string) (out : gmap string (list string))
    (params : list (string * list string)) : route_error + gmap string (list string) :=
  match params with
  | [] => inr out
  | (name, values) :: rest =>
      if negb (bool_decide (name ∈ placeholders)) then inl (UnknownParameter name)
      else if bool_decide (values = []) then inl (NoValues name)
      else match bad_value values with
           | Some v => inl (BadValue name v)
           | None => normalize_parameters placeholders (<[ name := normalize_values values ]> out) rest
           end
  end.

(** [Validate]; [order] is the order in which [in.Parameters] is iterated. *)
Definition Validate (order : list (string * list string)) (r : Route) : route_error + Route :=
  let match_ := if decide (Match r = "") then MatchExact else Match r in
  if negb (bool_decide (match_ ∈ [MatchExact; MatchTemplate; MatchPrefix])) then inl BadMatch
  else match validatePath (Path r) with
  | Some e => inl e
  | None =>
      if bool_decide (Methods r = []) then inl NoMethods
      else match normalize_methods [] (Methods r) with
      | inl e => inl e
      | inr methods =>
          match validateMatchPath (Path r) match_ with
          | inl e => inl e
          | inr placeholders =>
              if bool_decide (Parameters r = ∅)
              then inr (mkRoute (Path r) match_ (sort_strings methods) (Parameters r))
              else if negb (bool_decide (match_ = MatchTemplate)) then inl ParametersNeedTemplate
              else match normalize_parameters placeholders ∅ order with
                   | inl e => inl e
                   | inr params => inr (mkRoute (Path r) match_ (sort_strings methods) params)
                   end
          end
      end
  end.

(** ** Rendering *)

Definition matcher_text (name payload : string) : string := name +:+ "(`" +:+ payload +:+ "`)".

(** The pattern of one segment of a template. *)
Definition segment_pattern (params : gmap string (list string)) (segment : string) : string :=
  match cut_prefix ":" segment with
  | None => QuoteMeta segment
  | Some name =>
      match default [] (params !! name) with
      | [] => "[A-Za-z0-9._~-]+"
      | v :: vs => "(" +:+ bars (v :: vs) +:+ ")"
      end
  end.

Definition template_pattern (r : Route) : string :=
  "^" +:+ join (segment_pattern (Parameters r) <$> split slash (Path r)) +:+ "$".

(** [strings.HasSuffix] with a slash. *)
Fixpoint ends_with_slash (s : string) : bool :=
  match s with
  | EmptyString => false
  | String a EmptyString => bool_decide (a = slash)
  | String _ s' => ends_with_slash s'
  end.

(** [PathExpression] *)
Definition PathExpression (r : Route) : string :=
  if decide (Match r = MatchPrefix) then
    if bool_decide (Path r = "/") || ends_with_slash (Path r) then matcher_text "PathPrefix" (Path r)
    else "(" +:+ matcher_text "Path" (Path r) +:+ " || " +:+ matcher_text "PathPrefix" (Path r +:+ "/") +:+ ")"
  else if decide (Match r = MatchTemplate) then matcher_text "PathRegexp" (template_pattern r)
  else matcher_text "Path" (Path r).

(** [strings.Join] with the connective of alternatives. *)
Fixpoint join_or (l : list string) : string :=
  match l with
  | [] => ""
  | [w] => w
  | w :: l' => w +:+ " || " +:+ join_or l'
  end.

(** [MethodExpression] *)
Definition MethodExpression (methods : list string) : string :=
  match methods with
  | [m] => matcher_text "Method" m
  | _ => "(" +:+ join_or (matcher_text "Method" <$> methods) +:+ ")"
  end.

(** [strings.TrimSuffix] with a slash; [strings.Index] of ["/:"]. *)
Fixpoint trim_slash (s : string) : string :=
  match s with
  | EmptyString => EmptyString
  | String a s' =>
      match s' with
      | EmptyString => if decide (a = slash) then EmptyString else s
      | _ => String a (trim_slash s')
      end
  end.
Fixpoint before_placeholder (s : string) : string :=
  match s with
  | EmptyString => EmptyString
  | String a s' => if has_prefix s "/:" then EmptyString else String a (before_placeholder s')
  end.

(** [Covers] *)
Definition Covers (base : string) (public : Route) : bool :=
  if bool_decide (base = "") || bool_decide (base = "/") then true
  else
    let base := trim_slash base in
    let path := before_placeholder (Path public) in
    bool_decide (path = base) || has_prefix path (base +:+ "/").

(** ** The rule language *)

Inductive matcher_kind := KHost | KPath | KPathPrefix | KPathRegexp | KMethod.
Definition matcher : Type := matcher_kind * string.

Definition kind_name (k : matcher_kind) : string :=
  match k with
  | KHost => "Host" | KPath => "Path" | KPathPrefix => "PathPrefix" | KPathRegexp => "PathRegexp" | KMethod => "Method"
  end.
Definition kind_of (name : string) : option matcher_kind :=
  head (filter (λ k, kind_name k = name) [KHost; KPath; KPathPrefix; KPathRegexp; KMethod]).

Inductive token := TName (name : string) | TOpen | TClose | TAnd | TOr | TRaw (text : string).

(** What the lexer is in: code, with the name begun; a raw string; the middle of
    a connective. *)
Inductive lexing := InCode (name : string) | InRaw (text : string) | InAnd | InOr.

Definition named (name : string) (toks : list token) : list token :=
  if decide (name = "") then toks else TName name :: toks.

(** A raw string ends at the next backquote, and knows no escapes. *)
Fixpoint lex (s : string) (m : lexing) : option (list token) :=
  match s with
  | EmptyString => match m with InCode name => Some (named name []) | _ => None end
  | String a s' =>
      match m with
      | InCode name =>
          if is_letter a then lex s' (InCode (name +:+ String a ""))
          else if decide (a = "`"%char) then named name <$> lex s' (InRaw "")
          else if decide (a = "("%char) then (λ t, named name (TOpen :: t)) <$> lex s' (InCode "")
          else if decide (a = ")"%char) then (λ t, named name (TClose :: t)) <$> lex s' (InCode "")
          else if decide (a = " "%char) then named name <$> lex s' (InCode "")
          else if decide (a = "&"%char) then named name <$> lex s' InAnd
          else if decide (a = "|"%char) then named name <$> lex s' InOr
          else None
      | InRaw text =>
          if decide (a = "`"%char) then cons (TRaw text) <$> lex s' (InCode "")
          else lex s' (InRaw (text +:+ String a ""))
      | InAnd => if decide (a = "&"%char) then cons TAnd <$> lex s' (InCode "") else None
      | InOr => if decide (a = "|"%char) then cons TOr <$> lex s' (InCode "") else None
      end
  end.

(** A rule: a conjunction of alternatives. *)
Definition rule : Type := list (list matcher).

(** [operand]: a matcher or an opening parenthesis comes next; [open]: the
    alternatives of the open parenthesis, if there is one. *)
Fixpoint parse_rule (toks : list token) (operand : bool) (open : option (list matcher)) (acc : rule)
    : option rule :=
  match toks with
  | [] => if operand then None else match open with None => Some acc | Some _ => None end
  | tok :: rest =>
      if operand then
        match tok, open with
        | TOpen, None => parse_rule rest true (Some []) acc
        | TName name, _ =>
            match rest with
            | TOpen :: TRaw text :: TClose :: rest' =>
                k ← kind_of name;
                match open with
                | None => parse_rule rest' false None (acc ++ [[(k, text)]])
                | Some l => parse_rule rest' false (Some (l ++ [(k, text)])) acc
                end
            | _ => None
            end
        | _, _ => None
        end
      else
        match tok, open with
        | TAnd, None => parse_rule rest true None acc
        | TOr, Some l => parse_rule rest true (Some l) acc
        | TClose, Some l => parse_rule rest false None (acc ++ [l])
        | _, _ => None
        end
  end.

Definition read_rule (text : string) : option rule :=
  toks ← lex text (InCode ""); parse_rule toks true None [].

(** A request as the proxy sees it. *)
Record request := mkRequest { rq_host : string; rq_method : string; rq_path : string }.

Definition matches (q : request) (m : matcher) : Prop :=
  match m with
  | (KHost, h) => rq_host q = h
  | (KPath, p) => rq_path q = p
  | (KPathPrefix, p) => has_prefix (rq_path q) p = true
  | (KPathRegexp, e) => ∃ r, parse_regexp e = Some r ∧ search r (rq_path q)
  | (KMethod, m) => rq_method q = m
  end.

(** The rule with that text lets the request through. *)
Definition lets_through (text : string) (q : request) : Prop :=
  ∃ r, read_rule text = Some r ∧ Forall (Exists (matches q)) r.

(** ** What a route is meant to admit *)

Definition segment_admits (params : gmap string (list string)) (segment part : string) : bool :=
  match cut_prefix ":" segment with
  | None => bool_decide (part = segment)
  | Some name =>
      match default [] (params !! name) with
      | [] => segmentValue part
      | vs => bool_decide (part ∈ vs)
      end
  end.

Fixpoint segments_admit (params : gmap string (list string)) (segments parts : list string) : bool :=
  match segments, parts with
  | [], [] => true
  | seg :: segments', part :: parts' => segment_admits params seg part && segments_admit params segments' parts'
  | _, _ => false
  end.

Definition admits (r : Route) (path : string) : bool :=
  if decide (Match r = MatchPrefix) then
    if ends_with_slash (Path r) then has_prefix path (Path r)
    else bool_decide (path = Path r) || has_prefix path (Path r +:+ "/")
  else if decide (Match r = MatchTemplate) then
    segments_admit (Parameters r) (split slash (Path r)) (split slash path)
  else bool_decide (path = Path r).

Example template_ex :
  PathExpression (mkRoute "/v1/:kind/a.b/:id" MatchTemplate ["GET"] {[ "kind" := ["x.y"; "z"] ]}) =
  "PathRegexp(`^/v1/(x\.y|z)/a\.b/[A-Za-z0-9._~-]+$`)".
Proof. vm_compute. reflexivity. Qed.
Example methods_ex : MethodExpression ["GET"; "POST"] = "(Method(`GET`) || Method(`POST`))".
Proof. reflexivity. Qed.

(** ** Reading rules back *)

(** A matcher, and alternatives, as text. *)
Definition text_of (m : matcher) : string := matcher_text (kind_name (fst m)) (snd m).
Definition alternatives (l : list matcher) : string :=
  match l with
  | [m] => text_of m
  | _ => "(" +:+ join_or (text_of <$> l) +:+ ")"
  end.
Definition tokens_of (m : matcher) : list token := [TName (kind_name (fst m)); TOpen; TRaw (snd m); TClose].
Fixpoint or_tokens (l : list matcher) : list token :=
  match l with
  | [] => []
  | [m] => tokens_of m
  | m :: l' => tokens_of m ++ TOr :: or_tokens l'
  end.
Definition alt_tokens (l : list matcher) : list token :=
  match l with [m] => tokens_of m | _ => TOpen :: or_tokens l ++ [TClose] end.

Abbreviation quotable := (λ m : matcher, no_char "`" (snd m)).

Lemma lex_raw p acc rest :
  no_char "`" p → lex (p +:+ String "`" rest) (InRaw acc) = cons (TRaw (acc +:+ p)) <$> lex rest (InCode "").
Proof.
  revert acc. induction p as [|a p IH]; intros acc.
  - intros _. rewrite append_empty_l, append_nil_r. cbn. by rewrite decide_True.
  - intros [Ha Hp]. rewrite append_cons. cbn [lex]. rewrite decide_False by done. rewrite IH by done.
    by rewrite append_assoc.
Qed.

Lemma lex_kind k rest : lex (kind_name k +:+ String "(" rest) (InCode "") =
  (λ t, TName (kind_name k) :: TOpen :: t) <$> lex rest (InCode "").
Proof. by destruct k. Qed.

Lemma lex_matcher m rest :
  quotable m → lex (text_of m +:+ rest) (InCode "") = app (tokens_of m) <$> lex rest (InCode "").
Proof.
  intros Hp. unfold text_of, matcher_text. destruct m as [k p]. cbn [fst snd] in *.
  replace ((kind_name k +:+ "(`" +:+ p +:+ "`)") +:+ rest)
    with (kind_name k +:+ String "(" (String "`" (p +:+ String "`" (String ")" rest))))
    by (rewrite !append_assoc; reflexivity).
  rewrite lex_kind. change (lex (String "`" ?x) (InCode "")) with (named "" <$> lex x (InRaw "")).
  rewrite lex_raw by done. change (lex (String ")" rest) (InCode "")) with ((λ t, named "" (TClose :: t)) <$> lex rest (InCode "")).
  by destruct (lex rest (InCode "")).
Qed.

Lemma lex_or l rest :
  l ≠ [] → Forall quotable l →
  lex (join_or (text_of <$> l) +:+ rest) (InCode "") = app (or_tokens l) <$> lex rest (InCode "").
Proof.
  intros Hl Hq. induction l as [|m l IH]; [done|]. apply Forall_cons in Hq as [Hm Hq]. destruct l as [|m' l].
  - by apply lex_matcher.
  - change (join_or (text_of <$> m :: m' :: l)) with (text_of m +:+ " || " +:+ join_or (text_of <$> m' :: l)).
    rewrite append_assoc, lex_matcher by done. rewrite append_assoc.
    change (lex (" || " +:+ ?x) (InCode "")) with (named "" <$> (named "" <$> (cons TOr <$> (named "" <$> lex x (InCode ""))))).
    rewrite IH by done. destruct (lex rest (InCode "")); reflexivity.
Qed.

Lemma lex_alternatives l rest :
  l ≠ [] → Forall quotable l →
  lex (alternatives l +:+ rest) (InCode "") = app (alt_tokens l) <$> lex rest (InCode "").
Proof.
  intros Hl Hq. destruct l as [|m [|m' l]]; [done| |].
  - apply Forall_cons in Hq as [Hm _]. by apply lex_matcher.
  - unfold alternatives, alt_tokens. rewrite !append_assoc.
    change (lex ("(" +:+ ?x) (InCode "")) with ((λ t, named "" (TOpen :: t)) <$> lex x (InCode "")).
    rewrite lex_or by done.
    change (lex (")" +:+ rest) (InCode "")) with ((λ t, named "" (TClose :: t)) <$> lex rest (InCode "")).
    destruct (lex rest (InCode "")) as [toks|]; [|done]. cbn [fmap option_fmap option_map].
    cbn [app]. rewrite <- app_assoc. reflexivity.
Qed.

Lemma kind_of_name k : kind_of (kind_name k) = Some k.
Proof. by destruct k. Qed.

Lemma parse_matcher m rest open acc :
  parse_rule (tokens_of m ++ rest) true open acc =
  match open with
  | None => parse_rule rest false None (acc ++ [[m]])
  | Some l => parse_rule rest false (Some (l ++ [m])) acc
  end.
Proof. destruct m as [k p]. cbn. rewrite kind_of_name. by destruct open. Qed.

Lemma parse_or l rest done acc :
  l ≠ [] →
  parse_rule (or_tokens l ++ TClose :: rest) true (Some done) acc = parse_rule rest false None (acc ++ [done ++ l]).
Proof.
  revert done. induction l as [|m l IH]; intros done Hl; [congruence|]. destruct l as [|m' l].
  - cbn [or_tokens]. by rewrite parse_matcher.
  - change (or_tokens (m :: m' :: l)) with (tokens_of m ++ TOr :: or_tokens (m' :: l)).
    rewrite <- app_assoc, parse_matcher. cbn [app].
    change (parse_rule (TOr :: ?x) false (Some ?y) acc) with (parse_rule x true (Some y) acc).
    rewrite IH by congruence. by rewrite <- app_assoc.
Qed.

Lemma parse_alternatives l rest acc :
  l ≠ [] → parse_rule (alt_tokens l ++ rest) true None acc = parse_rule rest false None (acc ++ [l]).
Proof.
  intros Hl. destruct l as [|m [|m' l]]; [done| |].
  - cbn [alt_tokens]. by rewrite parse_matcher.
  - unfold alt_tokens. cbn [app]. rewrite <- app_assoc.
    change (parse_rule (TOpen :: ?x) true None acc) with (parse_rule x true (Some []) acc).
    cbn [app]. by rewrite parse_or.
Qed.

(** Conjuncts as the proxy files write them. *)
Fixpoint conjunction (r : rule) : string :=
  match r with
  | [] => ""
  | [l] => alternatives l
  | l :: r' => alternatives l +:+ " && " +:+ conjunction r'
  end.

(** The text of a rule reads back as the rule, as long as no payload has a
    backquote: nothing a payload holds can reach the language. *)
Lemma read_conjunction r :
  r ≠ [] → Forall (λ l, l ≠ [] ∧ Forall quotable l) r → read_rule (conjunction r) = Some r.
Proof.
  intros Hr Hq. unfold read_rule.
  assert (∀ r, r ≠ [] → Forall (λ l, l ≠ [] ∧ Forall quotable l) r →
    ∃ toks, lex (conjunction r) (InCode "") = Some toks ∧ ∀ acc, parse_rule toks true None acc = Some (acc ++ r)) as Hgen.
  { clear. induction r as [|l r IH]; [done|]. intros _ [[Hl Hq] Hr]%Forall_cons. destruct r as [|l' r].
    - exists (alt_tokens l). split.
      + rewrite <- (append_nil_r (conjunction [l])). cbn [conjunction]. rewrite lex_alternatives by done.
        cbn. by rewrite app_nil_r.
      + intros acc. rewrite <- (app_nil_r (alt_tokens l)), parse_alternatives by done. done.
    - destruct (IH ltac:(done) Hr) as (toks & Hlex & Hparse).
      exists (alt_tokens l ++ TAnd :: toks). split.
      + change (conjunction (l :: l' :: r)) with (alternatives l +:+ " && " +:+ conjunction (l' :: r)).
        rewrite lex_alternatives by done.
        change (lex (" && " +:+ ?x) (InCode "")) with (named "" <$> (named "" <$> (cons TAnd <$> (named "" <$> lex x (InCode ""))))).
        by rewrite Hlex.
      + intros acc. rewrite parse_alternatives by done.
        change (parse_rule (TAnd :: toks) false None ?a) with (parse_rule toks true None a).
        rewrite Hparse, <- app_assoc. done. }
  destruct (Hgen r Hr Hq) as (toks & -> & Hp). cbn. by rewrite Hp.
Qed.

(** A conjunction of two matchers. *)
Lemma two_matchers m1 m2 q :
  quotable m1 → quotable m2 → lets_through (conjunction [[m1]; [m2]]) q ↔ matches q m1 ∧ matches q m2.
Proof.
  intros H1 H2. unfold lets_through. rewrite read_conjunction; [|done|by repeat constructor]. split.
  - intros (r & [= <-] & [Ha [Hb _]%Forall_cons]%Forall_cons).
    apply Exists_cons in Ha as [Ha|Ha]; [|by apply Exists_nil in Ha].
    apply Exists_cons in Hb as [Hb|Hb]; [|by apply Exists_nil in Hb]. done.
  - intros [? ?]. eexists. split; [done|]. by repeat constructor.
Qed.

(** ** Templates *)

Definition unreserved_class : list (ascii * ascii) :=
  [("A", "Z"); ("a", "z"); ("0", "9"); (".", "."); ("_", "_"); ("~", "~"); ("-", "-")]%char.

Definition segment_items (params : gmap string (list string)) (segment : string) : list re :=
  match cut_prefix ":" segment with
  | None => word segment
  | Some name =>
      match default [] (params !! name) with
      | [] => [RPlus (RCls unreserved_class)]
      | v :: vs => [one_of v vs]
      end
  end.

Fixpoint join_items (l : list (list re)) : list re :=
  match l with
  | [] => []
  | [i] => i
  | i :: l' => i ++ RChr slash :: join_items l'
  end.

Lemma in_unreserved_class c : in_class unreserved_class c = unreserved c.
Proof. destruct c as [[] [] [] [] [] [] [] []]; vm_compute; reflexivity. Qed.

Lemma all_chars_ext p q s : (∀ c, p c = q c) → all_chars p s = all_chars q s.
Proof. intros H. induction s as [|c s IH]; [done|]. cbn. by rewrite H, IH. Qed.

Lemma all_chars_impl p q s : (∀ c, p c = true → q c = true) → all_chars p s = true → all_chars q s = true.
Proof.
  intros H. induction s as [|c s IH]; [done|]. cbn. intros [Hc Hs]%andb_true_iff. by rewrite (H c Hc), IH.
Qed.

Lemma all_chars_no c p s : p c = false → all_chars p s = true → no_char c s.
Proof.
  intros Hc. induction s as [|a s IH]; [done|]. cbn. intros [Ha Hs]%andb_true_iff. split; [congruence|auto].
Qed.

Lemma unreserved_ascii c : unreserved c = true → is_ascii c = true.
Proof. destruct c as [[] [] [] [] [] [] [] []]; vm_compute; done. Qed.

(** The allowed values of a parameter are nonempty words of unreserved
    characters. *)
Definition params_ok (params : gmap string (list string)) : Prop :=
  ∀ name vs v, params !! name = Some vs → v ∈ vs → segmentValue v = true.

Lemma segmentValue_chars v : segmentValue v = true → all_chars unreserved v = true.
Proof. unfold segmentValue. by intros [_ ?]%andb_true_iff. Qed.

Section Template.
Context (params : gmap string (list string)) (Hparams : params_ok params).

Lemma values_ok name v : v ∈ default [] (params !! name) → segmentValue v = true.
Proof. destruct (params !! name) as [vs|] eqn:E; cbn; [by eapply Hparams|set_solver]. Qed.

Lemma feed_segment seg st :
  all_chars is_ascii seg = true → rg_mode st = Normal →
  feed (segment_pattern params seg) st = Some (add_items st (segment_items params seg)).
Proof.
  intros Ha Hm. unfold segment_pattern, segment_items. destruct (cut_prefix ":" seg) as [name|]; [|by apply feed_quote].
  pose proof (values_ok name) as Hv. destruct (default [] (params !! name)) as [|v vs].
  - destruct st as [stack [alt items] m]. cbn in Hm. by subst.
  - apply feed_one_of; [|done]. apply Forall_forall. intros w Hw.
    eapply all_chars_impl; [apply unreserved_ascii|]. by apply segmentValue_chars, Hv.
Qed.

Lemma feed_segments segs st :
  Forall (λ seg, all_chars is_ascii seg = true) segs → rg_mode st = Normal →
  feed (join (segment_pattern params <$> segs)) st = Some (add_items st (join_items (segment_items params <$> segs))).
Proof.
  revert st. induction segs as [|seg segs IH]; intros st Hs Hm.
  { destruct st as [stack [alt items] m]. cbn in *. by subst. }
  apply Forall_cons in Hs as [Ha Hs]. destruct segs as [|seg' segs]; [by apply feed_segment|].
  change (join (segment_pattern params <$> seg :: seg' :: segs))
    with (segment_pattern params seg +:+ String slash (join (segment_pattern params <$> seg' :: segs))).
  rewrite feed_app, feed_segment by done. cbn [mbind option_bind feed].
  change (read_char (add_items st (segment_items params seg)) slash)
    with (Some (add_items (add_items st (segment_items params seg)) [RChr slash])).
  cbn [mbind option_bind]. rewrite IH by done. rewrite !add_items_app. reflexivity.
Qed.

Lemma lang_segment seg : lang (cat_of (segment_items params seg)) (λ s, segment_admits params seg s = true).
Proof.
  unfold segment_items, segment_admits. destruct (cut_prefix ":" seg) as [name|].
  - destruct (default [] (params !! name)) as [|v vs].
    + eapply lang_ext; [|apply lang_one, lang_plus_cls]. intros s. cbn. unfold segmentValue.
      rewrite (all_chars_ext _ _ s in_unreserved_class), andb_true_iff, bool_decide_eq_true. done.
    + eapply lang_ext; [|apply lang_one, lang_one_of]. intros s. cbn. by rewrite bool_decide_eq_true.
  - eapply lang_ext; [|apply lang_word]. intros s. cbn. by rewrite bool_decide_eq_true.
Qed.

Lemma lang_segments segs :
  segs ≠ [] →
  lang (cat_of (join_items (segment_items params <$> segs)))
    (λ s, ∃ parts, s = join parts ∧ segments_admit params segs parts = true).
Proof.
  induction segs as [|seg segs IH]; [done|]. intros _. destruct segs as [|seg' segs].
  - cbn [fmap list_fmap join_items]. eapply lang_ext; [|apply lang_segment]. intros s. cbn. split.
    + intros Hs. exists [s]. cbn. by rewrite Hs.
    + intros ([|p [|? ?]] & -> & Hp); cbn in *; [done| |by rewrite andb_false_r in Hp]. by rewrite andb_true_r in Hp.
  - change (join_items (segment_items params <$> seg :: seg' :: segs))
      with (segment_items params seg ++ [RChr slash] ++ join_items (segment_items params <$> seg' :: segs)).
    eapply lang_ext; [|apply lang_app; [apply lang_segment|apply lang_app; [apply lang_one, lang_chr|by apply IH]]].
    intros s. cbn [segments_admit]. split.
    + intros (a & b & -> & Ha & c & d & -> & -> & parts & -> & Hp). exists (a :: parts).
      destruct parts as [|p parts]; [done|]. split; [done|]. by rewrite Ha.
    + intros ([|a parts] & -> & Hp); [done|]. apply andb_true_iff in Hp as [Ha Hp].
      destruct parts as [|p parts]; [done|]. exists a, (String slash (join (p :: parts))). split; [done|].
      split; [done|]. exists (String slash ""), (join (p :: parts)). eauto.
Qed.

Lemma admitted_part seg part : no_char slash seg → segment_admits params seg part = true → no_char slash part.
Proof.
  intros Hseg. unfold segment_admits. destruct (cut_prefix ":" seg) as [name|].
  - assert (segmentValue part = true → no_char slash part) as Hno.
    { intros Hv. eapply (all_chars_no _ unreserved); [done|]. by apply segmentValue_chars. }
    pose proof (values_ok name part) as Hv. destruct (default [] (params !! name)) as [|v vs]; [done|].
    rewrite bool_decide_eq_true. auto.
  - by rewrite bool_decide_eq_true; intros ->.
Qed.

Lemma admitted_parts segs parts :
  Forall (no_char slash) segs → segments_admit params segs parts = true → Forall (no_char slash) parts ∧ length parts = length segs.
Proof.
  revert parts. induction segs as [|seg segs IH]; intros [|p parts]; try done.
  intros [Hseg Hs]%Forall_cons. cbn. intros [Hp Hrest]%andb_true_iff. destruct (IH parts Hs Hrest) as [? ->].
  split; [|done]. constructor; [by eapply admitted_part|done].
Qed.

Lemma parse_template segs :
  Forall (λ seg, all_chars is_ascii seg = true) segs →
  parse_regexp ("^" +:+ join (segment_pattern params <$> segs) +:+ "$") =
  Some (cat_of ([RBol] ++ join_items (segment_items params <$> segs) ++ [REol])).
Proof.
  intros Ha. unfold parse_regexp. change ("^" +:+ ?x) with (String "^" x). cbn [feed].
  change (read_char (mkReading [] (None, []) Normal) "^") with (Some (add_items (mkReading [] (None, []) Normal) [RBol])).
  cbn [mbind option_bind]. rewrite feed_app, feed_segments by done. rewrite add_items_app. cbn [mbind option_bind feed].
  change (read_char (add_items ?st ?l) "$") with (Some (add_items (add_items st l) [REol])).
  rewrite add_items_app. cbn [mbind option_bind add_items rg_stack rg_mode rg_group close_group fst snd].
  by rewrite app_nil_r, reverse_involutive, app_assoc.
Qed.

Lemma template_matches path target :
  all_chars is_ascii path = true →
  (∃ r, parse_regexp ("^" +:+ join (segment_pattern params <$> split slash path) +:+ "$") = Some r ∧ search r target) ↔
  segments_admit params (split slash path) (split slash target) = true.
Proof.
  intros Ha. assert (Forall (λ seg, all_chars is_ascii seg = true) (split slash path)) as Hsegs.
  { clear -Ha. induction path as [|c path IH]; [by repeat constructor|]. cbn in *.
    apply andb_true_iff in Ha as [Hc Ha]. specialize (IH Ha). destruct (decide (c = slash)); [by constructor|].
    destruct (split slash path) as [|w ws]; [constructor; [cbn; by rewrite Hc|done]|].
    apply Forall_cons in IH as [? ?]. constructor; [cbn; by rewrite Hc|done]. }
  rewrite parse_template by done. pose proof (split_no_char slash path) as Hno. pose proof (split_not_nil slash path) as Hne.
  split.
  - intros (r & Hr & Hs). apply (inj Some) in Hr as <-. apply (search_anchored _ _ _ (lang_segments _ Hne)) in Hs.
    destruct Hs as (parts & -> & Hp). destruct (admitted_parts _ _ Hno Hp) as [Hparts Hlen].
    rewrite split_join; [done| |done]. intros ->. by destruct (split slash path).
  - intros Hp. eexists. split; [done|]. apply (search_anchored _ _ _ (lang_segments _ Hne)).
    exists (split slash target). split; [|done]. symmetry. apply join_split.
Qed.
End Template.

(** ** What validation establishes *)

Lemma normalize_methods_spec methods out ms :
  normalize_methods out methods = inr ms →
  NoDup out → Forall (λ m, methodToken m = true) out →
  NoDup ms ∧ Forall (λ m, methodToken m = true) ms ∧ out ⊆ ms ∧ (methods ≠ [] → ms ≠ []).
Proof.
  revert out. induction methods as [|raw methods IH]; intros out; cbn; [by intros [= <-]|].
  set (m := ToUpper (trim_space raw)). destruct (bool_decide (m = "") || negb (methodToken m)) eqn:E; [done|].
  apply orb_false_iff in E as [_ E]. apply negb_false_iff in E. intros H Hnd Hall.
  set (out' := if bool_decide (m ∈ out) then out else out ++ [m]) in *.
  assert (NoDup out' ∧ Forall (λ m, methodToken m = true) out' ∧ out ⊆ out' ∧ m ∈ out') as (H1 & H2 & H3 & H4).
  { unfold out'. case_bool_decide; [done|]. split_and!; [|apply Forall_app; auto|set_solver|set_solver].
    apply NoDup_app. split_and!; [done|set_solver|apply NoDup_singleton]. }
  destruct (IH out' H H1 H2) as (? & ? & Hsub & _). split_and!; [done|done|set_solver|]. intros _ ->. set_solver.
Qed.

Definition param_ok (placeholders : gset string) (p : string * list string) : Prop :=
  fst p ∈ placeholders ∧ snd p ≠ [] ∧ bad_value (snd p) = None.

Lemma normalize_parameters_spec ph l out p :
  NoDup (fst <$> l) →
  normalize_parameters ph out l = inr p ↔
  Forall (param_ok ph) l ∧ p = (normalize_values <$> list_to_map l) ∪ out.
Proof.
  revert out. induction l as [|[name vs] l IH]; intros out; cbn [normalize_parameters].
  { intros _. rewrite Forall_nil. cbn. rewrite fmap_empty, (left_id_L ∅ (∪)). naive_solver. }
  rewrite fmap_cons, NoDup_cons. intros [Hname Hnd]. rewrite Forall_cons. unfold param_ok at 1. cbn [fst snd].
  destruct (bool_decide (name ∈ ph)) eqn:E1; [apply bool_decide_eq_true in E1|apply bool_decide_eq_false in E1; cbn; naive_solver].
  cbn. destruct (bool_decide (vs = [])) eqn:E2; [apply bool_decide_eq_true in E2; naive_solver|apply bool_decide_eq_false in E2].
  destruct (bad_value vs) as [v|] eqn:E3; [naive_solver|]. rewrite IH by done.
  assert ((normalize_values <$> list_to_map l) ∪ <[ name := normalize_values vs ]> out =
          (normalize_values <$> <[ name := vs ]> (list_to_map l : gmap string (list string))) ∪ out) as ->.
  { rewrite fmap_insert, <- insert_union_l, <- insert_union_r; [done|].
    rewrite lookup_fmap, (not_elem_of_list_to_map_1 l name) by done. done. }
  naive_solver.
Qed.

Lemma bad_value_None vs : bad_value vs = None ↔ Forall (λ v, v ≠ "." ∧ v ≠ ".." ∧ segmentValue v = true) vs.
Proof.
  induction vs as [|v vs IH]; cbn; [by rewrite Forall_nil|]. rewrite Forall_cons, <- IH.
  destruct (decide (v = ".")); [rewrite bool_decide_true by done; cbn; naive_solver|].
  destruct (decide (v = "..")); [rewrite (bool_decide_true (v = "..")) by done; rewrite orb_true_r; cbn; naive_solver|].
  rewrite !bool_decide_false by done. cbn. destruct (segmentValue v); naive_solver.
Qed.

Lemma normalize_values_elem vs v : v ∈ normalize_values vs ↔ v ∈ vs.
Proof. unfold normalize_values. rewrite sort_strings_perm, elem_of_elements, elem_of_list_to_set. done. Qed.

Lemma normalize_values_idem vs : normalize_values (normalize_values vs) = normalize_values vs.
Proof.
  unfold normalize_values. apply sort_strings_unique. f_equiv. intros v.
  rewrite elem_of_list_to_set. rewrite sort_strings_perm, elem_of_elements. done.
Qed.

(** The outcome of [Validate], without the order of iteration. *)
Definition match_of (r : Route) : string := if decide (Match r = "") then MatchExact else Match r.

Lemma Validate_spec order i r :
  order ≡ₚ map_to_list (Parameters i) →
  Validate order i = inr r ↔
  match_of i ∈ [MatchExact; MatchTemplate; MatchPrefix] ∧ validatePath (Path i) = None ∧ Methods i ≠ [] ∧
  ∃ ms ph, normalize_methods [] (Methods i) = inr ms ∧ validateMatchPath (Path i) (match_of i) = inr ph ∧
    (Parameters i ≠ ∅ → match_of i = MatchTemplate) ∧
    map_Forall (λ n vs, param_ok ph (n, vs)) (Parameters i) ∧
    r = mkRoute (Path i) (match_of i) (sort_strings ms) (normalize_values <$> Parameters i).
Proof.
  intros Hord. unfold Validate. cbv zeta. fold (match_of i).
  assert (NoDup (fst <$> order)) as Hnd by (rewrite Hord; apply NoDup_fst_map_to_list).
  assert (list_to_map order = Parameters i) as Hmap.
  { rewrite <- (list_to_map_to_list (Parameters i)). apply list_to_map_proper; done. }
  destruct (bool_decide (match_of i ∈ _)) eqn:E1; [apply bool_decide_eq_true in E1|apply bool_decide_eq_false in E1; naive_solver].
  cbn [negb]. destruct (validatePath (Path i)) as [e|]; [naive_solver|].
  destruct (bool_decide (Methods i = [])) eqn:E2; [apply bool_decide_eq_true in E2; naive_solver|apply bool_decide_eq_false in E2].
  destruct (normalize_methods [] (Methods i)) as [e|ms]; [naive_solver|].
  destruct (validateMatchPath (Path i) (match_of i)) as [e|ph]; [naive_solver|].
  destruct (bool_decide (Parameters i = ∅)) eqn:E3.
  { apply bool_decide_eq_true in E3. rewrite E3, fmap_empty. split.
    - intros [= <-]. split_and!; [done..|]. exists ms, ph. split_and!; try done.
    - intros (_ & _ & _ & ? & ? & [= <-] & [= <-] & _ & _ & ->). done. }
  apply bool_decide_eq_false in E3.
  destruct (bool_decide (match_of i = MatchTemplate)) eqn:E4; [apply bool_decide_eq_true in E4|apply bool_decide_eq_false in E4; naive_solver].
  cbn [negb]. destruct (normalize_parameters ph ∅ order) as [e|p] eqn:En.
  - split; [done|]. intros (_ & _ & _ & ? & ? & _ & [= <-] & _ & Hall & _). exfalso.
    assert (normalize_parameters ph ∅ order = inr ((normalize_values <$> list_to_map order) ∪ ∅)) as Hc; [|congruence].
    apply normalize_parameters_spec; [done|]. split; [|done].
    rewrite Hord. rewrite map_Forall_to_list in Hall. eapply Forall_impl; [exact Hall|]. by intros [? ?].
  - apply normalize_parameters_spec in En as [Hall ->]; [|done]. rewrite Hmap, (right_id_L ∅ (∪)). split.
    + intros [= <-]. split_and!; [done..|]. exists ms, ph. split_and!; try done.
      rewrite map_Forall_to_list, <- Hord. eapply Forall_impl; [exact Hall|]. by intros [? ?].
    + intros (_ & _ & _ & ? & ? & [= <-] & [= <-] & _ & _ & ->). done.
Qed.

(** *** Normal forms *)

Definition token_char (c : ascii) : bool := is_upper c || is_number c || bool_decide (c ∈ method_symbols).

Lemma token_char_plain c : token_char c = true → plain c ∧ upper_byte c = c ∧ byte_val c < 128.
Proof. destruct c as [[] [] [] [] [] [] [] []]; vm_compute; try done; intros _; split_and!; done. Qed.

Lemma methodToken_chars m : methodToken m = true → all_chars token_char m = true.
Proof.
  destruct m as [|c m]; [done|]. unfold methodToken. fold token_char. cbn [all_chars]. intros [Hc Hm]%andb_true_iff.
  unfold token_char at 1. rewrite Hc. exact Hm.
Qed.

Lemma ToUpper_token m : all_chars token_char m = true → ToUpper m = m.
Proof.
  induction m as [|a m IH]; [done|]. cbn [all_chars]. intros [Ha Hm]%andb_true_iff. specialize (IH Hm).
  destruct (token_char_plain a Ha) as (_ & Hup & Hlt). destruct m as [|b m]; [cbn; by rewrite Hup|].
  cbn [ToUpper]. rewrite (proj2 (Z.eqb_neq (byte_val a) 196)), (proj2 (Z.eqb_neq (byte_val a) 197)) by lia. cbn [andb].
  cbn [ToUpper] in IH. by rewrite Hup, IH.
Qed.

Lemma token_stays m : methodToken m = true → ToUpper (trim_space m) = m.
Proof.
  intros Hm%methodToken_chars. rewrite <- (String.string_of_list_ascii_of_string m).
  rewrite trim_space_plain; [by rewrite String.string_of_list_ascii_of_string; apply ToUpper_token|].
  induction m as [|a m IH]; [constructor|]. cbn in *. apply andb_true_iff in Hm as [Ha Hm].
  constructor; [by apply token_char_plain|auto].
Qed.

Lemma normalize_methods_id out l :
  NoDup (out ++ l) → Forall (λ m, methodToken m = true) l → normalize_methods out l = inr (out ++ l).
Proof.
  revert out. induction l as [|m l IH]; intros out Hnd; cbn; [by rewrite app_nil_r|].
  intros [Hm Hl]%Forall_cons. rewrite token_stays, Hm by done.
  rewrite bool_decide_false by (by intros ->). cbn. rewrite bool_decide_false.
  - rewrite IH; [by rewrite <- app_assoc|by rewrite <- app_assoc|done].
  - intros Hin. apply NoDup_app in Hnd as (_ & Hno & _). apply (Hno m Hin). left.
Qed.

(** Validation has one answer and it is a normal form: whatever the order
    the parameters are iterated in, an accepted route is accepted with the same
    result, and validating the result changes nothing — so a route stored,
    read back and validated again is the same route. *)
Theorem Validate_normal_form order i r :
  order ≡ₚ map_to_list (Parameters i) → Validate order i = inr r →
  (∀ order', order' ≡ₚ map_to_list (Parameters i) → Validate order' i = inr r) ∧
  (∀ order', order' ≡ₚ map_to_list (Parameters r) → Validate order' r = inr r).
Proof.
  intros Hord Hv. apply (Validate_spec order) in Hv; [|done]. split; intros order' Hord'; apply Validate_spec; try done.
  destruct Hv as (Hm & Hp & Hme & ms & ph & Hms & Hph & Htpl & Hall & ->).
  assert (match_of (mkRoute (Path i) (match_of i) (sort_strings ms) (normalize_values <$> Parameters i)) = match_of i) as Hmatch.
  { unfold match_of at 1. cbn. rewrite decide_False; [done|]. intros E. rewrite E in Hm. set_solver. }
  destruct (normalize_methods_spec _ _ _ Hms) as (Hnd & Htok & _ & Hne); [constructor..|].
  rewrite Hmatch. cbn [Path Methods Parameters]. split_and!; try done.
  { intros E. apply (Hne Hme). apply Permutation_nil. by rewrite <- E, sort_strings_perm. }
  exists (sort_strings ms), ph. split_and!; try done.
  - rewrite normalize_methods_id; [done| |].
    + cbn. by rewrite sort_strings_perm.
    + by rewrite sort_strings_perm.
  - intros He. apply Htpl. intros E. by rewrite E, fmap_empty in He.
  - intros n vs. rewrite lookup_fmap. intros (vs' & Hl & ->)%fmap_Some. destruct (Hall n vs' Hl) as (? & Hne' & Hbad).
    split; [done|]. cbn in *. split.
    + intros E. destruct vs' as [|v vs']; [done|]. apply (not_elem_of_nil (A := string) v).
      rewrite <- E. apply normalize_values_elem. left.
    + apply bad_value_None. apply bad_value_None in Hbad. rewrite Forall_forall in *. intros v Hv.
      by apply Hbad, normalize_values_elem.
  - f_equal.
    + apply sort_strings_unique. by rewrite sort_strings_perm.
    + apply map_eq. intros n. rewrite !lookup_fmap. destruct (Parameters i !! n); cbn; [|done].
      by rewrite normalize_values_idem.
Qed.

(** *** The rule of an accepted route *)

Lemma validatePath_ok path : validatePath path = None → has_prefix path "/" = true ∧ no_char "`" path.
Proof.
  unfold validatePath. destruct (decide (path = "")); [done|]. destruct (maxPathBytes <? _); [done|].
  destruct (has_prefix path "/"); [|done]. cbn [negb].
  destruct (all_chars _ path) eqn:Hc; [|done]. intros _. split; [done|]. by eapply all_chars_no; [|exact Hc].
Qed.

Lemma no_char_append c a b : no_char c (a +:+ b) ↔ no_char c a ∧ no_char c b.
Proof. induction a as [|x a IH]; [rewrite append_empty_l; cbn; tauto|]. rewrite append_cons. cbn. rewrite IH. tauto. Qed.

Lemma QuoteMeta_no c s : c ≠ "\"%char → no_char c s → no_char c (QuoteMeta s).
Proof.
  intros Hc. induction s as [|a s IH]; [done|]. cbn. intros [Ha Hs]. destruct (special a); cbn; naive_solver.
Qed.

Lemma bars_no c ws : c ≠ "\"%char → c ≠ "|"%char → Forall (no_char c) ws → no_char c (bars ws).
Proof.
  intros H1 H2. induction ws as [|w ws IH]; [done|]. intros [Hw Hws]%Forall_cons. specialize (IH Hws).
  destruct ws as [|v ws]; [by apply QuoteMeta_no|].
  change (bars (w :: v :: ws)) with (QuoteMeta w +:+ String "|" (bars (v :: ws))).
  apply no_char_append. split; [by apply QuoteMeta_no|]. by split.
Qed.

Lemma join_no c l : c ≠ slash → Forall (no_char c) l → no_char c (join l).
Proof.
  intros Hc. induction l as [|w l IH]; [done|]. intros [Hw Hl]%Forall_cons. specialize (IH Hl).
  destruct l as [|v l]; [done|]. change (join (w :: v :: l)) with (w +:+ String slash (join (v :: l))).
  apply no_char_append. split; [done|]. by split.
Qed.

Lemma split_keeps_out c s : no_char c s → Forall (no_char c) (split slash s).
Proof.
  induction s as [|a s IH]; cbn; [by repeat constructor|]. intros [Ha Hs]. specialize (IH Hs).
  destruct (decide (a = slash)); [by constructor|]. destruct (split slash s); [by repeat constructor|].
  apply Forall_cons in IH as [? ?]. by repeat constructor.
Qed.

Lemma template_pattern_quotable r : params_ok (Parameters r) → no_char "`" (Path r) → no_char "`" (template_pattern r).
Proof.
  intros Hp Hn. unfold template_pattern. apply no_char_append. split; [done|]. apply no_char_append. split; [|done].
  apply join_no; [done|]. apply Forall_fmap. eapply Forall_impl; [by apply split_keeps_out|].
  intros seg Hseg. unfold compose, segment_pattern. destruct (cut_prefix ":" seg) as [name|]; [|by apply QuoteMeta_no].
  pose proof (values_ok _ Hp name) as Hv. destruct (default [] (Parameters r !! name)) as [|v vs]; [done|].
  apply no_char_append. split; [done|]. apply no_char_append. split; [|done].
  apply bars_no; [done..|]. apply Forall_forall. intros w Hw.
  eapply (all_chars_no _ unreserved); [done|]. by apply segmentValue_chars, Hv.
Qed.

(** The matchers [PathExpression] writes. *)
Definition path_matchers (r : Route) : list matcher :=
  if decide (Match r = MatchPrefix) then
    if bool_decide (Path r = "/") || ends_with_slash (Path r) then [(KPathPrefix, Path r)]
    else [(KPath, Path r); (KPathPrefix, Path r +:+ "/")]
  else if decide (Match r = MatchTemplate) then [(KPathRegexp, template_pattern r)]
  else [(KPath, Path r)].

Lemma PathExpression_matchers r : PathExpression r = alternatives (path_matchers r).
Proof.
  unfold PathExpression, path_matchers. destruct (decide (Match r = MatchPrefix)).
  - destruct (_ || _); [done|]. unfold alternatives. cbn [fmap list_fmap join_or]. by rewrite !append_assoc.
  - by destruct (decide (Match r = MatchTemplate)).
Qed.

Lemma MethodExpression_matchers ms : MethodExpression ms = alternatives ((KMethod,.) <$> ms).
Proof.
  destruct ms as [|m [|m' ms]]; [done|done|]. unfold MethodExpression, alternatives. cbn [fmap list_fmap].
  change (text_of <$> ?l) with (list_fmap _ _ text_of l). repeat f_equal.
  rewrite <- list_fmap_compose. done.
Qed.

(** What a valid route provides to its readers. *)
Record valid_route (r : Route) : Prop := {
  vr_rooted : has_prefix (Path r) "/" = true;
  vr_quotable : no_char "`" (Path r);
  vr_params : params_ok (Parameters r);
  vr_methods : Methods r ≠ []
}.

Lemma Validate_valid order i r :
  order ≡ₚ map_to_list (Parameters i) → Validate order i = inr r → valid_route r.
Proof.
  intros Hord Hv. apply (Validate_spec order) in Hv; [|done].
  destruct Hv as (_ & Hp & Hme & ms & ph & Hms & _ & _ & Hall & ->). apply validatePath_ok in Hp as [? ?].
  destruct (normalize_methods_spec _ _ _ Hms) as (_ & _ & _ & Hne); [constructor..|].
  split; cbn; try done.
  - intros n vs v. rewrite lookup_fmap. intros (vs' & Hl & ->)%fmap_Some Hv%(proj1 (normalize_values_elem _ _)).
    destruct (Hall n vs' Hl) as (_ & _ & Hbad). apply bad_value_None in Hbad. rewrite Forall_forall in Hbad.
    by destruct (Hbad v Hv) as (_ & _ & ?).
  - intros E. apply (Hne Hme), Permutation_nil. by rewrite <- E, sort_strings_perm.
Qed.

Lemma path_matchers_sound r path :
  valid_route r → (Match r = MatchTemplate → all_chars is_ascii (Path r) = true) →
  ∀ host method, Exists (matches (mkRequest host method path)) (path_matchers r) ↔ admits r path = true.
Proof.
  intros Hv Ha host method. unfold path_matchers, admits. case_decide as Hm.
  - assert (Path r = "/" → ends_with_slash (Path r) = true) as Hroot by (by intros ->).
    destruct (ends_with_slash (Path r)).
    + rewrite orb_true_r, Exists_cons, Exists_nil. cbn. tauto.
    + rewrite bool_decide_false by (by intros ?%Hroot). cbn [orb]. rewrite !Exists_cons, Exists_nil. cbn.
      rewrite orb_true_iff, bool_decide_eq_true. tauto.
  - case_decide as Ht; rewrite Exists_cons, Exists_nil; cbn [matches].
    + cbn [rq_path]. unfold template_pattern. rewrite template_matches by (apply Hv || auto). tauto.
    + cbn. rewrite bool_decide_eq_true. tauto.
Qed.

(** The rule of a public route, as the proxy files write it. *)
Definition public_rule (host : string) (r : Route) : string :=
  "Host(`" +:+ host +:+ "`) && " +:+ PathExpression r +:+ " && " +:+ MethodExpression (Methods r).

Lemma public_rule_text host r :
  public_rule host r = conjunction [[(KHost, host)]; path_matchers r; (KMethod,.) <$> Methods r].
Proof.
  unfold public_rule. rewrite PathExpression_matchers, MethodExpression_matchers.
  cbn [conjunction]. change (alternatives [(KHost, host)]) with ("Host" +:+ "(`" +:+ host +:+ "`)").
  by rewrite !append_assoc.
Qed.

Lemma path_matchers_quotable r :
  valid_route r → path_matchers r ≠ [] ∧ Forall quotable (path_matchers r).
Proof.
  intros [_ Hq Hp _]. pose proof (template_pattern_quotable r Hp Hq) as Ht. unfold path_matchers.
  case_decide; [destruct (_ || _)|case_decide]; (split; [done|]); rewrite ?Forall_cons, ?Forall_nil; try done.
  split_and!; [done| |done]. by apply no_char_append.
Qed.

Lemma public_rule_reads host r q :
  valid_route r → (Match r = MatchTemplate → all_chars is_ascii (Path r) = true) →
  no_char "`" host → Forall (no_char "`") (Methods r) →
  lets_through (public_rule host r) q ↔
  rq_host q = host ∧ admits r (rq_path q) = true ∧ rq_method q ∈ Methods r.
Proof.
  intros Hv Ha Hh Hms. unfold lets_through. rewrite public_rule_text, read_conjunction; [|done|].
  - destruct q as [h m path]. pose proof (path_matchers_sound r path Hv Ha h m) as Hpath. cbn [rq_host rq_path rq_method].
    assert (Exists (matches (mkRequest h m path)) ((KMethod,.) <$> Methods r) ↔ m ∈ Methods r) as Hmeth.
    { rewrite Exists_exists. setoid_rewrite list_elem_of_fmap. split.
      - by intros (? & (? & -> & ?) & ->).
      - intros Hm. exists (KMethod, m). split; [by exists m|reflexivity]. }
    split.
    + intros (r' & [= <-] & [H1 [H2 [H3 _]%Forall_cons]%Forall_cons]%Forall_cons).
      apply Exists_cons in H1 as [H1|H1]; [|by apply Exists_nil in H1]. by rewrite <- Hpath, <- Hmeth.
    + intros (-> & H2 & H3). eexists. split; [done|]. rewrite <- Hpath in H2. rewrite <- Hmeth in H3.
      repeat constructor; done.
  - apply Forall_cons. split; [by repeat constructor|]. apply Forall_cons. split; [by apply path_matchers_quotable|].
    apply Forall_singleton. split; [|by apply Forall_fmap]. intros E%fmap_nil_inv. by apply (vr_methods r Hv).
Qed.

(** C33: a public exception is exactly what was written: the rule rendered for
    an accepted route reads back, in the rule language of the proxy, to one that
    lets a request through if and only if its host is the route's, its method is
    listed, and its path is the exact path, below the prefix at a segment
    boundary, or agrees with the template segment by segment — a placeholder
    standing for one segment of unreserved characters or one of the listed
    values.  This is of routes whose methods have no backquote and whose templates
    are ASCII, and of a host without a backquote; of the paths and the values the
    validation itself sees to it that no character escapes its quotation. *)
Theorem public_rule_exact order i r host q :
  order ≡ₚ map_to_list (Parameters i) → Validate order i = inr r →
  (Match r = MatchTemplate → all_chars is_ascii (Path r) = true) →
  no_char "`" host → Forall (no_char "`") (Methods r) →
  lets_through (public_rule host r) q ↔
  rq_host q = host ∧ admits r (rq_path q) = true ∧ rq_method q ∈ Methods r.
Proof. intros Hord Hv. apply public_rule_reads. by eapply Validate_valid. Qed.

(** Methods may contain a backquote, which ends the raw string of the rule: such
    an exception is accepted and its rule is no rule at all. *)
Lemma backquote_method_breaks_rule :
  ∃ r, Validate [] (mkRoute "/health" "" ["get`"] ∅) = inr r ∧ Methods r = ["GET`"] ∧
       ∀ q, ¬ lets_through (public_rule "app.example.org" r) q.
Proof.
  eexists. split; [vm_compute; reflexivity|]. split; [done|]. intros q (r & Hr & _). vm_compute in Hr. discriminate.
Qed.

Lemma public_rule_exact_witness :
  ∃ r, Validate [("kind", ["b"; "a.b"])] (mkRoute "/hook/:kind/:id" "template" [" post "] {[ "kind" := ["b"; "a.b"] ]}) = inr r ∧
    lets_through (public_rule "app.example.org" r) (mkRequest "app.example.org" "POST" "/hook/a.b/42").
Proof.
  eexists. split; [vm_compute; reflexivity|].
  eapply (public_rule_exact [("kind", ["b"; "a.b"])] (mkRoute "/hook/:kind/:id" "template" [" post "] {[ "kind" := ["b"; "a.b"] ]})).
  - cbn [Parameters]. by rewrite map_to_list_singleton.
  - vm_compute; reflexivity.
  - intros _. reflexivity.
  - cbn. repeat split; discriminate.
  - repeat constructor; discriminate.
  - split; [reflexivity|]. split; [vm_compute; reflexivity|]. cbn. left.
Defined.

Lemma Validate_normal_form_witness :
  let i := mkRoute "/hook/:kind" "template" ["put"; "get"; "PUT"] {[ "kind" := ["b"; "a"; "b"] ]} in
  let r := mkRoute "/hook/:kind" "template" ["GET"; "PUT"] {[ "kind" := ["a"; "b"] ]} in
  Validate [("kind", ["b"; "a"; "b"])] i = inr r ∧ Validate [("kind", ["a"; "b"])] r = inr r.
Proof.
  intros i r. assert (Validate [("kind", ["b"; "a"; "b"])] i = inr r) as H by (vm_compute; reflexivity).
  split; [exact H|]. eapply (Validate_normal_form [("kind", ["b"; "a"; "b"])] i r); [|exact H|].
  - unfold i. cbn [Parameters]. by rewrite map_to_list_singleton.
  - unfold r. cbn [Parameters]. by rewrite map_to_list_singleton.
Defined.

(** *** Which routes cover an exception *)

(** Under a base, at a segment boundary. *)
Definition under (base path : string) : Prop := path = base ∨ has_prefix path (base +:+ "/") = true.

(** What may follow the text before a placeholder. *)
Definition boundary (rest : string) : Prop := rest = "" ∨ ∃ t, rest = String slash t.

Lemma before_placeholder_rest p : ∃ rest, p = before_placeholder p +:+ rest ∧ boundary rest.
Proof.
  induction p as [|a p (rest & IH & Hb)]; [exists ""; split; [done|by left]|].
  cbn [before_placeholder]. destruct (has_prefix (String a p) "/:") eqn:E.
  - exists (String a p). split; [done|]. right. apply has_prefix_spec in E as [t Ht]. str_simpl. eauto.
  - exists rest. rewrite append_cons, <- IH. done.
Qed.

Lemma before_placeholder_literal seg q :
  no_char slash seg → before_placeholder (seg +:+ q) = seg +:+ before_placeholder q.
Proof.
  induction seg as [|a seg IH]; [done|]. intros [Ha Hs]. rewrite !append_cons. cbn [before_placeholder].
  destruct (has_prefix (String a (seg +:+ q)) "/:") eqn:E; [|by rewrite IH].
  apply has_prefix_spec in E as [t Ht]. str_simpl.
Qed.

Lemma before_placeholder_slash q :
  before_placeholder (String slash q) = if has_prefix q ":" then "" else String slash (before_placeholder q).
Proof. cbn [before_placeholder]. unfold has_prefix. cbn [cut_prefix]. by rewrite decide_True. Qed.

Lemma join_colon seg segs : no_char slash seg →
  has_prefix (join (seg :: segs)) ":" = match cut_prefix ":" seg with Some _ => true | None => false end.
Proof.
  intros Hs. unfold has_prefix. destruct seg as [|a seg].
  - destruct segs; [done|]. cbn. done.
  - destruct segs; [done|]. change (join (String a seg :: s :: segs)) with (String a seg +:+ String slash (join (s :: segs))).
    rewrite append_cons. cbn [cut_prefix]. by destruct (decide _).
Qed.

(** What a template admits begins with the text before its first placeholder. *)
Lemma template_literal params segs seg part parts :
  Forall (no_char slash) (seg :: segs) → cut_prefix ":" seg = None →
  segments_admit params (seg :: segs) (part :: parts) = true →
  ∃ rest, join (part :: parts) = before_placeholder (join (seg :: segs)) +:+ rest ∧ boundary rest.
Proof.
  revert seg part parts. induction segs as [|seg' segs IH]; intros seg part parts [Hseg Hsegs]%Forall_cons Hlit Hadm.
  all: cbn [segments_admit] in Hadm; apply andb_true_iff in Hadm as [Hp Hadm].
  all: unfold segment_admits in Hp; rewrite Hlit, bool_decide_eq_true in Hp; subst part.
  - destruct parts; [|done]. exists "". cbn [join]. rewrite <- (append_nil_r seg) at 2. rewrite before_placeholder_literal by done.
    cbn. rewrite !append_nil_r. split; [done|by left].
  - destruct parts as [|part' parts]; [done|]. pose proof (proj1 (Forall_cons _ _ _) Hsegs) as [Hseg' _].
    change (join (seg :: ?x :: ?l)) with (seg +:+ String slash (join (x :: l))).
    rewrite before_placeholder_literal, before_placeholder_slash by done. rewrite join_colon by done.
    destruct (cut_prefix ":" seg') as [name|] eqn:E.
    + exists (String slash (join (part' :: parts))). rewrite append_nil_r. split; [done|]. right. eauto.
    + destruct (IH seg' part' parts Hsegs E Hadm) as (rest & -> & Hb). exists rest. split; [|done].
      by rewrite append_assoc, append_cons.
Qed.

Lemma boundary_under base lit rest path :
  path = lit +:+ rest → boundary rest → lit = base ∨ has_prefix lit (base +:+ "/") = true → under base path.
Proof.
  intros -> Hb [->|Hl].
  - destruct Hb as [->|[t ->]]; [left; by rewrite append_nil_r|right]. apply has_prefix_spec. exists t.
    by rewrite append_assoc.
  - right. apply has_prefix_spec in Hl as [t ->]. apply has_prefix_spec. exists (t +:+ rest). by rewrite append_assoc.
Qed.

Lemma boundary_app rest t : boundary rest → boundary t → boundary (rest +:+ t).
Proof. intros [->|[u ->]] Ht; [done|]. right. by exists (u +:+ t). Qed.

(** Literal matching modes: the path starts with the whole route path. *)
Lemma literal_under base r rest path :
  path = Path r +:+ rest → boundary rest ∨ ends_with_slash (Path r) = true → ends_with_slash base = false →
  before_placeholder (Path r) = base ∨ has_prefix (before_placeholder (Path r)) (base +:+ "/") = true →
  under base path.
Proof.
  intros -> Hb Hbase Hcov. destruct (before_placeholder_rest (Path r)) as (mid & Hmid & Hbm).
  destruct Hb as [Hb|Hslash].
  - apply (boundary_under base (before_placeholder (Path r)) (mid +:+ rest)); [|by apply boundary_app|done].
    rewrite <- append_assoc. by rewrite <- Hmid.
  - destruct Hbm as [->|[u ->]].
    + rewrite append_nil_r in Hmid. rewrite <- Hmid in Hcov. destruct Hcov as [<-|Hcov]; [congruence|].
      right. apply has_prefix_spec in Hcov as [t Ht]. apply has_prefix_spec. exists (t +:+ rest).
      rewrite Ht. by rewrite append_assoc.
    + apply (boundary_under base (before_placeholder (Path r)) (String slash u +:+ rest)); [|right; by exists (u +:+ rest)|done].
      rewrite <- append_assoc. by rewrite <- Hmid.
Qed.

(** An exception covered by a base stays below it: whatever it admits, the
    base serves.  (A base whose last slash, if any, is not doubled.) *)
Lemma Covers_sound base r path :
  valid_route r → base ≠ "" → base ≠ "/" → ends_with_slash (trim_slash base) = false →
  Covers base r = true → admits r path = true → under (trim_slash base) path.
Proof.
  intros Hv H1 H2 Hbase. unfold Covers. rewrite !bool_decide_false by done. cbn [orb].
  rewrite orb_true_iff, bool_decide_eq_true. intros Hcov. unfold admits. case_decide as Hm; [|case_decide as Ht].
  - destruct (ends_with_slash (Path r)) eqn:Hs.
    + intros [t ->]%has_prefix_spec. eapply literal_under; eauto.
    + rewrite orb_true_iff, bool_decide_eq_true. intros [->|[t ->]%has_prefix_spec].
      * eapply (literal_under _ r ""); [by rewrite append_nil_r|left; by left|done|done].
      * eapply (literal_under _ r (String slash t)); [by rewrite append_assoc|left; right; eauto|done|done].
  - intros Hadm. destruct Hv as [Hroot _ _ _]. apply has_prefix_spec in Hroot as [p Hp].
    assert (split slash (Path r) = "" :: split slash p) as Hsplit by (by rewrite Hp).
    rewrite Hsplit in Hadm. destruct (split slash path) as [|part parts] eqn:Hpath; [done|].
    destruct (template_literal (Parameters r) (split slash p) "" part parts) as (rest & Hrest & Hb); [|done|done|].
    { rewrite <- Hsplit. apply split_no_char. }
    rewrite <- Hpath, join_split, <- Hsplit, join_split in Hrest. by eapply boundary_under.
  - rewrite bool_decide_eq_true. intros ->. eapply (literal_under _ r ""); [by rewrite append_nil_r|left; by left|done|done].
Qed.
