(* ===== verification/ProxyRoutes.v ===== *)
(** * Proxy files

    Models [internal/proxy/proxy.go]: the intermediate representation of the
    routing of a resource and the dynamic file generated from it, with
    [parseDomain] ([internal/handlers/domains.go]) where its paths come from.
    A file is a list of routers rendered one after the other; what a router
    answers is read from the text of its rule ([AccessRoute]). *)
From stdpp Require Import pretty.
From S2P Require Import Prelude GoLib Regexp AccessRoute.
Local Open Scope Z_scope.

(** ** The intermediate representation *)

(** [Route] *)
Record Route := mkProxyRoute {
  route_fqdn : string; route_path : string; route_port : Z; route_endpoint : string;
  route_public : list AccessRoute.Route
}.

(** [AccessPolicy] *)
Record AccessPolicy := mkPolicy {
  ap_mode : string; ap_basic_auth_hash : string; ap_forward_auth_url : string; ap_callback_url : string;
  ap_callback_path : string
}.

(** [RouteGroup] *)
Record RouteGroup := mkGroup {
  AppUUID : string; WildcardDomain : string; DNSProvider : string; Endpoint : string; Routes : list Route;
  ForceHTTPS : bool; Access : option AccessPolicy; Noindex : bool; IngressAttachPath : string
}.

(** [AccessPolicy.accessCallbackPath] *)
Definition accessCallbackPath (p : AccessPolicy) : string :=
  if decide (ap_callback_path p = "") then "/.akerdock/app-callback" else ap_callback_path p.

(** [Priority] *)
Definition segments (path : string) : list string := filter (λ s, s ≠ "") (split slash path).
Definition Priority (path : string) : Z := 1000 * Z.of_nat (length (segments path)) + Z.of_nat (String.length path).

Definition accessCallbackPriority : Z := 2000000.
Definition ingressAttachPriority : Z := 2000000.

(** [publicPriority] *)
Definition publicPriority (basePath : string) : Z := Priority basePath + 1.

(** [routeTarget] *)
Definition routeTarget (rg : RouteGroup) (route : Route) : string :=
  if decide (route_endpoint route ≠ "") then route_endpoint route
  else if decide (Endpoint rg ≠ "") then Endpoint rg
  else AppUUID rg.

(** [secureMiddlewares] *)
Definition secureMiddlewares (rg : RouteGroup) : list string :=
  (match Access rg with Some _ => ["access"] | None => [] end) ++ (if Noindex rg then ["noindex"] else []).

(** [strings.HasSuffix] and [strings.TrimSuffix] *)
Fixpoint cut_suffix (sfx s : string) : option string :=
  if decide (s = sfx) then Some ""
  else match s with
  | EmptyString => None
  | String a s' => String a <$> cut_suffix sfx s'
  end.

(** [underWildcard] *)
Definition underWildcard (fqdn domain : string) : bool :=
  if decide (domain = "") then false
  else match cut_suffix ("." +:+ domain) fqdn with
  | None => false
  | Some label => bool_decide (label ≠ "") && negb (contains "." label)
  end.

(** [DNSResolverName] *)
Definition DNSResolverName (provider : string) : string := "dns01-" +:+ provider.

(** The order of the routes: by host, then by path. *)
Definition route_le (a b : Route) : Prop :=
  (route_fqdn a ≠ route_fqdn b ∧ String.le (route_fqdn a) (route_fqdn b)) ∨
  (route_fqdn a = route_fqdn b ∧ String.le (route_path a) (route_path b)).
#[export] Instance route_le_dec a b : Decision (route_le a b).
Proof. apply _. Defined.

(** The slice handed to [sort.Slice]; routes are unique by host and path. *)
Definition sorted_routes (rg : RouteGroup) : list Route := merge_sort route_le (Routes rg).

(** ** Routers *)

Record router := mkRouter {
  rt_name : string; rt_entry : string; rt_rule : string; rt_priority : Z; rt_middlewares : list string;
  rt_service : string; rt_tls : option string       (** the host of the certificate *)
}.

Definition num (n : nat) : string := pretty (N.of_nat n).
Definition scoped (rg : RouteGroup) (suffix : string) : string := AppUUID rg +:+ "-" +:+ suffix.
Definition forceHTTPS (rg : RouteGroup) : bool := ForceHTTPS rg || bool_decide (is_Some (Access rg)).

Definition route_rule (route : Route) : string :=
  "Host(`" +:+ route_fqdn route +:+ "`) && PathPrefix(`" +:+ route_path route +:+ "`)".

Definition web_router (rg : RouteGroup) (n : nat) (route : Route) : router :=
  mkRouter (scoped rg ("r" +:+ num n +:+ "-web")) "web" (route_rule route) (Priority (route_path route))
    (scoped rg <$> (if forceHTTPS rg then ["https-redirect"] else if Noindex rg then ["noindex"] else []))
    (scoped rg ("s" +:+ num n)) None.

Definition secure_router (rg : RouteGroup) (n : nat) (route : Route) : router :=
  mkRouter (scoped rg ("r" +:+ num n)) "websecure" (route_rule route) (Priority (route_path route))
    (scoped rg <$> secureMiddlewares rg) (scoped rg ("s" +:+ num n)) (Some (route_fqdn route)).

Definition public_router (rg : RouteGroup) (n : nat) (route : Route) (publicN : nat) (public : AccessRoute.Route)
    : option router :=
  if Covers (route_path route) public then
    Some (mkRouter (scoped rg ("r" +:+ num n +:+ "-public-" +:+ num publicN)) "websecure"
            (public_rule (route_fqdn route) public) (publicPriority (route_path route))
            (scoped rg <$> (if Noindex rg then ["noindex"] else []))
            (scoped rg ("s" +:+ num n)) (Some (route_fqdn route)))
  else None.

Definition route_routers (rg : RouteGroup) (n : nat) (route : Route) : list router :=
  [web_router rg n route; secure_router rg n route] ++
  match Access rg with
  | Some _ => omap id (imap (public_router rg n route) (route_public route))
  | None => []
  end.

(** The first route of each host, in order. *)
Fixpoint first_per_host (seen : gset string) (routes : list Route) : list Route :=
  match routes with
  | [] => []
  | r :: rest =>
      if decide (route_fqdn r ∈ seen) then first_per_host seen rest
      else r :: first_per_host ({[ route_fqdn r ]} ∪ seen) rest
  end.

Definition reserved_rule (fqdn path : string) : string := "Host(`" +:+ fqdn +:+ "`) && Path(`" +:+ path +:+ "`)".

(** [writeAccessCallbackRouters] *)
Definition callback_policy (rg : RouteGroup) : option AccessPolicy :=
  match Access rg with
  | Some p => if bool_decide (ap_mode p = "sso") && bool_decide (ap_callback_url p ≠ "") then Some p else None
  | None => None
  end.
Definition callback_routers (rg : RouteGroup) (routes : list Route) : list router :=
  match callback_policy rg with
  | None => []
  | Some p =>
      imap (λ n r, mkRouter (scoped rg ("access-callback-" +:+ num n)) "websecure"
                     (reserved_rule (route_fqdn r) (accessCallbackPath p)) accessCallbackPriority []
                     (scoped rg "access-callback") (Some (route_fqdn r)))
           (first_per_host ∅ routes)
  end.

(** [ingressAttachTargets], [writeIngressAttachRouters] *)
Definition ingressAttachTargets (rg : RouteGroup) (routes : list Route) : list Route :=
  if decide (IngressAttachPath rg = "") then [] else first_per_host ∅ routes.
Definition attach_routers (rg : RouteGroup) (targets : list Route) : list router :=
  imap (λ n r, mkRouter (scoped rg ("ingress-attach-" +:+ num n)) "websecure"
                 (reserved_rule (route_fqdn r) (IngressAttachPath rg)) ingressAttachPriority []
                 (scoped rg ("ingress-attach-" +:+ num n)) (Some (route_fqdn r))) targets.

(** The routers of a dynamic file, in the order they are written. *)
Definition routers (rg : RouteGroup) : list router :=
  let routes := sorted_routes rg in
  mjoin (imap (route_routers rg) routes) ++ callback_routers rg routes ++
  attach_routers rg (ingressAttachTargets rg routes).

(** ** The file *)

Definition byte (n : nat) : string := String (ascii_of_nat n) "".
Definition nl : string := byte 10.
Definition dq : string := byte 34.
Definition line (s : string) : string := s +:+ nl.
Definition lines (l : list string) : string := foldr (λ s rest, line s +:+ rest) "" l.

Definition hex_digit (n : Z) : string :=
  String (nth (Z.to_nat n) (chars "0123456789abcdef") "0"%char) "".

(** [strconv.Quote], for printable characters beyond ASCII. *)
Definition quote_char (a : ascii) : string :=
  let v := byte_val a in
  if (v =? 34) || (v =? 92) then String "\" (String a "")
  else match v with
  | 7 => "\a" | 8 => "\b" | 9 => "\t" | 10 => "\n" | 11 => "\v" | 12 => "\f" | 13 => "\r"
  | _ => if (v <? 32) || (v =? 127) then "\x" +:+ hex_digit (v / 16) +:+ hex_digit (v `mod` 16) else String a ""
  end.
Definition Quote (s : string) : string := dq +:+ foldr (λ a rest, quote_char a +:+ rest) "" (chars s) +:+ dq.

Fixpoint join_comma (l : list string) : string :=
  match l with [] => "" | [w] => w | w :: l' => w +:+ ", " +:+ join_comma l' end.

(** [writeMiddlewares] *)
Definition writeMiddlewares (names : list string) : list string :=
  match names with [] => [] | _ => ["      middlewares: [" +:+ join_comma names +:+ "]"] end.

(** [writeTLS] *)
Definition writeTLS (rg : RouteGroup) (fqdn : string) : list string :=
  if bool_decide (DNSProvider rg ≠ "") && underWildcard fqdn (WildcardDomain rg) then
    ["      tls:"; "        certResolver: " +:+ DNSResolverName (DNSProvider rg);
     "        domains:"; "          - main: " +:+ Quote (WildcardDomain rg);
     "            sans: [" +:+ dq +:+ "*." +:+ WildcardDomain rg +:+ dq +:+ "]"]
  else ["      tls:"; "        certResolver: http01"].

Definition write_router (rg : RouteGroup) (rt : router) : list string :=
  ["    " +:+ rt_name rt +:+ ":"; "      entryPoints: [" +:+ rt_entry rt +:+ "]"; "      rule: " +:+ rt_rule rt;
   "      priority: " +:+ pretty (rt_priority rt)] ++
  writeMiddlewares (rt_middlewares rt) ++ ["      service: " +:+ rt_service rt] ++
  match rt_tls rt with Some fqdn => writeTLS rg fqdn | None => [] end.

(** [writeAccessMiddleware] *)
Definition writeAccessMiddleware (rg : RouteGroup) : list string :=
  match Access rg with
  | None => []
  | Some p =>
      if decide (ap_mode p = "basic_auth") then
        ["    " +:+ scoped rg "access" +:+ ":"; "      basicAuth:"; "        users:";
         "          - " +:+ Quote (ap_basic_auth_hash p)]
      else if decide (ap_mode p = "sso") then
        ["    " +:+ scoped rg "access" +:+ ":"; "      forwardAuth:";
         "        address: " +:+ Quote (ap_forward_auth_url p)]
      else []
  end.

(** [writeNoindexMiddleware] *)
Definition writeNoindexMiddleware (rg : RouteGroup) : list string :=
  if Noindex rg then
    ["    " +:+ scoped rg "noindex" +:+ ":"; "      headers:"; "        customResponseHeaders:";
     "          X-Robots-Tag: " +:+ dq +:+ "noindex, nofollow" +:+ dq]
  else [].

Definition write_service (rg : RouteGroup) (n : nat) (route : Route) : list string :=
  ["    " +:+ scoped rg ("s" +:+ num n) +:+ ":"; "      loadBalancer:"; "        servers:";
   "          - url: " +:+ dq +:+ "http://" +:+ routeTarget rg route +:+ ":" +:+ pretty (route_port route) +:+ dq].

(** [writeIngressAttachServices], [writeAccessCallbackService] *)
Definition write_attach_service (rg : RouteGroup) (n : nat) (route : Route) : list string :=
  ["    " +:+ scoped rg ("ingress-attach-" +:+ num n) +:+ ":"; "      loadBalancer:"; "        servers:";
   "          - url: " +:+ dq +:+ "h2c://" +:+ routeTarget rg route +:+ ":" +:+ pretty (route_port route) +:+ dq].
Definition writeAccessCallbackService (rg : RouteGroup) : list string :=
  match callback_policy rg with
  | None => []
  | Some p =>
      ["    " +:+ scoped rg "access-callback" +:+ ":"; "      loadBalancer:"; "        passHostHeader: false";
       "        servers:"; "          - url: " +:+ Quote (ap_callback_url p)]
  end.

(** [GenerateDynamic]; the em dashes of the first line are three bytes. *)
Definition dash : string := byte 226 +:+ byte 128 +:+ byte 148.
Definition GenerateDynamic (rg : RouteGroup) (revision : Z) : string :=
  let routes := sorted_routes rg in
  lines (
    ["# generated by AkerDock " +:+ dash +:+ " revision " +:+ pretty revision +:+ " " +:+ dash +:+ " DO NOT EDIT";
     "http:"; "  routers:"] ++
    mjoin (write_router rg <$> routers rg) ++
    (if forceHTTPS rg || bool_decide (is_Some (Access rg)) || Noindex rg then ["  middlewares:"] else []) ++
    (if forceHTTPS rg then
       ["    " +:+ scoped rg "https-redirect" +:+ ":"; "      redirectScheme:"; "        scheme: https";
        "        permanent: true"]
     else []) ++
    writeAccessMiddleware rg ++ writeNoindexMiddleware rg ++
    ["  services:"] ++ mjoin (imap (write_service rg) routes) ++
    mjoin (imap (write_attach_service rg) (ingressAttachTargets rg routes)) ++ writeAccessCallbackService rg).

(** [GenerateIngress] *)
Definition AgentContainerName := "akerdock-agent".
Definition AgentPort : Z := 8080.
Definition IngressPath := "/.akerdock/ingress".
Definition ingress_group (uuid fqdn wildcard provider : string) (access : option AccessPolicy) : RouteGroup :=
  mkGroup uuid wildcard provider AgentContainerName [mkProxyRoute fqdn "/" AgentPort "" []] true access true IngressPath.
Definition GenerateIngress uuid fqdn wildcard provider access (revision : Z) : string :=
  GenerateDynamic (ingress_group uuid fqdn wildcard provider access) revision.

(** [GenerateControlPlane] *)
Definition ControlPlaneScope := "00-control-plane".
Definition ControlPlaneHost := "host.docker.internal".
Definition control_plane_group (fqdn : string) (port : Z) : RouteGroup :=
  mkGroup ControlPlaneScope "" "" ControlPlaneHost [mkProxyRoute fqdn "/" port "" []] true None false "".
Definition GenerateControlPlane (fqdn : string) (port revision : Z) : string :=
  GenerateDynamic (control_plane_group fqdn port) revision.

(** ** Where the paths come from *)

(** [fqdnFormat]: two labels or more of small letters, digits and inner dashes,
    of at most 63 characters. *)
Definition alnum (a : ascii) : bool := is_lower a || is_number a.
Fixpoint last_char (s : string) : option ascii :=
  match s with EmptyString => None | String a EmptyString => Some a | String _ s' => last_char s' end.
Definition fqdn_label (s : string) : bool :=
  all_chars (λ a, alnum a || bool_decide (a = "-"%char)) s && (String.length s <=? 63)%nat &&
  match String.get 0 s, last_char s with Some a, Some b => alnum a && alnum b | _, _ => false end.
Definition fqdnFormat (s : string) : bool :=
  let labels := split "." s in (2 <=? length labels)%nat && forallb fqdn_label labels.

Record domainSpec := mkSpec { ds_fqdn : string; ds_path : string; ds_port : option Z }.

(** [parseDomain] *)
Definition parseDomain (raw : string) : option domainSpec :=
  let s := trim_prefix (trim_prefix (trim_space (ToLower raw)) "https://") "http://" in
  let '(s, path) :=
    match cut slash s with
    | Some (host, path) => (host, String slash (trim_slash path))
    | None => (s, "/")
    end in
  match cut ":" s with
  | Some (host, port) =>
      match atoi port with
      | Some n => if (1 <=? n) && (n <=? 65535) && fqdnFormat host then Some (mkSpec host path (Some n)) else None
      | None => None
      end
  | None => if fqdnFormat s then Some (mkSpec s path None) else None
  end.

Example parse_domain_ex :
  parseDomain " https://App.Example.org:3000/Api/ " = Some (mkSpec "app.example.org" "/api" (Some 3000)).
Proof. vm_compute. reflexivity. Qed.
Example control_plane_ex :
  GenerateControlPlane "dock.example.org" 8000 7 = lines
   ["# generated by AkerDock " +:+ dash +:+ " revision 7 " +:+ dash +:+ " DO NOT EDIT"; "http:"; "  routers:";
    "    00-control-plane-r0-web:"; "      entryPoints: [web]";
    "      rule: Host(`dock.example.org`) && PathPrefix(`/`)"; "      priority: 1";
    "      middlewares: [00-control-plane-https-redirect]"; "      service: 00-control-plane-s0";
    "    00-control-plane-r0:"; "      entryPoints: [websecure]";
    "      rule: Host(`dock.example.org`) && PathPrefix(`/`)"; "      priority: 1";
    "      service: 00-control-plane-s0"; "      tls:"; "        certResolver: http01";
    "  middlewares:"; "    00-control-plane-https-redirect:"; "      redirectScheme:"; "        scheme: https";
    "        permanent: true"; "  services:"; "    00-control-plane-s0:"; "      loadBalancer:"; "        servers:";
    "          - url: " +:+ dq +:+ "http://host.docker.internal:8000" +:+ dq].
Proof. vm_compute. reflexivity. Qed.

(** ** Priorities *)

Lemma length_append (a b : string) : String.length (a +:+ b) = (String.length a + String.length b)%nat.
Proof. induction a as [|c a IH]; [done|]. rewrite append_cons. cbn. by rewrite IH. Qed.

Lemma segments_app a b : segments (a +:+ String slash b) = segments a ++ segments b.
Proof. unfold segments. by rewrite split_app, filter_app. Qed.

Lemma segments_slash s : segments (String slash s) = segments s.
Proof. apply (segments_app "" s). Qed.

Definition later (s : string) : list string := filter (λ w, w ≠ "") (tail (split slash s)).

Lemma segments_char c s : c ≠ slash → length (segments (String c s)) = S (length (later s)).
Proof.
  intros Hc. unfold segments, later. cbn [split]. rewrite decide_False by done.
  destruct (split slash s) as [|w ws] eqn:E; [by apply split_not_nil in E|]. by rewrite filter_cons_True.
Qed.

Lemma later_char c s : c ≠ slash → later (String c s) = later s.
Proof.
  intros Hc. unfold later. cbn [split]. rewrite decide_False by done.
  destruct (split slash s) as [|w ws] eqn:E; [by apply split_not_nil in E|done].
Qed.

Lemma segments_mono a t :
  (length (segments a) <= length (segments (a +:+ t)))%nat ∧ (length (later a) <= length (later (a +:+ t)))%nat.
Proof.
  induction a as [|c a [IH1 IH2]]; [split; apply Nat.le_0_l|]. rewrite append_cons. destruct (decide (c = slash)) as [->|Hc].
  - rewrite !segments_slash. split; [done|]. unfold later. cbn [split]. rewrite !decide_True by done. done.
  - rewrite !segments_char, !later_char by done. lia.
Qed.

Lemma segments_nonempty s : s ≠ "" → ends_with_slash s = false → segments s ≠ [].
Proof.
  induction s as [|c s IH]; [done|]. intros _ He. destruct (decide (c = slash)) as [->|Hc].
  - rewrite segments_slash. apply IH; [by intros ->|]. by destruct s.
  - intros E. pose proof (segments_char c s Hc) as Hl. by rewrite E in Hl.
Qed.

Lemma ends_with_slash_app a c t : ends_with_slash (a +:+ String c t) = ends_with_slash (String c t).
Proof.
  induction a as [|x a IH]; [done|]. rewrite append_cons.
  change (ends_with_slash (String x (a +:+ String c t))) with
    (match a +:+ String c t with EmptyString => bool_decide (x = slash) | _ => ends_with_slash (a +:+ String c t) end).
  rewrite IH. by destruct a.
Qed.

(** Paths as domains have them: rooted, and without a slash at the end. *)
Definition normal_path (p : string) : Prop := has_prefix p "/" = true ∧ (p = "/" ∨ ends_with_slash p = false).

Lemma two_prefixes (path a b x y : string) :
  path = a +:+ x → path = b +:+ y → (String.length a <= String.length b)%nat → ∃ t, b = a +:+ t.
Proof.
  revert a b. induction path as [|c path IH]; intros a b Ha Hb Hl.
  - destruct a; [by exists b|]. by rewrite append_cons in Ha.
  - destruct a as [|ca a]; [by exists b|]. destruct b as [|cb b]; [cbn in Hl; lia|].
    rewrite append_cons in Ha, Hb. injection Ha as -> Ha. injection Hb as -> Hb.
    destruct (IH a b Ha Hb) as [t ->]; [cbn in Hl; lia|]. by exists t.
Qed.

(** Of two routes that serve a path, the longer one has the higher priority. *)
Lemma Priority_specific path a b :
  has_prefix path a = true → has_prefix path b = true → (String.length a < String.length b)%nat → Priority a < Priority b.
Proof.
  intros [x Hx]%has_prefix_spec [y Hy]%has_prefix_spec Hl.
  destruct (two_prefixes path a b x y Hx Hy) as [t ->]; [lia|]. unfold Priority.
  pose proof (segments_mono a t) as [Hs _]. lia.
Qed.

(** An exception of a route stays below every longer route that serves the same
    path. *)
Lemma publicPriority_specific path a b :
  normal_path a → normal_path b → (a = "/" ∨ under a path) → has_prefix path b = true →
  (String.length a < String.length b)%nat → publicPriority a < Priority b.
Proof.
  intros [Ha Hna] [Hb Hnb] Hu [y Hy]%has_prefix_spec Hl. unfold publicPriority, Priority.
  assert (b ≠ "/") as Hroot.
  { intros ->. apply has_prefix_spec in Ha as [t ->]. rewrite length_append in Hl. cbn in Hl. lia. }
  destruct Hnb as [->|Hnb]; [done|]. apply has_prefix_spec in Hb as [b' ->]. change ("/" +:+ b') with (String slash b') in *.
  assert (b' ≠ "") as Hb' by (by intros ->).
  destruct Hu as [->|[->|[z Hz]%has_prefix_spec]].
  - pose proof (segments_nonempty (String slash b') ltac:(done) Hnb) as Hne. change (segments "/") with (@nil string).
    destruct (segments (String slash b')); [done|]. cbn -[Z.add Z.mul]. lia.
  - apply (f_equal String.length) in Hy. rewrite length_append in Hy. lia.
  - destruct (two_prefixes path (a +:+ "/") (String slash b') z y) as [t Ht]; [done|done|rewrite length_append; cbn in *; lia|].
    rewrite append_assoc in Ht. change ("/" +:+ t) with (String slash t) in Ht. rewrite Ht in Hnb |- *.
    rewrite ends_with_slash_app in Hnb. rewrite segments_app, length_app, length_append.
    assert (t ≠ "") as Hne by (by intros ->). pose proof (segments_nonempty t Hne) as Hseg.
    destruct (segments t) as [|w ws]; [destruct Hseg; [by destruct t|done]|]. cbn -[Z.add Z.mul]. lia.
Qed.

(** ** What the routers of a group answer *)

Lemma route_rule_reads r q :
  no_char "`" (route_fqdn r) → no_char "`" (route_path r) →
  lets_through (route_rule r) q ↔ rq_host q = route_fqdn r ∧ has_prefix (rq_path q) (route_path r) = true.
Proof.
  intros Hf Hp. replace (route_rule r) with (conjunction [[(KHost, route_fqdn r)]; [(KPathPrefix, route_path r)]])
    by (unfold route_rule; cbn [conjunction alternatives]; unfold text_of, matcher_text; by rewrite !append_assoc).
  apply two_matchers; done.
Qed.

Lemma reserved_rule_reads f p q :
  no_char "`" f → no_char "`" p → lets_through (reserved_rule f p) q ↔ rq_host q = f ∧ rq_path q = p.
Proof.
  intros Hf Hp. replace (reserved_rule f p) with (conjunction [[(KHost, f)]; [(KPath, p)]])
    by (unfold reserved_rule; cbn [conjunction alternatives]; unfold text_of, matcher_text; by rewrite !append_assoc).
  apply two_matchers; done.
Qed.

(** The paths a group reserves for itself. *)
Definition reserved (rg : RouteGroup) : list string :=
  (match callback_policy rg with Some p => [accessCallbackPath p] | None => [] end) ++
  (if decide (IngressAttachPath rg = "") then [] else [IngressAttachPath rg]).

Lemma first_per_host_sub seen routes r : r ∈ first_per_host seen routes → r ∈ routes.
Proof.
  revert seen. induction routes as [|x routes IH]; intros seen; cbn; [done|]. case_decide; [|intros [->|?]%elem_of_cons].
  all: rewrite elem_of_cons; eauto.
Qed.

Lemma elem_of_imap {A B} (f : nat → A → B) l y : y ∈ imap f l ↔ ∃ n x, l !! n = Some x ∧ y = f n x.
Proof.
  rewrite list_elem_of_lookup. setoid_rewrite list_lookup_imap_Some. split; [intros (n & x & ? & ->)|intros (n & x & ? & ->)]; eauto.
Qed.

Lemma sorted_routes_elem rg r : r ∈ sorted_routes rg ↔ r ∈ Routes rg.
Proof. unfold sorted_routes. by rewrite merge_sort_Permutation. Qed.

(** The https routers of a group are its protected routers, its exceptions and
    its reserved paths. *)
Lemma routers_inv rg rt :
  rt ∈ routers rg → rt_entry rt = "websecure" →
  (∃ n r, sorted_routes rg !! n = Some r ∧ rt = secure_router rg n r) ∨
  (∃ n r k p, sorted_routes rg !! n = Some r ∧ p ∈ route_public r ∧ public_router rg n r k p = Some rt) ∨
  (∃ r p, r ∈ Routes rg ∧ p ∈ reserved rg ∧ rt_rule rt = reserved_rule (route_fqdn r) p).
Proof.
  unfold routers. rewrite !elem_of_app. intros [Hin|[Hin|Hin]] He.
  - apply list_elem_of_join in Hin as (l & Hrt & (n & r & Hr & ->)%elem_of_imap).
    unfold route_routers in Hrt.
    apply elem_of_app in Hrt as [Hrt|Hrt].
    + apply elem_of_cons in Hrt as [->|Hrt]; [done|]. apply list_elem_of_singleton in Hrt as ->. left. eauto.
    + destruct (Access rg); [|by apply not_elem_of_nil in Hrt]. right. left.
      apply list_elem_of_omap in Hrt as (o & (k & p & Hp & ->)%elem_of_imap & Ho).
      apply list_elem_of_lookup_2 in Hp. cbn in Ho. eauto 10.
  - right. right. unfold callback_routers in Hin. unfold reserved. destruct (callback_policy rg); [|by apply not_elem_of_nil in Hin].
    apply elem_of_imap in Hin as (n & r & Hr & ->). apply list_elem_of_lookup_2, first_per_host_sub, sorted_routes_elem in Hr.
    eexists r, _. split; [done|]. split; [|done]. left.
  - right. right. unfold attach_routers, ingressAttachTargets in Hin. unfold reserved.
    destruct (decide (IngressAttachPath rg = "")) as [_|_]; [by apply not_elem_of_nil in Hin|].
    apply elem_of_imap in Hin as (n & r & Hr & ->). apply list_elem_of_lookup_2, first_per_host_sub, sorted_routes_elem in Hr.
    eexists r, _. split; [done|]. split; [|done]. apply elem_of_app. right. left.
Qed.

(** What the theorems ask of a group: hosts and paths without a backquote, paths in
    normal form, exceptions that passed [Validate] and whose methods have no
    backquote and whose templates are ASCII.  A host that passed [fqdnFormat] has no
    backquote; of a path [parseDomain] trims one trailing slash and checks no more:
    [domain_path_leaves_quotes] and [doubled_slash_ties] are accepted paths of which
    this does not hold, and [AccessRoute.backquote_method_breaks_rule] such a
    method. *)
Definition public_ok (p : AccessRoute.Route) : Prop :=
  valid_route p ∧ (Match p = MatchTemplate → all_chars is_ascii (Path p) = true) ∧ Forall (no_char "`") (Methods p).
Record route_ok (r : Route) : Prop := {
  ro_host : no_char "`" (route_fqdn r);
  ro_path : no_char "`" (route_path r);
  ro_normal : normal_path (route_path r);
  ro_public : Forall public_ok (route_public r)
}.
Definition group_ok (rg : RouteGroup) : Prop :=
  Forall route_ok (Routes rg) ∧ Forall (no_char "`") (reserved rg).

(** The request is one of the exceptions of the route. *)
Definition excepted (r : Route) (q : request) : Prop :=
  ∃ p, p ∈ route_public r ∧ Covers (route_path r) p = true ∧ admits p (rq_path q) = true ∧ rq_method q ∈ Methods p.

(** The routers that may answer a request, and those that do: a proxy picks one
    of the highest priority. *)
Definition candidate (gs : list RouteGroup) (q : request) (rt : router) : Prop :=
  rt ∈ mjoin (routers <$> gs) ∧ rt_entry rt = "websecure" ∧ lets_through (rt_rule rt) q.
Definition answers (gs : list RouteGroup) (q : request) (rt : router) : Prop :=
  candidate gs q rt ∧ ∀ rt', candidate gs q rt' → rt_priority rt' <= rt_priority rt.

(** The route that serves a request: of all those of its host that do, the one
    with the longest path. *)
Definition serving (gs : list RouteGroup) (q : request) (g : RouteGroup) (r : Route) : Prop :=
  g ∈ gs ∧ r ∈ Routes g ∧ rq_host q = route_fqdn r ∧ has_prefix (rq_path q) (route_path r) = true ∧
  ∀ g' r', g' ∈ gs → r' ∈ Routes g' → route_fqdn r' = rq_host q → has_prefix (rq_path q) (route_path r') = true →
    (g', r') = (g, r) ∨ (String.length (route_path r') < String.length (route_path r))%nat.

Lemma public_router_inv rg n r k p rt :
  public_router rg n r k p = Some rt →
  Covers (route_path r) p = true ∧ rt_rule rt = public_rule (route_fqdn r) p ∧ rt_priority rt = publicPriority (route_path r).
Proof. unfold public_router. destruct (Covers (route_path r) p); [|done]. by intros [= <-]. Qed.

Lemma router_listed gs g n r rt :
  g ∈ gs → sorted_routes g !! n = Some r → rt ∈ route_routers g n r → rt ∈ mjoin (routers <$> gs).
Proof.
  intros Hg Hn Hrt. apply list_elem_of_join. exists (routers g). split; [|by apply list_elem_of_fmap_2].
  unfold routers. apply elem_of_app. left. apply list_elem_of_join. exists (route_routers g n r). split; [done|].
  apply elem_of_imap. eauto.
Qed.

Lemma secure_candidate gs q g r :
  group_ok g → serving gs q g r → ∃ n, candidate gs q (secure_router g n r).
Proof.
  intros [Hroutes _] (Hg & Hr & Hhost & Hpre & _). rewrite Forall_forall in Hroutes. destruct (Hroutes r Hr) as [Hf Hp _ _].
  apply sorted_routes_elem, list_elem_of_lookup in Hr as [n Hn]. exists n. split; [|split; [done|by apply route_rule_reads]].
  apply (router_listed gs g n r); [done..|]. right. left.
Qed.

Lemma public_candidate gs q g r :
  group_ok g → is_Some (Access g) → serving gs q g r → excepted r q →
  ∃ rt, candidate gs q rt ∧ rt_priority rt = publicPriority (route_path r).
Proof.
  intros [Hroutes _] [pol Hacc] (Hg & Hr & Hhost & _) (p & Hp & Hcov & Hadm & Hmeth).
  rewrite Forall_forall in Hroutes. destruct (Hroutes r Hr) as [Hf _ _ Hpub]. rewrite Forall_forall in Hpub.
  destruct (Hpub p Hp) as (Hv & Ha & Hm). apply sorted_routes_elem, list_elem_of_lookup in Hr as [n Hn].
  apply list_elem_of_lookup in Hp as [k Hk].
  assert (is_Some (public_router g n r k p)) as [rt Hrt] by (unfold public_router; rewrite Hcov; eauto).
  pose proof (public_router_inv _ _ _ _ _ _ Hrt) as (_ & Hrule & Hprio). exists rt. split; [|done]. split; [|split].
  - apply (router_listed gs g n r); [done..|]. unfold route_routers. rewrite Hacc. apply elem_of_app. right.
    apply list_elem_of_omap. exists (Some rt). split; [|done]. apply elem_of_imap. exists k, p. auto.
  - unfold public_router in Hrt. rewrite Hcov in Hrt. by injection Hrt as <-.
  - rewrite Hrule. by apply public_rule_reads.
Qed.

Lemma trim_slash_id s : ends_with_slash s = false → trim_slash s = s.
Proof.
  induction s as [|a s IH]; [done|]. cbn. destruct s as [|b s].
  - case_bool_decide; [done|]. by rewrite decide_False.
  - intros E. by rewrite IH.
Qed.

Lemma covered_under r p path :
  normal_path (route_path r) → valid_route p → Covers (route_path r) p = true → admits p path = true →
  route_path r = "/" ∨ under (route_path r) path.
Proof.
  intros [Hroot Hn] Hv Hc Ha. destruct Hn as [->|Hn]; [by left|]. destruct (decide (route_path r = "/")); [by left|right].
  rewrite <- (trim_slash_id _ Hn). apply (Covers_sound (route_path r) p); try done; [|by rewrite trim_slash_id].
  intros E. by rewrite E in Hroot.
Qed.

Lemma under_prefix base path : under base path → has_prefix path base = true.
Proof.
  intros [->|[t ->]%has_prefix_spec]; apply has_prefix_spec; [exists ""; by rewrite append_nil_r|].
  eexists. by rewrite append_assoc.
Qed.

Lemma scoped_inj rg a b : scoped rg a = scoped rg b → a = b.
Proof. unfold scoped. intros E. apply (inj (String.app (AppUUID rg))), (inj (String.app "-")) in E. done. Qed.

Lemma wall_off rg n r k p rt : public_router rg n r k p = Some rt → scoped rg "access" ∉ rt_middlewares rt.
Proof.
  unfold public_router. destruct (Covers (route_path r) p); [|done]. intros [= <-]. cbn.
  destruct (Noindex rg); cbn; [|apply not_elem_of_nil]. intros E%list_elem_of_singleton%scoped_inj. discriminate.
Qed.

Lemma wall_on rg n r pol : Access rg = Some pol → scoped rg "access" ∈ rt_middlewares (secure_router rg n r).
Proof. intros H. cbn. unfold secureMiddlewares. rewrite H. left. Qed.

Lemma wall_at gs g r q rt pol :
  Forall group_ok gs → Access g = Some pol → serving gs q g r →
  (∀ g', g' ∈ gs → rq_path q ∉ reserved g') → answers gs q rt →
  (scoped g "access" ∈ rt_middlewares rt ↔ ¬ excepted r q) ∧
  ∃ n, sorted_routes g !! n = Some r ∧ rt_service rt = scoped g ("s" +:+ num n).
Proof.
  intros Hok Hacc Hserv Hres [(Hin & He & Hlet) Hmax]. rewrite Forall_forall in Hok.
  pose proof Hserv as (Hg & Hr & Hhost & Hpre & Hlong). pose proof (Hok g Hg) as Hgok.
  destruct (secure_candidate gs q g r Hgok Hserv) as [n0 Hsec]. apply Hmax in Hsec. cbn in Hsec.
  pose proof (proj1 (Forall_forall _ _) (proj1 Hgok) r Hr) as [_ _ Hnorm _].
  apply list_elem_of_join in Hin as (l & Hrt & (g' & -> & Hg')%list_elem_of_fmap).
  destruct (Hok g' Hg') as [Hroutes Hquote]. rewrite Forall_forall in Hroutes. rewrite Forall_forall in Hquote.
  destruct (routers_inv g' rt Hrt He) as [(n & r' & Hn & ->)|[(n & r' & k & p & Hn & Hp & Hpub)|(r' & p & Hr' & Hp & Hrule)]].
  - pose proof (proj1 (sorted_routes_elem g' r') (list_elem_of_lookup_2 _ _ _ Hn)) as Hr'.
    destruct (Hroutes r' Hr') as [Hf Hpath _ _]. apply route_rule_reads in Hlet as [Hh Hpre']; [|done..].
    destruct (Hlong g' r' Hg' Hr' (eq_sym Hh) Hpre') as [[= -> ->]|Hshort].
    + split; [|exists n; split; done]. split; [|intros _; by eapply wall_on]. intros _ Hex.
      destruct (public_candidate gs q g r Hgok ltac:(eauto) Hserv Hex) as (rt' & Hc & Hprio). apply Hmax in Hc.
      rewrite Hprio in Hc. unfold publicPriority in Hc. cbn in Hc. lia.
    + pose proof (Priority_specific _ _ _ Hpre' Hpre Hshort). cbn in Hsec. lia.
  - pose proof (proj1 (sorted_routes_elem g' r') (list_elem_of_lookup_2 _ _ _ Hn)) as Hr'.
    destruct (Hroutes r' Hr') as [Hf _ Hnorm' Hpubs]. rewrite Forall_forall in Hpubs. destruct (Hpubs p Hp) as (Hv & Ha & Hm).
    destruct (public_router_inv _ _ _ _ _ _ Hpub) as (Hcov & Hrule & Hprio).
    rewrite Hrule, public_rule_reads in Hlet by done. destruct Hlet as (Hh & Hadm & Hmeth).
    pose proof (covered_under r' p _ Hnorm' Hv Hcov Hadm) as Hunder.
    assert (has_prefix (rq_path q) (route_path r') = true) as Hpre'.
    { destruct Hunder as [->|?]; [|by apply under_prefix]. destruct Hnorm as [[t Ht]%has_prefix_spec _].
      apply has_prefix_spec in Hpre as [u ->]. apply has_prefix_spec. exists (t +:+ u). by rewrite Ht, append_assoc. }
    destruct (Hlong g' r' Hg' Hr' (eq_sym Hh) Hpre') as [[= -> ->]|Hshort].
    + split.
      * split; [intros Hin; by apply wall_off in Hpub|]. intros Hno. destruct Hno. exists p. auto.
      * exists n. split; [done|]. unfold public_router in Hpub. rewrite Hcov in Hpub. by injection Hpub as <-.
    + pose proof (publicPriority_specific _ _ _ Hnorm' Hnorm Hunder Hpre Hshort). lia.
  - destruct (Hroutes r' Hr') as [Hf _ _ _]. rewrite Hrule, reserved_rule_reads in Hlet by auto.
    destruct Hlet as [_ Hpath]. destruct (Hres g' Hg'). by rewrite Hpath.
Qed.

(** Over plain http a protected group only redirects. *)
Lemma web_redirects rg rt :
  is_Some (Access rg) → rt ∈ routers rg → rt_entry rt = "web" → rt_middlewares rt = [scoped rg "https-redirect"].
Proof.
  intros Hacc. unfold routers. rewrite !elem_of_app. intros [Hin|[Hin|Hin]] He.
  - apply list_elem_of_join in Hin as (l & Hrt & (n & r & _ & ->)%elem_of_imap). unfold route_routers in Hrt.
    apply elem_of_app in Hrt as [Hrt|Hrt].
    + apply elem_of_cons in Hrt as [->|Hrt]; [|by apply list_elem_of_singleton in Hrt as ->].
      cbn. unfold forceHTTPS. by rewrite bool_decide_true, orb_true_r.
    + destruct (Access rg); [|by destruct Hacc]. apply list_elem_of_omap in Hrt as (o & (k & p & _ & ->)%elem_of_imap & Ho).
      cbn in Ho. unfold public_router in Ho. destruct (Covers _ _); [|done]. by injection Ho as <-.
  - unfold callback_routers in Hin. destruct (callback_policy rg); [|by apply not_elem_of_nil in Hin].
    by apply elem_of_imap in Hin as (n & r & _ & ->).
  - unfold attach_routers in Hin. by apply elem_of_imap in Hin as (n & r & _ & ->).
Qed.

(** C32: the access wall holds and routing is by the most specific path: of all
    the files on a server, a https request outside the reserved paths that has a
    serving route — the longest of its host — in a protected group is answered
    by a router of that route, towards its service; that router carries the
    access middleware unless the request is one of the route's own exceptions,
    and then does not.  No exception of another route, and no less specific
    route, opens a way around; over plain http the group only redirects.  This is of
    groups whose hosts, paths and methods have no backquote, whose paths are in
    normal form and whose templates are ASCII ([group_ok]), which the handlers do
    not all check. *)
Theorem access_wall gs g r q rt pol :
  Forall group_ok gs → Access g = Some pol → serving gs q g r →
  (∀ g', g' ∈ gs → rq_path q ∉ reserved g') → answers gs q rt →
  (scoped g "access" ∈ rt_middlewares rt ↔ ¬ excepted r q) ∧
  (∃ n, sorted_routes g !! n = Some r ∧ rt_service rt = scoped g ("s" +:+ num n)) ∧
  ∀ rt', rt' ∈ routers g → rt_entry rt' = "web" → rt_middlewares rt' = [scoped g "https-redirect"].
Proof.
  intros Hok Hacc Hserv Hres Hans. destruct (wall_at gs g r q rt pol) as [Hwall Hroute]; [done..|].
  split_and!; [done|done|]. intros rt'. apply web_redirects. by rewrite Hacc.
Qed.

Lemma route_le_antisym a b :
  route_le a b → route_le b a → (route_fqdn a, route_path a) = (route_fqdn b, route_path b).
Proof.
  unfold route_le. intros [[Hne H1]|[-> H1]] [[Hne' H2]|[E H2]]; try congruence.
  - destruct Hne. by apply (anti_symm String.le).
  - f_equal. by apply (anti_symm String.le).
Qed.

#[export] Instance route_le_trans : Transitive route_le.
Proof.
  intros a b c. unfold route_le. intros [[Hne H1]|[E1 H1]] [[Hne' H2]|[E2 H2]].
  - left. split; [|by etrans]. intros E. rewrite E in H1. apply Hne'. by apply (anti_symm String.le).
  - left. rewrite <- E2. auto.
  - left. rewrite E1. auto.
  - right. split; [congruence|by etrans].
Qed.

#[export] Instance route_le_total : Total route_le.
Proof.
  intros a b. unfold route_le. destruct (decide (route_fqdn a = route_fqdn b)) as [E|E].
  - destruct (total String.le (route_path a) (route_path b)); auto.
  - destruct (total String.le (route_fqdn a) (route_fqdn b)); [left|right]; left; auto.
Qed.

Lemma NoDup_fmap_elem {A B} (f : A → B) l a b : NoDup (f <$> l) → a ∈ l → b ∈ l → f a = f b → a = b.
Proof.
  induction l as [|x l IH]; [by intros _ ?%not_elem_of_nil|]. rewrite fmap_cons, NoDup_cons. intros [Hx Hnd].
  rewrite !elem_of_cons. intros [->|Ha] [->|Hb] E; [done| | |auto].
  - destruct Hx. rewrite E. by apply list_elem_of_fmap_2.
  - destruct Hx. rewrite <- E. by apply list_elem_of_fmap_2.
Qed.

(** The file does not depend on the order in which the domains come: a group
    whose routes are a permutation of another's, distinct by host and path,
    yields the same text, byte for byte. *)
Theorem GenerateDynamic_stable rg routes revision :
  routes ≡ₚ Routes rg → NoDup ((λ r, (route_fqdn r, route_path r)) <$> Routes rg) →
  GenerateDynamic (mkGroup (AppUUID rg) (WildcardDomain rg) (DNSProvider rg) (Endpoint rg) routes (ForceHTTPS rg)
                     (Access rg) (Noindex rg) (IngressAttachPath rg)) revision =
  GenerateDynamic rg revision.
Proof.
  intros Hperm Hnd. destruct rg as [uuid wd dp ep rs fh acc ni iap]. cbn [Routes] in *.
  assert (merge_sort route_le routes = merge_sort route_le rs) as Hsort.
  { apply (StronglySorted_unique_strong route_le); [|apply StronglySorted_merge_sort; apply _..|by rewrite !merge_sort_Permutation].
    intros a b Ha Hb Hab Hba. rewrite merge_sort_Permutation, Hperm in Ha. rewrite merge_sort_Permutation in Hb.
    eapply NoDup_fmap_elem; [exact Hnd|done|done|]. by apply route_le_antisym. }
  unfold GenerateDynamic, routers, sorted_routes. cbn. by rewrite Hsort.
Qed.

(** ** On a concrete server *)

(** A protected group with one exception, behind basic authentication. *)
Definition demo_group : RouteGroup :=
  mkGroup "app" "" "" "" [mkProxyRoute "app.example.org" "/" 80 "" [AccessRoute.mkRoute "/health" MatchExact ["GET"] ∅]]
    true (Some (mkPolicy "basic_auth" "hash" "" "" "")) false "".
Definition demo_request : request := mkRequest "app.example.org" "GET" "/admin".

Lemma demo_group_ok : group_ok demo_group.
Proof.
  split; [|constructor]. apply Forall_singleton. split; cbn; [repeat split; discriminate..| |].
  - split; [done|by left].
  - apply Forall_singleton. split_and!; [|discriminate|by repeat constructor].
    eapply (Validate_valid [] (AccessRoute.mkRoute "/health" MatchExact ["GET"] ∅)); [done|vm_compute; reflexivity].
Qed.

Lemma demo_serving : serving [demo_group] demo_request demo_group (mkProxyRoute "app.example.org" "/" 80 "" [AccessRoute.mkRoute "/health" MatchExact ["GET"] ∅]).
Proof.
  split_and!; [left|left|done|done|]. intros g' r' ->%list_elem_of_singleton Hr' _ _. cbn in Hr'.
  apply list_elem_of_singleton in Hr' as ->. by left.
Qed.

Lemma access_wall_witness :
  ∃ rt, answers [demo_group] demo_request rt ∧ scoped demo_group "access" ∈ rt_middlewares rt.
Proof.
  destruct (secure_candidate [demo_group] demo_request _ _ demo_group_ok demo_serving) as [n Hc].
  assert (answers [demo_group] demo_request (secure_router demo_group n (mkProxyRoute "app.example.org" "/" 80 "" [AccessRoute.mkRoute "/health" MatchExact ["GET"] ∅]))) as Ha.
  { split; [exact Hc|]. intros rt' (Hin & He & r & Hr & Hall). vm_compute in Hin.
    repeat (apply elem_of_cons in Hin as [->|Hin]; [try discriminate He; try (vm_compute; discriminate)|]);
      [|by apply not_elem_of_nil in Hin].
    exfalso. vm_compute in Hr. injection Hr as <-. apply Forall_cons in Hall as [_ [Hp _]%Forall_cons].
    apply Exists_cons in Hp as [Hp|Hp]; [discriminate Hp|by apply Exists_nil in Hp]. }
  exists (secure_router demo_group n (mkProxyRoute "app.example.org" "/" 80 "" [AccessRoute.mkRoute "/health" MatchExact ["GET"] ∅])).
  split; [exact Ha|].
  eapply (access_wall [demo_group] demo_group _ demo_request _ _ ltac:(apply Forall_singleton; exact demo_group_ok) eq_refl demo_serving).
  - intros g' ->%list_elem_of_singleton. vm_compute. intros Hin. by apply not_elem_of_nil in Hin.
  - exact Ha.
  - intros (p & Hp & _ & Hadm & _). apply list_elem_of_singleton in Hp as ->. discriminate Hadm.
Defined.

Lemma GenerateDynamic_stable_witness :
  let a := mkProxyRoute "a.example.org" "/" 80 "" [] in
  let b := mkProxyRoute "a.example.org" "/api" 81 "" [] in
  let rg := mkGroup "app" "" "" "" [a; b] true None false "" in
  GenerateDynamic (mkGroup "app" "" "" "" [b; a] true None false "") 1 = GenerateDynamic rg 1.
Proof.
  intros a b rg. apply (GenerateDynamic_stable rg [b; a] 1); [apply Permutation_swap|].
  cbn. repeat constructor; set_solver.
Defined.

(** The path of a domain is not checked: a backquote in it ends the raw string
    of the rule, and what follows is read as part of the rule. *)
Lemma domain_path_leaves_quotes :
  ∃ spec, parseDomain "app.example.org/x`)&&(`y" = Some spec ∧ ds_path spec = "/x`)&&(`y" ∧
    ∀ q, ¬ lets_through (route_rule (mkProxyRoute (ds_fqdn spec) (ds_path spec) 80 "" [])) q.
Proof.
  eexists. split; [vm_compute; reflexivity|]. split; [done|]. intros q (r & Hr & _). vm_compute in Hr. discriminate.
Qed.

(** A path may end with a slash, and then an exception of the route above it
    has the same priority: which of the two answers is left to the proxy. *)
Lemma doubled_slash_ties :
  ds_path <$> parseDomain "app.example.org/x//" = Some "/x/" ∧ publicPriority "/x" = Priority "/x/".
Proof. split; vm_compute; reflexivity. Qed.
