(* ===== verification/Queue.v ===== *)
(** * The durable job queue

    Models [internal/queue] (enqueue, the worker's life of one attempt, the
    retry delay) over the SQL statements of [internal/store/jobs.sql.go], each
    an atomic update of a table of jobs.  Worker processes share the table; a
    worker's goroutine keeps the row it dequeued as a local copy, which is what
    [Worker.fail] decides on.  [updated_at], the payload and the step records
    are left out: no decision reads them. *)
From S2P Require Import Prelude GoLib Calendar.
Local Open Scope Z_scope.

(** ** The table *)

(** [store.JobStatus] *)
Inductive JobStatus :=
| Scheduled | Queued | Leased | Running | RetryWait | Succeeded | Cancelled | DeadLetter.

#[export] Instance JobStatus_eq_dec : EqDecision JobStatus.
Proof. solve_decision. Defined.

(** What never changes in a row, and what the statements update. *)
Record Job := mkJob {
  job_id : Z; job_queue : string; job_type : string; job_priority : Z;
  job_max_attempts : Z; job_idempotency_key : option string; job_lock_key : option string;
  job_status : JobStatus; job_run_at : Z; job_attempt : Z; job_resume_count : Z;
  job_leased_by : option string; job_lease_expires_at : option Z; job_heartbeat_at : option Z;
  job_last_error : option string; job_result : option string;
  job_dead_lettered_at : option Z; job_finished_at : option Z
}.

(** The table and its identity sequence. *)
Record DB := mkDB { jobs : gmap Z Job; next_id : Z }.

Definition active (j : Job) : bool :=
  bool_decide (job_status j = Leased) || bool_decide (job_status j = Running).

(** [NOT EXISTS (… h.lock_key = j.lock_key AND h.status IN ('leased','running'))] *)
Definition lock_free (db : DB) (j : Job) : bool :=
  match job_lock_key j with
  | None => true
  | Some k => bool_decide (map_Forall (λ _ h, ¬ (job_lock_key h = Some k ∧ active h = true)) (jobs db))
  end.

(** *** Statements *)

Definition EnqueueJobParams : Type := Z → Job. (** the row, given its id *)

(** [EnqueueJob]: [ON CONFLICT (idempotency_key) … DO NOTHING] yields no row. *)
Definition EnqueueJob (db : DB) (row : EnqueueJobParams) : DB * option Job :=
  let j := row (next_id db) in
  let conflict :=
    match job_idempotency_key j with
    | None => false
    | Some k => bool_decide (map_Exists (λ _ h, job_idempotency_key h = Some k) (jobs db))
    end in
  if conflict then (mkDB (jobs db) (next_id db + 1), None)
  else (mkDB (<[ next_id db := j ]> (jobs db)) (next_id db + 1), Some j).

(** [GetJobByIdempotencyKey] *)
Definition GetJobByIdempotencyKey (db : DB) (k : string) : option Job :=
  snd <$> head (filter (λ x, job_idempotency_key x.2 = Some k) (map_to_list (jobs db))).

(** [ORDER BY priority DESC, run_at, id] *)
Definition before (j k : Job) : bool :=
  (job_priority k <? job_priority j) ||
  ((job_priority j =? job_priority k) &&
   ((job_run_at j <? job_run_at k) ||
    ((job_run_at j =? job_run_at k) && (job_id j <? job_id k)))).

Definition first_of (js : list Job) : option Job :=
  foldr (λ j best, match best with
                   | None => Some j
                   | Some b => if before b j then Some b else Some j
                   end) None js.

Definition eligible (db : DB) (queues : list string) (now : Z) (j : Job) : bool :=
  bool_decide (job_status j = Queued) && bool_decide (job_queue j ∈ queues) &&
  (job_run_at j <=? now) && lock_free db j.

(** [DequeueJob]; [locked] are the rows other transactions hold, skipped by
    [FOR UPDATE … SKIP LOCKED]. *)
Definition DequeueJob (db : DB) (queues : list string) (worker : string) (lease now : Z)
    (locked : gset Z) : DB * option Job :=
  let candidates :=
    filter (λ j, eligible db queues now j = true ∧ job_id j ∉ locked) (map_to_list (jobs db)).*2 in
  match first_of candidates with
  | None => (db, None)
  | Some j =>
      let j' := mkJob (job_id j) (job_queue j) (job_type j) (job_priority j) (job_max_attempts j)
                  (job_idempotency_key j) (job_lock_key j)
                  Leased (job_run_at j) (job_attempt j + 1) (job_resume_count j)
                  (Some worker) (Some (now + lease)) (Some now)
                  (job_last_error j) (job_result j) (job_dead_lettered_at j) (job_finished_at j) in
      (mkDB (<[ job_id j := j' ]> (jobs db)) (next_id db), Some j')
  end.

(** [UPDATE jobs SET … WHERE id = $1 AND cond]: the row count is 0 or 1. *)
Definition update_where (db : DB) (id : Z) (cond : Job → bool) (f : Job → Job) : DB * Z :=
  match jobs db !! id with
  | Some j => if cond j then (mkDB (<[ id := f j ]> (jobs db)) (next_id db), 1) else (db, 0)
  | None => (db, 0)
  end.

Definition held_by (worker : string) (j : Job) : bool :=
  bool_decide (job_leased_by j = Some worker).

(** [MarkJobRunning] *)
Definition mark_running (j : Job) : Job :=
  mkJob (job_id j) (job_queue j) (job_type j) (job_priority j) (job_max_attempts j)
    (job_idempotency_key j) (job_lock_key j) Running (job_run_at j) (job_attempt j)
    (job_resume_count j) (job_leased_by j) (job_lease_expires_at j) (job_heartbeat_at j)
    (job_last_error j) (job_result j) (job_dead_lettered_at j) (job_finished_at j).
Definition MarkJobRunning (db : DB) (id : Z) (worker : string) : DB * Z :=
  update_where db id (λ j, held_by worker j && bool_decide (job_status j = Leased)) mark_running.

(** [HeartbeatJob] *)
Definition heartbeat (now lease : Z) (j : Job) : Job :=
  mkJob (job_id j) (job_queue j) (job_type j) (job_priority j) (job_max_attempts j)
    (job_idempotency_key j) (job_lock_key j) (job_status j) (job_run_at j) (job_attempt j)
    (job_resume_count j) (job_leased_by j) (Some (now + lease)) (Some now)
    (job_last_error j) (job_result j) (job_dead_lettered_at j) (job_finished_at j).
Definition HeartbeatJob (db : DB) (id : Z) (worker : string) (lease now : Z) : DB * Z :=
  update_where db id (λ j, held_by worker j && active j) (heartbeat now lease).

(** [SucceedJob] *)
Definition succeed (result : option string) (now : Z) (j : Job) : Job :=
  mkJob (job_id j) (job_queue j) (job_type j) (job_priority j) (job_max_attempts j)
    (job_idempotency_key j) (job_lock_key j) Succeeded (job_run_at j) (job_attempt j)
    (job_resume_count j) None None (job_heartbeat_at j)
    (job_last_error j) result (job_dead_lettered_at j) (Some now).
Definition SucceedJob (db : DB) (id : Z) (result : option string) (worker : string) (now : Z) : DB * Z :=
  update_where db id (λ j, held_by worker j && active j) (succeed result now).

(** [FailJob] *)
Definition fail_job (err : string) (next_run now : Z) (to_dead : bool) (j : Job) : Job :=
  mkJob (job_id j) (job_queue j) (job_type j) (job_priority j) (job_max_attempts j)
    (job_idempotency_key j) (job_lock_key j) (if to_dead then DeadLetter else RetryWait) next_run
    (job_attempt j) (job_resume_count j) None None (job_heartbeat_at j)
    (Some err) (job_result j) (if to_dead then Some now else None) (if to_dead then Some now else None).
Definition FailJob (db : DB) (id : Z) (err : string) (next_run : Z) (to_dead : bool)
    (worker : string) (now : Z) : DB * Z :=
  update_where db id (λ j, held_by worker j && active j) (fail_job err next_run now to_dead).

(** [ReapExpiredLeases]: the attempt is given back, at most [max_resumes] times. *)
Definition expired (now : Z) (j : Job) : bool :=
  active j && match job_lease_expires_at j with Some e => e <? now | None => false end.
Definition reap (max_resumes now : Z) (j : Job) : Job :=
  let dead := max_resumes <=? job_resume_count j in
  mkJob (job_id j) (job_queue j) (job_type j) (job_priority j) (job_max_attempts j)
    (job_idempotency_key j) (job_lock_key j) (if dead then DeadLetter else RetryWait) now
    (if dead then job_attempt j else Z.max (job_attempt j - 1) 0) (job_resume_count j + 1)
    None None (job_heartbeat_at j)
    (Some (default "lease expired (worker crash or hang)" (job_last_error j))) (job_result j)
    (if dead then Some now else job_dead_lettered_at j) (if dead then Some now else job_finished_at j).
Definition ReapExpiredLeases (db : DB) (max_resumes now : Z) : DB :=
  mkDB ((λ j, if expired now j then reap max_resumes now j else j) <$> jobs db) (next_id db).

(** [PromoteWaitingJobs] *)
Definition due (now : Z) (j : Job) : bool :=
  (bool_decide (job_status j = RetryWait) || bool_decide (job_status j = Scheduled)) &&
  (job_run_at j <=? now).
Definition promote (j : Job) : Job :=
  mkJob (job_id j) (job_queue j) (job_type j) (job_priority j) (job_max_attempts j)
    (job_idempotency_key j) (job_lock_key j) Queued (job_run_at j) (job_attempt j)
    (job_resume_count j) (job_leased_by j) (job_lease_expires_at j) (job_heartbeat_at j)
    (job_last_error j) (job_result j) (job_dead_lettered_at j) (job_finished_at j).
Definition PromoteWaitingJobs (db : DB) (now : Z) : DB :=
  mkDB ((λ j, if due now j then promote j else j) <$> jobs db) (next_id db).

(** [ForgetDeadLetterJob] *)
Definition forget (now : Z) (j : Job) : Job :=
  mkJob (job_id j) (job_queue j) (job_type j) (job_priority j) (job_max_attempts j)
    (job_idempotency_key j) (job_lock_key j) Cancelled (job_run_at j) (job_attempt j)
    (job_resume_count j) (job_leased_by j) (job_lease_expires_at j) (job_heartbeat_at j)
    (job_last_error j) (job_result j) (job_dead_lettered_at j) (Some now).
Definition ForgetDeadLetterJob (db : DB) (id now : Z) : DB * Z :=
  update_where db id (λ j, bool_decide (job_status j = DeadLetter)) (forget now).

(** [CancelJobsForDeployments], of the jobs it chooses by their deployment *)
Definition cancel_job (now : Z) (j : Job) : Job :=
  mkJob (job_id j) (job_queue j) (job_type j) (job_priority j) (job_max_attempts j)
    (job_idempotency_key j) (job_lock_key j) Cancelled (job_run_at j) (job_attempt j)
    (job_resume_count j) (job_leased_by j) (job_lease_expires_at j) (job_heartbeat_at j)
    (job_last_error j) (job_result j) (job_dead_lettered_at j) (Some now).
Definition CancelQueued (db : DB) (chosen : Job → bool) (now : Z) : DB :=
  mkDB ((λ j, if bool_decide (job_status j = Queued) && chosen j then cancel_job now j else j) <$> jobs db) (next_id db).

(** [PurgeTerminalJobs] *)
Definition purgeable (cutoff : Z) (j : Job) : bool :=
  (bool_decide (job_status j = Succeeded) || bool_decide (job_status j = Cancelled)) &&
  match job_finished_at j with Some t => t <? cutoff | None => false end.
Definition PurgeTerminalJobs (db : DB) (cutoff : Z) : DB :=
  mkDB (filter (λ x, purgeable cutoff x.2 = false) (jobs db)) (next_id db).

(** ** Package queue *)

Definition LeaseDuration : Z := 90 * second.
Definition maxResumes : Z := 3.

(** [queue.KnownQueues] *)
Definition KnownQueues : list string :=
  ["default"; "deploy"; "backup"; "cleanup"; "notify"; "maintenance"; "webhook"; "task"].

(** [queue.EnqueueOptions] *)
Record EnqueueOptions := mkOptions {
  o_queue : string; o_type : string; o_priority : Z; o_run_at : option Z;
  o_max_attempts : Z; o_idempotency_key : option string; o_lock_key : option string;
  o_payload_ok : bool (** the payload marshals to JSON *)
}.

Inductive enqueue_error := UnknownQueue (q : string) | PayloadError | NoRow.

(** [queue.Enqueue] *)
Definition Enqueue (db : DB) (opts : EnqueueOptions) (now : Z) : DB * (enqueue_error + Job) :=
  let queue := if decide (o_queue opts = "") then "default" else o_queue opts in
  if negb (bool_decide (queue ∈ KnownQueues)) then (db, inl (UnknownQueue queue))
  else if negb (o_payload_ok opts) then (db, inl PayloadError)
  else
    let '(run_at, status) :=
      match o_run_at opts with
      | Some t => if now <? t then (t, Scheduled) else (now, Queued)
      | None => (now, Queued)
      end in
    let max_attempts := if o_max_attempts opts <=? 0 then 5 else o_max_attempts opts in
    let row := λ id, mkJob id queue (o_type opts) (o_priority opts) max_attempts
                 (o_idempotency_key opts) (o_lock_key opts) status run_at 0 0
                 None None None None None None None in
    let '(db', r) := EnqueueJob db row in
    match r with
    | Some j => (db', inr j)
    | None =>
        match o_idempotency_key opts with
        | Some k => match GetJobByIdempotencyKey db' k with
                    | Some j => (db', inr j)
                    | None => (db', inl NoRow)
                    end
        | None => (db', inl NoRow)
        end
    end.

(** [queue.retryBackoff], before the jitter: [RetryBase << max(attempt-1, 0)]
    on a 64-bit duration — a shift of 64 or more gives 0 — capped at five
    minutes, overflow included. *)
Definition RetryBase : Z := 5 * second.
Definition retry_base (attempt : Z) : Z :=
  let shift := Z.max (wrap32 (attempt - 1)) 0 in
  let base := wrap64 (RetryBase * 2 ^ shift) in
  if (5 * minute <? base) || (base <=? 0) then 5 * minute else base.

(** [Worker.fail]: the decision is taken on the goroutine's copy of the row. *)
Definition worker_fail (db : DB) (worker : string) (job : Job) (err : string) (delay now : Z) : DB :=
  let toDead := job_max_attempts job <=? job_attempt job in
  let nextRun := if toDead then now else now + delay in
  fst (FailJob db (job_id job) err nextRun toDead worker now).

(** ** The running system

    Several worker processes run against the table.  An attempt is one
    goroutine inside [Worker.process], with the row it dequeued; [at_lease]
    numbers the lease it was granted (the [leases] counter is not stored
    anywhere, it only lets the theorems speak about leases). *)
Record Attempt := mkAttempt {
  at_worker : string; at_job : Job; at_started : bool; at_lease : Z
}.

Record System := mkSystem {
  sys_db : DB; sys_now : Z; sys_attempts : gmap nat Attempt; sys_leases : gmap Z Z
}.

Definition leases (s : System) (id : Z) : Z := default 0 (sys_leases s !! id).

Inductive action :=
| Tick (d : Z)
| DoEnqueue (opts : EnqueueOptions)
| DoDequeue (g : nat) (worker : string) (locked : gset Z)
| DoMarkRunning (g : nat)
| DoHeartbeat (g : nat)
| DoSucceed (g : nat) (result : option string)
| DoFail (g : nat) (err : string) (delay : Z)
| DoCrash (g : nat)
| DoReap
| DoPromote
| DoForget (id : Z)
| DoPurge (cutoff : Z)
| DoCancelQueued (chosen : gset Z).

(** [Worker.Run] and [Worker.process], one statement at a time: an attempt is
    dequeued, marked running — or dropped when the lease was lost —, kept alive
    by heartbeats and finished by [SucceedJob] or [fail]; maintenance promotes
    and reaps; a crash forgets the goroutine and touches nothing. *)
Definition apply (a : action) (s : System) : option System :=
  let '(mkSystem db now ats ls) := s in
  match a with
  | Tick d => if 0 <=? d then Some (mkSystem db (now + d) ats ls) else None
  | DoEnqueue opts => Some (mkSystem (fst (Enqueue db opts now)) now ats ls)
  | DoDequeue g worker locked =>
      match ats !! g with
      | Some _ => None
      | None =>
          match DequeueJob db KnownQueues worker LeaseDuration now locked with
          | (db', Some j) =>
              let n := default 0 (ls !! job_id j) + 1 in
              Some (mkSystem db' now (<[ g := mkAttempt worker j false n ]> ats)
                      (<[ job_id j := n ]> ls))
          | (_, None) => None
          end
      end
  | DoMarkRunning g =>
      match ats !! g with
      | Some (mkAttempt w j false n) =>
          let '(db', rows) := MarkJobRunning db (job_id j) w in
          Some (mkSystem db' now
                  (if rows =? 0 then delete g ats else <[ g := mkAttempt w j true n ]> ats) ls)
      | _ => None
      end
  | DoHeartbeat g =>
      match ats !! g with
      | Some (mkAttempt w j true _) =>
          Some (mkSystem (fst (HeartbeatJob db (job_id j) w LeaseDuration now)) now ats ls)
      | _ => None
      end
  | DoSucceed g result =>
      match ats !! g with
      | Some (mkAttempt w j true _) =>
          Some (mkSystem (fst (SucceedJob db (job_id j) result w now)) now (delete g ats) ls)
      | _ => None
      end
  | DoFail g err delay =>
      match ats !! g with
      | Some (mkAttempt w j true _) =>
          Some (mkSystem (worker_fail db w j err delay now) now (delete g ats) ls)
      | _ => None
      end
  | DoCrash g => Some (mkSystem db now (delete g ats) ls)
  | DoReap => Some (mkSystem (ReapExpiredLeases db maxResumes now) now ats ls)
  | DoPromote => Some (mkSystem (PromoteWaitingJobs db now) now ats ls)
  | DoForget id => Some (mkSystem (fst (ForgetDeadLetterJob db id now)) now ats ls)
  | DoPurge cutoff => Some (mkSystem (PurgeTerminalJobs db cutoff) now ats ls)
  | DoCancelQueued chosen =>
      Some (mkSystem (CancelQueued db (λ j, bool_decide (job_id j ∈ chosen) && bool_decide (job_type j = "deployment.run")) now)
              now ats ls)
  end.

(** An action is fenced when a finishing goroutine still owns the lease it was
    granted: nobody dequeued its job again since. *)
Definition fenced (a : action) (s : System) : bool :=
  match a with
  | DoSucceed g _ | DoFail g _ _ =>
      match sys_attempts s !! g with
      | Some at' => at_lease at' =? leases s (job_id (at_job at'))
      | None => true
      end
  | _ => true
  end.

Definition step (s s' : System) : Prop := ∃ a, apply a s = Some s'.
Definition fenced_step (s s' : System) : Prop := ∃ a, fenced a s = true ∧ apply a s = Some s'.

Definition init (now : Z) : System := mkSystem (mkDB ∅ 1) now ∅ ∅.

Fixpoint run_actions (acts : list action) (s : System) : option System :=
  match acts with
  | [] => Some s
  | a :: rest => s' ← apply a s; run_actions rest s'
  end.

Lemma run_actions_reachable acts s0 s s' :
  reachable_from step s0 s → run_actions acts s = Some s' → reachable_from step s0 s'.
Proof.
  revert s. induction acts as [|a acts IH]; intros s Hr H; simpl in H; [by simplify_eq|].
  destruct (apply a s) as [s1|] eqn:Ha; [|done]. simpl in H.
  apply (IH s1); [|done]. eapply reach_step; [done|]. by exists a.
Qed.

(** ** Invariants of the table *)

(** What no statement but the insertion changes. *)
Definition static_eq (j j' : Job) : Prop :=
  job_id j' = job_id j ∧ job_queue j' = job_queue j ∧ job_max_attempts j' = job_max_attempts j ∧
  job_idempotency_key j' = job_idempotency_key j ∧ job_lock_key j' = job_lock_key j.

(** The lease columns of a row agree with its status. *)
Definition lease_ok (j : Job) : Prop :=
  if active j then is_Some (job_leased_by j) ∧ is_Some (job_lease_expires_at j)
  else job_leased_by j = None ∧ job_lease_expires_at j = None.

Definition row_ok (db : DB) (id : Z) (j : Job) : Prop :=
  job_id j = id ∧ 0 < id < next_id db ∧ job_queue j ∈ KnownQueues ∧
  0 < job_max_attempts j ∧ lease_ok j.

(** Mutual exclusion on lock keys, uniqueness of idempotency keys. *)
Definition exclusive (m : gmap Z Job) : Prop :=
  ∀ i k j h, m !! i = Some j → m !! k = Some h → i ≠ k →
    (job_lock_key j = job_lock_key h → job_lock_key j ≠ None → active j = true → active h = true → False) ∧
    (job_idempotency_key j = job_idempotency_key h → job_idempotency_key j ≠ None → False).

Definition table_ok (db : DB) : Prop :=
  0 < next_id db ∧ map_Forall (row_ok db) (jobs db) ∧ exclusive (jobs db).

(** A statement shrinks the table when every row it leaves comes from a row of
    the same key, unchanged in its static part, and no job becomes active or has the attempt
    of its lease renumbered. *)
Definition shrinks (db db' : DB) : Prop :=
  next_id db' = next_id db ∧
  ∀ i j', jobs db' !! i = Some j' → ∃ j, jobs db !! i = Some j ∧ static_eq j j' ∧
    (active j' = true → active j = true ∧ job_attempt j' = job_attempt j) ∧ (lease_ok j → lease_ok j').

Lemma shrinks_refl db : shrinks db db.
Proof. split; [done|]. intros i j Hj. exists j. unfold static_eq. tauto. Qed.

Lemma shrinks_table_ok db db' : shrinks db db' → table_ok db → table_ok db'.
Proof.
  intros [Hn Hs] (Hpos & Hrows & Hex). split; [lia|]. split.
  - intros i j' Hj'. destruct (Hs i j' Hj') as (j & Hj & (Hid & Hq & Hmax & _) & _ & Hl).
    destruct (Hrows i j Hj) as (Hi & ? & ? & ? & ?). unfold row_ok.
    rewrite Hid, Hq, Hmax, Hn. split_and!; auto; lia.
  - intros i k j' h' Hi Hk Hik.
    destruct (Hs i j' Hi) as (j & Hj & (_ & _ & _ & Hij & Hlj) & Haj & _).
    destruct (Hs k h' Hk) as (h & Hh & (_ & _ & _ & Hih & Hlh) & Hah & _).
    destruct (Hex i k j h Hj Hh Hik). rewrite Hij, Hih, Hlj, Hlh.
    split; [|done]. intros ?? [? _]%Haj [? _]%Hah. auto.
Qed.

Lemma update_where_shrinks db id cond f :
  (∀ j, cond j = true → static_eq j (f j) ∧ (active (f j) = true → active j = true ∧ job_attempt (f j) = job_attempt j) ∧
        (lease_ok j → lease_ok (f j))) →
  shrinks db (fst (update_where db id cond f)).
Proof.
  intros Hf. unfold update_where. destruct (jobs db !! id) as [j|] eqn:Hj; [|apply shrinks_refl].
  destruct (cond j) eqn:Hc; [|apply shrinks_refl]. split; [done|]. simpl. intros i j' Hi.
  apply lookup_insert_Some in Hi as [[<- <-]|[_ Hi]]; [by exists j; auto|].
  exists j'. unfold static_eq. tauto.
Qed.

Lemma fmap_shrinks db f :
  (∀ j, static_eq j (f j) ∧ (active (f j) = true → active j = true ∧ job_attempt (f j) = job_attempt j) ∧ (lease_ok j → lease_ok (f j))) →
  shrinks db (mkDB (f <$> jobs db) (next_id db)).
Proof.
  intros Hf. split; [done|]. simpl. intros i j' Hi. apply lookup_fmap_Some in Hi as (j & <- & Hj).
  exists j. auto.
Qed.

(** Row-level goals: the status decides everything. *)
Ltac by_status j :=
  let st := fresh "st" in
  destruct j as [? ? ? ? ? ? ? st ? ? ? ? ? ? ? ? ? ?];
  unfold static_eq, lease_ok, active, held_by, due, expired, is_Some in *; simpl in *;
  destruct st; simpl in *; reflect_bools; simplify_eq/=; try discriminate.

Ltac shrink_row j := by_status j; repeat split; naive_solver.

Lemma statements_shrink db id w now :
  shrinks db (fst (MarkJobRunning db id w)) ∧
  (∀ lease, shrinks db (fst (HeartbeatJob db id w lease now))) ∧
  (∀ r, shrinks db (fst (SucceedJob db id r w now))) ∧
  (∀ e t d, shrinks db (fst (FailJob db id e t d w now))) ∧
  (∀ m, shrinks db (ReapExpiredLeases db m now)) ∧
  shrinks db (PromoteWaitingJobs db now) ∧
  shrinks db (fst (ForgetDeadLetterJob db id now)) ∧
  (∀ c, shrinks db (PurgeTerminalJobs db c)) ∧
  (∀ f, shrinks db (CancelQueued db f now)).
Proof.
  split_and!; intros; try (apply update_where_shrinks; intros j Hc).
  - shrink_row j.
  - shrink_row j.
  - shrink_row j.
  - destruct d; shrink_row j.
  - apply fmap_shrinks. intros j. destruct (expired now j); [|by unfold static_eq].
    unfold reap. destruct (m <=? job_resume_count j); shrink_row j.
  - apply fmap_shrinks. intros j. destruct (due now j) eqn:Hd; [|by unfold static_eq]; shrink_row j.
  - shrink_row j.
  - split; [done|]. simpl. intros i j' Hi. apply map_lookup_filter_Some in Hi as [Hi _].
    exists j'. unfold static_eq. tauto.
  - apply fmap_shrinks. intros j. destruct (bool_decide (job_status j = Queued)) eqn:Hq; [|by unfold static_eq].
    destruct (f j); [simpl|by unfold static_eq]. shrink_row j.
Qed.

(** *** Dequeue *)

Lemma first_of_Some js j :
  first_of js = Some j → j ∈ js ∧ ∀ k, k ∈ js → before k j = false.
Proof.
  revert j. induction js as [|x js IH]; intros j Hf; [done|]. simpl in Hf.
  destruct (first_of js) as [b|] eqn:Hb.
  - destruct (IH b eq_refl) as [Hin Hmin]. split.
    + destruct (before b x); simplify_eq; set_solver.
    + intros k Hk. apply elem_of_cons in Hk as [->|Hk].
      * destruct (before b x) eqn:E; simplify_eq; unfold before in *; lia.
      * specialize (Hmin k Hk).
        destruct (before b x) eqn:E; simplify_eq; [done|]. unfold before in *. lia.
  - destruct js as [|y js]; [|simpl in Hb; destruct (first_of js); [destruct (before _ _)|]; done].
    simplify_eq. split; [set_solver|]. intros k Hk. apply list_elem_of_singleton in Hk as ->.
    unfold before. lia.
Qed.

Lemma first_of_None js : first_of js = None → js = [].
Proof. destruct js as [|x js]; [done|]. simpl. destruct (first_of js); [destruct (before _ _)|]; done. Qed.

Lemma elem_of_rows (m : gmap Z Job) j : j ∈ (map_to_list m).*2 ↔ ∃ i, m !! i = Some j.
Proof.
  rewrite list_elem_of_fmap. split.
  - intros ([i j'] & -> & H). exists i. by apply elem_of_map_to_list.
  - intros [i H]. exists (i, j). split; [done|]. by apply elem_of_map_to_list.
Qed.

(** The row a dequeue leases. *)
Definition leased (worker : string) (lease now : Z) (j : Job) : Job :=
  mkJob (job_id j) (job_queue j) (job_type j) (job_priority j) (job_max_attempts j)
    (job_idempotency_key j) (job_lock_key j) Leased (job_run_at j) (job_attempt j + 1)
    (job_resume_count j) (Some worker) (Some (now + lease)) (Some now)
    (job_last_error j) (job_result j) (job_dead_lettered_at j) (job_finished_at j).

Lemma DequeueJob_Some db qs w lease now locked db' j' :
  map_Forall (row_ok db) (jobs db) →
  DequeueJob db qs w lease now locked = (db', Some j') →
  ∃ j, jobs db !! job_id j = Some j ∧ eligible db qs now j = true ∧ (job_id j ∉ locked) ∧
    (∀ i k, jobs db !! i = Some k → eligible db qs now k = true → i ∉ locked → before k j = false) ∧
    j' = leased w lease now j ∧ db' = mkDB (<[ job_id j := j' ]> (jobs db)) (next_id db).
Proof.
  intros Hrows. unfold DequeueJob. destruct (first_of _) as [j|] eqn:Hf; [|done].
  intros [= <- <-]. apply first_of_Some in Hf as [Hin Hmin]. exists j.
  apply list_elem_of_filter in Hin as [[He Hl] [i Hi]%elem_of_rows].
  destruct (Hrows i j Hi) as [Hid _]. split_and!; try done; [by rewrite Hid|].
  intros i' k Hk Hek Hlk. apply Hmin. apply list_elem_of_filter.
  destruct (Hrows i' k Hk) as [Hid' _]. rewrite Hid'. split; [done|]. apply elem_of_rows. eauto.
Qed.

Lemma lock_free_spec db j i h k :
  lock_free db j = true → jobs db !! i = Some h → job_lock_key j = Some k →
  job_lock_key h = Some k → active h = true → False.
Proof.
  unfold lock_free. intros Hf Hi Hk Hhk Ha. rewrite Hk in Hf.
  apply bool_decide_eq_true in Hf. by apply (Hf i h Hi).
Qed.

Lemma exclusive_insert m id j :
  exclusive m →
  (∀ k h, m !! k = Some h → k ≠ id →
    (job_lock_key j = job_lock_key h → job_lock_key j ≠ None → active j = true → active h = true → False) ∧
    (job_idempotency_key j = job_idempotency_key h → job_idempotency_key j ≠ None → False)) →
  exclusive (<[ id := j ]> m).
Proof.
  intros Hex Hnew i k a b Ha Hb Hik.
  apply lookup_insert_Some in Ha as [[<- <-]|[Hi Ha]];
    apply lookup_insert_Some in Hb as [[<- <-]|[Hk Hb]]; [done| | |by apply (Hex i k)].
  - by apply (Hnew k).
  - destruct (Hnew i a Ha) as [H1 H2]; [done|]. split.
    + intros He Hn Hx Hy. apply H1; [done|by rewrite <- He|done|done].
    + intros He Hn. apply H2; [done|by rewrite <- He].
Qed.

Lemma eligible_true db qs now j :
  eligible db qs now j = true →
  job_status j = Queued ∧ job_queue j ∈ qs ∧ job_run_at j <= now ∧ lock_free db j = true.
Proof. unfold eligible. intros. reflect_bools. auto. Qed.

Lemma DequeueJob_table_ok db qs w lease now locked db' j' :
  table_ok db → DequeueJob db qs w lease now locked = (db', Some j') → table_ok db'.
Proof.
  intros (Hpos & Hrows & Hex) Hd.
  destruct (DequeueJob_Some _ _ _ _ _ _ _ _ Hrows Hd) as (j & Hj & He & _ & _ & -> & ->).
  apply eligible_true in He as (Hst & _ & _ & Hfree).
  destruct (Hrows _ _ Hj) as (Hid & Hrange & Hq & Hmax & _).
  split; [done|]. split.
  - intros i h Hi. simpl in Hi. apply lookup_insert_Some in Hi as [[<- <-]|[_ Hi]].
    + split_and!; simpl; try done; try lia.
    + apply (Hrows i h Hi).
  - apply exclusive_insert; [done|]. simpl. intros k h Hk Hne. split.
    + intros Hlk Hnone _ Ha. destruct (job_lock_key j) as [key|] eqn:Ek; [|done].
      by eapply (lock_free_spec db j k h key).
    + destruct (Hex _ _ _ _ Hj Hk) as [_ Hu]; [done|]. exact Hu.
Qed.

(** *** Enqueue *)

Lemma row_ok_next db m i j : row_ok db i j → row_ok (mkDB m (next_id db + 1)) i j.
Proof. unfold row_ok. simpl. intros (? & ? & ? & ? & ?). split_and!; try done; lia. Qed.

Lemma EnqueueJob_table_ok db row :
  table_ok db →
  (∀ id, job_id (row id) = id ∧ job_queue (row id) ∈ KnownQueues ∧ 0 < job_max_attempts (row id) ∧
         active (row id) = false ∧ lease_ok (row id)) →
  table_ok (fst (EnqueueJob db row)).
Proof.
  intros (Hpos & Hrows & Hex) Hrow. unfold EnqueueJob.
  destruct (Hrow (next_id db)) as (Hid & Hq & Hmax & Hact & Hl).
  match goal with |- context [if ?b then _ else _] => destruct b eqn:Hc end; simpl.
  - split; [simpl; lia|]. split; [|done].
    intros i j Hi. by eapply row_ok_next, Hrows.
  - split; [simpl; lia|]. split.
    + intros i j Hi. simpl in Hi. apply lookup_insert_Some in Hi as [[<- <-]|[_ Hi]].
      * split_and!; simpl; try done; lia.
      * by eapply row_ok_next, Hrows.
    + apply exclusive_insert; [done|]. intros k h Hk Hne. split; [by rewrite Hact|].
      intros He Hnone. destruct (job_idempotency_key (row (next_id db))) as [key|]; [|done].
      apply bool_decide_eq_false in Hc. apply Hc. by exists k, h.
Qed.

(** The row [Enqueue] inserts. *)
Definition new_row (opts : EnqueueOptions) (now : Z) (id : Z) : Job :=
  let later := match o_run_at opts with Some t => now <? t | None => false end in
  mkJob id (if decide (o_queue opts = "") then "default" else o_queue opts) (o_type opts)
    (o_priority opts) (if o_max_attempts opts <=? 0 then 5 else o_max_attempts opts)
    (o_idempotency_key opts) (o_lock_key opts) (if later then Scheduled else Queued)
    (if later then default now (o_run_at opts) else now) 0 0
    None None None None None None None.

Lemma Enqueue_unfold db opts now :
  Enqueue db opts now =
  (let queue := if decide (o_queue opts = "") then "default" else o_queue opts in
   if negb (bool_decide (queue ∈ KnownQueues)) then (db, inl (UnknownQueue queue))
   else if negb (o_payload_ok opts) then (db, inl PayloadError)
   else
     match EnqueueJob db (new_row opts now) with
     | (db', Some j) => (db', inr j)
     | (db', None) =>
         match o_idempotency_key opts with
         | Some k => match GetJobByIdempotencyKey db' k with
                     | Some j => (db', inr j)
                     | None => (db', inl NoRow)
                     end
         | None => (db', inl NoRow)
         end
     end).
Proof. unfold Enqueue, new_row. by destruct (o_run_at opts) as [t|]; [destruct (now <? t)|]. Qed.

Lemma Enqueue_db db opts now :
  fst (Enqueue db opts now) = db ∨
  (let queue := if decide (o_queue opts = "") then "default" else o_queue opts in
   queue ∈ KnownQueues ∧ fst (Enqueue db opts now) = fst (EnqueueJob db (new_row opts now))).
Proof.
  rewrite Enqueue_unfold. cbv zeta.
  destruct (bool_decide _) eqn:Hq; [|by left]. apply bool_decide_eq_true in Hq.
  destruct (o_payload_ok opts); [|by left]. right. split; [done|]. simpl.
  destruct (EnqueueJob db _) as [db' [j|]]; [done|]. simpl.
  by destruct (o_idempotency_key opts) as [k|]; [destruct (GetJobByIdempotencyKey db' k)|].
Qed.

Lemma Enqueue_table_ok db opts now : table_ok db → table_ok (fst (Enqueue db opts now)).
Proof.
  intros Hok. destruct (Enqueue_db db opts now) as [->|[Hq ->]]; [done|].
  apply EnqueueJob_table_ok; [done|]. intros id. unfold new_row, active, lease_ok. simpl.
  split_and!; try done.
  - destruct (o_max_attempts opts <=? 0) eqn:E; reflect_bools; lia.
  - by destruct (o_run_at opts) as [t|]; [destruct (now <? t)|].
  - by destruct (o_run_at opts) as [t|]; [destruct (now <? t)|].
Qed.

(** *** The system *)

Lemma worker_fail_shrinks db w j err delay now : shrinks db (worker_fail db w j err delay now).
Proof.
  unfold worker_fail. destruct (statements_shrink db (job_id j) w now) as (_ & _ & _ & Hf & _). apply Hf.
Qed.

Ltac statement db id w now :=
  let H := fresh in
  pose proof (statements_shrink db id w now) as H; repeat destruct H as [? H]; auto.

(** What one action does to the table: a dequeue, an insertion, or a shrink. *)
Lemma apply_db a s s' :
  apply a s = Some s' →
  shrinks (sys_db s) (sys_db s') ∨
  (∃ opts, a = DoEnqueue opts ∧ sys_db s' = fst (Enqueue (sys_db s) opts (sys_now s))) ∨
  (∃ g w locked j, a = DoDequeue g w locked ∧
     DequeueJob (sys_db s) KnownQueues w LeaseDuration (sys_now s) locked = (sys_db s', Some j)).
Proof.
  destruct s as [db now ats ls]. destruct a as [d|opts|g w locked|g|g|g r|g e d|g| | |id|c|f]; simpl; intros Ha.
  - left. destruct (0 <=? d); simplify_eq. apply shrinks_refl.
  - right; left. simplify_eq. eauto.
  - right; right. destruct (ats !! g); [done|].
    destruct (DequeueJob _ _ _ _ _ _) as [db' [j|]] eqn:Hd; simplify_eq/=. eauto 10.
  - left. destruct (ats !! g) as [[w j [] n]|]; try done.
    destruct (MarkJobRunning db (job_id j) w) as [db' rows] eqn:Hm. simplify_eq/=.
    replace db' with (fst (MarkJobRunning db (job_id j) w)) by (by rewrite Hm). statement db (job_id j) w now.
  - left. destruct (ats !! g) as [[w j [] n]|]; simplify_eq/=. statement db (job_id j) w now.
  - left. destruct (ats !! g) as [[w j [] n]|]; simplify_eq/=. statement db (job_id j) w now.
  - left. destruct (ats !! g) as [[w j [] n]|]; simplify_eq/=. apply worker_fail_shrinks.
  - left. simplify_eq/=. apply shrinks_refl.
  - left. simplify_eq/=. statement db 0 "" now.
  - left. simplify_eq/=. statement db 0 "" now.
  - left. simplify_eq/=. statement db id "" now.
  - left. simplify_eq/=. statement db 0 "" now.
  - left. simplify_eq/=. statement db 0 "" now.
Qed.

Lemma queue_table_ok now0 s :
  reachable_from step (init now0) s → table_ok (sys_db s).
Proof.
  apply (reachable_invariant step (λ s, table_ok (sys_db s))).
  - split; [simpl; lia|]. split; [apply map_Forall_empty|]. intros i k j h Hj. simpl in Hj.
    by rewrite lookup_empty in Hj.
  - intros s1 s2 Hok [a Ha]. destruct (apply_db a s1 s2 Ha) as [Hs|[(o & _ & ->)|(g & w & l & j & _ & Hd)]].
    + by eapply shrinks_table_ok.
    + by apply Enqueue_table_ok.
    + by eapply DequeueJob_table_ok.
Qed.

(** C25: in every state the workers, the maintenance loop and the enqueuers can
    reach, the table is consistent: ids are the keys and below the sequence,
    every job sits on a queue the worker serves, a row carries a lease exactly
    while it is leased or running, two jobs sharing a lock key are never both
    leased or running, and no two rows share an idempotency key. *)
Theorem queue_table_invariant now0 s :
  reachable_from step (init now0) s → table_ok (sys_db s).
Proof. apply queue_table_ok. Qed.

(** A job with a lock key, two workers, one of which dies. *)
Definition locked_job : EnqueueOptions :=
  mkOptions "deploy" "deploy" 0 None 2 None (Some "server:1") true.
Definition two_locked : list action :=
  [DoEnqueue locked_job; DoEnqueue locked_job; DoDequeue 0 "w1" ∅; DoMarkRunning 0; DoCrash 0;
   Tick (91 * second); DoReap; DoPromote; DoDequeue 1 "w2" ∅].

Lemma queue_table_invariant_witness :
  ∃ s, run_actions two_locked (init 0) = Some s ∧ leases s 1 = 1 ∧ leases s 2 = 1 ∧ table_ok (sys_db s).
Proof.
  destruct (run_actions two_locked (init 0)) as [s|] eqn:E.
  - exists s. split; [done|]. split; [|split].
    + revert E. vm_compute. by intros [= <-].
    + revert E. vm_compute. by intros [= <-].
    + apply (queue_table_invariant 0). eapply run_actions_reachable; [apply reach_here|exact E].
  - exfalso. revert E. vm_compute. discriminate.
Defined.

(** ** The budget of leases of a job *)

Definition waiting (j : Job) : bool :=
  bool_decide (job_status j = Queued) || bool_decide (job_status j = Scheduled) ||
  bool_decide (job_status j = RetryWait).

(** Attempts used and resumes granted account for every lease so far. *)
Definition row_budget (n : Z) (j : Job) : Prop :=
  if waiting j then
    0 <= job_attempt j < job_max_attempts j ∧ 0 <= job_resume_count j <= maxResumes ∧
    n = job_attempt j + job_resume_count j
  else if active j then
    1 <= job_attempt j <= job_max_attempts j ∧ 0 <= job_resume_count j <= maxResumes ∧
    n = job_attempt j + job_resume_count j
  else job_attempt j <= job_max_attempts j ∧ n <= job_max_attempts j + maxResumes.

Definition frugal (db db' : DB) : Prop :=
  ∀ i j', jobs db' !! i = Some j' →
    ∃ j, jobs db !! i = Some j ∧ ∀ n, row_budget n j → row_budget n j'.

Lemma frugal_refl db : frugal db db.
Proof. intros i j Hj. eauto. Qed.

Lemma update_where_frugal db id cond f :
  (∀ j n, jobs db !! id = Some j → cond j = true → row_budget n j → row_budget n (f j)) →
  frugal db (fst (update_where db id cond f)).
Proof.
  intros Hf. unfold update_where. destruct (jobs db !! id) as [j|] eqn:Hj; [|apply frugal_refl].
  destruct (cond j) eqn:Hc; [|apply frugal_refl]. intros i j' Hi. simpl in Hi.
  apply lookup_insert_Some in Hi as [[<- <-]|[_ Hi]]; eauto.
Qed.

Lemma fmap_frugal db f :
  (∀ j n, row_budget n j → row_budget n (f j)) → frugal db (mkDB (f <$> jobs db) (next_id db)).
Proof. intros Hf i j' Hi. simpl in Hi. apply lookup_fmap_Some in Hi as (j & <- & Hj). eauto. Qed.

Ltac budget_row j := unfold row_budget, waiting in *; by_status j; unfold maxResumes in *; try lia.

Lemma statements_frugal db id w now :
  frugal db (fst (MarkJobRunning db id w)) ∧
  (∀ lease, frugal db (fst (HeartbeatJob db id w lease now))) ∧
  (∀ r, frugal db (fst (SucceedJob db id r w now))) ∧
  frugal db (ReapExpiredLeases db maxResumes now) ∧
  frugal db (PromoteWaitingJobs db now) ∧
  frugal db (fst (ForgetDeadLetterJob db id now)) ∧
  (∀ c, frugal db (PurgeTerminalJobs db c)) ∧
  (∀ f, frugal db (CancelQueued db f now)).
Proof.
  split_and!; intros; try (apply update_where_frugal; intros j n Hj Hc Hb).
  - budget_row j.
  - budget_row j.
  - budget_row j.
  - apply fmap_frugal. intros j n Hb. destruct (expired now j) eqn:He; [|done].
    unfold reap. destruct (maxResumes <=? job_resume_count j) eqn:Hm; reflect_bools; budget_row j.
  - apply fmap_frugal. intros j n Hb. destruct (due now j) eqn:Hd; [|done]. budget_row j.
  - budget_row j.
  - intros i j Hj. simpl in Hj. apply map_lookup_filter_Some in Hj as [Hj _]. eauto.
  - apply fmap_frugal. intros j n Hb. destruct (bool_decide (job_status j = Queued)) eqn:Hq; [|done].
    destruct (f j); [simpl|done]. budget_row j.
Qed.

Lemma worker_fail_frugal db w job err delay now :
  (∀ j, jobs db !! job_id job = Some j → active j = true →
     job_attempt j = job_attempt job ∧ job_max_attempts j = job_max_attempts job) →
  frugal db (worker_fail db w job err delay now).
Proof.
  intros Hsame. apply update_where_frugal. intros j n Hj Hc Hb. reflect_bools.
  destruct (Hsame j Hj) as [Ha Hm]; [done|]. rewrite <- Ha, <- Hm. clear Hsame Hj Ha Hm.
  destruct (job_max_attempts j <=? job_attempt j) eqn:Hd; reflect_bools; budget_row j.
Qed.

(** A goroutine that still owns its job's latest lease has a faithful copy. *)
Definition copy_ok (s : System) (a : Attempt) : Prop :=
  at_lease a <= leases s (job_id (at_job a)) ∧
  ∀ j, jobs (sys_db s) !! job_id (at_job a) = Some j → active j = true →
    at_lease a = leases s (job_id (at_job a)) →
    job_attempt j = job_attempt (at_job a) ∧ job_max_attempts j = job_max_attempts (at_job a).

Record budget_ok (s : System) : Prop := mkBudget {
  bo_table : table_ok (sys_db s);
  bo_rows : ∀ i j, jobs (sys_db s) !! i = Some j → row_budget (leases s i) j;
  bo_fresh : ∀ i, next_id (sys_db s) <= i → leases s i = 0;
  bo_copies : ∀ g a, sys_attempts s !! g = Some a → copy_ok s a
}.

(** An action that leases nothing and inserts nothing keeps the budget. *)
Lemma budget_ok_kept s db' now' ats' :
  budget_ok s → shrinks (sys_db s) db' → frugal (sys_db s) db' →
  (∀ g a, ats' !! g = Some a → ∃ g' a', sys_attempts s !! g' = Some a' ∧
     at_job a = at_job a' ∧ at_lease a = at_lease a') →
  budget_ok (mkSystem db' now' ats' (sys_leases s)).
Proof.
  intros [Ht Hr Hf Hc] Hs Hg Hats. destruct (Hs) as [Hn Hrow]. split; simpl.
  - by eapply shrinks_table_ok.
  - intros i j' Hi. destruct (Hg i j' Hi) as (j & Hj & Hb). apply Hb, (Hr i j Hj).
  - intros i Hi. apply (Hf i). by rewrite <- Hn.
  - intros g a Ha. destruct (Hats g a Ha) as (g' & a' & Ha' & Hj & Hl).
    destruct (Hc g' a' Ha') as [H1 H2]. unfold copy_ok. rewrite Hj, Hl. split; [exact H1|]. simpl.
    intros j' Hj' Hact Heq. destruct (Hrow _ _ Hj') as (j & Hjj & (_ & _ & Hmax & _) & Hactj & _).
    destruct (Hactj Hact) as [Haj Hatt]. rewrite Hatt, Hmax. by apply H2.
Qed.

Lemma sub_attempts (ats : gmap nat Attempt) g :
  (∀ g' a, ats !! g' = Some a → ∃ g'' a', ats !! g'' = Some a' ∧ at_job a = at_job a' ∧ at_lease a = at_lease a') ∧
  (∀ g' a, delete g ats !! g' = Some a →
     ∃ g'' a', ats !! g'' = Some a' ∧ at_job a = at_job a' ∧ at_lease a = at_lease a').
Proof.
  split; intros g' a Ha; [eauto|]. apply lookup_delete_Some in Ha as [_ Ha]. eauto.
Qed.

(** An insertion takes a fresh id, which nobody holds a lease on. *)
Lemma budget_ok_enqueue s opts :
  budget_ok s →
  budget_ok (mkSystem (fst (Enqueue (sys_db s) opts (sys_now s))) (sys_now s) (sys_attempts s) (sys_leases s)).
Proof.
  intros Hb. pose proof (Enqueue_table_ok (sys_db s) opts (sys_now s) (bo_table s Hb)) as Ht.
  destruct (Enqueue_db (sys_db s) opts (sys_now s)) as [E|[_ E]]; rewrite E in *;
    [by destruct s, Hb|].
  revert Ht. unfold EnqueueJob. destruct Hb as [(_ & Hrows & _) Hr Hf Hc].
  match goal with |- context [if ?b then _ else _] => destruct b end; simpl; intros Ht.
  - split; simpl; [done|exact Hr| |exact Hc]. intros i Hi. apply Hf. lia.
  - split; simpl; [done| | |].
    + intros i j Hi. apply lookup_insert_Some in Hi as [[<- <-]|[_ Hi]]; [|by apply Hr].
      change (leases _ _) with (leases s (next_id (sys_db s))). rewrite (Hf (next_id (sys_db s))) by lia.
      unfold row_budget, waiting, new_row, maxResumes. simpl.
      destruct (o_max_attempts opts <=? 0) eqn:E'; reflect_bools;
        (destruct (o_run_at opts) as [t|]; [destruct (sys_now s <? t)|]); simpl; lia.
    + intros i Hi. apply Hf. lia.
    + intros g a Ha. destruct (Hc g a Ha) as [H1 H2]. split; [exact H1|]. simpl.
      intros j Hj Hact. apply lookup_insert_Some in Hj as [[_ <-]|[_ Hj]]; [|by apply H2].
      exfalso. revert Hact. unfold active, new_row. simpl.
      by destruct (o_run_at opts) as [t|]; [destruct (sys_now s <? t)|].
Qed.

(** A dequeue renumbers the job's lease, so that every older copy is stale. *)
Lemma budget_ok_dequeue s g w locked db' j' :
  budget_ok s →
  DequeueJob (sys_db s) KnownQueues w LeaseDuration (sys_now s) locked = (db', Some j') →
  let n := leases s (job_id j') + 1 in
  budget_ok (mkSystem db' (sys_now s) (<[ g := mkAttempt w j' false n ]> (sys_attempts s))
               (<[ job_id j' := n ]> (sys_leases s))).
Proof.
  intros [Ht Hr Hf Hc] Hd n. pose proof (DequeueJob_table_ok _ _ _ _ _ _ _ _ Ht Hd) as Ht'.
  destruct Ht as (_ & Hrows & _).
  destruct (DequeueJob_Some _ _ _ _ _ _ _ _ Hrows Hd) as (j & Hj & He & _ & _ & -> & ->).
  apply eligible_true in He as (Hst & _ & _ & _).
  destruct (Hrows _ _ Hj) as (_ & Hrange & _). pose proof (Hr _ _ Hj) as Hbud.
  assert (Hlk : ∀ i, leases (mkSystem (mkDB (<[job_id j := leased w LeaseDuration (sys_now s) j]> (jobs (sys_db s)))
              (next_id (sys_db s))) (sys_now s)
              (<[ g := mkAttempt w (leased w LeaseDuration (sys_now s) j) false n ]> (sys_attempts s))
              (<[ job_id j := n ]> (sys_leases s))) i = if decide (i = job_id j) then n else leases s i).
  { intros i. unfold leases. simpl.
    destruct (decide (i = job_id j)) as [->|]; [by rewrite lookup_insert_eq|by rewrite lookup_insert_ne]. }
  split; simpl; [done| | |].
  - intros i h Hi. rewrite Hlk. apply lookup_insert_Some in Hi as [[<- <-]|[Hne Hi]].
    + rewrite decide_True by done. subst n. simpl.
      revert Hbud. unfold row_budget, waiting, active, leased. rewrite Hst. simpl. lia.
    + rewrite decide_False by done. by apply Hr.
  - intros i Hi. rewrite Hlk. rewrite decide_False by lia. by apply Hf.
  - intros g' a Ha. apply lookup_insert_Some in Ha as [[<- <-]|[_ Ha]].
    + split; simpl; rewrite Hlk, decide_True by done; [lia|].
      intros h Hh _ _. rewrite lookup_insert_eq in Hh. by simplify_eq.
    + destruct (Hc g' a Ha) as [H1 H2]. unfold copy_ok. rewrite Hlk. simpl.
      destruct (decide (job_id (at_job a) = job_id j)) as [E|E].
      * rewrite E in H1 |- *. subst n. simpl. split; [lia|]. intros; lia.
      * split; [done|]. intros h Hh. rewrite lookup_insert_ne in Hh by done. by apply H2.
Qed.

Lemma budget_ok_step a s s' :
  budget_ok s → fenced a s = true → apply a s = Some s' → budget_ok s'.
Proof.
  intros Hb Hfen Ha. pose proof (budget_ok_kept s) as Hk.
  destruct s as [db now ats ls].
  destruct a as [d|opts|g w locked|g|g|g r|g e d|g| | |id|c|f]; simpl in *.
  - destruct (0 <=? d); simplify_eq.
    apply Hk; [done|apply shrinks_refl|apply frugal_refl|apply (sub_attempts ats 0)].
  - simplify_eq. apply (budget_ok_enqueue _ opts Hb).
  - destruct (ats !! g); [done|]. destruct (DequeueJob _ _ _ _ _ _) as [db' [j|]] eqn:Hd; simplify_eq/=.
    apply (budget_ok_dequeue _ g w locked db' j Hb Hd).
  - destruct (ats !! g) as [[w j [] n]|] eqn:Hg; try done.
    pose proof (statements_shrink db (job_id j) w now) as [H1 _].
    pose proof (statements_frugal db (job_id j) w now) as [H2 _].
    destruct (MarkJobRunning db (job_id j) w) as [db' rows]. simplify_eq/=.
    apply Hk; [done..|]. destruct (rows =? 0); [apply (sub_attempts ats)|]. intros g' a Ha.
    apply lookup_insert_Some in Ha as [[<- <-]|[_ Ha]]; eauto.
  - destruct (ats !! g) as [[w j [] n]|] eqn:Hg; simplify_eq.
    apply Hk; [done|statement db (job_id j) w now| |apply (sub_attempts ats 0)].
    apply (statements_frugal db (job_id j) w now).
  - destruct (ats !! g) as [[w j [] n]|] eqn:Hg; simplify_eq.
    apply Hk; [done|statement db (job_id j) w now| |apply (sub_attempts ats g)].
    apply (statements_frugal db (job_id j) w now).
  - destruct (ats !! g) as [[w j [] n]|] eqn:Hg; simplify_eq.
    apply Hk; [done|apply worker_fail_shrinks| |apply (sub_attempts ats g)].
    apply worker_fail_frugal. destruct (bo_copies _ Hb g _ Hg) as [_ Hc]. simpl in *. reflect_bools. auto.
  - simplify_eq. apply Hk; [done|apply shrinks_refl|apply frugal_refl|apply (sub_attempts ats g)].
  - simplify_eq. apply Hk; [done|statement db 0 "" now|apply (statements_frugal db 0 "" now)|apply (sub_attempts ats 0)].
  - simplify_eq. apply Hk; [done|statement db 0 "" now|apply (statements_frugal db 0 "" now)|apply (sub_attempts ats 0)].
  - simplify_eq. apply Hk; [done|statement db id "" now|apply (statements_frugal db id "" now)|apply (sub_attempts ats 0)].
  - simplify_eq. apply Hk; [done|statement db 0 "" now|apply (statements_frugal db 0 "" now)|apply (sub_attempts ats 0)].
  - simplify_eq. apply Hk; [done|statement db 0 "" now|apply (statements_frugal db 0 "" now)|apply (sub_attempts ats 0)].
Qed.

(** C2: as long as every goroutine that reports a success or a failure still
    owns the lease it was granted, no schedule of crashes, reaps, retries and
    dequeues leases a job more than [max_attempts + maxResumes] times, and its
    attempt counter stays within [max_attempts]. *)
Theorem leases_bounded now0 s id j :
  reachable_from fenced_step (init now0) s → jobs (sys_db s) !! id = Some j →
  leases s id <= job_max_attempts j + maxResumes ∧ job_attempt j <= job_max_attempts j.
Proof.
  intros Hr Hj. assert (Hb : budget_ok s).
  { revert Hr. apply (reachable_invariant fenced_step budget_ok).
    - split; simpl; [|by intros|by intros|by intros].
      split; [simpl; lia|]. split; [apply map_Forall_empty|]. intros i k x h Hx. simpl in Hx.
      by rewrite lookup_empty in Hx.
    - intros s1 s2 Hb [a [Hf Ha]]. by eapply budget_ok_step. }
  pose proof (bo_rows s Hb id j Hj) as H. revert H. unfold row_budget.
  destruct (waiting j); [lia|]. destruct (active j); lia.
Qed.

Fixpoint run_fenced (acts : list action) (s : System) : option System :=
  match acts with
  | [] => Some s
  | a :: rest => if fenced a s then s' ← apply a s; run_fenced rest s' else None
  end.

Lemma run_fenced_reachable acts s0 s s' :
  reachable_from fenced_step s0 s → run_fenced acts s = Some s' → reachable_from fenced_step s0 s'.
Proof.
  revert s. induction acts as [|a acts IH]; intros s Hr H; simpl in H; [by simplify_eq|].
  destruct (fenced a s) eqn:Hf; [|done]. destruct (apply a s) as [s1|] eqn:Ha; [|done]. simpl in H.
  apply (IH s1); [|done]. eapply reach_step; [done|]. by exists a.
Qed.

(** The bound is met: two attempts and three resumes give five leases. *)
Definition lose_lease : list action :=
  [DoDequeue 0 "w" ∅; DoMarkRunning 0; DoCrash 0; Tick (91 * second); DoReap; DoPromote].
Definition fail_once : list action :=
  [DoDequeue 0 "w" ∅; DoMarkRunning 0; DoFail 0 "boom" second; Tick second; DoPromote].
Definition five_leases : list action :=
  DoEnqueue locked_job :: lose_lease ++ lose_lease ++ lose_lease ++ fail_once ++ fail_once.

Lemma leases_bounded_witness :
  ∃ s j, run_fenced five_leases (init 0) = Some s ∧ jobs (sys_db s) !! 1 = Some j ∧
    job_status j = DeadLetter ∧ leases s 1 = 5 ∧ leases s 1 <= job_max_attempts j + maxResumes.
Proof.
  destruct (run_fenced five_leases (init 0)) as [s|] eqn:E; [|exfalso; revert E; vm_compute; discriminate].
  destruct (jobs (sys_db s) !! 1) as [j|] eqn:Ej;
    [|exfalso; revert E Ej; vm_compute; intros [= <-]; discriminate].
  exists s, j. split; [done|]. split; [done|]. split; [|split].
  - revert E Ej. vm_compute. intros [= <-] [= <-]. reflexivity.
  - revert E. vm_compute. intros [= <-]. reflexivity.
  - apply (leases_bounded 0 s 1 j); [|exact Ej]. eapply run_fenced_reachable; [apply reach_here|exact E].
Defined.

(** The statements fence on the worker's name, which all the goroutines of a
    process share, and not on the attempt: a goroutine whose lease expired and
    whose job came back to the same process reports for the new attempt, with
    the old attempt number, and the job outlives [max_attempts]. *)
Definition stale_report : list action :=
  [DoEnqueue locked_job;
   DoDequeue 0 "w" ∅; DoMarkRunning 0;                  (* attempt 1, then it stalls *)
   Tick (91 * second); DoReap; DoPromote;
   DoDequeue 1 "x" ∅; DoMarkRunning 1; DoFail 1 "boom" second; Tick second; DoPromote;
   DoDequeue 2 "w" ∅; DoMarkRunning 2;                  (* attempt 2 of 2, same process *)
   DoFail 0 "stale" second; Tick second; DoPromote;     (* the stalled goroutine wakes *)
   DoDequeue 3 "w" ∅].

Lemma stale_report_exceeds_max_attempts :
  ∃ s j, run_actions stale_report (init 0) = Some s ∧ jobs (sys_db s) !! 1 = Some j ∧
    job_max_attempts j = 2 ∧ job_attempt j = 3 ∧ job_status j = Leased.
Proof. eexists _, _. split; [vm_compute; reflexivity|]. vm_compute. auto. Qed.

(** [DequeueJob] hands out exactly a job that may run — queued, due, on a
    served queue, its lock key free, not locked by another transaction — that
    no other such job precedes in the order priority, run time, id; it answers
    nothing only when there is no such job; and it touches no other row. *)
Theorem DequeueJob_picks_first now0 s qs w lease now locked :
  reachable_from step (init now0) s →
  let may k i := jobs (sys_db s) !! i = Some k ∧ eligible (sys_db s) qs now k = true ∧ i ∉ locked in
  match DequeueJob (sys_db s) qs w lease now locked with
  | (db', Some j') =>
      ∃ j, may j (job_id j) ∧ (∀ i k, may k i → i ≠ job_id j → before j k = true) ∧
        j' = leased w lease now j ∧ job_id j' = job_id j ∧ jobs db' !! job_id j = Some j' ∧
        ∀ i, i ≠ job_id j → jobs db' !! i = jobs (sys_db s) !! i
  | (db', None) => db' = sys_db s ∧ ∀ i k, ¬ may k i
  end.
Proof.
  intros Hr may. assert (Hok : table_ok (sys_db s)) by (by apply queue_table_ok with now0).
  destruct Hok as (_ & Hrows & _).
  destruct (DequeueJob _ _ _ _ _ _) as [db' [j'|]] eqn:Hd.
  - destruct (DequeueJob_Some _ _ _ _ _ _ _ _ Hrows Hd) as (j & Hj & He & Hl & Hmin & -> & ->).
    exists j. unfold may. split_and!; try done; simpl; [|by rewrite lookup_insert_eq|].
    + intros i k (Hk & Hek & Hlk) Hne. pose proof (Hmin i k Hk Hek Hlk) as Hb.
      destruct (Hrows _ _ Hk) as [Hid _]. unfold before in *. lia.
    + intros i Hne. by rewrite lookup_insert_ne.
  - unfold DequeueJob in Hd. destruct (first_of _) eqn:Hf; [done|]. simplify_eq. split; [done|].
    intros i k (Hk & Hek & Hlk). apply first_of_None in Hf.
    assert (Hin : k ∈ filter (λ j, eligible (sys_db s) qs now j = true ∧ job_id j ∉ locked)
                    (map_to_list (jobs (sys_db s))).*2).
    { apply list_elem_of_filter. destruct (Hrows _ _ Hk) as [-> _]. split; [done|].
      apply elem_of_rows. eauto. }
    rewrite Hf in Hin. set_solver.
Qed.

Lemma DequeueJob_picks_first_witness :
  ∃ s, run_actions [DoEnqueue locked_job; DoEnqueue locked_job] (init 0) = Some s ∧
    ∃ db' j', DequeueJob (sys_db s) KnownQueues "w" LeaseDuration 0 {[ 1 ]} = (db', Some j') ∧
      job_id j' = 2 ∧ ∃ j, j' = leased "w" LeaseDuration 0 j ∧ job_id j' = job_id j.
Proof.
  destruct (run_actions _ _) as [s|] eqn:E; [|exfalso; revert E; vm_compute; discriminate].
  exists s. split; [done|].
  assert (Hr : reachable_from step (init 0) s) by (eapply run_actions_reachable; [apply reach_here|exact E]).
  pose proof (DequeueJob_picks_first 0 s KnownQueues "w" LeaseDuration 0 {[ 1 ]} Hr) as H. simpl in H.
  destruct (DequeueJob _ _ _ _ _ _) as [db' [j'|]] eqn:Hd.
  - exists db', j'. split; [done|]. destruct H as (j & _ & _ & Hj' & Hid & _). split; [|by exists j].
    clear Hj' Hid Hr. vm_compute in E. injection E as <-. vm_compute in Hd. injection Hd as _ <-. reflexivity.
  - exfalso. clear H Hr. vm_compute in E. injection E as <-. vm_compute in Hd. discriminate.
Defined.

Lemma GetJobByIdempotencyKey_spec db k :
  match GetJobByIdempotencyKey db k with
  | Some j => ∃ i, jobs db !! i = Some j ∧ job_idempotency_key j = Some k
  | None => ∀ i j, jobs db !! i = Some j → job_idempotency_key j ≠ Some k
  end.
Proof.
  unfold GetJobByIdempotencyKey. destruct (filter _ _) as [|[i j] l] eqn:Hf; simpl.
  - intros i j Hi Hk. assert (Hin : (i, j) ∈ filter (λ x : Z * Job, job_idempotency_key x.2 = Some k) (map_to_list (jobs db))).
    { apply list_elem_of_filter. split; [done|]. by apply elem_of_map_to_list. }
    rewrite Hf in Hin. set_solver.
  - exists i. assert (Hin : (i, j) ∈ filter (λ x : Z * Job, job_idempotency_key x.2 = Some k) (map_to_list (jobs db)))
      by (rewrite Hf; set_solver).
    apply list_elem_of_filter in Hin as [? Hin]. by apply elem_of_map_to_list in Hin.
Qed.

(** [Enqueue] on every branch: an unknown queue or an unmarshallable
    payload is refused and leaves the table alone; otherwise either the key is
    new and exactly one row is inserted, under the next id — queued now, or
    scheduled when its time is in the future —, or a row already carries the
    idempotency key and that row is returned, the table unchanged.  The
    "no row" error of the code cannot occur. *)
Theorem Enqueue_idempotent db opts now :
  let queue := if decide (o_queue opts = "") then "default" else o_queue opts in
  match Enqueue db opts now with
  | (db', inl e) =>
      db' = db ∧ ((e = UnknownQueue queue ∧ queue ∉ KnownQueues) ∨
                  (e = PayloadError ∧ o_payload_ok opts = false))
  | (db', inr j) =>
      queue ∈ KnownQueues ∧ o_payload_ok opts = true ∧
      ((j = new_row opts now (next_id db) ∧ jobs db' = <[ next_id db := j ]> (jobs db) ∧
        ∀ key i h, o_idempotency_key opts = Some key → jobs db !! i = Some h →
          job_idempotency_key h ≠ Some key) ∨
       (∃ key i, o_idempotency_key opts = Some key ∧ jobs db !! i = Some j ∧
          job_idempotency_key j = Some key ∧ jobs db' = jobs db))
  end.
Proof.
  intros queue. rewrite Enqueue_unfold. cbv zeta. fold queue.
  case_bool_decide as Hq; cbv beta iota zeta delta [negb];
    [|split; [done|]; left; by split].
  destruct (o_payload_ok opts) eqn:Hp; cbv beta iota zeta delta [negb]; [|split; [done|]; right; by split].
  unfold EnqueueJob. simpl.
  destruct (o_idempotency_key opts) as [key|] eqn:Hkey.
  - case_bool_decide as Hex; simpl.
    + pose proof (GetJobByIdempotencyKey_spec (mkDB (jobs db) (next_id db + 1)) key) as Hg.
      destruct (GetJobByIdempotencyKey _ _) as [j|]; simpl in Hg.
      * destruct Hg as (i & Hi & Hk). split; [done|]. split; [done|]. right. exists key, i. auto.
      * exfalso. destruct Hex as (i & h & Hi & Hk). by apply (Hg i h Hi).
    + split; [done|]. split; [done|]. left. split; [done|]. split; [done|].
      intros key' i h [= <-] Hi Hk. apply Hex. by exists i, h.
  - simpl. split; [done|]. split; [done|]. left. split; [done|]. split; [done|]. by intros.
Qed.

(** ** The retry delay *)

Lemma wrap64_multiple x k : 0 <= k <= 63 → (2 ^ k | x) → (2 ^ k | wrap64 x).
Proof.
  intros Hk [q ->]. unfold wrap64. rewrite Z.mod_eq by lia.
  replace (q * 2 ^ k + 2 ^ 63 - 2 ^ 64 * ((q * 2 ^ k + 2 ^ 63) / 2 ^ 64) - 2 ^ 63)
    with (q * 2 ^ k - 2 ^ 64 * ((q * 2 ^ k + 2 ^ 63) / 2 ^ 64)) by lia.
  apply Z.divide_sub_r; [apply Z.divide_factor_r|].
  apply Z.divide_mul_l. exists (2 ^ (64 - k)). rewrite <- Z.pow_add_r by lia. f_equal. lia.
Qed.

(** The delay before the [n]-th retry doubles from five seconds and stops
    at five minutes, for every attempt number an [int32] can hold: the shift
    may overflow the 64-bit duration, but what it leaves is then zero, negative
    or above the cap. *)
Theorem retry_base_capped_doubling attempt :
  0 <= attempt < 2 ^ 31 →
  retry_base attempt = Z.min (RetryBase * 2 ^ (Z.max (attempt - 1) 0)) (5 * minute).
Proof.
  intros Ha. unfold retry_base. rewrite wrap32_id by (unfold in_int32; lia).
  set (n := Z.max (attempt - 1) 0). assert (Hn : 0 <= n) by lia.
  change RetryBase with (9765625 * 2 ^ 9). change (5 * minute) with 300000000000.
  destruct (Z_le_gt_dec n 30) as [Hs|Hs].
  - assert (Hp : 1 <= 2 ^ n <= 2 ^ 30)
      by (split; [apply (Z.pow_le_mono_r 2 0)|apply Z.pow_le_mono_r]; lia).
    rewrite wrap64_id by (unfold in_int64, int64_min, int64_max; lia).
    destruct (_ || _) eqn:E; [apply orb_prop in E|]; reflect_bools; lia.
  - assert (Hp : 2 ^ 31 <= 2 ^ n) by (apply Z.pow_le_mono_r; lia).
    rewrite Z.min_r by lia.
    assert (Hd : (2 ^ 40 | wrap64 (9765625 * 2 ^ 9 * 2 ^ n))).
    { apply wrap64_multiple; [lia|]. exists (9765625 * 2 ^ (n - 31)).
      rewrite <- !Z.mul_assoc, <- !Z.pow_add_r by lia. do 2 f_equal. lia. }
    destruct Hd as [q ->]. destruct (_ || _) eqn:E; [done|]. reflect_bools. lia.
Qed.

Lemma retry_base_capped_doubling_witness :
  retry_base 3 = 20 * second ∧ retry_base 2147483647 = 5 * minute.
Proof.
  split.
  - rewrite (retry_base_capped_doubling 3); [reflexivity|lia].
  - rewrite (retry_base_capped_doubling 2147483647) by lia. apply Z.min_r.
    assert (H : 2 ^ 10 <= 2 ^ Z.max (2147483647 - 1) 0) by (apply Z.pow_le_mono_r; lia).
    generalize dependent (2 ^ Z.max (2147483647 - 1) 0). intros p Hp.
    change RetryBase with 5000000000. change (5 * minute) with 300000000000. lia.
Defined.
