(* ===== verification/QueueSpec.v ===== *)
(** * What the job queue promises

    An abstract store of tickets, with no clocks, attempts, leases or worker
    processes in it: a ticket is submitted once per key, taken by one worker
    while nobody holds its lock, and then finished, given back or buried.  The
    table of [Queue], driven by workers that crash, stall and report late,
    refines it: every statement is a sequence of its steps. *)
From S2P Require Import Prelude Queue.
Local Open Scope Z_scope.

(** ** The store of tickets *)

Inductive stage := Pending | Held (worker : string) | Finished | Buried | Dropped.

Record ticket := mkTicket { tk_key : option string; tk_lock : option string; tk_stage : stage }.

Abbreviation store := (gmap Z ticket).

Definition held (t : ticket) : Prop := ∃ w, tk_stage t = Held w.

(** What may happen to one ticket whatever the others are. *)
Inductive move : option ticket → option ticket → Prop :=
| give_back key lock w : move (Some (mkTicket key lock (Held w))) (Some (mkTicket key lock Pending))
| finish_it key lock w : move (Some (mkTicket key lock (Held w))) (Some (mkTicket key lock Finished))
| bury key lock w : move (Some (mkTicket key lock (Held w))) (Some (mkTicket key lock Buried))
| withdraw key lock : move (Some (mkTicket key lock Pending)) (Some (mkTicket key lock Dropped))
| drop_it key lock : move (Some (mkTicket key lock Buried)) (Some (mkTicket key lock Dropped))
| expunge key lock st : st = Finished ∨ st = Dropped → move (Some (mkTicket key lock st)) None.

Inductive store_step : store → store → Prop :=
| submit m id key lock :
    m !! id = None → (key ≠ None → ∀ i t, m !! i = Some t → tk_key t ≠ key) →
    store_step m (<[ id := mkTicket key lock Pending ]> m)
| take_it m id key lock w :
    m !! id = Some (mkTicket key lock Pending) →
    (lock ≠ None → ∀ i t, m !! i = Some t → held t → tk_lock t ≠ lock) →
    store_step m (<[ id := mkTicket key lock (Held w) ]> m)
| one_moves m id o :
    move (m !! id) o → store_step m (partial_alter (λ _, o) id m).

(** ** Abstraction *)

Definition stage_of (j : Job) : stage :=
  match job_status j with
  | Scheduled | Queued | RetryWait => Pending
  | Leased | Running => Held (default "" (job_leased_by j))
  | Succeeded => Finished
  | DeadLetter => Buried
  | Cancelled => Dropped
  end.
Definition ticket_of (j : Job) : ticket := mkTicket (job_idempotency_key j) (job_lock_key j) (stage_of j).
Definition store_of (db : DB) : store := ticket_of <$> jobs db.

Lemma held_active j : held (ticket_of j) ↔ active j = true.
Proof.
  unfold held, ticket_of, stage_of, active. cbn. destruct (job_status j); cbn; split; try done; try (by intros [? ?]); eauto.
Qed.

(** ** Moves of many tickets at once *)

(** Each ticket stays or moves. *)
Definition moves (o o' : option ticket) : Prop := o = o' ∨ move o o'.

Lemma pointwise_moves (l : list Z) (m m' : store) :
  (∀ i, moves (m !! i) (m' !! i)) → (∀ i, i ∉ l → m !! i = m' !! i) → rtc store_step m m'.
Proof.
  revert m. induction l as [|k l IH]; intros m Hm Hout.
  - replace m with m'; [done|]. apply map_eq. intros i. symmetry. apply Hout, not_elem_of_nil.
  - assert (rtc store_step (partial_alter (λ _, m' !! k) k m) m') as Hrest.
    { apply IH; intros i.
      - destruct (decide (i = k)) as [->|Hi]; [rewrite lookup_partial_alter_eq; by left|].
        rewrite lookup_partial_alter_ne by done. apply Hm.
      - intros Hi. destruct (decide (i = k)) as [->|Hk]; [by rewrite lookup_partial_alter_eq|].
        rewrite lookup_partial_alter_ne by done. apply Hout. by apply not_elem_of_cons. }
    destruct (Hm k) as [E|Hmove]; [|by eapply rtc_l; [apply one_moves|]].
    rewrite <- E, partial_alter_id in Hrest; done.
Qed.

Lemma moves_refine (m m' : store) : (∀ i, moves (m !! i) (m' !! i)) → rtc store_step m m'.
Proof.
  intros Hm. apply (pointwise_moves (elements (dom m ∪ dom m'))); [done|]. intros i Hi.
  rewrite elem_of_elements, not_elem_of_union, !not_elem_of_dom in Hi. destruct Hi as [-> ->]. done.
Qed.

(** ** The statements *)

Lemma update_where_refines db id cond f :
  (∀ j, jobs db !! id = Some j → cond j = true → moves (Some (ticket_of j)) (Some (ticket_of (f j)))) →
  rtc store_step (store_of db) (store_of (fst (update_where db id cond f))).
Proof.
  intros Hf. unfold update_where. destruct (jobs db !! id) as [j|] eqn:Hj; [|done].
  destruct (cond j) eqn:Hc; [|done]. apply moves_refine. intros i. unfold store_of. cbn. rewrite !lookup_fmap.
  destruct (decide (i = id)) as [->|Hi]; [rewrite Hj, lookup_insert_eq; by apply Hf|].
  rewrite lookup_insert_ne by done. by left.
Qed.

Lemma fmap_refines db f :
  (∀ i j, jobs db !! i = Some j → moves (Some (ticket_of j)) (Some (ticket_of (f j)))) →
  rtc store_step (store_of db) (store_of (mkDB (f <$> jobs db) (next_id db))).
Proof.
  intros Hf. apply moves_refine. intros i. unfold store_of. cbn. rewrite !lookup_fmap.
  destruct (jobs db !! i) as [j|] eqn:Hj; [by apply (Hf i)|by left].
Qed.

(** The ticket of an active row is held by somebody. *)
Lemma active_held j : active j = true → ∃ w, ticket_of j = mkTicket (job_idempotency_key j) (job_lock_key j) (Held w).
Proof. intros [w Hw]%held_active. exists w. unfold ticket_of in *. cbn in Hw. by rewrite Hw. Qed.

Lemma finishing_moves j j' :
  active j = true → job_idempotency_key j' = job_idempotency_key j → job_lock_key j' = job_lock_key j →
  stage_of j' ∈ [Pending; Finished; Buried] → moves (Some (ticket_of j)) (Some (ticket_of j')).
Proof.
  intros [w ->]%active_held Hk Hl Hs. right. unfold ticket_of. rewrite Hk, Hl.
  rewrite !elem_of_cons in Hs. destruct Hs as [->|[->|[->|[]%not_elem_of_nil]]]; constructor.
Qed.

Lemma EnqueueJob_refines db row :
  table_ok db → stage_of (row (next_id db)) = Pending →
  rtc store_step (store_of db) (store_of (fst (EnqueueJob db row))).
Proof.
  intros (_ & Hrows & _) Hst. unfold EnqueueJob. set (j := row (next_id db)) in *.
  destruct (match job_idempotency_key j with Some k => _ | None => _ end) eqn:Hc; [done|].
  cbn. unfold store_of. cbn. rewrite fmap_insert. apply rtc_once. unfold ticket_of at 2. rewrite Hst. apply submit.
  - rewrite lookup_fmap. destruct (jobs db !! next_id db) as [h|] eqn:E; [|done].
    destruct (Hrows _ _ E) as (_ & ? & _). lia.
  - intros Hk i t. rewrite lookup_fmap. intros (h & Hh & ->)%fmap_Some. cbn.
    destruct (job_idempotency_key j) as [k|]; [|done]. apply bool_decide_eq_false in Hc. intros E.
    apply Hc. by exists i, h.
Qed.

Lemma DequeueJob_refines db qs w lease now locked db' j' :
  table_ok db → DequeueJob db qs w lease now locked = (db', Some j') → rtc store_step (store_of db) (store_of db').
Proof.
  intros (_ & Hrows & _) Hd. destruct (DequeueJob_Some _ _ _ _ _ _ _ _ Hrows Hd) as (j & Hj & He & _ & _ & -> & ->).
  apply eligible_true in He as (Hst & _ & _ & Hfree). unfold store_of. cbn. rewrite fmap_insert. apply rtc_once.
  apply take_it.
  - rewrite lookup_fmap, Hj. cbn. unfold ticket_of, stage_of. by rewrite Hst.
  - intros Hl i t. rewrite lookup_fmap. intros (h & Hh & ->)%fmap_Some Hheld%held_active E. cbn in E.
    destruct (job_lock_key j) as [k|] eqn:Hk; [|done]. by eapply (lock_free_spec db j i h k).
Qed.

Lemma due_pending now j : due now j = true → ticket_of (promote j) = ticket_of j.
Proof.
  unfold due. intros [H _]%andb_true_iff. unfold ticket_of, stage_of. cbn.
  apply orb_true_iff in H as [H|H]; apply bool_decide_eq_true in H; by rewrite H.
Qed.

Lemma purge_refines db cutoff : rtc store_step (store_of db) (store_of (PurgeTerminalJobs db cutoff)).
Proof.
  apply moves_refine. intros i. unfold store_of. cbn. rewrite !lookup_fmap, map_lookup_filter.
  destruct (jobs db !! i) as [j|]; cbn; [|by left]. case_guard as Hg; cbn; [by left|right].
  unfold purgeable in Hg. apply not_false_iff_true, andb_true_iff in Hg as [Hst _].
  unfold ticket_of, stage_of. apply orb_true_iff in Hst as [H|H]; apply bool_decide_eq_true in H; rewrite H; constructor; auto.
Qed.

(** Rows that are not held by the statement's worker are left alone. *)
Lemma held_by_active w j : held_by w j && active j = true → active j = true.
Proof. by intros [_ ?]%andb_true_iff. Qed.

Lemma statements_refine db id w now :
  rtc store_step (store_of db) (store_of (fst (MarkJobRunning db id w))) ∧
  (∀ lease, rtc store_step (store_of db) (store_of (fst (HeartbeatJob db id w lease now)))) ∧
  (∀ r, rtc store_step (store_of db) (store_of (fst (SucceedJob db id r w now)))) ∧
  (∀ e next dead, rtc store_step (store_of db) (store_of (fst (FailJob db id e next dead w now)))) ∧
  rtc store_step (store_of db) (store_of (fst (ForgetDeadLetterJob db id now))) ∧
  rtc store_step (store_of db) (store_of (PromoteWaitingJobs db now)) ∧
  (∀ n, rtc store_step (store_of db) (store_of (ReapExpiredLeases db n now))).
Proof.
  split_and!.
  - apply update_where_refines. intros j _ [_ H%bool_decide_eq_true]%andb_true_iff. left.
    unfold ticket_of, stage_of. cbn. by rewrite H.
  - intros lease. apply update_where_refines. intros j _ _. by left.
  - intros r. apply update_where_refines. intros j _ H%held_by_active. apply finishing_moves; try done. cbn. set_solver.
  - intros e next dead. apply update_where_refines. intros j _ H%held_by_active. apply finishing_moves; try done.
    destruct dead; unfold stage_of; cbn; set_solver.
  - apply update_where_refines. intros j _ H%bool_decide_eq_true. right. unfold ticket_of, stage_of. cbn. rewrite H. constructor.
  - apply fmap_refines. intros i j _. destruct (due now j) eqn:E; [|by left]. left. by rewrite (due_pending now j).
  - intros n. apply fmap_refines. intros i j _. destruct (expired now j) eqn:E; [|by left].
    unfold expired in E. apply andb_true_iff in E as [Ha _]. apply finishing_moves; try done.
    unfold stage_of, reap. cbn. destruct (n <=? job_resume_count j); set_solver.
Qed.

Lemma new_row_pending opts now id : stage_of (new_row opts now id) = Pending.
Proof. unfold stage_of, new_row. cbn. by destruct (match o_run_at opts with Some t => _ | None => _ end). Qed.

Lemma step_refines s s' :
  table_ok (sys_db s) → step s s' → rtc store_step (store_of (sys_db s)) (store_of (sys_db s')).
Proof.
  intros Hok [a Ha]. destruct s as [db now ats ls]. cbn in Hok.
  destruct a as [d|opts|g w locked|g|g|g r|g e d|g| | |id|c|f]; cbn in Ha |- *.
  - destruct (0 <=? d); by simplify_eq/=.
  - simplify_eq/=. destruct (Enqueue_db db opts now) as [->|[_ ->]]; [done|].
    apply EnqueueJob_refines; [done|apply new_row_pending].
  - destruct (ats !! g); [done|]. destruct (DequeueJob _ _ _ _ _ _) as [db' [j|]] eqn:Hd; simplify_eq/=.
    by eapply DequeueJob_refines.
  - destruct (ats !! g) as [[w j [] n]|]; try done. destruct (MarkJobRunning db (job_id j) w) as [db' rows] eqn:Hm.
    simplify_eq/=. replace db' with (fst (MarkJobRunning db (job_id j) w)) by (by rewrite Hm). apply (statements_refine _ _ _ now).
  - destruct (ats !! g) as [[w j [] n]|]; simplify_eq/=. apply statements_refine.
  - destruct (ats !! g) as [[w j [] n]|]; simplify_eq/=. apply statements_refine.
  - destruct (ats !! g) as [[w j [] n]|]; simplify_eq/=. apply statements_refine.
  - by simplify_eq/=.
  - simplify_eq/=. apply (statements_refine db 0 "" now).
  - simplify_eq/=. apply (statements_refine db 0 "" now).
  - simplify_eq/=. apply (statements_refine db id "" now).
  - simplify_eq/=. apply purge_refines.
  - simplify_eq/=. apply fmap_refines. intros i j _. destruct (bool_decide (job_status j = Queued)) eqn:E; [|by left].
    simpl. destruct (_ && _); [right|by left]. apply bool_decide_eq_true in E.
    unfold ticket_of, stage_of. cbn. rewrite E. constructor.
Qed.

(** ** The promises of the store *)

(** Locks are held once, keys are used once. *)
Definition store_ok (m : store) : Prop :=
  ∀ i k t u, m !! i = Some t → m !! k = Some u → i ≠ k →
    (tk_lock t ≠ None → tk_lock t = tk_lock u → held t → held u → False) ∧ (tk_key t ≠ None → tk_key t ≠ tk_key u).

(** A new or changed ticket [t] at [id] is compatible with the others. *)
Definition fits (m : store) (id : Z) (t : ticket) : Prop :=
  ∀ k u, m !! k = Some u → k ≠ id →
    (tk_lock t ≠ None → tk_lock t = tk_lock u → held t → held u → False) ∧ (tk_key t ≠ None → tk_key t ≠ tk_key u).

Lemma store_ok_insert m id t : store_ok m → fits m id t → store_ok (<[ id := t ]> m).
Proof.
  intros Hok Hfit i k a b Ha Hb Hik. apply lookup_insert_Some in Ha as [[<- <-]|[Hi Ha]];
    apply lookup_insert_Some in Hb as [[<- <-]|[Hk Hb]]; [done| | |by apply (Hok i k)].
  - by apply Hfit with (k := k).
  - destruct (Hfit i a Ha) as [H1 H2]; [done|]. split.
    + intros Hn E Hh1 Hh2. apply H1; [by rewrite <- E|done|done|done].
    + intros Hn E. apply H2; [by rewrite <- E|done].
Qed.

Lemma move_fits m id t o : store_ok m → m !! id = Some t → move (Some t) (Some o) → fits m id o.
Proof.
  intros Hok Hid Hm k u Hk Hne. destruct (Hok id k t u Hid Hk ltac:(done)) as [_ H2].
  inversion Hm; subst; cbn in *; (split; [|done]); intros _ _ [w0 Hw]; discriminate.
Qed.

Lemma store_step_ok m m' : store_ok m → store_step m m' → store_ok m'.
Proof.
  intros Hok Hs. destruct Hs as [m id key lock Hid Hkey|m id key lock w Hid Hlock|m id o Hm].
  - apply store_ok_insert; [done|]. intros k u Hk Hne. cbn. split; [intros _ _ [w Hw]; discriminate|].
    intros Hn E. by apply (Hkey Hn k u).
  - apply store_ok_insert; [done|]. intros k u Hk Hne. cbn. split.
    + intros Hn E _ Hu. by apply (Hlock Hn k u).
    + destruct (Hok id k _ u Hid Hk ltac:(done)) as [_ H2]. exact H2.
  - destruct (m !! id) as [t|] eqn:Hid; [|by inversion Hm]. destruct o as [t'|].
    + change (store_ok (<[ id := t' ]> m)). apply store_ok_insert; [done|]. by eapply move_fits.
    + change (store_ok (delete id m)). intros i k a b [_ Ha]%lookup_delete_Some [_ Hb]%lookup_delete_Some. by apply (Hok i k).
Qed.

Lemma rtc_store_ok m m' : store_ok m → rtc store_step m m' → store_ok m'.
Proof. intros Hok. induction 1; [done|]. eauto using store_step_ok. Qed.

(** C39: the durable queue refines the store of tickets: from the empty table,
    whatever the workers, their crashes and their late reports, the reachable
    tables are reachable stores, and each statement is a sequence of store steps
    — a ticket is taken only while pending and while nobody holds its lock,
    leaves its holder only finished, given back or buried, is withdrawn only
    while pending, and a finished one is never pending again.  So the table keeps the promises of the store: a lock
    is held once and a key used once. *)
Theorem queue_refines_store now0 s :
  reachable_from step (init now0) s →
  rtc store_step ∅ (store_of (sys_db s)) ∧ store_ok (store_of (sys_db s)) ∧
  ∀ s', step s s' → rtc store_step (store_of (sys_db s)) (store_of (sys_db s')).
Proof.
  intros Hr. assert (rtc store_step ∅ (store_of (sys_db s))) as Hrun.
  2: { split_and!; [done| |intros s'; apply step_refines; by eapply queue_table_ok].
       eapply rtc_store_ok; [|exact Hrun]. intros i k t u Ht. by rewrite lookup_empty in Ht. }
  induction Hr as [|s s' Hr IH Hs]; [by unfold store_of; cbn; rewrite fmap_empty|].
  etrans; [exact IH|]. apply step_refines; [by eapply queue_table_ok|done].
Qed.

Lemma queue_refines_store_witness :
  ∃ s, run_actions two_locked (init 0) = Some s ∧
    rtc store_step ∅ (store_of (sys_db s)).
Proof.
  destruct (run_actions two_locked (init 0)) as [s|] eqn:E.
  - exists s. split; [done|]. apply (queue_refines_store 0). eapply run_actions_reachable; [apply reach_here|exact E].
  - exfalso. revert E. vm_compute. discriminate.
Defined.
