(* ===== verification/Effects.v ===== *)
(** * Handlers over a database

    The handlers of the control plane are sequences of SQL statements with no
    transaction around them: each statement is atomic, any of them can fail, and
    what ran before it stays.  A handler is a program of the monad [M]: a state
    to thread, an error to return early with, and the fates of the statements to
    come.  A statement is applied, refused without effect, or applied with its
    answer lost; a process that dies is one whose remaining statements are all
    refused.  [wp] quantifies over the fates, so a property proved with it holds
    whatever fails. *)
From S2P Require Import Prelude.

(** What the code distinguishes in the error of a statement ([pgx.ErrNoRows] or
    anything else) and the errors the handlers make up. *)
Inductive err := NoRows | Broken | Failure (msg : string).

#[export] Instance err_eq_dec : EqDecision err.
Proof. solve_decision. Defined.

Inductive fate := Applied | Refused | Lost.

Definition M (W A : Type) : Type := list fate → W → (err + A) * (list fate * W).

Section Programs.
Context {W : Type}.

#[global] Instance M_ret : MRet (M W) := λ A a fs w, (inr a, (fs, w)).
#[global] Instance M_bind : MBind (M W) := λ A B k m fs w,
  match m fs w with
  | (inl e, s) => (inl e, s)
  | (inr a, (fs', w')) => k a fs' w'
  end.

(** [return …, err] *)
Definition throw {A} (e : err) : M W A := λ fs w, (inl e, (fs, w)).

(** A statement that changes the tables. *)
Definition stmt {A} (f : W → W * (err + A)) : M W A := λ fs w,
  match fs with
  | [] | Applied :: _ => let '(w', r) := f w in (r, (tail fs, w'))
  | Refused :: fs' => (inl Broken, (fs', w))
  | Lost :: fs' => (inl Broken, (fs', fst (f w)))
  end.
Definition exec (f : W → W) : M W () := stmt (λ w, (f w, inr ())).

(** A query. *)
Definition query {A} (f : W → err + A) : M W A := stmt (λ w, (w, f w)).

(** A call outside the database that may fail: a draw of randomness, an
    encryption, a remote service. *)
Definition fallible : M W () := query (λ _, inr ()).

(** What needs no statement: the clock, a value computed from what was read. *)
Definition look {A} (f : W → A) : M W A := λ fs w, (inr (f w), (fs, w)).

(** The error of a call, as a value: [if x, err := …; err != nil] *)
Definition attempt {A} (m : M W A) : M W (err + A) := λ fs w,
  let '(r, s) := m fs w in (inr r, s).
(** [_ = m] *)
Definition ignore {A} (m : M W A) : M W () := attempt m ≫= λ _, mret ().

(** [for _, x := range xs] over a body that never leaves the loop. *)
Fixpoint each {A} (xs : list A) (body : A → M W ()) : M W () :=
  match xs with [] => mret () | x :: xs' => body x ≫= λ _, each xs' body end.

(** ** Every outcome of a program *)

Definition wp {A} (m : M W A) (Q : err + A → W → Prop) (w : W) : Prop :=
  ∀ fs, let '(r, (_, w')) := m fs w in Q r w'.

Lemma wp_ret {A} (a : A) (Q : err + A → W → Prop) w : Q (inr a) w → wp (mret a) Q w.
Proof. intros H fs. exact H. Qed.

Lemma wp_throw {A} e (Q : err + A → W → Prop) w : Q (inl e) w → wp (throw e) Q w.
Proof. intros H fs. exact H. Qed.

Lemma wp_bind {A B} (m : M W A) (k : A → M W B) Q w :
  wp m (λ r w', match r with inl e => Q (inl e) w' | inr a => wp (k a) Q w' end) w →
  wp (m ≫= k) Q w.
Proof.
  intros H fs. specialize (H fs). unfold mbind, M_bind.
  destruct (m fs w) as [[e|a] [fs' w']]; [exact H|exact (H fs')].
Qed.

Lemma wp_stmt {A} (f : W → W * (err + A)) Q w :
  Q (inl Broken) w → Q (inl Broken) (fst (f w)) → Q (snd (f w)) (fst (f w)) → wp (stmt f) Q w.
Proof.
  intros H1 H2 H3 fs. unfold stmt.
  destruct fs as [|[] fs]; try done; simpl; by destruct (f w).
Qed.

Lemma wp_query {A} (f : W → err + A) Q w :
  Q (inl Broken) w → Q (f w) w → wp (query f) Q w.
Proof. intros H1 H2. by apply wp_stmt. Qed.

Lemma wp_exec (f : W → W) Q w :
  Q (inl Broken) w → Q (inl Broken) (f w) → Q (inr ()) (f w) → wp (exec f) Q w.
Proof. intros H1 H2 H3. by apply wp_stmt. Qed.

Lemma wp_look {A} (f : W → A) Q w : Q (inr (f w)) w → wp (look f) Q w.
Proof. intros H fs. exact H. Qed.

Lemma wp_attempt {A} (m : M W A) Q w : wp m (λ r w', Q (inr r) w') w → wp (attempt m) Q w.
Proof.
  intros H fs. specialize (H fs). unfold attempt. by destruct (m fs w) as [r [fs' w']].
Qed.

Lemma wp_ignore {A} (m : M W A) Q w : wp m (λ _ w', Q (inr ()) w') w → wp (ignore m) Q w.
Proof. intros H. apply wp_bind, wp_attempt. intros fs. specialize (H fs).
  destruct (m fs w) as [r [fs' w']]. by apply wp_ret. Qed.

Lemma wp_mono {A} (m : M W A) (P Q : err + A → W → Prop) w :
  (∀ r w', P r w' → Q r w') → wp m P w → wp m Q w.
Proof. intros HPQ H fs. specialize (H fs). destruct (m fs w) as [r [fs' w']]. auto. Qed.

Lemma wp_each {A} (I : W → Prop) (xs : list A) (body : A → M W ()) w :
  (∀ x w, x ∈ xs → I w → wp (body x) (λ _ w', I w') w) → I w → wp (each xs body) (λ _ w', I w') w.
Proof.
  revert w. induction xs as [|x xs IH]; intros w Hb Hw; simpl; [by apply wp_ret|].
  apply wp_bind. eapply wp_mono; [|apply Hb; [by left|done]]. intros [e|u] w' Hw'; [done|].
  apply IH; [|done]. intros y v Hy. apply Hb. by right.
Qed.

(** With no failure a loop passes through its whole list. *)
Lemma each_done {A} (I : list A → W → Prop) (xs : list A) (body : A → M W ()) w :
  (∀ seen x rest w, xs = seen ++ x :: rest → I seen w →
     ∃ w', body x [] w = (inr (), ([], w')) ∧ I (seen ++ [x]) w') →
  I [] w → ∃ w', each xs body [] w = (inr (), ([], w')) ∧ I xs w'.
Proof.
  intros Hb Hw.
  cut (∀ todo seen w, xs = seen ++ todo → I seen w → ∃ w', each todo body [] w = (inr (), ([], w')) ∧ I xs w').
  { intros H. by apply (H xs [] w). }
  clear Hw w. induction todo as [|x todo IH]; intros seen w Hxs Hw; simpl.
  { exists w. by rewrite Hxs, app_nil_r. }
  destruct (Hb seen x todo w Hxs Hw) as (w1 & Hx & Hw1). unfold mbind, M_bind. rewrite Hx.
  apply (IH (seen ++ [x])); [by rewrite <- (assoc_L (++))|done].
Qed.

(** A run with no failed statement is one of them. *)
Definition eval {A} (m : M W A) (w : W) : (err + A) * W := let '(r, (_, w')) := m [] w in (r, w').

Lemma wp_eval {A} (m : M W A) (Q : err + A → W → Prop) w r w' :
  wp m Q w → eval m w = (r, w') → Q r w'.
Proof.
  intros H. specialize (H []). unfold eval. destruct (m [] w) as [r0 [fs w0]]. by intros [= <- <-].
Qed.

(** With no fate to meet, a program meets none later either. *)
Definition settles {A} (m : M W A) : Prop := ∀ w, ∃ r w', m [] w = (r, ([], w')).
Lemma settles_ret {A} (a : A) : settles (mret a).
Proof. intros w. by do 2 eexists. Qed.
Lemma settles_throw {A} e : settles (throw (A := A) e).
Proof. intros w. by do 2 eexists. Qed.
Lemma settles_stmt {A} (f : W → W * (err + A)) : settles (stmt f).
Proof. intros w. unfold stmt. destruct (f w). by do 2 eexists. Qed.
Lemma settles_bind {A B} (m : M W A) (k : A → M W B) : settles m → (∀ a, settles (k a)) → settles (m ≫= k).
Proof.
  intros Hm Hk w. unfold mbind, M_bind. destruct (Hm w) as ([e|a] & w' & ->); [by do 2 eexists|apply Hk].
Qed.
Lemma settles_attempt {A} (m : M W A) : settles m → settles (attempt m).
Proof. intros Hm w. unfold attempt. destruct (Hm w) as (r & w' & ->). by do 2 eexists. Qed.
Lemma settles_ignore {A} (m : M W A) : settles m → settles (ignore m).
Proof. intros Hm. apply settles_bind; [by apply settles_attempt|intros a; apply settles_ret]. Qed.

Lemma settles_each {A} (xs : list A) (body : A → M W ()) : (∀ x, settles (body x)) → settles (each xs body).
Proof. intros Hb. induction xs as [|x xs IH]; simpl; [apply settles_ret|]. apply settles_bind; [apply Hb|]. by intros _. Qed.

Lemma run_bind {A B} (m : M W A) (k : A → M W B) fs w :
  (m ≫= k) fs w = match m fs w with (inl e, s) => (inl e, s) | (inr a, (fs', w')) => k a fs' w' end.
Proof. done. Qed.
Lemma run_attempt {A} (m : M W A) fs w : attempt m fs w = (inr (fst (m fs w)), snd (m fs w)).
Proof. unfold attempt. by destruct (m fs w). Qed.
Lemma run_stmt {A} (f : W → W * (err + A)) w : stmt f [] w = (snd (f w), ([], fst (f w))).
Proof. unfold stmt. by destruct (f w). Qed.
Lemma run_query {A} (f : W → err + A) w : query f [] w = (f w, ([], w)).
Proof. done. Qed.

(** The run in which no statement fails: it ends, and its outcome satisfies [Q]. *)
Definition steady {A} (m : M W A) (Q : err + A → W → Prop) (w : W) : Prop :=
  ∃ r w', m [] w = (r, ([], w')) ∧ Q r w'.

Lemma steady_ret {A} (a : A) (Q : err + A → W → Prop) w : Q (inr a) w → steady (mret a) Q w.
Proof. intros HQ. by do 2 eexists. Qed.
Lemma steady_throw {A} e (Q : err + A → W → Prop) w : Q (inl e) w → steady (throw e) Q w.
Proof. intros HQ. by do 2 eexists. Qed.
Lemma steady_look {A} (f : W → A) (Q : err + A → W → Prop) w : Q (inr (f w)) w → steady (look f) Q w.
Proof. intros HQ. by do 2 eexists. Qed.
Lemma steady_stmt {A} (f : W → W * (err + A)) (Q : err + A → W → Prop) w :
  Q (snd (f w)) (fst (f w)) → steady (stmt f) Q w.
Proof. intros HQ. exists (snd (f w)), (fst (f w)). by rewrite run_stmt. Qed.
Lemma steady_bind {A B} (m : M W A) (k : A → M W B) Q w :
  steady m (λ r w', match r with inl e => Q (inl e) w' | inr a => steady (k a) Q w' end) w →
  steady (m ≫= k) Q w.
Proof.
  intros (r & w' & Hm & HQ). unfold steady. rewrite run_bind, Hm. destruct r as [e|a]; [by do 2 eexists|exact HQ].
Qed.
Lemma steady_attempt {A} (m : M W A) Q w :
  steady m (λ r w', Q (inr r) w') w → steady (attempt m) Q w.
Proof. intros (r & w' & Hm & HQ). exists (inr r), w'. by rewrite run_attempt, Hm. Qed.
Lemma steady_ignore {A} (m : M W A) Q w :
  steady m (λ _ w', Q (inr ()) w') w → steady (ignore m) Q w.
Proof.
  intros (r & w' & Hm & HQ). apply steady_bind, steady_attempt. exists r, w'. split; [done|]. by apply steady_ret.
Qed.
Lemma steady_mono {A} (m : M W A) (P Q : err + A → W → Prop) w :
  (∀ r w', P r w' → Q r w') → steady m P w → steady m Q w.
Proof. intros HPQ (r & w' & Hm & HP). exists r, w'. auto. Qed.
Lemma steady_wp {A} (m : M W A) Q w : settles m → wp m Q w → steady m Q w.
Proof. intros Hm Hw. destruct (Hm w) as (r & w' & Hr). exists r, w'. specialize (Hw []). by rewrite Hr in Hw. Qed.
Lemma steady_eval {A} (m : M W A) Q w r w' : steady m Q w → eval m w = (r, w') → Q r w'.
Proof. intros (r1 & w1 & Hm & HQ). unfold eval. rewrite Hm. by intros [= <- <-]. Qed.

(** Every step a program can take keeps a relation to the state it began in. *)
Definition keeps {A} (R : relation W) (m : M W A) : Prop := ∀ w, wp m (λ _ w', R w w') w.

Section Keeps.
Context (R : relation W) `{!PreOrder R}.

Lemma keeps_ret {A} (a : A) : keeps R (mret a).
Proof. intros w fs. simpl. reflexivity. Qed.
Lemma keeps_throw {A} e : keeps R (throw (A := A) e).
Proof. intros w fs. simpl. reflexivity. Qed.
Lemma keeps_look {A} (f : W → A) : keeps R (look f).
Proof. intros w fs. simpl. reflexivity. Qed.
Lemma keeps_query {A} (f : W → err + A) : keeps R (query f).
Proof. intros w. apply wp_query; reflexivity. Qed.
Lemma keeps_stmt {A} (f : W → W * (err + A)) : (∀ w, R w (fst (f w))) → keeps R (stmt f).
Proof. intros H w. by apply wp_stmt; [reflexivity|..]. Qed.
Lemma keeps_exec (f : W → W) : (∀ w, R w (f w)) → keeps R (exec f).
Proof. intros H. by apply keeps_stmt. Qed.
Lemma keeps_bind {A B} (m : M W A) (k : A → M W B) :
  keeps R m → (∀ a, keeps R (k a)) → keeps R (m ≫= k).
Proof.
  intros Hm Hk w. apply wp_bind. eapply wp_mono; [|apply Hm]. intros [e|a] w' Hw; [done|].
  eapply wp_mono; [|apply Hk]. intros r w'' Hw'. by transitivity w'.
Qed.
Lemma keeps_attempt {A} (m : M W A) : keeps R m → keeps R (attempt m).
Proof. intros Hm w. apply wp_attempt, Hm. Qed.
Lemma keeps_ignore {A} (m : M W A) : keeps R m → keeps R (ignore m).
Proof. intros Hm w. apply wp_ignore. eapply wp_mono; [|apply Hm]. done. Qed.
Lemma keeps_each {A} (xs : list A) (body : A → M W ()) :
  (∀ x, x ∈ xs → keeps R (body x)) → keeps R (each xs body).
Proof.
  intros Hb. induction xs as [|x xs IH]; simpl; [apply keeps_ret|].
  apply keeps_bind; [apply Hb; by left|]. intros _. apply IH. intros y Hy. apply Hb. by right.
Qed.
End Keeps.
End Programs.

#[global] Arguments M_ret : simpl never.
#[global] Arguments M_bind : simpl never.

Create HintDb effects.

(** A [keeps] goal, through the shape of the program; what is left are the
    statements, which the hints know or the caller proves. *)
Ltac keep_step :=
  lazymatch goal with
  | |- keeps _ (mret _) => apply (keeps_ret _)
  | |- keeps _ (throw _) => apply (keeps_throw _)
  | |- keeps _ (look _) => apply (keeps_look _)
  | |- keeps _ (query _) => apply (keeps_query _)
  | |- keeps _ fallible => apply (keeps_query _)
  | |- keeps _ (attempt _) => apply (keeps_attempt _)
  | |- keeps _ (ignore _) => apply (keeps_ignore _)
  | |- keeps _ (each _ _) => apply (keeps_each _); intros ? _
  | |- keeps _ (_ ≫= _) => apply (keeps_bind _); [|intros ?]
  | |- keeps _ (match ?x with _ => _ end) => destruct x
  | |- keeps _ (let _ := _ in _) => cbv zeta
  end.
Ltac keep := repeat keep_step; auto with effects.

(** A [settles] goal, the same way. *)
Ltac settle :=
  repeat lazymatch goal with
  | |- settles (mret _) => apply settles_ret
  | |- settles (throw _) => apply settles_throw
  | |- settles (stmt _) => apply settles_stmt
  | |- settles (exec _) => apply settles_stmt
  | |- settles (query _) => apply settles_stmt
  | |- settles (attempt _) => apply settles_attempt
  | |- settles (ignore _) => apply settles_ignore
  | |- settles (each _ _) => apply settles_each; intros ?
  | |- settles (ignore _) => apply settles_ignore
  | |- settles (_ ≫= _) => apply settles_bind; [|intros ?]
  | |- settles (match ?x with _ => _ end) => destruct x
  end.

(** One step of a [wp] goal. *)
Ltac wp :=
  repeat first
    [ apply wp_bind | apply wp_ret | apply wp_throw | apply wp_look
    | apply wp_attempt | apply wp_ignore ].
