(* ===== verification/Scheduler.v ===== *)
(** * The scheduler: cron windows

    Models the passes of [internal/scheduler] that fire on a cron expression or
    an interval — scheduled tasks ([scheduledtasks.go]), backup plans
    ([backups.go]), restore drills ([drills.go]), server cleanups
    ([cleanup.go]) — with the run-now endpoint of tasks
    ([internal/handlers/scheduledtasks.go]) and the worker of one occurrence
    ([internal/jobs/scheduledtask.go], [scheduledworkflow.go]), over the
    statements of [internal/store] they share and the job table of [Queue].
    Occurrences come from [Cron]; zones are looked up outside. *)
From S2P Require Import Prelude GoLib Calendar Cron Queue Effects.
Local Open Scope Z_scope.

(** ** Rows *)

(** [store.TaskOverlapPolicy], [TaskMissedRunPolicy], [TaskExecutionStatus], [TaskKind] *)
Inductive OverlapPolicy := OverlapSkip | OverlapQueue.
Inductive MissedRunPolicy := MissedSkip | MissedRun.
Inductive ExecutionStatus := XRunning | XSucceeded | XFailed | XSkipped.
Inductive TaskKind := ContainerCommand | GithubWorkflow.
#[export] Instance OverlapPolicy_eq_dec : EqDecision OverlapPolicy.
Proof. solve_decision. Defined.
#[export] Instance MissedRunPolicy_eq_dec : EqDecision MissedRunPolicy.
Proof. solve_decision. Defined.
#[export] Instance ExecutionStatus_eq_dec : EqDecision ExecutionStatus.
Proof. solve_decision. Defined.
#[export] Instance TaskKind_eq_dec : EqDecision TaskKind.
Proof. solve_decision. Defined.

(** [scheduled_tasks]; [t_listed]: enabled, and neither it nor its resource deleted. *)
Record Task := mkTask {
  t_id : Z; t_uuid : string; t_kind : TaskKind; t_cron : string; t_timezone : string; t_listed : bool;
  t_overlap : OverlapPolicy; t_missed : MissedRunPolicy; t_next : option Z; t_last : option Z
}.
(** [task_executions] *)
Record Execution := mkExecution {
  x_id : Z; x_task : Z; x_status : ExecutionStatus; x_skip_reason : option string
}.
(** [database_backup_plans]; [pl_listed] as above, [pl_drilled] with drills enabled. *)
Record Plan := mkPlan {
  pl_id : Z; pl_uuid : string; pl_cron : string; pl_timezone : string; pl_listed : bool;
  pl_next : option Z; pl_last : option Z; pl_drilled : bool; pl_drill_days : Z; pl_last_drill : option Z
}.
(** [servers]: what the cleanup reads; [cs_listed]: enabled, ready, not deleted. *)
Record CleanServer := mkCleanServer {
  cs_id : Z; cs_uuid : string; cs_listed : bool; cs_cron : option string; cs_threshold : option Z;
  cs_next : option Z; cs_last : option Z
}.

(** The payloads of the jobs that are queued. *)
Inductive work :=
| RunTask (task execution : Z) | BackupExecute (plan : Z) | BackupDrill (plan : Z)
| ServerCleanup (server : Z) (reason : string).

(** The tables, the clock, the throttle kept in the memory of the leader, and the
    workflow dispatches made so far. *)
Record Sched := mkSched {
  z_now : Z; z_queue : Queue.DB; z_work : gmap Z work;
  z_tasks : gmap Z Task; z_executions : gmap Z Execution; z_execution_next : Z;
  z_plans : gmap Z Plan; z_servers : gmap Z CleanServer;
  z_probes : gmap Z Z; z_dispatched : list Z
}.

Definition set_queue (z : Sched) (db : Queue.DB) (ws : gmap Z work) : Sched :=
  mkSched (z_now z) db ws (z_tasks z) (z_executions z) (z_execution_next z) (z_plans z) (z_servers z)
    (z_probes z) (z_dispatched z).
Definition set_tasks (z : Sched) (t : gmap Z Task) : Sched :=
  mkSched (z_now z) (z_queue z) (z_work z) t (z_executions z) (z_execution_next z) (z_plans z) (z_servers z)
    (z_probes z) (z_dispatched z).
Definition set_executions (z : Sched) (t : gmap Z Execution) (next : Z) : Sched :=
  mkSched (z_now z) (z_queue z) (z_work z) (z_tasks z) t next (z_plans z) (z_servers z)
    (z_probes z) (z_dispatched z).
Definition set_plans (z : Sched) (t : gmap Z Plan) : Sched :=
  mkSched (z_now z) (z_queue z) (z_work z) (z_tasks z) (z_executions z) (z_execution_next z) t (z_servers z)
    (z_probes z) (z_dispatched z).
Definition set_servers (z : Sched) (t : gmap Z CleanServer) : Sched :=
  mkSched (z_now z) (z_queue z) (z_work z) (z_tasks z) (z_executions z) (z_execution_next z) (z_plans z) t
    (z_probes z) (z_dispatched z).
Definition set_probes (z : Sched) (m : gmap Z Z) : Sched :=
  mkSched (z_now z) (z_queue z) (z_work z) (z_tasks z) (z_executions z) (z_execution_next z) (z_plans z)
    (z_servers z) m (z_dispatched z).
Definition set_dispatched (z : Sched) (l : list Z) : Sched :=
  mkSched (z_now z) (z_queue z) (z_work z) (z_tasks z) (z_executions z) (z_execution_next z) (z_plans z)
    (z_servers z) (z_probes z) l.

(** ** Statements *)

(** [queue.Enqueue] *)
Definition enqueue (opts : EnqueueOptions) (p : work) : M Sched Job :=
  stmt (λ z, match Queue.Enqueue (z_queue z) opts (z_now z) with
             | (db, inl _) => (set_queue z db (z_work z), inl Broken)
             | (db, inr j) => (set_queue z db (<[ job_id j := p ]> (z_work z)), inr j)
             end).
Definition options (queue type lock : string) : EnqueueOptions :=
  mkOptions queue type 0 None 0 None (Some lock) true.

(** [CountActiveJobsByLockKey] *)
Definition unfinished (key : string) (j : Job) : bool :=
  bool_decide (job_lock_key j = Some key) &&
  bool_decide (job_status j ∈ [Scheduled; Queued; Leased; Running; RetryWait]).
Definition active_jobs (z : Sched) (key : string) : Z := count (unfinished key) (jobs (z_queue z)).
Definition CountActiveJobsByLockKey (key : string) : M Sched Z := query (λ z, inr (active_jobs z key)).

(** [ListSchedulableTasks], [GetScheduledTaskByID] *)
Definition ListSchedulableTasks : M Sched (list Task) :=
  query (λ z, inr (filter (λ t, t_listed t = true) (map_to_list (z_tasks z)).*2)).
Definition GetScheduledTaskByID (id : Z) : M Sched Task :=
  query (λ z, match z_tasks z !! id with Some t => inr t | None => inl NoRows end).

(** [SetScheduledTaskSchedule]: a null leaves the column alone. *)
Definition keep_old (new old : option Z) : option Z := match new with Some _ => new | None => old end.
Definition rescheduled (next last : option Z) (t : Task) : Task :=
  mkTask (t_id t) (t_uuid t) (t_kind t) (t_cron t) (t_timezone t) (t_listed t) (t_overlap t) (t_missed t)
    (keep_old next (t_next t)) (keep_old last (t_last t)).
Definition SetScheduledTaskSchedule (id : Z) (next last : option Z) : M Sched () :=
  exec (λ z, set_tasks z (alter (rescheduled next last) id (z_tasks z))).

(** [UpdateScheduledTask], the columns the scheduler reads, of a row whose version
    is the one the editor saw; a null leaves a column alone. *)
Record TaskEdit := mkTaskEdit {
  te_cron : option string; te_timezone : option string; te_listed : option bool;
  te_overlap : option OverlapPolicy; te_missed : option MissedRunPolicy
}.
Definition edited (e : TaskEdit) (t : Task) : Task :=
  mkTask (t_id t) (t_uuid t) (t_kind t) (default (t_cron t) (te_cron e)) (default (t_timezone t) (te_timezone e))
    (default (t_listed t) (te_listed e)) (default (t_overlap t) (te_overlap e)) (default (t_missed t) (te_missed e))
    (match te_cron e, te_timezone e with None, None => t_next t | _, _ => None end) (t_last t).
Definition UpdateScheduledTask (id : Z) (e : TaskEdit) : M Sched () :=
  exec (λ z, set_tasks z (alter (edited e) id (z_tasks z))).

(** [CountRunningTaskExecutions], [CreateTaskExecution], [FinishTaskExecution] *)
Definition runs_of (task : Z) (x : Execution) : bool :=
  bool_decide (x_task x = task) && bool_decide (x_status x = XRunning).
Definition running (z : Sched) (task : Z) : Z := count (runs_of task) (z_executions z).
Definition CountRunningTaskExecutions (task : Z) : M Sched Z := query (λ z, inr (running z task)).
Definition CreateTaskExecution (task : Z) (st : ExecutionStatus) (reason : option string) : M Sched Execution :=
  stmt (λ z,
    let x := mkExecution (z_execution_next z) task st reason in
    (set_executions z (<[ x_id x := x ]> (z_executions z)) (z_execution_next z + 1), inr x)).
Definition FinishTaskExecution (id : Z) (st : ExecutionStatus) : M Sched () :=
  exec (λ z, set_executions z (alter (λ x, mkExecution (x_id x) (x_task x) st (x_skip_reason x)) id
    (z_executions z)) (z_execution_next z)).

(** [ListSchedulableBackupPlans], [SetBackupPlanSchedule]: here a null clears the window. *)
Definition ListSchedulableBackupPlans : M Sched (list Plan) :=
  query (λ z, inr (filter (λ p, pl_listed p = true) (map_to_list (z_plans z)).*2)).
Definition SetBackupPlanSchedule (id : Z) (next last : option Z) : M Sched () :=
  exec (λ z, set_plans z (alter (λ p,
    mkPlan (pl_id p) (pl_uuid p) (pl_cron p) (pl_timezone p) (pl_listed p) next (keep_old last (pl_last p))
      (pl_drilled p) (pl_drill_days p) (pl_last_drill p)) id (z_plans z))).

(** [ListDrillablePlans] *)
Definition day : Z := 24 * 60 * minute.
Definition drill_due (now : Z) (p : Plan) : bool :=
  pl_listed p && pl_drilled p &&
  match pl_last_drill p with None => true | Some t => t <? now - pl_drill_days p * day end.
Definition ListDrillablePlans : M Sched (list Plan) :=
  query (λ z, inr (filter (λ p, drill_due (z_now z) p = true) (map_to_list (z_plans z)).*2)).

(** [ListCleanupSchedulableServers], [SetServerCleanupSchedule]: the pass never sets
    the last run. *)
Definition ListCleanupSchedulableServers : M Sched (list CleanServer) :=
  query (λ z, inr (filter (λ s, cs_listed s = true) (map_to_list (z_servers z)).*2)).
Definition SetServerCleanupSchedule (id : Z) (next : option Z) : M Sched () :=
  exec (λ z, set_servers z (alter (λ s,
    mkCleanServer (cs_id s) (cs_uuid s) (cs_listed s) (cs_cron s) (cs_threshold s) next (cs_last s)) id
    (z_servers z))).

(** ** Passes *)

Section Passes.
(** [time.LoadLocation]: the zone database of the host. *)
Context (LoadLocation : string → option Location).

(** [cronexpr.Parse] and [time.LoadLocation], their errors returned. *)
Definition parsed (expr : string) : M Sched Schedule :=
  match Parse expr with inl _ => throw (Failure "cronexpr") | inr s => mret s end.
Definition located (timezone : string) : M Sched Location :=
  match LoadLocation timezone with None => throw (Failure "unknown time zone") | Some l => mret l end.

(** [Schedule.Next], [None] for the zero time.  In a zone where the search does not
    end (see [Cron]) the pass hangs; here it is cut short. *)
Definition next_of (s : Schedule) (after : Z) (loc : Location) : M Sched (option Z) :=
  match Next s after loc with Some r => mret r | None => throw (Failure "Next does not return") end.

(** *** Scheduled tasks *)

(** [advanceTask] *)
Definition advanceTask (task : Task) (s : Schedule) (loc : Location) (now : Z) (fired : bool) : M Sched () :=
  next ← next_of s now loc;
  SetScheduledTaskSchedule (t_id task) next (if fired then Some now else None).

(** [recordSkip] *)
Definition recordSkip (task : Task) (reason : string) : M Sched () :=
  ignore (CreateTaskExecution (t_id task) XSkipped (Some reason)).

(** [enqueueTask] *)
Definition task_lock (task : Task) : string := "scheduled_task:" +:+ t_uuid task.
Definition enqueueTask (task : Task) : M Sched Execution :=
  x ← CreateTaskExecution (t_id task) XRunning None;
  _ ← enqueue (options "task" "scheduled_task.run" (task_lock task)) (RunTask (t_id task) (x_id x));
  mret x.

(** Whether a whole period went by since the occurrence. *)
Definition missed_run (next now : Z) (following : option Z) : bool :=
  match following with
  | None => false
  | Some f => (0 <? f - next) && (f - next <? now - next)
  end.

Definition missed_reason : string :=
  "the occurrence was missed (the instance was down) and the policy is to skip it".
Definition overlap_reason : string := "the previous execution was still running".

(** The end of [scheduleTask]: the overlap policy, then the occurrence. *)
Definition fireTask (task : Task) (s : Schedule) (loc : Location) (now : Z) : M Sched () :=
  busy ← (if decide (t_overlap task = OverlapSkip)
          then n ← CountRunningTaskExecutions (t_id task); mret (0 <? n) else mret false);
  if (busy : bool) then _ ← recordSkip task overlap_reason; advanceTask task s loc now false
  else _ ← enqueueTask task; advanceTask task s loc now true.

(** [scheduleTask] *)
Definition scheduleTask (task : Task) (now : Z) : M Sched () :=
  s ← parsed (t_cron task);
  loc ← located (t_timezone task);
  match t_next task with
  | None => advanceTask task s loc now false
  | Some next =>
      if now <? next then mret ()
      else
        following ← next_of s next loc;
        if missed_run next now following && bool_decide (t_missed task = MissedSkip) then
          _ ← recordSkip task missed_reason; advanceTask task s loc now false
        else fireTask task s loc now
  end.

(** [runDueScheduledTasks] *)
Definition runDueScheduledTasks : M Sched () :=
  tasks ← attempt ListSchedulableTasks;
  match tasks with
  | inl _ => mret ()
  | inr tasks => now ← look z_now; each tasks (λ task, ignore (scheduleTask task now))
  end.

(** [RunScheduledTask], once the task is resolved: the status it answers. *)
Definition RunScheduledTask (task : Task) : M Sched Z :=
  res ← attempt (
    busy ← (if decide (t_overlap task = OverlapSkip)
            then n ← CountRunningTaskExecutions (t_id task); mret (0 <? n) else mret false);
    if (busy : bool) then mret 409 else _ ← enqueueTask task; mret 202);
  mret (match res with inl _ => 500 | inr code => code end).

(** *** Backups and drills *)

(** [advance] *)
Definition advance (plan : Plan) (s : Schedule) (loc : Location) (now : Z) (fired : bool) : M Sched () :=
  next ← next_of s now loc;
  SetBackupPlanSchedule (pl_id plan) next (if fired then Some now else None).

(** [scheduleBackupPlan] *)
Definition plan_lock (plan : Plan) : string := "backup:plan:" +:+ pl_uuid plan.
Definition scheduleBackupPlan (plan : Plan) (now : Z) : M Sched () :=
  s ← parsed (pl_cron plan);
  loc ← located (pl_timezone plan);
  match pl_next plan with
  | None => advance plan s loc now false
  | Some next =>
      if now <? next then mret ()
      else
        active ← CountActiveJobsByLockKey (plan_lock plan);
        if 0 <? active then advance plan s loc now false
        else
          _ ← enqueue (options "backup" "backup.execute" (plan_lock plan)) (BackupExecute (pl_id plan));
          advance plan s loc now true
  end.

(** [runDueBackups] *)
Definition runDueBackups : M Sched () :=
  plans ← attempt ListSchedulableBackupPlans;
  match plans with
  | inl _ => mret ()
  | inr plans => now ← look z_now; each plans (λ plan, ignore (scheduleBackupPlan plan now))
  end.

(** [runDueDrills] *)
Definition drill_one (plan : Plan) : M Sched () :=
  active ← attempt (CountActiveJobsByLockKey (plan_lock plan));
  match active with
  | inl _ => mret ()
  | inr active =>
      if 0 <? active then mret ()
      else ignore (enqueue (options "backup" "backup.drill" (plan_lock plan)) (BackupDrill (pl_id plan)))
  end.
Definition runDueDrills : M Sched () :=
  plans ← attempt ListDrillablePlans;
  match plans with inl _ => mret () | inr plans => each plans drill_one end.

(** *** Cleanups *)

(** [advanceCleanup] *)
Definition advanceCleanup (id : Z) (s : Schedule) (now : Z) : M Sched () :=
  next ← next_of s now UTC; SetServerCleanupSchedule id next.

(** [scheduleServerCleanup] *)
Definition cleanup_lock (server : CleanServer) : string := "server:cleanup:" +:+ cs_uuid server.
Definition scheduleServerCleanup (server : CleanServer) (cron : string) (now : Z) : M Sched () :=
  s ← parsed cron;
  match cs_next server with
  | None => advanceCleanup (cs_id server) s now
  | Some next =>
      if now <? next then mret ()
      else
        active ← CountActiveJobsByLockKey (cleanup_lock server);
        if 0 <? active then advanceCleanup (cs_id server) s now
        else
          _ ← enqueue (options "cleanup" "server.cleanup" (cleanup_lock server)) (ServerCleanup (cs_id server) "cron");
          advanceCleanup (cs_id server) s now
  end.

(** [probeCleanupThreshold] *)
Definition thresholdCheckInterval : Z := 15 * minute.
Definition throttled (last : option Z) (now : Z) : bool :=
  match last with Some t => now - t <? thresholdCheckInterval | None => false end.
Definition probeCleanupThreshold (server : CleanServer) (now : Z) : M Sched () :=
  last ← look (λ z, z_probes z !! cs_id server);
  if throttled last now then mret ()
  else
    active ← attempt (CountActiveJobsByLockKey (cleanup_lock server));
    match active with
    | inl _ => mret ()
    | inr active =>
        if 0 <? active then mret ()
        else
          queued ← attempt (enqueue (options "cleanup" "server.cleanup" (cleanup_lock server))
                              (ServerCleanup (cs_id server) "threshold"));
          match queued with
          | inl _ => mret ()
          | inr _ => λ fs z, (inr (), (fs, set_probes z (<[ cs_id server := now ]> (z_probes z))))
          end
    end.

(** [runDueCleanups] *)
Definition clean_one (now : Z) (server : CleanServer) : M Sched () :=
  _ ← match cs_cron server with
      | None => mret ()
      | Some cron => if decide (cron = "") then mret () else ignore (scheduleServerCleanup server cron now)
      end;
  match cs_threshold server with None => mret () | Some _ => probeCleanupThreshold server now end.
Definition runDueCleanups : M Sched () :=
  servers ← attempt ListCleanupSchedulableServers;
  match servers with
  | inl _ => mret ()
  | inr servers => now ← look z_now; each servers (clean_one now)
  end.
End Passes.

(** ** The worker of one occurrence *)

(** How the command in the container ended, and how far a workflow dispatch got. *)
Inductive command_end := AgentAbsent | CommandBroken | Exited (code : Z).
Inductive dispatch_end := NotDispatched | DispatchRefused | DispatchAccepted.

(** The request leaves the control plane. *)
Definition performed (execution : Z) : M Sched () := λ fs z,
  (inr (), (fs, set_dispatched z (execution :: z_dispatched z))).

(** [fail], [failWorkflow]: close the execution, ignoring errors. *)
Definition close_failed (execution : Z) : M Sched () := ignore (FinishTaskExecution execution XFailed).

(** [dispatchWorkflow]: the status it reports, never an error. *)
Definition dispatchWorkflow (execution : Z) (d : dispatch_end) : M Sched string :=
  match d with
  | NotDispatched => _ ← close_failed execution; mret "failed"
  | DispatchRefused => _ ← performed execution; _ ← close_failed execution; mret "failed"
  | DispatchAccepted =>
      _ ← performed execution; _ ← ignore (FinishTaskExecution execution XSucceeded); mret "succeeded"
  end.

(** [ScheduledTaskRun.Execute]; the application, its destination and its server are
    read from tables that are not kept here. *)
Definition ExecuteTask (task execution : Z) (c : command_end) (d : dispatch_end) : M Sched string :=
  t ← GetScheduledTaskByID task;
  _ ← fallible;
  if decide (t_kind t = GithubWorkflow) then dispatchWorkflow execution d
  else
    _ ← fallible;
    _ ← fallible;
    match c with
    | AgentAbsent => _ ← close_failed execution; throw (Failure "the server's agent is not connected")
    | CommandBroken => _ ← performed execution; _ ← close_failed execution; mret "failed"
    | Exited code =>
        _ ← performed execution;
        _ ← FinishTaskExecution execution (if code =? 0 then XSucceeded else XFailed);
        mret (if code =? 0 then "succeeded" else "failed")
    end.

(** ** What never overlaps *)

(** Locks of tasks; every other lock of the scheduler is taken when free. *)
Definition task_key (key : string) : bool := has_prefix key "scheduled_task:".

Record Inv (z : Sched) : Prop := mkInv {
  i_tasks : ∀ i t, z_tasks z !! i = Some t → t_id t = i;
  i_executions : ∀ i x, z_executions z !! i = Some x → i < z_execution_next z;
  i_jobs : ∀ i j, jobs (z_queue z) !! i = Some j → i < next_id (z_queue z)
}.
Definition policy (z : Sched) : gmap Z OverlapPolicy := t_overlap <$> z_tasks z.
(** The policies of the tasks, and bounds on the unfinished jobs of each lock and on
    the running executions of each task that is to be skipped. *)
Record target := mkTarget { tg_policy : gmap Z OverlapPolicy; tg_bound : string → Z; tg_running : Z → Z }.
Record good (p : target) (z : Sched) : Prop := mkGood {
  g_inv : Inv z;
  g_policy : policy z = tg_policy p;
  g_locks : ∀ key, task_key key = false → active_jobs z key <= Z.max 1 (tg_bound p key);
  g_running : ∀ i, tg_policy p !! i = Some OverlapSkip → running z i <= Z.max 1 (tg_running p i)
}.

Lemma good_tasks p z f i :
  (∀ t, t_id (f t) = t_id t ∧ t_overlap (f t) = t_overlap t) → good p z →
  good p (set_tasks z (alter f i (z_tasks z))).
Proof.
  intros Hf [[H1 H2 H3] Hpol H5 H6].
  assert (policy (set_tasks z (alter f i (z_tasks z))) = policy z) as Hp.
  { unfold policy. simpl. apply map_eq. intros j. rewrite !lookup_fmap, lookup_alter. case_decide; [subst j|done].
    destruct (z_tasks z !! i) as [t|]; simpl; [by rewrite (proj2 (Hf t))|done]. }
  split; [|congruence|done|done]. constructor; try done; simpl.
  intros j t. rewrite lookup_alter. case_decide; [subst j|apply H1]. intros (t0 & Ht0 & ->)%fmap_Some.
  rewrite (proj1 (Hf t0)). by apply H1.
Qed.

(** Executions that are created or closed. *)
Definition fresh (z : Sched) : Prop := ∀ i x, z_executions z !! i = Some x → i < z_execution_next z.
Lemma running_create z task st reason k :
  fresh z → running (set_executions z (<[ z_execution_next z := mkExecution (z_execution_next z) task st reason ]>
                      (z_executions z)) (z_execution_next z + 1)) k =
          running z k + (if bool_decide (task = k) && bool_decide (st = XRunning) then 1 else 0).
Proof.
  intros Hz. unfold running. simpl. rewrite count_insert_new; [done|].
  destruct (z_executions z !! z_execution_next z) as [x|] eqn:E; [|done]. apply Hz in E. lia.
Qed.
Lemma good_create p z task st reason :
  (st = XRunning → tg_policy p !! task = Some OverlapSkip → running z task = 0) → good p z →
  good p (set_executions z (<[ z_execution_next z := mkExecution (z_execution_next z) task st reason ]>
    (z_executions z)) (z_execution_next z + 1)).
Proof.
  intros Hrun [Hz Hpol H5 H6]. pose proof Hz as [H1 H2 H3]. split; [|done|done|].
  - constructor; try done. intros i x. simpl. intros [[<- _]|[_ Hx]]%lookup_insert_Some; [lia|]. apply H2 in Hx. lia.
  - intros i Hs. rewrite (running_create z task st reason i (i_executions z Hz)). specialize (H6 i Hs).
    destruct (bool_decide (task = i) && bool_decide (st = XRunning)) eqn:E; [|lia].
    apply andb_true_iff in E as [<-%bool_decide_eq_true ->%bool_decide_eq_true]. rewrite Hrun by done. lia.
Qed.
Lemma running_finish z id st k :
  st ≠ XRunning →
  running (set_executions z (alter (λ x, mkExecution (x_id x) (x_task x) st (x_skip_reason x)) id (z_executions z))
    (z_execution_next z)) k <= running z k.
Proof.
  intros Hst. unfold running. simpl. destruct (z_executions z !! id) as [x|] eqn:E.
  - rewrite (alter_alt_Some _ _ _ _ E), (count_insert _ _ _ _ _ E).
    assert (runs_of k (mkExecution (x_id x) (x_task x) st (x_skip_reason x)) = false) as ->.
    { unfold runs_of. simpl. by rewrite (bool_decide_false (st = XRunning)), andb_false_r. }
    unfold b2z. destruct (runs_of k x); lia.
  - rewrite alter_id by (intros y; congruence). lia.
Qed.
Lemma good_finish p z id st :
  st ≠ XRunning → good p z →
  good p (set_executions z (alter (λ x, mkExecution (x_id x) (x_task x) st (x_skip_reason x)) id (z_executions z))
    (z_execution_next z)).
Proof.
  intros Hst [[H1 H2 H3] Hpol H5 H6]. split; [|done|done|].
  - constructor; try done.
    intros i x. simpl. rewrite lookup_alter. case_decide; [subst i|apply H2]. intros (y & Hy & _)%fmap_Some. eauto.
  - intros i Hs. pose proof (running_finish z id st i Hst). specialize (H6 i Hs). lia.
Qed.

(** A job that is queued. *)
Lemma active_enqueue z queue type lock w :
  Inv z →
  let r := Queue.Enqueue (z_queue z) (options queue type lock) (z_now z) in
  let z' := set_queue z (fst r) w in
  (∀ i j, jobs (fst r) !! i = Some j → i < next_id (fst r)) ∧
  ∀ key, active_jobs z' key <= active_jobs z key + (if bool_decide (lock = key) then 1 else 0).
Proof.
  intros Hz. cbv zeta. pose proof (i_jobs z Hz) as Hj.
  destruct (Enqueue_db (z_queue z) (options queue type lock) (z_now z)) as [E|[_ E]]; rewrite E.
  { split; [done|]. intros key. unfold active_jobs. simpl. case_match; lia. }
  unfold EnqueueJob. simpl. split.
  - intros i j [[<- _]|[_ H]]%lookup_insert_Some; [lia|]. apply Hj in H. lia.
  - intros key. unfold active_jobs. simpl. rewrite count_insert_new.
    + unfold unfinished, new_row. simpl. rewrite (bool_decide_ext (Some lock = Some key) (lock = key)) by naive_solver.
      destruct (bool_decide (lock = key)); simpl; lia.
    + destruct (jobs (z_queue z) !! next_id (z_queue z)) as [j|] eqn:Ej; [|done]. apply Hj in Ej. lia.
Qed.
Lemma good_enqueue p z queue type lock w :
  task_key lock = true ∨ active_jobs z lock <= 0 → good p z →
  good p (set_queue z (fst (Queue.Enqueue (z_queue z) (options queue type lock) (z_now z))) w).
Proof.
  intros Hl [Hz Hpol H5 H6]. destruct (active_enqueue z queue type lock w Hz) as [Hf Ha].
  pose proof Hz as [H1 H2 H3]. split; [by constructor|done| |done].
  intros key Hk. specialize (Ha key). specialize (H5 key Hk). case_bool_decide as E; [subst lock|lia].
  destruct Hl as [Hl|Hl]; [congruence|lia].
Qed.

Definition stays (p : target) (z z' : Sched) : Prop := good p z → good p z'.
#[export] Instance stays_preorder p : PreOrder (stays p).
Proof. split; [intros z H; exact H|]. intros z1 z2 z3 H1 H2 H. auto. Qed.

Lemma keeps_good {A} p (m : M Sched A) z : keeps (stays p) m → good p z → wp m (λ _ z', good p z') z.
Proof. intros Hm Hz. eapply wp_mono; [|apply Hm]. intros r z' H. by apply H. Qed.

Section Stays.
Context (LoadLocation : string → option Location) (p : target).

Lemma SetScheduledTaskSchedule_stays id next last : keeps (stays p) (SetScheduledTaskSchedule id next last).
Proof. apply (keeps_exec _). intros z H. by apply good_tasks. Qed.
Lemma CreateTaskExecution_stays task st reason : st ≠ XRunning → keeps (stays p) (CreateTaskExecution task st reason).
Proof. intros Hst. apply (keeps_stmt _). intros z H. by apply good_create. Qed.
Lemma FinishTaskExecution_stays id st : st ≠ XRunning → keeps (stays p) (FinishTaskExecution id st).
Proof. intros Hst. apply (keeps_exec _). intros z H. by apply good_finish. Qed.
Lemma SetBackupPlanSchedule_stays id next last : keeps (stays p) (SetBackupPlanSchedule id next last).
Proof. apply (keeps_exec _). intros z [[] E H H']. by split. Qed.
Lemma SetServerCleanupSchedule_stays id next : keeps (stays p) (SetServerCleanupSchedule id next).
Proof. apply (keeps_exec _). intros z [[] E H H']. by split. Qed.
Lemma performed_stays x : keeps (stays p) (performed x).
Proof. intros z fs [[] E H H']. by split. Qed.
Lemma parsed_stays expr : keeps (stays p) (parsed expr).
Proof. unfold parsed. keep. Qed.
Lemma located_stays tz : keeps (stays p) (located LoadLocation tz).
Proof. unfold located. keep. Qed.
Lemma next_of_stays s after loc : keeps (stays p) (next_of s after loc).
Proof. unfold next_of. keep. Qed.
#[local] Hint Resolve SetScheduledTaskSchedule_stays CreateTaskExecution_stays FinishTaskExecution_stays
  SetBackupPlanSchedule_stays SetServerCleanupSchedule_stays performed_stays parsed_stays located_stays
  next_of_stays : effects.

Lemma advanceTask_stays task s loc now fired : keeps (stays p) (advanceTask task s loc now fired).
Proof. unfold advanceTask. keep. Qed.
Lemma recordSkip_stays task reason : keeps (stays p) (recordSkip task reason).
Proof. unfold recordSkip. keep. Qed.
Lemma advance_stays plan s loc now fired : keeps (stays p) (advance plan s loc now fired).
Proof. unfold advance. keep. Qed.
Lemma advanceCleanup_stays id s now : keeps (stays p) (advanceCleanup id s now).
Proof. unfold advanceCleanup. keep. Qed.
#[local] Hint Resolve advanceTask_stays recordSkip_stays advance_stays advanceCleanup_stays : effects.

Lemma enqueue_good queue type lock w z :
  task_key lock = true ∨ active_jobs z lock <= 0 → good p z →
  wp (enqueue (options queue type lock) w) (λ _ z', good p z') z.
Proof.
  intros Hl Hz. pose proof (λ ws, good_enqueue p z queue type lock ws Hl Hz) as H. unfold enqueue.
  apply wp_stmt; [done|..]; destruct (Queue.Enqueue _ _ _) as [db [e|j]]; apply H.
Qed.

(** The policy a task was read with is the one in the table. *)
Definition agrees (task : Task) : Prop := ∀ o, tg_policy p !! t_id task = Some o → o = t_overlap task.

Lemma enqueueTask_good task z :
  (tg_policy p !! t_id task = Some OverlapSkip → running z (t_id task) = 0) → good p z →
  wp (enqueueTask task) (λ _ z', good p z') z.
Proof.
  intros Hr Hz. unfold enqueueTask. apply wp_bind.
  assert (wp (CreateTaskExecution (t_id task) XRunning None) (λ _ z', good p z') z) as Hc.
  { apply wp_stmt; [done|..]; by apply good_create. }
  eapply wp_mono; [|exact Hc]. intros [e|x] z1 H1; [done|]. apply wp_bind.
  eapply wp_mono; [|apply enqueue_good; [left|done]].
  - intros [e|j] z2 H2; [done|by apply wp_ret].
  - apply has_prefix_spec. by eexists.
Qed.

(** Unless an execution is running: the shared guard of the scheduler and the
    endpoint. *)
Lemma unless_running {A} task (m : M Sched A) (k : bool → M Sched A) z :
  k false = m → keeps (stays p) (k true) → agrees task →
  (∀ z, (tg_policy p !! t_id task = Some OverlapSkip → running z (t_id task) = 0) → good p z →
     wp m (λ _ z', good p z') z) → good p z →
  wp (busy ← (if decide (t_overlap task = OverlapSkip)
      then n ← CountRunningTaskExecutions (t_id task); mret (0 <? n) else mret false); k busy)
    (λ _ z', good p z') z.
Proof.
  intros Hk Ht Ha Hm Hz. apply wp_bind. case_decide as Ho.
  - apply wp_bind, wp_query; [done|]. apply wp_ret. destruct (0 <? running z (t_id task)) eqn:E.
    + by apply keeps_good.
    + rewrite Hk. apply Hm; [|done]. intros _. pose proof (count_nonneg (runs_of (t_id task)) (z_executions z)).
      unfold running in *. lia.
  - apply wp_ret. rewrite Hk. apply Hm; [|done]. intros E. by apply Ha in E.
Qed.

Lemma fireTask_good task s loc now z : agrees task → good p z → wp (fireTask task s loc now) (λ _ z', good p z') z.
Proof.
  intros Ha Hz. unfold fireTask. eapply (unless_running task _
    (λ busy, if busy then _ ← recordSkip task overlap_reason; advanceTask task s loc now false
             else _ ← enqueueTask task; advanceTask task s loc now true)); [done|keep|done| |done].
  intros z1 Hr H1. apply wp_bind. eapply wp_mono; [|by apply enqueueTask_good].
  intros [e|x] z2 H2; [done|]. apply keeps_good; [apply advanceTask_stays|done].
Qed.

Lemma scheduleTask_good task now z :
  agrees task → good p z → wp (scheduleTask LoadLocation task now) (λ _ z', good p z') z.
Proof.
  intros Ha Hz. unfold scheduleTask.
  assert (∀ {A B} (m : M Sched A) (k : A → M Sched B) z, keeps (stays p) m → good p z →
    (∀ x z', good p z' → wp (k x) (λ _ z'', good p z'') z') → wp (m ≫= k) (λ _ z', good p z') z) as Hb.
  { intros A B m k v Hm Hv Hk. apply wp_bind. eapply wp_mono; [|by apply keeps_good].
    intros [e|x] v' Hv'; [done|by apply Hk]. }
  apply Hb; [keep|done|]. intros s z1 H1. apply Hb; [keep|done|]. intros loc z2 H2.
  destruct (t_next task) as [next|]; [|apply keeps_good; [keep|done]].
  destruct (now <? next); [by apply wp_ret|]. apply Hb; [keep|done|]. intros following z3 H3.
  destruct (missed_run _ _ _ && _); [apply keeps_good; [keep|done]|by apply fireTask_good].
Qed.

Lemma RunScheduledTask_good task z : agrees task → good p z → wp (RunScheduledTask task) (λ _ z', good p z') z.
Proof.
  intros Ha Hz. unfold RunScheduledTask. apply wp_bind, wp_attempt.
  eapply wp_mono; [|eapply (unless_running task _
    (λ busy, if busy then mret 409 else _ ← enqueueTask task; mret 202)); [done|keep|done| |done]].
  - intros r z' H. by apply wp_ret.
  - intros z1 Hr H1. apply wp_bind. eapply wp_mono; [|by apply enqueueTask_good].
    intros [e|x] z2 H2; [done|by apply wp_ret].
Qed.

(** The other jobs are queued when their lock is free. *)
Lemma when_free {A} key queue type w (rest : M Sched A) z :
  keeps (stays p) rest → good p z → active_jobs z key <= 0 →
  wp (_ ← enqueue (options queue type key) w; rest) (λ _ z', good p z') z.
Proof.
  intros Hr Hz Ha. apply wp_bind. eapply wp_mono; [|apply enqueue_good; [by right|done]].
  intros [e|j] z' H; [done|by apply keeps_good].
Qed.
Lemma good_bind {A B} (m : M Sched A) (k : A → M Sched B) z :
  keeps (stays p) m → good p z → (∀ x z', good p z' → wp (k x) (λ _ z'', good p z'') z') →
  wp (m ≫= k) (λ _ z', good p z') z.
Proof.
  intros Hm Hz Hk. apply wp_bind. eapply wp_mono; [|by apply keeps_good]. intros [e|x] z' H; [done|by apply Hk].
Qed.

Lemma scheduleBackupPlan_good plan now z :
  good p z → wp (scheduleBackupPlan LoadLocation plan now) (λ _ z', good p z') z.
Proof.
  intros Hz. unfold scheduleBackupPlan. apply good_bind; [keep|done|]. intros s z1 H1.
  apply good_bind; [keep|done|]. intros loc z2 H2.
  destruct (pl_next plan) as [next|]; [|apply keeps_good; [keep|done]].
  destruct (now <? next); [by apply wp_ret|]. apply wp_bind, wp_query; [done|].
  destruct (0 <? active_jobs z2 (plan_lock plan)) eqn:E; [apply keeps_good; [keep|done]|].
  apply when_free; [keep|done|lia].
Qed.
Lemma drill_one_good plan z : good p z → wp (drill_one plan) (λ _ z', good p z') z.
Proof.
  intros Hz. unfold drill_one. apply wp_bind, wp_attempt, wp_query; [by apply wp_ret|].
  destruct (0 <? active_jobs z (plan_lock plan)) eqn:E; [by apply wp_ret|].
  apply wp_ignore. eapply wp_mono; [|apply enqueue_good; [right; lia|done]]. done.
Qed.
Lemma scheduleServerCleanup_good server cron now z :
  good p z → wp (scheduleServerCleanup server cron now) (λ _ z', good p z') z.
Proof.
  intros Hz. unfold scheduleServerCleanup. apply good_bind; [keep|done|]. intros s z1 H1.
  destruct (cs_next server) as [next|]; [|apply keeps_good; [keep|done]].
  destruct (now <? next); [by apply wp_ret|]. apply wp_bind, wp_query; [done|].
  destruct (0 <? active_jobs z1 (cleanup_lock server)) eqn:E; [apply keeps_good; [keep|done]|].
  apply when_free; [keep|done|lia].
Qed.
Lemma probeCleanupThreshold_good server now z :
  good p z → wp (probeCleanupThreshold server now) (λ _ z', good p z') z.
Proof.
  intros Hz. unfold probeCleanupThreshold. apply wp_bind, wp_look. destruct (throttled _ _); [by apply wp_ret|].
  apply wp_bind, wp_attempt, wp_query; [by apply wp_ret|].
  destruct (0 <? active_jobs z (cleanup_lock server)) eqn:E; [by apply wp_ret|].
  apply wp_bind, wp_attempt. eapply wp_mono; [|apply enqueue_good; [right; lia|done]].
  intros [e|j] z' H; [by apply wp_ret|]. intros fs. destruct H as [[] Hpol Hl Hr]. by split.
Qed.
Lemma clean_one_good now server z : good p z → wp (clean_one now server) (λ _ z', good p z') z.
Proof.
  intros Hz. unfold clean_one. apply wp_bind.
  assert (∀ z, good p z → wp (match cs_threshold server with None => mret () | Some _ => probeCleanupThreshold server now end)
    (λ _ z', good p z') z) as Ht.
  { intros z1 H1. destruct (cs_threshold server); [by apply probeCleanupThreshold_good|by apply wp_ret]. }
  destruct (cs_cron server) as [cron|]; [|by apply wp_ret, Ht]. case_decide; [by apply wp_ret, Ht|].
  apply wp_ignore. eapply wp_mono; [|by apply scheduleServerCleanup_good]. intros r z' H'. by apply Ht.
Qed.

(** The passes. *)
Lemma runDueBackups_good z : good p z → wp (runDueBackups LoadLocation) (λ _ z', good p z') z.
Proof.
  intros Hz. unfold runDueBackups. apply wp_bind, wp_attempt, wp_query; [by apply wp_ret|]. apply wp_bind, wp_look.
  apply wp_each; [|done]. intros plan z1 _ H1. apply wp_ignore.
  eapply wp_mono; [|by apply scheduleBackupPlan_good]. done.
Qed.
Lemma runDueDrills_good z : good p z → wp runDueDrills (λ _ z', good p z') z.
Proof.
  intros Hz. unfold runDueDrills. apply wp_bind, wp_attempt, wp_query; [by apply wp_ret|].
  apply wp_each; [|done]. intros plan z1 _ H1. by apply drill_one_good.
Qed.
Lemma runDueCleanups_good z : good p z → wp runDueCleanups (λ _ z', good p z') z.
Proof.
  intros Hz. unfold runDueCleanups. apply wp_bind, wp_attempt, wp_query; [by apply wp_ret|]. apply wp_bind, wp_look.
  apply wp_each; [|done]. intros server z1 _ H1. by apply clean_one_good.
Qed.
Lemma row_agrees z i t : good p z → z_tasks z !! i = Some t → agrees t.
Proof.
  intros [Hz Hp _ _] Ht o. rewrite <- Hp, (i_tasks z Hz i t Ht). unfold policy. rewrite lookup_fmap, Ht. by intros [= <-].
Qed.
Lemma runDueScheduledTasks_good z : good p z → wp (runDueScheduledTasks LoadLocation) (λ _ z', good p z') z.
Proof.
  intros Hz. unfold runDueScheduledTasks. apply wp_bind, wp_attempt, wp_query; [by apply wp_ret|].
  apply wp_bind, wp_look. apply wp_each; [|done]. intros t z1 Ht H1. apply wp_ignore.
  apply list_elem_of_filter in Ht as [_ ([i t'] & -> & Hin)%list_elem_of_fmap].
  apply elem_of_map_to_list in Hin. eapply wp_mono; [|apply scheduleTask_good; [|exact H1]]; [done|].
  by apply (row_agrees z i).
Qed.
Lemma ExecuteTask_stays task x c d : keeps (stays p) (ExecuteTask task x c d).
Proof.
  unfold ExecuteTask, GetScheduledTaskByID, dispatchWorkflow, close_failed. keep.
  by case_match; apply FinishTaskExecution_stays.
Qed.
End Stays.

(** ** The system: the scheduler, the endpoint, the workers and the clock *)

Section System.
Context (LoadLocation : string → option Location).

(** The passes of the scheduler, each with any of its statements failing. *)
Inductive pass : Sched → Sched → Prop :=
| pass_tasks fs z : pass z (snd (snd (runDueScheduledTasks LoadLocation fs z)))
| pass_backups fs z : pass z (snd (snd (runDueBackups LoadLocation fs z)))
| pass_drills fs z : pass z (snd (snd (runDueDrills fs z)))
| pass_cleanups fs z : pass z (snd (snd (runDueCleanups fs z))).

(** What the rest may do: time passes, jobs are queued, moved along and purged,
    plans and servers are edited. *)
Record aside (z z' : Sched) : Prop := mkAside {
  a_now : z_now z <= z_now z';
  a_tasks : z_tasks z' = z_tasks z;
  a_executions : z_executions z' = z_executions z;
  a_execution_next : z_execution_next z <= z_execution_next z';
  a_jobs : ∀ i j, jobs (z_queue z') !! i = Some j → i < next_id (z_queue z')
}.

Inductive step : Sched → Sched → Prop :=
| step_pass z z' : pass z z' → step z z'
| step_run task fs z : z_tasks z !! t_id task = Some task → step z (snd (snd (RunScheduledTask task fs z)))
| step_execute task x c d fs z : step z (snd (snd (ExecuteTask task x c d fs z)))
| step_edit id e fs z : step z (snd (snd (UpdateScheduledTask id e fs z)))
| step_aside z z' : aside z z' → step z z'.

Lemma wp_good {A} p (m : M Sched A) fs z : wp m (λ _ z', good p z') z → good p (snd (snd (m fs z))).
Proof. intros H. specialize (H fs). by destruct (m fs z) as [r [fs' z']]. Qed.
Lemma good_now z : Inv z → good (mkTarget (policy z) (active_jobs z) (running z)) z.
Proof. intros Hz. split; [done|done|intros key _; simpl; lia|intros i _; simpl; lia]. Qed.

Lemma pass_good p z z' : pass z z' → good p z → good p z'.
Proof.
  intros Hp Hz. destruct Hp; apply wp_good.
  - by apply runDueScheduledTasks_good.
  - by apply runDueBackups_good.
  - by apply runDueDrills_good.
  - by apply runDueCleanups_good.
Qed.
(** An edit changes no execution. *)
Lemma edit_step id e fs z :
  Inv z → let z' := snd (snd (UpdateScheduledTask id e fs z)) in Inv z' ∧ ∀ i, running z' i = running z i.
Proof.
  intros Hz.
  assert (wp (UpdateScheduledTask id e) (λ _ z', Inv z' ∧ ∀ i, running z' i = running z i) z) as H.
  { destruct Hz as [H1 H2 H3].
    assert (Inv (set_tasks z (alter (edited e) id (z_tasks z)))) as Hi.
    { constructor; try done. intros i t. simpl. rewrite lookup_alter. case_decide; [subst i|apply H1].
      intros (t0 & Ht0 & ->)%fmap_Some. simpl. by apply H1. }
    by apply wp_exec; (split; [|done]). }
  specialize (H fs). by destruct (UpdateScheduledTask id e fs z) as [r [fs' z']].
Qed.

(** The policy of a task is to skip what overlaps. *)
Definition skips (i : Z) (z : Sched) : Prop := ∃ t, z_tasks z !! i = Some t ∧ t_overlap t = OverlapSkip.
Lemma skips_policy i z : skips i z → policy z !! i = Some OverlapSkip.
Proof. intros (t & Ht & Hs). unfold policy. by rewrite lookup_fmap, Ht, <- Hs. Qed.

(** A step keeps the invariant, and starts no execution beside a running one of a
    task that skips. *)
Lemma step_bounded z z' :
  step z z' → Inv z → Inv z' ∧ ∀ i, skips i z → running z' i <= Z.max 1 (running z i).
Proof.
  intros Hs Hz. pose proof (good_now z Hz) as Hg. set (p := mkTarget _ _ _) in Hg.
  assert (∀ z', good p z' → Inv z' ∧ ∀ i, skips i z → running z' i <= Z.max 1 (running z i)) as Hi.
  { intros v Hv. split; [apply Hv|]. intros i Hsk. apply (g_running _ _ Hv). by apply skips_policy. }
  destruct Hs.
  - by eapply Hi, pass_good.
  - apply Hi, wp_good, RunScheduledTask_good; [|done]. by eapply row_agrees.
  - apply Hi, wp_good, keeps_good; [apply ExecuteTask_stays|done].
  - destruct (edit_step id e fs z Hz) as [He Hr]. split; [done|]. intros i _. rewrite Hr. lia.
  - destruct Hz as [H1 H2 H3], H as [E1 E2 E3 E4 E5]. split.
    + constructor; [by rewrite E2| |done]. intros i x. rewrite E3. intros Hx. apply H2 in Hx. lia.
    + intros i _. unfold running. rewrite E3. lia.
Qed.
Lemma history_inv z z' : rtc step z z' → Inv z → Inv z'.
Proof. induction 1 as [|x y v Hs _ IH]; [done|]. intros Hx. apply IH. by apply (step_bounded x y). Qed.

(** C12: In every history of scheduler passes, run-now requests, workers and edits,
    each of them taken as a whole and whichever of its statements fail: while the
    overlap policy of a task is to skip, and it had at most one running execution
    when that policy was set, it has at most one; and no pass queues a job of a
    backup plan, a drill or a server's cleanup while an unfinished job holds its
    lock.  (The check and the insertion of two handlers can interleave:
    [interleaved_requests_overlap].) *)
Theorem scheduler_never_overlaps z0 :
  Inv z0 →
  (∀ i z, skips i z0 → running z0 i <= 1 → rtc (λ x y, step x y ∧ skips i y) z0 z → running z i <= 1) ∧
  (∀ z z' key, rtc step z0 z → pass z z' → task_key key = false → active_jobs z' key <= Z.max 1 (active_jobs z key)).
Proof.
  intros H0. split.
  - intros i z Hsk Hr H. revert H0 Hsk Hr. induction H as [|x y v [Hs Hy] _ IH]; [done|]. intros Hx Hsk Hr.
    destruct (step_bounded x y Hs Hx) as [Hiy Hb]. specialize (Hb i Hsk). apply IH; [done|done|lia].
  - intros z z' key H Hp Hk. pose proof (history_inv z0 z H H0) as Hz.
    by apply (g_locks _ _ (pass_good _ z z' Hp (good_now z Hz))).
Qed.
End System.

(** ** Windows *)

Section Windows.
Context (LoadLocation : string → option Location).

(** Only the task [k] is touched. *)
Record spared (k : Z) (z z' : Sched) : Prop := mkSpared {
  sp_fresh : fresh z';
  sp_now : z_now z' = z_now z;
  sp_rows : ∀ j, j ≠ k → z_tasks z' !! j = z_tasks z !! j;
  sp_running : ∀ j, j ≠ k → running z' j = running z j
}.
Definition spares (k : Z) (z z' : Sched) : Prop := fresh z → spared k z z'.
#[local] Instance spares_preorder k : PreOrder (spares k).
Proof.
  split; [done|]. intros z1 z2 z3 H1 H2 Hz. destruct (H1 Hz) as [I2 N2 F2 R2]. destruct (H2 I2) as [I3 N3 F3 R3].
  constructor; [done|congruence|..]; intros j Hj; [rewrite F3, F2 by done|rewrite R3, R2 by done]; done.
Qed.
Lemma SetScheduledTaskSchedule_spares k next last : keeps (spares k) (SetScheduledTaskSchedule k next last).
Proof.
  apply (keeps_exec _). intros z Hz. constructor; try done. intros j Hj. simpl.
  rewrite lookup_alter. by rewrite decide_False.
Qed.
Lemma CreateTaskExecution_spares k st reason : keeps (spares k) (CreateTaskExecution k st reason).
Proof.
  apply (keeps_stmt _). intros z Hz. constructor; try done.
  - intros i x. simpl. intros [[<- _]|[_ Hx]]%lookup_insert_Some; [lia|]. apply Hz in Hx. lia.
  - intros j Hj. simpl. rewrite (running_create z k st reason j Hz). rewrite bool_decide_false by done. simpl. lia.
Qed.
Lemma enqueue_spares k opts w : keeps (spares k) (enqueue opts w).
Proof.
  apply (keeps_stmt _). intros z Hz. destruct (Queue.Enqueue _ _ _) as [db [e|j]]; by constructor.
Qed.
#[local] Hint Resolve SetScheduledTaskSchedule_spares CreateTaskExecution_spares enqueue_spares : effects.
Lemma scheduleTask_spares task now : keeps (spares (t_id task)) (scheduleTask LoadLocation task now).
Proof.
  unfold scheduleTask, parsed, located, next_of, fireTask, recordSkip, enqueueTask, advanceTask,
    CountRunningTaskExecutions, next_of. keep.
Qed.

(** Whether an occurrence after the one of the window is in the past as well: the
    window was missed. *)
Definition lapsed (now : Z) (following : option Z) : bool :=
  match following with None => false | Some f => f <? now end.
Lemma missed_run_lapsed n now following :
  (∀ f, following = Some f → n < f) → missed_run n now following = lapsed now following.
Proof. intros H. destruct following as [f|]; [|done]. specialize (H f eq_refl). unfold missed_run, lapsed. lia. Qed.

(** Whether the occurrence of a task is run. *)
Definition fires (z : Sched) (t : Task) (following : option Z) : bool :=
  match t_next t with
  | None => false
  | Some n =>
      (n <=? z_now z) && negb (lapsed (z_now z) following && bool_decide (t_missed t = MissedSkip)) &&
      negb (bool_decide (t_overlap t = OverlapSkip) && (0 <? running z (t_id t)))
  end.
(** Whether its window is moved. *)
Definition window_moves (now : Z) (t : Task) : bool :=
  match t_next t with None => true | Some n => n <=? now end.

(** What a pass makes of a task. *)
Definition passed (z z' : Sched) (k : Z) (t : Task) (next following : option Z) : Prop :=
  z_tasks z' !! k =
    Some (if window_moves (z_now z) t
          then rescheduled next (if fires z t following then Some (z_now z) else None) t else t) ∧
  running z' k = running z k + (if fires z t following then 1 else 0).

Lemma running_queue z db w k : running (set_queue z db w) k = running z k.
Proof. done. Qed.
Lemma task_queue_known z opts w : o_queue opts = "task" → o_idempotency_key opts = None → o_payload_ok opts = true →
  ∃ j db, enqueue opts w [] z = (inr j, ([], set_queue z db (<[ job_id j := w ]> (z_work z)))).
Proof.
  intros Hq Hi Hp. unfold enqueue. rewrite run_stmt, Enqueue_unfold. cbv zeta. rewrite Hq, Hp. simpl.
  unfold EnqueueJob. simpl. rewrite Hi. eauto.
Qed.
Lemma advanceTask_run t s loc now fired next z :
  Next s now loc = Some next →
  advanceTask t s loc now fired [] z =
    (inr (), ([], set_tasks z (alter (rescheduled next (if fired then Some now else None)) (t_id t) (z_tasks z)))).
Proof. intros H. unfold advanceTask, next_of. by rewrite run_bind, H. Qed.

(** The end of a turn: the window is moved in a state that differs from the first
    by its executions and its queue. *)
Lemma moved_row z z1 t next last :
  z_tasks z !! t_id t = Some t → z_tasks z1 = z_tasks z →
  z_tasks (set_tasks z1 (alter (rescheduled next last) (t_id t) (z_tasks z1))) !! t_id t = Some (rescheduled next last t).
Proof. intros Ht E. simpl. by rewrite E, lookup_alter, decide_True, Ht. Qed.

Lemma recordSkip_run z t reason :
  ∃ z1, recordSkip t reason [] z = (inr (), ([], z1)) ∧ z_tasks z1 = z_tasks z ∧ (fresh z → running z1 (t_id t) = running z (t_id t)).
Proof.
  eexists. unfold recordSkip, CreateTaskExecution. split; [reflexivity|]. split; [done|]. intros Hf. simpl.
  rewrite running_create by done. rewrite (bool_decide_false (XSkipped = XRunning)), andb_false_r by done. lia.
Qed.
Lemma enqueueTask_run z t :
  ∃ x z1, enqueueTask t [] z = (inr x, ([], z1)) ∧ z_tasks z1 = z_tasks z ∧
    (fresh z → running z1 (t_id t) = running z (t_id t) + 1).
Proof.
  unfold enqueueTask, CreateTaskExecution. rewrite run_bind, run_stmt. simpl. rewrite run_bind.
  set (z1 := set_executions _ _ _).
  destruct (task_queue_known z1 (options "task" "scheduled_task.run" (task_lock t))
    (RunTask (t_id t) (z_execution_next z)) eq_refl eq_refl eq_refl) as (j & db & ->).
  do 2 eexists. split; [reflexivity|]. split; [done|]. intros Hf. rewrite running_queue. unfold z1.
  rewrite running_create by done. by rewrite !bool_decide_true.
Qed.

Lemma fireTask_run z t s loc next :
  fresh z → z_tasks z !! t_id t = Some t → Next s (z_now z) loc = Some next →
  let fire := negb (bool_decide (t_overlap t = OverlapSkip) && (0 <? running z (t_id t))) in
  ∃ z', fireTask t s loc (z_now z) [] z = (inr (), ([], z')) ∧
    z_tasks z' !! t_id t = Some (rescheduled next (if fire then Some (z_now z) else None) t) ∧
    running z' (t_id t) = running z (t_id t) + (if fire then 1 else 0).
Proof.
  intros Hf Ht Hn. cbv zeta. unfold fireTask. rewrite run_bind.
  assert ((if decide (t_overlap t = OverlapSkip)
    then n ← CountRunningTaskExecutions (t_id t); mret (0 <? n) else mret false) [] z =
    (inr (bool_decide (t_overlap t = OverlapSkip) && (0 <? running z (t_id t))), ([], z))) as ->.
  { case_decide; [rewrite bool_decide_true by done|rewrite bool_decide_false by done]; done. }
  destruct (bool_decide _ && _); simpl.
  - destruct (recordSkip_run z t overlap_reason) as (z1 & Hr & E1 & E2).
    rewrite run_bind, Hr, (advanceTask_run t s loc (z_now z) false next) by done.
    eexists. split; [reflexivity|]. split; [by eapply moved_row|]. rewrite <- (E2 Hf), Z.add_0_r. done.
  - destruct (enqueueTask_run z t) as (x & z1 & Hr & E1 & E2).
    rewrite run_bind, Hr, (advanceTask_run t s loc (z_now z) true next) by done.
    eexists. split; [reflexivity|]. split; [by eapply moved_row|]. rewrite <- (E2 Hf). done.
Qed.

Lemma scheduleTask_passed z t s loc next following :
  fresh z → z_tasks z !! t_id t = Some t → Parse (t_cron t) = inr s → LoadLocation (t_timezone t) = Some loc →
  Next s (z_now z) loc = Some next → (∀ n, t_next t = Some n → Next s n loc = Some following ∧ ∀ f, following = Some f → n < f) →
  ∃ z', scheduleTask LoadLocation t (z_now z) [] z = (inr (), ([], z')) ∧ passed z z' (t_id t) t next following.
Proof.
  intros Hf Ht Hp Hl Hn Hfo. unfold scheduleTask, parsed, located. rewrite Hp, Hl.
  rewrite run_bind. unfold mret at 1, M_ret at 1. rewrite run_bind. unfold mret at 1, M_ret at 1.
  unfold passed, fires, window_moves. destruct (t_next t) as [n|] eqn:Et.
  2:{ rewrite (advanceTask_run t s loc (z_now z) false next) by done. eexists. split; [reflexivity|].
      split; [by eapply moved_row|]. rewrite Z.add_0_r. done. }
  destruct (z_now z <? n) eqn:Elt.
  { exists z. split; [reflexivity|]. assert ((n <=? z_now z) = false) as -> by lia. simpl. split; [done|lia]. }
  assert ((n <=? z_now z) = true) as -> by lia. rewrite run_bind. unfold next_of.
  destruct (Hfo n eq_refl) as [Hnx Hlt]. rewrite Hnx.
  unfold mret at 1, M_ret at 1. simpl. rewrite missed_run_lapsed by done. destruct (lapsed _ _ && _); simpl.
  - destruct (recordSkip_run z t missed_reason) as (z1 & Hr & E1 & E2).
    rewrite run_bind, Hr, (advanceTask_run t s loc (z_now z) false next) by done.
    eexists. split; [reflexivity|]. split; [by eapply moved_row|]. rewrite <- (E2 Hf), Z.add_0_r. done.
  - by apply fireTask_run.
Qed.

(** With no failure a turn leaves no fate behind. *)
Lemma scheduleTask_calm t now : settles (scheduleTask LoadLocation t now).
Proof.
  unfold scheduleTask, parsed, located, next_of, fireTask, recordSkip, enqueueTask, advanceTask,
    CountRunningTaskExecutions, next_of, CreateTaskExecution, SetScheduledTaskSchedule, enqueue. settle.
Qed.
(** A task nobody else's turn touches, through a whole pass. *)
Lemma ids_distinct z seen t rest :
  (∀ i t, z_tasks z !! i = Some t → t_id t = i) →
  filter (λ t, t_listed t = true) (map_to_list (z_tasks z)).*2 = seen ++ t :: rest → t_id t ∉ t_id <$> seen.
Proof.
  intros Hk E. assert (NoDup (t_id <$> filter (λ t, t_listed t = true) (map_to_list (z_tasks z)).*2)) as Hn.
  { assert (NoDup (t_id <$> (map_to_list (z_tasks z)).*2)) as H.
    { assert (t_id <$> (map_to_list (z_tasks z)).*2 = (map_to_list (z_tasks z)).*1) as ->.
      { rewrite <- list_fmap_compose. apply list_fmap_ext. intros i [k t0] Hi. simpl. apply Hk.
        apply elem_of_map_to_list. by eapply list_elem_of_lookup_2. }
      apply NoDup_fst_map_to_list. }
    revert H. generalize ((map_to_list (z_tasks z)).*2). intros l.
    assert (sublist (t_id <$> filter (λ t, t_listed t = true) l) (t_id <$> l)) as Hs.
    { clear E. induction l as [|x l IH]; [done|]. simpl. rewrite filter_cons. case_decide; simpl; by constructor. }
    intros H. by eapply sublist_NoDup. }
  rewrite E, fmap_app in Hn. apply NoDup_app in Hn as (_ & Hd & _). intros Hin. apply (Hd _ Hin). by left.
Qed.

(** The task [k] before and after its turn. *)
Definition upto (z : Sched) (k : Z) (t : Task) (next following : option Z) (seen : list Task) (v : Sched) : Prop :=
  fresh v ∧ z_now v = z_now z ∧
  if decide (k ∈ t_id <$> seen) then passed z v k t next following
  else z_tasks v !! k = Some t ∧ running v k = running z k.

Lemma pass_turn z k t s loc next following seen x rest v :
  Inv z → z_tasks z !! k = Some t → Parse (t_cron t) = inr s → LoadLocation (t_timezone t) = Some loc →
  Next s (z_now z) loc = Some next → (∀ n, t_next t = Some n → Next s n loc = Some following ∧ ∀ f, following = Some f → n < f) →
  filter (λ t, t_listed t = true) (map_to_list (z_tasks z)).*2 = seen ++ x :: rest →
  upto z k t next following seen v →
  ∃ v', ignore (scheduleTask LoadLocation x (z_now z)) [] v = (inr (), ([], v')) ∧
        upto z k t next following (seen ++ [x]) v'.
Proof.
  intros Hz Hk Hp Hloc Hnext Hfo Hxs (Hfv & Hnow & Hv).
  pose proof (ids_distinct z seen x rest (i_tasks z Hz) Hxs) as Hnot.
  assert (∃ r v', scheduleTask LoadLocation x (z_now z) [] v = (r, ([], v'))) as (r & v' & Erun) by apply scheduleTask_calm.
  pose proof (scheduleTask_spares x (z_now z) v []) as Hsp. rewrite Erun in Hsp. destruct (Hsp Hfv) as [S1 S2 S3 S4].
  exists v'. split; [unfold ignore; by rewrite run_bind, run_attempt, Erun|].
  split_and!; [done|congruence|]. rewrite fmap_app. simpl. destruct (decide (t_id x = k)) as [E|E].
  - rewrite decide_True by (apply elem_of_app; right; rewrite E; by left).
    rewrite decide_False in Hv by (by rewrite <- E). destruct Hv as [Hrow Hrun].
    assert (x = t) as ->.
    { assert (x ∈ filter (λ t, t_listed t = true) (map_to_list (z_tasks z)).*2) as Hx
        by (rewrite Hxs; apply elem_of_app; right; by left).
      apply list_elem_of_filter in Hx as [_ ([i y] & -> & Hy)%list_elem_of_fmap]. apply elem_of_map_to_list in Hy.
      simpl in *. rewrite (i_tasks z Hz i y Hy) in E. congruence. }
    destruct (scheduleTask_passed v t s loc next following) as (v2 & E2 & Hpass); try done;
      [by rewrite E|by rewrite Hnow|].
    rewrite Hnow in E2. rewrite Erun in E2. injection E2 as -> ->.
    unfold passed, fires in Hpass |- *. rewrite E, Hnow, Hrun in Hpass. rewrite E. exact Hpass.
  - rewrite S3, S4 by done. destruct (decide (k ∈ t_id <$> seen)) as [Hin|Hin].
    + rewrite decide_True by (apply elem_of_app; by left). unfold passed in *. by rewrite S3, S4.
    + rewrite decide_False; [done|]. intros [?|?%list_elem_of_singleton]%elem_of_app; [done|congruence].
Qed.

(** C26: A pass over the scheduled tasks with no failed statement, for a task whose
    expression parses, in a zone of constant offset.  A window that is not due
    stays.  Otherwise it moves to the first matching minute strictly after now,
    and is only left in place when there is none for five years.  The task runs
    exactly when its window was set and due, was not missed (the occurrence after it
    gone by too) under a skip policy, and no execution of it is running under a skip policy: one execution then
    starts and the last run is now. *)
Theorem task_windows z k t s c :
  Inv z → z_tasks z !! k = Some t → t_listed t = true → Parse (t_cron t) = inr s →
  LoadLocation (t_timezone t) = Some (fixed_zone c) → c `mod` 60 = 0 →
  ∃ z' next following,
    eval (runDueScheduledTasks LoadLocation) z = (inr (), z') ∧
    Next s (z_now z) (fixed_zone c) = Some next ∧
    (∀ r, next = Some r → z_now z < r ∧ matches_at s (fixed_zone c) r = true ∧
       ∀ t', z_now z < t' < r → (minute | t') → matches_at s (fixed_zone c) t' = false) ∧
    (∀ n, t_next t = Some n → Next s n (fixed_zone c) = Some following ∧ ∀ f, following = Some f → n < f) ∧
    passed z z' k t next following.
Proof.
  intros Hz Hk Hl Hp Hloc Hc.
  destruct (Next_spec s c (z_now z) Hc) as (next & Hnext & Hr).
  assert (∃ following, ∀ n, t_next t = Some n →
    Next s n (fixed_zone c) = Some following ∧ ∀ f, following = Some f → n < f) as (following & Hfo).
  { destruct (t_next t) as [n|]; [|by exists None]. destruct (Next_spec s c n Hc) as (f & Hf & Hn).
    exists f. intros m [= <-]. split; [done|]. intros g ->. by destruct Hn as ((? & _) & _). }
  unfold eval, runDueScheduledTasks, ListSchedulableTasks. rewrite run_bind, run_attempt, run_query. simpl.
  rewrite run_bind. unfold look.
  destruct (each_done (upto z k t next following) (filter (λ t, t_listed t = true) (map_to_list (z_tasks z)).*2)
    (λ task, ignore (scheduleTask LoadLocation task (z_now z))) z) as (z' & Hz' & _ & _ & Hend).
  - intros seen x rest v Hxs Hv. by eapply pass_turn.
  - split_and!; [exact (i_executions z Hz)|done|]. rewrite decide_False by (simpl; by apply not_elem_of_nil). done.
  - exists z', next, following. rewrite Hz'. split_and!; [done..| |done|].
    + intros r ->. destruct Hr as ((? & _) & _ & ? & ?). done.
    + rewrite decide_True in Hend; [done|]. apply list_elem_of_fmap. exists t. split; [by rewrite (i_tasks z Hz k t Hk)|].
      apply list_elem_of_filter. split; [done|]. apply list_elem_of_fmap. exists (k, t). split; [done|].
      by apply elem_of_map_to_list.
Qed.
End Windows.

(** ** One occurrence *)

(** Closing an execution performs nothing. *)
Lemma finish_dispatched id st z :
  wp (ignore (FinishTaskExecution id st)) (λ r z', r = inr () ∧ z_dispatched z' = z_dispatched z) z.
Proof. apply wp_ignore, wp_exec; done. Qed.

Lemma wp_performed x (Q : err + () → Sched → Prop) z :
  Q (inr ()) (set_dispatched z (x :: z_dispatched z)) → wp (performed x) Q z.
Proof. intros H fs. exact H. Qed.

(** Whatever fails, an occurrence of a workflow task asks the forge for at
    most one dispatch, and once it has asked, its job ends without an error: the
    queue never has a reason to run it again. *)
Theorem workflow_dispatched_once task x c d t z fs :
  z_tasks z !! task = Some t → t_kind t = GithubWorkflow →
  let '(r, (_, z')) := ExecuteTask task x c d fs z in
  z_dispatched z' = z_dispatched z ∨ (z_dispatched z' = x :: z_dispatched z ∧ ∃ v, r = inr v).
Proof.
  intros Ht Hk. revert fs. change (wp (ExecuteTask task x c d)
    (λ r z', z_dispatched z' = z_dispatched z ∨ (z_dispatched z' = x :: z_dispatched z ∧ ∃ v, r = inr v)) z).
  unfold ExecuteTask. apply wp_bind, wp_query; [by left|]. rewrite Ht. apply wp_bind, wp_query; [by left|].
  rewrite decide_True by done. unfold dispatchWorkflow, close_failed.
  destruct d; apply wp_bind.
  - eapply wp_mono; [|apply finish_dispatched]. intros r z' [-> E]. apply wp_ret. by left.
  - apply wp_performed, wp_bind. eapply wp_mono; [|apply finish_dispatched].
    intros r z' [-> E]. apply wp_ret. right. split; [done|eauto].
  - apply wp_performed, wp_bind. eapply wp_mono; [|apply finish_dispatched].
    intros r z' [-> E]. apply wp_ret. right. split; [done|eauto].
Qed.

(** ** Executions *)

Definition zones (name : string) : option Location := if decide (name = "UTC") then Some UTC else None.
Definition sample_task (kind : TaskKind) (o : OverlapPolicy) (listed : bool) (next : Z) : Task :=
  mkTask 1 "t" kind "0 3 * * *" "UTC" listed o MissedRun (Some next) None.
Definition noon (d : Z) : Z := Date 2026 3 d 12 0 0 0 UTC.
Definition three (d : Z) : Z := Date 2026 3 d 3 0 0 0 UTC.
Definition one_task (now : Z) (t : Task) : Sched :=
  mkSched now (mkDB ∅ 1) ∅ {[ 1 := t ]} ∅ 1 ∅ ∅ ∅ [].
Definition at_time (now : Z) (z : Sched) : Sched :=
  mkSched now (z_queue z) (z_work z) (z_tasks z) (z_executions z) (z_execution_next z) (z_plans z) (z_servers z)
    (z_probes z) (z_dispatched z).
Definition tick (fs : list fate) (z : Sched) : Sched := snd (snd (runDueScheduledTasks zones fs z)).
(** The window, the running executions and the jobs of the task. *)
Definition seen_of (z : Sched) : option (option Z) * Z * Z :=
  (t_next <$> z_tasks z !! 1, running z 1, next_id (z_queue z) - 1).

Lemma one_task_inv now t : t_id t = 1 → Inv (one_task now t).
Proof.
  intros Ht. constructor; simpl.
  - intros i x [<- <-]%lookup_singleton_Some. done.
  - intros i x. by rewrite lookup_empty.
  - intros i x. by rewrite lookup_empty.
Qed.

Definition due_task : Sched := one_task (noon 10) (sample_task ContainerCommand OverlapSkip true (three 10)).

Lemma scheduler_never_overlaps_witness : running (tick [] due_task) 1 = 1 ∧ running (tick [] (tick [] due_task)) 1 <= 1.
Proof.
  split; [vm_compute; reflexivity|].
  refine (proj1 (scheduler_never_overlaps zones due_task _) 1 (tick [] (tick [] due_task)) _ _ _).
  - apply one_task_inv. reflexivity.
  - eexists. split; [vm_compute; reflexivity|reflexivity].
  - vm_compute. discriminate.
  - eapply rtc_l; [|apply rtc_once]; (split; [apply step_pass, pass_tasks|]);
      (eexists; split; [vm_compute; reflexivity|reflexivity]).
Defined.

(** Two requests that both count the running executions before either creates its
    own start two, whatever the policy. *)
Lemma interleaved_requests_overlap :
  fst (eval (CountRunningTaskExecutions 1) due_task) = inr 0 ∧
  running (snd (eval (_ ← enqueueTask (sample_task ContainerCommand OverlapSkip true (three 10));
                      enqueueTask (sample_task ContainerCommand OverlapSkip true (three 10))) due_task)) 1 = 2.
Proof. vm_compute. done. Qed.

Lemma task_windows_witness :
  ∃ z', eval (runDueScheduledTasks zones) due_task = (inr (), z') ∧ running z' 1 = 1 ∧
        t_next <$> z_tasks z' !! 1 = Some (Some (three 11)).
Proof.
  destruct (Parse "0 3 * * *") as [e|s] eqn:Hs; [vm_compute in Hs; discriminate|].
  destruct (task_windows zones due_task 1 (sample_task ContainerCommand OverlapSkip true (three 10)) s 0)
    as (z' & next & following & He & _).
  - apply one_task_inv. reflexivity.
  - reflexivity.
  - reflexivity.
  - exact Hs.
  - reflexivity.
  - reflexivity.
  - exists z'. split; [exact He|].
    assert (z' = snd (eval (runDueScheduledTasks zones) due_task)) as -> by (by rewrite He).
    split; vm_compute; reflexivity.
Defined.

Lemma workflow_dispatched_once_witness :
  let '(r, (_, z')) := ExecuteTask 1 7 AgentAbsent DispatchAccepted [Applied; Applied; Refused]
    (one_task 0 (sample_task GithubWorkflow OverlapSkip true 0)) in
  z_dispatched z' = [7] ∧ ∃ v, r = inr v.
Proof.
  pose proof (workflow_dispatched_once 1 7 AgentAbsent DispatchAccepted (sample_task GithubWorkflow OverlapSkip true 0)
    (one_task 0 (sample_task GithubWorkflow OverlapSkip true 0)) [Applied; Applied; Refused] eq_refl eq_refl) as H.
  destruct H as [H|H]; [vm_compute in H; discriminate|exact H].
Defined.

(** The execution is opened, the job is not queued: the execution stays running, and
    every later occurrence is skipped because of it. *)
Definition unqueued : Sched := tick [Applied; Applied; Applied; Refused] due_task.
Lemma failed_enqueue_starves_the_task :
  seen_of unqueued = (Some (Some (three 10)), 1, 0) ∧
  seen_of (tick [] unqueued) = (Some (Some (three 11)), 1, 0) ∧
  seen_of (tick [] (at_time (noon 11) (tick [] unqueued))) = (Some (Some (three 12)), 1, 0) ∧
  seen_of (tick [] (at_time (noon 12) (tick [] (at_time (noon 11) (tick [] unqueued))))) = (Some (Some (three 13)), 1, 0).
Proof. vm_compute. done. Qed.

(** The job is queued, the window is not moved: with a queueing policy the same
    occurrence is run again. *)
Definition unmoved : Sched :=
  tick [Applied; Applied; Applied; Refused]
    (one_task (noon 10) (sample_task ContainerCommand OverlapQueue true (three 10))).
Lemma unmoved_window_fires_again :
  seen_of unmoved = (Some (Some (three 10)), 1, 1) ∧ seen_of (tick [] unmoved) = (Some (Some (three 11)), 2, 2).
Proof. vm_compute. done. Qed.

(** A task that is enabled again keeps the window it had: it runs at once. *)
Lemma enabled_again_fires_at_once :
  seen_of (tick [] (snd (eval (UpdateScheduledTask 1 (mkTaskEdit None None (Some true) None None))
    (one_task (noon 10) (sample_task ContainerCommand OverlapSkip false (three 2)))))) = (Some (Some (three 11)), 1, 1).
Proof. vm_compute. done. Qed.

(** A command that ran is run again when its result cannot be written. *)
Definition ran_once : (err + string) * Sched :=
  let '(r, (_, z)) := ExecuteTask 1 7 (Exited 0) NotDispatched [Applied; Applied; Applied; Applied; Refused] due_task in (r, z).
Lemma lost_result_repeats_the_command :
  fst ran_once = inl Broken ∧ z_dispatched (snd ran_once) = [7] ∧
  z_dispatched (snd (eval (ExecuteTask 1 7 (Exited 0) NotDispatched) (snd ran_once))) = [7; 7].
Proof. vm_compute. done. Qed.

(** A leap-day task in 2096 finds no occurrence within five years: its window stays
    where it is and every pass runs it. *)
Definition leap_task : Task :=
  mkTask 1 "t" ContainerCommand "0 3 29 2 *" "UTC" true OverlapQueue MissedRun (Some (Date 2096 2 29 3 0 0 0 UTC)) None.
Definition leap_day : Sched := one_task (Date 2096 2 29 3 0 0 0 UTC) leap_task.
Lemma no_occurrence_fires_every_pass :
  seen_of (tick [] leap_day) = (Some (t_next leap_task), 1, 1) ∧
  seen_of (tick [] (tick [] leap_day)) = (Some (t_next leap_task), 2, 2).
Proof. vm_compute. done. Qed.
