(* ===== verification/Json.v ===== *)
(** * Decoded JSON

    The values of a JSON document and what [encoding/json] does when it stores
    one into the structs the webhook payloads are read with: keys matched up to
    letter case, absent and null members leave the zero value, unknown members
    are skipped, a member of the wrong kind or an integer out of range is an
    error of the whole document. *)
From S2P Require Import Prelude GoLib.
Local Open Scope Z_scope.

(** A number is an integer literal or another number, of which nothing is kept. *)
Inductive json :=
| JNull | JBool (b : bool) | JInt (z : Z) | JNumber | JStr (s : string)
| JArr (l : list json) | JObj (m : list (string * json)).

(** The folding of names: ASCII letters, and U+017F and U+212A, which fold to
    [S] and [K]; other characters never fold to ASCII and are left alone. *)
Fixpoint foldName (s : string) : string :=
  match s with
  | EmptyString => EmptyString
  | String a s1 =>
      match s1 with
      | String b s2 =>
          if (byte_val a =? 197) && (byte_val b =? 191) then String "S" (foldName s2)
          else match s2 with
               | String c s3 =>
                   if (byte_val a =? 226) && (byte_val b =? 132) && (byte_val c =? 170)
                   then String "K" (foldName s3)
                   else String (upper_byte a) (foldName s1)
               | EmptyString => String (upper_byte a) (foldName s1)
               end
      | EmptyString => String (upper_byte a) EmptyString
      end
  end.

(** The member a field is decoded from: the last one whose key matches. *)
Definition field (name : string) (m : list (string * json)) : option json :=
  foldl (λ acc kv, if bool_decide (foldName kv.1 = foldName name) then Some kv.2 else acc) None m.

(** ** Decoding into a field *)

(** A struct. *)
Definition as_struct (v : json) : option (list (string * json)) :=
  match v with JNull => Some [] | JObj m => Some m | _ => None end.

(** A [string]. *)
Definition as_string (v : json) : option string :=
  match v with JNull => Some "" | JStr s => Some s | _ => None end.

(** An [int] or [int64]. *)
Definition as_int64 (v : json) : option Z :=
  match v with
  | JNull => Some 0
  | JInt z => if (int64_min <=? z) && (z <=? int64_max) then Some z else None
  | _ => None
  end.

Definition as_bool (v : json) : option bool :=
  match v with JNull => Some false | JBool b => Some b | _ => None end.

(** A pointer to an empty struct: whether it is set. *)
Definition as_marker (v : json) : option bool :=
  match v with JNull => Some false | JObj _ => Some true | _ => None end.

(** A slice. *)
Definition as_slice {A} (elem : json → option A) (v : json) : option (list A) :=
  match v with JNull => Some [] | JArr l => mapM elem l | _ => None end.

Definition get {A} (m : list (string * json)) (name : string) (decode : json → option A) : option A :=
  decode (default JNull (field name m)).
