(* ===== verification/GitWebhook.v ===== *)
(** * The webhook protocols of the Git forges

    Models [internal/gitwebhook]: how a delivery is named and authenticated
    ([gitwebhook.go]) and how the payloads of the three forges are brought to
    one shape ([payload.go], [pullrequest.go]).  Signatures are computed with
    the executable HMAC-SHA256 of [Crypto]; payloads are decoded values
    ([Json]). *)
From stdpp Require Import pretty.
From S2P Require Import Prelude GoLib Crypto Json.
Local Open Scope Z_scope.

(** ** Deliveries *)

Definition MaxBodyBytes : Z := Z.shiftl 2 20.

(** [Provider]: any string; the three constants are the supported ones. *)
Definition Provider : Type := string.
Definition GitHub : Provider := "github".
Definition GitLab : Provider := "gitlab".
Definition Gitea : Provider := "gitea".

(** [Supported] *)
Definition Supported (p : string) : bool := bool_decide (p ∈ [GitHub; GitLab; Gitea]).

(** [http.Header]: names are compared up to ASCII case, [Get] answers the first
    value or the empty string. *)
Definition Header : Type := list (string * string).
Definition Get (h : Header) (name : string) : string :=
  match list_find (λ kv, to_lower kv.1 = to_lower name) h with
  | Some (_, (_, v)) => v
  | None => ""
  end.

(** [DeliveryID] *)
Definition DeliveryID (p : Provider) (h : Header) : string :=
  if decide (p = GitHub) then Get h "X-GitHub-Delivery"
  else if decide (p = GitLab) then Get h "X-Gitlab-Event-UUID"
  else if decide (p = Gitea) then Get h "X-Gitea-Delivery"
  else "".

(** [EventType] *)
Definition EventType (p : Provider) (h : Header) : string :=
  if decide (p = GitHub) then Get h "X-GitHub-Event"
  else if decide (p = GitLab) then Get h "X-Gitlab-Event"
  else if decide (p = Gitea) then
    let e := Get h "X-Gitea-Event" in
    if decide (e ≠ "") then e else Get h "X-GitHub-Event"
  else "".

(** [strings.CutPrefix] *)
Definition CutPrefix (s prefix : string) : string * bool :=
  match cut_prefix prefix s with Some t => (t, true) | None => (s, false) end.

(** [verifyHMAC]: whether the error is nil — every refusal has the same text. *)
Definition verifyHMAC (header prefix body secret : string) : bool :=
  if decide (header = "") then false
  else
    let '(got, ok) := CutPrefix header prefix in
    if negb ok && bool_decide (prefix ≠ "") then false
    else match DecodeString (trim_space got) with
         | None => false
         | Some raw => bool_decide (raw = hmac_sha256 (bytes_of secret) (bytes_of body))
         end.

(** [VerifySignature]: whether the error is nil. *)
Definition VerifySignature (p : Provider) (h : Header) (body secret : string) : bool :=
  if decide (p = GitHub) then verifyHMAC (Get h "X-Hub-Signature-256") "sha256=" body secret
  else if decide (p = Gitea) then
    let sig := Get h "X-Gitea-Signature" in
    let sig := if decide (sig = "") then Get h "X-Forgejo-Signature" else sig in
    if decide (sig = "") then verifyHMAC (Get h "X-Hub-Signature-256") "sha256=" body secret
    else verifyHMAC sig "" body secret
  else if decide (p = GitLab) then
    let token := Get h "X-Gitlab-Token" in
    negb (bool_decide (token = "") || negb (bool_decide (token = secret)))
  else false.

(** [Sign] *)
Definition Sign (body secret : string) : string :=
  EncodeToString (hmac_sha256 (bytes_of secret) (bytes_of body)).

(** ** Pushes *)

(** [Push] *)
Record Push := mkPush { Ref : string; Commit : string; Files : list string; Message : string }.

(** [strings.TrimPrefix] *)
Definition TrimPrefix (s p : string) : string := default s (cut_prefix p s).

(** [Push.Branch] *)
Definition Branch (p : Push) : string := TrimPrefix (Ref p) "refs/heads/".

(** [Push.Deleted]: [strings.Trim(…, "0") == ""] is a string of zeroes. *)
Definition Deleted (p : Push) : bool :=
  bool_decide (Commit p = "") ||
  forallb (λ c, bool_decide (c = "0"%char)) (String.list_ascii_of_string (Commit p)).

(** [Push.SkipRequested] *)
Definition skip_markers : list string := ["[skip ci]"; "[ci skip]"; "[skip cd]"; "[cd skip]"].
Definition SkipRequested (p : Push) : bool :=
  existsb (λ marker, contains_sub marker (ToLower (Message p))) skip_markers.

(** The three lists of a commit, in the order they are appended. *)
Definition commit_files (m : list (string * json)) : option (list string) :=
  added ← get m "added" (as_slice as_string);
  removed ← get m "removed" (as_slice as_string);
  modified ← get m "modified" (as_slice as_string);
  Some (added ++ removed ++ modified).

(** [ParsePush]; [None] is the error. *)
Definition ParsePush (p : Provider) (body : json) : option Push :=
  if decide (p = GitHub ∨ p = Gitea) then
    raw ← as_struct body;
    ref ← get raw "ref" as_string;
    after ← get raw "after" as_string;
    head ← get raw "head_commit" as_struct;
    message ← get head "message" as_string;
    commits ← get raw "commits" (as_slice (λ c, as_struct c ≫= commit_files));
    Some (mkPush ref after (mjoin commits) message)
  else if decide (p = GitLab) then
    raw ← as_struct body;
    ref ← get raw "ref" as_string;
    after ← get raw "after" as_string;
    checkout_sha ← get raw "checkout_sha" as_string;
    commits ← get raw "commits" (as_slice (λ c,
      m ← as_struct c; message ← get m "message" as_string;
      files ← commit_files m; Some (message, files)));
    Some (mkPush ref (if decide (after = "") then checkout_sha else after)
            (mjoin (snd <$> commits))
            (match last commits with Some (message, _) => message | None => "" end))
  else None.

(** ** Pull requests *)

(** [PullRequestEvent] *)
Record PullRequestEvent := mkPR {
  Action : string; Number : Z; HeadRef : string; HeadSHA : string;
  Draft : bool; Merged : bool; IsFork : bool; Labels : list string; RepoReference : string
}.

(** [PullRequestEvent.HasLabel] *)
Definition HasLabel (e : PullRequestEvent) (label : string) : bool := bool_decide (label ∈ Labels e).

(** The GitLab vocabulary of actions, brought to the GitHub one. *)
Definition gitlab_action (action oldrev : string) (labels_changed : bool) : string * bool :=
  if decide (action = "open") then ("opened", false)
  else if decide (action = "reopen") then ("reopened", false)
  else if decide (action = "close") then ("closed", false)
  else if decide (action = "merge") then ("closed", true)
  else if decide (action = "update") then
    ((if decide (oldrev ≠ "") then "synchronize"
      else if labels_changed then "labeled" else "ignored"), false)
  else ("ignored", false).

(** [strconv.FormatInt(_, 10)] *)
Definition FormatInt (z : Z) : string := pretty z.

(** [ParsePullRequest], the GitHub shape ([githubPREvent]). *)
Definition ParsePullRequest_github (body : json) : option PullRequestEvent :=
  raw ← as_struct body;
  action ← get raw "action" as_string;
  number ← get raw "number" as_int64;
  pr ← get raw "pull_request" as_struct;
  pr_number ← get pr "number" as_int64;
  draft ← get pr "draft" as_bool;
  merged ← get pr "merged" as_bool;
  title ← get pr "title" as_string;
  labels ← get pr "labels" (as_slice (λ l, m ← as_struct l; get m "name" as_string));
  head ← get pr "head" as_struct;
  ref ← get head "ref" as_string;
  sha ← get head "sha" as_string;
  head_repo ← get head "repo" as_struct;
  head_id ← get head_repo "id" as_int64;
  base ← get pr "base" as_struct;
  base_repo ← get base "repo" as_struct;
  base_id ← get base_repo "id" as_int64;
  base_name ← get base_repo "full_name" as_string;
  repository ← get raw "repository" as_struct;
  full_name ← get repository "full_name" as_string;
  Some (mkPR
    (if decide (action = "synchronized") then "synchronize" else action)
    (if decide (number = 0) then pr_number else number)
    ref sha
    (draft || has_prefix title "WIP:" || has_prefix title "Draft:")
    merged
    (negb (head_id =? 0) && negb (head_id =? base_id))
    labels
    (if decide (base_name = "") then full_name else base_name)).

(** [ParsePullRequest], the GitLab shape. *)
Definition ParsePullRequest_gitlab (body : json) : option PullRequestEvent :=
  raw ← as_struct body;
  kind ← get raw "object_kind" as_string;
  project ← get raw "project" as_struct;
  project_id ← get project "id" as_int64;
  oa ← get raw "object_attributes" as_struct;
  iid ← get oa "iid" as_int64;
  action ← get oa "action" as_string;
  oldrev ← get oa "oldrev" as_string;
  source_branch ← get oa "source_branch" as_string;
  source_project ← get oa "source_project_id" as_int64;
  target_project ← get oa "target_project_id" as_int64;
  wip ← get oa "work_in_progress" as_bool;
  draft ← get oa "draft" as_bool;
  last_commit ← get oa "last_commit" as_struct;
  sha ← get last_commit "id" as_string;
  labels ← get raw "labels" (as_slice (λ l, m ← as_struct l; get m "title" as_string));
  changes ← get raw "changes" as_struct;
  labels_changed ← get changes "labels" as_marker;
  if decide (kind ≠ "merge_request") then None
  else
    let '(normalized, merged) := gitlab_action action oldrev labels_changed in
    Some (mkPR normalized iid source_branch sha (draft || wip) merged
            (negb (source_project =? 0) && negb (source_project =? target_project))
            labels (FormatInt project_id)).

(** [ParsePullRequest] *)
Definition ParsePullRequest (p : Provider) (body : json) : option PullRequestEvent :=
  if decide (p = GitHub ∨ p = Gitea) then ParsePullRequest_github body
  else if decide (p = GitLab) then ParsePullRequest_gitlab body
  else None.

(** ** Comments *)

(** [CommentEvent] *)
Record CommentEvent := mkComment {
  c_Number : Z; c_Body : string; AuthorUsername : string; AuthorID : Z;
  c_RepoReference : string; OnPullRequest : bool
}.

Definition line_break (c : ascii) : bool := (byte_val c =? 13) || (byte_val c =? 10).

(** The text up to [strings.IndexAny(first, "\r\n")]. *)
Fixpoint first_line (s : string) : string :=
  match s with
  | EmptyString => EmptyString
  | String c s' => if line_break c then EmptyString else String c (first_line s')
  end.

(** [CommentEvent.Command] *)
Definition Command (e : CommentEvent) : string :=
  let first := trim_space (first_line (c_Body e)) in
  if decide (first = "/deploy") then "deploy"
  else if decide (first = "/destroy") then "destroy"
  else if decide (first = "/rebuild") then "rebuild"
  else if decide (first = "/keep") then "keep"
  else "".

(** [ParseComment], the GitHub shape. *)
Definition ParseComment_github (body : json) : option CommentEvent :=
  raw ← as_struct body;
  action ← get raw "action" as_string;
  issue ← get raw "issue" as_struct;
  number ← get issue "number" as_int64;
  on_pr ← get issue "pull_request" as_marker;
  comment ← get raw "comment" as_struct;
  text ← get comment "body" as_string;
  user ← get comment "user" as_struct;
  id ← get user "id" as_int64;
  login ← get user "login" as_string;
  repository ← get raw "repository" as_struct;
  full_name ← get repository "full_name" as_string;
  Some (mkComment number text login id full_name (bool_decide (action = "created") && on_pr)).

(** [ParseComment], the GitLab shape. *)
Definition ParseComment_gitlab (body : json) : option CommentEvent :=
  raw ← as_struct body;
  kind ← get raw "object_kind" as_string;
  user ← get raw "user" as_struct;
  id ← get user "id" as_int64;
  username ← get user "username" as_string;
  project ← get raw "project" as_struct;
  project_id ← get project "id" as_int64;
  oa ← get raw "object_attributes" as_struct;
  note ← get oa "note" as_string;
  noteable ← get oa "notable_type" as_string;
  mr ← get raw "merge_request" as_struct;
  iid ← get mr "iid" as_int64;
  if decide (kind ≠ "note") then None
  else Some (mkComment iid note username id (FormatInt project_id) (bool_decide (noteable = "MergeRequest"))).

(** [ParseComment] *)
Definition ParseComment (p : Provider) (body : json) : option CommentEvent :=
  if decide (p = GitHub ∨ p = Gitea) then ParseComment_github body
  else if decide (p = GitLab) then ParseComment_gitlab body
  else None.

(** [IsPullRequestEvent], [IsCommentEvent] *)
Definition IsPullRequestEvent (p : Provider) (eventType : string) : bool :=
  if decide (p = GitHub ∨ p = Gitea) then bool_decide (eventType = "pull_request")
  else if decide (p = GitLab) then bool_decide (eventType = "Merge Request Hook")
  else false.
Definition IsCommentEvent (p : Provider) (eventType : string) : bool :=
  if decide (p = GitHub ∨ p = Gitea) then bool_decide (eventType = "issue_comment")
  else if decide (p = GitLab) then bool_decide (eventType = "Note Hook")
  else false.

(** ** Signatures *)

Lemma verifyHMAC_spec header prefix body secret :
  verifyHMAC header prefix body secret = true ↔
  ∃ got, header = prefix +:+ got ∧ header ≠ "" ∧
         DecodeString (trim_space got) = Some (hmac_sha256 (bytes_of secret) (bytes_of body)).
Proof.
  unfold verifyHMAC, CutPrefix. destruct (decide (header = "")) as [->|Hne]; [naive_solver|].
  destruct (cut_prefix prefix header) as [got|] eqn:Hc.
  - apply cut_prefix_Some in Hc as Hh. simpl.
    destruct (DecodeString (trim_space got)) as [raw|] eqn:Hd.
    + rewrite bool_decide_eq_true. split.
      * intros ->. eauto.
      * intros (got' & Hg & _ & Hd'). assert (cut_prefix prefix header = Some got') as Hc' by by apply cut_prefix_Some.
        rewrite Hc in Hc'. congruence.
    + split; [done|]. intros (got' & Hg & _ & Hd').
      assert (cut_prefix prefix header = Some got') as Hc' by by apply cut_prefix_Some.
      rewrite Hc in Hc'. congruence.
  - simpl. destruct (decide (prefix = "")) as [->|Hp]; [by destruct header|].
    rewrite bool_decide_true by done. split; [done|]. intros (got & Hg & _).
    by rewrite (proj2 (cut_prefix_Some _ _ _) Hg) in Hc.
Qed.

(** The signature a provider's request carries: the header it is read from and
    the prefix it must have there. *)
Definition signature_of (p : Provider) (h : Header) : string * string :=
  if decide (p = Gitea) then
    if decide (Get h "X-Gitea-Signature" ≠ "") then (Get h "X-Gitea-Signature", "")
    else if decide (Get h "X-Forgejo-Signature" ≠ "") then (Get h "X-Forgejo-Signature", "")
    else (Get h "X-Hub-Signature-256", "sha256=")
  else (Get h "X-Hub-Signature-256", "sha256=").

Lemma VerifySignature_hmac p h body secret :
  p = GitHub ∨ p = Gitea →
  VerifySignature p h body secret =
  verifyHMAC (signature_of p h).1 (signature_of p h).2 body secret.
Proof.
  unfold VerifySignature, signature_of. intros [->| ->]; [done|]. simpl.
  repeat case_decide; done.
Qed.

(** A delivery is authenticated exactly when it proves knowledge of the
    endpoint's secret: from GitHub and Gitea, when the first signature header
    present carries — after its prefix, white space trimmed, in either case of
    hexadecimal — the HMAC-SHA256 of the very bytes received; from GitLab, when
    the token is the secret and is not empty; from nobody else. *)
Theorem VerifySignature_exact p h body secret :
  VerifySignature p h body secret = true ↔
  ((p = GitHub ∨ p = Gitea) ∧
   ∃ digest, (signature_of p h).1 = (signature_of p h).2 +:+ digest ∧ (signature_of p h).1 ≠ "" ∧
     DecodeString (trim_space digest) = Some (hmac_sha256 (bytes_of secret) (bytes_of body))) ∨
  (p = GitLab ∧ secret ≠ "" ∧ Get h "X-Gitlab-Token" = secret).
Proof.
  destruct (decide (p = GitHub ∨ p = Gitea)) as [Hp|Hp].
  - rewrite VerifySignature_hmac by done. rewrite verifyHMAC_spec.
    split; [by left|]. intros [[_ H]|[-> _]]; [done|]. by destruct Hp.
  - unfold VerifySignature. rewrite !decide_False by tauto. case_decide as Hl.
    + rewrite negb_true_iff, orb_false_iff, negb_false_iff, bool_decide_eq_false, bool_decide_eq_true.
      split; [intros [H1 H2]; right; by subst|]. intros [[? _]|(_ & H1 & H2)]; [done|]. by subst.
    + split; [done|]. intros [[? _]|[? _]]; done.
Qed.

Lemma Sign_verifies body secret prefix :
  verifyHMAC (prefix +:+ Sign body secret) prefix body secret = true.
Proof.
  apply verifyHMAC_spec. exists (Sign body secret). unfold Sign.
  rewrite EncodeToString_plain, DecodeString_Encode by apply hmac_sha256_bytes.
  split_and!; [done| |done]. intros He. apply (f_equal String.length) in He. revert He.
  rewrite append_length, EncodeToString_length. unfold hmac_sha256. rewrite sha256_length. simpl. lia.
Qed.

(** The headers a forge sends with a body it signed. *)
Definition signed_headers (p : Provider) (body secret : string) : list Header :=
  if decide (p = GitHub) then [[("X-Hub-Signature-256", "sha256=" +:+ Sign body secret)]]
  else if decide (p = Gitea) then
    [[("X-Gitea-Signature", Sign body secret)]; [("X-Forgejo-Signature", Sign body secret)];
     [("X-Hub-Signature-256", "sha256=" +:+ Sign body secret)]]
  else if decide (p = GitLab) then [[("X-Gitlab-Token", secret)]]
  else [].

(** What a forge signs, the receiver accepts: for each header a provider
    puts its signature in, the signature of a body under a secret verifies for
    that body and that secret — a GitLab secret must only be non-empty. *)
Theorem Sign_Verify_roundtrip p body secret h :
  h ∈ signed_headers p body secret → (p = GitLab → secret ≠ "") →
  VerifySignature p h body secret = true.
Proof.
  unfold signed_headers. intros Hh Hs.
  assert (Sign body secret ≠ "") as Hne.
  { intros He. pose proof (Sign_verifies body secret "") as H. by rewrite He in H. }
  pose proof (Sign_verifies body secret "") as H0. pose proof (Sign_verifies body secret "sha256=") as H1.
  repeat case_decide; subst; simplify_eq; set_unfold; destruct_or?; subst; try done;
    unfold VerifySignature, Get; cbn -[Sign verifyHMAC]; repeat case_decide; try done.
  all: by rewrite bool_decide_false, bool_decide_true by auto.
Qed.

(** The example of GitHub's documentation. *)
Definition documented_delivery : Header :=
  [("Content-Type", "application/json");
   ("x-hub-signature-256", "sha256=757107ea0eb2509fc211221cce984b8a37570b6d7586c22c46f4379c8b043e17")].

Lemma Sign_Verify_roundtrip_witness :
  VerifySignature GitHub documented_delivery "Hello, World!" "It's a Secret to Everybody" = true ∧
  VerifySignature GitHub documented_delivery "Hello, World?" "It's a Secret to Everybody" = false ∧
  VerifySignature Gitea [("X-Forgejo-Signature", Sign "body" "s")] "body" "s" = true.
Proof.
  split; [vm_compute; reflexivity|]. split; [vm_compute; reflexivity|].
  apply Sign_Verify_roundtrip; [set_solver|done].
Defined.

(** ** The forges agree *)

(** A change of a pull request, whichever forge hosts it: what it is about and
    what happened. *)
Record pull_request := mkPull {
  pull_number : Z; pull_branch : string; pull_sha : string; pull_draft : bool;
  pull_source : Z; pull_target : Z; pull_labels : list string; pull_repo : string
}.
Inductive change := Opened | Reopened | Closed | MergedIn | Pushed (before : string) | Labeled.

(** The documented payloads: a name per forge, the same facts. *)
Definition github_words (synchronize : string) (c : change) : string * bool :=
  match c with
  | Opened => ("opened", false) | Reopened => ("reopened", false)
  | Closed => ("closed", false) | MergedIn => ("closed", true)
  | Pushed _ => (synchronize, false) | Labeled => ("labeled", false)
  end.
Definition github_payload (synchronize : string) (pr : pull_request) (c : change) : json :=
  let '(action, merged) := github_words synchronize c in
  JObj [("action", JStr action); ("number", JInt (pull_number pr));
        ("pull_request", JObj
          [("number", JInt (pull_number pr)); ("draft", JBool (pull_draft pr)); ("merged", JBool merged);
           ("title", JStr "a change"); ("labels", JArr ((λ l, JObj [("name", JStr l)]) <$> pull_labels pr));
           ("head", JObj [("ref", JStr (pull_branch pr)); ("sha", JStr (pull_sha pr));
                          ("repo", JObj [("id", JInt (pull_source pr))])]);
           ("base", JObj [("repo", JObj [("id", JInt (pull_target pr)); ("full_name", JStr (pull_repo pr))])])]);
        ("repository", JObj [("full_name", JStr (pull_repo pr))])].
Definition gitlab_words (c : change) : string * string :=
  match c with
  | Opened => ("open", "") | Reopened => ("reopen", "") | Closed => ("close", "") | MergedIn => ("merge", "")
  | Pushed before => ("update", before) | Labeled => ("update", "")
  end.
Definition gitlab_payload (pr : pull_request) (c : change) : json :=
  let '(action, oldrev) := gitlab_words c in
  JObj [("object_kind", JStr "merge_request"); ("project", JObj [("id", JInt (pull_target pr))]);
        ("object_attributes", JObj
          [("iid", JInt (pull_number pr)); ("action", JStr action); ("oldrev", JStr oldrev);
           ("source_branch", JStr (pull_branch pr)); ("source_project_id", JInt (pull_source pr));
           ("target_project_id", JInt (pull_target pr)); ("draft", JBool (pull_draft pr));
           ("last_commit", JObj [("id", JStr (pull_sha pr))])]);
        ("labels", JArr ((λ l, JObj [("title", JStr l)]) <$> pull_labels pr));
        ("changes", match c with Labeled => JObj [("labels", JObj [])] | _ => JObj [] end)].

(** The event both stand for. *)
Definition event_of (repo : string) (pr : pull_request) (c : change) : PullRequestEvent :=
  let '(action, merged) := github_words "synchronize" c in
  mkPR action (pull_number pr) (pull_branch pr) (pull_sha pr) (pull_draft pr) merged
    (bool_decide (pull_source pr ≠ pull_target pr)) (pull_labels pr) repo.

Definition pull_ok (pr : pull_request) : Prop :=
  in_int64 (pull_number pr) ∧ pull_number pr ≠ 0 ∧ in_int64 (pull_source pr) ∧ pull_source pr ≠ 0 ∧
  in_int64 (pull_target pr) ∧ pull_repo pr ≠ "".

Lemma as_int64_ok z : in_int64 z → as_int64 (JInt z) = Some z.
Proof. unfold as_int64, in_int64. intros [H1 H2]. by rewrite !(proj2 (Z.leb_le _ _)). Qed.

Lemma labels_decoded key labels :
  mapM (λ l, m ← as_struct l; get m key as_string) ((λ l, JObj [(key, JStr l)]) <$> labels) = Some labels.
Proof.
  apply mapM_fmap_Some. intros l. cbn. unfold get, field. cbn. by rewrite bool_decide_true.
Qed.

Lemma fork_test s t : s ≠ 0 → negb (s =? 0) && negb (s =? t) = bool_decide (s ≠ t).
Proof. intros Hs. destruct (Z.eqb_spec s 0), (Z.eqb_spec s t); case_bool_decide; done. Qed.

(** Reading the members out of a literal payload, one after the other. *)
Lemma decode_member {A B} m name (decode : json → option A) v x (k : A → option B) r :
  field name m = v → decode (default JNull v) = Some x → k x = r → get m name decode ≫= k = r.
Proof. unfold get. intros <- Hx <-. by rewrite Hx. Qed.

Ltac decode_one :=
  match goal with
  | |- get ?m ?name ?d ≫= ?k = _ =>
      let v := eval lazy in (field name m) in
      eapply (decode_member m name d v _ k);
      [reflexivity
      |first [reflexivity|apply as_int64_ok; assumption|apply labels_decoded]
      |cbv beta]
  end.

(** The three forges are brought to one vocabulary: the same change of the
    same pull request, in the payload GitHub, Gitea (which says "synchronized")
    or GitLab documents for it, is one and the same event — same action, commit,
    labels, draft and fork flags — up to the handle of the repository, a name for
    the first two and the project id for GitLab. *)
Theorem ParsePullRequest_forges_agree pr c :
  pull_ok pr → (∀ before, c = Pushed before → before ≠ "") →
  ParsePullRequest GitHub (github_payload "synchronize" pr c) = Some (event_of (pull_repo pr) pr c) ∧
  ParsePullRequest Gitea (github_payload "synchronized" pr c) = Some (event_of (pull_repo pr) pr c) ∧
  ParsePullRequest GitLab (gitlab_payload pr c) = Some (event_of (FormatInt (pull_target pr)) pr c).
Proof.
  intros (Hn & Hn0 & Hs & Hs0 & Ht & Hr) Hc.
  assert (∀ sync, sync = "synchronize" ∨ sync = "synchronized" →
    ParsePullRequest_github (github_payload sync pr c) = Some (event_of (pull_repo pr) pr c)) as Hg.
  { intros sync Hsync. unfold github_payload, ParsePullRequest_github, event_of.
    destruct (github_words sync c) as [action merged] eqn:Ew.
    cbn [as_struct mbind option_bind].
    repeat decode_one. rewrite (decide_False (P := _ = 0)), (decide_False (P := _ = "")) by done.
    rewrite fork_test by done. change (has_prefix "a change" "WIP:") with false.
    change (has_prefix "a change" "Draft:") with false. rewrite !orb_false_r.
    by destruct c, Hsync as [->| ->]; injection Ew as <- <-. }
  split_and!; [apply Hg; by left|apply Hg; by right|].
  unfold ParsePullRequest. simpl decide. rewrite decide_False by (by intros [|]).
  rewrite decide_True by done. unfold gitlab_payload, ParsePullRequest_gitlab, event_of.
  destruct c; cbn [gitlab_words github_words as_struct mbind option_bind]; repeat decode_one;
    rewrite decide_False by (by intros H; apply H); rewrite fork_test, ?orb_false_r by done.
  all: unfold gitlab_action; simpl; try done.
  rewrite decide_True by (by eapply Hc). done.
Qed.

Definition sample_pull : pull_request := mkPull 7 "feature" "c0ffee" false 12 10 ["preview"] "acme/app".

Lemma ParsePullRequest_forges_agree_witness :
  ParsePullRequest GitLab (gitlab_payload sample_pull (Pushed "beef")) =
    Some (mkPR "synchronize" 7 "feature" "c0ffee" false false true ["preview"] "10").
Proof.
  refine (proj2 (proj2 (ParsePullRequest_forges_agree sample_pull (Pushed "beef") _ _))).
  - unfold pull_ok, in_int64, int64_min, int64_max. simpl. repeat split; done || lia.
  - intros before [= <-]. discriminate.
Defined.

(** ** Executed observations *)

(** A pull request whose fork was deleted: GitHub sends a null head repository,
    and the event does not count as coming from a fork. *)
Definition deleted_fork_payload : json :=
  JObj [("action", JStr "reopened"); ("number", JInt 7);
        ("pull_request", JObj
          [("head", JObj [("ref", JStr "feature"); ("sha", JStr "c0ffee"); ("repo", JNull)]);
           ("base", JObj [("repo", JObj [("id", JInt 10); ("full_name", JStr "acme/app")])])])].

Lemma deleted_fork_is_no_fork :
  IsFork <$> ParsePullRequest GitHub deleted_fork_payload = Some false.
Proof. vm_compute. reflexivity. Qed.

(** The note payload GitLab documents spells the member [noteable_type]. *)
Definition gitlab_note (member : string) : json :=
  JObj [("object_kind", JStr "note");
        ("user", JObj [("id", JInt 12); ("username", JStr "bob")]); ("project", JObj [("id", JInt 42)]);
        ("object_attributes", JObj [("note", JStr "/deploy"); (member, JStr "MergeRequest")]);
        ("merge_request", JObj [("iid", JInt 9)])].

Lemma gitlab_notes_carry_no_command :
  OnPullRequest <$> ParseComment GitLab (gitlab_note "noteable_type") = Some false ∧
  OnPullRequest <$> ParseComment GitLab (gitlab_note "notable_type") = Some true.
Proof. split; vm_compute; reflexivity. Qed.

(** Only the first line counts, up to white space, in lower case. *)
Lemma Command_first_line_only line rest number author id repo on_pr brk :
  forallb (λ c, negb (line_break c)) (String.list_ascii_of_string line) = true → line_break brk = true →
  Command (mkComment number (line +:+ String brk rest) author id repo on_pr) =
  Command (mkComment number line author id repo on_pr).
Proof.
  intros Hl Hb. unfold Command, c_Body. replace (first_line (line +:+ String brk rest)) with (first_line line); [done|].
  induction line as [|a line IH]; [simpl; by rewrite Hb|]. rewrite append_cons. simpl in *.
  apply andb_true_iff in Hl as [Ha Hl]. rewrite negb_true_iff in Ha. rewrite Ha. f_equal. by apply IH.
Qed.

Lemma Command_is_case_sensitive :
  Command (mkComment 4 "/Deploy" "alice" 8 "o/r" true) = "" ∧
  Command (mkComment 4 " /deploy  " "alice" 8 "o/r" true) = "deploy".
Proof. split; vm_compute; reflexivity. Qed.
