(* ===== verification/ControlDB.v ===== *)
(** * The tables behind webhooks, deployments and previews

    Rows and SQL statements of [internal/store] ([gitwebhooks.sql.go],
    [deployments.sql.go], [previews.sql.go]) that the webhook, preview and
    deployment handlers share, over the job table of [Queue]; the payload
    column of a job, which [Queue] leaves out, is kept here.  Each statement is
    a program of [Effects.M], so it may fail.  Columns no modelled decision
    reads (authors, messages, images) are left out. *)
From S2P Require Import Prelude GoLib Queue Effects Json.
Local Open Scope Z_scope.

(** ** Rows *)

(** [store.WebhookDeliveryStatus] *)
Inductive DeliveryStatus := DReceived | DAccepted | DIgnored | DDuplicate | DFailed.
(** [store.DeploymentStatus] *)
Inductive DeploymentStatus :=
| SQueued | SPreparing | SCloning | SBuilding | SPushing | SStarting | SHealthchecking
| SSwitching | SFinishing | SSucceeded | SFailed | SCancelled | SRetrying | SSuperseded.
(** [store.DeploymentTrigger] *)
Inductive DeploymentTrigger := TManual | TWebhook | TApi | TPreview | TSchedule | TConfigApply | TCliLocal.
(** [store.PreviewStatus] *)
Inductive PreviewStatus :=
| PQueued | PDeploying | PActive | PFailed | PDestroying | PCleanupFailed | PDestroyed | PSleeping | PWaking.

#[export] Instance DeliveryStatus_eq_dec : EqDecision DeliveryStatus.
Proof. solve_decision. Defined.
#[export] Instance DeploymentStatus_eq_dec : EqDecision DeploymentStatus.
Proof. solve_decision. Defined.
#[export] Instance DeploymentTrigger_eq_dec : EqDecision DeploymentTrigger.
Proof. solve_decision. Defined.
#[export] Instance PreviewStatus_eq_dec : EqDecision PreviewStatus.
Proof. solve_decision. Defined.

(** What the handlers read of an application ([GetApplicationByIDRow]). *)
Record App := mkApp {
  app_id : Z; app_uuid : string; app_destination : Z;
  app_git_branch : option string; app_auto_deploy : bool; app_watch_paths : option string;
  app_previews_enabled : bool; app_require_label : option string; app_exclude_drafts : bool;
  app_fork_approval : bool; app_deploy_on_open : bool; app_max_concurrent : option Z;
  app_cancel_obsolete : bool; app_comment_commands : bool; app_basic_auth : bool;
  app_ttl_minutes : option Z; app_url_templates : option json; app_url_template : string;
  app_scale_to_zero : bool; app_scale_minutes : Z
}.

Record Server := mkServer { srv_queue_limit : Z; srv_wildcard : option string }.

(** [webhook_endpoints], joined with the application; [e_secret] is what
    decrypting the stored secret gives. *)
Record Endpoint := mkEndpoint {
  e_id : Z; e_provider : string; e_app : Z; e_secret : option string; e_enabled : bool
}.

(** [webhook_deliveries] *)
Record Delivery := mkDelivery {
  dl_id : Z; dl_provider : string; dl_delivery_id : string; dl_event_type : option string;
  dl_signature_valid : bool; dl_status : DeliveryStatus; dl_reason : option string;
  dl_payload : json; dl_app : option Z; dl_received_at : Z
}.

(** [deployments] *)
Record Deployment := mkDeployment {
  d_id : Z; d_resource : Z; d_trigger : DeploymentTrigger; d_server : Z; d_preview : option Z;
  d_commit : option string; d_force : bool; d_status : DeploymentStatus; d_superseded_by : option Z
}.

(** [previews] *)
Record Preview := mkPreview {
  p_id : Z; p_uuid : string; p_app : Z; p_provider : string; p_pr : Z;
  p_branch : option string; p_sha : option string; p_is_fork : bool; p_fork_approved_at : option Z;
  p_fqdn : option string; p_status : PreviewStatus; p_cleanup_error : option string;
  p_last_deployed : option Z; p_last_activity : option Z; p_destroyed_at : option Z;
  p_updated_at : Z; p_repo : option string; p_expiry_warned : option Z; p_slug : option string;
  p_deploy_requested : option Z
}.

(** The payload of a job. *)
Inductive payload :=
| PWebhookProcess (delivery : Z) | PDeploymentRun (deployment : Z) | PPreviewDestroy (preview : Z)
| PServerCleanup (server : Z).

#[export] Instance payload_eq_dec : EqDecision payload.
Proof. solve_decision. Defined.

(** The database, the clock, and the random identifiers drawn for new rows. *)
Record World := mkWorld {
  w_now : Z; w_uuid : Z → string;
  w_queue : Queue.DB; w_payloads : gmap Z payload;
  w_apps : gmap Z App; w_destinations : gmap Z Z; w_servers : gmap Z Server;
  w_domains : gmap Z (list string); w_components : gmap Z (list (string * option Z));
  w_endpoints : gmap string Endpoint;
  w_deliveries : gmap Z Delivery; w_delivery_next : Z;
  w_deployments : gmap Z Deployment; w_deployment_next : Z;
  w_previews : gmap Z Preview; w_preview_next : Z;
  w_credentials : gset Z; w_cancel_requested : gset Z;
  w_repositories : gmap (Z * string) (list Z)
}.

(** *** Updating one table *)

Definition set_jobs (w : World) (db : Queue.DB) (ps : gmap Z payload) : World :=
  mkWorld (w_now w) (w_uuid w) db ps (w_apps w) (w_destinations w) (w_servers w) (w_domains w)
    (w_components w) (w_endpoints w) (w_deliveries w) (w_delivery_next w) (w_deployments w)
    (w_deployment_next w) (w_previews w) (w_preview_next w) (w_credentials w) (w_cancel_requested w) (w_repositories w).
Definition set_deliveries (w : World) (t : gmap Z Delivery) (next : Z) : World :=
  mkWorld (w_now w) (w_uuid w) (w_queue w) (w_payloads w) (w_apps w) (w_destinations w) (w_servers w)
    (w_domains w) (w_components w) (w_endpoints w) t next (w_deployments w) (w_deployment_next w)
    (w_previews w) (w_preview_next w) (w_credentials w) (w_cancel_requested w) (w_repositories w).
Definition set_deployments (w : World) (t : gmap Z Deployment) (next : Z) : World :=
  mkWorld (w_now w) (w_uuid w) (w_queue w) (w_payloads w) (w_apps w) (w_destinations w) (w_servers w)
    (w_domains w) (w_components w) (w_endpoints w) (w_deliveries w) (w_delivery_next w) t next
    (w_previews w) (w_preview_next w) (w_credentials w) (w_cancel_requested w) (w_repositories w).
Definition set_previews (w : World) (t : gmap Z Preview) (next : Z) : World :=
  mkWorld (w_now w) (w_uuid w) (w_queue w) (w_payloads w) (w_apps w) (w_destinations w) (w_servers w)
    (w_domains w) (w_components w) (w_endpoints w) (w_deliveries w) (w_delivery_next w)
    (w_deployments w) (w_deployment_next w) t next (w_credentials w) (w_cancel_requested w) (w_repositories w).
Definition set_credentials (w : World) (c : gset Z) : World :=
  mkWorld (w_now w) (w_uuid w) (w_queue w) (w_payloads w) (w_apps w) (w_destinations w) (w_servers w)
    (w_domains w) (w_components w) (w_endpoints w) (w_deliveries w) (w_delivery_next w)
    (w_deployments w) (w_deployment_next w) (w_previews w) (w_preview_next w) c (w_cancel_requested w) (w_repositories w).

Definition set_cancel_requested (w : World) (c : gset Z) : World :=
  mkWorld (w_now w) (w_uuid w) (w_queue w) (w_payloads w) (w_apps w) (w_destinations w) (w_servers w)
    (w_domains w) (w_components w) (w_endpoints w) (w_deliveries w) (w_delivery_next w)
    (w_deployments w) (w_deployment_next w) (w_previews w) (w_preview_next w) (w_credentials w) c
    (w_repositories w).

(** ** Statements *)

Definition row {K} `{Countable K} {A} (t : World → gmap K A) (k : K) : M World A :=
  query (λ w, match t w !! k with Some x => inr x | None => inl NoRows end).

(** *** The queue *)

(** [queue.Enqueue] with a payload that marshals: one insert; a job that an
    idempotency key finds keeps its payload. *)
Definition known_job (db : DB) (key : option string) : bool :=
  match key with None => false | Some k => bool_decide (is_Some (GetJobByIdempotencyKey db k)) end.
Definition Enqueue (opts : EnqueueOptions) (p : payload) : M World Job :=
  stmt (λ w, match Queue.Enqueue (w_queue w) opts (w_now w) with
             | (db, inl _) => (set_jobs w db (w_payloads w), inl Broken)
             | (db, inr j) =>
                 (set_jobs w db (if known_job (w_queue w) (o_idempotency_key opts) then w_payloads w
                                 else <[ job_id j := p ]> (w_payloads w)), inr j)
             end).

(** [CancelJobsForDeployments] *)
Definition runs_one_of (ps : gmap Z payload) (ids : list Z) (j : Job) : bool :=
  match ps !! job_id j with
  | Some (PDeploymentRun d) => bool_decide (d ∈ ids) && bool_decide (job_type j = "deployment.run")
  | _ => false
  end.
Definition CancelJobsForDeployments (ids : list Z) : M World () :=
  exec (λ w,
    set_jobs w (CancelQueued (w_queue w) (runs_one_of (w_payloads w) ids) (w_now w)) (w_payloads w)).

(** [RequestDeploymentJobCancel] *)
Definition RequestDeploymentJobCancel (deployment : Z) : M World () :=
  exec (λ w, set_cancel_requested w (list_to_set (job_id <$> filter (λ j,
    w_payloads w !! job_id j = Some (PDeploymentRun deployment) ∧ job_type j = "deployment.run" ∧
    job_status j ∈ [Scheduled; Queued; Leased; Running]) (map_to_list (jobs (w_queue w))).*2) ∪ w_cancel_requested w)).

(** *** Deliveries *)

(** [CreateWebhookDelivery]: no row when (provider, delivery_id) is taken. *)
Definition delivery_taken (w : World) (provider id : string) : bool :=
  bool_decide (map_Exists (λ _ d, dl_provider d = provider ∧ dl_delivery_id d = id) (w_deliveries w)).
Definition CreateWebhookDelivery (provider id event_type : string) (valid : bool) (st : DeliveryStatus)
    (p : json) (app : Z) : M World Delivery :=
  stmt (λ w,
    if delivery_taken w provider id
    then (set_deliveries w (w_deliveries w) (w_delivery_next w + 1), inl NoRows)
    else
      let d := mkDelivery (w_delivery_next w) provider id (Some event_type) valid st None p (Some app) (w_now w) in
      (set_deliveries w (<[ dl_id d := d ]> (w_deliveries w)) (w_delivery_next w + 1), inr d)).

(** [GetWebhookDeliveryByID] *)
Definition GetWebhookDeliveryByID (id : Z) : M World Delivery := row w_deliveries id.

(** [FinishWebhookDelivery] *)
Definition FinishWebhookDelivery (id : Z) (st : DeliveryStatus) (reason : option string) : M World () :=
  exec (λ w, set_deliveries w (alter (λ d,
    mkDelivery (dl_id d) (dl_provider d) (dl_delivery_id d) (dl_event_type d) (dl_signature_valid d)
      st reason (dl_payload d) (dl_app d) (dl_received_at d)) id (w_deliveries w)) (w_delivery_next w)).

(** [PurgeWebhookDeliveries] *)
Definition delivery_retention : Z := 30 * 24 * 3600 * 1000000000.
Definition PurgeWebhookDeliveries : M World () :=
  exec (λ w, set_deliveries w
    (filter (λ x, w_now w - delivery_retention <= dl_received_at x.2) (w_deliveries w)) (w_delivery_next w)).

(** *** Configuration *)

(** [GetDestinationByID], [GetServerByID], [GetApplicationByID] *)
Definition GetDestinationByID (id : Z) : M World Z := row w_destinations id.
Definition GetServerByID (id : Z) : M World Server := row w_servers id.
Definition GetApplicationByID (id : Z) : M World App := row w_apps id.

(** [ListDomainsForApplication], [ListServiceComponents] *)
Definition ListDomainsForApplication (app : Z) : M World (list string) :=
  query (λ w, inr (default [] (w_domains w !! app))).
Definition ListServiceComponents (app : Z) : M World (list (string * option Z)) :=
  query (λ w, inr (default [] (w_components w !! app))).

(** [ListApplicationIDsForRepositoryPush]: the applications bound to a repository
    of a GitHub App. *)
Definition ListApplicationIDsForRepositoryPush (github_app : Z) (external_id : string) : M World (list Z) :=
  query (λ w, inr (default [] (w_repositories w !! (github_app, external_id)))).

(** *** Deployments *)

Definition finished (s : DeploymentStatus) : bool :=
  bool_decide (s ∈ [SSucceeded; SFailed; SCancelled; SSuperseded]).

(** [CountActiveDeploymentsForServer] *)
Definition active_deployments (w : World) (server : Z) : Z :=
  count (λ d, bool_decide (d_server d = server) && negb (finished (d_status d))) (w_deployments w).
Definition CountActiveDeploymentsForServer (server : Z) : M World Z :=
  query (λ w, inr (active_deployments w server)).

(** [CreateDeployment] *)
Definition CreateDeployment (resource : Z) (trigger : DeploymentTrigger) (server : Z)
    (preview : option Z) (commit : option string) (force : bool) : M World Deployment :=
  stmt (λ w,
    let d := mkDeployment (w_deployment_next w) resource trigger server preview commit force SQueued None in
    (set_deployments w (<[ d_id d := d ]> (w_deployments w)) (w_deployment_next w + 1), inr d)).

(** [CreateNoBuildDeployment]; [skip_build] is not kept. *)
Definition CreateNoBuildDeployment (resource : Z) (trigger : DeploymentTrigger) (server : Z)
    (preview : option Z) (commit : option string) : M World Deployment :=
  CreateDeployment resource trigger server preview commit false.

(** [GetLastSucceededPreviewDeployment]: [ORDER BY id DESC LIMIT 1] *)
Fixpoint newest (ds : list Deployment) : option Deployment :=
  match ds with
  | [] => None
  | d :: ds' => match newest ds' with
                | Some e => if d_id d <? d_id e then Some e else Some d
                | None => Some d
                end
  end.
Definition GetLastSucceededPreviewDeployment (preview : Z) : M World Deployment :=
  query (λ w, match newest (filter (λ d, d_preview d = Some preview ∧ d_status d = SSucceeded)
                                   (map_to_list (w_deployments w)).*2) with
              | Some d => inr d
              | None => inl NoRows
              end).

(** The update of both coalescing statements, and the ids they return. *)
Definition superseded_by (by_id : Z) (d : Deployment) : Deployment :=
  mkDeployment (d_id d) (d_resource d) (d_trigger d) (d_server d) (d_preview d) (d_commit d) (d_force d)
    SSuperseded (Some by_id).
Definition supersede_where (cond : Deployment → bool) (by_id : Z) : M World (list Z) :=
  stmt (λ w,
    (set_deployments w ((λ d, if cond d then superseded_by by_id d else d) <$> w_deployments w)
       (w_deployment_next w),
     inr (d_id <$> filter (λ d, cond d = true) (map_to_list (w_deployments w)).*2))).

(** [SupersedeQueuedDeployments] *)
Definition SupersedeQueuedDeployments (resource by_id : Z) : M World (list Z) :=
  supersede_where (λ d, bool_decide (d_resource d = resource) && bool_decide (d_status d = SQueued) &&
                        bool_decide (d_trigger d = TWebhook) && negb (d_id d =? by_id)) by_id.

(** [SupersedeObsoletePreviewDeployments] *)
Definition SupersedeObsoletePreviewDeployments (preview by_id : Z) : M World (list Z) :=
  supersede_where (λ d, bool_decide (d_preview d = Some preview) && bool_decide (d_status d = SQueued) &&
                        negb (d_id d =? by_id)) by_id.

(** [ListCancellablePreviewDeploymentIDs] *)
Definition ListCancellablePreviewDeploymentIDs (preview id : Z) : M World (list Z) :=
  query (λ w, inr (d_id <$> filter (λ d, d_preview d = Some preview ∧ d_id d ≠ id ∧
    d_status d ∈ [SPreparing; SCloning; SBuilding; SPushing; SStarting; SHealthchecking; SRetrying])
    (map_to_list (w_deployments w)).*2)).

(** *** Previews *)

(** [GetPreviewByIdentity]: at most one row, the identity is unique. *)
Definition identity_is (app : Z) (provider : string) (pr : Z) (p : Preview) : Prop :=
  p_app p = app ∧ p_provider p = provider ∧ p_pr p = pr.
#[export] Instance identity_is_dec app provider pr p : Decision (identity_is app provider pr p).
Proof. unfold identity_is. apply _. Defined.
Definition preview_of (w : World) (app : Z) (provider : string) (pr : Z) : option Preview :=
  snd <$> head (filter (λ x, identity_is app provider pr x.2) (map_to_list (w_previews w))).
Definition GetPreviewByIdentity (app : Z) (provider : string) (pr : Z) : M World Preview :=
  query (λ w, match preview_of w app provider pr with Some p => inr p | None => inl NoRows end).

(** [GetPreviewByID] *)
Definition GetPreviewByID (id : Z) : M World Preview := row w_previews id.

(** The row [UpsertPreview] inserts, and the one it updates. *)
Definition fresh_preview (w : World) (app : Z) (provider : string) (pr : Z) (branch sha : option string)
    (is_fork : bool) (repo : option string) : Preview :=
  mkPreview (w_preview_next w) (w_uuid w (w_preview_next w)) app provider pr branch sha is_fork None None
    PQueued None None None None (w_now w) repo None None None.
Definition revived (now : Z) (branch sha : option string) (is_fork : bool) (repo : option string)
    (p : Preview) : Preview :=
  mkPreview (p_id p) (p_uuid p) (p_app p) (p_provider p) (p_pr p) branch sha is_fork (p_fork_approved_at p)
    (p_fqdn p) (if decide (p_status p ∈ [PDestroyed; PFailed]) then PQueued else p_status p)
    (p_cleanup_error p) (p_last_deployed p) (p_last_activity p) None now
    (match repo with Some r => Some r | None => p_repo p end) (p_expiry_warned p) (p_slug p)
    (if decide (p_status p = PDestroyed) then None else p_deploy_requested p).

(** [UpsertPreview] *)
Definition upserted (w : World) (app : Z) (provider : string) (pr : Z) (branch sha : option string)
    (is_fork : bool) (repo : option string) : Preview :=
  match preview_of w app provider pr with
  | None => fresh_preview w app provider pr branch sha is_fork repo
  | Some p => revived (w_now w) branch sha is_fork repo p
  end.
Definition UpsertPreview (app : Z) (provider : string) (pr : Z) (branch sha : option string)
    (is_fork : bool) (repo : option string) : M World Preview :=
  stmt (λ w,
    let p := upserted w app provider pr branch sha is_fork repo in
    (set_previews w (<[ p_id p := p ]> (w_previews w)) (w_preview_next w + 1), inr p)).

Definition update_preview (id : Z) (f : Z → Preview → Preview) : M World () :=
  exec (λ w, set_previews w (alter (f (w_now w)) id (w_previews w)) (w_preview_next w)).

(** The columns the statements below leave alone, and the ones they set. *)
Definition with_status (st : PreviewStatus) (cleanup : option string) (now : Z) (p : Preview) : Preview :=
  mkPreview (p_id p) (p_uuid p) (p_app p) (p_provider p) (p_pr p) (p_branch p) (p_sha p) (p_is_fork p)
    (p_fork_approved_at p) (p_fqdn p) st cleanup (p_last_deployed p) (p_last_activity p)
    (if decide (st = PDestroyed) then Some now else p_destroyed_at p) now (p_repo p)
    (p_expiry_warned p) (p_slug p) (p_deploy_requested p).
(** [SetPreviewStatus] *)
Definition SetPreviewStatus (id : Z) (st : PreviewStatus) (cleanup : option string) : M World () :=
  update_preview id (with_status st cleanup).

(** [SetPreviewDeployed] *)
Definition SetPreviewDeployed (id : Z) : M World () :=
  update_preview id (λ now p,
    mkPreview (p_id p) (p_uuid p) (p_app p) (p_provider p) (p_pr p) (p_branch p) (p_sha p) (p_is_fork p)
      (p_fork_approved_at p) (p_fqdn p) PActive (p_cleanup_error p) (Some now) (Some now) (p_destroyed_at p)
      now (p_repo p) None (p_slug p) (p_deploy_requested p)).

(** [SetPreviewSleeping], [SetPreviewAwake] *)
Definition asleep (st : PreviewStatus) (warned : option Z → option Z) (now : Z) (p : Preview) : Preview :=
  mkPreview (p_id p) (p_uuid p) (p_app p) (p_provider p) (p_pr p) (p_branch p) (p_sha p) (p_is_fork p)
    (p_fork_approved_at p) (p_fqdn p) st (p_cleanup_error p) (p_last_deployed p) (p_last_activity p)
    (p_destroyed_at p) now (p_repo p) (warned (p_expiry_warned p)) (p_slug p) (p_deploy_requested p).
Definition SetPreviewSleeping (id : Z) : M World () := update_preview id (asleep PSleeping (λ x, x)).
Definition SetPreviewAwake (id : Z) : M World () := update_preview id (asleep PActive (λ _, None)).

(** [RecordPreviewActivity] *)
Definition RecordPreviewActivity (id : Z) : M World () :=
  update_preview id (λ now p,
    mkPreview (p_id p) (p_uuid p) (p_app p) (p_provider p) (p_pr p) (p_branch p) (p_sha p) (p_is_fork p)
      (p_fork_approved_at p) (p_fqdn p) (p_status p) (p_cleanup_error p) (p_last_deployed p)
      (Some now) (p_destroyed_at p) (p_updated_at p) (p_repo p) (p_expiry_warned p) (p_slug p)
      (p_deploy_requested p)).

(** [MarkPreviewDeployRequested] *)
Definition MarkPreviewDeployRequested (id : Z) : M World () :=
  update_preview id (λ now p,
    mkPreview (p_id p) (p_uuid p) (p_app p) (p_provider p) (p_pr p) (p_branch p) (p_sha p) (p_is_fork p)
      (p_fork_approved_at p) (p_fqdn p) (p_status p) (p_cleanup_error p) (p_last_deployed p)
      (p_last_activity p) (p_destroyed_at p) now (p_repo p) (p_expiry_warned p) (p_slug p) (Some now)).

(** [KeepPreviewAlive] *)
Definition KeepPreviewAlive (id : Z) : M World () :=
  update_preview id (λ now p,
    mkPreview (p_id p) (p_uuid p) (p_app p) (p_provider p) (p_pr p) (p_branch p) (p_sha p) (p_is_fork p)
      (p_fork_approved_at p) (p_fqdn p) (p_status p) (p_cleanup_error p) (p_last_deployed p)
      (Some now) (p_destroyed_at p) now (p_repo p) None (p_slug p) (p_deploy_requested p)).

(** [SetPreviewExpiryWarned] *)
Definition SetPreviewExpiryWarned (id : Z) : M World () :=
  update_preview id (λ now p,
    mkPreview (p_id p) (p_uuid p) (p_app p) (p_provider p) (p_pr p) (p_branch p) (p_sha p) (p_is_fork p)
      (p_fork_approved_at p) (p_fqdn p) (p_status p) (p_cleanup_error p) (p_last_deployed p)
      (p_last_activity p) (p_destroyed_at p) now (p_repo p) (Some now) (p_slug p) (p_deploy_requested p)).

(** [SetPreviewFqdn], [SetPreviewRandomSlug] *)
Definition with_names (fqdn slug : option string) (now : Z) (p : Preview) : Preview :=
  mkPreview (p_id p) (p_uuid p) (p_app p) (p_provider p) (p_pr p) (p_branch p) (p_sha p) (p_is_fork p)
    (p_fork_approved_at p) fqdn (p_status p) (p_cleanup_error p) (p_last_deployed p) (p_last_activity p)
    (p_destroyed_at p) now (p_repo p) (p_expiry_warned p) slug (p_deploy_requested p).
Definition SetPreviewFqdn (id : Z) (fqdn : option string) : M World () :=
  update_preview id (λ now p, with_names fqdn (p_slug p) now p).
Definition SetPreviewRandomSlug (id : Z) (slug : string) : M World () :=
  update_preview id (λ now p,
    match p_slug p with None => with_names (p_fqdn p) (Some slug) now p | Some _ => p end).

(** [ApprovePreviewFork]: the number of rows. *)
Definition approved (now : Z) (p : Preview) : Preview :=
  mkPreview (p_id p) (p_uuid p) (p_app p) (p_provider p) (p_pr p) (p_branch p) (p_sha p) (p_is_fork p)
    (Some now) (p_fqdn p) (p_status p) (p_cleanup_error p) (p_last_deployed p) (p_last_activity p)
    (p_destroyed_at p) now (p_repo p) (p_expiry_warned p) (p_slug p) (p_deploy_requested p).
Definition awaits_approval (p : Preview) : bool := p_is_fork p && bool_decide (p_fork_approved_at p = None).
Definition ApprovePreviewFork (id : Z) : M World Z :=
  stmt (λ w,
    match w_previews w !! id with
    | Some p => if awaits_approval p
                then (set_previews w (<[ id := approved (w_now w) p ]> (w_previews w)) (w_preview_next w), inr 1)
                else (w, inr 0)
    | None => (w, inr 0)
    end).

(** [CountLivePreviewsForApplication] *)
Definition live (st : PreviewStatus) : bool := bool_decide (st ∈ [PDeploying; PActive]).
Definition live_previews (w : World) (app : Z) : Z :=
  count (λ p, bool_decide (p_app p = app) && live (p_status p)) (w_previews w).
Definition CountLivePreviewsForApplication (app : Z) : M World Z := query (λ w, inr (live_previews w app)).

(** [ListExpiredPreviews], [ListPreviewsToWarn]: [GREATEST] skips a null, and
    comparing with a null keeps no row. *)
Definition minute : Z := 60 * 1000000000.
Definition last_sign (p : Preview) : option Z :=
  match p_last_activity p, p_last_deployed p with
  | Some a, Some d => Some (Z.max a d)
  | Some a, None => Some a
  | None, d => d
  end.
Definition idle_since (now minutes : Z) (p : Preview) : bool :=
  match last_sign p with Some t => t <? now - minutes * minute | None => false end.
Definition ttl_of (w : World) (p : Preview) : option Z := w_apps w !! p_app p ≫= app_ttl_minutes.
Definition expired (w : World) (p : Preview) : bool :=
  bool_decide (p_status p = PActive) &&
  match ttl_of w p with Some ttl => idle_since (w_now w) ttl p | None => false end.
Definition to_warn (w : World) (p : Preview) : bool :=
  bool_decide (p_status p = PActive) && bool_decide (p_expiry_warned p = None) &&
  match ttl_of w p with Some ttl => idle_since (w_now w) ((ttl * 4) `quot` 5) p | None => false end.
Definition list_previews (cond : World → Preview → bool) : M World (list Preview) :=
  query (λ w, inr (filter (λ p, cond w p = true) (map_to_list (w_previews w)).*2)).
Definition ListExpiredPreviews : M World (list Preview) := list_previews expired.
Definition ListPreviewsToWarn : M World (list Preview) := list_previews to_warn.

(** [ListPreviewsForScaleToZero], with the window of the application, and
    [ListSleepingPreviews]. *)
Definition scales_to_zero (w : World) (p : Preview) : option (Preview * Z) :=
  app ← w_apps w !! p_app p;
  if bool_decide (p_status p = PActive) && app_scale_to_zero app then Some (p, app_scale_minutes app) else None.
Definition ListPreviewsForScaleToZero : M World (list (Preview * Z)) :=
  query (λ w, inr (omap (scales_to_zero w) (map_to_list (w_previews w)).*2)).
Definition ListSleepingPreviews : M World (list Preview) :=
  list_previews (λ _ p, bool_decide (p_status p = PSleeping)).

(** [GetSleepingPreviewForServer]: at most one row, the uuid is unique. *)
Definition sleeps_on (w : World) (uuid : string) (server : Z) (p : Preview) : bool :=
  bool_decide (p_uuid p = uuid) && bool_decide (p_status p = PSleeping) &&
  match w_apps w !! p_app p with
  | Some app => bool_decide (w_destinations w !! app_destination app = Some server)
  | None => false
  end.
Definition GetSleepingPreviewForServer (uuid : string) (server : Z) : M World Preview :=
  query (λ w, match filter (λ p, sleeps_on w uuid server p = true) (map_to_list (w_previews w)).*2 with
              | p :: _ => inr p
              | [] => inl NoRows
              end).

(** [ListQueuedPreviews]: the fifty that waited longest, ties in any order. *)
Definition older (p q : Preview) : Prop := p_updated_at p <= p_updated_at q.
#[export] Instance older_dec : RelDecision older.
Proof. intros p q. unfold older. apply _. Defined.
Definition ListQueuedPreviews : M World (list Preview) :=
  query (λ w, inr (take 50 (merge_sort older
    (filter (λ p, p_status p = PQueued) (map_to_list (w_previews w)).*2)))).

(** [CreateGeneratedPreviewEnvVar] of the access credential: the first wins. *)
Definition CreateGeneratedPreviewEnvVar (resource : Z) : M World () :=
  exec (λ w, set_credentials w ({[ resource ]} ∪ w_credentials w)).
