(* ===== verification/Host.v ===== *)
(** * Servers and the programs that drive them

    What a job of the control plane does to a server goes through the agent
    channel ([dockerruntime.Runtime], [hostops.Ops]) or an SSH session; what it
    decides goes to the database.  The far side is not part of this program: the
    class [Surroundings] answers every call as it likes, and lets the other
    workers change the tables before every statement.  A program is one of
    [Effects.M], so any call or statement can also fail, or lose its answer, or
    never be made because the process died; the calls attempted and the answers
    seen are recorded in a log, the latest first.  Properties of the log hold
    whatever Docker, the proxy, the database and the other workers do. *)
From S2P Require Import Prelude GoLib Queue Effects ControlDB.
Local Open Scope Z_scope.

(** ** Calls *)

(** What the code reads of an inspected container: [State], [Health], the
    address on the destination network and the labels. *)
Record ContainerState := mkState { cs_status : string; cs_running : bool; cs_health : option string }.
Record Container := mkContainer { ct_state : option ContainerState; ct_ip : string; ct_labels : gmap string string }.

(** An inspected image: whether it has a health check, and the user it runs as. *)
Record ImageInfo := mkImage { im_id : string; im_digests : list string; im_health : bool; im_user : string }.

(** An element of a list of containers, images, volumes or networks. *)
Record Summary := mkSummary { su_id : string; su_name : string; su_labels : gmap string string }.

(** A deployment drives the server it deploys to, and the one that builds. *)
Inductive machine := Target | Builder.

(** The calls, by the type of their answer.  [Other] stands for the calls of
    which only the success matters (a ping, a network, a volume, a build). *)
Inductive call : Type → Type :=
| Inspect (name : string) : call Container
| Create (name image : string) (labels : gmap string string) : call ()
| Start (name : string) : call ()
| Stop (name : string) : call ()
| Remove (name : string) (volumes : bool) : call ()
| Rename (from to : string) : call ()
| Exec (name : string) (argv : list string) : call (string * Z)
| Wait (name : string) : call Z
| ImageInspect (on : machine) (ref : string) : call ImageInfo
| ImagePull (ref : string) : call ()
| ImageRemove (ref : string) : call ()
| VolumeRemove (name : string) : call ()
| NetworkRemove (id : string) : call ()
| ContainerList (label : string) : call (list Summary)
| ImageList (label : string) : call (list Summary)
| VolumeList (label : string) : call (list Summary)
| NetworkList (label : string) : call (list Summary)
| WriteFile (path content : string) : call ()
| RemoveFile (path : string) : call ()
| Run (on : machine) (command : string) : call (string * Z)
| Info : call string
| RunInput (on : machine) (command input : string) : call (string * Z)
| Other (on : machine) (what : string) : call ().

(** [proxy.ContainerName] *)
Definition proxy_container : string := "akerdock-proxy".

(** An answer; [dockerruntime.IsNotFound] tells the errors apart. *)
Inductive answer (A : Type) := Answer (a : A) | NotFound | Trouble.
Arguments Answer {A}.
Arguments NotFound {A}.
Arguments Trouble {A}.

Definition seen {A} (a : answer A) : err + A :=
  match a with Answer a => inr a | NotFound => inl NoRows | Trouble => inl Broken end.
Definition IsNotFound (e : err) : bool := bool_decide (e = NoRows).

(** ** State *)

(** [proxy_config_revisions] *)
Inductive RevisionStatus := RevGenerated | RevApplied | RevFailed | RevRolledBack.
Record Revision := mkRevision {
  rv_id : Z; rv_server : Z; rv_scope : string; rv_content : string; rv_status : RevisionStatus
}.
#[export] Instance RevisionStatus_eq_dec : EqDecision RevisionStatus.
Proof. solve_decision. Defined.

(** [deployment_artifacts], joined with the resource and the preview of its
    deployment. *)
Record Artifact := mkArtifact {
  ar_id : Z; ar_deployment : Z; ar_image : string; ar_tag : option string; ar_server : Z
}.

(** The tables: those of [ControlDB], [deployments.build_server_id], and the uuids
    of the [resources] that are not deleted. *)
Record Tables := mkTables {
  t_world : World; t_revisions : list Revision; t_artifacts : list Artifact; t_builders : gmap Z Z;
  t_resources : gset string
}.
Definition set_world (t : Tables) (w : World) : Tables :=
  mkTables w (t_revisions t) (t_artifacts t) (t_builders t) (t_resources t).
Definition set_revisions (t : Tables) (l : list Revision) : Tables :=
  mkTables (t_world t) l (t_artifacts t) (t_builders t) (t_resources t).
Definition set_artifacts (t : Tables) (l : list Artifact) : Tables :=
  mkTables (t_world t) (t_revisions t) l (t_builders t) (t_resources t).
Definition set_builders (t : Tables) (b : gmap Z Z) : Tables :=
  mkTables (t_world t) (t_revisions t) (t_artifacts t) b (t_resources t).

Class Surroundings := {
  outside : Type;
  reply : ∀ {A}, call A → outside → outside * answer A;
  others : outside → Tables → outside * Tables
}.

(** What the log records: a call with the answer seen, a status about to be
    written and the same once the write was answered, and what was found in the database: the health check of the resource,
    which of some owners are live, whether the server may be cleaned. *)
Inductive event :=
| Called {A} (c : call A) (r : err + A)
| Wrote (st : DeploymentStatus)
| Recorded (st : DeploymentStatus)
| FoundHealthCheck (enabled : bool)
| FoundLive (asked live : list string)
| MayClean (yes : bool).

(** What a run keeps in memory ([r.rt], [r.digest], [r.d.ImageName], [r.d.ImageTag]). *)
Record Memory := mkMemory {
  m_connected : bool; m_digest : string; m_image : option string; m_tag : option string
}.

Section Site.
Context `{Surroundings}.

Record Site := mkSite {
  s_out : outside; s_tables : Tables; s_memory : Memory; s_log : list event
}.
Definition logged (e : event) (s : Site) : Site :=
  mkSite (s_out s) (s_tables s) (s_memory s) (e :: s_log s).

(** ** Steps *)

Definition ask {A} (c : call A) : M Site A := λ fs s,
  match fs with
  | Refused :: fs' => (inl Broken, (fs', logged (Called c (inl Broken)) s))
  | _ =>
      let '(o, a) := reply c (s_out s) in
      let r := match fs with Lost :: _ => inl Broken | _ => seen a end in
      (r, (tail fs, mkSite o (s_tables s) (s_memory s) (Called c r :: s_log s)))
  end.

(** A statement, after whatever the other workers did. *)
Definition sql {A} (f : Tables → Tables * (err + A)) : M Site A :=
  stmt (λ s, let '(o, t) := others (s_out s) (s_tables s) in
             let '(t', r) := f t in (mkSite o t' (s_memory s) (s_log s), r)).
(** A statement on rows that no modelled decision reads. *)
Definition bookkeeping : M Site () := sql (λ t, (t, inr ())).

Definition tell (e : event) : M Site () := λ fs s, (inr (), (fs, logged e s)).
Definition remember (f : Memory → Memory) : M Site () := λ fs s,
  (inr (), (fs, mkSite (s_out s) (s_tables s) (f (s_memory s)) (s_log s))).
Definition recall {A} (f : Memory → A) : M Site A := look (λ s, f (s_memory s)).

(** [return res, err] *)
Definition result {A} (r : err + A) : M Site A :=
  match r with inl e => throw e | inr a => mret a end.
(** [defer after()] *)
Definition deferred {A} (after : M Site ()) (m : M Site A) : M Site A :=
  r ← attempt m; _ ← ignore after; result r.

(** An SSH command whose exit code must be zero. *)
Definition zero_exit (c : call (string * Z)) : M Site string :=
  r ← ask c; if decide (snd r = 0) then mret (fst r) else throw (Failure "exit code").
Definition run (on : machine) (command : string) : M Site string := zero_exit (Run on command).

(** ** Reasoning *)

Lemma wp_ask {A} (c : call A) (Q : err + A → Site → Prop) s :
  (∀ r o, Q r (mkSite o (s_tables s) (s_memory s) (Called c r :: s_log s))) → wp (ask c) Q s.
Proof.
  intros HQ fs. unfold ask, logged.
  destruct fs as [|[] fs]; try (destruct (reply c (s_out s)) as [o a]); apply HQ.
Qed.

Lemma wp_sql {A} (f : Tables → Tables * (err + A)) (Q : err + A → Site → Prop) s :
  (∀ r o t, Q r (mkSite o t (s_memory s) (s_log s))) → wp (sql f) Q s.
Proof.
  intros HQ. apply wp_stmt.
  - destruct s. apply HQ.
  - destruct (others _ _) as [o t], (f t) as [t' r]. apply HQ.
  - destruct (others _ _) as [o t], (f t) as [t' r]. apply HQ.
Qed.

Lemma wp_tell e (Q : err + () → Site → Prop) s : Q (inr ()) (logged e s) → wp (tell e) Q s.
Proof. intros HQ fs. exact HQ. Qed.

Lemma wp_remember f (Q : err + () → Site → Prop) s :
  Q (inr ()) (mkSite (s_out s) (s_tables s) (f (s_memory s)) (s_log s)) → wp (remember f) Q s.
Proof. intros HQ fs. exact HQ. Qed.

(** *** Runs in which the process and the database do not fail *)

Lemma steady_ask {A} (c : call A) (Q : err + A → Site → Prop) s :
  (∀ o a, reply c (s_out s) = (o, a) →
     Q (seen a) (mkSite o (s_tables s) (s_memory s) (Called c (seen a) :: s_log s))) →
  steady (ask c) Q s.
Proof.
  intros HQ. destruct (reply c (s_out s)) as [o a] eqn:Hr.
  do 2 eexists. split; [|by apply HQ]. unfold ask. by rewrite Hr.
Qed.

Lemma steady_sql {A} (f : Tables → Tables * (err + A)) (Q : err + A → Site → Prop) s :
  (∀ o t, others (s_out s) (s_tables s) = (o, t) →
     Q (snd (f t)) (mkSite o (fst (f t)) (s_memory s) (s_log s))) → steady (sql f) Q s.
Proof.
  intros HQ. apply steady_stmt. destruct (others _ _) as [o t]. specialize (HQ o t eq_refl).
  by destruct (f t) as [t' r].
Qed.

Lemma steady_tell e (Q : err + () → Site → Prop) s : Q (inr ()) (logged e s) → steady (tell e) Q s.
Proof. intros HQ. by do 2 eexists. Qed.
Lemma steady_remember f (Q : err + () → Site → Prop) s :
  Q (inr ()) (mkSite (s_out s) (s_tables s) (f (s_memory s)) (s_log s)) → steady (remember f) Q s.
Proof. intros HQ. by do 2 eexists. Qed.
Lemma steady_fallible (Q : err + () → Site → Prop) s : Q (inr ()) s → steady fallible Q s.
Proof. intros HQ. by apply steady_stmt. Qed.

(** *** What a program may add to the log *)

Definition grows (P : event → Prop) (s s' : Site) : Prop :=
  ∃ l, s_log s' = l ++ s_log s ∧ Forall P l.

#[export] Instance grows_preorder P : PreOrder (grows P).
Proof.
  split.
  - intros s. by exists [].
  - intros s1 s2 s3 (l & Hl & HPl) (k & Hk & HPk). exists (k ++ l).
    split; [by rewrite Hk, Hl, (assoc_L (++))|by apply Forall_app].
Qed.

Lemma grows_mono (P Q : event → Prop) s s' : (∀ e, P e → Q e) → grows P s s' → grows Q s s'.
Proof. intros HPQ (l & Hl & HP). exists l. split; [done|]. by eapply Forall_impl. Qed.

Lemma grows_elem P s s' e : grows P s s' → e ∈ s_log s → e ∈ s_log s'.
Proof. intros (l & -> & _) He. apply elem_of_app. by right. Qed.

Section Grows.
Context (P : event → Prop).

Lemma keeps_ask {A} (c : call A) : (∀ r, P (Called c r)) → keeps (grows P) (ask c).
Proof. intros HP s. apply wp_ask. intros r o. exists [Called c r]. split; [done|by constructor]. Qed.
Lemma keeps_sql {A} (f : Tables → Tables * (err + A)) : keeps (grows P) (sql f).
Proof. intros s. apply wp_sql. intros r o t. by exists []. Qed.
End Grows.

(** ** What a program may add to the log, and which errors it may return *)

Definition if_err {A} (E : err → Prop) (r : err + A) : Prop := match r with inl e => E e | inr _ => True end.
Definition within {A} (P : event → Prop) (E : err → Prop) (m : M Site A) : Prop :=
  ∀ s, wp m (λ r s', grows P s s' ∧ if_err E r) s.

Section Within.
Context (P : event → Prop) (E : err → Prop).

Lemma within_ret {A} (a : A) : within P E (mret a).
Proof. intros s fs. split; [by exists []|done]. Qed.
Lemma within_throw {A} e : E e → within P E (throw (A := A) e).
Proof. intros He s fs. split; [by exists []|done]. Qed.
Lemma within_look {A} (f : Site → A) : within P E (look f).
Proof. intros s fs. split; [by exists []|done]. Qed.
Lemma within_ask {A} (c : call A) :
  (∀ r, P (Called c r)) → E Broken → E NoRows → within P E (ask c).
Proof.
  intros HP HB HN s fs. unfold ask, logged.
  destruct fs as [|[] fs]; try (destruct (reply c (s_out s)) as [o a]); simpl;
    (split; [by eexists [_]; split; [done|by constructor]|]); try done; by destruct a.
Qed.
Lemma within_sql {A} (f : Tables → Tables * (err + A)) :
  (∀ t, if_err E (snd (f t))) → E Broken → within P E (sql f).
Proof.
  intros HE HB s. apply wp_stmt.
  - split; [by exists []|done].
  - destruct (others _ _) as [o t], (f t) as [t' r]. split; [by exists []|done].
  - destruct (others _ _) as [o t]. specialize (HE t). destruct (f t) as [t' r]. split; [by exists []|done].
Qed.
Lemma within_fallible : E Broken → within P E fallible.
Proof. intros HB s. apply wp_query; (split; [by exists []|done]). Qed.
Lemma within_tell e : P e → within P E (tell e).
Proof. intros HP s fs. split; [exists [e]; split; [done|by constructor]|done]. Qed.
Lemma within_remember f : within P E (remember f).
Proof. intros s fs. split; [by exists []|done]. Qed.
Lemma within_bind {A B} (m : M Site A) (k : A → M Site B) :
  within P E m → (∀ a, within P E (k a)) → within P E (m ≫= k).
Proof.
  intros Hm Hk s. apply wp_bind. eapply wp_mono; [|apply Hm]. intros [e|a] s' [HG HE]; [done|].
  eapply wp_mono; [|apply Hk]. intros r s2 [HG' HE']. split; [by transitivity s'|done].
Qed.
Lemma within_attempt {A} (m : M Site A) : within P (λ _, True) m → within P E (attempt m).
Proof. intros Hm s. apply wp_attempt. eapply wp_mono; [|apply Hm]. by intros r s' [HG _]. Qed.
Lemma within_attempt_bind {A B} (m : M Site A) (k : err + A → M Site B) :
  within P E m → (∀ x, if_err E x → within P E (k x)) → within P E (attempt m ≫= k).
Proof.
  intros Hm Hk s. apply wp_bind, wp_attempt. eapply wp_mono; [|apply Hm]. intros x s' [HG HE].
  eapply wp_mono; [|by apply Hk]. intros y s2 [HG' HE']. split; [by transitivity s'|done].
Qed.
Lemma within_ignore {A} (m : M Site A) : within P (λ _, True) m → within P E (ignore m).
Proof. intros Hm s. apply wp_ignore. eapply wp_mono; [|apply Hm]. by intros r s' [HG _]. Qed.
Lemma within_each {A} (xs : list A) (body : A → M Site ()) :
  (∀ x, within P E (body x)) → within P E (each xs body).
Proof.
  intros Hb. induction xs as [|x xs IH]; simpl; [apply within_ret|]. apply within_bind; [apply Hb|]. by intros _.
Qed.
Lemma within_zero_exit c :
  (∀ r, P (Called c r)) → E Broken → E NoRows → E (Failure "exit code") → within P E (zero_exit c).
Proof.
  intros HP HB HN HX. apply within_bind; [by apply within_ask|]. intros x. case_decide; [apply within_ret|by apply within_throw].
Qed.
Lemma within_mono (P' : event → Prop) (E' : err → Prop) {A} (m : M Site A) :
  (∀ e, P e → P' e) → (∀ e, E e → E' e) → within P E m → within P' E' m.
Proof.
  intros HP HE Hm s. eapply wp_mono; [|apply Hm]. intros r s' [HG Hr]. split; [by eapply grows_mono|].
  destruct r; [by apply HE|done].
Qed.
Lemma within_keeps {A} (m : M Site A) : within P E m → keeps (grows P) m.
Proof. intros Hm s. eapply wp_mono; [|apply Hm]. by intros r s' []. Qed.
End Within.

(** The same, with a property of the value returned. *)
Definition yields {A} (P : event → Prop) (E : err → Prop) (V : A → Prop) (m : M Site A) : Prop :=
  ∀ s, wp m (λ r s', grows P s s' ∧ match r with inl e => E e | inr a => V a end) s.

Lemma yields_ret P E {A} (V : A → Prop) a : V a → yields P E V (mret a).
Proof. intros HV s fs. split; [by exists []|done]. Qed.
Lemma yields_throw P E {A} (V : A → Prop) e : E e → yields P E V (throw e).
Proof. intros HE s fs. split; [by exists []|done]. Qed.
Lemma yields_bind P E {A B} (V : B → Prop) (m : M Site A) (k : A → M Site B) :
  within P E m → (∀ a, yields P E V (k a)) → yields P E V (m ≫= k).
Proof.
  intros Hm Hk s. apply wp_bind. eapply wp_mono; [|apply Hm]. intros [e|a] s' [HG HE]; [done|].
  eapply wp_mono; [|apply Hk]. intros x s2 [HG' HV]. split; [by transitivity s'|done].
Qed.
Lemma within_yields P E {A B} (V : A → Prop) (m : M Site A) (k : A → M Site B) :
  yields P E V m → (∀ a, V a → within P E (k a)) → within P E (m ≫= k).
Proof.
  intros Hm Hk s. apply wp_bind. eapply wp_mono; [|apply Hm]. intros [e|a] s' [HG HV]; [done|].
  eapply wp_mono; [|by apply Hk]. intros x s2 [HG' HE]. split; [by transitivity s'|done].
Qed.

(** An error that comes back through [attempt] is one of the errors of the program. *)
Lemma within_deferred P E {A} after (m : M Site A) :
  within P (λ _, True) after → within P E m → within P E (deferred after m).
Proof.
  intros Ha Hm s. apply wp_bind, wp_attempt. eapply wp_mono; [|apply Hm]. intros r s1 [HG HE].
  apply wp_bind, wp_ignore. eapply wp_mono; [|apply Ha]. intros r' s2 [HG' _].
  destruct r as [e|a]; [apply wp_throw|apply wp_ret]; (split; [by transitivity s1|done]).
Qed.

(** A program that only adds to the log leaves a property that adding does not
    break. *)
Lemma wp_then {A B} P E (m : M Site A) (k : A → M Site B) Q s :
  within P E m →
  (∀ s' e, grows P s s' → E e → Q (inl e) s') →
  (∀ s' a, grows P s s' → wp (k a) Q s') → wp (m ≫= k) Q s.
Proof.
  intros Hm He Hk. apply wp_bind. eapply wp_mono; [|apply Hm].
  intros [e|a] s' [Hs HE]; [by apply He|by apply Hk].
Qed.
End Site.

#[export] Hint Resolve keeps_sql : effects.

(** A [within] goal, through the shape of the program; what is left are the
    calls, the errors, and what the hints do not know. *)
Ltac within_step :=
  lazymatch goal with
  | |- within _ _ (mret _) => apply within_ret
  | |- within _ _ (throw _) => apply within_throw
  | |- within _ _ (look _) => apply within_look
  | |- within _ _ (recall _) => apply within_look
  | |- within _ _ fallible => apply within_fallible
  | |- within _ _ bookkeeping => apply within_sql; [intros ?|]
  | |- within _ _ (sql _) => apply within_sql; [intros ?|]
  | |- within _ _ (ask _) => apply within_ask; [intros ?|..]
  | |- within _ _ (zero_exit _) => apply within_zero_exit; [intros ?|..]
  | |- within _ _ (run _ _) => apply within_zero_exit; [intros ?|..]
  | |- within _ _ (tell _) => apply within_tell
  | |- within _ _ (remember _) => apply within_remember
  | |- within _ _ (attempt _) => apply within_attempt
  | |- within _ _ (ignore _) => apply within_ignore
  | |- within _ _ (deferred _ _) => apply within_deferred
  | |- within _ _ (each _ _) => apply within_each; intros ?
  | |- within _ _ (attempt _ ≫= _) => apply within_attempt_bind; [|intros ? ?]
  | |- within _ _ (_ ≫= _) => apply within_bind; [|intros ?]
  | |- within _ _ (match ?x with _ => _ end) => destruct x
  | |- within _ _ (let _ := _ in _) => cbv zeta
  | |- yields _ _ _ (mret _) => apply yields_ret
  | |- yields _ _ _ (throw _) => apply yields_throw
  | |- yields _ _ _ (_ ≫= _) => apply yields_bind; [|intros ?]
  | |- yields _ _ _ (match ?x with _ => _ end) => destruct x
  | |- yields _ _ _ (let _ := _ in _) => cbv zeta
  end.
Ltac within := repeat within_step; auto with effects.
