(* ===== verification/Daemon.v ===== *)
(** * A server that behaves as documented

    The documented behaviour of the Docker engine and of the host's files, as
    far as the calls of [Host] show it: names are unique, a removed or renamed
    container frees its name, an absent one is reported as such, a stopped one
    stays until it is removed, the proxy exposes the files it is given.  It is
    the [Surroundings] of the examples, and what a run that must succeed asks of
    its server ([Documented]); no other theorem depends on it. *)
From S2P Require Import Prelude GoLib Queue Effects ControlDB Host.
Local Open Scope Z_scope.

(** A container: its image and labels, its status, its health, its address. *)
Record Box := mkBox {
  bx_image : string; bx_labels : gmap string string; bx_status : string; bx_health : option string; bx_ip : string
}.
Definition with_box_status (st : string) (h : option string) (b : Box) : Box :=
  mkBox (bx_image b) (bx_labels b) st h (bx_ip b).

(** The containers by name, the files by path, the health an image reports once
    started, the address the next container gets, what the shell prints. *)
Record Daemon := mkDaemon {
  dm_boxes : gmap string Box; dm_files : gmap string string;
  dm_health : string → option string; dm_ip : string; dm_shell : string → string * Z
}.
Definition set_boxes (d : Daemon) (b : gmap string Box) : Daemon :=
  mkDaemon b (dm_files d) (dm_health d) (dm_ip d) (dm_shell d).
Definition set_files (d : Daemon) (f : gmap string string) : Daemon :=
  mkDaemon (dm_boxes d) f (dm_health d) (dm_ip d) (dm_shell d).

Definition inspected (b : Box) : Container :=
  mkContainer (Some (mkState (bx_status b) (bool_decide (bx_status b = "running")) (bx_health b))) (bx_ip b)
    (bx_labels b).

(** On a container that exists. *)
Definition on_box {A} (d : Daemon) (name : string) (k : Box → Daemon * answer A) : Daemon * answer A :=
  match dm_boxes d !! name with Some b => k b | None => (d, NotFound) end.

(** What the proxy's API prints: the services of every dynamic file. *)
Definition services_of (d : Daemon) : string :=
  foldr (λ kv out, fst kv +:+ snd kv +:+ out) "" (map_to_list (dm_files d)).

Definition summary (kv : string * Box) : Summary := mkSummary (fst kv) (fst kv) (bx_labels (snd kv)).

(** A label filter: a key, or a key and its value. *)
Definition labelled (label : string) (labels : gmap string string) : bool :=
  match cut "=" label with
  | Some (k, v) => bool_decide (labels !! k = Some v)
  | None => bool_decide (is_Some (labels !! label))
  end.

Definition daemon {A} (c : call A) : Daemon → Daemon * answer A :=
  match c in call A return Daemon → Daemon * answer A with
  | Inspect n => λ d, on_box d n (λ b, (d, Answer (inspected b)))
  | Create n image labels => λ d,
      match dm_boxes d !! n with
      | Some _ => (d, Trouble)
      | None => (set_boxes d (<[ n := mkBox image labels "created" None (dm_ip d) ]> (dm_boxes d)), Answer ())
      end
  | Start n => λ d, on_box d n (λ b,
      (set_boxes d (<[ n := with_box_status "running" (dm_health d (bx_image b)) b ]> (dm_boxes d)), Answer ()))
  | Stop n => λ d, on_box d n (λ b,
      (set_boxes d (<[ n := with_box_status "exited" (bx_health b) b ]> (dm_boxes d)), Answer ()))
  | Remove n _ => λ d, on_box d n (λ _, (set_boxes d (delete n (dm_boxes d)), Answer ()))
  | Rename a b => λ d, on_box d a (λ x,
      match dm_boxes d !! b with
      | Some _ => (d, Trouble)
      | None => (set_boxes d (<[ b := x ]> (delete a (dm_boxes d))), Answer ())
      end)
  | Exec n argv => λ d,
      if decide (n = proxy_container) then (d, Answer (services_of d, 0))
      else on_box d n (λ b, if decide (bx_status b = "running") then (d, Answer ("", 0)) else (d, Trouble))
  | Wait n => λ d, on_box d n (λ b, (set_boxes d (<[ n := with_box_status "exited" (bx_health b) b ]> (dm_boxes d)), Answer 0))
  | Info => λ d, (d, Answer "/var/lib/docker")
  | ImageInspect _ ref => λ d, (d, Answer (mkImage ref [] (bool_decide (is_Some (dm_health d ref))) ""))
  | ContainerList label => λ d,
      (d, Answer (filter (λ x, labelled label (su_labels x) = true) (summary <$> map_to_list (dm_boxes d))))
  | ImageList _ | VolumeList _ | NetworkList _ => λ d, (d, Answer [])
  | WriteFile p c => λ d, (set_files d (<[ p := c ]> (dm_files d)), Answer ())
  | RemoveFile p => λ d, (set_files d (delete p (dm_files d)), Answer ())
  | Run _ c | RunInput _ c _ => λ d, (d, Answer (dm_shell d c))
  | ImagePull _ | ImageRemove _ | VolumeRemove _ | NetworkRemove _ | Other _ _ => λ d, (d, Answer ())
  end.

(** The server alone, no other worker. *)
Definition alone : Surroundings := {|
  outside := Daemon; reply := @daemon; others := λ o t, (o, t)
|}.

(** A server whose view is such a daemon, and other workers that let it and the
    tables be. *)
Class Documented (S : Surroundings) := {
  view : @outside S → Daemon;
  view_reply : ∀ {A} (c : call A) o, view (fst (reply c o)) = fst (daemon c (view o)) ∧
    snd (reply c o) = snd (daemon c (view o));
  view_others : ∀ o t, view (fst (others o t)) = view o ∧ snd (others o t) = t
}.

#[export] Instance alone_documented : Documented alone := {|
  view := id : @outside alone → Daemon;
  view_reply := λ A c o, conj eq_refl eq_refl;
  view_others := λ o t, conj eq_refl eq_refl
|}.
