(* ===== verification/ProxyApply.v ===== *)
(** * Applying a proxy file

    Models [internal/jobs/proxyapply.go]: a routing file is written as a
    numbered revision, the proxy is polled until it exposes it, and the file goes
    back to the last applied revision when it does not.  The number of polls the
    thirty seconds allow is a parameter. *)
From S2P Require Import Prelude GoLib Queue Effects ControlDB Host Daemon.
Local Open Scope Z_scope.

(** ** Statements *)

Definition next_revision (l : list Revision) : Z := 1 + foldr (λ r n, rv_id r `max` n) 0 l.

(** [GetLastAppliedProxyRevision]; the newest row is the first of the list. *)
Definition applied_at (server : Z) (scope : string) (r : Revision) : bool :=
  bool_decide (rv_server r = server ∧ rv_scope r = scope ∧ rv_status r = RevApplied).
Definition last_applied (server : Z) (scope : string) (l : list Revision) : option Revision :=
  head (filter (λ r, applied_at server scope r = true) l).

(** The rows of a scope. *)
Definition of_scope (server : Z) (scope : string) (l : list Revision) : list Revision :=
  filter (λ r, rv_server r = server ∧ rv_scope r = scope) l.

Definition with_revision_status (st : RevisionStatus) (id : Z) (l : list Revision) : list Revision :=
  (λ r, if decide (rv_id r = id) then mkRevision (rv_id r) (rv_server r) (rv_scope r) (rv_content r) st
        else r) <$> l.

Section Apply.
Context `{Surroundings}.

(** [CreateProxyRevision] *)
Definition CreateProxyRevision (server : Z) (scope content : string) : M Site Z :=
  sql (λ t, let id := next_revision (t_revisions t) in
            (set_revisions t (mkRevision id server scope content RevGenerated :: t_revisions t), inr id)).
(** [MarkProxyRevisionApplied], [MarkProxyRevisionFailed], [MarkProxyRevisionRolledBack] *)
Definition MarkProxyRevision (st : RevisionStatus) (id : Z) : M Site () :=
  sql (λ t, (set_revisions t (with_revision_status st id (t_revisions t)), inr ())).
Definition GetLastAppliedProxyRevision (server : Z) (scope : string) : M Site Revision :=
  sql (λ t, (t, match last_applied server scope (t_revisions t) with
                | Some r => inr r | None => inl NoRows end)).

(** ** [ProxyApplier] *)

Definition services_command : list string := ["wget"; "-qO-"; "http://127.0.0.1:8080/api/http/services"].
Definition dynamic_path (uuid : string) : string := "/var/lib/akerdock/proxy/dynamic/" +:+ uuid +:+ ".yaml".

(** [upload] *)
Definition upload (uuid content : string) : M Site () :=
  if decide (content = "") then ask (RemoveFile (dynamic_path uuid))
  else
    _ ← ignore (ask (Other Target "connect the proxy to the network"));
    ask (WriteFile (dynamic_path uuid) content).

(** The proxy's answer shows the routing. *)
Definition exposed (uuid content expect out : string) : bool :=
  if decide (content = "") then negb (contains_sub uuid out)
  else contains_sub uuid out && (bool_decide (expect = "") || contains_sub expect out).

(** [verify]; the wait between two polls ends early when the context does. *)
Fixpoint verify (polls : nat) (uuid content expect : string) : M Site () :=
  match polls with
  | O => throw (Failure "the proxy did not load the routing")
  | S polls' =>
      r ← attempt (ask (Exec proxy_container services_command));
      let again := _ ← fallible; verify polls' uuid content expect in
      match r with
      | inr (out, code) =>
          if bool_decide (code = 0) && exposed uuid content expect out then mret () else again
      | inl _ => again
      end
  end.

(** The end of [Apply] when the file could not be written or verified. *)
Definition roll_back (server : Z) (uuid : string) (rev : Z) : M Site () :=
  _ ← ignore (MarkProxyRevision RevFailed rev);
  previous ← attempt (GetLastAppliedProxyRevision server uuid);
  match previous with
  | inl _ =>
      _ ← ignore (upload uuid "");
      throw (Failure "proxy apply failed and no previous revision exists")
  | inr p =>
      back ← attempt (upload uuid (rv_content p));
      match back with
      | inl _ => throw (Failure "proxy apply failed AND rollback failed")
      | inr _ =>
          _ ← ignore (MarkProxyRevision RevRolledBack rev);
          throw (Failure "proxy apply failed, routing rolled back")
      end
  end.

(** [Apply] *)
Definition Apply (polls : nat) (server : Z) (uuid content expect : string) : M Site () :=
  rev ← CreateProxyRevision server uuid content;
  applied ← attempt (_ ← upload uuid content; verify polls uuid content expect);
  match applied with
  | inr _ => MarkProxyRevision RevApplied rev
  | inl _ => roll_back server uuid rev
  end.

(** ** What the log shows *)

(** A call that only routing makes. *)
Definition routing_call (uuid : string) (e : event) : Prop :=
  match e with
  | Called (Exec c _) _ => c = proxy_container
  | Called (Other _ _) _ => True
  | Called (WriteFile p _) _ | Called (RemoveFile p) _ => p = dynamic_path uuid
  | _ => False
  end.

Lemma upload_keeps uuid content : keeps (grows (routing_call uuid)) (upload uuid content).
Proof. unfold upload. keep; by apply keeps_ask. Qed.

Lemma verify_keeps polls uuid content expect : keeps (grows (routing_call uuid)) (verify polls uuid content expect).
Proof. induction polls as [|polls IH]; simpl; keep; try apply IH. by apply keeps_ask. Qed.

Lemma Mark_keeps P st id : keeps (grows P) (MarkProxyRevision st id).
Proof. apply keeps_sql. Qed.

Lemma roll_back_keeps server uuid rev : keeps (grows (routing_call uuid)) (roll_back server uuid rev).
Proof. unfold roll_back. keep; apply Mark_keeps || apply upload_keeps || apply keeps_sql. Qed.

Lemma Apply_keeps polls server uuid content expect :
  keeps (grows (routing_call uuid)) (Apply polls server uuid content expect).
Proof.
  unfold Apply. keep; apply upload_keeps || apply verify_keeps || apply roll_back_keeps || apply keeps_sql.
Qed.

(** The proxy was seen to expose the endpoint. *)
Definition shown (uuid content expect : string) (l : list event) : Prop :=
  ∃ out, exposed uuid content expect out = true ∧
         Called (Exec proxy_container services_command) (inr (out, 0)) ∈ l.

Lemma shown_grows P uuid content expect s s' :
  grows P s s' → shown uuid content expect (s_log s) → shown uuid content expect (s_log s').
Proof. intros HG (out & He & Hin). exists out. split; [done|]. by eapply grows_elem. Qed.

(** On success. *)
Definition if_ok {A} (Q : A → Site → Prop) (r : err + A) (s : Site) : Prop :=
  match r with inr a => Q a s | inl _ => True end.

(** What the log shows besides [base], the log of an earlier moment. *)
Definition after (base : list event) (B : list event → Prop) (l : list event) : Prop :=
  ∃ later, l = later ++ base ∧ B later.

Lemma after_grows P base (B : list event → Prop) s s' :
  (∀ e l, B l → B (e :: l)) → grows P s s' → after base B (s_log s) → after base B (s_log s').
Proof.
  intros HB (l & -> & _) (later & -> & Hl). exists (l ++ later). split; [by rewrite (assoc_L (++))|].
  induction l as [|e l IH]; [done|]. by apply HB.
Qed.
Lemma after_nil B l : after [] B l → B l.
Proof. intros (later & -> & Hl). by rewrite (right_id_L [] (++)). Qed.
Lemma shown_more uuid content expect e l : shown uuid content expect l → shown uuid content expect (e :: l).
Proof. intros (out & He & Hin). exists out. split; [done|by right]. Qed.

(** The proxy answered that it has the routes of a scope, with the address among
    its servers. *)
Definition served (uuid ip : string) (l : list event) : Prop :=
  ∃ out, Called (Exec proxy_container services_command) (inr (out, 0)) ∈ l ∧
    contains_sub uuid out = true ∧ contains_sub ("http://" +:+ ip +:+ ":") out = true.
Lemma served_more uuid ip e l : served uuid ip l → served uuid ip (e :: l).
Proof. intros (out & Hin & Ho). exists out. split; [by right|done]. Qed.
Lemma shown_served uuid content ip l : content ≠ "" → shown uuid content ("http://" +:+ ip +:+ ":") l → served uuid ip l.
Proof.
  intros Hc (out & He & Hin). exists out. split; [done|]. unfold exposed in He. rewrite decide_False in He by done.
  by apply andb_true_iff in He as [? [?%bool_decide_eq_true|?]%orb_true_iff].
Qed.

(** What a check finds, it sees itself. *)
Lemma verify_shown_after base polls uuid content expect s :
  base `suffix_of` s_log s →
  wp (verify polls uuid content expect) (if_ok (λ _ s', after base (shown uuid content expect) (s_log s'))) s.
Proof.
  revert s. induction polls as [|polls IH]; intros s Hb; simpl; [by apply wp_throw|].
  assert (HA : ∀ s, base `suffix_of` s_log s → wp (_ ← fallible; verify polls uuid content expect)
    (if_ok (λ _ s', after base (shown uuid content expect) (s_log s'))) s).
  { intros s' Hs'. apply wp_bind, wp_query; [done|]. by apply IH. }
  apply wp_bind, wp_attempt, wp_ask. intros [e|[out code]] o; [by apply HA, suffix_cons_r|].
  destruct (bool_decide (code = 0)) eqn:Hc; [|by apply HA, suffix_cons_r].
  destruct (exposed uuid content expect out) eqn:He; [|by apply HA, suffix_cons_r].
  apply bool_decide_eq_true in Hc. subst. apply wp_ret. destruct Hb as [l Hl]. eexists (_ :: l).
  split; [simpl; by rewrite Hl|]. exists out. split; [done|]. by left.
Qed.
Lemma verify_shown polls uuid content expect s :
  wp (verify polls uuid content expect) (if_ok (λ _ s', shown uuid content expect (s_log s'))) s.
Proof.
  eapply wp_mono; [|apply (verify_shown_after []), suffix_nil]. intros [e|u] s'; [done|]. apply after_nil.
Qed.

Lemma roll_back_fails server uuid rev Q s : wp (roll_back server uuid rev) (if_ok Q) s.
Proof.
  assert (HI : ∀ {A} (m : M Site A) e s, wp (_ ← ignore m; throw (A := ()) e) (if_ok Q) s).
  { intros A m e s'. apply wp_bind, wp_ignore. intros fs. destruct (m fs s') as [r [fs' s2]]. by apply wp_throw. }
  unfold roll_back. apply wp_bind, wp_ignore, wp_sql. intros _ o t.
  apply wp_bind, wp_attempt, wp_sql. intros [e|p] o' t'; [apply HI|].
  apply wp_bind, wp_attempt. eapply wp_mono; [|apply upload_keeps]. intros [e|u] s' _; [by apply wp_throw|apply HI].
Qed.

Lemma Apply_shown base polls server uuid content expect s :
  base `suffix_of` s_log s →
  wp (Apply polls server uuid content expect) (if_ok (λ _ s', after base (shown uuid content expect) (s_log s'))) s.
Proof.
  intros Hb. unfold Apply. apply wp_bind, wp_sql. intros [e|rev] o t; [done|].
  apply wp_bind, wp_attempt, wp_bind. eapply wp_mono; [|apply upload_keeps].
  intros [e|u] s1 (l & Hl & _); [apply roll_back_fails|]. simpl in Hl.
  eapply wp_mono; [|apply (verify_shown_after base); rewrite Hl; by apply suffix_app_r].
  intros [e|u'] s2 Hs2; [apply roll_back_fails|]. apply wp_sql. by intros [] o2 t2.
Qed.

(** ** The file on the server

    With a database that answers, the file is what the outcome says it is. *)

(** What the file of a content is. *)
Definition written (content : string) : option string := if decide (content = "") then None else Some content.

(** What the far side promises of the file: a write and a removal happen as a
    whole or not at all, an answered one happened, and nothing else touches it;
    the other workers leave the file and the revisions of this scope alone. *)
Class ProxyFile (server : Z) (uuid : string) := {
  file : outside → option string;
  file_write c o o' a : reply (WriteFile (dynamic_path uuid) c) o = (o', a) →
    file o' = Some c ∨ (file o' = file o ∧ a ≠ Answer ());
  file_remove o o' a : reply (RemoveFile (dynamic_path uuid)) o = (o', a) →
    file o' = None ∨ (file o' = file o ∧ a ≠ Answer ());
  file_exec argv o o' a : reply (Exec proxy_container argv) o = (o', a) → file o' = file o;
  file_other on what o o' a : reply (Other on what) o = (o', a) → file o' = file o;
  file_others o t o' t' : others o t = (o', t') → file o' = file o ∧
    of_scope server uuid (t_revisions t') = of_scope server uuid (t_revisions t)
}.

Section File.
Context `{!ProxyFile server uuid}.

Lemma upload_file content s :
  steady (upload uuid content) (λ r s', s_tables s' = s_tables s ∧
    (file (s_out s') = written content ∨ (file (s_out s') = file (s_out s) ∧ r ≠ inr ()))) s.
Proof.
  unfold upload, written. case_decide as Hc.
  - apply steady_ask. intros o a Ho. split; [done|]. simpl.
    destruct (file_remove _ _ _ Ho) as [?|[? Ha]]; [by left|right]. split; [done|].
    intros Hr. apply Ha. by destruct a as [[]| |].
  - apply steady_bind, steady_ignore, steady_ask. intros o a Ho. apply file_other in Ho.
    apply steady_ask. intros o' a' Ho'. split; [done|]. simpl in *.
    destruct (file_write _ _ _ _ Ho') as [?|[Hf Ha]]; [by left|right]. split; [by rewrite Hf|].
    intros Hr. apply Ha. by destruct a' as [[]| |].
Qed.

Lemma verify_file polls content expect s :
  steady (verify polls uuid content expect) (λ r s', s_tables s' = s_tables s ∧
    file (s_out s') = file (s_out s)) s.
Proof.
  revert s. induction polls as [|polls IH]; intros s; simpl; [by apply steady_throw|].
  assert (HA : ∀ s', s_tables s' = s_tables s → file (s_out s') = file (s_out s) →
    steady (_ ← fallible; verify polls uuid content expect)
      (λ r s', s_tables s' = s_tables s ∧ file (s_out s') = file (s_out s)) s').
  { intros s' Ht Hf. apply steady_bind, steady_fallible. rewrite <- Ht, <- Hf. apply IH. }
  apply steady_bind, steady_attempt, steady_ask. intros o a Ho. apply file_exec in Ho.
  destruct (seen a) as [e|[out code]]; [by apply HA|].
  case_match; [by apply steady_ret|by apply HA].
Qed.
End File.
End Apply.

(** ** The revisions of a scope *)

Lemma last_applied_scope server scope l k :
  of_scope server scope l = of_scope server scope k → last_applied server scope l = last_applied server scope k.
Proof.
  assert (HL : ∀ l, last_applied server scope l =
    head (filter (λ r, applied_at server scope r = true) (of_scope server scope l))).
  { intros m. unfold last_applied, of_scope. rewrite list_filter_filter_l; [done|].
    intros r Hr. apply bool_decide_eq_true in Hr. naive_solver. }
  intros Hlk. by rewrite !HL, Hlk.
Qed.

Lemma next_revision_fresh l : Forall (λ r, rv_id r < next_revision l) l.
Proof.
  assert (HM : ∀ r, r ∈ l → rv_id r <= foldr (λ r n, rv_id r `max` n) 0 l).
  { induction l as [|x l IH]; intros r Hr; [by apply elem_of_nil in Hr|].
    apply elem_of_cons in Hr as [->|Hr]; simpl; [lia|]. specialize (IH r Hr). lia. }
  apply Forall_forall. intros r Hr. specialize (HM r Hr). unfold next_revision. lia.
Qed.

Lemma filter_fmap_keep {A} (P : A → Prop) `{∀ x, Decision (P x)} (f : A → A) (l : list A) :
  (∀ x, P (f x) ↔ P x) → filter P (f <$> l) = f <$> filter P l.
Proof.
  intros Hf. induction l as [|x l IH]; [done|]. rewrite fmap_cons.
  destruct (decide (P x)) as [HP|HP].
  - rewrite filter_cons_True by (by apply Hf). rewrite IH, (filter_cons_True P) by done. done.
  - rewrite filter_cons_False by (by rewrite Hf). rewrite IH, (filter_cons_False P) by done. done.
Qed.

Lemma of_scope_status server scope st id l :
  of_scope server scope (with_revision_status st id l) = with_revision_status st id (of_scope server scope l).
Proof.
  apply filter_fmap_keep. intros r. by case_decide.
Qed.

(** What becomes of the last applied revision when a new one is inserted, and
    when its outcome is recorded. *)
Section Rows.
Context (server : Z) (scope content : string) (before : list Revision).

Definition fresh (st : RevisionStatus) : Revision := mkRevision (next_revision before) server scope content st.
Definition rows_are (st : RevisionStatus) (rows : list Revision) : Prop :=
  of_scope server scope rows = fresh st :: of_scope server scope before.

Lemma rows_inserted : rows_are RevGenerated (fresh RevGenerated :: before).
Proof. unfold rows_are, of_scope. by rewrite filter_cons_True. Qed.

Lemma rows_same st rows rows' :
  rows_are st rows → of_scope server scope rows' = of_scope server scope rows → rows_are st rows'.
Proof. unfold rows_are. congruence. Qed.

Lemma rows_marked st st' rows :
  rows_are st rows → rows_are st' (with_revision_status st' (next_revision before) rows).
Proof.
  unfold rows_are. intros Hr. rewrite of_scope_status, Hr. simpl. rewrite decide_True by done. f_equal.
  change (with_revision_status st' (next_revision before) (of_scope server scope before) = of_scope server scope before).
  rewrite <- of_scope_status. f_equal.
  transitivity (id <$> before); [|apply list_fmap_id]. apply list_fmap_ext. intros i r Hi.
  apply list_elem_of_lookup_2 in Hi. pose proof (next_revision_fresh before) as HF. rewrite Forall_forall in HF.
  specialize (HF r Hi). case_decide; [lia|done].
Qed.

Lemma rows_last st rows : rows_are st rows → last_applied server scope rows =
  if decide (st = RevApplied) then Some (fresh RevApplied) else last_applied server scope before.
Proof.
  intros Hr. rewrite (last_applied_scope _ _ _ (fresh st :: before)).
  2: { rewrite Hr. unfold of_scope. by rewrite filter_cons_True. }
  unfold last_applied. rewrite filter_cons. unfold applied_at at 1. simpl.
  repeat case_decide; try naive_solver; rewrite bool_decide_eq_true in *; naive_solver.
Qed.
End Rows.

(** ** The contract of [Apply] *)

Section Contract.
Context `{Surroundings} {server : Z} {uuid : string} `{!ProxyFile server uuid}.

(** A statement on the revisions, between what the others do. *)
Lemma steady_rows {A} (f : Tables → Tables * (err + A)) content before st Q s :
  rows_are server uuid content before st (t_revisions (s_tables s)) →
  (∀ t o, rows_are server uuid content before st (t_revisions t) → file o = file (s_out s) →
     Q (snd (f t)) (mkSite o (fst (f t)) (s_memory s) (s_log s))) → steady (sql f) Q s.
Proof.
  intros Hr HQ. apply steady_sql. intros o t Ho. destruct (file_others _ _ _ _ Ho) as [Hf Hs].
  apply HQ; [|done]. by eapply rows_same.
Qed.

Lemma roll_back_file content before st p s :
  rows_are server uuid content before st (t_revisions (s_tables s)) → st ≠ RevApplied →
  last_applied server uuid before = Some p →
  steady (roll_back server uuid (next_revision before)) (λ r s',
    last_applied server uuid (t_revisions (s_tables s')) = Some p ∧
    (file (s_out s') = written (rv_content p) ∨
     (file (s_out s') = file (s_out s) ∧ r = inl (Failure "proxy apply failed AND rollback failed")))) s.
Proof.
  intros Hr Hst Hp. unfold roll_back.
  assert (HL : ∀ st rows, rows_are server uuid content before st rows → st ≠ RevApplied →
    last_applied server uuid rows = Some p).
  { intros st' rows Hr' Hn. by rewrite (rows_last _ _ _ _ _ _ Hr'), decide_False. }
  eapply steady_bind, steady_ignore, steady_rows; [done|]. intros t o Ht Hf. simpl.
  apply (rows_marked _ _ _ _ _ RevFailed) in Ht.
  eapply steady_bind, steady_attempt, steady_rows; [done|]. clear Ht. intros t2 o2 Ht Hf2. simpl in *.
  rewrite (HL _ _ Ht) by done.
  eapply steady_bind, steady_attempt, steady_mono, upload_file. simpl. intros r s' [Hs' Hu].
  destruct r as [e|[]].
  { apply steady_throw. rewrite Hs'. simpl. split; [by eapply HL|].
    destruct Hu as [?|[Hu _]]; [by left|right]. split; [|done]. by rewrite Hu, Hf2, Hf. }
  destruct Hu as [Hu|[_ Hu]]; [|done].
  eapply steady_bind, steady_ignore, steady_rows; [by rewrite Hs'|]. intros t3 o3 Ht3 Hf3.
  apply steady_throw. simpl. split; [|left; by rewrite Hf3].
  eapply (HL RevRolledBack); [|done]. by eapply rows_marked.
Qed.

(** What [Apply] leaves behind, when [p] was the last applied revision. *)
Definition apply_post (content expect : string) (p : Revision) (r : err + ()) (s' : Site) : Prop :=
  match r with
  | inr _ => file (s_out s') = written content ∧ shown uuid content expect (s_log s') ∧
      rv_content <$> last_applied server uuid (t_revisions (s_tables s')) = Some content
  | inl e => last_applied server uuid (t_revisions (s_tables s')) = Some p ∧
      (file (s_out s') = written (rv_content p) ∨
       (e = Failure "proxy apply failed AND rollback failed" ∧ file (s_out s') = written content))
  end.

Lemma roll_back_post content expect before p s :
  t_revisions (s_tables s) = fresh server uuid content before RevGenerated :: before →
  last_applied server uuid before = Some p →
  (file (s_out s) = written content ∨ file (s_out s) = written (rv_content p)) →
  steady (roll_back server uuid (next_revision before)) (apply_post content expect p) s.
Proof.
  intros Hs Hp Hf1.
  destruct (roll_back_file content before RevGenerated p s) as (r & s' & Hrun & Hl & Hf);
    [rewrite Hs; apply rows_inserted|done|done|].
  exists r, s'. split; [done|].
  pose proof (roll_back_fails server uuid (next_revision before) (λ _ _, False) s []) as Hno.
  rewrite Hrun in Hno. destruct r as [e|[]]; [|done]. split; [done|].
  destruct Hf as [?|[Hf [= ->]]]; [by left|]. destruct Hf1 as [Hf1|Hf1]; [right|left]; by rewrite Hf.
Qed.

(** C10: on a database that answers, applying a routing file is atomic.  When
    it succeeds the file holds the new content, the proxy was seen to expose it,
    and the revision is the last applied one; when it fails, whatever the server
    answered, the last applied revision is unchanged and the file holds it again,
    unless the error says that writing it back failed too — and then the file
    still holds it or holds the new content, never something else. *)
Theorem Apply_atomic polls content expect p s :
  last_applied server uuid (t_revisions (s_tables s)) = Some p →
  file (s_out s) = written (rv_content p) →
  steady (Apply polls server uuid content expect) (apply_post content expect p) s.
Proof.
  intros Hp Hfile. unfold Apply.
  apply steady_bind, steady_sql. intros o t Ho. destruct (file_others _ _ _ _ Ho) as [Hf Hs]. simpl.
  rewrite (last_applied_scope _ _ _ (t_revisions t)) in Hp by done. rewrite <- Hf in Hfile. clear Hf Hs Ho.
  apply steady_bind, steady_attempt, steady_bind. eapply steady_mono, upload_file. simpl. intros r s1 [Hs1 Hu].
  destruct r as [e|[]].
  { apply roll_back_post; [by rewrite Hs1|done|]. destruct Hu as [?|[-> _]]; [by left|right]. done. }
  destruct Hu as [Hu|[_ Hu]]; [|done].
  destruct (verify_file polls content expect s1) as (r & s2 & Hrun & Hs2 & Hf2).
  pose proof (verify_shown polls uuid content expect s1 []) as Hshown. rewrite Hrun in Hshown.
  exists r, s2. split; [done|]. destruct r as [e|u].
  { apply roll_back_post; [by rewrite Hs2, Hs1|done|left; by rewrite Hf2]. }
  eapply (steady_rows _ content (t_revisions t) RevGenerated); [rewrite Hs2, Hs1; apply rows_inserted|].
  intros t3 o3 Ht3 Hf3. simpl. rewrite Hf3, Hf2. split; [done|]. split; [done|].
  apply (rows_marked _ _ _ _ _ RevApplied) in Ht3. by rewrite (rows_last _ _ _ _ _ _ Ht3).
Qed.
End Contract.

(** ** On a server that behaves as documented *)

#[export] Instance documented_file (S : Surroundings) `{!Documented S} (server : Z) (uuid : string) :
  ProxyFile server uuid.
Proof.
  refine {| file := λ o, dm_files (view o) !! dynamic_path uuid |}.
  - intros c o o' a Ho. left. destruct (view_reply (WriteFile (dynamic_path uuid) c) o) as [Hv _].
    rewrite Ho in Hv. simpl in Hv. rewrite Hv. apply lookup_insert_eq.
  - intros o o' a Ho. left. destruct (view_reply (RemoveFile (dynamic_path uuid)) o) as [Hv _].
    rewrite Ho in Hv. simpl in Hv. rewrite Hv. apply lookup_delete_eq.
  - intros argv o o' a Ho. destruct (view_reply (Exec proxy_container argv) o) as [Hv _].
    rewrite Ho in Hv. simpl in Hv. by rewrite Hv.
  - intros on what o o' a Ho. destruct (view_reply (Other on what) o) as [Hv _].
    rewrite Ho in Hv. simpl in Hv. by rewrite Hv.
  - intros o t o' t' Ho. destruct (view_others o t) as [Hv Ht]. rewrite Ho in Hv, Ht. simpl in *.
    by rewrite Hv, Ht.
Defined.

Definition no_jobs : World :=
  mkWorld 0 (λ _, "") (mkDB ∅ 1) ∅ ∅ ∅ ∅ ∅ ∅ ∅ ∅ 1 ∅ 1 ∅ 1 ∅ ∅ ∅.
Definition blank : Memory := mkMemory false "" None None.

(** The application "a" is routed to its container by revision 1. *)
Definition routed_server : @Site alone :=
  @mkSite alone
    (mkDaemon ∅ {[ dynamic_path "a" := "a-s0: http://a:80" ]} (λ _, None) "10.0.0.7" (λ _, ("", 0)))
    (mkTables no_jobs [mkRevision 1 1 "a" "a-s0: http://a:80" RevApplied] [] ∅ ∅) blank [].

Lemma Apply_atomic_witness :
  (** the new file is loaded *)
  steady (Apply 3 1 "a" "a-s0: http://10.0.0.7:80" "http://10.0.0.7:")
    (apply_post (server := 1) (uuid := "a") "a-s0: http://10.0.0.7:80" "http://10.0.0.7:"
       (mkRevision 1 1 "a" "a-s0: http://a:80" RevApplied)) routed_server ∧
  (** one that never shows the endpoint is taken back *)
  eval (Apply 3 1 "a" "a-s0: http://waker:80" "http://10.0.0.7:") routed_server =
    (inl (Failure "proxy apply failed, routing rolled back"),
     snd (eval (Apply 3 1 "a" "a-s0: http://waker:80" "http://10.0.0.7:") routed_server)) ∧
  dm_files (s_out (snd (eval (Apply 3 1 "a" "a-s0: http://waker:80" "http://10.0.0.7:") routed_server)))
    !! dynamic_path "a" = Some "a-s0: http://a:80".
Proof.
  split; [|by vm_compute].
  apply (@Apply_atomic alone 1 "a" (documented_file alone 1 "a")); reflexivity.
Defined.

(** An error of any kind in reading the last applied revision removes the
    routing file, though there is one: here the write and the read are refused. *)
Lemma unreadable_revisions_remove_the_file :
  let '(r, (_, s)) := Apply 1 1 "a" "a-s0: http://10.0.0.7:80" ""
                        [Applied; Applied; Refused; Applied; Refused] routed_server in
  rv_content <$> last_applied 1 "a" (t_revisions (s_tables s)) = Some "a-s0: http://a:80" ∧
  dm_files (s_out s) !! dynamic_path "a" = None.
Proof. by vm_compute. Qed.

(** A failure to record the outcome is reported as a failed apply, with the new
    file in place and in use. *)
Lemma unrecorded_apply_stays :
  let '(r, (_, s)) := Apply 1 1 "a" "a-s0: http://10.0.0.7:80" "http://10.0.0.7:"
                        [Applied; Applied; Applied; Applied; Refused] routed_server in
  r = inl Broken ∧ dm_files (s_out s) !! dynamic_path "a" = Some "a-s0: http://10.0.0.7:80" ∧
  rv_content <$> last_applied 1 "a" (t_revisions (s_tables s)) = Some "a-s0: http://a:80".
Proof. by vm_compute. Qed.
