(* ===== verification/DeployBuild.v ===== *)
(** * Deployments: building the image

    Models the first half of [internal/jobs/deploymentrun.go]: the state of a
    run, its statements, steps, checkpoints and status writes, the build server,
    and the build of an image from its sources or its push through a registry.
    A run of a single container is modelled; a compose stack has a pipeline of
    its own ([composedeploy.go]).  The rows read once and never written by the
    run are the fields of [Config]. *)
From stdpp Require Import pretty.
From S2P Require Import Prelude GoLib Queue Effects ControlDB Host AccessRoute ProxyRoutes.
Local Open Scope Z_scope.

(** ** What a run is given *)

(** [store.BuildPack], compose excepted *)
Inductive BuildPack := PackImage | PackDockerfile | PackStatic | PackNixpacks.
#[export] Instance BuildPack_eq_dec : EqDecision BuildPack.
Proof. solve_decision. Defined.

(** A git source: public, with a deploy key, or of a GitHub App and the token it
    mints. *)
Inductive Credential := Anonymous | DeployKey (pem : string) | GithubApp (installed : bool) (token : string).

(** [store.PreviewProtection] *)
Inductive Protection := ProtectNone | ProtectBasicAuth | ProtectSso.
#[export] Instance Protection_eq_dec : EqDecision Protection.
Proof. solve_decision. Defined.

(** [adoption.Pointer] *)
Record Pointer := mkPointer { pt_container : string; pt_project : string }.
(** [adoption.ContainerName], of a pointer that [ParsePointer] accepts *)
Definition ContainerName (adoption : option Pointer) (fallback : string) : string :=
  match adoption with
  | Some p => if decide (pt_container p ≠ "") then pt_container p else fallback
  | None => fallback
  end.

Record Config := mkConfig {
  (** the deployment and its job *)
  c_id : Z; c_job : Z; c_uuid : string; c_rollback : bool; c_skip_build : bool; c_force : bool;
  c_image : option string; c_tag : option string; c_digest : option string;
  (** the resource, its server and their settings *)
  c_resource : string; c_resource_id : Z; c_adoption : option Pointer; c_server : Z; c_network : string; c_traefik : bool;
  c_pack : BuildPack; c_git_url : option string; c_git_branch : option string; c_base_dir : string;
  c_source : option Credential; c_dockerfile : option string; c_dockerfile_path : option string;
  c_publish_dir : option string; c_registry_credential : bool; c_push_registry : option string;
  c_health_check : option bool; c_pre_command : option string; c_post_command : option string; c_memory_ok : bool;
  c_scale_to_zero : bool; c_preview_scale_to_zero : bool; c_agent_image : string;
  (** its routes, and the access policy of production and of the preview *)
  c_routes : list ProxyRoutes.Route; c_force_https : bool; c_noindex : bool;
  c_wildcard : string; c_dns_provider : string; c_access : option AccessPolicy;
  c_public_routes : list AccessRoute.Route; c_preview_port : Z; c_protection : Protection; c_auth_hash : string;
  (** the instance: its name, whether the server hosts it, its published port *)
  c_fqdn : option string; c_localhost : bool; c_control_port : Z;
  (** build servers of the team with their architecture, and the number drawn *)
  c_use_build_server : bool; c_build_servers : list (Z * option string); c_architecture : option string; c_random : Z;
  (** the retention of images, the turns the clock allows to the waits *)
  c_retention : Z; c_waits : nat; c_health_polls : nat; c_verify_polls : nat;
  (** the team, which labels the containers *)
  c_team : string
}.

(** A [deploymentRun]: the status its row had when it was read, and its preview. *)
Record Deploy := mkDeploy { r_config : Config; r_status : DeploymentStatus; r_preview : option Preview }.

(** [namingIdentity] *)
Definition namingIdentity (r : Deploy) : string :=
  match r_preview r with Some p => p_uuid p | None => c_resource (r_config r) end.
(** The names [execute] derives. *)
Definition candidate_name (r : Deploy) : string := namingIdentity r +:+ "-next".
Definition old_name (r : Deploy) : string :=
  match r_preview r with
  | Some p => p_uuid p
  | None => ContainerName (c_adoption (r_config r)) (c_resource (r_config r))
  end.
(** A service is a compose stack: the directory is an application's or a preview's *)
Definition app_dir (r : Deploy) : string :=
  (match r_preview r with
   | Some _ => "/var/lib/akerdock/previews/"
   | None => "/var/lib/akerdock/applications/"
   end) +:+ namingIdentity r.

(** [reusesArtifact] *)
Definition reusesArtifact (r : Deploy) : bool := c_rollback (r_config r) || c_skip_build (r_config r).

(** Whether the run builds elsewhere, and where: [bc], [bcrt], [bhostops]. *)
Definition builds_elsewhere (r : Deploy) : bool :=
  c_use_build_server (r_config r) && negb (bool_decide (c_pack (r_config r) = PackImage)) && negb (reusesArtifact r).
Definition bc (r : Deploy) : machine := if builds_elsewhere r then Builder else Target.

(** [shellQuote] *)
Definition quote : ascii := "'".
Fixpoint escape_quotes (v : string) : string :=
  match v with
  | EmptyString => EmptyString
  | String a v' => (if decide (a = quote) then "'\''" else String a "") +:+ escape_quotes v'
  end.
Definition shellQuote (v : string) : string := String quote (escape_quotes v +:+ String quote "").

(** [firstLine] *)
Definition newline : ascii := "010".
Definition firstLine (s : string) : string :=
  match cut newline s with Some (line, _) => line | None => s end.

(** [sha[:12]] panics on a shorter one *)
Definition first12 (s : string) : option string :=
  if decide (12 <= Z.of_nat (String.length s)) then Some (String.substring 0 12 s) else None.

(** [strings.ReplaceAll(s, "-", "")] *)
Fixpoint no_dashes (s : string) : string :=
  match s with
  | EmptyString => EmptyString
  | String a s' => if decide (a = "-"%char) then no_dashes s' else String a (no_dashes s')
  end.

(** [pushedDigest] *)
Definition pushedDigest (repoDigests : list string) (remoteRepo : string) : string :=
  match filter (λ d, has_prefix d (remoteRepo +:+ "@") = true) repoDigests with
  | d :: _ => d
  | [] => match repoDigests with d :: _ => d | [] => "" end
  end.

(** [randIndex] *)
Definition randIndex (n : nat) (random : Z) : nat :=
  if decide (n <= 1)%nat then 0%nat else Z.to_nat (random `mod` Z.of_nat n).

(** ** Errors *)

Definition errCancelled : err := Failure "deployment cancelled".
Definition status_name (st : DeploymentStatus) : string :=
  match st with
  | SQueued => "queued" | SPreparing => "preparing" | SCloning => "cloning" | SBuilding => "building"
  | SPushing => "pushing" | SStarting => "starting" | SHealthchecking => "healthchecking"
  | SSwitching => "switching" | SFinishing => "finishing" | SSucceeded => "succeeded"
  | SFailed => "failed" | SCancelled => "cancelled" | SRetrying => "retrying" | SSuperseded => "superseded"
  end.
(** [deploymentStateChangedError] *)
Definition state_changed (st : DeploymentStatus) : err :=
  Failure ("deployment is no longer queued: " +:+ status_name st).
(** a runtime panic, which no handler catches *)
Definition panic : err := Failure "panic: slice bounds out of range".

(** ** Statements *)

(** A job of type server.cleanup of the server is leased or running. *)
Definition cleanup_running (w : World) (server : Z) : bool :=
  bool_decide (map_Exists (λ i j, job_type j = "server.cleanup" ∧ active j = true ∧
    w_payloads w !! i = Some (PServerCleanup server)) (jobs (w_queue w))).

Definition with_deployment_status (st : DeploymentStatus) (d : Deployment) : Deployment :=
  mkDeployment (d_id d) (d_resource d) (d_trigger d) (d_server d) (d_preview d) (d_commit d) (d_force d) st
    (d_superseded_by d).
Definition write_status (id : Z) (st : DeploymentStatus) (w : World) : World :=
  set_deployments w (alter (with_deployment_status st) id (w_deployments w)) (w_deployment_next w).

Definition StartDeployment (id : Z) (w : World) : World * bool :=
  match w_deployments w !! id with
  | Some d => if bool_decide (d_status d = SQueued) && negb (cleanup_running w (d_server d))
              then (write_status id SPreparing w, true) else (w, false)
  | None => (w, false)
  end.

Definition AssignBuilder (id server : Z) (t : Tables) : Tables * bool :=
  if cleanup_running (t_world t) server || negb (bool_decide (is_Some (w_deployments (t_world t) !! id)))
  then (t, false) else (set_builders t (<[ id := server ]> (t_builders t)), true).

Section Build.
Context `{Surroundings} (r : Deploy).
Let c := r_config r.

(** [StartDeploymentUnlessCleanupRunning]: whether a row was updated. *)
Definition StartDeploymentUnlessCleanupRunning : M Site bool :=
  sql (λ t, let '(w, b) := StartDeployment (c_id c) (t_world t) in (set_world t w, inr b)).
(** [AssignDeploymentBuildServerUnlessCleanupRunning] *)
Definition AssignDeploymentBuildServerUnlessCleanupRunning (server : Z) : M Site bool :=
  sql (λ t, let '(t', b) := AssignBuilder (c_id c) server t in (t', inr b)).
Definition SetDeploymentStatus (st : DeploymentStatus) : M Site () :=
  sql (λ t, (set_world t (write_status (c_id c) st (t_world t)), inr ())).
Definition GetDeploymentStatus : M Site DeploymentStatus :=
  sql (λ t, (t, match w_deployments (t_world t) !! c_id c with Some d => inr (d_status d) | None => inl NoRows end)).
Definition IsJobCancelRequested : M Site bool :=
  sql (λ t, (t, inr (bool_decide (c_job c ∈ w_cancel_requested (t_world t))))).

(** ** Steps, checkpoints, status writes *)

(** [step], [streamStep]: a row before, its outcome after *)
Definition step {A} (m : M Site A) : M Site A :=
  _ ← bookkeeping; deferred bookkeeping m.
(** [skipStep] *)
Definition skipStep : M Site () :=
  opened ← attempt bookkeeping;
  match opened with inr _ => ignore bookkeeping | inl _ => mret () end.

(** [checkpoint] *)
Definition checkpoint : M Site () :=
  cancelled ← attempt IsJobCancelRequested;
  match cancelled with inr true => throw errCancelled | _ => mret () end.

(** The loop of [setStatus] on a queued deployment; the wait ends early when the
    context does. *)
Fixpoint start_when_free (waits : nat) : M Site () :=
  match waits with
  | O => throw Broken
  | S waits' =>
      started ← StartDeploymentUnlessCleanupRunning;
      if (started : bool) then mret ()
      else
        st ← GetDeploymentStatus;
        if decide (st ≠ SQueued) then throw (state_changed st)
        else
          _ ← checkpoint;
          _ ← fallible;
          start_when_free waits'
  end.

(** [setStatus], and the outbox events it publishes without looking at the outcome *)
Definition setStatus (st : DeploymentStatus) : M Site () :=
  _ ← tell (Wrote st);
  _ ← (if decide (st = SPreparing ∧ r_status r = SQueued) then start_when_free (c_waits c)
       else SetDeploymentStatus st);
  _ ← tell (Recorded st);
  ignore bookkeeping.

(** ** The build server *)

(** [reserveBuildServer] *)
Fixpoint reserveBuildServer (waits : nat) (server : Z) : M Site () :=
  match waits with
  | O => throw Broken
  | S waits' =>
      assigned ← AssignDeploymentBuildServerUnlessCleanupRunning server;
      if (assigned : bool) then mret ()
      else
        _ ← checkpoint;
        _ ← fallible;
        reserveBuildServer waits' server
  end.

(** [dialBuildServer] *)
Definition prepare_dir (dir : string) : string :=
  "mkdir -p " +:+ dir +:+ "/env && chmod 700 " +:+ dir +:+ " " +:+ dir +:+ "/env".
Definition dialBuildServer : M Site () :=
  _ ← bookkeeping;
  match c_build_servers c !! randIndex (length (c_build_servers c)) (c_random c) with
  | None => throw (Failure "this application is configured to build on a build server, and none is ready")
  | Some (pick, arch) =>
      if decide (is_Some arch ∧ is_Some (c_architecture c) ∧ arch ≠ c_architecture c)
      then throw (Failure "the image would not run there")
      else
        _ ← reserveBuildServer (c_waits c) pick;
        _ ← ask (Other Builder "dial");
        _ ← ask (Other Builder "runtime");
        _ ← ask (Other Builder "host operations");
        _ ← run Builder (prepare_dir ("/var/lib/akerdock/applications/" +:+ c_resource c));
        mret ()
  end.

(** ** Sources *)

Definition key_path : string := app_dir r +:+ "/keys/" +:+ c_uuid c.
Definition askpass_path : string := app_dir r +:+ "/keys/git_askpass".
Definition build_env_path : string := app_dir r +:+ "/env/build.env".
Definition source_dir : string := app_dir r +:+ "/source/" +:+ c_uuid c.

(** The command that takes a file off the build machine. *)
Definition rm (path : string) : M Site () := _ ← ask (Run (bc r) ("rm -f " +:+ path)); mret ().

(** [installGithubToken]: the environment of git and the cleanup *)
Definition installGithubToken (installed : bool) (token : string) : M Site (string * M Site ()) :=
  _ ← bookkeeping;
  if negb installed then throw (Failure "the GitHub App of this source is not installed")
  else
    _ ← fallible; (** decrypt, sign *)
    _ ← ignore bookkeeping;
    _ ← fallible; (** the token, from GitHub *)
    sent ← attempt (zero_exit (RunInput (bc r)
      ("umask 077 && mkdir -p " +:+ app_dir r +:+ "/keys && cat > " +:+ askpass_path +:+ " && chmod 700 " +:+ askpass_path)
      (shellQuote token)));
    match sent with
    | inr _ => mret ("GIT_TERMINAL_PROMPT=0 GIT_ASKPASS=" +:+ askpass_path +:+ " ", rm askpass_path)
    | inl _ => throw (Failure "uploading the git credential helper failed")
    end.

(** [installDeployKey] *)
Definition installDeployKey : M Site (string * M Site ()) :=
  match c_source c with
  | None => mret ("", mret ())
  | Some source =>
      _ ← bookkeeping;
      match source with
      | Anonymous => mret ("", mret ())
      | GithubApp installed token => installGithubToken installed token
      | DeployKey pem =>
          _ ← bookkeeping;
          _ ← fallible;
          let known_hosts := key_path +:+ ".known_hosts" in
          let cleanup := rm (key_path +:+ " " +:+ known_hosts) in
          sent ← attempt (zero_exit (RunInput (bc r)
            ("mkdir -p " +:+ app_dir r +:+ "/keys && chmod 700 " +:+ app_dir r +:+ "/keys && umask 077 && cat > " +:+ key_path) pem));
          match sent with
          | inl _ => _ ← ignore cleanup; throw (Failure "installing the deploy key failed")
          | inr _ =>
              mret ("GIT_TERMINAL_PROMPT=0 GIT_SSH_COMMAND='ssh -i " +:+ key_path +:+
                    " -o IdentitiesOnly=yes -o StrictHostKeyChecking=accept-new -o UserKnownHostsFile=" +:+
                    known_hosts +:+ "' ", cleanup)
          end
      end
  end.

(** [previewFetchRef] *)
Definition previewFetchRef : string :=
  match r_preview r with
  | None => ""
  | Some p =>
      if decide (p_provider p = "github" ∨ p_provider p = "gitea") then "refs/pull/" +:+ pretty (p_pr p) +:+ "/head"
      else if decide (p_provider p = "gitlab") then "refs/merge-requests/" +:+ pretty (p_pr p) +:+ "/head"
      else ""
  end.

(** The commit to build: the head of the pull request, or of the branch. *)
Definition pinned_sha : option string :=
  sha ← r_preview r ≫= p_sha; if decide (sha = "") then None else Some sha.
Definition before_tab (s : string) : string := match cut "009" s with Some (a, _) => a | None => s end.
Definition resolve_sha (git_env repo branch : string) : M Site string :=
  match pinned_sha with
  | Some sha => _ ← skipStep; _ ← ignore bookkeeping; mret sha
  | None =>
      step (out ← run (bc r) (git_env +:+ "git ls-remote " +:+ shellQuote repo +:+ " refs/heads/" +:+ shellQuote branch);
            let sha := trim_space (before_tab (firstLine out)) in
            if decide (String.length sha = 40%nat) then _ ← ignore bookkeeping; mret sha
            else throw (Failure "branch not found"))
  end.

(** ** Building *)

(** [resolveLocalDigest] *)
Definition set_digest (d : string) (m : Memory) : Memory := mkMemory (m_connected m) d (m_image m) (m_tag m).
Definition set_image (image tag : option string) (m : Memory) : Memory :=
  mkMemory (m_connected m) (m_digest m) image tag.
Definition resolveLocalDigest (ref : string) : M Site () :=
  step (info ← ask (ImageInspect (bc r) ref);
        if decide (im_id info = "") then mret ()
        else _ ← remember (set_digest (im_id info)); ignore bookkeeping).

(** [inheritsSharedScopes], [deploymentRefs] *)
Definition inheritsSharedScopes : bool := match r_preview r with Some p => negb (p_is_fork p) | None => true end.
Definition deploymentRefs : M Site () := if decide (r_preview r = None) then ignore bookkeeping else mret ().
(** [deployEnvVars], [resolveSharedEnv], the references, then the decryption of
    each value: what every renderer of variables begins with *)
Definition read_variables : M Site () :=
  _ ← bookkeeping;
  _ ← (if inheritsSharedScopes then _ ← bookkeeping; fallible else mret ());
  _ ← deploymentRefs;
  fallible.
(** [renderBuildEnv], [renderRuntimeEnv] *)
Definition renderBuildEnv : M Site () := read_variables.
Definition renderRuntimeEnv : M Site () := read_variables.

Definition built (image tag : string) : M Site () :=
  _ ← remember (set_image (Some image) (Some tag)); ignore bookkeeping.

(** [buildFromDockerfile] *)
Definition buildFromDockerfile : M Site string :=
  _ ← skipStep;
  match c_dockerfile c with
  | None | Some "" => throw (Failure "the application has no Dockerfile content")
  | Some content =>
      match first12 (no_dashes (c_uuid c)) with
      | None => throw panic
      | Some tag =>
          let image := "akerdock/" +:+ namingIdentity r in
          let ref := image +:+ ":" +:+ tag in
          _ ← renderBuildEnv;
          _ ← ask (WriteFile (source_dir +:+ "/Dockerfile") content);
          _ ← step (ask (Other (bc r) "build"));
          _ ← built image tag;
          _ ← resolveLocalDigest ref;
          mret ref
      end
  end.

(** [writeStaticDockerfile] *)
Definition work_dir : string := source_dir +:+ "/" +:+ c_base_dir c.
Definition static_dockerfile : string := work_dir +:+ "/.akerdock-static.Dockerfile".
Definition nginx_conf : string := work_dir +:+ "/.akerdock-nginx.conf".
Definition writeStaticDockerfile : M Site () :=
  _ ← ask (WriteFile nginx_conf "nginx");
  ask (WriteFile static_dockerfile "FROM nginx:alpine").

(** [installNixpacks] *)
Definition nixpacks_version : string := "1.38.0".
Definition nixpacks : string := "/var/lib/akerdock/bin/nixpacks".
Definition installNixpacks (on : machine) : M Site () :=
  check ← ask (Run on (nixpacks +:+ " --version 2>/dev/null | awk '{print $2}'"));
  if decide (trim_space (fst check) = nixpacks_version) then mret ()
  else _ ← run on "install nixpacks"; mret ().

(** [buildWithNixpacks]; it installs on [r.client], the deployment server *)
Definition with_env (command : string) : string :=
  "cd " +:+ work_dir +:+ " && set -a && . " +:+ build_env_path +:+ " && set +a && " +:+ command.
Definition buildWithNixpacks (ref sha : string) : M Site () :=
  _ ← step (_ ← installNixpacks Target; run (bc r) (nixpacks +:+ " --version"));
  _ ← step (run (bc r) (with_env (nixpacks +:+ " plan . --format json | tee " +:+ source_dir +:+ "/.nixpacks-plan.json")));
  let publish := default "" (c_publish_dir c) in
  let build_ref := if decide (publish = "") then ref else ref +:+ "-builder" in
  _ ← step (run (bc r) (with_env (nixpacks +:+ " build . --name " +:+ build_ref)));
  if decide (publish = "") then mret ()
  else
    step (_ ← ask (WriteFile nginx_conf "nginx");
          _ ← ask (WriteFile static_dockerfile ("FROM " +:+ build_ref +:+ " AS build"));
          _ ← ask (Other (bc r) "build");
          ignore (ask (ImageRemove build_ref))).

(** [buildFromGit], after the credential is in place *)
Definition fetch_command (git_env repo ref : string) : string :=
  "rm -rf " +:+ source_dir +:+ " && mkdir -p " +:+ source_dir +:+ " && cd " +:+ source_dir +:+
  " && git init -q && git remote add origin " +:+ shellQuote repo +:+ " && " +:+ git_env +:+
  "git fetch -q --depth 1 origin " +:+ shellQuote ref +:+ " && git checkout -q --detach FETCH_HEAD".
Definition checkout (git_env repo branch : string) : M Site string :=
  sha ← resolve_sha git_env repo branch;
  let ref := if decide (previewFetchRef = "") then sha else previewFetchRef in
  _ ← step (run (bc r) (fetch_command git_env repo ref));
  _ ← (if decide (ref = sha) then mret ()
       else step (out ← run (bc r) ("cd " +:+ source_dir +:+ " && git rev-parse HEAD");
                  if decide (firstLine out = sha) then mret () else throw (Failure "the pull request moved")));
  _ ← ignore (_ ← run (bc r) ("cd " +:+ source_dir +:+ " && git log -1 --format='%an%x1f%s'"); ignore bookkeeping);
  mret sha.
Definition build_image (sha : string) : M Site string :=
  _ ← renderBuildEnv;
  match first12 sha with
  | None => throw panic
  | Some sha12 =>
      let image := "akerdock/" +:+ namingIdentity r in
      let image_ref := image +:+ ":" +:+ sha12 in
      _ ← (if decide (c_pack c = PackStatic) then writeStaticDockerfile else mret ());
      _ ← (if decide (c_pack c = PackNixpacks)
           then deferred (rm build_env_path)
                  (_ ← zero_exit (RunInput (bc r) ("umask 077 && cat > " +:+ build_env_path) "build.env");
                   _ ← buildWithNixpacks image_ref sha;
                   _ ← built image sha12;
                   resolveLocalDigest image_ref)
           else
             _ ← step (ask (Other (bc r) "build"));
             _ ← built image sha12;
             resolveLocalDigest image_ref);
      mret image_ref
  end.

Definition build_checkout (git_env repo branch : string) : M Site string :=
  sha ← checkout git_env repo branch;
  _ ← setStatus SBuilding;
  build_image sha.

Definition buildFromGit : M Site string :=
  let branch := match c_git_branch c with Some b => if decide (b = "") then "main" else b | None => "main" end in
  match c_git_url c with
  | None => throw panic
  | Some repo =>
      _ ← setStatus SCloning;
      key ← installDeployKey;
      deferred (snd key) (build_checkout (fst key) repo branch)
  end.

(** [pushBuiltImage] *)
Definition pushBuiltImage : M Site string :=
  match c_push_registry c with
  | None => throw (Failure "no push registry is configured")
  | Some registry =>
      _ ← bookkeeping;
      _ ← fallible;
      m ← recall id;
      match m_image m, m_tag m with
      | Some image, Some tag =>
          let repo := registry +:+ "/" +:+ image in
          let remote := repo +:+ ":" +:+ tag in
          _ ← step (_ ← ask (Other Builder "tag"); _ ← ask (Other Builder "push"); ask (Other Builder "push progress"));
          digest ← step (info ← ask (ImageInspect Builder remote);
                         let d := pushedDigest (im_digests info) repo in
                         if decide (d = "") then throw (Failure "the registry returned no digest") else mret d);
          _ ← step (ask (ImagePull digest));
          _ ← remember (λ m, mkMemory (m_connected m) digest (Some repo) (m_tag m));
          _ ← ignore bookkeeping;
          _ ← ignore bookkeeping;
          mret digest
      | _, _ => throw panic
      end
  end.

(** The artifact of a rollback, or of the running container. *)
Definition at_sign : ascii := "@".
Definition artifact_ref : option string :=
  image ← c_image c;
  match c_digest c with
  | Some d => if contains at_sign d then Some d
              else Some (match c_tag c with Some t => image +:+ ":" +:+ t | None => image end)
  | None => Some (match c_tag c with Some t => image +:+ ":" +:+ t | None => image end)
  end.

(** [verify_artifact] *)
Definition verify_artifact : M Site string :=
  _ ← skipStep;
  match artifact_ref with
  | None => throw panic
  | Some ref =>
      _ ← step (found ← attempt (ask (ImageInspect Target ref));
                match found with
                | inr _ => mret ()
                | inl e => if IsNotFound e then throw (Failure "the image is no longer present") else throw e
                end);
      mret ref
  end.

(** The image build pack *)
Definition pull_image : M Site string :=
  _ ← skipStep;
  match c_image c, c_tag c with
  | Some image, Some tag =>
      let ref := image +:+ ":" +:+ tag in
      _ ← (if c_registry_credential c then _ ← bookkeeping; fallible else mret ());
      _ ← step (ask (ImagePull ref));
      _ ← step (info ← ask (ImageInspect Target ref);
                match im_digests info with
                | d :: _ => _ ← remember (set_digest d); ignore bookkeeping
                | [] => mret ()
                end);
      d ← recall m_digest;
      mret (if decide (d = "") then ref else d)
  | _, _ => throw panic
  end.

(** The building part of [execute]: the reference to run. *)
Definition produce : M Site string :=
  if reusesArtifact r then verify_artifact
  else match c_pack c with
  | PackImage => pull_image
  | PackDockerfile => if decide (c_git_url c = None) then buildFromDockerfile else buildFromGit
  | PackStatic | PackNixpacks => buildFromGit
  end.
Definition pruneOldSources : M Site () :=
  ignore (ask (Run (bc r) ("ls -1dt " +:+ app_dir r +:+ "/source/*/ 2>/dev/null | tail -n +3 | xargs -r rm -rf"))).
Definition build : M Site string :=
  ref ← produce;
  ref ← (if builds_elsewhere r then pushBuiltImage else _ ← skipStep; mret ref);
  _ ← (if reusesArtifact r then mret () else pruneOldSources);
  mret ref.
End Build.

(** ** Quoting

    How a POSIX shell reads a word: outside quotes a backslash takes the next
    byte as it is and a blank or an operator ends the word; inside single quotes
    every byte but the closing quote is itself. *)
Definition ends_word (a : ascii) : bool :=
  bool_decide (a ∈ [" "; "009"; "010"; ";"; "&"; "|"; "<"; ">"; "("; ")"]%char).
Fixpoint sh_word (quoted : bool) (s : string) : option (string * string) :=
  match s with
  | EmptyString => if quoted then None else Some ("", "")
  | String a s' =>
      if quoted then
        if decide (a = quote) then sh_word false s' else prod_map (String a) (λ x, x) <$> sh_word true s'
      else if decide (a = quote) then sh_word true s'
      else if decide (a = "\"%char) then
        match s' with
        | EmptyString => None
        | String b s2 => prod_map (String b) (λ x, x) <$> sh_word false s2
        end
      else if ends_word a then Some ("", s)
      else prod_map (String a) (λ x, x) <$> sh_word false s'
  end.

Lemma sh_word_escaped v rest :
  sh_word true (escape_quotes v +:+ String quote rest) = prod_map (λ w, v +:+ w) (λ x, x) <$> sh_word false rest.
Proof.
  induction v as [|a v IH]; simpl escape_quotes.
  - rewrite append_empty_l. simpl. destruct (sh_word false rest) as [[w tl]|]; done.
  - case_decide as Ha.
    + subst a. rewrite append_assoc. change ("'\''" +:+ ?x) with (String quote (String "\" (String quote (String quote x)))).
      cbn [sh_word]. rewrite decide_True by done. rewrite decide_False by done. rewrite decide_True by done.
      rewrite decide_True by done. rewrite IH.
      destruct (sh_word false rest) as [[w tl]|]; simpl; by rewrite ?append_cons.
    + rewrite append_assoc, append_cons, append_empty_l. cbn [sh_word]. rewrite decide_False by done. rewrite IH.
      destruct (sh_word false rest) as [[w tl]|]; simpl; by rewrite ?append_cons.
Qed.

(** A value quoted for a remote shell is read back by the shell as itself,
    whatever bytes it holds — quotes, newlines, dollars, operators — and nothing
    of it can end the word or start another command: the word goes on with what
    the command line has after it. *)
Theorem shellQuote_is_one_word v rest :
  sh_word false (shellQuote v +:+ rest) = prod_map (λ w, v +:+ w) (λ x, x) <$> sh_word false rest.
Proof.
  unfold shellQuote. rewrite append_cons, append_assoc. cbn [sh_word].
  rewrite decide_True by done. apply sh_word_escaped.
Qed.
