(* ===== verification/DeployRun.v ===== *)
(** * Deployments: the switch

    Models the second half of [internal/jobs/deploymentrun.go]: [execute] from
    the first checkpoint to the switch, the hooks, the candidate and its health,
    the promotion, the resumption of a run that died, the retention of images,
    the compensations, and [Execute] around them; with the routing of
    [applyrouting.go] and the helpers of [dockersweep.go]. *)
From stdpp Require Import pretty.
From S2P Require Import Prelude GoLib Queue Effects ControlDB Host Daemon ProxyApply AccessRoute ProxyRoutes DeployBuild.
Local Open Scope Z_scope.

(** ** Images to reclaim *)

(** [prunableImage] *)
Record prunableImage := mkPrunable { pi_id : Z; pi_ref : string }.

(** [imagesToReclaim] *)
Definition imagesToReclaim (arts : list prunableImage) (keep : Z) : list prunableImage :=
  let keep := Z.to_nat (keep `max` 1) in
  let kept := pi_ref <$> take keep arts in
  (λ a, if decide (pi_ref a ∈ kept) then mkPrunable (pi_id a) "" else a) <$> drop keep arts.

(** ** Routing *)

(** [pointRouteGroupAtWaker] *)
Definition pointRouteGroupAtWaker (rg : RouteGroup) : RouteGroup :=
  mkGroup (AppUUID rg) (WildcardDomain rg) (DNSProvider rg) AgentContainerName
    ((λ rt, mkProxyRoute (route_fqdn rt) (route_path rt) AgentPort AgentContainerName (route_public rt)) <$> Routes rg)
    (ForceHTTPS rg) (Access rg) (Noindex rg) (IngressAttachPath rg).

(** [applicationRouteGroup] of a resource with no components, after its
    statements; no group without a route *)
Definition route_group (c : Config) (endpoint : string) (access : option AccessPolicy) : option RouteGroup :=
  if decide (c_routes c = []) then None
  else Some (mkGroup (c_resource c) (c_wildcard c) (c_dns_provider c)
               (if decide (endpoint = "") then c_resource c else endpoint) (c_routes c)
               (c_force_https c) access (c_noindex c) "").

(** [RenderRoutingFileTo] *)
Definition rendered (c : Config) (g : option RouteGroup) : string :=
  match g with Some rg => GenerateDynamic rg (c_id c) | None => "" end.

(** [previewSingleRouteGroup] *)
Definition previewSingleRouteGroup (c : Config) (p : Preview) (endpoint : string) : option RouteGroup :=
  match p_fqdn p with
  | None | Some "" => None
  | Some fqdn =>
      Some (mkGroup (p_uuid p) "" "" (if decide (endpoint = "") then p_uuid p else endpoint)
              [mkProxyRoute fqdn "/" (c_preview_port c) "" (c_public_routes c)] true None false "")
  end.

(** [previewAccessPolicy] *)
Definition previewAccessPolicy (previewUUID : string) (protection : Protection) (hash sso : string) : option AccessPolicy :=
  if decide (protection = ProtectBasicAuth ∧ hash ≠ "") then Some (mkPolicy "basic_auth" hash "" "" "")
  else if decide (protection = ProtectSso ∧ sso ≠ "")
  then Some (mkPolicy "sso" "" (sso +:+ "?preview=" +:+ previewUUID) "" "")
  else None.

(** [injectPreviewSSOCallback] *)
Fixpoint join_lines (l : list string) : string :=
  match l with [] => "" | [x] => x | x :: l' => x +:+ nl +:+ join_lines l' end.
Definition top_key (key line : string) : bool :=
  bool_decide (trim_space line = key) && has_prefix line "  " && negb (has_prefix line "   ").
Fixpoint any_host (hosts : list string) : string :=
  match hosts with
  | [] => ""
  | [h] => "Host(`" +:+ h +:+ "`)"
  | h :: hosts' => "Host(`" +:+ h +:+ "`) || " +:+ any_host hosts'
  end.
Definition callback_router (previewUUID : string) (hosts : list string) : string :=
  join_lines
    ["    " +:+ previewUUID +:+ "-authcb:"; "      entryPoints: [websecure]";
     "      rule: (" +:+ any_host hosts +:+ ") && PathPrefix(`/.akerdock/preview-callback`)"; "      priority: 1000000";
     "      service: " +:+ previewUUID +:+ "-authcb"; "      tls:"; "        certResolver: http01"].
Definition callback_service (previewUUID instanceURL : string) : string :=
  join_lines
    ["    " +:+ previewUUID +:+ "-authcb:"; "      loadBalancer:"; "        passHostHeader: false"; "        servers:";
     "          - url: " +:+ Quote instanceURL].
Definition injectPreviewSSOCallback (content previewUUID : string) (hosts : list string) (instanceURL : string) : string :=
  if decide (hosts = [] ∨ instanceURL = "") then content
  else join_lines (mjoin ((λ line,
    [line] ++ (if top_key "routers:" line then [callback_router previewUUID hosts] else [])
           ++ (if top_key "services:" line then [callback_service previewUUID instanceURL] else []))
    <$> split newline content)).

(** [renderPreviewContent] *)
Definition forward_auth_path : string := "/webhooks/previews/forward-auth".
Definition renderPreviewContent (c : Config) (rg : RouteGroup) (p : Preview) (hash sso : string) (hosts : list string) : string :=
  let rg := mkGroup (AppUUID rg) (WildcardDomain rg) (DNSProvider rg) (Endpoint rg) (Routes rg) (ForceHTTPS rg)
              (previewAccessPolicy (p_uuid p) (c_protection c) hash sso) true (IngressAttachPath rg) in
  let content := GenerateDynamic rg (c_id c) in
  if decide (c_protection c = ProtectSso ∧ sso ≠ "")
  then injectPreviewSSOCallback content (p_uuid p) hosts
         (match cut_suffix forward_auth_path sso with Some url => url | None => sso end)
  else content.

Section Run.
Context `{Surroundings} (r : Deploy).
Let c := r_config r.
Let id := namingIdentity r.
Let candidate := candidate_name r.
Let oldName := old_name r.

(** [ensureAgent] *)
Definition ensureAgent : M Site () :=
  if decide (c_agent_image c = "") then throw (Failure "scale_to_zero requires AKERDOCK_IMAGE to be set")
  else
    _ ← ignore (ask (Other Target "read the waker routes"));
    _ ← ask (Other Target "write the waker routes");
    _ ← ignore bookkeeping;
    _ ← run Target "ensure the agent";
    mret ().

(** [previewAuthHash]: empty when the secret cannot be read *)
Definition previewAuthHash : M Site string :=
  read ← attempt (_ ← bookkeeping; fallible);
  mret (match read with inr _ => c_auth_hash c | inl _ => "" end).

(** [previewSSOAuthURL] *)
Definition previewSSOAuthURL : M Site string :=
  if decide (c_protection c ≠ ProtectSso) then mret ""
  else
    _ ← bookkeeping;
    match c_fqdn c with
    | None | Some "" => throw (Failure "preview_protection sso requires the instance FQDN (ADR-030)")
    | Some fqdn =>
        mret (if c_localhost c && bool_decide (0 < c_control_port c)
              then "http://host.docker.internal:" +:+ pretty (c_control_port c) +:+ forward_auth_path
              else "https://" +:+ fqdn +:+ forward_auth_path)
    end.

(** The statements of [applicationRouteGroup] *)
Definition read_routes : M Site () :=
  _ ← bookkeeping; _ ← ignore bookkeeping; bookkeeping.

(** What [applyRoutingTo] writes; [None] when there is nothing to do. *)
Definition routing_content (endpoint : string) : M Site (option string) :=
  match r_preview r with
  | Some p =>
      sso ← previewSSOAuthURL;
      if c_preview_scale_to_zero c then
        match previewSingleRouteGroup c p "" with
        | Some rg =>
            _ ← ensureAgent;
            hash ← previewAuthHash;
            mret (Some (renderPreviewContent c (pointRouteGroupAtWaker rg) p hash sso [default "" (p_fqdn p)]))
        | None => mret (Some "")
        end
      else
        hash ← previewAuthHash;
        mret (Some (match previewSingleRouteGroup c p endpoint with
                    | Some rg => renderPreviewContent c rg p hash sso [default "" (p_fqdn p)]
                    | None => ""
                    end))
  | None =>
      _ ← bookkeeping;
      if c_scale_to_zero c then
        if decide (endpoint ≠ "") then mret None
        else
          _ ← read_routes;
          match route_group c "" (c_access c) with
          | Some rg => _ ← ensureAgent; mret (Some (rendered c (Some (pointRouteGroupAtWaker rg))))
          | None => mret (Some "")
          end
      else
        _ ← read_routes;
        mret (Some (rendered c (route_group c endpoint (c_access c))))
  end.

(** [applyRoutingTo], [applyRouting] *)
Definition applyRoutingTo (endpoint : string) : M Site () :=
  if negb (c_traefik c) then mret ()
  else
    content ← routing_content endpoint;
    match content with
    | None => mret ()
    | Some content =>
        let expect := if decide (content ≠ "" ∧ endpoint ≠ "") then "http://" +:+ endpoint +:+ ":" else "" in
        step (Apply (c_verify_polls c) (c_server c) id content expect)
    end.
Definition applyRouting : M Site () := applyRoutingTo "".

(** ** Containers *)

(** [removeNamedContainers], of one name *)
Definition removeNamed (volumes : bool) (name : string) : M Site () :=
  removed ← attempt (ask (Remove name volumes));
  match removed with
  | inr _ => mret ()
  | inl e => if IsNotFound e then mret () else throw e
  end.

(** [containerState] *)
Definition containerState (name : string) : M Site string :=
  resp ← attempt (ask (Inspect name));
  match resp with
  | inl e => if IsNotFound e then mret "absent" else throw e
  | inr ct => mret (match ct_state ct with Some st => cs_status st | None => "absent" end)
  end.

(** [promoteCandidate] *)
Definition promoteCandidate : M Site () :=
  _ ← ignore (ask (Stop oldName));
  _ ← ignore (removeNamed false oldName);
  ask (Rename candidate id).

(** [runHook] *)
Definition runHook (pre : bool) (command : option string) (container : string) : M Site () :=
  match command with
  | None => skipStep
  | Some cmd =>
      if decide (trim_space cmd = "") then skipStep
      else
        _ ← ask (Other Target "runtime");
        let hook := step (res ← ask (Exec container ["sh"; "-c"; cmd]);
                          if decide (snd res = 0) then mret () else throw (Failure "exit code")) in
        if pre then
          resp ← attempt (ask (Inspect container));
          match resp with
          | inl e => if IsNotFound e then skipStep else throw e
          | inr ct => if match ct_state ct with Some st => cs_running st | None => false end then hook else skipStep
          end
        else hook
  end.

(** [healthConfig]: any error reading the health check is none *)
Definition healthConfig : M Site bool :=
  row ← attempt bookkeeping;
  let enabled := match row with inr _ => default false (c_health_check c) | inl _ => false end in
  _ ← tell (FoundHealthCheck enabled);
  mret enabled.

(** [awaitCandidate] *)
Definition healthy (ct : Container) : option bool :=
  match ct_state ct ≫= cs_health with
  | None => Some true
  | Some h => if decide (h = "healthy") then Some true else if decide (h = "unhealthy") then Some false else None
  end.
Fixpoint poll_health (polls : nat) (target : string) : M Site bool :=
  match polls with
  | O => mret false
  | S polls' =>
      resp ← attempt (ask (Inspect target));
      let again := _ ← fallible; poll_health polls' target in
      match resp with
      | inr ct => match healthy ct with Some verdict => mret verdict | None => again end
      | inl _ => again
      end
  end.
Definition awaitCandidate (target : string) (has_health_check : bool) : M Site bool :=
  if has_health_check then poll_health (c_health_polls c) target
  else
    _ ← fallible;
    st ← containerState target;
    mret (bool_decide (st = "running")).

(** [candidateFailure]: the error of a candidate that did not come up, with its
    logs when they can be read *)
Definition candidateFailure (target : string) : M Site () :=
  _ ← ignore (_ ← ask (Inspect target); ask (Other Target "logs"));
  throw (Failure "the new container did not become healthy in time").

(** The labels of the new container, of type application: a service is a compose
    stack. *)
Definition labels : gmap string string :=
  (match r_preview r with Some p => <[ "akerdock.preview_uuid" := p_uuid p ]> | None => λ m, m end)
    (<[ "akerdock.managed" := "true" ]> (<[ "akerdock.resource_uuid" := c_resource c ]>
       (<[ "akerdock.type" := "application" ]> (<[ "akerdock.team_uuid" := c_team c ]>
          {[ "akerdock.deployment_uuid" := c_uuid c ]})))).

(** The step start_candidate of [execute] *)
Definition start_candidate (rolling : bool) (ref : string) : M Site () :=
  let target := if rolling then candidate else id in
  step (
    _ ← (if rolling then mret ()
         else
           stopped ← attempt (ask (Stop oldName));
           _ ← match stopped with
               | inr _ => mret ()
               | inl e => if IsNotFound e then mret () else throw e
               end;
           removeNamed false oldName);
    _ ← removeNamed false target;
    _ ← ask (Create target ref labels);
    ask (Start target)).

(** ** The end of a deployment *)

(** [recordArtifact] *)
Definition recordArtifact : M Site () :=
  m ← recall (λ m, m);
  match m_image m with
  | Some image =>
      if reusesArtifact r then mret ()
      else ignore (sql (λ t, (set_artifacts t (mkArtifact (1 + foldr (λ a n, ar_id a `max` n) 0 (t_artifacts t)) (c_id c)
                                                image (m_tag m) (c_server c) :: t_artifacts t), inr ())))
  | None => mret ()
  end.

(** [ListAppArtifactsOnServer], [ListPreviewArtifactsOnServer]: the artifacts of
    succeeded deployments, the newest first *)
Definition ListArtifactsOnServer : M Site (list prunableImage) :=
  sql (λ t, (t, inr (omap (λ a,
    match w_deployments (t_world t) !! ar_deployment a, ar_tag a with
    | Some d, Some tag =>
        if decide (d_resource d = c_resource_id c ∧ d_preview d = (p_id <$> r_preview r) ∧ d_status d = SSucceeded ∧
                   ar_server a = c_server c)
        then Some (mkPrunable (ar_id a) (ar_image a +:+ ":" +:+ tag)) else None
    | _, _ => None
    end) (t_artifacts t)))).
(** [DeleteDeploymentArtifact] *)
Definition DeleteDeploymentArtifact (i : Z) : M Site () :=
  sql (λ t, (set_artifacts t (filter (λ a, ar_id a ≠ i) (t_artifacts t)), inr ())).

(** [pruneOldImages] *)
Definition pruneOldImages : M Site () :=
  connected ← recall m_connected;
  if reusesArtifact r || negb connected then mret ()
  else
    settings ← attempt bookkeeping;
    let keep := match settings with inr _ => if decide (0 < c_retention c) then c_retention c else 5 | inl _ => 5 end in
    rows ← attempt ListArtifactsOnServer;
    match rows with
    | inl _ => mret ()
    | inr arts =>
        each (imagesToReclaim arts keep) (λ a,
          _ ← (if decide (pi_ref a = "") then mret () else ignore (ask (ImageRemove (pi_ref a))));
          ignore (DeleteDeploymentArtifact (pi_id a)))
    end.

(** [finish]: the rows between its two statuses, then all of it *)
Definition finish_rows : M Site () :=
  _ ← ignore bookkeeping;
  _ ← ignore bookkeeping;
  _ ← (if decide (r_preview r = None ∧ is_Some (c_adoption c)) then ignore bookkeeping else mret ());
  _ ← recordArtifact;
  _ ← pruneOldImages;
  match r_preview r with
  | Some p => ignore (sql (λ t, let '(x, (_, w)) := SetPreviewDeployed (p_id p) [] (t_world t) in (set_world t w, x)))
  | None => mret ()
  end.
Definition finish : M Site () :=
  _ ← setStatus r SFinishing;
  _ ← finish_rows;
  setStatus r SSucceeded.

(** [resume]: whether the deployment was carried to its end *)
Definition resume_inspected (oldState nextState : string) : M Site () :=
  if decide (nextState = "absent" ∧ oldState = "running") then
    _ ← skipStep; _ ← applyRouting; finish
  else if decide (nextState = "running" ∧ oldState = "absent") then
    _ ← skipStep; _ ← step (ask (Rename candidate id)); _ ← applyRouting; finish
  else if decide (nextState = "running" ∧ oldState = "running") then
    _ ← skipStep; _ ← step promoteCandidate; _ ← applyRouting; finish
  else
    _ ← skipStep;
    throw (Failure "crashed during the switch and neither container is usable").
Definition resume : M Site bool :=
  if decide (r_status r = SSwitching ∨ r_status r = SFinishing) then
    oldState ← containerState oldName;
    nextState ← containerState candidate;
    _ ← resume_inspected oldState nextState;
    mret true
  else mret false.

(** ** [execute] *)

Definition connect : M Site () :=
  _ ← ask (Other Target "dial");
  _ ← ask (Other Target "runtime");
  _ ← remember (λ m, mkMemory true (m_digest m) (m_image m) (m_tag m));
  _ ← ask (Other Target "host operations");
  if builds_elsewhere r then dialBuildServer r else mret ().

(** The variables, the step prepare, the hook before the build *)
Definition prepare : M Site () :=
  _ ← renderRuntimeEnv r;
  _ ← step (_ ← ask (Other Target "ping");
            _ ← ask (Other Target "network");
            run Target (prepare_dir (app_dir r)));
  runHook true (c_pre_command c) oldName.

(** From the starting status to a candidate that is up. *)
Definition start (ref : string) : M Site bool :=
  if negb (c_memory_ok c) then throw (Failure "invalid memory limit")
  else
    _ ← bookkeeping;
    _ ← ask (Other Target "storages");
    rolling ← healthConfig;
    _ ← start_candidate rolling ref;
    mret rolling.

Definition healthcheck (rolling : bool) : M Site () :=
  let target := if rolling then candidate else id in
  _ ← step (verdict ← awaitCandidate target rolling;
            if (verdict : bool) then mret () else candidateFailure target);
  runHook false (c_post_command c) target.

Definition switch (rolling : bool) : M Site () :=
  _ ← (if rolling then
         ip ← step (ct ← ask (Inspect candidate);
                    if decide (ct_ip ct = "") then throw (Failure "could not resolve the candidate IP")
                    else mret (ct_ip ct));
         _ ← applyRoutingTo ip;
         step promoteCandidate
       else step (_ ← ask (Inspect id); mret ()));
  _ ← applyRouting;
  finish.

(** The statuses of the pipeline, each behind a checkpoint. *)
Definition enter (st : DeploymentStatus) : M Site () := _ ← checkpoint r; setStatus r st.

Definition pipeline : M Site () :=
  _ ← prepare;
  _ ← enter SBuilding;
  ref ← build r;
  _ ← enter SStarting;
  rolling ← start ref;
  _ ← enter SHealthchecking;
  _ ← healthcheck rolling;
  _ ← enter SSwitching;
  switch rolling.

Definition fork_unapproved : bool :=
  match r_preview r with Some p => awaits_approval p | None => false end.

Definition execute : M Site () :=
  if fork_unapproved then throw (Failure "fork preview without maintainer approval (INV-010)")
  else
    _ ← enter SPreparing;
    _ ← connect;
    resumed ← resume;
    if (resumed : bool) then mret () else pipeline.

(** ** [Execute] *)

(** The compensation of [markFailed] and [markCancelled] *)
Definition remove_candidate : M Site () :=
  connected ← recall m_connected;
  if (connected : bool) then ignore (removeNamed false candidate) else mret ().

(** [markFailed] *)
Definition markFailed : M Site () :=
  _ ← match r_preview r with
      | Some p => ignore (sql (λ t, let '(x, (_, w)) := SetPreviewStatus (p_id p) PFailed None [] (t_world t) in (set_world t w, x)))
      | None => mret ()
      end;
  _ ← remove_candidate;
  _ ← ignore bookkeeping;
  _ ← ignore (setStatus r SFailed);
  ignore bookkeeping.
(** [markCancelled] *)
Definition markCancelled : M Site () :=
  _ ← remove_candidate;
  ignore (setStatus r SCancelled).

Definition changed_to (e : err) : option DeploymentStatus :=
  snd <$> list_find (λ st, e = state_changed st)
    [SQueued; SPreparing; SCloning; SBuilding; SPushing; SStarting; SHealthchecking; SSwitching; SFinishing;
     SSucceeded; SFailed; SCancelled; SRetrying; SSuperseded].

(** The outcome of an attempt of some [execute]. *)
Definition concluded (m : M Site ()) : M Site DeploymentStatus :=
  outcome ← attempt m;
  match outcome with
  | inr _ => mret SSucceeded
  | inl e =>
      if decide (e = panic) then throw e
      else match changed_to e with
      | Some st => mret st
      | None =>
          if decide (e = errCancelled) then _ ← markCancelled; mret SCancelled
          else _ ← markFailed; mret SFailed
      end
  end.
Definition attempt_run : M Site DeploymentStatus := concluded execute.
End Run.

(** [Execute], with [newRun]: the rows it reads besides the deployment's are
    those of the configuration. *)
Definition Execute `{Surroundings} (c : Config) : M Site DeploymentStatus :=
  d ← sql (λ t, (t, match w_deployments (t_world t) !! c_id c with Some d => inr d | None => inl NoRows end));
  if finished (d_status d) then mret (d_status d)
  else
    _ ← bookkeeping; _ ← bookkeeping; _ ← bookkeeping; _ ← bookkeeping;
    preview ← match d_preview d with
              | Some i => p ← sql (λ t, (t, match w_previews (t_world t) !! i with Some p => inr p | None => inl NoRows end));
                          mret (Some p)
              | None => mret None
              end;
    _ ← ignore bookkeeping;
    _ ← remember (λ _, mkMemory false "" (c_image c) (c_tag c));
    attempt_run (mkDeploy c (d_status d) preview).

(** [ApplyRouting.Execute] ([applyrouting.go]), the job of a change of domains,
    for an application *)
Definition ApplyRouting `{Surroundings} (c : Config) (revision : Z) : M Site string :=
  app ← attempt bookkeeping;
  match app with
  | inl _ =>
      resource ← attempt bookkeeping;
      mret (match resource with inl _ => "resource deleted, nothing to do" | inr _ => "resource is not routable" end)
  | inr _ =>
      _ ← bookkeeping;
      _ ← bookkeeping;
      if negb (c_traefik c) then mret "server has no managed proxy"
      else
        _ ← ask (Other Target "runtime");
        _ ← ask (Other Target "host operations");
        _ ← bookkeeping;
        _ ← read_routes;
        let content := match route_group c "" (c_access c) with
                       | Some rg => GenerateDynamic rg revision | None => "" end in
        _ ← Apply (c_verify_polls c) (c_server c) (c_resource c) content "";
        mret "routing converged"
  end.

(** ** Retention *)

(** The images reclaimed after a deployment are exactly those of the
    artifacts beyond the retention window, the newest first and at least one
    kept; the pointer of each of them is dropped, and an image is removed only
    when no artifact of the window refers to it. *)
Theorem imagesToReclaim_window arts keep :
  let window := Z.to_nat (keep `max` 1) in
  pi_id <$> imagesToReclaim arts keep = pi_id <$> drop window arts ∧
  (∀ a, a ∈ imagesToReclaim arts keep → pi_ref a ∉ pi_ref <$> take window arts ∨ pi_ref a = "") ∧
  (∀ a, a ∈ drop window arts → pi_ref a ∉ pi_ref <$> take window arts → a ∈ imagesToReclaim arts keep).
Proof.
  unfold imagesToReclaim. cbv zeta. split_and!.
  - rewrite <- list_fmap_compose. apply list_fmap_ext. intros i a _. simpl. by case_decide.
  - intros a Ha. apply list_elem_of_fmap in Ha as (b & -> & Hb). case_decide; [by right|by left].
  - intros a Ha Hn. apply list_elem_of_fmap. exists a. by rewrite decide_False.
Qed.

(** ** An example

    The application "shop" runs version 1 on server 1; deployment 7 brings
    version 2, which reports itself healthy. *)
Module Shop.
Definition config_of (rollback : bool) : Config :=
  mkConfig 7 40 "dep-7" rollback false false (Some "shop") (Some "2") None
    "shop" 3 None 1 "web" true PackImage None None "" None None None None false None
    (Some true) None None true false false "" [mkProxyRoute "shop.example.org" "/" 80 "" []] true false "" "" None
    [] 80 ProtectNone "" None false 0 false [] None 0 5 2 2 2 "team".
Definition config : Config := config_of false.
Definition row (st : DeploymentStatus) : Deployment := mkDeployment 7 3 TManual 1 None None false st None.
Definition world (st : DeploymentStatus) : World :=
  mkWorld 0 (λ _, "") (mkDB ∅ 1) ∅ ∅ ∅ ∅ ∅ ∅ ∅ ∅ 1 {[ 7 := row st ]} 8 ∅ 1 ∅ ∅ ∅.
(** The file that sends to the container by its name. *)
Definition stable : string := rendered config (route_group config "" None).
Definition tables (st : DeploymentStatus) : Tables :=
  mkTables (world st) [mkRevision 1 1 "shop" stable RevApplied] [] ∅ ∅.
Definition old_box : Box := mkBox "shop:1" ∅ "running" (Some "healthy") "10.0.0.5".
Definition host : Daemon :=
  mkDaemon {[ "shop" := old_box ]} {[ dynamic_path "shop" := stable ]} (λ _, Some "healthy") "10.0.0.7" (λ _, ("", 0)).
Definition memory : Memory := mkMemory false "" (Some "shop") (Some "2").
Definition site : @Site alone := @mkSite alone host (tables SQueued) memory [].
Definition queued : Deploy := mkDeploy config SQueued None.
(** A rollback to version 2, and a deployment that died in the switch. *)
Definition rollback : Deploy := mkDeploy (config_of true) SQueued None.
Definition interrupted : Deploy := mkDeploy config SSwitching None.
End Shop.
