(* ===== verification/DeploySafety.v ===== *)
(** * Deployments: what an attempt may do

    Properties of the log of one attempt ([DeployRun.attempt_run]): they hold
    whatever Docker, the proxy, the database and the other workers answer and
    do, and wherever the process dies. *)
From S2P Require Import Prelude GoLib Queue Effects ControlDB Host Daemon ProxyApply AccessRoute ProxyRoutes DeployBuild DeployRun.
Local Open Scope Z_scope.

(** ** Calls that touch a container *)

Definition harmless {A} (c : call A) : bool :=
  match c with
  | Create _ _ _ | Start _ | Stop _ | Remove _ _ | Rename _ _ => false
  | _ => true
  end.

(** A call that replaces, stops, removes or renames the container of a name. *)
Definition touches (name : string) (e : event) : Prop :=
  match e with
  | Called (Create n _ _) _ | Called (Start n) _ | Called (Stop n) _ | Called (Remove n _) _ => n = name
  | Called (Rename a b) _ => a = name ∨ b = name
  | _ => False
  end.
Definition writes (e : event) : option DeploymentStatus := match e with Wrote st => Some st | _ => None end.

Lemma harmless_touches {A} (c : call A) r name : harmless c = true → ¬ touches name (Called c r).
Proof. destruct c; simpl; intros Hh; done || (intros ?; done). Qed.

(** ** The parts of an attempt *)

(** The events of the write of a status. *)
Local Notation "'writing' P st" := (P (Wrote st) ∧ P (Recorded st)) (at level 10, P at level 9, st at level 9).

Section Basic.
Context `{Surroundings} (P : event → Prop) (E : err → Prop).
Hypothesis calls : ∀ A (c : call A) x, harmless c = true → P (Called c x).
Hypothesis errors : ∀ e, e ≠ errCancelled → E e.

Ltac side := first [ exact I | by apply calls | by apply errors | assumption | done
                   | simpl; case_match; first [ exact I | by apply errors ] ].
Ltac part := within; try side.

Lemma step_within {A} (m : M Site A) : within P E m → within P E (step m).
Proof. intros Hm. unfold step. part. Qed.
Lemma skipStep_within : within P E skipStep.
Proof. unfold skipStep. part. Qed.
Lemma rm_within r path : within P E (rm r path).
Proof. unfold rm. part. Qed.
Lemma upload_within uuid content : within P E (upload uuid content).
Proof. unfold upload. part. Qed.
Lemma verify_within polls uuid content expect : within P E (verify polls uuid content expect).
Proof. induction polls as [|polls IH]; simpl; part. Qed.
Lemma removeNamed_within volumes name :
  (∀ x, P (Called (Remove name volumes) x)) → within P E (removeNamed volumes name).
Proof. intros HP. unfold removeNamed. part. Qed.
Lemma containerState_within name : within P E (containerState name).
Proof. unfold containerState. part. Qed.
Lemma poll_health_within polls target : within P E (poll_health polls target).
Proof. induction polls as [|polls IH]; simpl; part. Qed.
End Basic.
#[local] Hint Resolve skipStep_within rm_within upload_within verify_within removeNamed_within containerState_within
  poll_health_within : effects.

Section Parts.
Context `{Surroundings} (r : Deploy) (P : event → Prop) (E : err → Prop).
Hypothesis calls : ∀ A (c : call A) x, harmless c = true → P (Called c x).
Hypothesis errors : ∀ e, e ≠ errCancelled → E e.

Ltac side := first [ exact I | by apply calls | by apply errors | assumption | done
                   | simpl; case_match; first [ exact I | by apply errors ] ].
Ltac part := repeat first [ within_step | apply step_within; [exact errors|] ]; auto with effects; try side.

(** *** Building *)

Lemma resolveLocalDigest_within ref : within P E (resolveLocalDigest r ref).
Proof. unfold resolveLocalDigest. part. Qed.
Lemma read_variables_within : within P E (read_variables r).
Proof. unfold read_variables, deploymentRefs. part. Qed.
Lemma renderBuildEnv_within : within P E (renderBuildEnv r).
Proof. apply read_variables_within. Qed.
Lemma renderRuntimeEnv_within : within P E (renderRuntimeEnv r).
Proof. apply read_variables_within. Qed.
Lemma built_within image tag : within P E (built image tag).
Proof. unfold built. part. Qed.
Lemma writeStaticDockerfile_within : within P E (writeStaticDockerfile r).
Proof. unfold writeStaticDockerfile. part. Qed.
Lemma installNixpacks_within on : within P E (installNixpacks on).
Proof. unfold installNixpacks. part. Qed.
Hint Resolve resolveLocalDigest_within renderBuildEnv_within renderRuntimeEnv_within built_within writeStaticDockerfile_within
  installNixpacks_within : effects.
Lemma buildWithNixpacks_within ref sha : within P E (buildWithNixpacks r ref sha).
Proof. unfold buildWithNixpacks. part. Qed.
Lemma resolve_sha_within env repo branch : within P E (resolve_sha r env repo branch).
Proof. unfold resolve_sha. part. Qed.
Lemma pushBuiltImage_within : within P E (pushBuiltImage r).
Proof. unfold pushBuiltImage. part. Qed.
Lemma buildFromDockerfile_within : within P E (buildFromDockerfile r).
Proof. unfold buildFromDockerfile. part. Qed.
Hint Resolve buildWithNixpacks_within resolve_sha_within pushBuiltImage_within buildFromDockerfile_within : effects.

(** A status other than the first is written at once. *)
Lemma setStatus_within st : st ≠ SPreparing → writing P st → within P E (setStatus r st).
Proof.
  intros Hst [HW HR]. unfold setStatus. rewrite decide_False by naive_solver.
  unfold SetDeploymentStatus. part.
Qed.

(** What the credential of git leaves to do is one call. *)
Lemma installDeployKey_yields :
  yields P E (λ k, within P (λ _, True) (snd k)) (installDeployKey r).
Proof. unfold installDeployKey, installGithubToken. part; simpl; part. Qed.

Lemma checkout_within env repo branch : within P E (checkout r env repo branch).
Proof. unfold checkout. part. Qed.
Lemma build_image_within sha : within P E (build_image r sha).
Proof. unfold build_image. part. Qed.
Lemma verify_artifact_within : within P E (verify_artifact r).
Proof. unfold verify_artifact. part. Qed.
Lemma pull_image_within : within P E (pull_image r).
Proof. unfold pull_image. part. Qed.
Hint Resolve checkout_within build_image_within verify_artifact_within pull_image_within : effects.

Lemma build_checkout_within env repo branch :
  writing P SBuilding → within P E (build_checkout r env repo branch).
Proof. intros HP. unfold build_checkout. part. by apply setStatus_within. Qed.

Lemma buildFromGit_within : writing P SCloning → writing P SBuilding → within P E (buildFromGit r).
Proof.
  intros HC HB. unfold buildFromGit. cbv zeta. destruct (c_git_url (r_config r)) as [repo|]; [|part].
  apply within_bind; [by apply setStatus_within|intros _].
  eapply within_yields; [apply installDeployKey_yields|]. intros k Hk.
  apply within_deferred; [done|by apply build_checkout_within].
Qed.

(** After the image is produced. *)
Lemma after_produce_within ref : within P E
  (ref ← (if builds_elsewhere r then pushBuiltImage r else _ ← skipStep; mret ref);
   _ ← (if reusesArtifact r then mret () else pruneOldSources r); mret ref).
Proof. unfold pruneOldSources. part. Qed.

Lemma build_within : writing P SCloning → writing P SBuilding → within P E (build r).
Proof.
  intros HC HB. unfold build. apply within_bind; [|intros ref; apply after_produce_within].
  unfold produce. part; by apply buildFromGit_within.
Qed.

(** *** Routing *)

Lemma Apply_within polls server uuid content expect : within P E (Apply polls server uuid content expect).
Proof. unfold Apply, roll_back, CreateProxyRevision, MarkProxyRevision, GetLastAppliedProxyRevision. part. Qed.
Lemma ensureAgent_within : within P E (ensureAgent r).
Proof. unfold ensureAgent. part. Qed.
Hint Resolve Apply_within ensureAgent_within : effects.
Lemma routing_content_within endpoint : within P E (routing_content r endpoint).
Proof. unfold routing_content, previewSSOAuthURL, previewAuthHash, read_routes. part. Qed.
Hint Resolve routing_content_within : effects.
Lemma applyRoutingTo_within endpoint : within P E (applyRoutingTo r endpoint).
Proof. unfold applyRoutingTo. part. Qed.

(** *** Containers *)


Lemma runHook_within pre command name : within P E (runHook pre command name).
Proof. unfold runHook. part. Qed.

Hint Resolve runHook_within : effects.

Lemma healthcheck_within rolling : within P E (healthcheck r rolling).
Proof. unfold healthcheck, awaitCandidate, candidateFailure. part. Qed.

Lemma healthConfig_within : (∀ b, P (FoundHealthCheck b)) → within P E (healthConfig r).
Proof. intros HP. unfold healthConfig. part. Qed.

Lemma start_candidate_within (rolling : bool) ref :
  let target := if rolling then candidate_name r else namingIdentity r in
  (∀ x, P (Called (Create target ref (labels r)) x)) → (∀ x, P (Called (Start target) x)) →
  (∀ x, P (Called (Remove target false) x)) →
  (rolling = false → ∀ x, P (Called (Stop (old_name r)) x) ∧ P (Called (Remove (old_name r) false) x)) →
  within P E (start_candidate r rolling ref).
Proof.
  simpl. intros HC HS HR HN. unfold start_candidate. apply step_within; [done|]. destruct rolling.
  - part.
  - part; try (by apply HN); apply removeNamed_within; try done; intros ?; by apply HN.
Qed.

(** *** The end *)

Lemma finish_rows_within : within P E (finish_rows r).
Proof. unfold finish_rows, recordArtifact, pruneOldImages, ListArtifactsOnServer, DeleteDeploymentArtifact. part. Qed.
Hint Resolve finish_rows_within : effects.
Lemma finish_within : writing P SFinishing → writing P SSucceeded → within P E (finish r).
Proof.
  intros HF HS. unfold finish. part; by apply setStatus_within.
Qed.

Lemma promote_within :
  (∀ x, P (Called (Stop (old_name r)) x)) → (∀ x, P (Called (Remove (old_name r) false) x)) →
  (∀ x, P (Called (Rename (candidate_name r) (namingIdentity r)) x)) → within P E (promoteCandidate r).
Proof. intros HS HR HN. unfold promoteCandidate. part. Qed.

(** *** The parts with a checkpoint *)

Lemma checkpoint_within : E errCancelled → within P E (checkpoint r).
Proof. intros HE. unfold checkpoint, IsJobCancelRequested. part. Qed.
Hint Resolve checkpoint_within : effects.
Lemma start_when_free_within waits : E errCancelled → within P E (start_when_free r waits).
Proof.
  intros HE. induction waits as [|waits IH]; simpl; [part|].
  unfold StartDeploymentUnlessCleanupRunning, GetDeploymentStatus. part.
Qed.
Lemma setStatus_any_within st : E errCancelled → writing P st → within P E (setStatus r st).
Proof.
  intros HE [HW HR]. unfold setStatus, SetDeploymentStatus. part. by apply start_when_free_within.
Qed.
Lemma enter_within st : E errCancelled → writing P st → within P E (enter r st).
Proof. intros HE HP. unfold enter. part. by apply setStatus_any_within. Qed.
Lemma reserveBuildServer_within waits server : E errCancelled → within P E (reserveBuildServer r waits server).
Proof.
  intros HE. induction waits as [|waits IH]; simpl; [part|].
  unfold AssignDeploymentBuildServerUnlessCleanupRunning. part.
Qed.
Lemma connect_within : E errCancelled → within P E (connect r).
Proof. intros HE. unfold connect, dialBuildServer. part. by apply reserveBuildServer_within. Qed.
Lemma prepare_within : within P E (prepare r).
Proof. unfold prepare. part. Qed.
Lemma remove_candidate_within :
  (∀ x, P (Called (Remove (candidate_name r) false) x)) → within P E (remove_candidate r).
Proof. intros HR. unfold remove_candidate. part. Qed.
End Parts.

(** ** The serving container *)

Lemma append_next (u : string) : u ≠ u +:+ "-next".
Proof. intros Hu. apply (f_equal String.length) in Hu. rewrite append_length in Hu. simpl in Hu. lia. Qed.

(** Every event that satisfies [T] comes after a history that satisfies [L]. *)
Fixpoint guarded (T : event → Prop) (L : list event → Prop) (l : list event) : Prop :=
  match l with [] => True | e :: l' => (T e → L l') ∧ guarded T L l' end.

Section Guarded.
Context `{Surroundings} (T : event → Prop) (L : list event → Prop).
Let held (s : Site) : Prop := guarded T L (s_log s).

(** What does not satisfy [T] needs no licence; a licence that lasts covers the
    rest. *)
Lemma guarded_aside s s' : grows (λ e, ¬ T e) s s' → held s → held s'.
Proof.
  unfold held. intros (l & -> & Hl) Hs. induction Hl as [|e l He Hl IH]; [done|]. split; [by intros Ht|done].
Qed.
Lemma guarded_licensed P s s' :
  (∀ s s', grows P s s' → L (s_log s) → L (s_log s')) → grows P s s' → L (s_log s) → held s → held s'.
Proof.
  unfold held. intros Hlasts (l & -> & Hl) HL Hs. induction Hl as [|e l He Hl IH]; [done|]. split; [intros _|done].
  eapply (Hlasts s (mkSite (s_out s) (s_tables s) (s_memory s) (l ++ s_log s))); [|done].
  by exists l.
Qed.
End Guarded.

(** Two properties of the same run. *)
Lemma wp_both {W A} (m : M W A) (Q1 Q2 : err + A → W → Prop) w :
  wp m Q1 w → wp m Q2 w → wp m (λ x w', Q1 x w' ∧ Q2 x w') w.
Proof. intros H1 H2 fs. specialize (H1 fs). specialize (H2 fs). by destruct (m fs w) as [x [fs' w']]. Qed.

(** First [A], and then, in what was logged after it, [B]. *)
Definition followed (A B : list event → Prop) (l : list event) : Prop := ∃ base, A base ∧ after base B l.

Lemma followed_more (A B : list event → Prop) e l :
  (∀ e l, B l → B (e :: l)) → followed A B l → followed A B (e :: l).
Proof.
  intros HB (base & HA & later & -> & Hl). exists base. split; [done|]. exists (e :: later). split; [done|by apply HB].
Qed.
Lemma followed_grows `{Surroundings} P (A B : list event → Prop) s s' :
  (∀ e l, B l → B (e :: l)) → grows P s s' → followed A B (s_log s) → followed A B (s_log s').
Proof. intros HB HG (base & HA & Hl). exists base. split; [done|]. by eapply after_grows. Qed.
Lemma grows_suffix `{Surroundings} P s s' base : grows P s s' → base `suffix_of` s_log s → base `suffix_of` s_log s'.
Proof. intros (l & -> & _). apply suffix_app_r. Qed.

(** A routing file is empty only without a route. *)
Lemma GenerateDynamic_content rg revision : ∃ rest, GenerateDynamic rg revision = String "#" rest.
Proof. by eexists. Qed.
Lemma join_lines_content x l a rest : x = String a rest → join_lines (x :: l) ≠ "".
Proof. by intros ->; destruct l. Qed.
Lemma renderPreviewContent_content c rg p hash sso hosts : renderPreviewContent c rg p hash sso hosts ≠ "".
Proof.
  unfold renderPreviewContent. match goal with |- context [GenerateDynamic ?g ?n] =>
    destruct (GenerateDynamic_content g n) as [rest ->] end.
  case_decide; [|done]. unfold injectPreviewSSOCallback. case_decide; [done|].
  simpl. destruct (split newline rest) as [|w ws]; simpl; [done|]. by eapply join_lines_content.
Qed.
Lemma rendered_content c g : rendered c g = "" ↔ g = None.
Proof. destruct g as [rg|]; [|done]. simpl. by destruct (GenerateDynamic_content rg (c_id c)) as [rest ->]. Qed.

Section Safety.
Context `{Surroundings} (r : Deploy).
Let c := r_config r.
Let id := namingIdentity r.
Let candidate := candidate_name r.
Let old := old_name r.

(** The container that serves, under its name of before or of after. *)
Definition touches_serving (e : event) : Prop := touches old e ∨ touches id e.

(** This attempt created the candidate. *)
Definition created (l : list event) : Prop := ∃ ref labels, Called (Create candidate ref labels) (inr ()) ∈ l.
(** The candidate was seen to be up: no verdict of its health other than healthy. *)
Definition fit (ct : Container) : Prop :=
  ∀ st verdict, ct_state ct = Some st → cs_health st = Some verdict → verdict = "healthy".
Definition seen_up (l : list event) : Prop := ∃ ct, Called (Inspect candidate) (inr ct) ∈ l ∧ fit ct.

(** Traffic that is not switched: no proxy is managed, or the application scales
    to zero and its traffic goes to the waker. *)
Definition unswitched : Prop := c_traefik c = false ∨ (r_preview r = None ∧ c_scale_to_zero c = true).
(** No domain leads to what is deployed. *)
Definition routeless : Prop :=
  match r_preview r with Some p => default "" (p_fqdn p) = "" | None => c_routes c = [] end.
(** The proxy was seen to serve what is deployed at an address; to have no route of
    it, when there is no domain. *)
Definition proxy_serves (ip : string) (l : list event) : Prop :=
  served id ip l ∨
  (routeless ∧ ∃ out, Called (Exec proxy_container services_command) (inr (out, 0)) ∈ l ∧ contains_sub id out = false).
(** The candidate was asked for its address, and then the proxy for that address. *)
Definition seen_switched (l : list event) : Prop :=
  ∃ ct, ct_ip ct ≠ "" ∧ followed (λ l, Called (Inspect candidate) (inr ct) ∈ l) (proxy_serves (ct_ip ct)) l.
(** The candidate was seen up, and then the traffic on it. *)
Definition taken_over (l : list event) : Prop := (unswitched ∧ seen_up l) ∨ followed seen_up seen_switched l.
(** The deployment died in the switch, and the candidate was seen running. *)
Definition seen_resumable (l : list event) : Prop :=
  (r_status r = SSwitching ∨ r_status r = SFinishing) ∧
  ∃ ct st, Called (Inspect candidate) (inr ct) ∈ l ∧ ct_state ct = Some st ∧ cs_status st = "running".
(** What allows to touch the serving container: no enabled health check was found
    (it is then stopped before its replacement starts), the candidate was created
    and took over, or the deployment had died in the switch. *)
Definition licensed (l : list event) : Prop :=
  FoundHealthCheck false ∈ l ∨ followed created taken_over l ∨ seen_resumable l.

Definition safe (s : Site) : Prop := guarded touches_serving licensed (s_log s).
Definition aside (e : event) : Prop := ¬ touches_serving e.

Lemma aside_calls A (k : call A) x : harmless k = true → aside (Called k x).
Proof. intros Hk [Ht|Ht]; by apply harmless_touches in Ht. Qed.
Lemma aside_candidate : old ≠ candidate →
  (∀ i l x, aside (Called (Create candidate i l) x)) ∧ (∀ x, aside (Called (Start candidate) x)) ∧
  (∀ x, aside (Called (Remove candidate false) x)).
Proof.
  intros Hn. split_and!; intros *; intros [Ht|Ht]; simpl in Ht; try done; by apply (append_next id).
Qed.

Lemma seen_up_more e l : seen_up l → seen_up (e :: l).
Proof. intros (ct & Hin & Hf). exists ct. split; [by right|done]. Qed.
Lemma proxy_serves_more ip e l : proxy_serves ip l → proxy_serves ip (e :: l).
Proof.
  intros [Hs|(Hr & out & Hin & Ho)]; [left; by apply served_more|right]. split; [done|]. exists out. split; [by right|done].
Qed.
Lemma seen_switched_more e l : seen_switched l → seen_switched (e :: l).
Proof. intros (ct & Hip & Hf). exists ct. split; [done|]. apply followed_more; [apply proxy_serves_more|done]. Qed.
Lemma taken_over_more e l : taken_over l → taken_over (e :: l).
Proof.
  intros [[Hu Hs]|Hf]; [left; eauto using seen_up_more|right]. by apply followed_more; [apply seen_switched_more|].
Qed.

Lemma licensed_grows P s s' : grows P s s' → licensed (s_log s) → licensed (s_log s').
Proof.
  intros HG. pose proof (λ e, grows_elem P s s' e HG) as HE.
  intros [Hl|[Hl|[Hst Hr]]].
  - left. by apply HE.
  - right. left. by eapply followed_grows; [apply taken_over_more|..].
  - right. right. split; [done|]. destruct Hr as (ct & st & Hin & ?). exists ct, st. auto.
Qed.

Lemma safe_aside s s' : grows aside s s' → safe s → safe s'.
Proof. apply guarded_aside. Qed.
Lemma safe_aside2 s s1 s2 : grows aside s s1 → grows aside s1 s2 → safe s → safe s2.
Proof. intros H1 H2 Hs. eapply safe_aside; [exact H2|]. by eapply safe_aside. Qed.
Lemma safe_licensed P s s' : grows P s s' → licensed (s_log s) → safe s → safe s'.
Proof. apply guarded_licensed. intros ??. apply licensed_grows. Qed.

(** A part that does not touch the serving container, then the rest. *)
Lemma wp_aside {A B} (m : M Site A) (k : A → M Site B) (Q : Site → Prop) s :
  within aside (λ _, True) m → safe s → (∀ s', safe s' → Q s') →
  (∀ s' a, grows aside s s' → safe s' → wp (k a) (λ _ s2, Q s2) s') → wp (m ≫= k) (λ _ s2, Q s2) s.
Proof.
  intros Hm Hs HQ Hk. eapply wp_then; [done|..].
  - intros s' e HG _. apply HQ. by eapply safe_aside.
  - intros s' a HG. apply Hk; [done|]. by eapply safe_aside.
Qed.

(** What the inspection of a container reports as running was seen. *)
Lemma containerState_seen name s :
  wp (containerState name) (λ x s', grows aside s s' ∧ (x = inr "running" →
    ∃ ct st, Called (Inspect name) (inr ct) ∈ s_log s' ∧ ct_state ct = Some st ∧ cs_status st = "running")) s.
Proof.
  apply wp_bind, wp_attempt, wp_ask. intros y o.
  assert (HG : grows aside s (mkSite o (s_tables s) (s_memory s) (Called (Inspect name) y :: s_log s))).
  { eexists [_]. split; [done|]. constructor; [by apply aside_calls|constructor]. }
  destruct y as [e|ct].
  - case_match; [apply wp_ret|apply wp_throw]; (split; [done|by intros [=]]).
  - apply wp_ret. split; [done|]. destruct (ct_state ct) as [st|] eqn:Hct; intros [= Hst].
    exists ct, st. split; [by left|done].
Qed.

(** A verdict that is good was seen. *)
Lemma healthy_fit ct : healthy ct = Some true → fit ct.
Proof.
  unfold healthy, fit. intros Hh st verdict Hst Hv. rewrite Hst in Hh. simpl in Hh. rewrite Hv in Hh. by repeat case_decide.
Qed.
Lemma poll_health_seen base polls s :
  base `suffix_of` s_log s →
  wp (poll_health polls candidate) (λ x s', x = inr true → after base seen_up (s_log s')) s.
Proof.
  revert s. induction polls as [|polls IH]; intros s Hb; simpl; [by apply wp_ret|].
  assert (HA : ∀ s, base `suffix_of` s_log s →
    wp (_ ← fallible; poll_health polls candidate) (λ x s', x = inr true → after base seen_up (s_log s')) s).
  { intros s' Hs'. apply wp_bind, wp_query; [done|]. by apply IH. }
  apply wp_bind, wp_attempt, wp_ask. intros [e|ct] o; [by apply HA, suffix_cons_r|].
  destruct (healthy ct) as [[]|] eqn:Hh; [|by apply wp_ret|by apply HA, suffix_cons_r].
  apply wp_ret. intros _. destruct Hb as [l Hl]. eexists (_ :: l). split; [simpl; by rewrite Hl|].
  exists ct. split; [by left|by apply healthy_fit].
Qed.

(** What follows a part and keeps what the log shows. *)
Lemma wp_seen {A B} (D : list event → Prop) (m : M Site A) (k : A → M Site B) s :
  (∀ P s s', grows P s s' → D (s_log s) → D (s_log s')) →
  wp m (λ x s', if_ok (λ _ s', D (s_log s')) x s') s →
  (∀ a, within (λ _, True) (λ _, True) (k a)) →
  wp (m ≫= k) (λ x s', if_ok (λ _ s', D (s_log s')) x s') s.
Proof.
  intros HD Hm Hk. apply wp_bind. eapply wp_mono; [|apply Hm]. intros [e|a] s' Hs'; [done|].
  eapply wp_mono; [|apply Hk]. intros [e|b] s2 [HG _]; [done|]. by eapply HD.
Qed.

Lemma step_seen {A} (base : list event) (D : list event → Prop) (m : M Site A) s :
  base `suffix_of` s_log s →
  (∀ s, base `suffix_of` s_log s → wp m (λ x s', if_ok (λ _ s', D (s_log s')) x s') s) →
  wp (step m) (λ x s', if_ok (λ _ s', D (s_log s')) x s') s.
Proof.
  intros Hb Hm. apply wp_bind, wp_sql. intros [e|u] o t; [done|].
  apply wp_bind, wp_attempt. eapply wp_mono; [|by apply Hm]. intros [e|a] s1 H1; simpl.
  - apply wp_bind, wp_ignore, wp_sql. intros x o1 t1. by apply wp_throw.
  - apply wp_bind, wp_ignore, wp_sql. intros x o1 t1. by apply wp_ret.
Qed.

Lemma after_seen_up_grows base P s s' : grows P s s' → after base seen_up (s_log s) → after base seen_up (s_log s').
Proof. apply after_grows, seen_up_more. Qed.

Lemma healthcheck_seen base s :
  base `suffix_of` s_log s → wp (healthcheck r true) (if_ok (λ _ s', after base seen_up (s_log s'))) s.
Proof.
  intros Hb. unfold healthcheck. cbv zeta. apply (wp_seen (after base seen_up)); [apply after_seen_up_grows| |].
  - apply (step_seen base); [done|]. intros s0 H0. unfold awaitCandidate.
    apply wp_bind. eapply wp_mono; [|by apply poll_health_seen]. intros [e|[]] s1 H1; [done| |].
    + apply wp_ret. by apply H1.
    + intros fs. unfold candidateFailure. rewrite run_bind. by destruct (ignore _ fs s1) as [[?|?] [??]].
  - intros a. by apply runHook_within.
Qed.

Lemma routing_content_yields endpoint :
  yields (λ _, True) (λ _, True)
    (λ x, match x with None => r_preview r = None ∧ c_scale_to_zero c = true | Some content => content = "" ↔ routeless end)
    (routing_content r endpoint).
Proof.
  assert (HR : ∀ ep a, rendered c (route_group c ep a) = "" ↔ c_routes c = []).
  { intros ep a. rewrite rendered_content. unfold route_group. by case_decide. }
  unfold routing_content, routeless. subst c. destruct (r_preview r) as [p|] eqn:Hp.
  - destruct (p_fqdn p) as [fqdn|] eqn:Hf; unfold previewSingleRouteGroup; rewrite ?Hf;
      [destruct fqdn as [|a fqdn]|]; simpl;
      within; try done; unfold previewSSOAuthURL, previewAuthHash, ensureAgent; within; try done;
      (split; intros Hr; [by destruct (renderPreviewContent_content _ _ _ _ _ _ Hr)|discriminate Hr]).
  - pose proof (HR "" (c_access (r_config r))) as HG.
    destruct (route_group (r_config r) "" (c_access (r_config r))) as [rg|] eqn:Hg;
      within; try done; unfold ensureAgent, read_routes; within; try done; try apply HR.
    by rewrite <- HG, !rendered_content.
Qed.

Lemma applyRoutingTo_seen ip s :
  ip ≠ "" → wp (applyRoutingTo r ip) (if_ok (λ _ s', unswitched ∨ after (s_log s) (proxy_serves ip) (s_log s'))) s.
Proof.
  intros Hip. unfold applyRoutingTo, unswitched. fold c. destruct (c_traefik c) eqn:Ht; simpl; [|apply wp_ret; by left; left].
  apply wp_bind. eapply wp_mono; [|apply routing_content_yields].
  intros [e|[content|]] s1 [HG Hn]; [done| |apply wp_ret; by left; right].
  eapply wp_mono with (P := if_ok (λ _ s', after (s_log s) (shown id content
    (if decide (content ≠ "" ∧ ip ≠ "") then "http://" +:+ ip +:+ ":" else "")) (s_log s'))).
  - intros [e|[]] s2; [done|]. intros (later & Hl & Hsh). right. exists later. split; [done|].
    destruct (decide (content = "")) as [Hc|Hc].
    + right. split; [by apply Hn|]. destruct Hsh as (out & He & Hin). exists out. split; [done|].
      unfold exposed in He. rewrite decide_True in He by done. by apply negb_true_iff.
    + left. rewrite decide_True in Hsh by done. by eapply shown_served.
  - eapply (step_seen (s_log s)).
    + by eapply grows_suffix.
    + intros s2 Hs2. by apply Apply_shown.
Qed.

Section Attempt.
Hypothesis distinct : old ≠ candidate.

(** A part whatever its errors, when it leaves the serving container aside. *)
Let parts {A} (m : M Site A) := within aside (λ _, True) m.
Local Ltac spare := try exact aside_calls; try done; try (by intros *; intros [?|?]); try (by split; intros [?|?]);
  try (apply aside_candidate, distinct).

(** A candidate that was started was created. *)
Lemma start_candidate_created ref s : wp (start_candidate r true ref) (if_ok (λ _ s', created (s_log s'))) s.
Proof.
  unfold start_candidate. apply (step_seen []); [apply suffix_nil|]. intros s0 _.
  apply wp_bind, wp_ret. eapply wp_then; [by apply (removeNamed_within (λ _, True) (λ _, True))|done|].
  intros s1 _ _. apply wp_bind, wp_ask. intros [e|[]] o; [done|].
  apply wp_ask. intros [e|u] o'; [done|]. eexists _, _. right. by left.
Qed.

Lemma start_safe ref s :
  safe s → wp (start r ref) (λ x s', safe s' ∧ if_ok (λ rolling s', rolling = true → created (s_log s')) x s') s.
Proof.
  intros Hs. unfold start. case_match; [by apply wp_throw|].
  eapply wp_then; [apply (within_sql aside (λ _, True)); done|..].
  { intros s' e HG _. split; [eauto using safe_aside|done]. }
  intros s1 _ HG1. eapply wp_then; [apply (within_ask aside (λ _, True)); spare|..].
  { intros s' e HG _. split; [eauto using safe_aside2|done]. }
  intros s2 _ HG2. assert (H2 : safe s2) by (eauto using safe_aside2).
  unfold healthConfig. apply wp_bind, wp_bind, wp_attempt, wp_sql. intros row o t.
  set (found := match row with inr _ => _ | inl _ => _ end).
  apply wp_bind, wp_tell, wp_ret. unfold logged. simpl.
  match goal with |- wp _ _ ?x => set (s3 := x) end.
  assert (H3 : safe s3) by (split; [by intros [?|?]|done]).
  assert (HF : FoundHealthCheck found ∈ s_log s3) by (by left).
  apply wp_bind. destruct found eqn:Hf.
  - eapply wp_mono; [|apply wp_both; [apply (start_candidate_within r aside (λ _, True))|apply start_candidate_created]]; spare.
    intros [e|u] s4 [[HG _] Hc]; [|apply wp_ret]; (split; [by eapply safe_aside|]); [done|]. intros _. exact Hc.
  - eapply wp_mono; [|apply (start_candidate_within r (λ _, True) (λ _, True))]; spare.
    assert (HL : licensed (s_log s3)) by (by left).
    intros [e|u] s4 [HG _]; [|apply wp_ret]; (split; [by eapply safe_licensed|done]).
Qed.

Lemma promote_safe s : safe s → licensed (s_log s) →
  ∀ k : M Site (), within aside (λ _, True) k →
  wp (_ ← step (promoteCandidate r); k) (λ _ s', safe s') s.
Proof.
  intros Hs HL k Hk. eapply wp_then.
  - apply (step_within (λ _, True) (λ _, True)), promote_within; done.
  - intros s' e HG _. by eapply safe_licensed.
  - intros s' u HG. eapply wp_mono; [|apply Hk]. intros x s2 [HG2 _].
    eauto using safe_aside, safe_licensed.
Qed.

(** The tail of every switch. *)
Lemma routed_finish_aside : within aside (λ _, True) (_ ← applyRouting r; finish r).
Proof.
  apply within_bind; [apply applyRoutingTo_within; spare|intros _]. apply finish_within; spare.
Qed.

Lemma resume_safe s : safe s → wp (resume r) (λ _ s', safe s') s.
Proof.
  intros Hs. unfold resume. case_decide as Hst; [|by apply wp_ret].
  apply wp_bind. eapply wp_mono; [|apply containerState_seen]. intros [e|oldState] s1 [HG1 _]; [eauto using safe_aside|].
  apply wp_bind. eapply wp_mono; [|apply containerState_seen]. intros [e|nextState] s2 [HG2 Hseen].
  { eauto using safe_aside2. }
  assert (H2 : safe s2) by (eauto using safe_aside2).
  assert (HL : nextState = "running" → licensed (s_log s2)).
  { intros ->. right. right. split; [done|]. by apply Hseen. }
  apply wp_bind. eapply wp_mono with (P := λ _ s', safe s').
  { intros [e|u] s' Hs'; [done|]. by apply wp_ret. }
  assert (HS : ∀ (m : M Site ()), (∀ s', grows aside s2 s' → safe s' → wp m (λ _ s', safe s') s') →
    wp (_ ← skipStep; m) (λ _ s', safe s') s2).
  { intros m Hm. eapply wp_aside; [apply skipStep_within; done|done|done|]. intros s' _ HG Hs'. by apply Hm. }
  unfold resume_inspected. repeat case_decide; apply HS; intros s3 HG3 Hs3.
  - eapply wp_mono; [|apply routed_finish_aside]. intros x s4 [HG4 _]. eauto using safe_aside.
  - eapply wp_then; [apply (step_within (λ _, True) (λ _, True)); [done|]; apply within_ask; done|..].
    + intros s4 e HG4 _. eapply safe_licensed; [done| |done]. eapply licensed_grows; [done|]. apply HL. naive_solver.
    + intros s4 _ HG4. eapply wp_mono; [|apply routed_finish_aside]. intros x s5 [HG5 _].
      eapply safe_aside; [done|]. eapply safe_licensed; [done| |done]. eapply licensed_grows; [done|]. apply HL. naive_solver.
  - apply promote_safe; [done| |apply routed_finish_aside].
    eapply licensed_grows; [done|]. apply HL. naive_solver.
  - by apply wp_throw.
Qed.

Lemma resolve_endpoint_seen s :
  wp (step (ct ← ask (Inspect candidate);
            if decide (ct_ip ct = "") then throw (Failure "could not resolve the candidate IP") else mret (ct_ip ct)))
    (λ x s', grows aside s s' ∧ if_ok (λ ip s', ∃ ct, ct_ip ct ≠ "" ∧ ip = ct_ip ct ∧
       after (s_log s) (λ l, Called (Inspect candidate) (inr ct) ∈ l) (s_log s')) x s') s.
Proof.
  apply wp_bind, wp_sql. intros [e|u] o t; [split; [by exists []|done]|].
  apply wp_bind, wp_attempt, wp_bind, wp_ask. intros y o1.
  assert (HG : ∀ o2 t2, grows aside s (mkSite o2 t2 (s_memory s) (Called (Inspect candidate) y :: s_log s))).
  { intros o2 t2. eexists [_]. split; [done|]. constructor; [by apply aside_calls|constructor]. }
  destruct y as [e|ct]; [|case_decide as Hip; [apply wp_throw|apply wp_ret]];
    apply wp_bind, wp_ignore, wp_sql; intros x o2 t2; simpl; [apply wp_throw|apply wp_throw|apply wp_ret];
    (split; [apply HG|]); [done..|].
  exists ct. split_and!; [done..|]. eexists [_]. split; [done|by left].
Qed.

(** Up, then asked for its address, then seen in the proxy. *)
Lemma licensed_switch ct l asked later :
  ct_ip ct ≠ "" → followed created seen_up l → Called (Inspect candidate) (inr ct) ∈ asked →
  unswitched ∨ proxy_serves (ct_ip ct) later → licensed (later ++ asked ++ l).
Proof.
  intros Hip (base & HC & up & -> & Hup) Hin Hsw. right. left. exists base. split; [done|].
  exists (later ++ asked ++ up). split; [by rewrite !(assoc_L (++))|]. destruct Hsw as [Hu|Hp].
  - left. split; [done|]. destruct Hup as (ct' & ? & ?). exists ct'. split; [set_solver|done].
  - right. exists up. split; [done|]. exists (later ++ asked). split; [by rewrite (assoc_L (++))|].
    exists ct. split; [done|]. exists asked. split; [done|]. by exists later.
Qed.

Lemma switch_safe rolling s :
  safe s → (rolling = true → followed created seen_up (s_log s)) → wp (switch r rolling) (λ _ s', safe s') s.
Proof.
  intros Hs Hup. unfold switch. destruct rolling.
  - apply wp_bind, wp_bind. eapply wp_mono; [|apply resolve_endpoint_seen].
    intros [e|ip] s1 [HG1 Hip]; [eauto using safe_aside|]. destruct Hip as (ct & Hne & -> & asked & Hl1 & Hin).
    assert (H1 : safe s1) by eauto using safe_aside.
    apply wp_bind. eapply wp_mono; [|apply wp_both; [apply (applyRoutingTo_within r aside (λ _, True)); spare|by apply applyRoutingTo_seen]].
    intros [e|[]] s2 [[HG2 _] Hsw]; [eauto using safe_aside|].
    assert (H2 : safe s2) by eauto using safe_aside.
    assert (HL : licensed (s_log s2)).
    { destruct HG2 as (later & Hl2 & _), Hsw as [Hu|(later' & Hl' & Hp)];
        [rewrite Hl2|rewrite Hl']; rewrite Hl1; apply (licensed_switch ct); auto. }
    eapply wp_mono; [|apply (step_within (λ _, True) (λ _, True)); [done|]; by apply promote_within].
    intros [e|u] s3 [HG3 _]; [eauto using safe_licensed|].
    eapply wp_mono; [|apply routed_finish_aside]. intros x s4 [HG4 _]. eauto using safe_aside, safe_licensed.
  - eapply wp_aside; [apply (step_within aside (λ _, True)); [done|]; within; spare|done|done|].
    intros s1 _ HG1 H1. eapply wp_mono; [|apply routed_finish_aside]. intros x s2 [HG2 _]. eauto using safe_aside.
Qed.

Lemma pipeline_safe s : safe s → wp (pipeline r) (λ _ s', safe s') s.
Proof.
  intros Hs. unfold pipeline.
  eapply wp_aside; [apply prepare_within; spare|done|done|]. intros s1 _ _ H1.
  eapply wp_aside; [apply enter_within; spare|done|done|]. intros s2 _ _ H2.
  eapply wp_aside; [apply build_within; spare|done|done|]. intros s3 ref _ H3.
  eapply wp_aside; [apply enter_within; spare|done|done|]. intros s4 _ _ H4.
  apply wp_bind. eapply wp_mono; [|by apply start_safe]. intros [e|rolling] s5 [H5 Hc]; [done|].
  eapply wp_aside; [apply enter_within; spare|done|done|]. intros s6 _ HG6 H6.
  apply wp_bind.
  eapply wp_mono with (P := λ x s', grows aside s6 s' ∧
    if_ok (λ _ s', rolling = true → followed created seen_up (s_log s')) x s').
  - intros [e|[]] s7 [HG7 Hup]; [eauto using safe_aside|].
    assert (H7 : safe s7) by eauto using safe_aside.
    eapply wp_aside; [apply enter_within; spare|done|done|]. intros s8 _ HG8 H8.
    apply switch_safe; [done|]. intros Hr. eapply followed_grows; [apply seen_up_more|exact HG8|by apply Hup].
  - destruct rolling.
    + eapply wp_mono; [|apply wp_both; [apply (healthcheck_within r aside (λ _, True)); spare|apply (healthcheck_seen (s_log s5))]].
      * intros [e|u] s7 [[HG7 _] Hup]; (split; [done|]); [done|]. intros _. exists (s_log s5). by split; [apply Hc|].
      * eapply grows_suffix; [done|reflexivity].
    + eapply wp_mono; [|apply (healthcheck_within r aside (λ _, True)); spare].
      intros [e|u] s7 [HG7 _]; by split.
Qed.

Lemma execute_safe s : safe s → wp (execute r) (λ _ s', safe s') s.
Proof.
  intros Hs. unfold execute. case_match; [by apply wp_throw|].
  eapply wp_aside; [apply enter_within; spare|done|done|]. intros s1 _ _ H1.
  eapply wp_aside; [apply connect_within; spare|done|done|]. intros s2 _ _ H2.
  apply wp_bind. eapply wp_mono; [|by apply resume_safe]. intros [e|[]] s3 H3; [done|by apply wp_ret|].
  by apply pipeline_safe.
Qed.

Lemma compensations_aside :
  within aside (λ _, True) (markFailed r) ∧ within aside (λ _, True) (markCancelled r).
Proof.
  split; [unfold markFailed|unfold markCancelled]; within; spare;
    first [apply remove_candidate_within; spare | apply setStatus_within; spare].
Qed.
End Attempt.

(** C1: whatever Docker, the proxy, the database and the other workers answer
    and do, and wherever the process dies, an attempt stops, removes, replaces or
    renames the serving container only in one of three situations.  It found no
    enabled health check (there is none, it is disabled, or it could not be read):
    the serving container is then stopped before its replacement starts.  Or, in
    this order, it created the candidate, saw it up (Docker gave the verdict
    healthy, or none), was told its address, and saw the proxy serve the routes
    with that address — or no route at all, when no domain leads to what is
    deployed; the sighting is left out where no traffic is switched: no proxy is
    managed, or the application scales to zero and its traffic goes to the waker.
    Or the deployment had died in the switch before this attempt, and its candidate
    was seen running.  The container in service is not named like the candidate. *)
Theorem serving_container_safe s :
  old_name r ≠ candidate_name r → s_log s = [] →
  wp (attempt_run r) (λ _ s', guarded touches_serving licensed (s_log s')) s.
Proof.
  intros Hd Hs. assert (H0 : safe s) by (unfold safe; by rewrite Hs).
  destruct (compensations_aside Hd) as [HF HC].
  unfold attempt_run, concluded. apply wp_bind, wp_attempt. eapply wp_mono; [|by apply execute_safe].
  intros [e|u] s1 H1; [|by apply wp_ret].
  repeat case_match; try (by apply wp_ret); try (by apply wp_throw);
    (apply wp_bind; eapply wp_mono; [|first [apply HC|apply HF]]); intros [e'|u'] s2 [HG _];
    try apply wp_ret; exact (safe_aside _ _ HG H1).
Qed.
End Safety.

(** ** The statuses of an attempt *)

(** The statuses written, the latest first. *)
Definition statuses (l : list event) : list DeploymentStatus := omap writes l.
Definition latest (l : list event) : option DeploymentStatus := head (statuses l).

(** The status that may follow, in an attempt that resumes a deployment that died
    in the switch and in another one. *)
Definition may_follow (resumes : bool) (before : option DeploymentStatus) (st : DeploymentStatus) : bool :=
  match before, st with
  | None, (SPreparing | SFailed | SCancelled) => true
  | Some SPreparing, SBuilding => negb resumes
  | Some SPreparing, SFinishing => resumes
  | Some SPreparing, (SFailed | SCancelled) => true
  | Some SBuilding, (SCloning | SStarting | SFailed | SCancelled) => true
  | Some SCloning, (SBuilding | SFailed) => true
  | Some SStarting, (SHealthchecking | SFailed | SCancelled) => true
  | Some SHealthchecking, (SSwitching | SFailed | SCancelled) => true
  | Some SSwitching, (SFinishing | SFailed) => true
  | Some SFinishing, (SSucceeded | SFailed) => true
  | Some SSucceeded, SFailed => true
  | _, _ => false
  end.
Fixpoint in_order (resumes : bool) (l : list DeploymentStatus) : Prop :=
  match l with [] => True | st :: l' => may_follow resumes (head l') st = true ∧ in_order resumes l' end.

(** No status, and no answer to the last one. *)
Definition silent (e : event) : Prop := writes e = None ∧ e ≠ Recorded SSucceeded.

Lemma silent_calls A (k : call A) x : harmless k = true → silent (Called k x).
Proof. done. Qed.
Lemma silent_statuses `{Surroundings} s s' : grows silent s s' → statuses (s_log s') = statuses (s_log s).
Proof.
  intros (l & -> & Hl). unfold statuses. rewrite omap_app.
  replace (omap writes l) with (@nil DeploymentStatus); [done|].
  induction Hl as [|e l [He _] Hl IH]; [done|]. cbn. by rewrite He, <- IH.
Qed.
Lemma silent_recorded `{Surroundings} s s' :
  grows silent s s' → Recorded SSucceeded ∉ s_log s → Recorded SSucceeded ∉ s_log s'.
Proof.
  intros (l & -> & Hl) Hs [Hin|Hin]%elem_of_app; [|done]. rewrite Forall_forall in Hl. by destruct (Hl _ Hin).
Qed.

Section Statuses.
Context `{Surroundings} (r : Deploy).

Definition resumes : bool := bool_decide (r_status r = SSwitching ∨ r_status r = SFinishing).

(** At [Y] on success; with an error, where that error may be recorded, and the
    success was not. *)
Definition at_stage (Y : option DeploymentStatus) (s : Site) : Prop :=
  in_order resumes (statuses (s_log s)) ∧ latest (s_log s) = Y ∧
  (Y ≠ Some SSucceeded → Recorded SSucceeded ∉ s_log s).
Definition stage (Y : option DeploymentStatus) {A} (x : err + A) (s : Site) : Prop :=
  match x with
  | inr _ => at_stage Y s
  | inl e => in_order resumes (statuses (s_log s)) ∧ may_follow resumes (latest (s_log s)) SFailed = true ∧
             (e = errCancelled → may_follow resumes (latest (s_log s)) SCancelled = true) ∧
             Recorded SSucceeded ∉ s_log s
  end.

Lemma stage_bind Y Z {A B} (m : M Site A) (k : A → M Site B) s :
  wp m (stage Y) s → (∀ a s', at_stage Y s' → wp (k a) (stage Z) s') → wp (m ≫= k) (stage Z) s.
Proof.
  intros Hm Hk. apply wp_bind. eapply wp_mono; [|apply Hm]. intros [e|a] s' Hs; [done|]. by apply Hk.
Qed.

(** A part that writes no status, after which success is not recorded yet. *)
Lemma stage_silent Y {A} E (m : M Site A) s :
  within silent E m → Y ≠ Some SSucceeded → may_follow resumes Y SFailed = true →
  (∀ e, E e → e = errCancelled → may_follow resumes Y SCancelled = true) → at_stage Y s → wp m (stage Y) s.
Proof.
  intros Hm HY HF HC (Ho & HL & HN). eapply wp_mono; [|apply Hm]. intros x s' [HG HE].
  pose proof (silent_recorded _ _ HG (HN HY)). unfold latest in HL.
  destruct x as [e|a]; unfold stage, at_stage, latest; rewrite (silent_statuses s s' HG); [|done].
  rewrite HL. split_and!; [done..| |done]. by apply HC.
Qed.

(** The write of a status other than the last, and of the last. *)
Lemma setStatus_writes st s :
  wp (setStatus r st) (λ x s', statuses (s_log s') = st :: statuses (s_log s) ∧
    (x ≠ inr () ∨ st ≠ SSucceeded → Recorded SSucceeded ∉ s_log s → Recorded SSucceeded ∉ s_log s') ∧
    if_err (λ e, st = SPreparing ∨ e ≠ errCancelled) x) s.
Proof.
  unfold setStatus. apply wp_bind, wp_tell. unfold logged.
  match goal with |- wp _ _ ?x => set (s1 := x) end.
  assert (HN : Recorded SSucceeded ∉ s_log s → Recorded SSucceeded ∉ s_log s1) by (simpl; set_solver).
  eapply wp_then with (P := silent) (E := λ e, st = SPreparing ∨ e ≠ errCancelled).
  - within; try done; try (by left); try (by right).
    + destruct a as [-> _]. apply start_when_free_within; naive_solver.
    + unfold SetDeploymentStatus. within; try done; by right.
  - intros s' e HG He. rewrite (silent_statuses _ _ HG). split_and!; [done| |done]. eauto using silent_recorded.
  - intros s2 _ HG. apply wp_bind, wp_tell. eapply wp_mono; [|apply (within_ignore silent (λ _, False)); by within].
    intros x s3 [HG3 Hx]. destruct x as [e|[]]; [done|]. unfold statuses in *.
    pose proof (silent_statuses _ _ HG) as HS. pose proof (silent_statuses _ _ HG3) as HS3. unfold statuses in *.
    rewrite HS3. cbn. rewrite HS. split_and!; [done| |done]. intros [?|Hst] HR; [done|].
    eapply silent_recorded; [exact HG3|]. simpl. apply not_elem_of_cons. split; [naive_solver|]. eauto using silent_recorded.
Qed.

Lemma stage_setStatus X st s :
  at_stage X s → X ≠ Some SSucceeded → may_follow resumes X st = true →
  st ∈ [SPreparing; SBuilding; SCloning; SStarting; SHealthchecking; SSwitching; SFinishing; SSucceeded] →
  wp (setStatus r st) (stage (Some st)) s.
Proof.
  intros (Ho & HL & HN) HX Hf Hst. specialize (HN HX). unfold latest in HL.
  eapply wp_mono; [|apply setStatus_writes]. intros x s' (HS & HR & HE).
  assert (HO : in_order resumes (statuses (s_log s'))) by (rewrite HS; split; [by rewrite HL|done]).
  destruct x as [e|[]]; unfold stage, at_stage, latest; rewrite ?HS.
  - split_and!; [by rewrite <- HS| | |apply HR; [by left|done]].
    + simpl. set_unfold. naive_solver.
    + intros ->. by destruct HE as [->|HE].
  - split_and!; [by rewrite <- HS|done|]. intros Hne. apply HR; [right|done]. by intros ->.
Qed.

Lemma stage_enter X st s :
  at_stage X s → X ≠ Some SSucceeded → may_follow resumes X st = true → may_follow resumes X SCancelled = true →
  st ∈ [SPreparing; SBuilding; SCloning; SStarting; SHealthchecking; SSwitching; SFinishing; SSucceeded] →
  wp (enter r st) (stage (Some st)) s.
Proof.
  intros Hs HY HX HC Hst. unfold enter. eapply stage_bind; [|intros ? s' Hs'; by eapply stage_setStatus].
  eapply (stage_silent X (λ _, True)); [|done|by destruct X as [[]|]|done|done].
  apply checkpoint_within; done.
Qed.

Definition uncancellable (e : err) : Prop := e ≠ errCancelled.

(** A part that writes no status and has no checkpoint. *)
Lemma stage_part Y {A} (m : M Site A) s :
  within silent uncancellable m → at_stage Y s → may_follow resumes Y SFailed = true → Y ≠ Some SSucceeded → wp m (stage Y) s.
Proof. intros Hm Hs HF HY. eapply stage_silent; [done..| |done]. by intros e He ->. Qed.

Lemma stage_throw Y Z {A} e s :
  at_stage Y s → e ≠ errCancelled → may_follow resumes Y SFailed = true → Y ≠ Some SSucceeded →
  wp (throw (A := A) e) (stage Z) s.
Proof. intros (Ho & HL & HN) He HF HY. apply wp_throw. unfold stage. rewrite HL. split_and!; [done..|by apply HN]. Qed.

(** What is silent leaves a stage before the end. *)
Lemma silent_stage Y s s' : grows silent s s' → Y ≠ Some SSucceeded → at_stage Y s → at_stage Y s'.
Proof.
  intros HG HY (Ho & HL & HN). unfold at_stage, latest in *. rewrite (silent_statuses s s' HG).
  split_and!; [done..|]. intros _. eapply silent_recorded; [done|by apply HN].
Qed.

Lemma stage_deferred Y {A} after (m : M Site A) s :
  within silent (λ _, True) after → Y ≠ Some SSucceeded → wp m (stage Y) s → wp (deferred after m) (stage Y) s.
Proof.
  intros Ha HY Hm. apply wp_bind, wp_attempt. eapply wp_mono; [|apply Hm]. intros x s1 Hx.
  apply wp_bind, wp_ignore. eapply wp_mono; [|apply Ha]. intros y s2 [HG _].
  destruct x as [e|a]; [apply wp_throw|apply wp_ret; by eapply silent_stage].
  destruct Hx as (Ho & HF & HC & HN). unfold stage, latest in *. rewrite (silent_statuses s1 s2 HG).
  split_and!; [done..|]. by eapply silent_recorded.
Qed.

Ltac silently := by first [ exact silent_calls | done ].

Lemma buildFromGit_stage s : at_stage (Some SBuilding) s → wp (buildFromGit r) (stage (Some SBuilding)) s.
Proof.
  intros Hs. unfold buildFromGit. cbv zeta. case_match; [|by eapply stage_throw].
  eapply stage_bind; [eapply stage_setStatus; [done|done|done|set_solver]|]. intros _ s1 H1.
  apply wp_bind. eapply wp_mono; [|apply (installDeployKey_yields r silent uncancellable); silently].
  intros [e|k] s2 [HG Hk].
  { apply (silent_stage _ _ _ HG) in H1 as (Ho & HL & HN); [|done]. unfold stage. rewrite HL. split_and!; [done..|]. by apply HN. }
  apply stage_deferred; [done..|]. apply (silent_stage _ _ _ HG) in H1 as H2; [|done].
  eapply stage_bind; [eapply stage_part; [apply checkout_within; silently|done..]|]. intros sha s3 H3.
  eapply stage_bind; [eapply stage_setStatus; [done|done|done|set_solver]|]. intros _ s4 H4.
  eapply stage_part; [apply build_image_within; silently|done..].
Qed.

Lemma build_stage s : at_stage (Some SBuilding) s → wp (build r) (stage (Some SBuilding)) s.
Proof.
  intros Hs. unfold build.
  eapply stage_bind; [|intros ref s' Hs'; eapply stage_part; [apply after_produce_within; silently|done..]].
  unfold produce. repeat case_match; try (by apply buildFromGit_stage);
    (eapply stage_part; [|done..]);
    first [ apply verify_artifact_within | apply pull_image_within | apply buildFromDockerfile_within ]; silently.
Qed.

Lemma finish_stage X s :
  at_stage X s → X ≠ Some SSucceeded → may_follow resumes X SFinishing = true → wp (finish r) (stage (Some SSucceeded)) s.
Proof.
  intros Hs HY HX. unfold finish.
  eapply stage_bind; [eapply stage_setStatus; [done|done|exact HX|set_solver]|]. intros _ s1 H1.
  eapply stage_bind; [eapply stage_part; [apply finish_rows_within; silently|done..]|]. intros _ s2 H2.
  eapply stage_setStatus; [done|done|done|set_solver].
Qed.

Lemma routed_finish_stage X s :
  at_stage X s → X ≠ Some SSucceeded → may_follow resumes X SFinishing = true →
  wp (_ ← applyRouting r; finish r) (stage (Some SSucceeded)) s.
Proof.
  intros Hs HY HX. eapply stage_bind.
  - eapply stage_part; [apply applyRoutingTo_within; silently|done|by destruct X as [[]|]|done].
  - intros _ s1 H1. by eapply finish_stage.
Qed.

Lemma switch_stage rolling s : at_stage (Some SSwitching) s → wp (switch r rolling) (stage (Some SSucceeded)) s.
Proof.
  intros Hs. unfold switch.
  eapply (stage_bind (Some SSwitching)); [|intros _ s1 H1; by eapply routed_finish_stage].
  eapply (stage_part (Some SSwitching)); [|done..]. destruct rolling.
  - repeat first [within_step | apply step_within; [done|]]; try done.
    + apply applyRoutingTo_within; silently.
    + apply promote_within; silently.
  - apply step_within; [done|]. within; done.
Qed.

Lemma resume_inspected_stage a b s :
  resumes = true → at_stage (Some SPreparing) s → wp (resume_inspected r a b) (stage (Some SSucceeded)) s.
Proof.
  intros HR Hs. assert (HX : may_follow resumes (Some SPreparing) SFinishing = true) by (by rewrite HR).
  unfold resume_inspected. repeat case_decide;
    (eapply stage_bind; [eapply stage_part; [apply skipStep_within; silently|done..]|]); intros _ s1 Hs1.
  - by eapply routed_finish_stage.
  - eapply stage_bind; [eapply stage_part; [|done..]|intros _ s2 Hs2; by eapply routed_finish_stage].
    apply step_within; [done|]. by apply within_ask.
  - eapply stage_bind; [eapply stage_part; [|done..]|intros _ s2 Hs2; by eapply routed_finish_stage].
    apply step_within; [done|]. apply promote_within; silently.
  - by eapply stage_throw.
Qed.

(** A resumed deployment has come to its end; another one is where it was. *)
Lemma resume_stage s :
  at_stage (Some SPreparing) s →
  wp (resume r) (λ x s', stage (Some (if x is inr true then SSucceeded else SPreparing)) x s' ∧
    (x = inr false → resumes = false)) s.
Proof.
  intros Hs. unfold resume, resumes. case_decide as Hd.
  - eapply wp_mono with (P := λ x s', stage (Some SSucceeded) x s' ∧ x ≠ inr false).
    { intros [e|[]] s' [Hx Hn]; [by split|by split|done]. }
    apply wp_bind. eapply wp_mono; [|eapply stage_part; [apply containerState_within; silently|done..]].
    intros [e|a] s1 H1; [by split|].
    apply wp_bind. eapply wp_mono; [|eapply stage_part; [apply containerState_within; silently|exact H1|done..]].
    intros [e|b] s2 H2; [by split|].
    apply wp_bind. eapply wp_mono; [|apply resume_inspected_stage; [by apply bool_decide_eq_true|exact H2]].
    intros [e|u] s3 H3; [by split|]. by apply wp_ret.
  - apply wp_ret. split; [done|]. intros _. by apply bool_decide_eq_false.
Qed.

Lemma pipeline_stage s :
  resumes = false → at_stage (Some SPreparing) s → wp (pipeline r) (stage (Some SSucceeded)) s.
Proof.
  intros HR Hs. unfold pipeline.
  eapply stage_bind; [eapply stage_part; [apply prepare_within; silently|done..]|]. intros _ s1 H1.
  eapply stage_bind; [eapply stage_enter; [done|done|by rewrite HR|done|set_solver]|]. intros _ s2 H2.
  eapply stage_bind; [by apply build_stage|]. intros ref s3 H3.
  eapply stage_bind; [eapply stage_enter; [done|done|done|done|set_solver]|]. intros _ s4 H4.
  eapply stage_bind; [eapply stage_part; [|done..]|].
  { unfold start, healthConfig. within; try done. apply start_candidate_within; silently. }
  intros rolling s5 H5.
  eapply stage_bind; [eapply stage_enter; [done|done|done|done|set_solver]|]. intros _ s6 H6.
  eapply stage_bind; [eapply stage_part; [apply healthcheck_within; silently|done..]|]. intros _ s7 H7.
  eapply stage_bind; [eapply stage_enter; [done|done|done|done|set_solver]|]. intros _ s8 H8.
  by apply switch_stage.
Qed.

Lemma execute_stage s : at_stage None s → wp (execute r) (stage (Some SSucceeded)) s.
Proof.
  intros Hs. unfold execute. case_match; [by eapply stage_throw|].
  eapply stage_bind; [eapply stage_enter; [done|done|done|done|set_solver]|]. intros _ s1 H1.
  eapply stage_bind; [eapply (stage_silent (Some SPreparing) (λ _, True)); [|done..]|].
  { apply connect_within; done. }
  intros _ s2 H2. apply wp_bind. eapply wp_mono; [|by apply resume_stage].
  intros [e|[]] s3 [H3 HR]; [exact H3|by apply wp_ret|]. by apply pipeline_stage; [apply HR|].
Qed.

(** Where a terminal status may be written. *)
Definition ending (st : DeploymentStatus) (s : Site) : Prop :=
  in_order resumes (statuses (s_log s)) ∧ may_follow resumes (latest (s_log s)) st = true ∧ Recorded SSucceeded ∉ s_log s.
Definition ended (s : Site) : Prop := in_order resumes (statuses (s_log s)) ∧ Recorded SSucceeded ∉ s_log s.

Lemma ending_silent st s s' : grows silent s s' → ending st s → ending st s'.
Proof.
  intros HG (Ho & Hf & HN). unfold ending, latest in *. rewrite (silent_statuses _ _ HG). eauto using silent_recorded.
Qed.
Lemma ended_silent s s' : grows silent s s' → ended s → ended s'.
Proof. intros HG [Ho HN]. unfold ended. rewrite (silent_statuses _ _ HG). eauto using silent_recorded. Qed.
Lemma ending_ended st s : ending st s → ended s.
Proof. by intros (? & _ & ?). Qed.

Lemma wp_ending {A} st (m : M Site A) (k : A → M Site ()) s :
  within silent (λ _, True) m → ending st s → (∀ a s', ending st s' → wp (k a) (λ _ s', ended s') s') →
  wp (m ≫= k) (λ _ s', ended s') s.
Proof.
  intros Hm Hs Hk. eapply wp_then; [exact Hm|..].
  - intros s' e HG _. by eapply ending_ended, ending_silent.
  - intros s' a HG. by eapply Hk, ending_silent.
Qed.
Lemma terminal_ended st s : st ≠ SSucceeded → ending st s → wp (ignore (setStatus r st)) (λ _ s', ended s') s.
Proof.
  intros Hst (Ho & Hf & HN). apply wp_ignore. eapply wp_mono; [|apply setStatus_writes]. intros x s' (HS & HR & _).
  unfold ended. rewrite HS. split; [done|]. apply HR; [by right|done].
Qed.

Lemma compensations_ended s :
  (ending SCancelled s → wp (markCancelled r) (λ _ s', ended s') s) ∧
  (ending SFailed s → wp (markFailed r) (λ _ s', ended s') s).
Proof.
  assert (HR : within silent (λ _, True) (remove_candidate r)) by (by apply remove_candidate_within).
  split; intros Hs.
  - apply (wp_ending SCancelled); [done..|]. intros _ s1 H1. by apply terminal_ended.
  - apply (wp_ending SFailed); [by within|done|]. intros _ s1 H1. apply (wp_ending SFailed); [done..|]. intros _ s2 H2.
    apply (wp_ending SFailed); [by within|done|]. intros _ s3 H3.
    apply wp_bind. eapply wp_mono; [|by apply terminal_ended]. intros [e|u] s4 H4; [done|].
    eapply wp_mono; [|apply (within_ignore silent (λ _, True)); by within]. intros x s5 [HG _]. by eapply ended_silent.
Qed.
End Statuses.

(** ** The order of the statuses *)

(** Nothing follows a status that the machine calls an end. *)
Lemma in_order_end resumes st later earlier :
  (∀ st', may_follow resumes (Some st) st' = false) → in_order resumes (later ++ st :: earlier) → later = [].
Proof.
  intros Hend Ho. destruct later as [|st' later]; [done|]. exfalso. revert st' Ho.
  induction later as [|st'' later IH]; intros st' [Hf Ho]; [by rewrite Hend in Hf|]. by apply (IH st'').
Qed.
Lemma in_order_drop resumes later earlier : in_order resumes (later ++ earlier) → in_order resumes earlier.
Proof. induction later as [|st later IH]; [done|]. intros [_ Ho]. by apply IH. Qed.
Lemma in_order_succeeded resumes later earlier :
  in_order resumes (later ++ SSucceeded :: earlier) → later = [] ∨ later = [SFailed].
Proof.
  intros Ho. destruct later as [|st later _] using rev_ind; [by left|right]. rewrite <- (assoc_L (++)) in Ho.
  pose proof (in_order_drop _ _ _ Ho) as [Hf _]. assert (st = SFailed) as -> by (by destruct st).
  apply (in_order_end resumes SFailed) in Ho as ->; [done|]. by intros [].
Qed.

(** Before the switch everything is before the switch. *)
Definition before_switch (st : DeploymentStatus) : bool :=
  bool_decide (st ∈ [SPreparing; SBuilding; SCloning; SStarting; SHealthchecking]).
Lemma in_order_before resumes l :
  in_order resumes l → default true (before_switch <$> head l) = true → Forall (λ st, before_switch st = true) l.
Proof.
  induction l as [|st l IH]; intros Hl Hh; [constructor|]. destruct Hl as [Hf Hl]. constructor; [done|].
  apply IH; [done|]. destruct l as [|prev l]; [done|]. simpl in *. destruct prev, st, resumes; done.
Qed.
Lemma cancelled_before_switch resumes l : in_order resumes (SCancelled :: l) → SSwitching ∉ l.
Proof.
  intros [Hf Hl] Hin. assert (HB : Forall (λ st, before_switch st = true) l).
  { eapply in_order_before; [done|]. destruct l as [|[] l]; done. }
  rewrite Forall_forall in HB. by specialize (HB SSwitching Hin).
Qed.


(** *** At the example *)

(** The deployment of [Shop] stops the serving container, after the switch. *)
Lemma serving_container_safe_witness :
  wp (attempt_run (H := alone) Shop.queued) (λ _ s', guarded (touches_serving Shop.queued) (licensed Shop.queued) (s_log s')) Shop.site ∧
  Exists (touches "shop") (s_log (snd (eval (attempt_run (H := alone) Shop.queued) Shop.site))).
Proof.
  split; [by apply (serving_container_safe Shop.queued)|].
  vm_compute. do 4 apply Exists_cons_tl.
  repeat first [ apply Exists_cons_hd; first [ by left | by right | done ] | apply Exists_cons_tl ].
Defined.

