(* ===== verification/DeployLive.v ===== *)
(** * Deployments: a run that meets no trouble

    On a server that behaves as documented ([Daemon.Documented]), with a database
    that answers, an attempt ends with exactly one container of the new image
    under the final name, routed by that name — and so does the resumption of an
    attempt that died in the switch, from each of the configurations the code
    recognises. *)
From stdpp Require Import pretty.
From S2P Require Import Prelude GoLib Queue Effects ControlDB Host Daemon ProxyApply AccessRoute ProxyRoutes DeployBuild DeployRun.
Local Open Scope Z_scope.

(** ** The file shows what the verification looks for *)

Definition infix_of (sub s : string) : Prop := ∃ a b, s = a +:+ (sub +:+ b).

Lemma infix_refl s : infix_of s s.
Proof. exists "", "". by rewrite append_nil_r. Qed.
Lemma infix_l sub a s : infix_of sub s → infix_of sub (a +:+ s).
Proof. intros (x & y & ->). exists (a +:+ x), y. by rewrite append_assoc. Qed.
Lemma infix_r sub s b : infix_of sub s → infix_of sub (s +:+ b).
Proof. intros (x & y & ->). exists x, (y +:+ b). by rewrite !append_assoc. Qed.
Lemma infix_of_contains sub s : infix_of sub s → contains_sub sub s = true.
Proof.
  intros (a & b & ->). induction a as [|c a IH].
  - rewrite append_empty_l. assert (HP : has_prefix (sub +:+ b) sub = true) by (apply has_prefix_spec; by exists b).
    destruct (sub +:+ b); simpl in *; by rewrite HP.
  - rewrite append_cons. simpl. by rewrite IH, orb_true_r.
Qed.
#[local] Hint Resolve infix_refl infix_l infix_r : core.

Lemma infix_lines sub x l : infix_of sub x → x ∈ l → infix_of sub (lines l).
Proof.
  intros Hx Hin. induction l as [|y l IH]; [by apply elem_of_nil in Hin|].
  apply elem_of_cons in Hin as [->|Hin]; unfold lines, line; simpl; fold (lines l); auto.
Qed.

(** Every route has a service with the name of the resource and its target. *)
Lemma GenerateDynamic_service rg rev route sub :
  route ∈ Routes rg → (∀ n, ∃ x, x ∈ write_service rg n route ∧ infix_of sub x) → infix_of sub (GenerateDynamic rg rev).
Proof.
  intros Hr Hx. apply sorted_routes_elem, list_elem_of_lookup in Hr as [n Hn].
  destruct (Hx n) as (x & Hin & Hs). unfold GenerateDynamic. eapply infix_lines; [exact Hs|].
  rewrite !elem_of_app. do 7 right. left. apply list_elem_of_join. exists (write_service rg n route).
  split; [done|]. apply elem_of_imap. by exists n, route.
Qed.

Lemma GenerateDynamic_names rg rev : Routes rg ≠ [] → infix_of (AppUUID rg) (GenerateDynamic rg rev).
Proof.
  destruct (Routes rg) as [|route routes] eqn:Hr; [done|intros _].
  apply (GenerateDynamic_service rg rev route); [rewrite Hr; by left|]. intros n.
  eexists. split; [by left|]. unfold scoped. auto 6.
Qed.

Lemma GenerateDynamic_targets rg rev route :
  route ∈ Routes rg → infix_of ("http://" +:+ routeTarget rg route +:+ ":") (GenerateDynamic rg rev).
Proof.
  intros Hr. apply (GenerateDynamic_service rg rev route); [done|]. intros n.
  eexists. split; [by do 3 right; left|]. rewrite <- !append_assoc. apply infix_r.
  rewrite !append_assoc. do 2 apply infix_l.
  exists "", (pretty (route_port route)). by rewrite !append_assoc.
Qed.

(** The proxy lists what is in a file. *)
Lemma services_file d path content sub :
  dm_files d !! path = Some content → infix_of sub content → infix_of sub (services_of d).
Proof.
  intros Hp Hs. unfold services_of. apply elem_of_map_to_list in Hp.
  induction (map_to_list (dm_files d)) as [|[k v] l IH]; [by apply elem_of_nil in Hp|].
  apply elem_of_cons in Hp as [[= <- <-]|Hp]; simpl; auto.
Qed.

(** ** Steps on a documented server *)

Section Live.
Context {S : Surroundings} `{!Documented S}.

(** The server, and the tables of [ControlDB], as a run finds and leaves them. *)
Definition here (d : Daemon) (w : World) (s : Site) : Prop :=
  view (s_out s) = d ∧ t_world (s_tables s) = w.

(** Run from [d] and [w] the program returns a value of [V] and leaves [d'], [w']. *)
Definition does {A} (m : M Site A) (V : A → Prop) (d : Daemon) (w : World) (d' : Daemon) (w' : World) : Prop :=
  ∀ s, here d w s → steady m (λ x s', ∃ a, x = inr a ∧ V a ∧ here d' w' s') s.

Lemma does_ret {A} (a : A) (V : A → Prop) d w : V a → does (mret a) V d w d w.
Proof. intros HV s Hs. apply steady_ret. by exists a. Qed.
Lemma does_bind {A B} (m : M Site A) (k : A → M Site B) V U d w d1 w1 d2 w2 :
  does m V d w d1 w1 → (∀ a, V a → does (k a) U d1 w1 d2 w2) → does (m ≫= k) U d w d2 w2.
Proof.
  intros Hm Hk s Hs. apply steady_bind. eapply steady_mono; [|by apply Hm].
  intros x s' (a & -> & HV & Hs'). by apply Hk.
Qed.
Lemma does_attempt {A} (m : M Site A) V d w d' w' :
  does m V d w d' w' → does (attempt m) (λ x, ∃ a, x = inr a ∧ V a) d w d' w'.
Proof.
  intros Hm s Hs. apply steady_attempt. eapply steady_mono; [|by apply Hm].
  intros x s' (a & -> & HV & Hs'). exists (inr a). split; [done|]. split; [by exists a|done].
Qed.
Lemma does_ignore {A} (m : M Site A) V d w d' w' : does m V d w d' w' → does (ignore m) (λ _, True) d w d' w'.
Proof.
  intros Hm s Hs. apply steady_ignore. eapply steady_mono; [|by apply Hm].
  intros x s' (a & -> & HV & Hs'). by exists ().
Qed.
Lemma does_ask {A} (k : call A) a d d' w : daemon k d = (d', Answer a) → does (ask k) (λ x, x = a) d w d' w.
Proof.
  intros Hk s [Hd Hw]. apply steady_ask. intros o b Hr. destruct (view_reply k (s_out s)) as [Hv Ha].
  rewrite Hr, Hd, Hk in Hv, Ha. simpl in *. subst b. by exists a.
Qed.
(** A call refused, when the refusal is all that matters. *)
Lemma does_tried {A} (k : call A) d d' a w :
  daemon k d = (d', a) → does (attempt (ask k)) (λ x, x = seen a) d w d' w.
Proof.
  intros Hk s [Hd Hw]. apply steady_attempt, steady_ask. intros o b Hr. destruct (view_reply k (s_out s)) as [Hv Ha].
  rewrite Hr, Hd, Hk in Hv, Ha. simpl in *. subst b. by eexists.
Qed.
Lemma does_ignored {A} (k : call A) d d' a w :
  daemon k d = (d', a) → does (ignore (ask k)) (λ _, True) d w d' w.
Proof. intros Hk. eapply does_bind; [by eapply does_tried|]. intros _ _. by apply does_ret. Qed.
Lemma does_sql {A} (f : Tables → Tables * (err + A)) (V : A → Prop) d w w' :
  (∀ t, t_world t = w → t_world (fst (f t)) = w' ∧ ∃ a, snd (f t) = inr a ∧ V a) → does (sql f) V d w d w'.
Proof.
  intros Hf s [Hd Hw]. apply steady_sql. intros o t Ho. destruct (view_others (s_out s) (s_tables s)) as [Hv Ht].
  rewrite Ho in Hv, Ht. simpl in *. subst t. destruct (Hf (s_tables s) Hw) as [Hw' (a & Ha & HV)].
  exists a. split; [done|]. split; [done|]. split; [simpl; congruence|done].
Qed.
Lemma does_bookkeeping d w : does bookkeeping (λ _, True) d w d w.
Proof. apply does_sql. intros t Ht. split; [done|]. by exists (). Qed.
Lemma does_fallible d w : does fallible (λ _, True) d w d w.
Proof. intros s Hs. apply steady_fallible. by exists (). Qed.
Lemma does_tell e d w : does (tell e) (λ _, True) d w d w.
Proof. intros s Hs. apply steady_tell. by exists (). Qed.
Lemma does_remember f d w : does (remember f) (λ _, True) d w d w.
Proof. intros s Hs. apply steady_remember. by exists (). Qed.
Lemma does_recall {A} (f : Memory → A) d w : does (recall f) (λ _, True) d w d w.
Proof. intros s Hs. apply steady_look. by eexists. Qed.
Lemma does_mono {A} (m : M Site A) (V U : A → Prop) d w d' w' :
  (∀ a, V a → U a) → does m V d w d' w' → does m U d w d' w'.
Proof.
  intros HVU Hm s Hs. eapply steady_mono; [|by apply Hm]. intros x s' (a & -> & HV & Hs'). exists a. auto.
Qed.
Lemma does_step {A} (m : M Site A) V d w d' w' : does m V d w d' w' → does (step m) V d w d' w'.
Proof.
  intros Hm. eapply does_bind; [apply does_bookkeeping|intros _ _].
  eapply does_bind; [by apply does_attempt|]. intros x (a & -> & HV).
  eapply does_bind; [eapply does_ignore, does_bookkeeping|intros _ _]. by apply does_ret.
Qed.
Lemma does_skipStep d w : does skipStep (λ _, True) d w d w.
Proof.
  eapply does_bind; [apply does_attempt, does_bookkeeping|]. intros x (a & -> & _).
  apply (does_ignore bookkeeping (λ _, True)), does_bookkeeping.
Qed.
Lemma does_each {A} (xs : list A) (body : A → M Site ()) d w :
  (∀ x, does (body x) (λ _, True) d w d w) → does (each xs body) (λ _, True) d w d w.
Proof.
  intros Hb. induction xs as [|x xs IH]; simpl; [by apply does_ret|]. eapply does_bind; [apply Hb|]. by intros _ _.
Qed.

(** *** Containers *)

Lemma on_box_Some {A} d n b (k : Box → Daemon * answer A) : dm_boxes d !! n = Some b → on_box d n k = k b.
Proof. unfold on_box. by intros ->. Qed.
Lemma on_box_None {A} d n (k : Box → Daemon * answer A) : dm_boxes d !! n = None → on_box d n k = (d, NotFound).
Proof. unfold on_box. by intros ->. Qed.

Lemma set_boxes_same d : set_boxes d (dm_boxes d) = d.
Proof. by destruct d. Qed.

(** Whatever was there is gone. *)
Lemma does_removeNamed v n d w :
  does (removeNamed v n) (λ _, True) d w (set_boxes d (delete n (dm_boxes d))) w.
Proof.
  destruct (dm_boxes d !! n) as [b|] eqn:Hn.
  - eapply does_bind; [apply does_tried; simpl; by rewrite (on_box_Some _ _ b)|]. intros x ->. by apply does_ret.
  - eapply does_bind; [apply does_tried; simpl; by rewrite on_box_None|]. intros x ->.
    rewrite delete_id, set_boxes_same by done. by apply does_ret.
Qed.
Lemma does_clear {A} n d w (m : M Site A) V d' w' :
  does m V (set_boxes d (delete n (dm_boxes d))) w d' w' →
  does (_ ← ignore (ask (Stop n)); _ ← ignore (removeNamed false n); m) V d w d' w'.
Proof.
  intros Hm. destruct (dm_boxes d !! n) as [b|] eqn:Hn.
  - eapply does_bind; [eapply does_ignored; simpl; by rewrite (on_box_Some _ _ b)|intros _ _].
    eapply does_bind; [eapply does_ignore, does_removeNamed|intros _ _].
    unfold set_boxes in *. simpl. by rewrite delete_insert_eq.
  - eapply does_bind; [eapply does_ignored; simpl; by rewrite on_box_None|intros _ _].
    by eapply does_bind; [eapply does_ignore, does_removeNamed|intros _ _].
Qed.

(** *** Routing *)

Definition routed_to (uuid content : string) (d : Daemon) : Daemon :=
  set_files d (<[ dynamic_path uuid := content ]> (dm_files d)).

Lemma does_Apply polls server uuid content expect d w :
  polls ≠ 0%nat → content ≠ "" → infix_of uuid content → infix_of expect content →
  does (Apply polls server uuid content expect) (λ _, True) d w (routed_to uuid content d) w.
Proof.
  intros Hp Hc Hu He. destruct polls as [|polls]; [done|]. unfold Apply.
  eapply does_bind; [apply (does_sql _ (λ _, True)); intros t Ht; split; [done|by eexists]|]. intros rev _.
  eapply does_bind; [eapply does_attempt, does_bind|].
  - unfold upload. rewrite decide_False by done.
    eapply does_bind; [by eapply does_ignored|intros _ _]. by apply does_ask.
  - intros _ _. simpl. eapply does_bind; [by eapply does_tried|]. intros x ->. simpl.
    assert (HX : exposed uuid content expect (services_of (routed_to uuid content d)) = true).
    { assert (HF : dm_files (routed_to uuid content d) !! dynamic_path uuid = Some content) by apply lookup_insert_eq.
      unfold exposed. rewrite decide_False by done. apply andb_true_intro. split; [|apply orb_true_iff; right];
        apply infix_of_contains; by eapply services_file. }
    fold (routed_to uuid content d). rewrite HX. by apply (does_ret _ (λ _, True)).
  - intros x (u & -> & _). apply does_sql. intros t Ht. split; [done|]. by exists ().
Qed.

(** *** Statuses *)

Section Attempt.
Context (r : Deploy) (w0 : World).
Let c := r_config r.
Let id := namingIdentity r.
Let candidate := candidate_name r.

(** The tables when the deployment has a status. *)
Definition at_status (st : DeploymentStatus) : World := write_status (c_id c) st w0.

Lemma rewrite_status st st' : write_status (c_id c) st' (at_status st) = at_status st'.
Proof.
  unfold at_status, write_status, set_deployments. simpl. f_equal. apply map_eq. intros i.
  destruct (decide (i = c_id c)) as [->|Hi].
  - rewrite !lookup_alter_eq, <- option_fmap_compose. by apply option_fmap_ext.
  - by rewrite !lookup_alter_ne.
Qed.

Lemma does_setStatus st d w :
  ¬ (st = SPreparing ∧ r_status r = SQueued) →
  does (setStatus r st) (λ _, True) d w d (write_status (c_id c) st w).
Proof.
  intros Hst. unfold setStatus. eapply does_bind; [apply does_tell|intros _ _]. rewrite decide_False by done.
  eapply does_bind; [|intros _ _; eapply does_bind; [apply does_tell|intros _ _; eapply does_ignore, does_bookkeeping]].
  apply (does_sql _ (λ _, True)). intros t <-. split; [done|]. by exists ().
Qed.

Hypothesis no_cancel : c_job c ∉ w_cancel_requested w0.

Lemma does_checkpoint d w :
  w_cancel_requested w = w_cancel_requested w0 → does (checkpoint r) (λ _, True) d w d w.
Proof.
  intros Hw. eapply does_bind; [eapply does_attempt, (does_sql _ (λ b, b = false) d w w)|].
  - intros t <-. split; [done|]. eexists. split; [done|]. apply bool_decide_eq_false. by rewrite Hw.
  - intros x (b & -> & ->). by apply does_ret.
Qed.

Lemma does_enter st st' d :
  ¬ (st' = SPreparing ∧ r_status r = SQueued) →
  does (enter r st') (λ _, True) d (at_status st) d (at_status st').
Proof.
  intros Hst. eapply does_bind; [by apply does_checkpoint|intros _ _].
  rewrite <- (rewrite_status st st'). by apply does_setStatus.
Qed.

(** The first status, of a deployment that is queued or was interrupted. *)
Definition can_start : Prop :=
  r_status r ≠ SQueued ∨
  (c_waits c ≠ 0%nat ∧ ∃ d, w_deployments w0 !! c_id c = Some d ∧ d_status d = SQueued ∧
                            cleanup_running w0 (d_server d) = false).

Lemma does_enter_first d : can_start → does (enter r SPreparing) (λ _, True) d w0 d (at_status SPreparing).
Proof.
  intros HS. eapply does_bind; [by apply does_checkpoint|intros _ _].
  destruct (decide (r_status r = SQueued)) as [Hq|Hq]; [|apply does_setStatus; naive_solver].
  destruct HS as [?|(Hwaits & dep & Hdep & Hst & Hclean)]; [done|].
  unfold setStatus. eapply does_bind; [apply does_tell|intros _ _]. rewrite decide_True by done.
  eapply does_bind; [|intros _ _; eapply does_bind; [apply does_tell|intros _ _; eapply does_ignore, does_bookkeeping]].
  fold c. destruct (c_waits c) as [|waits]; [done|]. simpl.
  eapply does_bind; [apply (does_sql _ (λ b, b = true) d w0 (at_status SPreparing))|intros b ->; by apply (does_ret _ (λ _, True))].
  intros t Ht. unfold StartDeployment. fold c. rewrite Ht, Hdep, Hst, Hclean. simpl. split; [done|]. by exists true.
Qed.

(** *** The parts of [execute] *)

(** What the server must be able to do. *)
Record able (d : Daemon) : Prop := {
  ab_shell : ∀ cmd, snd (dm_shell d cmd) = 0;
  ab_ip : dm_ip d ≠ ""
}.
Lemma able_boxes d b : able d → able (set_boxes d b).
Proof. by intros [Hs Hi]. Qed.
Lemma able_routed d u x : able d → able (routed_to u x d).
Proof. by intros [Hs Hi]. Qed.

Lemma does_run on cmd d w : able d → does (run on cmd) (λ _, True) d w d w.
Proof.
  intros [Hs _]. eapply does_bind; [by eapply does_ask|]. intros x ->. rewrite decide_True by apply Hs.
  by apply does_ret.
Qed.

Lemma does_connect d w : builds_elsewhere r = false → does (connect r) (λ _, True) d w d w.
Proof.
  intros Hb. unfold connect. rewrite Hb.
  eapply does_bind; [by eapply does_ask|intros _ _]. eapply does_bind; [by eapply does_ask|intros _ _].
  eapply does_bind; [apply does_remember|intros _ _]. eapply does_bind; [by eapply does_ask|intros _ _].
  by apply does_ret.
Qed.

(** A hook runs in a container that is up. *)
Lemma does_hook cmd name d w :
  (∃ b, dm_boxes d !! name = Some b ∧ bx_status b = "running") →
  does (step (res ← ask (Exec name ["sh"; "-c"; cmd]); if decide (snd res = 0) then mret () else throw (Failure "exit code")))
    (λ _, True) d w d w.
Proof.
  intros (b & Hb & Hr). apply does_step.
  destruct (decide (name = proxy_container)) as [->|Hn].
  - eapply does_bind; [by eapply does_ask|]. intros x ->. by apply does_ret.
  - eapply does_bind; [eapply does_ask; simpl; rewrite decide_False, (on_box_Some _ _ b), decide_True by done; done|].
    intros x ->. by apply does_ret.
Qed.
Lemma does_runHook (pre : bool) cmd name d w :
  (pre = true ∨ ∃ b, dm_boxes d !! name = Some b ∧ bx_status b = "running") →
  does (runHook pre cmd name) (λ _, True) d w d w.
Proof.
  intros Hn. unfold runHook. destruct cmd as [cmd|]; [|apply does_skipStep].
  case_decide; [apply does_skipStep|]. eapply does_bind; [by eapply does_ask|intros _ _].
  destruct pre; [|apply does_hook; naive_solver].
  destruct (dm_boxes d !! name) as [b|] eqn:Hb.
  - eapply does_bind; [apply does_tried; simpl; by rewrite (on_box_Some _ _ b)|]. intros x ->. simpl.
    case_bool_decide as Hr; [|apply does_skipStep]. apply does_hook. by exists b.
  - eapply does_bind; [apply does_tried; simpl; by rewrite on_box_None|]. intros x ->. apply does_skipStep.
Qed.

Lemma does_read_variables d w : does (read_variables r) (λ _, True) d w d w.
Proof.
  unfold read_variables, deploymentRefs. eapply does_bind; [apply does_bookkeeping|intros _ _].
  eapply does_bind with (V := λ _, True) (d1 := d) (w1 := w); [|intros _ _].
  { destruct (inheritsSharedScopes r); [|by apply does_ret].
    eapply does_bind; [apply does_bookkeeping|intros _ _]. apply does_fallible. }
  eapply does_bind with (V := λ _, True) (d1 := d) (w1 := w); [|intros _ _; apply does_fallible].
  case_decide; [eapply does_ignore, does_bookkeeping|by apply does_ret].
Qed.
Lemma does_prepare d w : able d → does (prepare r) (λ _, True) d w d w.
Proof.
  intros Ha. unfold prepare. eapply does_bind; [apply does_read_variables|intros _ _].
  eapply does_bind; [apply does_step|intros _ _; apply does_runHook; by left].
  eapply does_bind; [by eapply does_ask|intros _ _]. eapply does_bind; [by eapply does_ask|intros _ _]. by apply does_run.
Qed.

(** The new container, as it runs. *)
Definition new_box (d : Daemon) (ref : string) : Box :=
  mkBox ref (labels r) "running" (dm_health d ref) (dm_ip d).
Definition with_candidate (d : Daemon) (ref : string) : Daemon :=
  set_boxes d (<[ candidate := new_box d ref ]> (dm_boxes d)).

Lemma does_start ref d w :
  c_memory_ok c = true → c_health_check c = Some true →
  does (start r ref) (λ b, b = true) d w (with_candidate d ref) w.
Proof.
  intros Hm Hh. unfold start. fold c. rewrite Hm. simpl.
  eapply does_bind; [apply does_bookkeeping|intros _ _]. eapply does_bind; [by eapply does_ask|intros _ _].
  eapply (does_bind _ _ (λ b, b = true)).
  { eapply does_bind; [eapply does_attempt, does_bookkeeping|]. intros x (u & -> & _). fold c. rewrite Hh. simpl.
    eapply does_bind; [apply does_tell|intros _ _]. by apply does_ret. }
  intros b ->. eapply does_bind; [|intros _ _; by apply does_ret]. apply does_step.
  eapply does_bind; [by apply (does_ret _ (λ _, True))|intros _ _].
  eapply does_bind; [apply does_removeNamed|intros _ _].
  eapply does_bind.
  { eapply does_ask. simpl. by rewrite lookup_delete_eq. }
  intros _ _. eapply does_mono; [done|].
  match goal with |- does _ _ ?d1 _ _ _ => assert (Hd : daemon (Start candidate) d1 = (with_candidate d ref, Answer ())) end.
  { simpl. rewrite (on_box_Some _ _ (mkBox ref (labels r) "created" None (dm_ip d))) by apply lookup_insert_eq.
    unfold with_candidate, set_boxes. simpl. rewrite insert_insert_eq, insert_delete_eq. done. }
  by apply does_ask.
Qed.

(** *** Routing *)

Record routable : Prop := {
  ro_preview : r_preview r = None; ro_traefik : c_traefik c = true; ro_scale : c_scale_to_zero c = false;
  ro_polls : c_verify_polls c ≠ 0%nat;
  ro_route : ∃ route, route ∈ c_routes c ∧ route_endpoint route = ""
}.
(** The file that sends to an endpoint, or to the container by its name. *)
Definition content (endpoint : string) : string := rendered c (route_group c endpoint (c_access c)).

Lemma content_shows endpoint : routable →
  content endpoint ≠ "" ∧ infix_of id (content endpoint) ∧
  (endpoint ≠ "" → infix_of ("http://" +:+ endpoint +:+ ":") (content endpoint)).
Proof.
  intros [Hp _ _ _ (route & Hin & Hre)].
  assert (Hne : c_routes c ≠ []) by (intros Hn; rewrite Hn in Hin; by apply elem_of_nil in Hin).
  unfold content, rendered, route_group. rewrite decide_False by done.
  set (rg := mkGroup _ _ _ _ _ _ _ _ _).
  assert (HT : infix_of ("http://" +:+ routeTarget rg route +:+ ":") (GenerateDynamic rg (c_id c))).
  { by apply GenerateDynamic_targets. }
  split_and!.
  - intros HE. rewrite HE in HT. destruct HT as (a & b & HT). apply (f_equal String.length) in HT.
    rewrite !append_length in HT. simpl in HT. lia.
  - assert (Hid : id = AppUUID rg) by (unfold id, namingIdentity; by rewrite Hp). rewrite Hid.
    by apply GenerateDynamic_names.
  - intros Hep. replace (routeTarget rg route) with endpoint in HT; [done|].
    unfold routeTarget. rewrite Hre. subst rg. simpl. by repeat case_decide.
Qed.

Lemma infix_empty s : infix_of "" s.
Proof. exists "", s. done. Qed.

Lemma does_applyRoutingTo endpoint d w :
  routable → does (applyRoutingTo r endpoint) (λ _, True) d w (routed_to id (content endpoint) d) w.
Proof.
  intros Hro. pose proof (content_shows endpoint Hro) as (Hc & Hi & He). destruct Hro as [Hp Ht Hz Hv _].
  unfold applyRoutingTo. fold c. rewrite Ht. simpl.
  eapply (does_bind _ _ (λ x, x = Some (content endpoint))).
  { unfold routing_content. rewrite Hp. eapply does_bind; [apply does_bookkeeping|intros _ _]. fold c. rewrite Hz.
    eapply does_bind; [|intros _ _; by apply does_ret].
    unfold read_routes. eapply does_bind; [apply does_bookkeeping|intros _ _].
    eapply does_bind; [eapply does_ignore, does_bookkeeping|intros _ _]. apply does_bookkeeping. }
  intros x ->. apply does_step, does_Apply; [done|done|done|].
  case_decide as Hd; [apply He, Hd|apply infix_empty].
Qed.

(** *** The switch and the end *)

Lemma does_finish_rows d w : r_preview r = None → does (finish_rows r) (λ _, True) d w d w.
Proof.
  intros Hp. unfold finish_rows. rewrite Hp.
  eapply does_bind; [eapply does_ignore, does_bookkeeping|intros _ _].
  eapply does_bind; [eapply does_ignore, does_bookkeeping|intros _ _].
  eapply (does_bind _ _ (λ _, True)); [case_decide; [eapply does_ignore, does_bookkeeping|by apply does_ret]|intros _ _].
  eapply (does_bind _ _ (λ _, True)).
  { eapply does_bind; [apply does_recall|]. intros m _. case_match; [|by apply does_ret].
    case_match; [by apply does_ret|]. eapply does_ignore, (does_sql _ (λ _, True)). intros t Ht. split; [done|]. by exists (). }
  intros _ _. eapply (does_bind _ _ (λ _, True)); [|intros _ _; by apply does_ret].
  eapply does_bind; [apply does_recall|]. intros b _. case_match; [by apply does_ret|].
  eapply does_bind; [eapply does_attempt, does_bookkeeping|]. intros x _.
  eapply does_bind; [eapply does_attempt, (does_sql _ (λ _, True)); intros t Ht; split; [done|by eexists]|].
  intros y (arts & -> & _). apply does_each. intros a.
  eapply (does_bind _ _ (λ _, True)); [case_decide; [by apply does_ret|by eapply does_ignored]|intros _ _].
  eapply does_ignore, (does_sql _ (λ _, True)). intros t Ht. split; [done|]. by exists ().
Qed.

Lemma does_finish st d : r_preview r = None → does (finish r) (λ _, True) d (at_status st) d (at_status SSucceeded).
Proof.
  intros Hp. unfold finish.
  eapply does_bind; [apply does_setStatus; naive_solver|intros _ _].
  eapply does_bind; [by apply does_finish_rows|intros _ _].
  rewrite <- (rewrite_status SFinishing SSucceeded), <- (rewrite_status st SFinishing). apply does_setStatus. naive_solver.
Qed.

(** The container of a name put under the final one. *)
Definition promoted (b : Box) (d : Daemon) : Daemon :=
  set_boxes d (<[ id := b ]> (delete candidate (dm_boxes d))).

Lemma final_not_candidate : id ≠ candidate.
Proof.
  unfold id, candidate, candidate_name. intros Hu. apply (f_equal String.length) in Hu.
  rewrite append_length in Hu. simpl in Hu. lia.
Qed.

Lemma does_rename b d w :
  dm_boxes d !! candidate = Some b → dm_boxes d !! id = None →
  does (ask (Rename candidate id)) (λ _, True) d w (promoted b d) w.
Proof.
  intros Hc Hi. eapply does_mono; [done|]. eapply does_ask. simpl. by rewrite (on_box_Some _ _ b), Hi.
Qed.

Lemma does_promote b d w :
  old_name r = id → dm_boxes d !! candidate = Some b → does (promoteCandidate r) (λ _, True) d w (promoted b d) w.
Proof.
  intros Ho Hb. unfold promoteCandidate. rewrite Ho. apply does_clear.
  replace (promoted b d) with (promoted b (set_boxes d (delete id (dm_boxes d)))).
  - apply does_rename; simpl; [by rewrite lookup_delete_ne by apply final_not_candidate|apply lookup_delete_eq].
  - unfold promoted, set_boxes. simpl. f_equal. rewrite delete_delete. by rewrite insert_delete_eq.
Qed.

(** The end of every switch. *)
Lemma does_routed_finish st d :
  routable → does (_ ← applyRouting r; finish r) (λ _, True) d (at_status st) (routed_to id (content "") d) (at_status SSucceeded).
Proof.
  intros Hro. eapply does_bind; [by apply does_applyRoutingTo|intros _ _]. apply does_finish, Hro.
Qed.

Lemma does_healthcheck ref d w :
  c_health_polls c ≠ 0%nat → dm_health d ref ∈ [None; Some "healthy"] →
  does (healthcheck r true) (λ _, True) (with_candidate d ref) w (with_candidate d ref) w.
Proof.
  intros Hp Hh. unfold healthcheck.
  assert (HB : dm_boxes (with_candidate d ref) !! candidate = Some (new_box d ref)) by apply lookup_insert_eq.
  eapply does_bind; [apply does_step|intros _ _; apply does_runHook; right; by eexists].
  eapply (does_bind _ _ (λ b, b = true)); [|intros b ->; by apply (does_ret _ (λ _, True))].
  unfold awaitCandidate. fold c. destruct (c_health_polls c) as [|n]; [done|]. simpl.
  eapply does_bind; [apply does_tried; simpl; by rewrite (on_box_Some _ _ _ _ HB)|]. intros x ->. simpl.
  assert (HH : healthy (inspected (new_box d ref)) = Some true).
  { unfold healthy. simpl. apply list_elem_of_In in Hh. by destruct Hh as [<-|[<-|[]]]. }
  rewrite HH. by apply does_ret.
Qed.

(** The server after a switch: one container of the deployment, under the final
    name and routed by it; the others as they were. *)
Definition after_switch (b : Box) (d : Daemon) : Daemon := routed_to id (content "") (promoted b d).

Lemma does_switch ref d :
  able d → routable → old_name r = id →
  does (switch r true) (λ _, True) (with_candidate d ref) (at_status SSwitching)
    (after_switch (new_box d ref) d) (at_status SSucceeded).
Proof.
  intros [_ Hip] Hro Ho. unfold switch.
  assert (HB : dm_boxes (with_candidate d ref) !! candidate = Some (new_box d ref)) by apply lookup_insert_eq.
  assert (HE : after_switch (new_box d ref) d = routed_to id (content "")
    (promoted (new_box d ref) (routed_to id (content (dm_ip d)) (with_candidate d ref)))).
  { unfold after_switch, promoted, routed_to, with_candidate, set_boxes, set_files. simpl. f_equal.
    - by rewrite delete_insert_eq.
    - by rewrite insert_insert_eq. }
  rewrite HE. eapply does_bind; [|intros _ _; by apply does_routed_finish].
  eapply (does_bind _ _ (λ ip, ip = dm_ip d)).
  { apply does_step. eapply does_bind; [eapply does_ask; simpl; by rewrite (on_box_Some _ _ _ _ HB)|]. intros x ->.
    simpl. rewrite decide_False by done. by apply does_ret. }
  intros ip ->. eapply does_bind; [by apply does_applyRoutingTo|intros _ _].
  apply does_step. apply does_promote; [done|]. apply lookup_insert_eq.
Qed.

Definition state_of (d : Daemon) (name : string) : string :=
  match dm_boxes d !! name with Some b => bx_status b | None => "absent" end.
Lemma does_containerState name d w : does (containerState name) (λ x, x = state_of d name) d w d w.
Proof.
  unfold containerState, state_of. destruct (dm_boxes d !! name) as [b|] eqn:Hb.
  - eapply does_bind; [apply does_tried; simpl; by rewrite (on_box_Some _ _ b)|]. intros x ->. by apply does_ret.
  - eapply does_bind; [apply does_tried; simpl; by rewrite on_box_None|]. intros x ->. by apply does_ret.
Qed.

(** What the inspection of an interrupted switch leads to. *)
Lemma does_resume_inspected b d st :
  routable → old_name r = id → bx_status b = "running" →
  (dm_boxes d !! candidate = Some b ∧ (∀ o, dm_boxes d !! id = Some o → bx_status o = "running")) ∨
  (dm_boxes d !! candidate = None ∧ dm_boxes d !! id = Some b) →
  does (resume_inspected r (state_of d (old_name r)) (state_of d candidate)) (λ _, True) d (at_status st)
    (after_switch b d) (at_status SSucceeded).
Proof.
  intros Hro Hn Hb Hcfg. unfold resume_inspected, state_of, after_switch. rewrite Hn.
  destruct Hcfg as [[Hc Hi]|[Hc Hi]]; rewrite Hc, ?Hb.
  - rewrite decide_False by naive_solver. destruct (dm_boxes d !! id) as [o|] eqn:Ho.
    + rewrite (Hi o) by done. rewrite decide_False by naive_solver. rewrite decide_True by done.
      eapply does_bind; [apply does_skipStep|intros _ _].
      eapply does_bind; [by apply does_step, does_promote|intros _ _]. by apply does_routed_finish.
    + rewrite decide_True by done. eapply does_bind; [apply does_skipStep|intros _ _].
      eapply does_bind; [by apply does_step, does_rename|intros _ _]. by apply does_routed_finish.
  - rewrite Hi, Hb, decide_True by done. eapply does_bind; [apply does_skipStep|intros _ _].
    replace (promoted b d) with d; [by apply does_routed_finish|].
    unfold promoted. rewrite (delete_id _ candidate), insert_id, set_boxes_same by done. done.
Qed.

(** ** Whole attempts *)

Lemma does_attempt_run d d' w' :
  does (execute r) (λ _, True) d w0 d' w' → does (attempt_run r) (λ st, st = SSucceeded) d w0 d' w'.
Proof.
  intros Hx. eapply does_bind; [by eapply does_attempt|]. intros x (u & -> & _). by apply does_ret.
Qed.

(** *** The image *)

(** The image a deployment runs: the one it returns to or runs again, or the one
    built with the Dockerfile of a repository that needs no credential, at the
    commit the branch points to. *)
Definition branch : string :=
  match c_git_branch c with Some b => if decide (b = "") then "main" else b | None => "main" end.
Definition branch_head (d : Daemon) (repo : string) : string :=
  trim_space (before_tab (firstLine (fst (dm_shell d
    ("git ls-remote " +:+ shellQuote repo +:+ " refs/heads/" +:+ shellQuote branch))))).
Inductive produced (d : Daemon) : string → Prop :=
| Kept ref : reusesArtifact r = true → artifact_ref r = Some ref → produced d ref
| FromGit repo :
    reusesArtifact r = false → c_pack c = PackDockerfile → c_git_url c = Some repo → c_source c = None →
    String.length (branch_head d repo) = 40%nat →
    produced d ("akerdock/" +:+ id +:+ ":" +:+ String.substring 0 12 (branch_head d repo)).

Lemma does_run_output on cmd d w : able d → does (run on cmd) (λ out, out = fst (dm_shell d cmd)) d w d w.
Proof.
  intros [Hs _]. eapply does_bind; [by eapply does_ask|]. intros x ->. rewrite decide_True by apply Hs. by apply does_ret.
Qed.
Lemma does_verify_artifact ref d w : artifact_ref r = Some ref → does (verify_artifact r) (λ x, x = ref) d w d w.
Proof.
  intros Hr. unfold verify_artifact. eapply does_bind; [apply does_skipStep|intros _ _]. rewrite Hr.
  eapply (does_bind _ _ (λ _, True)); [apply does_step|intros _ _; by apply does_ret].
  eapply does_bind; [by eapply does_tried|]. intros x ->. by apply does_ret.
Qed.
Lemma does_checkout repo d w :
  able d → r_preview r = None → String.length (branch_head d repo) = 40%nat →
  does (checkout r "" repo branch) (λ sha, sha = branch_head d repo) d w d w.
Proof.
  intros Ha Hp Hl. unfold checkout, resolve_sha, pinned_sha, previewFetchRef. rewrite Hp. simpl.
  eapply (does_bind _ _ (λ sha, sha = branch_head d repo)).
  { apply does_step. eapply does_bind; [by apply does_run_output|]. intros out ->. fold (branch_head d repo).
    rewrite decide_True by done. eapply does_bind; [eapply does_ignore, does_bookkeeping|intros _ _]. by apply does_ret. }
  intros sha ->. rewrite decide_True by done.
  eapply does_bind; [by apply (does_step _ (λ _, True)), does_run|intros _ _].
  eapply does_bind; [by apply (does_ret _ (λ _, True))|intros _ _].
  eapply does_bind; [|intros _ _; by apply does_ret].
  eapply does_ignore, does_bind; [by apply does_run|intros _ _]. eapply does_ignore, does_bookkeeping.
Qed.
Lemma does_build_image sha d w :
  c_pack c = PackDockerfile → String.length sha = 40%nat →
  does (build_image r sha) (λ x, x = "akerdock/" +:+ id +:+ ":" +:+ String.substring 0 12 sha) d w d w.
Proof.
  intros Hk Hl. unfold build_image, first12. fold c. rewrite Hk, Hl.
  eapply does_bind; [apply does_read_variables|intros _ _]. cbn [decide].
  rewrite decide_True by done. rewrite !decide_False by done.
  eapply does_bind; [by apply (does_ret _ (λ _, True))|intros _ _].
  eapply (does_bind _ _ (λ _, True)); [|intros _ _; apply does_ret; by rewrite append_assoc].
  eapply does_bind; [eapply does_step; by eapply does_ask|intros _ _]. unfold built, resolveLocalDigest.
  eapply (does_bind _ _ (λ _, True)).
  { eapply does_bind; [apply does_remember|intros _ _]. eapply does_ignore, does_bookkeeping. }
  intros _ _. apply does_step. eapply does_bind; [by eapply does_ask|]. intros info ->.
  case_decide; [by apply does_ret|]. eapply does_bind; [apply does_remember|intros _ _]. eapply does_ignore, does_bookkeeping.
Qed.

Lemma does_build_checkout repo d :
  able d → r_preview r = None → c_pack c = PackDockerfile → String.length (branch_head d repo) = 40%nat →
  does (build_checkout r "" repo branch) (λ x, x = "akerdock/" +:+ id +:+ ":" +:+ String.substring 0 12 (branch_head d repo))
    d (at_status SCloning) d (at_status SBuilding).
Proof.
  intros Ha Hp Hk Hl. eapply does_bind; [by apply does_checkout|]. intros sha ->.
  eapply does_bind; [apply does_setStatus; naive_solver|intros _ _]. rewrite rewrite_status. by apply does_build_image.
Qed.

Lemma does_build ref d :
  able d → r_preview r = None → builds_elsewhere r = false → produced d ref →
  does (build r) (λ x, x = ref) d (at_status SBuilding) d (at_status SBuilding).
Proof.
  intros Ha Hp Hb HP. unfold build. rewrite Hb. eapply (does_bind _ _ (λ x, x = ref)).
  - unfold produce. destruct HP as [ref Hre Href|repo Hre Hk Hg Hsrc Hl]; rewrite Hre; [by apply does_verify_artifact|].
    fold c. rewrite Hk, decide_False by (by rewrite Hg). unfold buildFromGit. fold c. rewrite Hg. cbv zeta. fold branch.
    eapply does_bind; [apply does_setStatus; naive_solver|intros _ _]. rewrite rewrite_status.
    unfold installDeployKey. fold c. rewrite Hsrc. eapply does_bind; [by apply (does_ret _ (λ k, k = ("", mret ())))|].
    intros k ->. simpl. unfold deferred. eapply does_bind; [by eapply does_attempt, does_build_checkout|].
    intros x (a & -> & ->). eapply does_bind; [by eapply does_ignore, (does_ret _ (λ _, True))|intros _ _]. by apply does_ret.
  - intros x ->. eapply (does_bind _ _ (λ x, x = ref)).
    { eapply does_bind; [apply does_skipStep|intros _ _]. by apply does_ret. }
    intros x ->. eapply (does_bind _ _ (λ _, True)); [|intros _ _; by apply does_ret].
    destruct (reusesArtifact r); [by apply does_ret|]. eapply does_ignored. done.
Qed.

(** A deployment that can go well: an application with a health check and a
    route, whose image comes up healthy. *)
Record promising (d : Daemon) (ref : string) : Prop := {
  pr_start : can_start; pr_here : builds_elsewhere r = false;
  pr_memory : c_memory_ok c = true; pr_check : c_health_check c = Some true; pr_polls : c_health_polls c ≠ 0%nat;
  pr_able : able d; pr_routable : routable; pr_name : old_name r = id;
  pr_health : dm_health d ref ∈ [None; Some "healthy"];
  pr_build : produced d ref
}.

Lemma does_pipeline d ref :
  promising d ref →
  does (pipeline r) (λ _, True) d (at_status SPreparing) (after_switch (new_box d ref) d) (at_status SSucceeded).
Proof.
  intros [_ Hel Hm Hc Hp Ha Hro Hn Hh Hb]. unfold pipeline.
  eapply does_bind; [by apply does_prepare|intros _ _].
  eapply does_bind; [apply does_enter; naive_solver|intros _ _].
  eapply does_bind; [by apply does_build; [|apply Hro|..]|]. intros x ->.
  eapply does_bind; [apply does_enter; naive_solver|intros _ _].
  eapply does_bind; [by apply does_start|]. intros b ->.
  eapply does_bind; [apply does_enter; naive_solver|intros _ _].
  eapply does_bind; [by apply does_healthcheck|intros _ _].
  eapply does_bind; [apply does_enter; naive_solver|intros _ _].
  by apply does_switch.
Qed.
End Attempt.

(** C8: on a server that behaves as documented (it does what it is asked, every
    command and every hook in a running container succeeds), with a database that
    answers and other workers that let both be, a deployment of an application —
    not of a preview, not adopted, not built elsewhere, not scaled to zero — that
    has an enabled health check and a route on a managed proxy, that nothing
    cancels, that can start (no cleanup holds its server) and had not died in the
    switch, whose image is kept from before or built with the Dockerfile of a
    public repository, and comes up healthy or without a verdict, succeeds:
    whatever containers were there, under the final name there is then a running
    container of that image with the labels of the deployment, there is no
    candidate left, the routing file sends to the final name, the deployment is
    recorded as succeeded, and no other container and no other file has changed. *)
Theorem deployment_succeeds (r : Deploy) (w0 : World) (d : Daemon) (ref : string) (s : Site) :
  c_job (r_config r) ∉ w_cancel_requested w0 → promising r w0 d ref →
  r_status r ∉ [SSwitching; SFinishing] → here d w0 s →
  steady (attempt_run r) (λ x s', x = inr SSucceeded ∧
    here (after_switch r (new_box r d ref) d) (at_status r w0 SSucceeded) s') s.
Proof.
  intros Hcancel Hpr Hst Hs.
  assert (HD : does (attempt_run r) (λ st, st = SSucceeded) d w0 (after_switch r (new_box r d ref) d) (at_status r w0 SSucceeded)).
  { apply does_attempt_run. unfold execute.
    assert (HF : fork_unapproved r = false).
    { unfold fork_unapproved. by rewrite (ro_preview _ (pr_routable _ _ _ _ Hpr)). }
    rewrite HF. eapply does_bind; [apply does_enter_first; [done|apply Hpr]|intros _ _].
    eapply does_bind; [apply does_connect, Hpr|intros _ _].
    eapply (does_bind _ _ (λ b, b = false)); [|intros b ->; by apply does_pipeline].
    unfold resume. rewrite decide_False by set_solver. by apply does_ret. }
  eapply steady_mono; [|by apply HD]. intros x s' (a & -> & -> & Hs'). done.
Qed.

(** C18: under the conditions of a documented server, a database that answers and
    no cancellation, a deployment of an application (not a preview, not adopted,
    not built elsewhere, not scaled to zero, with a route on a managed proxy) that
    died in the switch is carried to the same end by the next attempt, from each of
    the configurations the code recognises: the candidate runs and the former
    container runs too or is gone, or the former name runs and there is no
    candidate.  The container that was promoted, or had been, is not unhealthy: it
    ends under the final name, alone and routed. *)
Theorem resumption_succeeds (r : Deploy) (w0 : World) (d : Daemon) (b : Box) (s : Site) :
  c_job (r_config r) ∉ w_cancel_requested w0 → r_status r ∈ [SSwitching; SFinishing] →
  builds_elsewhere r = false → routable r → old_name r = namingIdentity r →
  bx_status b = "running" → bx_health b ∈ [None; Some "healthy"] →
  (dm_boxes d !! candidate_name r = Some b ∧
   (∀ o, dm_boxes d !! namingIdentity r = Some o → bx_status o = "running")) ∨
  (dm_boxes d !! candidate_name r = None ∧ dm_boxes d !! namingIdentity r = Some b) →
  here d w0 s →
  steady (attempt_run r) (λ x s', x = inr SSucceeded ∧
    here (after_switch r b d) (at_status r w0 SSucceeded) s') s.
Proof.
  intros Hcancel Hst Hel Hro Hn Hb _ Hcfg Hs.
  assert (HD : does (attempt_run r) (λ st, st = SSucceeded) d w0 (after_switch r b d) (at_status r w0 SSucceeded)).
  { apply does_attempt_run. unfold execute.
    assert (HF : fork_unapproved r = false) by (unfold fork_unapproved; by rewrite (ro_preview _ Hro)).
    rewrite HF. eapply does_bind; [apply does_enter_first; [done|left; intros Hq; rewrite Hq in Hst; set_solver]|intros _ _].
    eapply does_bind; [by apply does_connect|intros _ _].
    eapply (does_bind _ _ (λ b, b = true)); [|intros x ->; by apply (does_ret _ (λ _, True))].
    unfold resume. rewrite decide_True by set_solver.
    eapply does_bind; [apply does_containerState|]. intros x ->.
    eapply does_bind; [apply does_containerState|]. intros x ->.
    eapply does_bind; [by apply does_resume_inspected|intros _ _]. by apply does_ret. }
  eapply steady_mono; [|by apply HD]. intros x s' (a & -> & -> & Hs'). done.
Qed.
End Live.

(** *** At the example *)

Lemma shop_routable b st : routable (mkDeploy (Shop.config_of b) st None).
Proof. split; try done. eexists. split; [by left|done]. Qed.

(** The shop built from its repository, whose main branch is at a commit. *)
Definition shop_sha : string := "0123456789abcdef0123456789abcdef01234567".
Definition shop_git : Deploy :=
  mkDeploy (mkConfig 7 40 "dep-7" false false false None None None
    "shop" 3 None 1 "web" true PackDockerfile (Some "https://git.example.org/shop.git") None "" None None None None false None
    (Some true) (Some "rake check") (Some "rake migrate") true false false "" [mkProxyRoute "shop.example.org" "/" 80 "" []]
    true false "" "" None [] 80 ProtectNone "" None false 0 false [] None 0 5 2 2 2 "team") SQueued None.
Definition shop_host : Daemon :=
  mkDaemon (dm_boxes Shop.host) (dm_files Shop.host) (dm_health Shop.host) (dm_ip Shop.host)
    (λ cmd, (if has_prefix cmd "git ls-remote" then shop_sha +:+ String "009" "refs/heads/main" else "", 0)).
Definition shop_site : @Site alone := @mkSite alone shop_host (Shop.tables SQueued) Shop.memory [].

Lemma shop_promising :
  promising shop_git (Shop.world SQueued) shop_host "akerdock/shop:0123456789ab".
Proof.
  split; try done; try set_solver.
  - right. split; [done|]. eexists. split; [reflexivity|]. split; [done|]. by vm_compute.
  - split; try done. eexists. split; [by left|done].
  - by apply (FromGit shop_git shop_host "https://git.example.org/shop.git").
Qed.

Lemma deployment_succeeds_witness :
  steady (attempt_run (H := alone) shop_git) (λ x s', x = inr SSucceeded ∧
    here (S := alone) (after_switch shop_git (new_box shop_git shop_host "akerdock/shop:0123456789ab") shop_host)
      (at_status shop_git (Shop.world SQueued) SSucceeded) s') shop_site ∧
  dm_boxes (after_switch shop_git (new_box shop_git shop_host "akerdock/shop:0123456789ab") shop_host) !! "shop" =
    Some (mkBox "akerdock/shop:0123456789ab" (labels shop_git) "running" (Some "healthy") "10.0.0.7").
Proof.
  split; [|by vm_compute].
  apply (deployment_succeeds (S := alone)); [set_solver|exact shop_promising|set_solver|done].
Defined.

(** The candidate runs, the former container is gone. *)
Definition shop_candidate : Box := mkBox "shop:2" ∅ "running" (Some "healthy") "10.0.0.7".
Definition shop_interrupted : Daemon := set_boxes Shop.host {[ "shop-next" := shop_candidate ]}.

Lemma resumption_succeeds_witness :
  steady (attempt_run (H := alone) Shop.interrupted) (λ x s', x = inr SSucceeded ∧
    here (S := alone) (after_switch Shop.interrupted shop_candidate shop_interrupted)
      (at_status Shop.interrupted (Shop.world SSwitching) SSucceeded) s')
    (@mkSite alone shop_interrupted (Shop.tables SSwitching) Shop.memory []).
Proof.
  apply (resumption_succeeds (S := alone)); [set_solver|set_solver|done|apply shop_routable|done|done|set_solver| |done].
  left. split; [done|]. intros o Ho. done.
Defined.
