(* ===== verification/DeployCases.v ===== *)
(** * Deployments: observed failures

    Runs of the example of [DeployRun.Shop] in which one statement fails or the
    process dies, evaluated.  Each lemma records a behaviour that a comment of
    the source rules out. *)
From S2P Require Import Prelude GoLib Queue Effects ControlDB Host Daemon ProxyApply AccessRoute ProxyRoutes DeployBuild DeployRun.
Local Open Scope Z_scope.
Import Shop.

(** The statement at position [n] is refused; the process dies there. *)
Definition refused_at (n : nat) : list fate := replicate n Applied ++ [Refused].
Definition dies_at (n : nat) : list fate := replicate n Applied ++ replicate 80 Refused.

Definition outcome {A} (m : M (@Site alone) A) (fs : list fate) (s : @Site alone) : err + A := fst (m fs s).
Definition left_by {A} (m : M (@Site alone) A) (fs : list fate) (s : @Site alone) : @Site alone := snd (snd (m fs s)).

(** The containers with their image and status; where the routing file sends. *)
Definition containers (s : @Site alone) : list (string * string * string) :=
  (λ kv, (fst kv, bx_image (snd kv), bx_status (snd kv))) <$> map_to_list (dm_boxes (s_out s)).
Definition file_of (s : @Site alone) : option string := dm_files (s_out s) !! dynamic_path "shop".
Definition to_candidate : string := rendered config (route_group config "10.0.0.7" None).

Definition run_once (fs : list fate) : err + DeploymentStatus := outcome (attempt_run (H := alone) queued) fs site.
Definition site_after (fs : list fate) : @Site alone := left_by (attempt_run (H := alone) queued) fs site.
Definition next_attempt (s : @Site alone) : (err + DeploymentStatus) * @Site alone := eval (Execute (H := alone) config) s.

(** With nothing refused the deployment succeeds. *)
Lemma shop_deploys :
  run_once [] = inr SSucceeded ∧ containers (site_after []) = [("shop", "shop:2", "running")] ∧
  file_of (site_after []) = Some stable.
Proof. by vm_compute. Qed.

(** Once the routing file sends to the candidate, a failure of the database (the
    revision is not recorded as applied; the row of the next step is refused)
    fails the deployment, and the compensation removes the container the traffic
    goes to; the former one runs on, unreachable. *)
Lemma compensation_removes_the_routed_container :
  (λ n, (run_once (refused_at n), file_of (site_after (refused_at n)), containers (site_after (refused_at n)))) <$> [66; 68]%nat
  = replicate 2 (inr SFailed, Some to_candidate, [("shop", "shop:1", "running")]).
Proof. by vm_compute. Qed.

(** A refused rename leaves no container at all: the former one is gone and the
    compensation removes the candidate. *)
Lemma refused_rename_leaves_nothing :
  run_once (refused_at 71) = inr SFailed ∧ containers (site_after (refused_at 71)) = [] ∧
  file_of (site_after (refused_at 71)) = Some to_candidate.
Proof. by vm_compute. Qed.

(** When the former container is stopped but cannot be removed, the rename finds
    its name taken, and the compensation removes the candidate: both are down. *)
Lemma refused_removal_leaves_nothing_running :
  run_once (refused_at 70) = inr SFailed ∧ containers (site_after (refused_at 70)) = [("shop", "shop:1", "exited")].
Proof. by vm_compute. Qed.

(** A process that dies after stopping the former container and before removing
    it: the next attempt finds a running candidate and a stopped container, calls
    it unrecoverable, and removes the running one. *)
Lemma stopped_container_is_unrecoverable :
  containers (site_after (dies_at 70)) = [("shop-next", "shop:2", "running"); ("shop", "shop:1", "exited")] ∧
  fst (next_attempt (site_after (dies_at 70))) = inr SFailed ∧
  containers (snd (next_attempt (site_after (dies_at 70)))) = [("shop", "shop:1", "exited")].
Proof. by vm_compute. Qed.

(** A process that dies in the switch, and its successor right after its first
    status: that status has overwritten the one that says a switch was under way,
    so the third attempt replays from the start, and its first act on the server
    is to remove the container that serves. *)
Definition died_twice : @Site alone := left_by (Execute (H := alone) config) (dies_at 8) (site_after (dies_at 71)).
Lemma second_crash_forgets_the_switch :
  containers died_twice = [("shop-next", "shop:2", "running")] ∧ file_of died_twice = Some to_candidate ∧
  d_status <$> w_deployments (t_world (s_tables died_twice)) !! 7 = Some SPreparing ∧
  fst (Execute (H := alone) config (refused_at 46) died_twice) = inr SFailed ∧
  containers (left_by (Execute (H := alone) config) (refused_at 46) died_twice) = [].
Proof. by vm_compute. Qed.

(** A deployment that died in the switch and whose cancellation is then asked for
    is cancelled by its next attempt, past the barrier: the container that serves
    keeps the candidate's name, which the cleanup of the server removes. *)
Definition cancel_asked (s : @Site alone) : @Site alone :=
  @mkSite alone (s_out s) (set_world (s_tables s) (set_cancel_requested (t_world (s_tables s)) {[ 40 ]})) (s_memory s) [].
Lemma resumed_switch_is_cancelled :
  fst (next_attempt (cancel_asked (site_after (dies_at 71)))) = inr SCancelled ∧
  containers (snd (next_attempt (cancel_asked (site_after (dies_at 71))))) = [("shop-next", "shop:2", "running")] ∧
  file_of (snd (next_attempt (cancel_asked (site_after (dies_at 71))))) = Some to_candidate.
Proof. by vm_compute. Qed.

(** When the row of the health check cannot be read, the application is deployed
    as if it had none: its container is stopped before the new one exists. *)
Definition stops_first (l : list event) : bool :=
  existsb (λ e, match e with FoundHealthCheck false => true | _ => false end) l.
Lemma unread_health_check_stops_first :
  stops_first (s_log (site_after (refused_at 37))) = true ∧ c_health_check config = Some true.
Proof. by vm_compute. Qed.

(** An adopted resource, whose container has the name its former platform gave
    it: when the process dies after the rename, the next attempt looks for that
    name, finds nothing, and records a failure of a deployment that is live. *)
Definition adopted : Config :=
  mkConfig 7 40 "dep-7" true false false (Some "shop") (Some "2") None
    "shop" 3 (Some (mkPointer "legacy" "")) 1 "web" true PackImage None None "" None None None None false None
    (Some true) None None true false false "" [mkProxyRoute "shop.example.org" "/" 80 "" []] true false "" "" None
    [] 80 ProtectNone "" None false 0 false [] None 0 5 2 2 2 "team".
Definition promoted_site : @Site alone :=
  @mkSite alone (set_boxes host {[ "shop" := mkBox "shop:2" ∅ "running" (Some "healthy") "10.0.0.7" ]})
    (tables SSwitching) memory [].
Lemma adopted_switch_is_unrecoverable :
  fst (eval (Execute (H := alone) adopted) promoted_site) = inr SFailed ∧
  containers (snd (eval (Execute (H := alone) adopted) promoted_site)) = [("shop", "shop:2", "running")] ∧
  fst (eval (Execute (H := alone) config) promoted_site) = inr SSucceeded.
Proof. by vm_compute. Qed.

(** Beside the container in service, which the routing file still sends to, a
    candidate that runs but was found unhealthy: the next attempt does not look at
    its health, removes the container in service and promotes it. *)
Definition unhealthy_site : @Site alone :=
  @mkSite alone (set_boxes host (<[ "shop-next" := mkBox "shop:2" ∅ "running" (Some "unhealthy") "10.0.0.7" ]> (dm_boxes host)))
    (tables SSwitching) memory [].
Lemma resumption_promotes_the_unhealthy :
  file_of unhealthy_site = Some stable ∧
  fst (eval (Execute (H := alone) config) unhealthy_site) = inr SSucceeded ∧
  dm_boxes (s_out (snd (eval (Execute (H := alone) config) unhealthy_site))) =
    {[ "shop" := mkBox "shop:2" ∅ "running" (Some "unhealthy") "10.0.0.7" ]}.
Proof. by vm_compute. Qed.

(** ** Scale to zero *)

Definition preview_row : Preview :=
  mkPreview 5 "pr-5" 3 "github" 12 None (Some "0123456789abcdef0123456789abcdef01234567") false None
    (Some "pr-12.example.org") PDeploying None None None None 0 None None None None.
Definition sleepy (preview_scale app_scale : bool) : Config :=
  mkConfig 7 40 "dep-7" true false false (Some "shop") (Some "2") None
    "shop" 3 None 1 "web" true PackImage None None "" None None None None false None
    (Some true) None None true app_scale preview_scale "akerdock:1" [mkProxyRoute "shop.example.org" "/" 80 "" []] true false
    "" "" None [] 80 ProtectNone "" None false 0 false [] None 0 5 2 2 2 "team".

(** A preview that scales to zero is routed to the waker, and the verification
    waits for the address of the candidate: with a health check the deployment
    fails, whatever comes up. *)
Definition preview_outcome (scale : bool) : err + DeploymentStatus :=
  fst (eval (attempt_run (H := alone) (mkDeploy (sleepy scale false) SQueued (Some preview_row))) site).
Lemma sleepy_preview_cannot_be_deployed :
  preview_outcome true = inr SFailed ∧ preview_outcome false = inr SSucceeded.
Proof. by vm_compute. Qed.

(** A change of domains rewrites the file of an application that scales to zero
    without the waker: a deployment sends the traffic to the agent, the job sends
    it to the container. *)
Definition routes_to (name : string) (s : @Site alone) : bool :=
  match file_of s with Some f => contains_sub ("http://" +:+ name +:+ ":") f | None => false end.
Lemma changed_domains_bypass_the_waker :
  let deployed := snd (eval (attempt_run (H := alone) (mkDeploy (sleepy false true) SQueued None)) site) in
  let changed := snd (eval (ApplyRouting (H := alone) (sleepy false true) 2) deployed) in
  (routes_to "akerdock-agent" deployed, routes_to "shop" deployed) = (true, false) ∧
  (routes_to "akerdock-agent" changed, routes_to "shop" changed) = (false, true).
Proof. by vm_compute. Qed.

(** ** Builds *)

(** A build from git, on a build server. *)
Definition from_git (pack : BuildPack) (source : option Credential) : Config :=
  mkConfig 7 40 "0123456789ab-dep-7" false false false None None None
    "shop" 3 None 1 "web" true pack (Some "https://example.org/shop.git") None "" source None None None false (Some "registry")
    (Some true) None None true false false "" [mkProxyRoute "shop.example.org" "/" 80 "" []] true false "" "" None
    [] 80 ProtectNone "" None false 0 true [(2, None)] None 0 5 2 2 2 "team".
Definition sha : string := "0123456789abcdef0123456789abcdef01234567".
Definition git_host (code : Z) : Daemon :=
  mkDaemon ∅ ∅ (λ _, None) "10.0.0.7" (λ cmd, if contains_sub "ls-remote" cmd then (sha, 0)
    else if contains_sub "git_askpass &&" cmd then ("", code) else ("", 0)).
Definition git_site (code : Z) : @Site alone := @mkSite alone (git_host code) (tables SQueued) memory [].
Definition commands (l : list event) : list (machine * string) :=
  omap (λ e, match e with
             | Called (Run on cmd) _ => Some (on, cmd) | Called (RunInput on cmd _) _ => Some (on, cmd) | _ => None end) l.
Definition build_log (c : Config) (code : Z) : list (machine * string) :=
  commands (s_log (snd (eval (build (H := alone) (mkDeploy c SQueued None)) (git_site code)))).

(** Nixpacks is installed on the deployment server, and run on the build server. *)
Lemma nixpacks_is_installed_elsewhere :
  list_find (λ x, contains_sub "install nixpacks" (snd x) = true) (build_log (from_git PackNixpacks None) 0) ≫=
    (λ x, Some (fst (snd x))) = Some Target ∧
  list_find (λ x, contains_sub "nixpacks build" (snd x) = true) (build_log (from_git PackNixpacks None) 0) ≫=
    (λ x, Some (fst (snd x))) = Some Builder.
Proof. by vm_compute. Qed.

(** The helper that carries a GitHub token is taken off the build machine, unless
    the command that writes it reports a failure. *)
Definition removes_askpass (l : list (machine * string)) : bool := existsb (λ x, contains_sub "rm -f" (snd x)) l.
Lemma failed_upload_keeps_the_token :
  removes_askpass (build_log (from_git PackDockerfile (Some (GithubApp true "tok"))) 0) = true ∧
  removes_askpass (build_log (from_git PackDockerfile (Some (GithubApp true "tok"))) 1) = false ∧
  existsb (λ x, contains_sub "git_askpass &&" (snd x)) (build_log (from_git PackDockerfile (Some (GithubApp true "tok"))) 1) = true.
Proof. by vm_compute. Qed.

(** A head of a pull request shorter than twelve characters panics. *)
Definition short_head : Preview :=
  mkPreview 5 "pr-5" 3 "other" 12 None (Some "abc") false None
    (Some "pr-12.example.org") PDeploying None None None None 0 None None None None.
Lemma short_head_panics :
  fst (eval (attempt_run (H := alone) (mkDeploy (from_git PackDockerfile None) SQueued (Some short_head))) (git_site 0)) = inl panic.
Proof. by vm_compute. Qed.

(** ** Retention *)

(** The artifacts are listed before the deployment is recorded as succeeded, so
    the image just deployed is not among them: with a retention of one, a return
    to version 1 removes the image of version 1, and two are left recorded. *)
Definition returning : Config :=
  mkConfig 7 40 "dep-7" false false false (Some "shop") (Some "1") None
    "shop" 3 None 1 "web" true PackImage None None "" None None None None false None
    (Some true) None None true false false "" [mkProxyRoute "shop.example.org" "/" 80 "" []] true false "" "" None
    [] 80 ProtectNone "" None false 0 false [] None 0 1 2 2 2 "team".
Definition past (i : Z) : Deployment := mkDeployment i 3 TManual 1 None None false SSucceeded None.
Definition history : Tables :=
  set_artifacts (set_world (tables SQueued)
      (set_deployments (world SQueued) (<[ 5 := past 5 ]> (<[ 6 := past 6 ]> (w_deployments (world SQueued)))) 8))
    [mkArtifact 2 6 "shop" (Some "2") 1; mkArtifact 1 5 "shop" (Some "1") 1].
Lemma retention_removes_the_live_image :
  let run := eval (Execute (H := alone) returning)
               (@mkSite alone host history (mkMemory false "" (Some "shop") (Some "1")) []) in
  fst run = inr SSucceeded ∧
  omap (λ e, match e with Called (ImageRemove ref) _ => Some ref | _ => None end) (s_log (snd run)) = ["shop:1"] ∧
  (λ a, (ar_deployment a, ar_tag a)) <$> t_artifacts (s_tables (snd run)) = [(7, Some "1"); (6, Some "2")] ∧
  containers (snd run) = [("shop", "shop:1", "running")].
Proof. by vm_compute. Qed.
