(* ===== verification/ComposeDeploy.v ===== *)
(** * Deployments of compose stacks

    Models [executeCompose] and what it calls in [internal/jobs/composedeploy.go]
    and [composecreate.go], with the routes of components of [applyrouting.go]:
    the clone, the two loads of the file, the objects of the stack, the hooks, the
    images, and the replacement of each service in the order of the plan, by a
    switch beside the old container where the service is eligible and by a
    recreation otherwise, or by finishing the switch a dead attempt left.

    The plan that [compose.Load] makes of the file (its order is that of
    [ComposePlan]) and the rows the run reads once are data.  So are the two
    fingerprints of the body of a container, and the routes of a preview. *)
From S2P Require Import Prelude GoLib Queue Effects ControlDB Host Daemon ProxyApply AccessRoute ProxyRoutes DeployBuild DeployRun.
Local Open Scope Z_scope.

(** ** What a run is given *)

(** [compose.HealthFlags] *)
Record HealthFlags := mkHealth { h_disable : bool; h_test : list string }.

(** [compose.ServicePlan]; its mounted volumes, and for each image the two
    fingerprints of the body of its container *)
Record Service := mkService {
  sp_name : string; sp_image : string; sp_build : bool; sp_one_shot : bool; sp_exclude_hc : bool;
  sp_opt_out : bool; sp_host_ports : bool; sp_health : option HealthFlags;
  sp_pre : string; sp_post : string; sp_public : list AccessRoute.Route; sp_labels : gmap string string;
  sp_networks : list string; sp_volumes : list string;
  sp_hash_v1 : string → string; sp_hash_v2 : string → string; sp_polls : nat
}.

(** A row of [domains], a row of [service_components] with its domains *)
Record Domain := mkDomain { dom_fqdn : string; dom_path : string; dom_port : option Z }.
Record Component := mkComponent {
  cm_name : string; cm_port : option Z; cm_public : list AccessRoute.Route; cm_domains : list Domain
}.

(** [compose.Result]: the findings, whether one is an error, and the plan, in
    the order in which the services start *)
Record Loaded := mkLoaded { ld_findings : nat; ld_errors : bool; ld_plan : option (list Service) }.

(** A magic variable the file mentions and no variable defines: a credential,
    whether its row was there after all; or the address of a component *)
Inductive Addressed := NoComponent | HasDomain | NoWildcard | Generated.
Inductive MagicUse := NewCredential (raced : bool) | AddressOf (component : Addressed).

Record Stack := mkStack {
  k_run : Deploy; k_service : bool; k_raw : bool; k_commit : option string; k_compose_path : option string;
  k_first : option Loaded; k_second : option Loaded; k_magic : list MagicUse;
  k_networks : list string; k_volumes : list string; k_seeds : gmap string string;
  k_domains : list Domain; k_components : list Component; k_default_port : Z;
  k_preview_routes : list (string * (string * Z))
}.

Section Stack.
Context (k : Stack).
Let r := k_run k.
Let c := r_config r.

(** The names [buildServicePlan] gives *)
Definition container_of (sp : Service) : string := namingIdentity r +:+ "-" +:+ sp_name sp.
Definition next_of (sp : Service) : string := container_of sp +:+ "-next".
Definition build_image_of (sp : Service) : string := "akerdock/" +:+ container_of sp.

(** The directory of the stack *)
Definition stack_dir : string :=
  if k_service k && bool_decide (r_preview r = None)
  then "/var/lib/akerdock/services/" +:+ namingIdentity r else app_dir r.

(** ** Routes *)

(** [resolveWebComponent] *)
Definition resolveWebComponent (port : option Z) : option Component :=
  let routable := filter (λ x, is_Some (cm_port x)) (k_components k) in
  match port ≫= λ p, head (filter (λ x, cm_port x = Some p) routable) with
  | Some x => Some x
  | None => match routable with [x] => Some x | _ => None end
  end.

(** Where a component is reached: by its name, or where the switch sends *)
Definition endpoint_of (overrides : gmap string string) (x : Component) : string :=
  match overrides !! cm_name x with
  | Some e => if decide (e = "") then c_resource c +:+ "-" +:+ cm_name x else e
  | None => c_resource c +:+ "-" +:+ cm_name x
  end.

(** The route of a domain of the application *)
Definition application_route (overrides : gmap string string) (d : Domain) : err + ProxyRoutes.Route :=
  let port := default (k_default_port k) (dom_port d) in
  match k_components k with
  | [] => inr (mkProxyRoute (dom_fqdn d) (dom_path d) port "" (c_public_routes c))
  | _ =>
      match resolveWebComponent (dom_port d) with
      | None => inl (Failure "compose_routable_component")
      | Some x =>
          let port := match dom_port d, cm_port x with None, Some p => p | _, _ => port end in
          inr (mkProxyRoute (dom_fqdn d) (dom_path d) port (endpoint_of overrides x) (cm_public x))
      end
  end.

(** [appendComponentRoutes], of one domain *)
Definition component_route (overrides : gmap string string) (x : Component) (d : Domain) : err + ProxyRoutes.Route :=
  match dom_port d, cm_port x with
  | Some p, _ | None, Some p => inr (mkProxyRoute (dom_fqdn d) (dom_path d) p (endpoint_of overrides x) (cm_public x))
  | None, None => inl (Failure "compose_routable_port_unresolved")
  end.

Fixpoint all_or_error {A} (xs : list (err + A)) : err + list A :=
  match xs with
  | [] => inr []
  | inl e :: _ => inl e
  | inr a :: xs' => match all_or_error xs' with inr l => inr (a :: l) | inl e => inl e end
  end.
Definition stack_routes (overrides : gmap string string) : err + list ProxyRoutes.Route :=
  all_or_error ((application_route overrides <$> k_domains k) ++
    mjoin ((λ x, component_route overrides x <$> cm_domains x) <$> k_components k)).

(** [applicationRouteGroup] of a stack; no group without a route *)
Definition stack_group (overrides : gmap string string) : err + option RouteGroup :=
  match stack_routes overrides with
  | inl e => inl e
  | inr [] => inr None
  | inr routes =>
      inr (Some (mkGroup (c_resource c) (c_wildcard c) (c_dns_provider c) (c_resource c) routes
                   (c_force_https c) (c_access c) (c_noindex c) ""))
  end.

(** [composePreviewRouteGroup] *)
Definition by_name (x y : string * (string * Z)) : Prop := String.leb (fst x) (fst y) = true.
#[export] Instance by_name_dec x y : Decision (by_name x y).
Proof. unfold by_name. apply _. Defined.
Definition composePreviewRouteGroup (services : list Service) : RouteGroup :=
  mkGroup (namingIdentity r) "" "" ""
    ((λ x, mkProxyRoute (fst (snd x)) "/" (snd (snd x)) (namingIdentity r +:+ "-" +:+ fst x)
             (default [] (sp_public <$> head (filter (λ sp, sp_name sp = fst x) services))))
     <$> merge_sort by_name (k_preview_routes k))
    true None false "".

(** [routedComponents]: the services with a domain, their own or the
    application's; a preview serves its own routes *)
Definition routed (sp : Service) : bool :=
  match r_preview r with
  | Some _ => bool_decide (sp_name sp ∈ (k_preview_routes k).*1)
  | None =>
      bool_decide (Exists (λ x, cm_name x = sp_name sp ∧ cm_domains x ≠ []) (k_components k) ∨
                   Exists (λ d, cm_name <$> resolveWebComponent (dom_port d) = Some (sp_name sp)) (k_domains k))
  end.

(** ** How a service is replaced *)

(** [composeImage] *)
Record ComposeImage := mkComposeImage { ci_ref : string; ci_health : bool }.

(** [zeroDowntimeEligibility] *)
Definition own_health (sp : Service) : bool :=
  match sp_health sp with Some h => negb (h_disable h) && negb (bool_decide (h_test h = [])) | None => false end.
Definition zeroDowntimeEligibility (sp : Service) (image_health : bool) : bool :=
  negb (k_raw k) && negb (sp_opt_out sp) && negb (sp_host_ports sp) && (own_health sp || image_health).

(** [composeConfigState], [composeSkipDecision] *)
Record ConfigState := mkConfigState { cf_v1 : string; cf_v2 : string; cf_running : bool }.
Definition composeSkipDecision (state : ConfigState) (v1 v2 : string) : bool :=
  cf_running state && (if decide (cf_v2 state = "") then bool_decide (cf_v1 state = v1) else bool_decide (cf_v2 state = v2)).

(** [previewSeedPairs]: the volume of production for each volume to seed *)
Definition previewSeedPairs (sp : Service) : list (string * string) :=
  match r_preview r with
  | None => []
  | Some _ => omap (λ v, (λ declared, (c_resource c +:+ "_" +:+ declared, v)) <$> k_seeds k !! v) (sp_volumes sp)
  end.

(** The labels of a container of the service *)
Definition service_labels (sp : Service) (ref : string) : gmap string string :=
  sp_labels sp ∪ (if sp_one_shot sp then {[ "akerdock.oneshot" := "true" ]} else ∅) ∪
  <[ "akerdock.component" := sp_name sp ]>
    (<[ "akerdock.config_hash" := sp_hash_v1 sp ref ]> (<[ "akerdock.config_hash_v2" := sp_hash_v2 sp ref ]>
       (if k_service k then <[ "akerdock.type" := "service" ]> (labels r) else labels r))).
End Stack.

(** ** The run *)

Section Compose.
Context `{Surroundings} (k : Stack).
Let r := k_run k.
Let c := r_config r.
Let id := namingIdentity r.

(** *** Sources *)

(** The commit: the head of the pull request, the one deployed when nothing is
    to be built, or the head of the branch *)
Definition deployed_sha : option string :=
  sha ← k_commit k; if c_skip_build c && negb (bool_decide (sha = "")) then Some sha else None.
Definition compose_sha (git_env repo branch : string) : M Site string :=
  match pinned_sha r, deployed_sha with
  | Some sha, _ => _ ← skipStep; _ ← ignore bookkeeping; mret sha
  | None, Some sha => _ ← skipStep; mret sha
  | None, None =>
      step (out ← run Target (git_env +:+ "git ls-remote " +:+ shellQuote repo +:+ " refs/heads/" +:+ shellQuote branch);
            let sha := trim_space (before_tab (firstLine out)) in
            if decide (String.length sha = 40%nat) then _ ← ignore bookkeeping; mret sha
            else throw (Failure "branch not found"))
  end.
(** [cloneForCompose]; the commands run on [r.client], the deployment server *)
Definition compose_checkout (git_env repo branch : string) : M Site string :=
  sha ← compose_sha git_env repo branch;
  let ref := if decide (previewFetchRef r = "") then sha else previewFetchRef r in
  _ ← step (run Target (fetch_command r git_env repo ref));
  _ ← (if decide (ref = sha) then mret ()
       else step (out ← run Target ("cd " +:+ source_dir r +:+ " && git rev-parse HEAD");
                  if decide (firstLine out = sha) then mret () else throw (Failure "the pull request moved")));
  _ ← ignore (_ ← run Target ("cd " +:+ source_dir r +:+ " && git log -1 --format='%an%x1f%s'"); ignore bookkeeping);
  mret sha.
Definition cloneForCompose (repo : string) : M Site string :=
  let branch := match c_git_branch c with Some b => if decide (b = "") then "main" else b | None => "main" end in
  _ ← setStatus r SCloning;
  credential ← installDeployKey r;
  deferred (snd credential) (compose_checkout (fst credential) repo branch).

(** The file of the stack, and the name of its sources *)
Definition compose_path : string :=
  match k_compose_path k with Some p => if decide (p = "") then "docker-compose.yml" else trim_prefix p "/" | None => "docker-compose.yml" end.
Definition compose_source : M Site string :=
  if k_service k then
    _ ← skipStep; _ ← setStatus r SBuilding; mret (no_dashes (c_uuid c))
  else match c_git_url c with
  | None => throw panic
  | Some repo =>
      sha ← cloneForCompose repo;
      _ ← setStatus r SBuilding;
      _ ← step (run Target ("cat " +:+ work_dir r +:+ "/" +:+ compose_path));
      mret sha
  end.

(** *** The file *)

(** [plainEnvVars]; the values are left out *)
Definition plainEnvVars : M Site () := read_variables r.

(** [syncComponents] *)
Definition syncComponents (services : list Service) : M Site () :=
  _ ← each services (λ _, bookkeeping); bookkeeping.

(** [componentFQDN]: a domain is made for a component that has none, where the
    server has a wildcard; no error goes further *)
Definition componentFQDN (x : Addressed) : M Site () :=
  ignore (_ ← bookkeeping;
          match x with
          | NoComponent => mret ()
          | HasDomain | NoWildcard => bookkeeping
          | Generated => _ ← bookkeeping; _ ← fallible; bookkeeping
          end).
(** [ensureMagicVariables], of one variable *)
Definition ensure_magic (use : MagicUse) : M Site () :=
  match use with
  | NewCredential raced =>
      _ ← fallible; _ ← fallible; _ ← fallible; (** value, uuid, encryption *)
      _ ← bookkeeping;
      if (raced : bool) then plainEnvVars else mret ()
  | AddressOf x => if decide (r_preview r = None) then componentFQDN x else mret ()
  end.

(** [reportFindings] *)
Definition reportFindings (l : Loaded) : M Site () :=
  if decide (ld_findings l = O) then skipStep
  else step (if ld_errors l then throw (Failure "compose validation failed") else mret ()).

(** The plan to execute *)
Definition compose_plan : M Site (list Service) :=
  _ ← plainEnvVars;
  match k_first k with
  | None => throw (Failure "compose")
  | Some first =>
      _ ← match ld_plan first with
          | Some services =>
              _ ← (if decide (r_preview r = None) then syncComponents services else mret ());
              each (k_magic k) ensure_magic
          | None => mret ()
          end;
      _ ← renderRuntimeEnv r;
      match k_second k with
      | None => throw (Failure "compose")
      | Some second =>
          _ ← reportFindings second;
          match ld_plan second with
          | None => throw (Failure "the compose file was refused by validation")
          | Some services =>
              if k_service k && existsb sp_build services
              then throw (Failure "build requires a git source")
              else mret services
          end
      end
  end.

(** *** Objects, hooks, images *)

(** [syncStackStorages] never fails the deployment *)
Definition prepare_stack (services : list Service) : M Site () :=
  _ ← (if decide (r_preview r = None) then
         _ ← syncComponents services; ignore (_ ← bookkeeping; each services (λ _, bookkeeping))
       else mret ());
  _ ← step (_ ← each (k_networks k) (λ n, ask (Other Target ("network " +:+ n)));
            each (k_volumes k) (λ v, ask (Other Target ("volume " +:+ v))));
  _ ← (if c_registry_credential c then _ ← bookkeeping; fallible else mret ());
  (** the rows of [routedComponents] or [composePreviewRoutes] *)
  if decide (r_preview r = None)
  then _ ← each (k_components k) (λ _, bookkeeping); _ ← bookkeeping; if decide (k_domains k = []) then mret () else bookkeeping
  else ignore (_ ← bookkeeping; bookkeeping).

Definition pre_hook (sp : Service) : M Site () :=
  if decide (sp_pre sp = "") then mret ()
  else if decide (r_preview r = None) then runHook true (Some (sp_pre sp)) (container_of k sp)
  else skipStep.

(** [resolveComposeImage] *)
Definition resolveComposeImage (sp : Service) (ref : string) : M Site ComposeImage :=
  step (info ← ask (ImageInspect Target ref);
        mret (mkComposeImage
                (match im_digests info with d :: _ => if sp_build sp then ref else d | [] => ref end)
                (im_health info))).
(** [ensureComposeImage]; [sha[:12]] panics on a shorter one *)
Definition service_ref (sp : Service) (sha : string) : option string :=
  if sp_build sp then (λ s, build_image_of k sp +:+ ":" +:+ s) <$> first12 sha else Some (sp_image sp).
Definition ensureComposeImage (sp : Service) (sha : string) : M Site ComposeImage :=
  match service_ref sp sha with
  | None => throw panic
  | Some ref =>
      here ← (if c_skip_build c then x ← attempt (ask (ImageInspect Target ref)); mret (match x with inr _ => true | inl _ => false end)
              else mret false);
      _ ← (if (here : bool) then skipStep
           else step (if sp_build sp then ask (Other (bc r) "build") else ask (ImagePull ref)));
      resolveComposeImage sp ref
  end.
Fixpoint ensure_images (services : list Service) (sha : string) : M Site (list (Service * ComposeImage)) :=
  match services with
  | [] => mret []
  | sp :: services' =>
      img ← ensureComposeImage sp sha;
      rest ← ensure_images services' sha;
      mret ((sp, img) :: rest)
  end.

(** A command after the deployment needs a switch *)
Definition post_possible (x : Service * ComposeImage) : bool :=
  bool_decide (sp_post (fst x) = "") || bool_decide (r_preview r ≠ None) ||
  (routed k (fst x) && zeroDowntimeEligibility k (fst x) (ci_health (snd x))).

(** [retireAdoptedProject]; errors are only logged *)
Definition retireAdoptedProject (project : string) : M Site () :=
  list ← ask (ContainerList ("com.docker.compose.project=" +:+ project));
  each list (λ x, _ ← ignore (ask (Stop (su_id x))); ignore (ask (Remove (su_id x) false))).
Definition retire : M Site () :=
  match r_preview r, c_adoption c with
  | None, Some p => if decide (pt_project p = "") then mret () else step (retireAdoptedProject (pt_project p))
  | _, _ => mret ()
  end.

(** *** One service *)

(** [connectServiceNetworks]; to be connected already is a success *)
Definition connectServiceNetworks (sp : Service) (name : string) (to_proxy tolerant : bool) : M Site () :=
  each (sp_networks sp ++ (if to_proxy then [c_network c] else [])) (λ n,
    let call := ask (Other Target ("connect " +:+ name +:+ " to " +:+ n)) in
    if tolerant then ignore call else call).

(** [seedPreviewVolumes], [chownEmptyVolumes]: throwaway containers *)
Definition seedPreviewVolumes (pairs : list (string * string)) : M Site () :=
  each pairs (λ x,
    there ← attempt (ask (Other Target ("inspect volume " +:+ fst x)));
    match there with
    | inr _ => ask (Other Target ("seed " +:+ snd x))
    | inl e => if IsNotFound e then mret () else throw e
    end).
Definition rootless (user : string) : bool :=
  negb (bool_decide (user ∈ [""; "root"; "0"])) && negb (has_prefix user "0:").
Definition chownEmptyVolumes (ref : string) (volumes : list string) : M Site () :=
  info ← attempt (ask (ImageInspect Target ref));
  match info with
  | inr i => if rootless (im_user i) then each volumes (λ v, ignore (ask (Other Target ("chown " +:+ v)))) else mret ()
  | inl _ => mret ()
  end.
Definition ready_volumes (sp : Service) (ref : string) : M Site () :=
  _ ← seedPreviewVolumes (previewSeedPairs k sp);
  if decide (sp_volumes sp = []) then mret () else chownEmptyVolumes ref (sp_volumes sp).

(** [composeHealthVerdict]; the wait between two polls ends early when the
    context does *)
Fixpoint composeHealthVerdict (polls : nat) (name : string) : M Site string :=
  match polls with
  | O => mret "timeout"
  | S polls' =>
      resp ← attempt (ask (Inspect name));
      let again := _ ← fallible; composeHealthVerdict polls' name in
      match resp with
      | inl _ => again
      | inr ct =>
          match ct_state ct with
          | None => again
          | Some st =>
              match cs_health st with
              | Some h =>
                  if decide (h = "healthy") then mret "healthy"
                  else if decide (h = "unhealthy") then mret "unhealthy" else again
              | None =>
                  if cs_running st then
                    _ ← fallible;
                    second ← attempt (ask (Inspect name));
                    mret (match second with
                          | inr ct' => match ct_state ct' with
                                       | Some st' => if cs_running st' then "running" else cs_status st'
                                       | None => "absent"
                                       end
                          | inl _ => "absent"
                          end)
                  else again
              end
          end
      end
  end.
(** [composeAwaitHealthy] *)
Definition composeAwaitHealthy (sp : Service) (name : string) : M Site () :=
  step (verdict ← composeHealthVerdict (sp_polls sp) name;
        if decide (verdict = "healthy" ∨ verdict = "running") then mret ()
        else _ ← ignore (ask (Other Target "logs")); throw (Failure "the service did not turn healthy")).

(** [recreateComposeService] *)
Definition recreateComposeService (sp : Service) (ref : string) (to_proxy : bool) : M Site () :=
  let name := container_of k sp in
  _ ← step (_ ← ready_volumes sp ref;
            _ ← ignore (ask (Stop name));
            _ ← removeNamed false name;
            _ ← ask (Create name ref (service_labels k sp ref));
            _ ← connectServiceNetworks sp name to_proxy false;
            ask (Start name));
  if sp_one_shot sp then
    step (code ← ask (Wait name); if decide (code = 0) then mret () else throw (Failure "one-shot service exited non-zero"))
  else if sp_exclude_hc sp then skipStep
  else composeAwaitHealthy sp name.

(** The final routing of the stack: [applyRouting] *)
Definition read_stack_routes : M Site () :=
  _ ← bookkeeping; _ ← ignore bookkeeping; _ ← bookkeeping; each (k_components k) (λ _, bookkeeping).
Definition apply_file (content expect : string) : M Site () :=
  step (Apply (c_verify_polls c) (c_server c) id content expect).
Definition applyStackRouting : M Site () :=
  if negb (c_traefik c) then mret ()
  else
    _ ← bookkeeping;
    _ ← read_stack_routes;
    match stack_group k ∅ with
    | inl e => throw e
    | inr (Some rg) =>
        if c_scale_to_zero c then _ ← ensureAgent r; apply_file (rendered c (Some (pointRouteGroupAtWaker rg))) ""
        else apply_file (rendered c (Some rg)) ""
    | inr None => apply_file "" ""
    end.

(** [switchComponentRouting] *)
Definition switchComponentRouting (component endpoint : string) : M Site () :=
  if negb (c_traefik c) then mret ()
  else if c_scale_to_zero c then
    if decide (endpoint ≠ "") then mret () else applyStackRouting
  else
    _ ← bookkeeping;
    _ ← read_stack_routes;
    match stack_group k (if decide (endpoint = "") then ∅ else {[ component := endpoint ]}) with
    | inl e => throw e
    | inr g => apply_file (rendered c g) (if decide (endpoint = "") then "" else "http://" +:+ endpoint +:+ ":")
    end.

(** [promoteComposeCandidate] *)
Definition take_over (sp : Service) : M Site () :=
  let name := container_of k sp in
  _ ← ignore (ask (Stop name));
  _ ← ignore (removeNamed false name);
  _ ← ask (Rename (next_of k sp) name);
  _ ← ignore (ask (Other Target ("disconnect " +:+ name +:+ " from " +:+ id)));
  ask (Other Target ("connect " +:+ name +:+ " to " +:+ id)).
Definition candidate_address (sp : Service) : M Site string :=
  step (ct ← ask (Inspect (next_of k sp));
        if decide (ct_ip ct = "") then throw (Failure "could not resolve the candidate IP") else mret (ct_ip ct)).
Definition promoteComposeCandidate (sp : Service) : M Site () :=
  ip ← candidate_address sp;
  _ ← switchComponentRouting (sp_name sp) ip;
  _ ← step (take_over sp);
  switchComponentRouting (sp_name sp) "".

(** [zeroDowntimeReplace]; whatever fails, the candidate is discarded *)
Definition start_next (sp : Service) (ref : string) : M Site () :=
  let next := next_of k sp in
  step (_ ← ready_volumes sp ref;
        _ ← removeNamed false next;
        _ ← ask (Create next ref (service_labels k sp ref));
        _ ← connectServiceNetworks sp next true false;
        ask (Start next)).
Definition switch_service (sp : Service) (ref : string) : M Site () :=
  _ ← start_next sp ref;
  _ ← composeAwaitHealthy sp (next_of k sp);
  _ ← (if decide (sp_post sp = "") then mret () else runHook false (Some (sp_post sp)) (next_of k sp));
  _ ← checkpoint r;
  promoteComposeCandidate sp.
Definition zeroDowntimeReplace (sp : Service) (ref : string) : M Site () :=
  done ← attempt (switch_service sp ref);
  match done with
  | inr _ => mret ()
  | inl e => _ ← ignore (removeNamed false (next_of k sp)); throw e
  end.

(** [containerConfigState] *)
Definition containerConfigState (name : string) : M Site ConfigState :=
  resp ← attempt (ask (Inspect name));
  mret (match resp with
        | inl _ => mkConfigState "" "" false
        | inr ct => mkConfigState (default "" (ct_labels ct !! "akerdock.config_hash"))
                      (default "" (ct_labels ct !! "akerdock.config_hash_v2"))
                      (match ct_state ct with Some st => bool_decide (cs_status st = "running") | None => false end)
        end).

(** [replaceComposeService] *)
Definition unchanged (sp : Service) (ref : string) : M Site bool :=
  if c_force c || sp_one_shot sp then mret false
  else
    state ← containerConfigState (container_of k sp);
    mret (composeSkipDecision state (sp_hash_v1 sp ref) (sp_hash_v2 sp ref)).
Definition replaceComposeService (sp : Service) (img : ComposeImage) : M Site () :=
  let to_proxy := routed k sp in
  skip ← unchanged sp (ci_ref img);
  if (skip : bool) then
    _ ← connectServiceNetworks sp (container_of k sp) to_proxy true; skipStep
  else if sp_one_shot sp || negb to_proxy then recreateComposeService sp (ci_ref img) to_proxy
  else if bool_decide (r_preview r = None) && zeroDowntimeEligibility k sp (ci_health img)
  then zeroDowntimeReplace sp (ci_ref img)
  else _ ← skipStep; recreateComposeService sp (ci_ref img) to_proxy.

(** [SetServiceComponentObserved], of a component of production *)
Definition observed : M Site () := if decide (r_preview r = None) then ignore bookkeeping else mret ().

(** [resumeComposeService]: whether the service is done *)
Definition resumeComposeService (sp : Service) : M Site bool :=
  let next := next_of k sp in
  resp ← attempt (ask (Inspect next));
  match resp with
  | inl e => if IsNotFound e then mret false else throw e
  | inr ct =>
      let usable := match ct_state ct with
                    | Some st => bool_decide (cs_status st = "running") && negb (bool_decide (cs_health st = Some "unhealthy"))
                    | None => false
                    end in
      _ ← skipStep;
      if negb usable then _ ← ignore (removeNamed false next); mret false
      else
        healthy ← attempt (composeAwaitHealthy sp next);
        match healthy with
        | inl _ => _ ← ignore (removeNamed false next); mret false
        | inr _ => _ ← promoteComposeCandidate sp; _ ← observed; mret true
        end
  end.

(** One turn of the loop over the services *)
Definition resumed : bool := negb (bool_decide (r_status r = SQueued ∨ r_status r = SPreparing)).
Definition deploy_service (x : Service * ComposeImage) : M Site () :=
  _ ← checkpoint r;
  done ← (if resumed then resumeComposeService (fst x) else mret false);
  if (done : bool) then mret ()
  else
    replaced ← attempt (replaceComposeService (fst x) (snd x));
    _ ← observed;
    match replaced with inr _ => mret () | inl e => throw e end.

(** [applyComposePreviewRouting] *)
Definition applyComposePreviewRouting (p : Preview) (services : list Service) : M Site () :=
  if negb (c_traefik c) then mret ()
  else
    let rg := composePreviewRouteGroup k services in
    if decide (Routes rg = []) then apply_file "" ""
    else
      _ ← (if c_preview_scale_to_zero c then ensureAgent r else mret ());
      let target := if c_preview_scale_to_zero c then pointRouteGroupAtWaker rg else rg in
      sso ← previewSSOAuthURL r;
      hash ← previewAuthHash r;
      apply_file (renderPreviewContent c target p hash sso (route_fqdn <$> Routes rg)) "".

(** The images, then everything that touches a container *)
Definition replace_services (images : list (Service * ComposeImage)) : M Site () :=
  _ ← retire;
  _ ← setStatus r SStarting;
  each images deploy_service.
Definition route_stack (services : list Service) : M Site () :=
  _ ← setStatus r SSwitching;
  _ ← match r_preview r with
      | Some p => applyComposePreviewRouting p services
      | None => applyStackRouting
      end;
  finish r.

(** [executeCompose] *)
Definition executeCompose : M Site () :=
  if c_rollback c then throw (Failure "rollback of a compose stack is not supported yet")
  else if negb (k_service k) && bool_decide (c_git_url c = None)
  then throw (Failure "the compose build pack requires a git source")
  else
    _ ← step (_ ← ask (Other Target "ping");
              _ ← ask (Other Target "network");
              run Target (prepare_dir (stack_dir k)));
    sha ← compose_source;
    services ← compose_plan;
    _ ← prepare_stack services;
    _ ← each services pre_hook;
    images ← ensure_images services sha;
    if negb (forallb post_possible images)
    then throw (Failure "a post-deployment command requires the zero-downtime switch")
    else
      _ ← replace_services images;
      route_stack services.

(** [execute] of a stack, and its attempt *)
Definition execute_stack : M Site () :=
  if fork_unapproved r then throw (Failure "fork preview without maintainer approval (INV-010)")
  else
    _ ← enter r SPreparing;
    _ ← connect r;
    executeCompose.
Definition attempt_stack : M Site DeploymentStatus := concluded r execute_stack.
End Compose.
