(* ===== verification/ComposeSafety.v ===== *)
(** * Deployments of compose stacks: what an attempt may do

    Properties of the log of one attempt ([ComposeDeploy.attempt_stack]), which
    hold whatever Docker, the proxy, the database and the other workers answer
    and do, and wherever the process dies. *)
From S2P Require Import Prelude GoLib Queue Effects ControlDB Host Daemon ProxyApply AccessRoute ProxyRoutes DeployBuild DeployRun DeploySafety ComposeDeploy.
Local Open Scope Z_scope.

(** ** Names *)

(** No service has the name of another one's candidate, or of the candidate of
    an application. *)
Definition well_named (services : list Service) : Prop :=
  NoDup (sp_name <$> services) ∧
  ∀ sp, sp ∈ services → sp_name sp ≠ "next" ∧ ∀ sp', sp' ∈ services → sp_name sp ≠ sp_name sp' +:+ "-next".

Lemma append_inj_r (a b c : string) : a +:+ c = b +:+ c → a = b.
Proof.
  revert b. induction a as [|x a IH]; intros [|y b] He; [done|..].
  - apply (f_equal String.length) in He. rewrite !append_length in He. simpl in He. lia.
  - apply (f_equal String.length) in He. rewrite !append_length in He. simpl in He. lia.
  - rewrite !append_cons in He. injection He as -> He. f_equal. by apply IH.
Qed.

Section Names.
Context (k : Stack).

Lemma container_inj sp sp' : container_of k sp = container_of k sp' → sp_name sp = sp_name sp'.
Proof. unfold container_of. intros Hn%(inj _)%(inj _). done. Qed.
Lemma next_inj sp sp' : next_of k sp = next_of k sp' → sp_name sp = sp_name sp'.
Proof. intros Hn%append_inj_r. by apply container_inj. Qed.
Lemma container_next services sp sp' :
  well_named services → sp ∈ services → sp' ∈ services → container_of k sp ≠ next_of k sp'.
Proof.
  intros [_ Hw] Hsp Hsp' He. destruct (Hw sp Hsp) as [_ Hn]. apply (Hn sp' Hsp').
  unfold next_of, container_of in He. rewrite !append_assoc in He. by apply (inj _), (inj _) in He.
Qed.
Lemma container_candidate services sp :
  well_named services → sp ∈ services → container_of k sp ≠ candidate_name (k_run k).
Proof.
  intros [_ Hw] Hsp He. destruct (Hw sp Hsp) as [Hn _]. apply Hn.
  unfold container_of, candidate_name in He. apply (inj _) in He. by injection He.
Qed.
Lemma next_candidate sp : next_of k sp ≠ candidate_name (k_run k).
Proof.
  unfold next_of, container_of, candidate_name. rewrite !append_assoc. intros He%(inj _).
  apply (f_equal String.length) in He. rewrite !append_length in He. simpl in He. lia.
Qed.
End Names.

(** ** The parts of an attempt *)

Section Parts.
Context `{Surroundings} (k : Stack) (P : event → Prop).
Hypothesis calls : ∀ A (c : call A) x, harmless c = true → P (Called c x).
Hypothesis told : ∀ st, P (Wrote st) ∧ P (Recorded st).
Let logs {A} (m : M Site A) : Prop := within P (λ _, True) m.

Ltac side := first [ done | by apply calls | by apply told ].
Ltac parts_by known :=
  repeat first [ known | within_step | apply step_within; [done|] | by apply skipStep_within ]; auto with effects; try side.
Ltac part := parts_by ltac:(fail).

(** *** Before the services *)

Lemma setStatus_logs r st : within P (λ _, True) (setStatus r st).
Proof. apply setStatus_any_within; try done; try apply calls; apply told. Qed.
Lemma compose_checkout_logs env repo branch : within P (λ _, True) (compose_checkout k env repo branch).
Proof. unfold compose_checkout, compose_sha. part. Qed.
Lemma compose_source_logs : within P (λ _, True) (compose_source k).
Proof.
  unfold compose_source. destruct (k_service k); [part; apply setStatus_logs|].
  destruct (c_git_url _) as [repo|]; [|part]. part; try apply setStatus_logs.
  unfold cloneForCompose. cbv zeta. apply within_bind; [apply setStatus_logs|intros _].
  eapply within_yields; [by apply installDeployKey_yields|]. intros credential Hc.
  apply within_deferred; [done|apply compose_checkout_logs].
Qed.
Lemma compose_plan_logs : within P (λ _, True) (compose_plan k).
Proof.
  unfold compose_plan, plainEnvVars, syncComponents, reportFindings. part; try by apply read_variables_within.
  all: try by apply renderRuntimeEnv_within.
  unfold ensure_magic, componentFQDN, plainEnvVars. part. by apply read_variables_within.
Qed.
Lemma prepare_stack_logs services : within P (λ _, True) (prepare_stack k services).
Proof. unfold prepare_stack, syncComponents. part. Qed.
Lemma pre_hook_logs sp : within P (λ _, True) (pre_hook k sp).
Proof. unfold pre_hook. part. by apply runHook_within. Qed.
Lemma ensureComposeImage_logs sp sha : within P (λ _, True) (ensureComposeImage k sp sha).
Proof. unfold ensureComposeImage, resolveComposeImage. part. Qed.
Lemma ensure_images_logs services sha : within P (λ _, True) (ensure_images k services sha).
Proof. induction services as [|sp services IH]; simpl; part. apply ensureComposeImage_logs. Qed.

(** *** One service *)

Lemma connectServiceNetworks_logs sp name to_proxy tolerant :
  within P (λ _, True) (connectServiceNetworks k sp name to_proxy tolerant).
Proof. unfold connectServiceNetworks. destruct tolerant; part. Qed.
Lemma ready_volumes_logs sp ref : within P (λ _, True) (ready_volumes k sp ref).
Proof. unfold ready_volumes, seedPreviewVolumes, chownEmptyVolumes. part. Qed.
Lemma verdict_logs polls name : within P (λ _, True) (composeHealthVerdict polls name).
Proof. induction polls as [|polls IH]; simpl; part. Qed.
Lemma await_logs sp name : within P (λ _, True) (composeAwaitHealthy sp name).
Proof. unfold composeAwaitHealthy. part. apply verdict_logs. Qed.
Lemma applyStackRouting_logs : within P (λ _, True) (applyStackRouting k).
Proof.
  unfold applyStackRouting, apply_file, read_stack_routes. part; try (by apply Apply_within); by apply ensureAgent_within.
Qed.
Lemma switchComponentRouting_logs component endpoint :
  within P (λ _, True) (switchComponentRouting k component endpoint).
Proof.
  unfold switchComponentRouting, apply_file, read_stack_routes. part; try apply applyStackRouting_logs; by apply Apply_within.
Qed.
Lemma candidate_address_logs sp : within P (λ _, True) (candidate_address k sp).
Proof. unfold candidate_address. part. Qed.
Lemma unchanged_logs sp ref : within P (λ _, True) (unchanged k sp ref).
Proof. unfold unchanged, containerConfigState. part. Qed.
Lemma observed_logs : within P (λ _, True) (observed k).
Proof. unfold observed. part. Qed.
Lemma checkpoint_logs r : within P (λ _, True) (checkpoint r).
Proof. by apply checkpoint_within. Qed.

(** The containers of one service. *)
Definition may_touch (name : string) : Prop :=
  (∀ i l x, P (Called (Create name i l) x)) ∧ (∀ x, P (Called (Start name) x)) ∧ (∀ x, P (Called (Stop name) x)) ∧
  (∀ v x, P (Called (Remove name v) x)).

Lemma recreate_logs sp ref to_proxy :
  may_touch (container_of k sp) → within P (λ _, True) (recreateComposeService k sp ref to_proxy).
Proof.
  intros (HC & HS & HT & HR). unfold recreateComposeService.
  parts_by ltac:(first [ apply ready_volumes_logs | apply connectServiceNetworks_logs | apply await_logs
                       | by apply removeNamed_within ]).
Qed.
Lemma start_next_logs sp ref : may_touch (next_of k sp) → within P (λ _, True) (start_next k sp ref).
Proof.
  intros (HC & HS & HT & HR). unfold start_next.
  parts_by ltac:(first [ apply ready_volumes_logs | apply connectServiceNetworks_logs | by apply removeNamed_within ]).
Qed.
Lemma discard_logs sp : may_touch (next_of k sp) → within P (λ _, True) (ignore (removeNamed false (next_of k sp))).
Proof. intros (HC & HS & HT & HR). part. by apply removeNamed_within. Qed.
Lemma take_over_logs sp :
  may_touch (container_of k sp) → (∀ x, P (Called (Rename (next_of k sp) (container_of k sp)) x)) →
  within P (λ _, True) (take_over k sp).
Proof. intros (HC & HS & HT & HR) HN. unfold take_over. parts_by ltac:(by apply removeNamed_within). Qed.
Lemma promote_logs sp :
  may_touch (container_of k sp) → (∀ x, P (Called (Rename (next_of k sp) (container_of k sp)) x)) →
  within P (λ _, True) (promoteComposeCandidate k sp).
Proof.
  intros HC HN. unfold promoteComposeCandidate.
  parts_by ltac:(first [ apply candidate_address_logs | apply switchComponentRouting_logs | by apply take_over_logs ]).
Qed.

Definition may_replace (sp : Service) : Prop :=
  may_touch (container_of k sp) ∧ may_touch (next_of k sp) ∧ ∀ x, P (Called (Rename (next_of k sp) (container_of k sp)) x).
Lemma replace_logs sp img : may_replace sp → within P (λ _, True) (replaceComposeService k sp img).
Proof.
  intros (HC & HX & HN). unfold replaceComposeService, zeroDowntimeReplace, switch_service.
  parts_by ltac:(first [ apply unchanged_logs | apply connectServiceNetworks_logs | by apply recreate_logs
    | by apply start_next_logs | apply await_logs | by apply runHook_within | apply checkpoint_logs
    | by apply promote_logs | by apply discard_logs ]).
Qed.
Lemma resume_logs sp : may_replace sp → within P (λ _, True) (resumeComposeService k sp).
Proof.
  intros (HC & HX & HN). unfold resumeComposeService.
  parts_by ltac:(first [ apply await_logs | by apply promote_logs | apply observed_logs | by apply discard_logs ]).
Qed.
Lemma deploy_service_logs x : may_replace (fst x) → within P (λ _, True) (deploy_service k x).
Proof.
  intros Hx. unfold deploy_service.
  parts_by ltac:(first [ apply checkpoint_logs | by apply resume_logs | by apply replace_logs | apply observed_logs ]).
Qed.

(** *** After the services *)

Lemma route_stack_logs services : within P (λ _, True) (route_stack k services).
Proof.
  unfold route_stack, applyComposePreviewRouting, apply_file, previewSSOAuthURL, previewAuthHash.
  parts_by ltac:(first [ apply setStatus_logs | by apply Apply_within | by apply ensureAgent_within
    | apply applyStackRouting_logs | by apply finish_within ]).
Qed.
End Parts.

(** ** What an attempt has seen *)

(** A container was seen healthy; or, when Docker gives no verdict of it, running
    and then running again. *)
Definition inspected_as (name : string) (Q : ContainerState → Prop) (l : list event) : Prop :=
  ∃ ct st, Called (Inspect name) (inr ct) ∈ l ∧ ct_state ct = Some st ∧ Q st.
Definition up_seen (name : string) (l : list event) : Prop :=
  inspected_as name (λ st, cs_health st = Some "healthy") l ∨
  followed (inspected_as name (λ st, cs_health st = None ∧ cs_running st = true))
    (inspected_as name (λ st, cs_running st = true ∨ cs_status st ∈ ["running"; "healthy"])) l.

Lemma inspected_more name Q e l : inspected_as name Q l → inspected_as name Q (e :: l).
Proof. intros (ct & st & Hin & Hs). exists ct, st. split; [by right|done]. Qed.
Lemma up_seen_more name e l : up_seen name l → up_seen name (e :: l).
Proof. intros [?|?]; [left; by apply inspected_more|right]. apply followed_more; [apply inspected_more|done]. Qed.
Lemma inspected_app name Q later l : inspected_as name Q l → inspected_as name Q (l ++ later).
Proof. intros (ct & st & Hin & Hs). exists ct, st. split; [set_solver|done]. Qed.

(** *** Without touching a container *)

(** What was logged after [base] touches no container of a name, and shows [B]. *)
Definition untouched (name : string) (e : event) : Prop := ¬ touches name e.
Definition calm (name : string) (B : list event → Prop) (l : list event) : Prop := B l ∧ Forall (untouched name) l.

Lemma untouched_calls name A (c : call A) x : harmless c = true → untouched name (Called c x).
Proof. apply harmless_touches. Qed.
Lemma calm_grows `{Surroundings} name (B : list event → Prop) base s s' :
  (∀ e l, B l → B (e :: l)) → grows (untouched name) s s' → after base (calm name B) (s_log s) →
  after base (calm name B) (s_log s').
Proof.
  intros HB (l & -> & Hl) (later & -> & Hb & Hf). exists (l ++ later). split; [by rewrite (assoc_L (++))|].
  split; [|by apply Forall_app]. clear Hl. induction l as [|e l IH]; [done|by apply HB].
Qed.

(** A part that sees something and touches nothing shows it, after the log it
    began with. *)
Lemma wp_calm `{Surroundings} {A} name (B : A → list event → Prop) (m : M Site A) s :
  within (untouched name) (λ _, True) m → wp m (if_ok (λ a s', after (s_log s) (B a) (s_log s'))) s →
  wp m (λ x s', grows (untouched name) s s' ∧ if_ok (λ a s', after (s_log s) (calm name (B a)) (s_log s')) x s') s.
Proof.
  intros Hw Hm. eapply wp_mono; [|apply wp_both; [apply Hw|apply Hm]]. intros [e|a] s' [[HG _] Ha]; [done|]. split; [done|].
  destruct HG as (l & Hl & Hf), Ha as (later & Hl' & Hb). simpl. exists later. split; [done|]. split; [done|].
  rewrite Hl in Hl'. by apply app_inv_tail in Hl' as <-.
Qed.

Section Seen.
Context `{Surroundings} (k : Stack).
Let r := k_run k.
Let c := r_config r.

Lemma verdict_seen base polls name s :
  base `suffix_of` s_log s →
  wp (composeHealthVerdict polls name)
    (if_ok (λ v s', v = "healthy" ∨ v = "running" → after base (up_seen name) (s_log s'))) s.
Proof.
  revert s. induction polls as [|polls IH]; intros s Hb; simpl; [apply wp_ret; by intros [?|?]|].
  assert (HA : ∀ s, base `suffix_of` s_log s → wp (_ ← fallible; composeHealthVerdict polls name)
    (if_ok (λ v s', v = "healthy" ∨ v = "running" → after base (up_seen name) (s_log s'))) s).
  { intros s' Hs'. apply wp_bind, wp_query; [done|]. by apply IH. }
  apply wp_bind, wp_attempt, wp_ask. intros [e|ct] o; [by apply HA, suffix_cons_r|].
  destruct (ct_state ct) as [st|] eqn:Hct; [|by apply HA, suffix_cons_r].
  destruct (cs_health st) as [h|] eqn:Hh.
  - case_decide as Hx; [apply wp_ret; intros _|case_decide; [apply wp_ret; by intros [?|?]|by apply HA, suffix_cons_r]].
    subst h. destruct Hb as [l Hl]. eexists (_ :: l). split; [simpl; by rewrite Hl|]. left. exists ct, st. split; [by left|done].
  - destruct (cs_running st) eqn:Hrun; [|by apply HA, suffix_cons_r].
    apply wp_bind, wp_query; [done|]. apply wp_bind, wp_attempt, wp_ask. intros y o'. apply wp_ret. intros Hv.
    destruct Hb as [l Hl]. eexists (_ :: _ :: l). split; [simpl; by rewrite Hl|]. right. eexists (_ :: l). split.
    + exists ct, st. split; [by left|done].
    + eexists [_]. split; [done|]. destruct y as [e|ct']; [by destruct Hv|].
      destruct (ct_state ct') as [st'|] eqn:Hct'; [|by destruct Hv].
      exists ct', st'. split; [by left|]. split; [done|]. destruct (cs_running st'); [by left|right]. set_solver.
Qed.
Lemma await_seen sp name s :
  wp (composeAwaitHealthy sp name) (if_ok (λ _ s', after (s_log s) (up_seen name) (s_log s'))) s.
Proof.
  apply (step_seen (s_log s)); [done|]. intros s0 H0.
  apply wp_bind. eapply wp_mono; [|by apply verdict_seen]. intros [e|v] s1 H1; [done|].
  case_decide; [apply wp_ret; by apply H1|]. apply wp_bind, wp_ignore, wp_ask. intros x o. by apply wp_throw.
Qed.

Lemma candidate_address_seen sp s :
  wp (candidate_address k sp) (if_ok (λ ip s', ∃ ct, ct_ip ct ≠ "" ∧ ip = ct_ip ct ∧
    after (s_log s) (λ l, Called (Inspect (next_of k sp)) (inr ct) ∈ l) (s_log s'))) s.
Proof.
  apply wp_bind, wp_sql. intros [e|u] o t; [done|]. apply wp_bind, wp_attempt, wp_bind, wp_ask. intros y o1.
  destruct y as [e|ct]; [|case_decide as Hip; [apply wp_throw|apply wp_ret]];
    apply wp_bind, wp_ignore, wp_sql; intros x o2 t2; simpl; [by apply wp_throw|by apply wp_throw|apply wp_ret].
  exists ct. split_and!; [done..|]. eexists [_]. split; [done|by left].
Qed.

(** The stack has no traffic to switch: no proxy is managed, or it scales to zero
    and its traffic goes to the waker. *)
Definition stack_unswitched : Prop := c_traefik c = false ∨ c_scale_to_zero c = true.

(** The routing file of a stack with a routed service is not empty. *)
Lemma all_or_error_length {A} (xs : list (err + A)) l : all_or_error xs = inr l → length l = length xs.
Proof.
  revert l. induction xs as [|[e|a] xs IH]; intros l; simpl; [by intros [= <-]|done|].
  destruct (all_or_error xs) as [e|l'] eqn:He; [done|]. intros [= <-]. simpl. f_equal. by apply IH.
Qed.
Lemma routed_group sp overrides : r_preview r = None → routed k sp = true → stack_group k overrides ≠ inr None.
Proof.
  unfold routed, stack_group, stack_routes. fold r. intros -> Hr%bool_decide_eq_true. case_match eqn:Hg; [done|].
  apply all_or_error_length in Hg. case_match; [|done]. exfalso. simpl in Hg. rewrite length_app, length_fmap in Hg.
  destruct Hr as [(x & Hx & _ & Hd)%Exists_exists|(d & Hd & _)%Exists_exists].
  - match type of Hg with context [length (mjoin ?ls)] => assert (HN : mjoin ls = []) by (apply nil_length_inv; lia) end.
    rewrite join_nil, Forall_fmap, Forall_forall in HN. specialize (HN x Hx). simpl in HN. by apply fmap_nil_inv in HN.
  - destruct (k_domains k); [by apply elem_of_nil in Hd|]. simpl in Hg. lia.
Qed.

Lemma switchComponentRouting_seen sp ip s :
  ip ≠ "" → r_preview r = None → routed k sp = true →
  wp (switchComponentRouting k (sp_name sp) ip)
    (if_ok (λ _ s', stack_unswitched ∨ after (s_log s) (served (namingIdentity r) ip) (s_log s'))) s.
Proof.
  intros Hip Hp Hro. unfold switchComponentRouting, stack_unswitched. fold r c.
  destruct (c_traefik c) eqn:Ht; simpl; [|apply wp_ret; by left; left].
  destruct (c_scale_to_zero c) eqn:Hz; [rewrite decide_True by done; apply wp_ret; by left; right|].
  rewrite !(decide_False (P := ip = "")) by done.
  eapply wp_then with (P := λ _, True) (E := λ _, True); [within; done|done|]. intros s1 _ HG1.
  eapply wp_then with (P := λ _, True) (E := λ _, True); [unfold read_stack_routes; within; done|done|]. intros s2 _ HG2.
  destruct (stack_group _ _) as [e|g] eqn:Hg; [by apply wp_throw|].
  assert (Hne : rendered c g ≠ "").
  { rewrite rendered_content. intros ->. by eapply routed_group. }
  eapply wp_mono; [|apply (step_seen (s_log s) (after (s_log s) (shown (namingIdentity r) (rendered c g) ("http://" +:+ ip +:+ ":"))))].
  - intros [e|u] s3; [done|]. intros (later & Hl & Hs). right. exists later. split; [done|]. by eapply shown_served.
  - eapply grows_suffix; [exact HG2|]. by eapply grows_suffix.
  - intros s3 Hs3. by apply Apply_shown.
Qed.
End Seen.

(** ** A service that is switched *)

Lemma may_touch_aside name other : other ≠ name → may_touch (λ e, ¬ touches name e) other.
Proof. intros Hn. by split_and!; intros *; simpl. Qed.

Section Switch.
Context `{Surroundings} (k : Stack) (sp : Service).
Let r := k_run k.
Let name := container_of k sp.
Let next := next_of k sp.

(** The candidate was asked for its address, and then the proxy for that address. *)
Definition switch_seen (l : list event) : Prop :=
  ∃ ct, ct_ip ct ≠ "" ∧ followed (λ l, Called (Inspect next) (inr ct) ∈ l) (served (namingIdentity r) (ct_ip ct)) l.
(** The candidate was seen up, and then the traffic on it. *)
Definition stack_taken_over (l : list event) : Prop :=
  (stack_unswitched k ∧ up_seen next l) ∨ followed (up_seen next) switch_seen l.
(** What allows to touch the container of the service: its candidate took over, and
    was not touched since it was seen up. *)
Definition switch_licensed (l : list event) : Prop := ∃ base, after base (calm next stack_taken_over) l.
Definition switch_safe (s : Site) : Prop := guarded (touches name) switch_licensed (s_log s).
Definition spares (e : event) : Prop := ¬ touches name e.

Lemma spares_calls A (c : call A) x : harmless c = true → spares (Called c x).
Proof. apply harmless_touches. Qed.
Lemma switch_aside s s' : grows spares s s' → switch_safe s → switch_safe s'.
Proof. apply guarded_aside. Qed.
Lemma switch_seen_more e l : switch_seen l → switch_seen (e :: l).
Proof. intros (ct & Hip & Hf). exists ct. split; [done|]. apply followed_more; [apply served_more|done]. Qed.
Lemma stack_taken_over_more e l : stack_taken_over l → stack_taken_over (e :: l).
Proof.
  intros [[Hu Hs]|Hf]; [left; eauto using up_seen_more|right]. by apply followed_more; [apply switch_seen_more|].
Qed.
Lemma switch_licensed_grows s s' :
  grows (untouched next) s s' → switch_licensed (s_log s) → switch_licensed (s_log s').
Proof. intros HG (base & Hl). exists base. eapply calm_grows; [apply stack_taken_over_more|done..]. Qed.
Lemma switch_covered s s' :
  grows (untouched next) s s' → switch_licensed (s_log s) → switch_safe s → switch_safe s'.
Proof. apply guarded_licensed, switch_licensed_grows. Qed.
Lemma next_apart : next ≠ name.
Proof. intros He. symmetry in He. by apply (append_next name). Qed.
Lemma next_spared : may_touch spares next.
Proof. apply may_touch_aside, next_apart. Qed.

(** A part that leaves the container aside, then the rest. *)
Lemma switch_then {A B} (m : M Site A) (f : A → M Site B) (Q : err + B → Site → Prop) s :
  within spares (λ _, True) m → switch_safe s → (∀ s' e, switch_safe s' → Q (inl e) s') →
  (∀ s' a, grows spares s s' → switch_safe s' → wp (f a) Q s') → wp (m ≫= f) Q s.
Proof.
  intros Hm Hs HQ Hf. eapply wp_then; [done|..].
  - intros s' e HG _. apply HQ. by eapply switch_aside.
  - intros s' a HG. apply Hf; [done|]. by eapply switch_aside.
Qed.

(** What leaves both containers of the service aside. *)
Definition apart (e : event) : Prop := spares e ∧ untouched next e.
Lemma apart_calls A (x : call A) y : harmless x = true → apart (Called x y).
Proof. intros Hx. split; by apply harmless_touches. Qed.
Lemma apart_spares s s' : grows apart s s' → grows spares s s'.
Proof. apply grows_mono. by intros e []. Qed.
Lemma apart_next s s' : grows apart s s' → grows (untouched next) s s'.
Proof. apply grows_mono. by intros e []. Qed.

(** Up, then asked for its address, then seen in the proxy. *)
Lemma licensed_promotion ct base up asked later :
  ct_ip ct ≠ "" → calm next (up_seen next) up → calm next (λ l, Called (Inspect next) (inr ct) ∈ l) asked →
  Forall (untouched next) later → stack_unswitched k ∨ served (namingIdentity r) (ct_ip ct) later →
  switch_licensed (later ++ asked ++ up ++ base).
Proof.
  intros Hip [Hup Hc1] [Hin Hc2] Hc3 Hsw. exists base. exists (later ++ asked ++ up).
  split; [by rewrite <- !(assoc_L (++))|]. split; [|by rewrite !Forall_app]. destruct Hsw as [Hu|Hp].
  - left. split; [done|]. rewrite (assoc_L (++)). clear -Hup. induction (later ++ asked) as [|e l IH]; [done|]. by apply up_seen_more.
  - right. exists up. split; [done|]. exists (later ++ asked). split; [by rewrite <- (assoc_L (++))|].
    exists ct. split; [done|]. exists asked. split; [done|]. by exists later.
Qed.

(** The former container goes, the candidate takes its name. *)
Lemma take_over_safe s : switch_safe s → switch_licensed (s_log s) → wp (take_over k sp) (λ _ s', switch_safe s') s.
Proof.
  intros Hs HL. unfold take_over. fold name next.
  assert (HS : ∀ x, untouched next (Called (Stop name) x)) by (intros x Hx; by apply next_apart).
  assert (HR : ∀ x, untouched next (Called (Remove name false) x)) by (intros x Hx; by apply next_apart).
  eapply wp_then; [apply (within_ignore (untouched next) (λ _, True)), within_ask; done|by intros s1 e HG _; eapply switch_covered|].
  intros s1 _ HG1. assert (H1 : switch_safe s1) by (by eapply switch_covered).
  pose proof (switch_licensed_grows _ _ HG1 HL) as HL1.
  eapply wp_then; [apply (within_ignore (untouched next) (λ _, True)), removeNamed_within; done|by intros s2 e HG _; eapply switch_covered|].
  intros s2 _ HG2. assert (H2 : switch_safe s2) by (by eapply switch_covered).
  pose proof (switch_licensed_grows _ _ HG2 HL1) as HL2.
  apply wp_bind, wp_ask. intros y o. match goal with |- context [mkSite ?a ?b ?c ?d] => set (s3 := mkSite a b c d) end.
  assert (H3 : switch_safe s3) by (by split). destruct y as [e|u]; [done|].
  eapply wp_mono; [|apply (within_bind spares (λ _, True)); [apply within_ignore, within_ask|intros _; apply within_ask]];
    try done; try (by intros ?; apply spares_calls). intros x s4 [HG4 _]. by eapply switch_aside.
Qed.

Lemma step_takes_over s : switch_safe s → switch_licensed (s_log s) → wp (step (take_over k sp)) (λ _ s', switch_safe s') s.
Proof.
  intros Hs HL. apply wp_bind, wp_sql. intros [e|u] o t; [done|].
  apply wp_bind, wp_attempt. eapply wp_mono; [|by apply take_over_safe]. intros x s1 H1.
  apply wp_bind, wp_ignore, wp_sql. intros y o1 t1. by destruct x; [apply wp_throw|apply wp_ret].
Qed.

Lemma promote_service_safe base s :
  r_preview r = None → routed k sp = true → switch_safe s → after base (calm next (up_seen next)) (s_log s) →
  wp (promoteComposeCandidate k sp) (λ _ s', switch_safe s') s.
Proof.
  intros Hp Hro Hs (up & Hl0 & Hcalm). unfold promoteComposeCandidate. apply wp_bind.
  eapply wp_mono; [|apply wp_both; [apply (candidate_address_logs k apart), apart_calls|apply candidate_address_seen]].
  intros [e|ip] s1 [[HG1 _] Hip]; (assert (H1 : switch_safe s1) by (by eapply switch_aside; [apply apart_spares|])); [done|].
  destruct Hip as (ct & Hne & -> & asked & Hl1 & Hin). apply wp_bind.
  eapply wp_mono; [|apply wp_both; [apply (switchComponentRouting_logs k apart), apart_calls|by apply switchComponentRouting_seen]].
  intros [e|[]] s2 [[HG2 _] Hsw]; (assert (H2 : switch_safe s2) by (by eapply switch_aside; [apply apart_spares|])); [done|].
  assert (HL : switch_licensed (s_log s2)).
  { apply apart_next in HG1 as (asked' & Hl1' & Hf1), HG2 as (later & Hl2 & Hf2).
    rewrite Hl1 in Hl1'. apply app_inv_tail in Hl1' as <-. rewrite Hl2, Hl1, Hl0.
    apply (licensed_promotion ct); [done..|]. destruct Hsw as [?|(later' & Hl' & Hsv)]; [by left|right].
    rewrite Hl' in Hl2. by apply app_inv_tail in Hl2 as <-. }
  apply wp_bind. eapply wp_mono; [|by apply step_takes_over].
  intros [e|u] s3 H3; [done|]. eapply wp_mono; [|by apply (switchComponentRouting_logs k spares), spares_calls].
  intros x s4 [HG4 _]. by eapply switch_aside.
Qed.

(** Discarding the candidate never matters. *)
Lemma discard_safe {A} (m : M Site A) s :
  switch_safe s → (∀ s', switch_safe s' → wp m (λ _ s2, switch_safe s2) s') →
  wp (_ ← ignore (removeNamed false next); m) (λ _ s', switch_safe s') s.
Proof.
  intros Hs Hm. eapply switch_then; [apply discard_logs, next_spared|done|done|]. intros s' _ _ Hs'. by apply Hm.
Qed.

Lemma switch_service_safe ref s :
  r_preview r = None → routed k sp = true → switch_safe s → wp (switch_service k sp ref) (λ _ s', switch_safe s') s.
Proof.
  intros Hp Hro Hs. unfold switch_service.
  eapply switch_then; [apply start_next_logs, next_spared; apply spares_calls|done|done|]. intros s1 _ _ H1.
  apply wp_bind. eapply wp_mono; [|apply wp_both; [apply (await_logs spares), spares_calls|
    apply (wp_calm next (λ _, up_seen next)); [apply await_logs, untouched_calls|apply await_seen]]].
  intros [e|[]] s2 [[HG2 _] [_ Hup]]; (assert (H2 : switch_safe s2) by (by eapply switch_aside)); [done|].
  eapply (wp_then apart (λ _, True)); [|by intros s3 e HG3 _; eapply switch_aside; [apply apart_spares|]|].
  { case_decide; [apply within_ret|apply runHook_within; [apply apart_calls|done]]. }
  intros s3 _ HG3. eapply (wp_then apart (λ _, True)); [apply checkpoint_logs|intros s4 e HG4 _|intros s4 _ HG4];
    (assert (HG : grows apart s2 s4) by (by etransitivity)); [by eapply switch_aside; [apply apart_spares|]|].
  eapply promote_service_safe; [done..|by eapply switch_aside; [apply apart_spares|]|].
  eapply calm_grows; [apply up_seen_more|by apply apart_next|done].
Qed.

(** The service is always switched: it has a route and a health check of its own,
    and nothing that rules the switch out. *)
Definition always_switched : Prop :=
  r_preview r = None ∧ sp_one_shot sp = false ∧ routed k sp = true ∧ zeroDowntimeEligibility k sp false = true.

Lemma eligible_anyway b : zeroDowntimeEligibility k sp false = true → zeroDowntimeEligibility k sp b = true.
Proof. unfold zeroDowntimeEligibility. destruct (own_health sp), b; simpl; rewrite ?andb_true_r, ?andb_false_r; done. Qed.

Lemma replace_safe img s :
  always_switched → switch_safe s → wp (replaceComposeService k sp img) (λ _ s', switch_safe s') s.
Proof.
  intros (Hp & Ho & Hr & He) Hs. unfold replaceComposeService. fold r. rewrite Hp, Ho, Hr, eligible_anyway by done.
  simpl. eapply switch_then; [apply unchanged_logs, spares_calls|done|done|]. intros s1 [] HG1 H1.
  - eapply switch_then; [apply connectServiceNetworks_logs, spares_calls|done|done|]. intros s2 _ _ H2.
    eapply wp_mono; [|apply (skipStep_within spares (λ _, True)); done]. intros x s3 [HG3 _]. by eapply switch_aside.
  - unfold zeroDowntimeReplace. apply wp_bind, wp_attempt. eapply wp_mono; [|by apply switch_service_safe].
    intros [e|u] s2 H2; [|by apply wp_ret]. apply discard_safe; [done|]. intros s3 H3. by apply wp_throw.
Qed.

Lemma resume_service_safe s :
  r_preview r = None → routed k sp = true → switch_safe s → wp (resumeComposeService k sp) (λ _ s', switch_safe s') s.
Proof.
  intros Hp Hro Hs. unfold resumeComposeService. eapply switch_then; [apply within_attempt, within_ask; try done;
    intros ?; by apply spares_calls|done|done|]. intros s1 [e|ct] _ H1; [case_match; [by apply wp_ret|by apply wp_throw]|].
  eapply switch_then; [apply (skipStep_within spares (λ _, True)); done|done|done|]. intros s2 _ _ H2.
  case_match; [apply discard_safe; [done|]; intros s3 H3; by apply wp_ret|].
  apply wp_bind, wp_attempt. eapply wp_mono; [|apply wp_both; [apply (await_logs spares), spares_calls|
    apply (wp_calm next (λ _, up_seen next)); [apply await_logs, untouched_calls|apply await_seen]]].
  intros [e|[]] s3 [[HG3 _] [_ Hup]]; (assert (H3 : switch_safe s3) by (by eapply switch_aside));
    [apply discard_safe; [done|]; intros s4 H4; by apply wp_ret|].
  apply wp_bind. eapply wp_mono; [|by eapply promote_service_safe]. intros [e|u] s4 H4; [done|].
  eapply switch_then; [apply observed_logs|done|done|]. intros s5 _ _ H5. by apply wp_ret.
Qed.

Lemma deploy_safe img s : always_switched → switch_safe s → wp (deploy_service k (sp, img)) (λ _ s', switch_safe s') s.
Proof.
  intros Ha Hs. unfold deploy_service. simpl.
  eapply switch_then; [apply checkpoint_logs|done|done|]. intros s1 _ _ H1. apply wp_bind.
  eapply (wp_mono _ (λ _ s', switch_safe s')); [|case_match; [by apply resume_service_safe; [apply Ha|apply Ha|]|by apply wp_ret]].
  intros [e|[]] s2 H2; [done|by apply wp_ret|].
  apply wp_bind, wp_attempt. eapply wp_mono; [|by apply replace_safe]. intros x s3 H3.
  eapply switch_then; [apply observed_logs|done|done|]. intros s4 _ _ H4. case_match; [by apply wp_throw|by apply wp_ret].
Qed.
End Switch.

(** ** The frame of an attempt *)

Section Frame.
Context `{Surroundings} (k : Stack) (services : list Service) (loaded : Loaded).
Let r := k_run k.
Let c := r_config r.
Hypothesis second : k_second k = Some loaded.
Hypothesis planned : ld_plan loaded = Some services.
Hypothesis settled : ∀ p, r_preview r = None → c_adoption c = Some p → pt_project p = "".

(** The image of a service was found on the server. *)
Definition resolved (sp : Service) (l : list event) : Prop :=
  ∃ ref info, Called (ImageInspect Target ref) (inr info) ∈ l ∧
    if sp_build sp then ∃ tag, ref = build_image_of k sp +:+ ":" +:+ tag else ref = sp_image sp.
Lemma resolved_grows sp P s s' : grows P s s' → resolved sp (s_log s) → resolved sp (s_log s').
Proof. intros HG (ref & info & Hin & Hr). exists ref, info. split; [by eapply grows_elem|done]. Qed.

(** What the attempt does outside its loop over the services. *)
Definition idle (e : event) : Prop := ∀ n, touches n e → n = candidate_name r.
Lemma idle_calls A (x : call A) y : harmless x = true → idle (Called x y).
Proof. intros Hh n Ht. by apply harmless_touches in Ht. Qed.
Lemma idle_told st : idle (Wrote st) ∧ idle (Recorded st).
Proof. split; by intros n ?. Qed.

Lemma ensureComposeImage_seen sp sha s :
  wp (ensureComposeImage k sp sha) (if_ok (λ _ s', resolved sp (s_log s'))) s.
Proof.
  unfold ensureComposeImage, service_ref. destruct (sp_build sp) eqn:Hb; [destruct (first12 sha) as [tag|]; [|by apply wp_throw]|]; simpl.
  all: eapply wp_then with (P := λ _, True) (E := λ _, True); [within; done|done|]; intros s1 here _.
  all: eapply wp_then with (P := λ _, True) (E := λ _, True);
    [destruct here; [by apply skipStep_within|]; apply step_within; [done|]; within; done|done|]; intros s2 _ _.
  all: apply (step_seen [] (resolved sp)); [apply suffix_nil|]; intros s3 _; apply wp_bind, wp_ask; intros [e|info] o; [done|].
  all: apply wp_ret; do 2 eexists; (split; [by left|]); rewrite Hb; first [done | by eexists].
Qed.
Lemma ensure_images_seen todo sha s :
  wp (ensure_images k todo sha)
    (if_ok (λ images s', fst <$> images = todo ∧ ∀ sp, sp ∈ todo → resolved sp (s_log s'))) s.
Proof.
  revert s. induction todo as [|sp todo IH]; intros s; simpl; [apply wp_ret; split; [done|set_solver]|].
  apply wp_bind. eapply wp_mono; [|apply ensureComposeImage_seen]. intros [e|img] s1 H1; [done|].
  apply wp_bind. eapply wp_mono; [|apply wp_both; [by apply (ensure_images_logs k (λ _, True))|apply IH]].
  intros [e|images] s2 [[HG _] H2]; [done|]. destruct H2 as [Hf Hr]. apply wp_ret. split; [by rewrite fmap_cons, Hf|].
  intros sp' [->|Hin]%elem_of_cons; [by eapply resolved_grows|by apply Hr].
Qed.

Lemma compose_plan_yields s :
  wp (compose_plan k) (λ x s', grows idle s s' ∧ if_ok (λ plan _, plan = services) x s') s.
Proof.
  eapply wp_mono; [|apply wp_both; [apply compose_plan_logs|]].
  { intros x s' [[HG _] Hx]. split; [done|exact Hx]. }
  unfold compose_plan. eapply wp_then with (P := λ _, True) (E := λ _, True); [by apply read_variables_within|done|].
  intros s1 _ _. destruct (k_first k) as [first|]; [|by apply wp_throw].
  eapply wp_then with (P := λ _, True) (E := λ _, True); [|done|].
  { destruct (ld_plan first); [|apply within_ret]. unfold syncComponents. within; try done.
    unfold ensure_magic, componentFQDN. within; try done. all: by apply read_variables_within. }
  intros s2 _ _. eapply wp_then with (P := λ _, True) (E := λ _, True); [by apply renderRuntimeEnv_within|done|].
  intros s3 _ _. rewrite second. eapply wp_then with (P := λ _, True) (E := λ _, True); [|done|].
  { unfold reportFindings. case_decide; [by apply skipStep_within|]. apply step_within; [done|]. within; done. }
  intros s4 _ _. rewrite planned. case_match; [by apply wp_throw|by apply wp_ret].
Qed.

(** What holds while nothing but the loop touches a container, and is kept by the
    loop, is kept by the attempt. *)
Context (I : Site → Prop).
Hypothesis closed : ∀ s s', grows idle s s' → I s → I s'.
Hypothesis looped : ∀ images s, fst <$> images = services → (∀ sp, sp ∈ services → resolved sp (s_log s)) → I s →
  wp (each images (deploy_service k)) (λ _ s', I s') s.

Lemma frame_then {A B} (m : M Site A) (f : A → M Site B) s :
  within idle (λ _, True) m → I s → (∀ s' a, grows idle s s' → I s' → wp (f a) (λ _ s2, I s2) s') →
  wp (m ≫= f) (λ _ s2, I s2) s.
Proof.
  intros Hm Hs Hf. eapply wp_then; [done|..].
  - intros s' e HG _. by eapply closed.
  - intros s' a HG. apply Hf; [done|by eapply closed].
Qed.

Lemma retire_logs : within idle (λ _, True) (retire k).
Proof.
  unfold retire. destruct (r_preview _) as [p|] eqn:Hp; [apply within_ret|].
  destruct (c_adoption _) as [p|] eqn:Ha; [|apply within_ret]. rewrite decide_True; [apply within_ret|].
  by apply (settled p).
Qed.

Lemma executeCompose_frame s : I s → wp (executeCompose k) (λ _ s', I s') s.
Proof.
  intros Hs. unfold executeCompose. destruct (c_rollback _); [by apply wp_throw|]. destruct (_ && _); [by apply wp_throw|].
  eapply frame_then; [apply step_within; [done|]; within; try done; by apply idle_calls|done|]. intros s1 _ _ H1.
  eapply frame_then; [apply compose_source_logs; [apply idle_calls|apply idle_told]|done|]. intros s2 sha _ H2.
  apply wp_bind. eapply wp_mono; [|apply compose_plan_yields].
  intros [e|plan] s3 [HG3 Hp]; [by eapply closed|]. simpl in Hp. subst plan.
  assert (H3 : I s3) by (by eapply closed).
  eapply frame_then; [apply prepare_stack_logs, idle_calls|done|]. intros s4 _ _ H4.
  eapply frame_then; [apply within_each; intros sp; apply pre_hook_logs, idle_calls|done|]. intros s5 _ _ H5.
  apply wp_bind. eapply wp_mono; [|apply wp_both; [apply (ensure_images_logs k idle), idle_calls|apply ensure_images_seen]].
  intros [e|images] s6 [[HG6 _] Hi]; (assert (H6 : I s6) by (by eapply closed)); [done|]. destruct Hi as [Hf Hr].
  destruct (negb _); [by apply wp_throw|]. apply wp_bind. eapply (wp_mono _ (λ _ s', I s')).
  { intros [e|u] s7 H7; [done|]. eapply wp_mono; [|apply route_stack_logs; [apply idle_calls|apply idle_told]].
    intros x s8 [HG8 _]. by eapply closed. }
  eapply frame_then; [apply retire_logs|done|]. intros s7 _ HG7 H7.
  eapply frame_then; [apply setStatus_logs, idle_told|done|]. intros s8 _ HG8 H8.
  apply looped; [done| |done]. intros sp Hsp. eapply resolved_grows; [exact HG8|]. eapply resolved_grows; [exact HG7|auto].
Qed.

Lemma attempt_frame s : I s → wp (attempt_stack k) (λ _ s', I s') s.
Proof.
  intros Hs. unfold attempt_stack, concluded. apply wp_bind, wp_attempt. eapply (wp_mono _ (λ _ s', I s')).
  - assert (HR : ∀ x, idle (Called (Remove (candidate_name r) false) x)) by (by intros x n ->).
    intros [e|u] s1 H1; [|by apply wp_ret]. repeat case_match; try (by apply wp_ret); try (by apply wp_throw).
    + eapply frame_then; [|done|intros s2 _ _ Hs2; by apply wp_ret]. unfold markCancelled.
      within; try done; [by apply remove_candidate_within|apply setStatus_logs, idle_told].
    + eapply frame_then; [|done|intros s2 _ _ Hs2; by apply wp_ret]. unfold markFailed.
      within; try done; [by apply remove_candidate_within|apply setStatus_logs, idle_told].
  - unfold execute_stack. destruct (fork_unapproved _); [by apply wp_throw|].
    eapply frame_then; [apply enter_within; try done; apply idle_told|done|]. intros s1 _ _ H1.
    eapply frame_then; [apply connect_within; try done; apply idle_calls|done|]. intros s2 _ _ H2.
    by apply executeCompose_frame.
Qed.
End Frame.

(** ** The theorems *)

Lemma named_inj services sp sp' :
  well_named services → sp ∈ services → sp' ∈ services → sp_name sp = sp_name sp' → sp = sp'.
Proof.
  intros [Hn _] [i Hi]%list_elem_of_lookup [j Hj]%list_elem_of_lookup He.
  assert (i = j) as ->; [|by simplify_eq]. eapply NoDup_lookup; [exact Hn|..];
    rewrite list_lookup_fmap; [by rewrite Hi|by rewrite Hj, He].
Qed.
(** A service touches the containers of its own only. *)
Lemma may_replace_spares k services sp sp' :
  well_named services → sp ∈ services → sp' ∈ services → sp_name sp' ≠ sp_name sp →
  may_replace k (spares k sp) sp'.
Proof.
  intros Hw Hsp Hsp' Hn. assert (container_of k sp' ≠ container_of k sp) by (by intros ?%container_inj).
  assert (next_of k sp' ≠ container_of k sp) by (intros He; symmetry in He; revert He; by eapply container_next).
  split_and!; try (by apply may_touch_aside). intros x [?|?]; congruence.
Qed.

(** C15: whatever Docker, the proxy, the database and the other workers answer and
    do, and wherever the process dies, a deployment of a stack of production stops,
    removes, replaces or renames the container of a service that has a route and an
    enabled health check of its own, and does not rule the switch out, only after
    it saw, in this order: the candidate of that service up (healthy; or, when
    Docker gives no verdict of it, running twice), the address of the candidate, and
    the proxy serve the routes of the stack with that address; and the candidate was
    not touched since it was seen up.  It is so also when it finishes the switch a
    dead attempt left.  The sighting of the proxy is left out where no traffic is
    switched: no proxy is managed, or the stack scales to zero.  (Names are distinct
    and no service bears the name of a candidate; the stack is not adopted from
    another platform.) *)
Theorem stack_switch_safe `{Surroundings} k services loaded sp s :
  k_second k = Some loaded → ld_plan loaded = Some services → well_named services → sp ∈ services →
  always_switched k sp → (∀ p, c_adoption (r_config (k_run k)) = Some p → pt_project p = "") → s_log s = [] →
  wp (attempt_stack k) (λ _ s', guarded (touches (container_of k sp)) (switch_licensed k sp) (s_log s')) s.
Proof.
  intros Hsec Hplan Hw Hsp Ha Had Hs.
  apply (attempt_frame k services loaded Hsec Hplan (λ p _, Had p) (switch_safe k sp)); [..|unfold switch_safe; by rewrite Hs].
  - intros s1 s2 HG. apply switch_aside. eapply grows_mono; [|exact HG]. intros e He Ht%He.
    by eapply (container_candidate k services sp).
  - intros images s1 Hi _. apply wp_each. intros [sp' img] s2 Hin Hs2.
    assert (Hsp' : sp' ∈ services) by (rewrite <- Hi; by apply (list_elem_of_fmap_2 fst _ (sp', img))).
    destruct (decide (sp_name sp' = sp_name sp)) as [He|Hne].
    + apply (named_inj services) in He as ->; [|done..]. by apply deploy_safe.
    + eapply wp_mono; [|apply (deploy_service_logs k (spares k sp) (spares_calls k sp)); by eapply may_replace_spares].
      intros x s3 [HG _]. by eapply switch_aside.
Qed.

(** ** The order of the services *)

Section Order.
Context `{Surroundings} (k : Stack) (services : list Service).

Definition touches_service (sp : Service) (e : event) : Prop :=
  touches (container_of k sp) e ∨ touches (next_of k sp) e.

(** A service is done with.  Its container was started and not touched since, and
    since then its job ended well, or it was seen up, or its health is not waited
    for; or its candidate was seen up, and not touched since but to take the name of
    the container, and neither was touched after that; or its container was seen
    running with the hash of the plan, and not touched since. *)
Definition started (sp : Service) (l : list event) : Prop :=
  ∃ earlier, after (Called (Start (container_of k sp)) (inr ()) :: earlier) (calm (container_of k sp) (λ later,
    (sp_one_shot sp = true ∧ Called (Wait (container_of k sp)) (inr 0) ∈ later) ∨
    (sp_one_shot sp = false ∧ (sp_exclude_hc sp = true ∨ up_seen (container_of k sp) later)))) l.
Definition renamed (sp : Service) (l : list event) : Prop :=
  ∃ base before later, l = later ++ Called (Rename (next_of k sp) (container_of k sp)) (inr ()) :: before ∧
    after base (calm (next_of k sp) (up_seen (next_of k sp))) before ∧ Forall (λ e, ¬ touches_service sp e) later.
Definition as_planned (sp : Service) (l : list event) : Prop :=
  ∃ ref ct st, Called (Inspect (container_of k sp)) (inr ct) ∈ l ∧ ct_state ct = Some st ∧ cs_status st = "running" ∧
    (ct_labels ct !! "akerdock.config_hash_v2" = Some (sp_hash_v2 sp ref) ∨
     (default "" (ct_labels ct !! "akerdock.config_hash_v2") = "" ∧
      default "" (ct_labels ct !! "akerdock.config_hash") = sp_hash_v1 sp ref)).
Definition kept (sp : Service) (l : list event) : Prop :=
  ∃ base, after base (calm (container_of k sp) (as_planned sp)) l.
Definition completed (sp : Service) (l : list event) : Prop := started sp l ∨ renamed sp l ∨ kept sp l.

(** What allows to touch a service: the images of all, the services before it. *)
Definition turn (before : list Service) (l : list event) : Prop :=
  (∀ sp, sp ∈ services → resolved k sp l) ∧ ∀ sp, sp ∈ before → completed sp l.
Definition ordered (s : Site) : Prop :=
  ∀ before sp after, services = before ++ sp :: after → guarded (touches_service sp) (turn before) (s_log s).

Lemma as_planned_more sp e l : as_planned sp l → as_planned sp (e :: l).
Proof. intros (ref & ct & st & Hin & Hs). exists ref, ct, st. split; [by right|done]. Qed.
Lemma spared_container sp s s' :
  grows (λ e, ¬ touches_service sp e) s s' → grows (untouched (container_of k sp)) s s'.
Proof. apply grows_mono. intros e He Ht. apply He. by left. Qed.
Lemma completed_grows sp s s' :
  grows (λ e, ¬ touches_service sp e) s s' → completed sp (s_log s) → completed sp (s_log s').
Proof.
  intros HG. pose proof (spared_container _ _ _ HG) as HC. intros [(earlier & Hl)|[(base & before & later & Hl & Hb & Hf)|(base & Hl)]].
  - left. exists earlier. eapply calm_grows; [|done..]. intros e l [[? ?]|[? [?|?]]]; [left|right..].
    + split; [done|by right].
    + by auto.
    + split; [done|right]. by apply up_seen_more.
  - right. left. destruct HG as (l & -> & Hg). exists base, before, (l ++ later). split; [by rewrite Hl, (assoc_L (++))|].
    split; [done|by apply Forall_app].
  - right. right. exists base. eapply calm_grows; [apply as_planned_more|done..].
Qed.

(** *** A service that is replaced is completed *)

Local Ltac skip := eapply wp_then with (P := λ _, True) (E := λ _, True); [|done|].

Lemma start_step_seen sp ref to_proxy s :
  wp (step (_ ← ready_volumes k sp ref; _ ← ignore (ask (Stop (container_of k sp)));
            _ ← removeNamed false (container_of k sp);
            _ ← ask (Create (container_of k sp) ref (service_labels k sp ref));
            _ ← connectServiceNetworks k sp (container_of k sp) to_proxy false;
            ask (Start (container_of k sp))))
    (if_ok (λ _ s', ∃ earlier, s_log s' = Called (Start (container_of k sp)) (inr ()) :: earlier)) s.
Proof.
  apply (step_seen [] (λ l, ∃ earlier, l = Called (Start (container_of k sp)) (inr ()) :: earlier)); [apply suffix_nil|]. intros s0 _.
  skip; [by apply ready_volumes_logs|]. intros s1 _ _. skip; [within; done|]. intros s2 _ _.
  skip; [by apply removeNamed_within|]. intros s3 _ _. skip; [within; done|]. intros s4 _ _.
  skip; [by apply connectServiceNetworks_logs|]. intros s5 _ _. apply wp_ask. intros [e|[]] o; [done|by eexists].
Qed.

Lemma wait_seen name s :
  wp (step (code ← ask (Wait name); if decide (code = 0) then mret () else throw (Failure "one-shot service exited non-zero")))
    (if_ok (λ _ s', after (s_log s) (λ l, Called (Wait name) (inr 0) ∈ l) (s_log s'))) s.
Proof.
  apply (step_seen (s_log s)); [done|]. intros s1 [l Hl]. apply wp_bind, wp_ask. intros [e|code] o; [done|].
  case_decide as Hc; [|by apply wp_throw]. apply wp_ret. subst code. eexists (_ :: l). split; [simpl; by rewrite Hl|by left].
Qed.

Lemma recreate_completes sp ref to_proxy s :
  wp (recreateComposeService k sp ref to_proxy) (if_ok (λ _ s', completed sp (s_log s'))) s.
Proof.
  unfold recreateComposeService. cbv zeta. apply wp_bind. eapply wp_mono; [|apply start_step_seen].
  intros [e|u] s1 H1; [done|]. destruct H1 as [earlier H1].
  set (B := λ later, (sp_one_shot sp = true ∧ Called (Wait (container_of k sp)) (inr 0) ∈ later) ∨
    (sp_one_shot sp = false ∧ (sp_exclude_hc sp = true ∨ up_seen (container_of k sp) later))).
  eapply wp_mono with (P := λ x s', grows (untouched (container_of k sp)) s1 s' ∧
    if_ok (λ _ s', after (s_log s1) (calm (container_of k sp) B) (s_log s')) x s').
  { intros [e|v] s2 [_ H2]; [done|]. left. exists earlier. by rewrite <- H1. }
  apply (wp_calm _ (λ _, B)).
  - repeat case_match; [apply step_within; [done|]; within; try done; by apply untouched_calls|by apply skipStep_within|].
    apply await_logs, untouched_calls.
  - destruct (sp_one_shot sp) eqn:Ho; [|destruct (sp_exclude_hc sp) eqn:Hx]; subst B.
    + eapply wp_mono; [|apply wait_seen]. intros [e|v] s2; [done|]. intros (later & Hl & Hw). exists later. auto.
    + eapply wp_mono; [|by apply (skipStep_within (λ _, True) (λ _, True))]. intros [e|v] s2 [(l & Hl & _) _]; [done|].
      exists l. auto.
    + eapply wp_mono; [|apply await_seen]. intros [e|v] s2; [done|]. intros (later & Hl & Hw). exists later. auto.
Qed.

(** A candidate that was seen up and is promoted. *)
Lemma take_over_renames base sp s :
  after base (calm (next_of k sp) (up_seen (next_of k sp))) (s_log s) →
  wp (step (take_over k sp)) (if_ok (λ _ s', renamed sp (s_log s'))) s.
Proof.
  intros Hup. assert (Hne : container_of k sp ≠ next_of k sp) by apply append_next.
  apply wp_bind, wp_sql. intros [e|u] o t; [done|]. apply wp_bind, wp_attempt.
  eapply wp_mono with (P := if_ok (λ _ s', renamed sp (s_log s'))).
  { intros [e|v] s1 H1; apply wp_bind, wp_ignore, wp_sql; intros x o1 t1; [by apply wp_throw|by apply wp_ret]. }
  unfold take_over. set (s0 := mkSite o t _ _).
  eapply (wp_then (untouched (next_of k sp)) (λ _, True)); [by apply within_ignore, within_ask|done|]. intros s1 _ HG1.
  eapply (wp_then (untouched (next_of k sp)) (λ _, True)); [by apply within_ignore, removeNamed_within|done|]. intros s2 _ HG2.
  assert (H2 : after base (calm (next_of k sp) (up_seen (next_of k sp))) (s_log s2)).
  { eapply calm_grows; [apply up_seen_more|exact HG2|]. eapply calm_grows; [apply up_seen_more|exact HG1|done]. }
  apply wp_bind, wp_ask. intros [e|[]] o3; [done|].
  eapply wp_mono; [|apply (within_bind (λ e, ¬ touches_service sp e) (λ _, True)); [apply within_ignore, within_ask|intros _; apply within_ask]];
    try done; try (by intros ? [?|?]).
  intros [e|v] s4 [(later & Hl & Hf) _]; [done|]. by exists base, (s_log s2), later.
Qed.

Lemma spared_calls sp A (c : call A) x : harmless c = true → ¬ touches_service sp (Called c x).
Proof. intros Hh [Ht|Ht]; by apply harmless_touches in Ht. Qed.
Lemma renamed_grows sp s s' :
  grows (λ e, ¬ touches_service sp e) s s' → renamed sp (s_log s) → completed sp (s_log s').
Proof. intros HG Hr. eapply completed_grows; [done|]. by right; left. Qed.

Lemma promote_completes base sp s :
  after base (calm (next_of k sp) (up_seen (next_of k sp))) (s_log s) →
  wp (promoteComposeCandidate k sp) (if_ok (λ _ s', completed sp (s_log s'))) s.
Proof.
  intros Hup. unfold promoteComposeCandidate.
  eapply wp_then; [apply (candidate_address_logs k (untouched (next_of k sp))), untouched_calls|done|]. intros s1 ip HG1.
  eapply wp_then; [apply (switchComponentRouting_logs k (untouched (next_of k sp))), untouched_calls|done|]. intros s2 _ HG2.
  apply wp_bind. eapply wp_mono; [|eapply take_over_renames; eapply calm_grows; [apply up_seen_more|exact HG2|];
    eapply calm_grows; [apply up_seen_more|exact HG1|done]].
  intros [e|u] s3 H3; [done|].
  eapply wp_mono; [|apply (switchComponentRouting_logs k (λ e, ¬ touches_service sp e)), spared_calls].
  intros [e|v] s4 [HG4 _]; [done|]. by eapply renamed_grows.
Qed.
Lemma switch_completes sp ref s : wp (switch_service k sp ref) (if_ok (λ _ s', completed sp (s_log s'))) s.
Proof.
  unfold switch_service. skip; [by apply start_next_logs|]. intros s1 _ _.
  apply wp_bind. eapply wp_mono; [|apply (wp_calm (next_of k sp) (λ _, up_seen (next_of k sp)));
    [apply await_logs, untouched_calls|apply await_seen]].
  intros [e|[]] s2 [_ H2]; [done|].
  eapply (wp_then (untouched (next_of k sp)) (λ _, True));
    [case_decide; [apply within_ret|apply runHook_within; [apply untouched_calls|done]]|done|]. intros s3 _ HG3.
  eapply (wp_then (untouched (next_of k sp)) (λ _, True)); [by apply checkpoint_within|done|]. intros s4 _ HG4.
  eapply promote_completes, calm_grows; [apply up_seen_more|exact HG4|]. eapply calm_grows; [apply up_seen_more|exact HG3|done].
Qed.
Lemma unchanged_seen sp ref s :
  wp (unchanged k sp ref) (if_ok (λ b s', b = true → kept sp (s_log s'))) s.
Proof.
  unfold unchanged, containerConfigState. case_match; [by apply wp_ret|].
  apply wp_bind, wp_bind, wp_attempt, wp_ask. intros [e|ct] o; apply wp_ret, wp_ret; [done|].
  unfold composeSkipDecision. simpl. intros [Hr Hh]%andb_true_iff.
  destruct (ct_state ct) as [st|] eqn:Hct; [|done]. apply bool_decide_eq_true in Hr.
  exists (s_log s). eexists [_]. split; [done|]. split; [|constructor; [by apply untouched_calls|constructor]].
  exists ref, ct, st. split_and!; [by left|done..|]. case_decide as Hv; apply bool_decide_eq_true in Hh; [by right|left].
  by destruct (ct_labels ct !! "akerdock.config_hash_v2") as [h|]; simpl in *; [subst|].
Qed.
Lemma replace_completes sp img s : wp (replaceComposeService k sp img) (if_ok (λ _ s', completed sp (s_log s'))) s.
Proof.
  unfold replaceComposeService. cbv zeta. apply wp_bind. eapply wp_mono; [|apply unchanged_seen].
  intros [e|[]] s1 H1; [done|..].
  - eapply wp_mono; [|apply (within_bind (λ e, ¬ touches_service sp e) (λ _, True));
      [apply connectServiceNetworks_logs, spared_calls|intros _; by apply skipStep_within]].
    intros [e|u] s2 [HG _]; [done|]. eapply completed_grows; [done|]. do 2 right. by apply H1.
  - destruct (_ || _); [apply recreate_completes|]. destruct (_ && _).
    + unfold zeroDowntimeReplace. apply wp_bind, wp_attempt. eapply wp_mono; [|apply switch_completes].
      intros [e|u] s2 H2; [|by apply wp_ret]. apply wp_bind, wp_ignore. intros fs. by destruct (removeNamed _ _ fs s2) as [x [fs' s3]].
    + skip; [by apply skipStep_within|]. intros s2 _ _. apply recreate_completes.
Qed.
Lemma resume_completes sp s :
  wp (resumeComposeService k sp) (if_ok (λ b s', b = true → completed sp (s_log s'))) s.
Proof.
  unfold resumeComposeService. cbv zeta. apply wp_bind, wp_attempt, wp_ask. intros [e|ct] o;
    [case_match; [by apply wp_ret|by apply wp_throw]|].
  assert (HD : ∀ s0, wp (_ ← ignore (removeNamed false (next_of k sp)); mret false)
    (if_ok (λ b s', b = true → completed sp (s_log s'))) s0).
  { intros s0. skip; [within; by apply removeNamed_within|]. intros s1 _ _. by apply wp_ret. }
  skip; [by apply skipStep_within|]. intros s1 _ _. destruct (negb _); [apply HD|].
  apply wp_bind, wp_attempt. eapply wp_mono; [|apply (wp_calm (next_of k sp) (λ _, up_seen (next_of k sp)));
    [apply await_logs, untouched_calls|apply await_seen]].
  intros [e|[]] s2 [_ H2]; [apply HD|].
  apply wp_bind. eapply wp_mono; [|by eapply promote_completes]. intros [e|u] s3 H3; [done|].
  eapply wp_mono; [|apply (within_bind (λ e, ¬ touches_service sp e) (λ _, True));
    [apply observed_logs|intros _; apply within_ret]].
  intros [e|b] s4 [HG _]; [done|]. intros _. by eapply completed_grows.
Qed.
Lemma deploy_completes x s : wp (deploy_service k x) (if_ok (λ _ s', completed (fst x) (s_log s'))) s.
Proof.
  unfold deploy_service. skip; [by apply checkpoint_within|]. intros s1 _ _. apply wp_bind.
  eapply (wp_mono _ (if_ok (λ b s', b = true → completed (fst x) (s_log s'))));
    [|case_match; [apply resume_completes|by apply wp_ret]].
  intros [e|[]] s2 H2; [done|apply wp_ret; by apply H2|].
  apply wp_bind, wp_attempt. eapply wp_mono; [|apply replace_completes]. intros y s3 H3.
  apply wp_bind. eapply wp_mono; [|apply (observed_logs k (λ e, ¬ touches_service (fst x) e))]. intros [e|u] s4 [HG _]; [done|].
  destruct y as [e|v]; [by apply wp_throw|]. apply wp_ret. by eapply completed_grows.
Qed.

(** *** The loop *)

Hypothesis named : well_named services.

Definition mine (sp : Service) (e : event) : Prop :=
  ∀ n, touches n e → n = container_of k sp ∨ n = next_of k sp.
Lemma mine_replace sp : may_replace k (mine sp) sp.
Proof. unfold may_replace, may_touch, mine. split_and!; intros; simpl in *; naive_solver. Qed.
Lemma mine_spares sp sp' e :
  sp ∈ services → sp' ∈ services → sp_name sp ≠ sp_name sp' → mine sp e → ¬ touches_service sp' e.
Proof.
  intros Hsp Hsp' Hn Hm. pose proof (container_next k services) as HN.
  intros [[Hc|Hc]%Hm|[Hc|Hc]%Hm].
  - apply Hn. symmetry. by apply container_inj in Hc.
  - by apply (HN sp' sp) in Hc.
  - symmetry in Hc. by apply (HN sp sp') in Hc.
  - apply Hn. symmetry. by apply next_inj in Hc.
Qed.

Lemma before_unique before before' (sp sp' : Service) after after' :
  services = before ++ sp :: after → services = before' ++ sp' :: after' → sp_name sp = sp_name sp' → before = before'.
Proof.
  intros Hs Hs' He. destruct named as [Hn _].
  assert (length before = length before') as Hl.
  { apply (NoDup_lookup _ _ _ (sp_name sp) Hn); rewrite list_lookup_fmap.
    - rewrite Hs, lookup_app_r, Nat.sub_diag by done. done.
    - rewrite Hs', lookup_app_r, Nat.sub_diag by done. simpl. by rewrite He. }
  rewrite Hs in Hs'. by apply app_inj_1 in Hs' as [-> _].
Qed.

Lemma gone_distinct before (sp : Service) after sp' :
  services = before ++ sp :: after → sp' ∈ before → sp_name sp ≠ sp_name sp'.
Proof.
  intros Hs Hin He. destruct named as [Hn _]. rewrite Hs, fmap_app, fmap_cons in Hn. apply NoDup_app in Hn as (_ & Hd & _).
  apply (Hd (sp_name sp')); [by apply list_elem_of_fmap_2|rewrite He; by left].
Qed.

Lemma loop_ordered (todo gone : list (Service * ComposeImage)) s :
  services = (fst <$> gone) ++ (fst <$> todo) → (∀ sp, sp ∈ services → resolved k sp (s_log s)) →
  (∀ x, x ∈ gone → completed (fst x) (s_log s)) → ordered s →
  wp (each todo (deploy_service k)) (λ _ s', ordered s') s.
Proof.
  revert gone s. induction todo as [|x todo IH]; intros gone s Hs Hr Hc Ho; simpl; [by apply wp_ret|].
  rewrite fmap_cons in Hs. apply wp_bind. eapply wp_mono; [|apply wp_both; [|apply deploy_completes]].
  2: { apply (deploy_service_logs k (mine (fst x))); [intros A y z Hh n Ht; by apply harmless_touches in Ht|apply mine_replace]. }
  intros y s1 [[HG _] Hx].
  assert (Hin : fst x ∈ services) by (rewrite Hs; set_solver).
  assert (HA : ∀ sp s s', sp ∈ services → sp_name (fst x) ≠ sp_name sp → grows (mine (fst x)) s s' →
    grows (λ e, ¬ touches_service sp e) s s').
  { intros sp s2 s3 Hsp Hn. apply grows_mono. intros e. by apply mine_spares. }
  assert (HD : ∀ z, z ∈ gone → fst z ∈ services ∧ sp_name (fst x) ≠ sp_name (fst z)).
  { intros z Hz. split; [rewrite Hs; set_solver|]. apply (gone_distinct (fst <$> gone) (fst x) (fst <$> todo)); [done|set_solver]. }
  assert (HT : ∀ s s', grows (mine (fst x)) s s' → turn (fst <$> gone) (s_log s) → turn (fst <$> gone) (s_log s')).
  { intros s2 s3 HG2 [Hr2 Hc2]. split; [intros sp Hsp; eapply resolved_grows; eauto|].
    intros sp Hsp. apply list_elem_of_fmap in Hsp as (z & -> & Hz). destruct (HD z Hz).
    eapply completed_grows; [by eapply HA|]. apply Hc2. set_solver. }
  assert (H1 : ordered s1).
  { intros before sp after Hsp. destruct (decide (sp_name sp = sp_name (fst x))) as [He|Hne].
    - rewrite (before_unique _ _ _ _ _ _ Hsp Hs He).
      eapply guarded_licensed; [exact HT|exact HG| |]; [|rewrite <- (before_unique _ _ _ _ _ _ Hsp Hs He); by eapply Ho].
      split; [done|]. intros sp' (z & -> & Hz)%list_elem_of_fmap. by apply Hc.
    - eapply guarded_aside; [|by eapply Ho]. apply HA; [rewrite Hsp; set_solver|done|done]. }
  destruct y as [e|u]; [done|]. apply (IH (gone ++ [x])); [|..|done].
  - by rewrite fmap_app, <- (assoc_L (++)).
  - intros sp Hsp. eapply resolved_grows; [exact HG|by apply Hr].
  - intros z [Hz| ->%list_elem_of_singleton]%elem_of_app; [|done]. destruct (HD z Hz).
    eapply completed_grows; [by eapply HA|by apply Hc].
Qed.
End Order.

(** C16: whatever fails and wherever the process dies, a deployment of a stack
    touches the containers of a service, its candidate included, only after the
    images of all the services were found on the server and every service before it
    in the plan is done with, in one of three ways: its container was started by
    this attempt and since then, untouched, ended well when it is a job, was seen up
    otherwise (or its health is not waited for); its candidate was seen up and,
    otherwise untouched, took the name of its container; or its container was seen
    running with the hash of the plan, and not touched since.  (Names are distinct
    and no service bears the name of a candidate; the stack is not adopted from
    another platform.) *)
Theorem stack_in_order `{Surroundings} k services loaded s :
  k_second k = Some loaded → ld_plan loaded = Some services → well_named services →
  (∀ p, r_preview (k_run k) = None → c_adoption (r_config (k_run k)) = Some p → pt_project p = "") → s_log s = [] →
  wp (attempt_stack k) (λ _ s', ∀ before sp after, services = before ++ sp :: after →
    guarded (touches_service k sp) (turn k services before) (s_log s')) s.
Proof.
  intros Hsec Hplan Hw Had Hs.
  apply (attempt_frame k services loaded Hsec Hplan Had (ordered k services)); [..|by intros before sp after _; rewrite Hs].
  - intros s1 s2 HG Ho before sp after Hsp. eapply guarded_aside; [|by eapply Ho].
    eapply grows_mono; [|exact HG]. assert (Hin : sp ∈ services) by (rewrite Hsp; set_solver).
    intros e He [Hc%He|Hc%He]; [by eapply container_candidate|by eapply next_candidate].
  - intros images s1 Hi Hr Ho. apply (loop_ordered k services Hw images []); [by rewrite Hi|done|set_solver|done].
Qed.
