(* ===== verification/ComposeCases.v ===== *)
(** * Deployments of compose stacks: an example and observed failures

    An inline stack of a database and a web service, deployed over version 1 of
    the latter; the hypotheses of the theorems hold of it.  Then runs of stacks,
    evaluated, in which something fails or a name is taken: each lemma records a
    behaviour that a comment of the source rules out. *)
From S2P Require Import Prelude GoLib Queue Effects ControlDB Host Daemon ProxyApply AccessRoute ProxyRoutes DeployBuild DeployRun DeploySafety DeployCases ComposeDeploy ComposeSafety.
Local Open Scope Z_scope.

Module Stack.
Definition service_of (name image : string) (health : option HealthFlags) (post : string) : Service :=
  mkService name image false false false false false health "" post [] ∅ [] []
    (λ ref, "1" +:+ ref) (λ ref, "2:" +:+ ref) 2.
Definition db : Service := service_of "db" "postgres:16" None "".
Definition web (post : string) : Service := service_of "web" "web:2" (Some (mkHealth false ["CMD"; "true"])) post.

Definition config (rollback : bool) : Config :=
  mkConfig 7 40 "dep-7" rollback false false None None None
    "shop" 3 None 1 "net" true PackDockerfile None None "" None None None None false None
    None None None true false false "" [] true false "" "" None
    [] 80 ProtectNone "" None false 0 false [] None 0 5 2 2 2 "team".
Definition run_of (rollback : bool) (st : DeploymentStatus) : Deploy := mkDeploy (config rollback) st None.
Definition loaded (services : list Service) : Loaded := mkLoaded 0 false (Some services).
Definition stack (rollback : bool) (st : DeploymentStatus) (services : list Service) : Stack :=
  mkStack (run_of rollback st) true false None None (Some (loaded services)) (Some (loaded services)) []
    ["shop"] [] ∅ [] [mkComponent "web" (Some 80) [] [mkDomain "shop.example.org" "/" None]] 80 [].

Definition box (image : string) (health : option string) : Box :=
  mkBox image {[ "akerdock.config_hash_v2" := "2:" +:+ image ]} "running" health "10.0.0.5".
(** Where the routing file sends: to the web service by its name, or elsewhere. *)
Definition file_to (endpoint : string) : string :=
  match stack_group (stack false SQueued []) (if decide (endpoint = "") then ∅ else {[ "web" := endpoint ]}) with
  | inr g => rendered (config false) g | inl _ => ""
  end.
Definition server (boxes : gmap string Box) : Daemon :=
  mkDaemon boxes {[ dynamic_path "shop" := file_to "" ]}
    (λ image, if decide (image = "web:2") then Some "healthy" else None) "10.0.0.7" (λ _, ("", 0)).
Definition site (boxes : gmap string Box) : @Site alone :=
  @mkSite alone (server boxes)
    (mkTables (Shop.world SQueued) [mkRevision 1 1 "shop" (file_to "") RevApplied] [] ∅ ∅) Shop.memory [].
Definition version1 : gmap string Box :=
  {[ "shop-db" := box "postgres:16" None; "shop-web" := box "web:1" (Some "healthy") ]}.
End Stack.
Import Stack.


Definition plan : list Service := [db; web ""].
Definition deploy (fs : list fate) (k : ComposeDeploy.Stack) (s : @Site alone) : err + DeploymentStatus :=
  outcome (attempt_stack (H := alone) k) fs s.
Definition deployed (fs : list fate) (k : ComposeDeploy.Stack) (s : @Site alone) : @Site alone :=
  left_by (attempt_stack (H := alone) k) fs s.
(** The next attempt, of a row that has the status. *)
Definition again (s : @Site alone) : @Site alone := @mkSite alone (s_out s) (s_tables s) (s_memory s) [].
Definition dies (n : nat) : list fate := replicate n Applied ++ replicate 120 Refused.

(** The containers created, started, stopped, removed or renamed, the latest first. *)
Definition touched (s : @Site alone) : list string :=
  mjoin ((λ e, match e with
               | Called (Create n _ _) _ | Called (Start n) _ | Called (Stop n) _ | Called (Remove n _) _ => [n]
               | Called (Rename a b) _ => [b; a]
               | _ => []
               end) <$> s_log s).

(** With nothing refused the stack is deployed, and the database is not touched. *)
Lemma stack_deploys :
  let s := deployed [] (stack false SQueued plan) (site version1) in
  deploy [] (stack false SQueued plan) (site version1) = inr SSucceeded ∧
  containers s = [("shop-web", "web:2", "running"); ("shop-db", "postgres:16", "running")] ∧
  file_of s = Some (file_to "") ∧ remove_dups (touched s) = ["shop-web"; "shop-web-next"].
Proof. by vm_compute. Qed.

(** ** The theorems apply *)

Lemma plan_named : well_named plan.
Proof. split; [apply (bool_decide_unpack _); by vm_compute|]. set_unfold. naive_solver. Qed.
Lemma web_switched : always_switched (stack false SQueued plan) (web "").
Proof. by split_and!. Qed.

Lemma stack_switch_safe_witness :
  wp (attempt_stack (H := alone) (stack false SQueued plan))
    (λ _ s', guarded (touches "shop-web") (switch_licensed (stack false SQueued plan) (web "")) (s_log s')) (site version1) ∧
  deploy [] (stack false SQueued plan) (site version1) = inr SSucceeded.
Proof.
  split; [|by vm_compute].
  apply (stack_switch_safe (stack false SQueued plan) plan (loaded plan) (web "")); try reflexivity.
  - apply plan_named.
  - right. left.
  - apply web_switched.
  - intros p Hp. discriminate Hp.
Defined.

Lemma stack_in_order_witness :
  wp (attempt_stack (H := alone) (stack false SQueued plan))
    (λ _ s', ∀ before sp after, plan = before ++ sp :: after →
       guarded (touches_service (stack false SQueued plan) sp) (turn (stack false SQueued plan) plan before) (s_log s'))
    (site version1) ∧
  deploy [] (stack false SQueued plan) (site version1) = inr SSucceeded.
Proof.
  split; [|by vm_compute].
  apply (stack_in_order (stack false SQueued plan) plan (loaded plan)); try reflexivity.
  - apply plan_named.
  - intros p _ Hp. discriminate Hp.
Defined.

(** ** Names *)

(** A failed deployment removes the container of the application's candidate
    whatever the build pack: in a stack, that is the container of a service named
    next. *)
Definition with_next : gmap string Box := <[ "shop-next" := box "next:1" None ]> version1.
Definition next_plan : list Service := [service_of "next" "next:1" None ""; web ""].
Lemma failed_stack_loses_the_service_next :
  deploy [] (stack true SQueued next_plan) (site with_next) = inr SFailed ∧
  "shop-next" ∈ (containers (site with_next)).*1.*1 ∧
  "shop-next" ∉ (containers (deployed [] (stack true SQueued next_plan) (site with_next))).*1.*1.
Proof. split_and!; [by vm_compute|apply (bool_decide_unpack _); by vm_compute..]. Qed.

(** A service named after another one's candidate is removed by the switch of the
    latter, in a deployment that succeeds. *)
Definition with_web_next : gmap string Box := <[ "shop-web-next" := box "next:1" None ]> version1.
Definition web_next_plan : list Service := [service_of "web-next" "next:1" None ""; web ""].
Lemma switch_removes_the_service_web_next :
  deploy [] (stack false SQueued web_next_plan) (site with_web_next) = inr SSucceeded ∧
  containers (deployed [] (stack false SQueued web_next_plan) (site with_web_next)) =
    [("shop-web", "web:2", "running"); ("shop-db", "postgres:16", "running")].
Proof. by vm_compute. Qed.

(** ** Interrupted and refused switches *)

(** A rename that is refused leaves no container of the service: the former one is
    gone, and the candidate is discarded. *)
Lemma refused_rename_leaves_no_service :
  deploy (refused_at 90) (stack false SQueued plan) (site version1) = inr SFailed ∧
  containers (deployed (refused_at 90) (stack false SQueued plan) (site version1)) = [("shop-db", "postgres:16", "running")].
Proof. by vm_compute. Qed.

Definition executed (s : @Site alone) : list (string * list string) :=
  omap (λ e, match e with
             | Called (Exec n argv) _ => if decide (n = proxy_container) then None else Some (n, argv)
             | _ => None end) (s_log s).

(** A process that dies before the command after the deployment: the next attempt
    finds the candidate healthy and promotes it without running the command. *)
Definition hooked (st : DeploymentStatus) : ComposeDeploy.Stack := stack false st [db; web "migrate"].
Definition before_hook : @Site alone := again (deployed (dies 72) (hooked SQueued) (site version1)).
Lemma resumed_switch_skips_the_hook :
  executed (deployed [] (hooked SQueued) (site version1)) = [("shop-web-next", ["sh"; "-c"; "migrate"])] ∧
  deploy [] (hooked SStarting) before_hook = inr SSucceeded ∧
  executed (deployed [] (hooked SStarting) before_hook) = [] ∧
  containers (deployed [] (hooked SStarting) before_hook) =
    [("shop-web", "web:2", "running"); ("shop-db", "postgres:16", "running")].
Proof. by vm_compute. Qed.

(** A process that dies in the switch, and the next one right after its first
    status: the row now says preparing, so the third attempt does not look for a
    candidate, and its first act on the service is to remove the container that
    serves. *)
Definition in_switch : @Site alone := again (deployed (dies 90) (stack false SQueued plan) (site version1)).
Lemma second_crash_replays_the_switch :
  containers in_switch = [("shop-web-next", "web:2", "running"); ("shop-db", "postgres:16", "running")] ∧
  last (touched (deployed [] (stack false SPreparing plan) in_switch)) = Some "shop-web-next" ∧
  existsb (λ e, match e with Called (Remove n _) (inr _) => bool_decide (n = "shop-web-next") | _ => false end)
    (s_log (deployed [] (stack false SPreparing plan) in_switch)) = true.
Proof. by vm_compute. Qed.

(** A process that dies between leaving the network of the stack and joining it
    again under the short name: the next attempt finds the container unchanged and
    succeeds without connecting it. *)
Definition connected (s : @Site alone) : list string :=
  omap (λ e, match e with Called (Other _ what) (inr _) => if has_prefix what "connect shop-web to" then Some what else None
             | _ => None end) (s_log s).
Definition disconnected : @Site alone := again (deployed (dies 92) (stack false SQueued plan) (site version1)).
Lemma interrupted_promotion_stays_disconnected :
  connected (deployed [] (stack false SQueued plan) (site version1)) = ["connect shop-web to shop"] ∧
  connected (deployed (dies 92) (stack false SQueued plan) (site version1)) = [] ∧
  deploy [] (stack false SStarting plan) disconnected = inr SSucceeded ∧
  connected (deployed [] (stack false SStarting plan) disconnected) = ["connect shop-web to net"].
Proof. by vm_compute. Qed.
