(* ===== verification/ServerCleanup.v ===== *)
(** * Cleaning a server

    The job server.cleanup ([internal/jobs/servercleanup.go]): it prunes what
    AkerDock left on a server (build cache, dangling images, dead candidates,
    images, volumes and networks whose owner is gone), and never while a
    deployment uses the server.  Over the servers of [Host]: the theorems about
    what is removed hold whatever the server and the other workers do.  The guard
    between cleanups and deployments ([CanStartServerCleanup] on one side,
    [DeployBuild.StartDeployment] and
    [DeployBuild.AssignDeploymentBuildServerUnlessCleanupRunning] on the other)
    is a step system of its own. *)
From stdpp Require Import pretty.
From S2P Require Import Prelude GoLib Queue Effects ControlDB Host Daemon DeployBuild DeployRun DeployCases.
Local Open Scope Z_scope.

(** ** Statements *)

(** One statement of [ControlDB]. *)
Definition on_world `{Surroundings} {A} (m : M World A) : M Site A :=
  sql (λ t, let '(r, (_, w)) := m [] (t_world t) in (set_world t w, r)).

(** [CanStartServerCleanup]: no deployment to the server, or building on it, is
    between its start and its end. *)
Definition under_way (st : DeploymentStatus) : bool := negb (bool_decide (st = SQueued)) && negb (finished st).
Definition uses (t : Tables) (server : Z) (i : Z) (d : Deployment) : Prop :=
  d_server d = server ∨ t_builders t !! i = Some server.
#[export] Instance uses_dec t server i d : Decision (uses t server i d).
Proof. unfold uses. apply _. Defined.
Definition busy (t : Tables) (server : Z) : bool :=
  bool_decide (map_Exists (λ i d, uses t server i d ∧ under_way (d_status d) = true) (w_deployments (t_world t))).
Definition can_start (t : Tables) (server : Z) : err + bool :=
  if decide (is_Some (w_servers (t_world t) !! server)) then inr (negb (busy t server)) else inl NoRows.
Definition CanStartServerCleanup `{Surroundings} (server : Z) : M Site bool := sql (λ t, (t, can_start t server)).

(** [ListLiveResourceUUIDs], [ListLivePreviewUUIDs] *)
Definition preview_alive (t : Tables) (u : string) : Prop :=
  map_Exists (λ _ p, p_uuid p = u ∧ p_status p ≠ PDestroyed) (w_previews (t_world t)).
#[export] Instance preview_alive_dec t u : Decision (preview_alive t u).
Proof. unfold preview_alive. apply _. Defined.
Definition ListLiveResourceUUIDs `{Surroundings} (uuids : list string) : M Site (list string) :=
  sql (λ t, (t, inr (filter (λ u, u ∈ t_resources t) uuids))).
Definition ListLivePreviewUUIDs `{Surroundings} (uuids : list string) : M Site (list string) :=
  sql (λ t, (t, inr (filter (preview_alive t) uuids))).

(** ** The pieces *)

(** [ServerCleanupPayload] with the rows [Execute] reads: the server and the job. *)
Inductive Reason := Cron | Threshold | Manual.
#[export] Instance Reason_eq_dec : EqDecision Reason.
Proof. solve_decision. Defined.
Definition parse_reason (s : string) : option Reason :=
  if decide (s = "cron") then Some Cron else if decide (s = "threshold") then Some Threshold
  else if decide (s = "manual") then Some Manual else None.
Record Cleanup := mkCleanup {
  cl_server : Z; cl_server_uuid : string; cl_reason : string; cl_threshold : option Z;
  cl_prune_volumes : bool; cl_prune_networks : bool;
  cl_job : Z; cl_lock_key : option string; cl_max_attempts : Z
}.
Inductive CleanupResult := Deferred (retry : Z) | Skipped (pct threshold : Z) | Completed (before after : Z).

Definition managed_label : string := "akerdock.managed=true".
Definition preview_label : string := "akerdock.preview_uuid".
Definition label (x : Summary) (key : string) : string := default "" (su_labels x !! key).
Definition preview_of_object (x : Summary) : string := label x preview_label.
(** [ownerOf] *)
Definition ownerOf (x : Summary) : string :=
  if decide (preview_of_object x = "") then label x "akerdock.resource_uuid" else preview_of_object x.

(** The name of a candidate of this container's resource. *)
Definition candidate_of (x : Summary) : string :=
  let component := label x "akerdock.component" in
  if decide (component = "") then ownerOf x +:+ "-next" else ownerOf x +:+ "-" +:+ component +:+ "-next".
Definition dead_candidate (x : Summary) : Prop :=
  ownerOf x ≠ "" ∧ su_name x ≠ "" ∧ su_name x = candidate_of x.
#[export] Instance dead_candidate_dec x : Decision (dead_candidate x).
Proof. unfold dead_candidate. apply _. Defined.

(** [reclaimedLine] *)
Definition reclaimedLine (out : string) : string :=
  match filter (λ line, has_prefix line "Total reclaimed space:" = true) (split newline out) with
  | line :: _ => line
  | [] => if decide (trim_space out = "") then "done" else out
  end.

(** [cleanupTmpCommand], the other commands, and the prunes of the agent channel *)
Definition dquoted (s : string) : string := String "034" s +:+ String "034" "".
Definition cleanupTmpCommand (dir : string) : string :=
  "set -e; dir=" +:+ shellQuote dir +:+ "; if [ -d " +:+ dquoted "$dir" +:+ " ]; then find " +:+ dquoted "$dir" +:+
  " -mindepth 1 -maxdepth 1 -exec rm -rf -- {} +; fi".
Definition tmp_dir : string := "/var/lib/akerdock/tmp".
Definition prune_build_cache : string := "docker builder prune -af --keep-storage 2GB".
Definition df_command (root : string) : string :=
  "df -P " +:+ shellQuote root +:+ " | awk 'NR==2 {gsub(/%/," +:+ dquoted "" +:+ ",$5); print $5}'".
Definition images_prune : string := "images prune: dangling=true label=akerdock.managed=true".
Definition volumes_prune : string := "volumes prune: label=akerdock.managed=true".

Section Cleanup.
Context `{Surroundings}.
(** The canonical form of a uuid ([pguuid.MustParse], then [pguuid.String]), by
    the parser of pgx: [None] for what is no uuid. *)
Context (parse : string → option string).

(** [liveOwners] *)
Definition liveOwners (owners : gset string) : M Site (gset string) :=
  let uuids := omap parse (elements owners) in
  match uuids with
  | [] => mret ∅
  | _ =>
      resources ← ListLiveResourceUUIDs uuids;
      previews ← ListLivePreviewUUIDs uuids;
      mret (list_to_set resources ∪ list_to_set previews)
  end.

(** The loop of the three orphan prunes: what was removed, what was refused. *)
Fixpoint sweep (xs : list Summary) (remove : Summary → call ()) : M Site (Z * Z) :=
  match xs with
  | [] => mret (0, 0)
  | x :: xs' =>
      removed ← attempt (ask (remove x));
      counts ← sweep xs' remove;
      mret (match removed with
            | inr _ => (fst counts + 1, snd counts)
            | inl e => if IsNotFound e then counts else (fst counts, snd counts + 1)
            end)
  end.
Definition summary_of (what : string) (counts : Z * Z) : string :=
  pretty (fst counts) +:+ " " +:+ what +:+ " removed" +:+
  (if decide (0 < snd counts) then ", " +:+ pretty (snd counts) +:+ " kept (still in use)" else "").
Definition orphans (live : gset string) (owner : Summary → string) (xs : list Summary) : list Summary :=
  filter (λ x, owner x ∉ live) xs.
Definition owned (owner : Summary → string) (xs : list Summary) : gset string :=
  list_to_set (filter (λ u, u ≠ "") (owner <$> xs)).

(** [pruneDestroyedPreviewImages], [pruneDestroyedPreviewVolumes] *)
Definition pruneDestroyedPreviewImages : M Site string :=
  xs ← ask (ImageList preview_label);
  let owners := owned preview_of_object xs in
  if decide (owners = ∅) then mret "0 images removed"
  else
    live ← liveOwners owners;
    counts ← sweep (orphans live preview_of_object xs) (λ x, ImageRemove (su_id x));
    mret (summary_of "images" counts).
Definition pruneDestroyedPreviewVolumes : M Site string :=
  xs ← ask (VolumeList preview_label);
  let owners := owned preview_of_object xs in
  if decide (owners = ∅) then mret "0 volumes removed"
  else
    live ← liveOwners owners;
    counts ← sweep (orphans live preview_of_object xs) (λ x, VolumeRemove (su_name x));
    mret (summary_of "volumes" counts).

(** [pruneOrphanManagedNetworks] *)
Definition pruneOrphanManagedNetworks : M Site string :=
  xs ← ask (NetworkList managed_label);
  let candidates := filter (λ x, ownerOf x ≠ "") xs in
  match candidates with
  | [] => mret "0 networks removed"
  | _ =>
      live ← liveOwners (owned ownerOf candidates);
      counts ← sweep (orphans live ownerOf candidates) (λ x, NetworkRemove (su_id x));
      mret (summary_of "networks" counts)
  end.

(** [pruneDeadCandidates] *)
Definition pruneDeadCandidates : M Site string :=
  xs ← ask (ContainerList managed_label);
  let dead := filter dead_candidate xs in
  _ ← each dead (λ x, removeNamed true (su_id x));
  mret (pretty (Z.of_nat (length dead)) +:+ " dead candidates removed").

(** [cleanupSteps] *)
Definition sshStep (command : string) : M Site string :=
  out ← run Target command; mret (firstLine (reclaimedLine out)).
Definition agentPrune (what : string) : M Site string :=
  _ ← ask (Other Target what); mret "Total reclaimed space".
Definition cleanupSteps (c : Cleanup) : list (string * M Site string) :=
  [("prune_build_cache", sshStep prune_build_cache);
   ("prune_dangling_images", agentPrune images_prune);
   ("prune_dead_candidates", pruneDeadCandidates);
   ("prune_destroyed_preview_images", pruneDestroyedPreviewImages);
   ("purge_tmp", sshStep (cleanupTmpCommand tmp_dir))] ++
  (if cl_prune_volumes c then
     [("prune_anonymous_volumes", agentPrune volumes_prune);
      ("prune_destroyed_preview_volumes", pruneDestroyedPreviewVolumes)] else []) ++
  (if cl_prune_networks c then [("prune_managed_networks", pruneOrphanManagedNetworks)] else []).

(** [diskUsagePct] *)
Definition diskUsagePct : M Site Z :=
  root ← ask Info;
  if decide (root = "") then throw (Failure "the daemon reported no root dir")
  else
    out ← run Target (df_command root);
    match atoi (trim_space (firstLine out)) with
    | Some n => if decide (0 <= n <= 100) then mret n else throw (Failure "measure Docker disk usage")
    | None => throw (Failure "measure Docker disk usage")
    end.

(** [publish], and the step recorder *)
Definition publish : M Site () := _ ← ignore bookkeeping; ignore bookkeeping.
Definition rec_step {A} (m : M Site A) : M Site A :=
  _ ← ignore bookkeeping;
  r ← attempt m;
  _ ← ignore bookkeeping;
  match r with inl e => _ ← publish; throw e | inr a => mret a end.

(** [deferCleanup] *)
Definition defer_delay : Z := 60 * 1000000000.
Definition retry_options (c : Cleanup) (now : Z) : EnqueueOptions :=
  mkOptions "cleanup" "server.cleanup" 0 (Some (now + defer_delay)) (cl_max_attempts c)
    (Some ("server-cleanup-deferred:" +:+ pretty (cl_job c)))
    (match cl_lock_key c with
     | Some k => if decide (k = "") then Some ("server:cleanup:" +:+ cl_server_uuid c) else Some k
     | None => Some ("server:cleanup:" +:+ cl_server_uuid c)
     end) true.
Definition deferCleanup (c : Cleanup) : M Site Job :=
  now ← look (λ s, w_now (t_world (s_tables s)));
  on_world (Enqueue (retry_options c now) (PServerCleanup (cl_server c))).

(** [Execute] *)
Definition below (c : Cleanup) (before : Z) : bool :=
  let threshold := default 0 (cl_threshold c) in (threshold =? 0) || (before <? threshold).
Definition prune (c : Cleanup) (before : Z) : M Site CleanupResult :=
  _ ← each (cleanupSteps c) (λ step, _ ← rec_step (snd step); mret ());
  after ← rec_step diskUsagePct;
  recorded ← attempt bookkeeping; (** SetServerCleanupSchedule *)
  _ ← publish;
  match recorded with inl e => throw e | inr _ => mret (Completed before after) end.
Definition clean (c : Cleanup) (reason : Reason) : M Site CleanupResult :=
  runtime ← attempt (ask (Other Target "runtime"));
  match runtime with
  | inl e => _ ← ignore bookkeeping; _ ← ignore bookkeeping; _ ← publish; throw e
  | inr _ =>
      _ ← bookkeeping; _ ← fallible; (** the key, decrypted *)
      dialled ← attempt (ask (Other Target "dial"));
      match dialled with
      | inl e => _ ← ignore bookkeeping; _ ← ignore bookkeeping; _ ← publish; throw e
      | inr _ =>
          before ← rec_step diskUsagePct;
          if bool_decide (reason = Threshold) && below c before
          then mret (Skipped before (default 0 (cl_threshold c)))
          else prune c before
      end
  end.
Definition Execute (c : Cleanup) : M Site CleanupResult :=
  match parse_reason (cl_reason c) with
  | None => throw (Failure "invalid payload: unknown cleanup reason")
  | Some reason =>
      _ ← on_world (GetServerByID (cl_server c));
      ok ← CanStartServerCleanup (cl_server c);
      _ ← tell (MayClean ok);
      if (ok : bool) then clean c reason
      else
        _ ← ignore bookkeeping;
        next ← attempt (deferCleanup c);
        _ ← ignore bookkeeping;
        match next with inl e => throw e | inr j => mret (Deferred (job_id j)) end
  end.
End Cleanup.

(** ** What a cleanup removes *)

(** How an owner is alive: as a resource, or as a preview that is not destroyed. *)
Inductive kind := AsResource | AsPreview.
Definition alive (k : kind) (u : string) (t : Tables) : Prop :=
  match k with AsResource => u ∈ t_resources t | AsPreview => preview_alive t u end.

(** An object of a list the server gave. *)
Definition listed (c : call (list Summary)) (x : Summary) (l : list event) : Prop :=
  ∃ xs, Called c (inr xs) ∈ l ∧ x ∈ xs.

(** What a cleanup may do, after the history [l], to a server with objects of the
    owner [u]: look; once it is known that no deployment is under way, run its two
    commands and two prunes, remove listed objects whose label names someone else,
    and remove containers that bear exactly the name of a candidate. *)
Definition may (u : string) (e : event) (l : list event) : Prop :=
  match e with
  | Called (ImageRemove i) _ =>
      MayClean true ∈ l ∧ ∃ x, listed (ImageList preview_label) x l ∧ su_id x = i ∧ preview_of_object x ≠ u
  | Called (VolumeRemove n) _ =>
      MayClean true ∈ l ∧ ∃ x, listed (VolumeList preview_label) x l ∧ su_name x = n ∧ preview_of_object x ≠ u
  | Called (NetworkRemove i) _ =>
      MayClean true ∈ l ∧ ∃ x, listed (NetworkList managed_label) x l ∧ su_id x = i ∧ ownerOf x ≠ "" ∧ ownerOf x ≠ u
  | Called (Remove i volumes) _ =>
      MayClean true ∈ l ∧ ∃ x, listed (ContainerList managed_label) x l ∧ su_id x = i ∧ dead_candidate x
  | Called (Run Target cmd) _ =>
      (∃ root, cmd = df_command root) ∨ (MayClean true ∈ l ∧ cmd ∈ [prune_build_cache; cleanupTmpCommand tmp_dir])
  | Called (Other Target what) _ =>
      what ∈ ["runtime"; "dial"] ∨ (MayClean true ∈ l ∧ what ∈ [images_prune; volumes_prune])
  | Called (ImageList _) _ | Called (VolumeList _) _ | Called (NetworkList _) _ | Called (ContainerList _) _
  | Called Info _ | MayClean _ => True
  | _ => False
  end.
Fixpoint permitted (ok : event → list event → Prop) (l : list event) : Prop :=
  match l with [] => True | e :: l' => ok e l' ∧ permitted ok l' end.

Section Spared.
Context `{Surroundings} (parse : string → option string) (u : string) (k : kind).
Hypothesis canonical : parse u = Some u.
Hypothesis named : u ≠ "".
Hypothesis others_alive : ∀ o t, alive k u t → alive k u (snd (others o t)).

(** [F] is what is known of the history. *)
Definition good (F : list event → Prop) (s : Site) : Prop :=
  alive k u (s_tables s) ∧ permitted (may u) (s_log s) ∧ F (s_log s).
Definition grown (F : list event → Prop) : Prop := ∀ e l, F l → F (e :: l).
Definition onward (F : list event → Prop) (s s' : Site) : Prop := good F s → good F s'.
#[local] Instance onward_preorder F : PreOrder (onward F).
Proof. split; [by intros s Hs|]. intros s1 s2 s3 H1 H2 HF. by apply H2, H1. Qed.

Lemma good_more F G s o e :
  grown F → (F (s_log s) → may u e (s_log s)) → (∀ l, F (e :: l) → G (e :: l)) →
  good F s → good G (mkSite o (s_tables s) (s_memory s) (e :: s_log s)).
Proof. intros HF Hm HG (Ha & Hp & Hf). split_and!; simpl; [done|split; auto|auto]. Qed.

Lemma onward_ask F {A} (c : call A) :
  grown F → (∀ l x, F l → may u (Called c x) l) → keeps (onward F) (ask c).
Proof. intros HF Hc s. apply wp_ask. intros x o Hg. apply (good_more F F); auto. Qed.
Lemma onward_sql F {A} (f : Tables → Tables * (err + A)) :
  (∀ t, alive k u t → alive k u (fst (f t))) → keeps (onward F) (sql f).
Proof.
  intros Hf s. pose proof (others_alive (s_out s) (s_tables s)) as Ho.
  apply wp_stmt; intros (Ha & Hp & HF); [done|..]; destruct (others _ _) as [o t];
    specialize (Hf t (Ho Ha)); destruct (f t) as [t' x]; done.
Qed.
Lemma onward_quiet F {A} (f : Tables → err + A) : keeps (onward F) (sql (λ t, (t, f t))).
Proof. by apply onward_sql. Qed.
Lemma onward_bookkeeping F : keeps (onward F) bookkeeping.
Proof. apply onward_quiet. Qed.

(** A list remembered by what comes after. *)
Lemma onward_learn F {A B} (c : call A) (m : A → M Site B) :
  grown F → (∀ l x, F l → may u (Called c x) l) →
  (∀ a, keeps (onward (λ l, F l ∧ Called c (inr a) ∈ l)) (m a)) → keeps (onward F) (ask c ≫= m).
Proof.
  intros HF Hc Hm s. apply wp_bind, wp_ask. intros [e|a] o; [intros Hg; apply (good_more F F); auto|].
  eapply wp_mono; [|apply Hm]. intros x s' Hs Hg. destruct Hs as (Ha' & Hp' & Hf' & _); [|done].
  eapply good_more; [exact HF|auto| |exact Hg]. intros l Hl. split; [done|by left].
Qed.

(** *** Who is alive *)

Lemma onward_given F {A} (m : M Site A) :
  keeps (onward F) m ↔ ∀ s, good F s → wp m (λ _ s', good F s') s.
Proof.
  split; intros Hm s.
  - intros Hs. eapply wp_mono; [|apply Hm]. auto.
  - intros fs. pose proof (λ Hs, Hm s Hs fs) as Hw. destruct (m fs s) as [x [fs' s']]. exact Hw.
Qed.

(** The rows of a query are those of a state in which the owner is alive. *)
Lemma wp_rows F {A B} (f : Tables → A) (m : A → M Site B) Q s :
  good F s → (∀ s', good F s' → Q (inl Broken) s') →
  (∀ t s', alive k u t → good F s' → wp (m (f t)) Q s') →
  wp (sql (λ t, (t, inr (f t))) ≫= m) Q s.
Proof.
  intros (Ha & Hp & Hf) He Hm. pose proof (others_alive (s_out s) (s_tables s) Ha) as Ho.
  apply wp_bind, wp_stmt; [by apply He|..]; destruct (others _ _) as [o t]; simpl; [by apply He|by apply Hm].
Qed.

Lemma liveOwners_alive F owners s :
  good F s →
  wp (liveOwners parse owners)
    (λ x s', good F s' ∧ match x with inr live => u ∈ owners → u ∈ live | inl _ => True end) s.
Proof.
  intros Hs. unfold liveOwners.
  assert (u ∈ owners → u ∈ omap parse (elements owners)) as Hu.
  { intros Hin. apply list_elem_of_omap. exists u. split; [by apply elem_of_elements|done]. }
  destruct (omap parse (elements owners)) as [|v vs].
  { apply wp_ret. split; [done|]. by intros ?%Hu%elem_of_nil. }
  apply (wp_rows F); [done|by intros|]. intros t1 s1 H1 Hs1.
  apply (wp_rows F); [done|by intros|]. intros t2 s2 H2 Hs2.
  apply wp_ret. split; [done|]. intros Hin%Hu. rewrite elem_of_union, !elem_of_list_to_set, !list_elem_of_filter.
  destruct k; [left|right]; done.
Qed.

Lemma onward_liveOwners F {B} owners (m : gset string → M Site B) :
  (∀ live, (u ∈ owners → u ∈ live) → keeps (onward F) (m live)) → keeps (onward F) (liveOwners parse owners ≫= m).
Proof.
  setoid_rewrite onward_given. intros Hm s Hs. apply wp_bind. eapply wp_mono; [|by apply (liveOwners_alive F)].
  intros [e|live] s' [Hg Hl]; [done|by apply Hm].
Qed.

(** *** The parts *)

Lemma onward_sweep F xs remove :
  grown F → (∀ x l r, x ∈ xs → F l → may u (Called (remove x) r) l) → keeps (onward F) (sweep xs remove).
Proof.
  intros HF. induction xs as [|x xs IH]; intros Hx; simpl; [apply keeps_ret, _|].
  apply (keeps_bind _); [|intros r1; apply (keeps_bind _); [|intros c; apply keeps_ret, _]].
  - apply (keeps_attempt _), onward_ask; [done|]. intros l r1. apply Hx. by left.
  - apply IH. intros y l r2 Hy. apply Hx. by right.
Qed.

(** An orphan of a list belongs to someone else. *)
Lemma orphan_other live owner xs x :
  (u ∈ owned owner xs → u ∈ live) → x ∈ orphans live owner xs → x ∈ xs ∧ owner x ≠ u.
Proof.
  intros Hl [Hx Hin]%list_elem_of_filter. split; [done|]. intros Hu. apply Hx. rewrite Hu. apply Hl.
  apply elem_of_list_to_set, list_elem_of_filter. split; [done|]. apply list_elem_of_fmap. by exists x.
Qed.

Definition cleared (l : list event) : Prop := MayClean true ∈ l.
Lemma cleared_grown : grown cleared.
Proof. intros e l Hl. by right. Qed.
Lemma told_grown F e : grown F → grown (λ l, F l ∧ e ∈ l).
Proof. intros HF e' l [Hl He]. split; [by apply HF|by right]. Qed.
Hint Resolve cleared_grown told_grown onward_bookkeeping onward_quiet : effects.

Lemma onward_pruneImages : keeps (onward cleared) (pruneDestroyedPreviewImages parse).
Proof.
  apply onward_learn; [auto with effects|done|]. intros xs. cbv zeta. case_decide; [apply keeps_ret, _|].
  apply onward_liveOwners. intros live Hl. apply (keeps_bind _); [|intros n; apply keeps_ret, _].
  apply onward_sweep; [auto with effects|]. intros x l r Hx [HF Hin].
  destruct (orphan_other _ _ _ _ Hl Hx) as [Hxs Hu]. split; [done|]. exists x. split_and!; [by exists xs|done..].
Qed.
Lemma onward_pruneVolumes : keeps (onward cleared) (pruneDestroyedPreviewVolumes parse).
Proof.
  apply onward_learn; [auto with effects|done|]. intros xs. cbv zeta. case_decide; [apply keeps_ret, _|].
  apply onward_liveOwners. intros live Hl. apply (keeps_bind _); [|intros n; apply keeps_ret, _].
  apply onward_sweep; [auto with effects|]. intros x l r Hx [HF Hin].
  destruct (orphan_other _ _ _ _ Hl Hx) as [Hxs Hu]. split; [done|]. exists x. split_and!; [by exists xs|done..].
Qed.
Lemma onward_pruneNetworks : keeps (onward cleared) (pruneOrphanManagedNetworks parse).
Proof.
  apply onward_learn; [auto with effects|done|]. intros xs. cbv zeta.
  remember (filter (λ x, ownerOf x ≠ "") xs) as ys eqn:Hys.
  assert (∀ y, y ∈ ys → y ∈ xs ∧ ownerOf y ≠ "") as Hy by (intros y; subst; rewrite list_elem_of_filter; tauto).
  clear Hys. destruct ys as [|y ys]; [apply keeps_ret, _|].
  apply onward_liveOwners. intros live Hl. apply (keeps_bind _); [|intros n; apply keeps_ret, _].
  apply onward_sweep; [auto with effects|]. intros x l r Hx [HF Hin].
  destruct (orphan_other _ _ _ _ Hl Hx) as [Hxs Hu]. apply Hy in Hxs as [Hxs Ho].
  split; [done|]. exists x. split_and!; [by exists xs|done..].
Qed.
Lemma onward_pruneCandidates : keeps (onward cleared) pruneDeadCandidates.
Proof.
  apply onward_learn; [auto with effects|done|]. intros xs. cbv zeta.
  apply (keeps_bind _); [|intros n; apply keeps_ret, _]. apply (keeps_each _). intros x [Hd Hx]%list_elem_of_filter.
  unfold removeNamed. apply (keeps_bind _); [|intros [e|a]; keep].
  apply (keeps_attempt _), onward_ask; [auto with effects|]. intros l r [HF Hin].
  split; [done|]. exists x. split_and!; [by exists xs|done..].
Qed.
Lemma onward_run F cmd :
  grown F → (∀ l x, F l → may u (Called (Run Target cmd) x) l) → keeps (onward F) (run Target cmd).
Proof. intros HF Hm. apply (keeps_bind _); [by apply onward_ask|intros x; keep]. Qed.
Lemma onward_df F : grown F → keeps (onward F) diskUsagePct.
Proof.
  intros HF. apply (keeps_bind _); [by apply onward_ask|intros root]. case_decide; [keep|].
  apply (keeps_bind _); [|intros x; keep]. apply onward_run; [done|]. intros l x _. left. by exists root.
Qed.
Lemma onward_rec_step F {A} (m : M Site A) : keeps (onward F) m → keeps (onward F) (rec_step m).
Proof. intros Hm. unfold rec_step, publish. keep. Qed.
Hint Resolve onward_pruneImages onward_pruneVolumes onward_pruneNetworks onward_pruneCandidates onward_df
  onward_rec_step : effects.

Lemma onward_steps c step : step ∈ cleanupSteps parse c → keeps (onward cleared) (snd step).
Proof.
  assert (∀ cmd, cmd ∈ [prune_build_cache; cleanupTmpCommand tmp_dir] → keeps (onward cleared) (sshStep cmd)) as Hssh.
  { intros cmd Hcmd. unfold sshStep. apply (keeps_bind _); [|intros out; keep].
    apply onward_run; [auto with effects|]. intros l x HF. by right. }
  assert (∀ what, what ∈ [images_prune; volumes_prune] → keeps (onward cleared) (agentPrune what)) as Hagent.
  { intros what Hw. unfold agentPrune. apply (keeps_bind _); [|intros out; keep].
    apply onward_ask; [auto with effects|]. intros l x HF. by right. }
  unfold cleanupSteps. rewrite !elem_of_app. intros Hs.
  repeat match goal with
  | H : _ ∨ _ |- _ => destruct H
  | H : _ ∈ (if ?b then _ else _) |- _ => destruct b
  | H : _ ∈ [] |- _ => by apply elem_of_nil in H
  | H : _ ∈ _ :: _ |- _ => apply elem_of_cons in H as [->|H]
  end; simpl; auto with effects; (apply Hssh || apply Hagent); set_solver.
Qed.

Lemma onward_clean c reason : keeps (onward cleared) (clean parse c reason).
Proof.
  unfold clean, publish. keep.
  - apply onward_ask; [auto with effects|]. intros l x _. left. set_solver.
  - apply onward_ask; [auto with effects|]. intros l x _. left. set_solver.
  - unfold prune, publish. apply (keeps_bind _); [|intros _; keep]. apply (keeps_each _). intros x Hx.
    apply (keeps_bind _); [by apply onward_rec_step, (onward_steps c)|intros _; keep].
Qed.

Lemma on_world_alive {A} (m : M World A) t :
  (∀ w, w_previews (snd (snd (m [] w))) = w_previews w) →
  alive k u t → alive k u (fst (let '(x, (_, w)) := m [] (t_world t) in (set_world t w, x))).
Proof.
  intros Hm. specialize (Hm (t_world t)). destruct (m [] (t_world t)) as [x [fs w]]. simpl in *.
  destruct k; [done|]. unfold alive, preview_alive, set_world. simpl. by rewrite Hm.
Qed.
Lemma Enqueue_previews opts p w : w_previews (snd (snd (ControlDB.Enqueue opts p [] w))) = w_previews w.
Proof.
  unfold ControlDB.Enqueue, stmt. by destruct (Queue.Enqueue _ _ _) as [db [e|j]].
Qed.

(** Before the guard has spoken nothing is known. *)
Lemma Execute_permitted c s :
  alive k u (s_tables s) → s_log s = [] →
  wp (Execute parse c) (λ _ s', permitted (may u) (s_log s') ∧ alive k u (s_tables s')) s.
Proof.
  intros Ha Hl.
  cut (keeps (onward (λ _, True)) (Execute parse c)).
  { intros Hk. eapply wp_mono; [|apply Hk]. intros x s' Hs. destruct Hs as (Ha' & Hp & _); [|done].
    split_and!; [done| |done]. by rewrite Hl. }
  unfold Execute. destruct (parse_reason (cl_reason c)) as [reason|]; [|keep].
  apply (keeps_bind _); [by apply onward_sql; intros; apply on_world_alive|intros _].
  apply (keeps_bind _); [apply onward_quiet|intros ok].
  intros s1. apply wp_bind, wp_tell. destruct ok.
  - eapply wp_mono; [|apply (onward_clean c reason)]. intros x s2 H2 (H1 & H1' & _).
    destruct H2 as (Ha2 & Hp2 & _); [|done]. split_and!; [done|done|by left].
  - assert (keeps (onward (λ _, True)) (
        _ ← ignore bookkeeping; next ← attempt (deferCleanup c); _ ← ignore bookkeeping;
        match next with inl e => throw e | inr j => mret (Deferred (job_id j)) end)) as Hk.
    { unfold deferCleanup. keep. apply onward_sql. intros t. apply on_world_alive, Enqueue_previews. }
    eapply wp_mono; [|apply Hk]. intros x s2 H2 (H1 & H1' & _). apply H2. by split_and!.
Qed.
End Spared.

(** C5: whatever the server answers and the other workers do, and wherever the
    job dies, a cleanup of a server on which an owner has objects (a resource that
    stays undeleted, or a preview that stays undestroyed, sleeping included) only
    does what [may] lists: before the database said that no deployment uses the
    server it only measures the disk; afterwards it runs its two commands and its
    two label-filtered prunes, removes images, volumes and networks that the
    server listed with an ownership label naming another owner, never a network
    without one, and removes containers that bear exactly the candidate's name of
    their own labels. *)
Theorem cleanup_spares_the_living `{Surroundings} (parse : string → option string) u k c s :
  parse u = Some u → u ≠ "" → (∀ o t, alive k u t → alive k u (snd (others o t))) →
  alive k u (s_tables s) → s_log s = [] →
  wp (Execute parse c) (λ _ s', permitted (may u) (s_log s')) s.
Proof.
  intros Hc Hn Ho Ha Hl. eapply wp_mono; [|by eapply (Execute_permitted parse u k)]. by intros x s' [Hp _].
Qed.

(** ** Cleanups and deployments exclude each other *)

(** The database and the cleanups under way, each a job and its server, between
    its [CanStartServerCleanup] and the end of [Execute]. *)
Definition holds (w : World) (job server : Z) : Prop :=
  ∃ j, jobs (w_queue w) !! job = Some j ∧ job_type j = "server.cleanup" ∧ active j = true ∧
       w_payloads w !! job = Some (PServerCleanup server).

(** One statement of a deployment, of a cleanup, of the queue, or of anybody else.
    A deployment becomes active through [StartDeployment] only, reserves a build
    server while it is active, and is never queued again; the lease of a job lasts
    while the job runs. *)
Inductive guard_step : Tables * gset (Z * Z) → Tables * gset (Z * Z) → Prop :=
| g_create t cl i d next :
    w_deployments (t_world t) !! i = None → t_builders t !! i = None → d_status d = SQueued →
    guard_step (t, cl) (set_world t (set_deployments (t_world t) (<[ i := d ]> (w_deployments (t_world t))) next), cl)
| g_start t cl i :
    guard_step (t, cl) (set_world t (fst (StartDeployment i (t_world t))), cl)
| g_reserve t cl i server d :
    w_deployments (t_world t) !! i = Some d → under_way (d_status d) = true →
    guard_step (t, cl) (fst (AssignBuilder i server t), cl)
| g_status t cl i d st :
    w_deployments (t_world t) !! i = Some d → st ≠ SQueued →
    (under_way st = true → under_way (d_status d) = true) →
    guard_step (t, cl) (set_world t (write_status i st (t_world t)), cl)
| g_queue t cl db ps :
    (∀ j s, (j, s) ∈ cl → holds (set_jobs (t_world t) db ps) j s) →
    guard_step (t, cl) (set_world t (set_jobs (t_world t) db ps), cl)
| g_elsewhere t t' cl :
    w_deployments (t_world t') = w_deployments (t_world t) → t_builders t' = t_builders t →
    w_queue (t_world t') = w_queue (t_world t) → w_payloads (t_world t') = w_payloads (t_world t) →
    guard_step (t, cl) (t', cl)
| g_clean t cl j server :
    holds (t_world t) j server → can_start t server = inr true →
    guard_step (t, cl) (t, {[ (j, server) ]} ∪ cl)
| g_done t cl x :
    guard_step (t, cl) (t, cl ∖ {[ x ]}).

Definition unbuilt (t : Tables) : Prop :=
  ∀ i d, w_deployments (t_world t) !! i = Some d → d_status d = SQueued → t_builders t !! i = None.
Definition apart (x : Tables * gset (Z * Z)) : Prop :=
  unbuilt (fst x) ∧
  ∀ j server, (j, server) ∈ snd x → holds (t_world (fst x)) j server ∧ busy (fst x) server = false.

Lemma holds_running w j server : holds w j server → cleanup_running w server = true.
Proof. intros (x & Hx & Ht & Ha & Hp). apply bool_decide_eq_true. by exists j, x. Qed.
Lemma busy_false t server :
  busy t server = false ↔
  ∀ i d, w_deployments (t_world t) !! i = Some d → uses t server i d → under_way (d_status d) = false.
Proof.
  unfold busy. rewrite bool_decide_eq_false. split.
  - intros Hn i d Hd Hu. destruct (under_way _) eqn:E; [|done]. destruct Hn. by exists i, d.
  - intros Hf (i & d & Hd & Hu & Hs). by rewrite (Hf i d) in Hs.
Qed.

(** A status written to a deployment leaves the server free when the deployment
    does not use it, or is not made active by it. *)
Lemma write_status_free t server i st d :
  w_deployments (t_world t) !! i = Some d → (uses t server i d → under_way st = false) →
  busy t server = false → busy (set_world t (write_status i st (t_world t))) server = false.
Proof.
  rewrite !busy_false. intros Hd Hst Hb i' d' Hd' Hu. simpl in Hd'.
  destruct (decide (i = i')) as [<-|Hne].
  - rewrite lookup_alter_eq, Hd in Hd'. injection Hd' as <-. by apply Hst.
  - rewrite lookup_alter_ne in Hd' by done. by apply (Hb i').
Qed.
Lemma write_status_unbuilt t i st : st ≠ SQueued → unbuilt t → unbuilt (set_world t (write_status i st (t_world t))).
Proof.
  intros Hst Hu i' d Hd Hq. simpl in *. destruct (decide (i = i')) as [<-|Hne].
  - rewrite lookup_alter_eq in Hd. apply fmap_Some in Hd as (d0 & _ & ->). done.
  - rewrite lookup_alter_ne in Hd by done. by apply (Hu i' d).
Qed.

Lemma apart_status t cl i st d :
  w_deployments (t_world t) !! i = Some d → st ≠ SQueued →
  (∀ server, busy t server = false → cleanup_running (t_world t) server = true →
     uses t server i d → under_way st = false) →
  apart (t, cl) → apart (set_world t (write_status i st (t_world t)), cl).
Proof.
  intros Hd Hst Hn [Hu Ha]. split; [by apply write_status_unbuilt|]. intros j server Hin.
  destruct (Ha j server Hin) as [Hh Hb]. split; [done|]. eapply write_status_free; [done| |done].
  eapply Hn; [done|by eapply holds_running].
Qed.

Lemma apart_create t cl i d next :
  t_builders t !! i = None → d_status d = SQueued → apart (t, cl) →
  apart (set_world t (set_deployments (t_world t) (<[ i := d ]> (w_deployments (t_world t))) next), cl).
Proof.
  intros Hbi Hd [Hu Ha]. split.
  - intros i' d' Hi' Hq. simpl in *. destruct (decide (i = i')) as [<-|Hne]; [done|].
    rewrite lookup_insert_ne in Hi' by done. by apply (Hu i' d').
  - intros j server Hin. destruct (Ha j server Hin) as [Hh Hb]. split; [done|].
    simpl in *. rewrite busy_false in *. intros i' d' Hi' Hus. simpl in *. destruct (decide (i = i')) as [<-|Hne].
    + rewrite lookup_insert_eq in Hi'. injection Hi' as <-. unfold under_way. by rewrite Hd.
    + rewrite lookup_insert_ne in Hi' by done. by apply (Hb i').
Qed.

Lemma apart_start t cl i : apart (t, cl) → apart (set_world t (fst (StartDeployment i (t_world t))), cl).
Proof.
  intros Hap. unfold StartDeployment.
  destruct (w_deployments (t_world t) !! i) as [d|] eqn:Hd; [|by destruct t].
  destruct (bool_decide (d_status d = SQueued)) eqn:Hq; simpl; [|by destruct t].
  destruct (cleanup_running (t_world t) (d_server d)) eqn:Hr; simpl; [by destruct t|].
  apply bool_decide_eq_true in Hq. eapply apart_status; [done|done| |done].
  intros server _ Hc [<-|Hb]; [congruence|]. pose proof (proj1 Hap i d Hd Hq) as Hn. simpl in Hn. congruence.
Qed.

Lemma apart_reserve t cl i server d :
  w_deployments (t_world t) !! i = Some d → under_way (d_status d) = true → apart (t, cl) →
  apart (fst (AssignBuilder i server t), cl).
Proof.
  intros Hd Hu [Hub Ha]. unfold AssignBuilder.
  destruct (cleanup_running (t_world t) server) eqn:Hr; simpl; [by split|].
  rewrite bool_decide_eq_true_2 by (by exists d). simpl. split.
  - intros i' d' Hi' Hq. simpl in *. destruct (decide (i = i')) as [<-|Hne].
    + rewrite Hd in Hi'. injection Hi' as <-. unfold under_way in Hu. by rewrite Hq in Hu.
    + rewrite lookup_insert_ne by done. by apply (Hub i' d').
  - intros j server' Hin. destruct (Ha j server' Hin) as [Hh Hb]. split; [done|].
    simpl in *. rewrite busy_false in *. intros i' d' Hi' [Hus|Hus]; simpl in *; [by apply (Hb i'); [|left]|].
    destruct (decide (i = i')) as [<-|Hne].
    + rewrite lookup_insert_eq in Hus. injection Hus as <-. apply holds_running in Hh. congruence.
    + rewrite lookup_insert_ne in Hus by done. by apply (Hb i'); [|right].
Qed.

Lemma apart_step x y : guard_step x y → apart x → apart y.
Proof.
  destruct 1 as [t cl i d next Hi Hbi Hd|t cl i|t cl i server d Hd Hu|t cl i d st Hd Hst Hact|t cl db ps Hq
    |t t' cl H1 H2 H3 H4|t cl j server Hh Hc|t cl x]; intros Hap.
  - by apply apart_create.
  - by apply apart_start.
  - by eapply apart_reserve.
  - eapply apart_status; [done|done| |done]. intros server Hb _ Hus. rewrite busy_false in Hb.
    specialize (Hb i d Hd Hus). destruct (under_way st); [|done]. by rewrite Hact in Hb.
  - destruct Hap as [Hu Ha]. split; [done|]. intros j server Hin. split; [by apply Hq|]. by apply (Ha j).
  - destruct Hap as [Hu Ha]. split; [by intros i d; simpl; rewrite H1, H2; apply Hu|].
    intros j server Hin. destruct (Ha j server Hin) as [Hh Hb]. simpl in *. rewrite busy_false in *.
    unfold holds, uses in *. by rewrite H1, H2, H3, H4.
  - destruct Hap as [Hu Ha]. split; [done|]. simpl in *. intros j' server' [[= -> ->]%elem_of_singleton|Hin]%elem_of_union; [|by apply Ha].
    split; [done|]. unfold can_start in Hc. case_decide; [|done]. injection Hc as Hc. simpl. by destruct (busy t server).
  - destruct Hap as [Hu Ha]. split; [done|]. simpl in *. intros j' server' [Hin _]%elem_of_difference. by apply Ha.
Qed.

(** C13: in every sequence of statements of deployments, cleanups, the queue and
    everybody else, each taking effect at once, a server on which a cleanup is
    between its guard and its end has no deployment under way: none deploys to it
    and none builds on it.  (Rows start without a build server, and a cleanup's
    lease outlives it.) *)
Theorem cleanup_excludes_deployments t0 t cl :
  unbuilt t0 → rtc guard_step (t0, ∅) (t, cl) →
  ∀ j server i d, (j, server) ∈ cl → w_deployments (t_world t) !! i = Some d →
    d_server d = server ∨ t_builders t !! i = Some server → under_way (d_status d) = false.
Proof.
  intros H0 Hr j server i d Hin Hd Hu.
  assert (apart (t, cl)) as [_ Ha].
  { remember (t0, ∅) as x eqn:Hx. remember (t, cl) as y eqn:Hy. assert (apart x) as Hap by (subst x; split; [done|set_solver]).
    clear -Hr Hap. induction Hr as [|x y z Hs Hr IH]; [done|]. by eapply IH, apart_step. }
  destruct (Ha j server Hin) as [_ Hb]. rewrite busy_false in Hb. by apply (Hb i).
Qed.

(** ** Examples *)

(** Server 1 with a cleanup whose job is leased (or still queued), and the queued
    deployment of [DeployRun.Shop]. *)
Definition cleanup_job (st : JobStatus) : Job :=
  mkJob 5 "cleanup" "server.cleanup" 0 5 None (Some "server:cleanup:s1") st 0 1 0 None None None None None None None.
Definition cleanup_tables (deployment : DeploymentStatus) (job : JobStatus) : Tables :=
  set_world (Shop.tables deployment)
    (mkWorld 0 (λ _, "") (mkDB {[ 5 := cleanup_job job ]} 6) {[ 5 := PServerCleanup 1 ]} ∅ ∅
       {[ 1 := mkServer 5 None ]} ∅ ∅ ∅ ∅ 1 {[ 7 := Shop.row deployment ]} 8 ∅ 1 ∅ ∅ ∅).

Lemma cleanup_excludes_deployments_witness :
  rtc guard_step (cleanup_tables SQueued Leased, ∅)
    (set_world (cleanup_tables SQueued Leased) (fst (StartDeployment 7 (t_world (cleanup_tables SQueued Leased)))), {[ (5, 1) ]}) ∧
  under_way SQueued = false.
Proof.
  assert (rtc guard_step (cleanup_tables SQueued Leased, ∅)
    (set_world (cleanup_tables SQueued Leased) (fst (StartDeployment 7 (t_world (cleanup_tables SQueued Leased)))), {[ (5, 1) ]})) as Hr.
  { eapply rtc_l; [apply (g_clean _ _ 5 1)|].
    - by exists (cleanup_job Leased).
    - by vm_compute.
    - rewrite union_empty_r_L. apply rtc_once. apply g_start. }
  split; [exact Hr|].
  apply (cleanup_excludes_deployments _ _ _ (λ i d _ _, lookup_empty i) Hr 5 1 7 (Shop.row SQueued));
    [by apply elem_of_singleton|by vm_compute|by left].
Defined.

(** The two guards look at each other's rows as their own statement saw them when
    it began: PostgreSQL takes the snapshot of a statement before it waits for the
    lock of the server's row.  When the statements overlap, the deployment starts
    on what it saw before the job was leased, the cleanup on what it saw before
    the deployment started, and both go on. *)
Lemma overlapping_guards_both_pass :
  snd (StartDeployment 7 (t_world (cleanup_tables SQueued Queued))) = true ∧
  can_start (cleanup_tables SQueued Leased) 1 = inr true ∧
  (** one after the other, in either order, one of them waits *)
  can_start (cleanup_tables SPreparing Leased) 1 = inr false ∧
  snd (StartDeployment 7 (t_world (cleanup_tables SQueued Leased))) = false.
Proof. by vm_compute. Qed.

(** A server with an image and a network of the destroyed preview "gone", and those of
    "pr-1", which sleeps, and of the resource "shop". *)
Definition object (id : string) (labels : list (string * string)) : Summary :=
  mkSummary id id (list_to_map (("akerdock.managed", "true") :: labels)).
Definition of_preview (id u : string) : Summary := object id [(preview_label, u)].
Definition full_reply {A} (c : call A) : answer A :=
  match c in call A return answer A with
  | ImageList _ => Answer [of_preview "image-1" "pr-1"; of_preview "image-2" "gone"]
  | VolumeList _ => Answer [of_preview "volume-1" "pr-1"; of_preview "volume-2" "gone"]
  | NetworkList _ => Answer [object "net-0" []; object "net-1" [("akerdock.resource_uuid", "shop")];
                             of_preview "net-2" "gone"; of_preview "net-3" "pr-1"]
  | ContainerList _ => Answer [object "shop-next" [("akerdock.resource_uuid", "shop")];
                               object "shop" [("akerdock.resource_uuid", "shop")]]
  | Inspect _ | Wait _ => NotFound
  | ImageInspect _ _ => NotFound
  | Info => Answer "/var/lib/docker"
  | Run _ _ | RunInput _ _ _ | Exec _ _ => Answer ("42", 0)
  | Create _ _ _ | Start _ | Stop _ | Remove _ _ | Rename _ _ | ImagePull _ | ImageRemove _ | VolumeRemove _
  | NetworkRemove _ | WriteFile _ _ | RemoveFile _ | Other _ _ => Answer ()
  end.
Definition full : Surroundings := {| outside := (); reply := λ A c o, (o, full_reply c); others := λ o t, (o, t) |}.
Definition known_uuid (s : string) : option string := if decide (s = "") then None else Some s.
Definition sleeping : Preview :=
  mkPreview 1 "pr-1" 3 "github" 12 None None false None None PSleeping None None None None 0 None None None None.
Definition full_tables : Tables :=
  let t := cleanup_tables SSucceeded Leased in
  mkTables (set_previews (t_world t) {[ 1 := sleeping ]} 2) [] [] ∅ {[ "shop" ]}.
Definition full_site : @Site full := @mkSite full () full_tables Shop.memory [].
Definition everything : Cleanup := mkCleanup 1 "s1" "manual" None true true 5 None 5.

(** The objects removed, the latest first. *)
Definition removed (l : list event) : list string :=
  omap (λ e, match e with
             | Called (ImageRemove i) _ | Called (VolumeRemove i) _ | Called (NetworkRemove i) _
             | Called (Remove i _) _ => Some i
             | _ => None
             end) l.

Lemma cleanup_spares_the_living_witness :
  wp (Execute (H := full) known_uuid everything) (λ _ s', permitted (may "pr-1") (s_log s')) full_site ∧
  fst (eval (Execute (H := full) known_uuid everything) full_site) = inr (Completed 42 42) ∧
  removed (s_log (snd (eval (Execute (H := full) known_uuid everything) full_site)))
  = ["net-2"; "volume-2"; "image-2"; "shop-next"].
Proof.
  split; [|by vm_compute].
  apply (@cleanup_spares_the_living full known_uuid "pr-1" AsPreview);
    [done|done|by intros| |done]. exists 1, sleeping. by vm_compute.
Defined.

(** The container that serves after a cancelled switch has the name of a dead
    candidate ([DeployCases.resumed_switch_is_cancelled]): the next cleanup
    removes it, and the application has no container. *)
Definition after_cancelled_switch : @Site alone :=
  let s := snd (next_attempt (cancel_asked (site_after (dies_at 71)))) in
  let d := s_out s : Daemon in
  @mkSite alone (mkDaemon (dm_boxes d) (dm_files d) (dm_health d) (dm_ip d) (λ _, ("42", 0)))
    (set_world (s_tables s) (t_world (cleanup_tables SCancelled Leased))) (s_memory s) [].
Lemma cleanup_removes_the_serving_candidate :
  d_status <$> w_deployments (t_world (s_tables (snd (next_attempt (cancel_asked (site_after (dies_at 71))))))) !! 7 = Some SCancelled ∧
  containers after_cancelled_switch = [("shop-next", "shop:2", "running")] ∧
  fst (eval (Execute (H := alone) known_uuid everything) after_cancelled_switch) = inr (Completed 42 42) ∧
  containers (snd (eval (Execute (H := alone) known_uuid everything) after_cancelled_switch)) = [].
Proof. by vm_compute. Qed.
