(* ===== verification/Envelope.v ===== *)
(** * Secrets at rest

    The master key file and the envelope of every encrypted column
    ([internal/envelope]), and the job that moves the columns to a new key
    ([internal/jobs/encryptionrotate.go]) with the SQL functions it calls
    (migration 00093).  AES-GCM is a parameter ([Aead]); of it the theorems use
    that opening undoes sealing. *)
From S2P Require Import Prelude GoLib Effects.
Local Open Scope Z_scope.

(** ** The key file *)

(** [Keyring] *)
Record Keyring := mkKeyring { keys : gmap Z (list Z); active : Z }.
Definition keySize : nat := 32.

(** [base64.StdEncoding.DecodeString], of the characters the pattern lets through *)
Definition base64_value (a : ascii) : option Z :=
  let v := byte_val a in
  if (65 <=? v) && (v <=? 90) then Some (v - 65)
  else if (97 <=? v) && (v <=? 122) then Some (v - 71)
  else if (48 <=? v) && (v <=? 57) then Some (v + 4)
  else if v =? 43 then Some 62 else if v =? 47 then Some 63 else None.
Definition pad : ascii := "=".
Fixpoint base64_decode (l : list ascii) : option (list Z) :=
  match l with
  | [] => Some []
  | a :: b :: c :: d :: l' =>
      x ← base64_value a; y ← base64_value b;
      if decide (c = pad) then (if decide (d = pad ∧ l' = []) then Some [x * 4 + y / 16] else None)
      else
        z ← base64_value c;
        if decide (d = pad) then (if decide (l' = []) then Some [x * 4 + y / 16; (y `mod` 16) * 16 + z / 4] else None)
        else
          w ← base64_value d;
          rest ← base64_decode l';
          Some ([x * 4 + y / 16; (y `mod` 16) * 16 + z / 4; (z `mod` 4) * 64 + w] ++ rest)
  | _ => None
  end.

(** [keyLine]: a version without leading zero, a colon, base64 characters and at
    most two signs of padding *)
Definition decimal (s : string) : bool :=
  match s with
  | String a _ => negb (bool_decide (a = "0"%char)) && bool_decide (is_Some (unsigned s))
  | EmptyString => false
  end.
Fixpoint base64_text (l : list ascii) : bool :=
  match l with
  | [] => true
  | [a] => bool_decide (is_Some (base64_value a)) || bool_decide (a = pad)
  | [a; b] => (bool_decide (is_Some (base64_value a)) && (bool_decide (is_Some (base64_value b)) || bool_decide (b = pad)))
              || (bool_decide (a = pad) && bool_decide (b = pad))
  | a :: l' => bool_decide (is_Some (base64_value a)) && base64_text l'
  end.
Definition keyLine (line : string) : option (string * list ascii) :=
  '(version, key) ← cut ":" line;
  let l := String.list_ascii_of_string key in
  if decimal version && bool_decide (is_Some (head l ≫= base64_value)) && base64_text l
  then Some (version, l) else None.

(** The errors of a line *)
Inductive line_error := Malformed | VersionRange | DuplicateVersion (v : Z) | InvalidBase64 | KeyLength (n : nat).
Inductive key_error := AtLine (n : nat) (e : line_error) | LineTooLong | NoKey.

Definition parse_line (k : Keyring) (line : string) : line_error + Keyring :=
  match keyLine line with
  | None => inl Malformed
  | Some (digits, text) =>
      match unsigned digits with
      | None => inl VersionRange
      | Some v =>
          if decide (2 ^ 32 <= v) then inl VersionRange
          else if decide (is_Some (keys k !! v)) then inl (DuplicateVersion v)
          else match base64_decode text with
          | None => inl InvalidBase64
          | Some key =>
              if decide (length key = keySize)
              then inr (mkKeyring (<[ v := key ]> (keys k)) (if decide (active k < v) then v else active k))
              else inl (KeyLength (length key))
          end
      end
  end.

(** [bufio.ScanLines] within its buffer of 64 KiB; a carriage return that ends a
    line is dropped *)
Definition newline : ascii := "010".
Definition carriage_return : ascii := "013".
Fixpoint drop_cr (s : string) : string :=
  match s with
  | EmptyString => EmptyString
  | String a EmptyString => if decide (a = carriage_return) then EmptyString else s
  | String a s' => String a (drop_cr s')
  end.
Definition skipped (line : string) : bool :=
  match line with EmptyString => true | String a _ => bool_decide (a = "#"%char) end.
Fixpoint parse_lines (n : nat) (k : Keyring) (lines : list string) : key_error + Keyring :=
  match lines with
  | [] => inr k
  | raw :: lines' =>
      if decide (65536 <= Z.of_nat (String.length raw)) then inl LineTooLong
      else
        let line := drop_cr raw in
        if skipped line then parse_lines (S n) k lines'
        else match parse_line k line with
             | inl e => inl (AtLine n e)
             | inr k' => parse_lines (S n) k' lines'
             end
  end.

(** [Parse] *)
Definition Parse (data : string) : key_error + Keyring :=
  match parse_lines 1 (mkKeyring ∅ 0) (split newline data) with
  | inl e => inl e
  | inr k => if decide (keys k = ∅) then inl NoKey else inr k
  end.

(** [LoadFile]: the permissions and the content of the file, when it can be read;
    the answer says whether there is a warning *)
Inductive load_error := NoFile | OtherMayAccess | Unreadable | BadFile (e : key_error).
Definition LoadFile (perm : option Z) (data : option string) : load_error + Keyring * bool :=
  match perm with
  | None => inl NoFile
  | Some p =>
      if negb (Z.land p 6 =? 0) then inl OtherMayAccess
      else match data with
           | None => inl Unreadable
           | Some d => match Parse d with
                       | inl e => inl (BadFile e)
                       | inr k => inr (k, negb (p =? 384))
                       end
           end
  end.

(** ** Envelopes *)

Class Aead := {
  seal : list Z → list Z → list Z → list Z → list Z; (** key, nonce, plaintext, additional data *)
  open : list Z → list Z → list Z → list Z → option (list Z)
}.
Class AeadLaws (A : Aead) := { open_seal : ∀ key nonce p a, open key nonce (seal key nonce p a) a = Some p }.

Definition nonceSize : nat := 12.
Definition aad (table column rowUUID : string) : list Z := bytes_of (table +:+ column +:+ rowUUID).

Inductive envelope_error := BadKey | NoNonce | TooShort (n : nat) | MissingVersion (v : Z) | OpenFailed (v : Z).

(** [gcm]: AES takes keys of 16, 24 or 32 bytes *)
Definition gcm (k : Keyring) (version : Z) : option (list Z) :=
  let key := default [] (keys k !! version) in
  if decide (length key ∈ [16; 24; 32]%nat) then Some key else None.

Section Envelope.
Context `{Aead}.

(** [Encrypt]; [None] when the source of randomness fails *)
Definition Encrypt (k : Keyring) (table column rowUUID : string) (nonce : option (list Z)) (p : list Z)
  : envelope_error + list Z :=
  match gcm k (active k), nonce with
  | None, _ => inl BadKey
  | _, None => inl NoNonce
  | Some key, Some n => inr (be_bytes 4 (active k) ++ n ++ seal key n p (aad table column rowUUID))
  end.

(** The version an envelope was sealed under *)
Definition key_version (c : list Z) : Z := be_value (take 4 c).

(** [Decrypt] *)
Definition Decrypt (k : Keyring) (table column rowUUID : string) (c : list Z) : envelope_error + list Z :=
  if decide (length c < 4 + nonceSize)%nat then inl (TooShort (length c))
  else
    let version := key_version c in
    match keys k !! version with
    | None => inl (MissingVersion version)
    | Some _ =>
        match gcm k version with
        | None => inl BadKey
        | Some key =>
            match open key (take nonceSize (drop 4 c)) (drop (4 + nonceSize) c) (aad table column rowUUID) with
            | None => inl (OpenFailed version)
            | Some p => inr p
            end
        end
    end.

(** [SelfTest] *)
Definition self_test_text : list Z := bytes_of "akerdock master key self-test".
Definition nil_uuid : string := "00000000-0000-0000-0000-000000000000".
Definition SelfTest (k : Keyring) (nonce : option (list Z)) : bool :=
  match Encrypt k "selftest" "selftest" nil_uuid nonce self_test_text with
  | inl _ => false
  | inr c => match Decrypt k "selftest" "selftest" nil_uuid c with
             | inr p => bool_decide (p = self_test_text)
             | inl _ => false
             end
  end.
End Envelope.

(** ** Rotation *)

(** A column is its table and its name; a row has the identity bound into its
    envelopes and, in the column, an envelope or NULL. *)
Definition Column : Type := string * string.
Record Row := mkRow { row_aad : string; row_value : option (list Z) }.
Abbreviation Rows := (gmap (Column * Z) Row).

(** The encrypted columns of the schema, the rows, the nonces to be drawn, and what
    the rest of the program does to the rows before each statement to come. *)
Record Vault := mkVault {
  v_columns : list Column; v_rows : Rows; v_nonces : nat → list Z; v_drawn : nat; v_edits : list (Rows → Rows)
}.
Definition set_rows (v : Vault) (m : Rows) : Vault :=
  mkVault (v_columns v) m (v_nonces v) (v_drawn v) (v_edits v).
Definition edited (v : Vault) : Vault :=
  match v_edits v with
  | [] => v
  | f :: fs => mkVault (v_columns v) (f (v_rows v)) (v_nonces v) (v_drawn v) fs
  end.
Definition db {A} (f : Vault → Vault * (err + A)) : M Vault A := stmt (λ v, f (edited v)).

Record Candidate := mkCandidate { ca_id : Z; ca_aad : string; ca_value : list Z }.

(** The version as the SQL functions compute it, in the 32 bits of an [int] *)
Definition sql_version (c : list Z) : Z := wrap32 (key_version c).
Definition stale (active : Z) (row : Row) : bool :=
  match row_value row with Some c => negb (sql_version c =? active) | None => false end.
Definition candidate_at (kv : (Column * Z) * Row) : option Candidate :=
  mkCandidate (snd (fst kv)) (row_aad (snd kv)) <$> row_value (snd kv).
Definition sooner (x y : (Column * Z) * Row) : Prop := snd (fst x) <= snd (fst y).
#[export] Instance sooner_dec x y : Decision (sooner x y).
Proof. unfold sooner. apply _. Defined.
Definition stale_rows (col : Column) (active : Z) (m : Rows) : list ((Column * Z) * Row) :=
  merge_sort sooner (filter (λ kv, fst (fst kv) = col ∧ stale active (snd kv) = true) (map_to_list m)).

(** A value of fewer than four bytes has no version: [get_byte] fails *)
Definition unversioned (col : Column) (m : Rows) : bool :=
  bool_decide (map_Exists (λ k row, fst k = col ∧ (length (default [0; 0; 0; 0]%Z (row_value row)) < 4)%nat) m).

(** [encryption_inventory_json], [encryption_rotation_candidates],
    [encryption_rotation_apply] *)
Definition ListEncryptedColumns : M Vault (list Column) := db (λ v, (v, inr (v_columns v))).
Definition EncryptionRotationCandidates (col : Column) (active : Z) (limit : nat) : M Vault (list Candidate) :=
  db (λ v, (v, if decide (col ∈ v_columns v) then
                 if unversioned col (v_rows v) then inl Broken
                 else inr (omap candidate_at (take limit (stale_rows col active (v_rows v))))
               else inl Broken)).
Definition write_value (col : Column) (id : Z) (value : list Z) (m : Rows) : Rows :=
  alter (λ r, mkRow (row_aad r) (Some value)) (col, id) m.
Definition EncryptionRotationApply (col : Column) (id : Z) (value : list Z) : M Vault bool :=
  db (λ v, if decide (col ∈ v_columns v)
           then (set_rows v (write_value col id value (v_rows v)), inr (bool_decide (is_Some (v_rows v !! (col, id)))))
           else (v, inl Broken)).

(** Twelve bytes from the source of randomness *)
Definition draw_nonce : M Vault (list Z) :=
  stmt (λ v, (mkVault (v_columns v) (v_rows v) (v_nonces v) (S (v_drawn v)) (v_edits v), inr (v_nonces v (v_drawn v)))).

Section Rotation.
Context `{Aead} (k : Keyring).

(** [rewrite] *)
Definition rewritten (col : Column) (rowAAD : string) (c : list Z) : M Vault (list Z) :=
  match Decrypt k (fst col) (snd col) rowAAD c with
  | inl _ => throw (Failure "decryption")
  | inr p =>
      nonce ← attempt draw_nonce;
      match Encrypt k (fst col) (snd col) rowAAD (match nonce with inr n => Some n | inl _ => None end) p with
      | inl _ => throw (Failure "encryption")
      | inr enc => mret enc
      end
  end.

(** One batch: how many rows were written *)
Fixpoint rotate_rows (col : Column) (rows : list Candidate) : M Vault Z :=
  match rows with
  | [] => mret 0
  | row :: rows' =>
      enc ← rewritten col (ca_aad row) (ca_value row);
      n ← EncryptionRotationApply col (ca_id row) enc;
      written ← rotate_rows col rows';
      mret (if (n : bool) then written + 1 else written)
  end.

(** [rotateColumn]; the fuel is the number of batches *)
Definition rotateBatch : nat := 200.
Definition out_of_fuel : err := Failure "out of fuel".
Fixpoint rotateColumn (fuel : nat) (col : Column) : M Vault Z :=
  match fuel with
  | O => throw out_of_fuel
  | S fuel' =>
      rows ← EncryptionRotationCandidates col (wrap32 (active k)) rotateBatch;
      match rows with
      | [] => mret 0
      | _ =>
          written ← rotate_rows col rows;
          if decide (written = 0) then throw (Failure "candidate rows could not be rewritten")
          else rest ← rotateColumn fuel' col; mret (written + rest)
      end
  end.

(** [Execute]: the version, the columns covered, the rows re-encrypted *)
Fixpoint rotate_columns (fuel : nat) (cols : list Column) : M Vault Z :=
  match cols with
  | [] => mret 0
  | col :: cols' =>
      _ ← ignore fallible; (** the step recorder *)
      n ← rotateColumn fuel col;
      _ ← ignore fallible;
      total ← rotate_columns fuel cols';
      mret (n + total)
  end.
Definition Execute (fuel : nat) : M Vault (Z * nat * Z) :=
  cols ← ListEncryptedColumns;
  match cols with
  | [] => throw (Failure "the encryption inventory came back empty")
  | _ => total ← rotate_columns fuel cols; mret (wrap32 (active k), length cols, total)
  end.
End Rotation.

(** ** The key file *)

(** What [Parse] establishes: at least one key, each of 32 bytes under a version of
    32 bits, and the highest of the versions active. *)
Record keyring_ok (k : Keyring) : Prop := mkKeyringOk {
  ok_active : is_Some (keys k !! active k);
  ok_highest : ∀ v key, keys k !! v = Some key → v <= active k;
  ok_keys : ∀ v key, keys k !! v = Some key → length key = keySize ∧ 0 < v < 2 ^ 32
}.
(** The same of the keys read so far. *)
Definition so_far (k : Keyring) : Prop := (keys k = ∅ ∧ active k = 0) ∨ keyring_ok k.

Lemma digits_ge acc s v : 0 <= acc → digits acc s = Some v → acc <= v.
Proof.
  revert acc. induction s as [|a s IH]; intros acc Ha; simpl; [by intros [= <-]|].
  unfold digit. destruct (_ && _) eqn:E; simpl; [|done]. reflect_bools.
  intros Hd%IH; lia.
Qed.
Lemma decimal_positive s v : decimal s = true → unsigned s = Some v → 0 < v.
Proof.
  destruct s as [|a s]; [done|]. unfold decimal, unsigned. intros [Ha _]%andb_true_iff. simpl.
  unfold digit. destruct (_ && _) eqn:E; simpl; [|done]. intros Hd%digits_ge; [|reflect_bools; lia].
  assert (byte_val a ≠ 48) as Hne.
  { intros H48. rewrite negb_true_iff, bool_decide_eq_false in Ha. apply Ha.
    unfold byte_val in H48. rewrite <- (ascii_N_embedding a). by replace (N_of_ascii a) with 48%N by lia. }
  reflect_bools. lia.
Qed.

Lemma parse_line_so_far k line k' : parse_line k line = inr k' → so_far k → keyring_ok k'.
Proof.
  unfold parse_line, keyLine. destruct (cut ":" line) as [[version key]|]; simpl; [|done].
  destruct (decimal version && _ && _) eqn:E; simpl; [|done].
  apply andb_true_iff in E as [[Hdec _]%andb_true_iff _].
  destruct (unsigned version) as [v|] eqn:Hv; [|done]. pose proof (decimal_positive _ _ Hdec Hv) as Hpos.
  case_decide; [done|]. case_decide as Hdup; [done|]. destruct (base64_decode _) as [b|]; [|done].
  case_decide as Hlen; [|done]. intros [= <-] Hk.
  assert (∀ v' key', keys k !! v' = Some key' → v' <= active k ∧ length key' = keySize ∧ 0 < v' < 2 ^ 32) as Hold.
  { intros v' key' Hk'. destruct Hk as [[He _]|[_ H1 H2]]; [by rewrite He in Hk'|]. eauto. }
  split; simpl.
  - case_decide; [by rewrite lookup_insert_eq|]. destruct Hk as [[_ Ha]|[Ha _ _]]; [lia|].
    destruct (decide (v = active k)) as [->|Hne]; [by rewrite lookup_insert_eq|by rewrite lookup_insert_ne].
  - intros v' key' [[<- <-]|[Hne Hk']]%lookup_insert_Some; [case_decide; lia|].
    apply Hold in Hk' as [Hle _]. case_decide; lia.
  - intros v' key' [[<- <-]|[Hne Hk']]%lookup_insert_Some; [lia|]. by apply Hold in Hk' as [_ Hk'].
Qed.

Lemma parse_lines_so_far lines n k k' : parse_lines n k lines = inr k' → so_far k → so_far k'.
Proof.
  revert n k. induction lines as [|raw lines IH]; intros n k; simpl; [by intros [= <-]|].
  case_decide; [done|]. destruct (skipped _); [by eauto|]. destruct (parse_line k _) as [e|k1] eqn:Hl; [done|].
  intros Hp Hk. eapply IH; [done|]. right. by eapply parse_line_so_far.
Qed.

Lemma Parse_ok data k : Parse data = inr k → keyring_ok k.
Proof.
  unfold Parse. destruct (parse_lines _ _ _) as [e|k'] eqn:Hp; [done|]. case_decide; [done|]. intros [= ->].
  apply parse_lines_so_far in Hp as [[He _]|Hk]; [done..|]. by left.
Qed.

(** ** Envelopes *)

Section Envelopes.
Context `{AeadLaws}.

Lemma key_version_envelope v rest : 0 <= v < 2 ^ 32 → key_version (be_bytes 4 v ++ rest) = v.
Proof.
  intros Hv. unfold key_version. rewrite take_app_length' by (unfold be_bytes; by rewrite pos_digits_length).
  unfold be_value, be_bytes. rewrite pos_value_digits by lia. rewrite Z.mod_small; [done|]. simpl. lia.
Qed.

Lemma ok_range k : keyring_ok k → 0 < active k < 2 ^ 32.
Proof. intros [[key Ha] _ Hk]. by apply Hk in Ha as [_ Ha]. Qed.

(** What is sealed under a good keyring opens under every keyring that has the same
    active key. *)
Lemma Encrypt_Decrypt k table column row nonce p :
  keyring_ok k → length nonce = nonceSize →
  ∃ c, Encrypt k table column row (Some nonce) p = inr c ∧ key_version c = active k ∧
    (16 <= length c)%nat ∧ Forall is_byte (take 4 c) ∧
    (∀ k', keys k' !! active k = keys k !! active k → Decrypt k' table column row c = inr p) ∧
    (∀ k', keys k' !! active k = None → Decrypt k' table column row c = inl (MissingVersion (active k))).
Proof.
  intros Hk Hn. pose proof (ok_range k Hk) as Hr. destruct Hk as [[key Ha] _ Hk]. destruct (Hk _ _ Ha) as [Hlen _].
  assert (∀ k', keys k' !! active k = keys k !! active k → gcm k' (active k) = Some key) as Hg.
  { intros k' Hk'. unfold gcm. rewrite Hk', Ha. simpl. rewrite decide_True; [done|]. rewrite Hlen. set_solver. }
  unfold Encrypt. rewrite (Hg k eq_refl). eexists. split; [done|].
  set (c := be_bytes 4 (active k) ++ nonce ++ seal key nonce p (aad table column row)).
  assert (length (be_bytes 4 (active k)) = 4%nat) as H4 by apply pos_digits_length.
  assert (key_version c = active k) as Hv by (apply key_version_envelope; lia).
  assert (16 <= length c)%nat as Hc by (unfold c; rewrite !length_app, H4, Hn; unfold nonceSize; lia).
  assert (Forall is_byte (take 4 c)) as Hb.
  { unfold c. rewrite take_app_length' by done. by apply pos_digits_Forall. }
  split_and!; [done|done|done|..]; intros k' Hk'; unfold Decrypt; rewrite decide_False by (unfold nonceSize; lia);
    cbv zeta; rewrite Hv, Hk'; [|done].
  rewrite Ha, (Hg k' Hk'). unfold c.
  rewrite drop_app_length' by done. rewrite take_app_length' by done.
  rewrite <- drop_drop. rewrite (drop_app_length' (be_bytes _ _)) by done. rewrite drop_app_length' by done.
  by rewrite open_seal.
Qed.

(** C14: a key file that is accepted names at least one key, every one of 32
    bytes, and the highest version is the active one.  What is encrypted under it
    carries that version and is decrypted, unchanged and for the same table,
    column and row, under every later key file that still has this key, whatever
    keys were added and whichever is active then; under a file without it,
    decryption fails and names the missing version. *)
Theorem envelope_survives_rotation file k table column row nonce p :
  Parse file = inr k → length nonce = nonceSize →
  (∀ v key, keys k !! v = Some key → v <= active k ∧ length key = keySize) ∧
  ∃ c, Encrypt k table column row (Some nonce) p = inr c ∧ key_version c = active k ∧
    (∀ k', keys k' !! active k = keys k !! active k → Decrypt k' table column row c = inr p) ∧
    (∀ k', keys k' !! active k = None → Decrypt k' table column row c = inl (MissingVersion (active k))).
Proof.
  intros Hp%Parse_ok Hn. split.
  - intros v key Hv. split; [by eapply ok_highest|by eapply ok_keys].
  - destruct (Encrypt_Decrypt k table column row nonce p Hp Hn) as (c & H1 & H2 & _ & _ & H3 & H4). by exists c.
Qed.
End Envelopes.

(** ** Rotation *)

Section Rotating.
Context `{AeadLaws} (k : Keyring).
Hypothesis k_ok : keyring_ok k.

Definition reads (col : Column) (row : Row) : option (envelope_error + list Z) :=
  Decrypt k (fst col) (snd col) (row_aad row) <$> row_value row.

Let act := wrap32 (active k).

(** The version of a column of bytes. *)
Definition bytes4 (row : Row) : Prop := ∀ c, row_value row = Some c → Forall is_byte (take 4 c).

(** A row keeps its identity, a NULL stays one, a secret that can be read stays the
    same, and a value under the active key stays under it. *)
Record same_secret (col : Column) (r r' : Row) : Prop := mkSame {
  same_aad : row_aad r' = row_aad r;
  same_null : row_value r = None ↔ row_value r' = None;
  same_plain : ∀ p, reads col r = Some (inr p) → reads col r' = Some (inr p);
  same_fresh : stale act r = false → stale act r' = false;
  same_bytes : bytes4 r → bytes4 r'
}.
Record same_secrets (v v' : Vault) : Prop := mkSameAll {
  same_columns : v_columns v' = v_columns v;
  same_nonces : v_nonces v' = v_nonces v;
  same_quiet : v_edits v' = [];
  same_rows : ∀ key, option_relation (same_secret (fst key)) (λ _, False) (λ _, False) (v_rows v !! key) (v_rows v' !! key)
}.

Lemma same_secret_refl col r : same_secret col r r.
Proof. by constructor. Qed.
Lemma same_secrets_refl v : v_edits v = [] → same_secrets v v.
Proof. intros He. constructor; [done..|]. intros key. destruct (v_rows v !! key); [apply same_secret_refl|done]. Qed.
Lemma same_secrets_trans v1 v2 v3 : same_secrets v1 v2 → same_secrets v2 v3 → same_secrets v1 v3.
Proof.
  intros [C1 N1 E1 R1] [C2 N2 E2 R2]. constructor; [congruence|congruence|done|]. intros key.
  specialize (R1 key). specialize (R2 key).
  destruct (v_rows v1 !! key), (v_rows v2 !! key), (v_rows v3 !! key); simpl in *; try done.
  destruct R1 as [A1 B1 P1 S1 Y1], R2 as [A2 B2 P2 S2 Y2]. constructor; [congruence|by rewrite B1|auto..].
Qed.
Lemma same_secrets_lookup v v' key r :
  same_secrets v v' → v_rows v !! key = Some r → ∃ r', v_rows v' !! key = Some r' ∧ same_secret (fst key) r r'.
Proof.
  intros [_ _ _ HR] Hr. specialize (HR key). rewrite Hr in HR. destruct (v_rows v' !! key) as [r'|]; [by exists r'|done].
Qed.
Lemma same_secrets_rows v v' : v_columns v' = v_columns v → v_nonces v' = v_nonces v → v_edits v' = [] →
  v_rows v' = v_rows v → same_secrets v v'.
Proof.
  intros HC HN HE HR. constructor; [done..|]. intros key. rewrite HR.
  destruct (v_rows v !! key); [apply same_secret_refl|done].
Qed.

Lemma edited_quiet v : v_edits v = [] → edited v = v.
Proof. unfold edited. by intros ->. Qed.

(** *** One row *)

Lemma write_same col id row enc nonce p v :
  v_edits v = [] → v_rows v !! (col, id) = Some row → reads col row = Some (inr p) → length nonce = nonceSize →
  Encrypt k (fst col) (snd col) (row_aad row) (Some nonce) p = inr enc →
  same_secrets v (set_rows v (write_value col id enc (v_rows v))) ∧
  stale act (mkRow (row_aad row) (Some enc)) = false.
Proof.
  intros He Hr Hp Hn Hc.
  destruct (Encrypt_Decrypt k (fst col) (snd col) (row_aad row) nonce p k_ok Hn) as (c & Hc' & Hv & _ & Hb & Hd & _).
  rewrite Hc in Hc'. injection Hc' as <-.
  assert (stale act (mkRow (row_aad row) (Some enc)) = false) as Hs.
  { unfold stale, sql_version. simpl. rewrite Hv. unfold act. by rewrite Z.eqb_refl. }
  split; [|done]. constructor; [done..|]. intros key. simpl. unfold write_value.
  destruct (decide (key = (col, id))) as [->|Hne].
  - rewrite lookup_alter_eq, Hr. simpl. constructor; simpl; [done| | |done|].
    + unfold reads in Hp. by destruct (row_value row).
    + intros q Hq. rewrite Hp in Hq. injection Hq as <-. unfold reads. simpl. by rewrite Hd.
    + by intros _ c0 [= <-].
  - rewrite lookup_alter_ne by done. destruct (v_rows v !! key); [apply same_secret_refl|done].
Qed.

(** *** One batch *)

(** What the candidates of a batch are: rows of the column. *)
Definition row_of (v : Vault) (col : Column) (c : Candidate) : Prop :=
  v_rows v !! (col, ca_id c) = Some (mkRow (ca_aad c) (Some (ca_value c))).

Lemma rewritten_wp col ad c (Q : err + list Z → Vault → Prop) v :
  v_edits v = [] → (∀ n, length (v_nonces v n) = nonceSize) →
  (∀ v' e, same_secrets v v' → Q (inl e) v') →
  (∀ v' p nonce enc, same_secrets v v' → length nonce = nonceSize →
     Decrypt k (fst col) (snd col) ad c = inr p →
     Encrypt k (fst col) (snd col) ad (Some nonce) p = inr enc → Q (inr enc) v') →
  wp (rewritten k col ad c) Q v.
Proof.
  intros He Hn Hf Hs. unfold rewritten.
  destruct (Decrypt _ _ _ _ _) as [e|p]; [apply wp_throw, Hf; by apply same_secrets_refl|].
  apply wp_bind, wp_attempt, wp_stmt; simpl.
  1,2: destruct (Encrypt _ _ _ _ None p) eqn:E; [apply wp_throw, Hf; by apply same_secrets_rows|];
    unfold Encrypt in E; by destruct (gcm _ _).
  destruct (Encrypt k _ _ _ (Some _) p) eqn:E; [apply wp_throw, Hf; by apply same_secrets_rows|].
  apply wp_ret. eapply Hs; [by apply same_secrets_rows|apply Hn|done|done].
Qed.

Lemma Apply_wp col id enc (Q : err + bool → Vault → Prop) v :
  v_edits v = [] → Q (inl Broken) v →
  (∀ x, Q x (set_rows v (write_value col id enc (v_rows v)))) → wp (EncryptionRotationApply col id enc) Q v.
Proof.
  intros He Hb Hs. apply wp_stmt; [done|..]; rewrite edited_quiet by done; by case_decide.
Qed.

Lemma rotate_rows_same col rows v0 v :
  (∀ n, length (v_nonces v n) = nonceSize) → Forall (row_of v0 col) rows → same_secrets v0 v →
  wp (rotate_rows k col rows) (λ _ v', same_secrets v v') v.
Proof.
  revert v. induction rows as [|c rows IH]; intros v Hn Hrows Hv; simpl;
    [apply wp_ret, same_secrets_refl, Hv|].
  apply Forall_cons in Hrows as [Hc Hrows].
  apply wp_bind, rewritten_wp; [apply Hv|done|done|]. intros v1 p nonce enc H1 Hl Hd He.
  assert (same_secrets v0 v1) as H01 by (by eapply same_secrets_trans).
  destruct (same_secrets_lookup _ _ _ _ H01 Hc) as (row & Hrow & Hsame). simpl in Hsame.
  assert (same_secrets v1 (set_rows v1 (write_value col (ca_id c) enc (v_rows v1)))) as H2.
  { eapply write_same; [apply H1|done| |done|]; [|by rewrite (same_aad _ _ _ Hsame)].
    apply Hsame. unfold reads. simpl. by rewrite Hd. }
  assert (same_secrets v (set_rows v1 (write_value col (ca_id c) enc (v_rows v1)))) as H3 by (by eapply same_secrets_trans).
  apply wp_bind, Apply_wp; [apply H1|done|]. intros [e|n]; [done|].
  apply wp_bind. eapply wp_mono; [|apply IH; [|done|by eapply same_secrets_trans]].
  - intros [e|m] v' Hv'; [by eapply same_secrets_trans|]. apply wp_ret. by eapply same_secrets_trans.
  - by rewrite (same_nonces _ _ H3).
Qed.

(** *** Candidates *)

Lemma stale_rows_elem col a m kv :
  kv ∈ stale_rows col a m ↔ m !! fst kv = Some (snd kv) ∧ fst (fst kv) = col ∧ stale a (snd kv) = true.
Proof.
  unfold stale_rows. rewrite merge_sort_Permutation, list_elem_of_filter. destruct kv as [key row].
  rewrite elem_of_map_to_list. simpl. tauto.
Qed.

Definition batch (col : Column) (v : Vault) : list Candidate :=
  omap candidate_at (take rotateBatch (stale_rows col act (v_rows v))).
Lemma batch_rows col v :
  Forall (λ c, row_of v col c ∧ stale act (mkRow (ca_aad c) (Some (ca_value c))) = true) (batch col v).
Proof.
  apply Forall_forall. intros c Hc. apply list_elem_of_omap in Hc as ([[col' id] row] & Hin & Hc).
  assert ((col', id, row) ∈ stale_rows col act (v_rows v)) as (Hl & Hcol & Hst)%stale_rows_elem.
  { rewrite <- (take_drop rotateBatch). apply elem_of_app. by left. }
  simpl in *. subst col'. unfold candidate_at in Hc. simpl in Hc. destruct row as [ad [x|]]; [|done].
  by injection Hc as <-.
Qed.
Lemma batch_row_of col v : Forall (row_of v col) (batch col v).
Proof. eapply Forall_impl; [apply batch_rows|]. by intros c [Hc _]. Qed.
Lemma batch_nil col v : batch col v = [] → ∀ id row, v_rows v !! (col, id) = Some row → stale act row = false.
Proof.
  unfold batch. intros Hnil id row Hrow. destruct (stale act row) eqn:Hst; [|done].
  assert ((col, id, row) ∈ stale_rows col act (v_rows v)) as Hin by (by apply stale_rows_elem).
  destruct (stale_rows col act (v_rows v)) as [|[key' row'] rest] eqn:Hr; [by apply elem_of_nil in Hin|].
  assert ((key', row') ∈ stale_rows col act (v_rows v)) as (_ & _ & Hst')%stale_rows_elem by (rewrite Hr; by left).
  change rotateBatch with (S 199) in Hnil. rewrite firstn_cons in Hnil. simpl in Hnil, Hst'.
  unfold stale in Hst'. unfold candidate_at in Hnil. simpl in Hnil. by destruct (row_value row').
Qed.
Lemma Candidates_wp col (Q : err + list Candidate → Vault → Prop) v :
  v_edits v = [] → Q (inl Broken) v → Q (inr (batch col v)) v →
  wp (EncryptionRotationCandidates col act rotateBatch) Q v.
Proof.
  intros He Hb Hs. apply wp_stmt; [done|..]; rewrite edited_quiet by done; simpl; [done|].
  case_decide; [|done]. by destruct (unversioned _ _).
Qed.

(** *** A column, all columns *)

Definition settled (col : Column) (v : Vault) : Prop :=
  ∀ id row, v_rows v !! (col, id) = Some row → stale act row = false.
Lemma settled_same col v v' : same_secrets v v' → settled col v → settled col v'.
Proof.
  intros Hs Hc id row Hrow. pose proof (same_rows _ _ Hs (col, id)) as Hr. rewrite Hrow in Hr.
  destruct (v_rows v !! (col, id)) as [r|] eqn:E; [|done]. apply (same_fresh _ _ _ Hr). by eapply Hc.
Qed.

Lemma rotateColumn_wp fuel col v :
  v_edits v = [] → (∀ n, length (v_nonces v n) = nonceSize) →
  wp (rotateColumn k fuel col) (λ x v', same_secrets v v' ∧ if x is inr _ then settled col v' else True) v.
Proof.
  revert v. induction fuel as [|fuel IH]; intros v He Hn; simpl.
  { apply wp_throw. split; [by apply same_secrets_refl|done]. }
  apply wp_bind, Candidates_wp; [done|split; [by apply same_secrets_refl|done]|].
  pose proof (batch_row_of col v) as Hrows. pose proof (batch_nil col v) as Hnil.
  destruct (batch col v) as [|c rows]; [apply wp_ret; split; [by apply same_secrets_refl|exact (Hnil eq_refl)]|].
  apply wp_bind. eapply wp_mono; [|apply (rotate_rows_same _ _ v); [done|done|by apply same_secrets_refl]].
  intros [e|written] v1 H1; [done|]. case_decide; [by apply wp_throw|].
  apply wp_bind. eapply wp_mono; [|apply IH; [apply H1|by rewrite (same_nonces _ _ H1)]].
  intros [e|n] v2 [H2 Hset]; [|apply wp_ret]; (split; [by eapply same_secrets_trans|done]).
Qed.

Lemma rotate_columns_wp fuel cols v :
  v_edits v = [] → (∀ n, length (v_nonces v n) = nonceSize) →
  wp (rotate_columns k fuel cols)
    (λ x v', same_secrets v v' ∧ if x is inr _ then Forall (λ col, settled col v') cols else True) v.
Proof.
  revert v. induction cols as [|col cols IH]; intros v He Hn; simpl.
  { apply wp_ret. split; [by apply same_secrets_refl|done]. }
  apply wp_bind, wp_ignore, wp_query; (apply wp_bind; eapply wp_mono; [|by apply rotateColumn_wp]);
    (intros [e|n] v1 [H1 Hset]; [done|]); apply wp_bind, wp_ignore, wp_query; apply wp_bind;
    (eapply wp_mono; [|apply IH; [apply H1|by rewrite (same_nonces _ _ H1)]]);
    (intros [e|m] v2 [H2 Hall]; [|apply wp_ret]); (split; [by eapply same_secrets_trans|]); try done;
    constructor; try done; by eapply settled_same.
Qed.

(** A value that opens under this keyring and has the version of the active key
    opens under every keyring with the active key. *)
Lemma version_of_settled row c :
  stale act row = false → row_value row = Some c → Forall is_byte (take 4 c) → key_version c = active k.
Proof.
  unfold stale. intros Hs Hc Hb. rewrite Hc, negb_false_iff, Z.eqb_eq in Hs. unfold sql_version, act, wrap32 in Hs.
  pose proof (ok_range k k_ok) as Hr. unfold key_version, be_value in *.
  pose proof (pos_value_range 256 (take 4 c) ltac:(lia) Hb) as Hv.
  assert (256 ^ Z.of_nat (length (take 4 c)) <= 2 ^ 32) as Hle.
  { rewrite length_take. change (2 ^ 32) with (256 ^ Z.of_nat 4). apply Z.pow_le_mono_r; lia. }
  assert ((pos_value 256 (take 4 c) + 2 ^ 31) `mod` 2 ^ 32 = (active k + 2 ^ 31) `mod` 2 ^ 32) as Hm by lia.
  clear Hs. revert Hm Hv. generalize (pos_value 256 (take 4 c)). intros z Hm Hv.
  Z.div_mod_to_equations. lia.
Qed.
Lemma Decrypt_version k' table column ad c :
  keys k' !! key_version c = keys k !! key_version c → Decrypt k' table column ad c = Decrypt k table column ad c.
Proof. intros Hk. unfold Decrypt, gcm. by rewrite Hk. Qed.

(** *** Termination *)

Definition stale_keys (col : Column) (v : Vault) : gset (Column * Z) :=
  dom (filter (λ kv, fst (fst kv) = col ∧ stale act (snd kv) = true) (v_rows v)).
Lemma stale_keys_elem col v key :
  key ∈ stale_keys col v ↔ ∃ row, v_rows v !! key = Some row ∧ fst key = col ∧ stale act row = true.
Proof.
  unfold stale_keys. rewrite elem_of_dom. split.
  - intros [row (Hr & Hc & Hs)%map_lookup_filter_Some]. by exists row.
  - intros (row & Hr & Hc & Hs). exists row. by apply map_lookup_filter_Some.
Qed.
Lemma stale_keys_same col v v' : same_secrets v v' → stale_keys col v' ⊆ stale_keys col v.
Proof.
  intros Hs key. rewrite !stale_keys_elem. intros (row' & Hr' & Hc & Hst).
  pose proof (same_rows _ _ Hs key) as Hr. rewrite Hr' in Hr. destruct (v_rows v !! key) as [row|] eqn:E; [|done].
  exists row. split_and!; [done|done|]. destruct (stale act row) eqn:Hst0; [done|].
  by rewrite (same_fresh _ _ _ Hr Hst0) in Hst.
Qed.

(** Every value of the column can be read. *)
Definition legible (col : Column) (v : Vault) : Prop :=
  ∀ id row c, v_rows v !! (col, id) = Some row → row_value row = Some c → ∃ p, Decrypt k (fst col) (snd col) (row_aad row) c = inr p.
Lemma legible_same col v v' : same_secrets v v' → legible col v → legible col v'.
Proof.
  intros Hs Hl id row' c' Hr' Hc'. pose proof (same_rows _ _ Hs (col, id)) as Hr. rewrite Hr' in Hr.
  destruct (v_rows v !! (col, id)) as [row|] eqn:E; [|done]. destruct (row_value row) as [c|] eqn:Hc.
  - destruct (Hl id row c E Hc) as [p Hp]. exists p. assert (reads col row = Some (inr p)) as Hrd.
    { unfold reads. by rewrite Hc, <- Hp. }
    apply (same_plain _ _ _ Hr) in Hrd. unfold reads in Hrd. rewrite Hc' in Hrd. by injection Hrd.
  - apply (same_null _ _ _ Hr) in Hc. congruence.
Qed.

Lemma rotate_rows_steady col rows v0 v :
  col ∈ v_columns v → (∀ n, length (v_nonces v n) = nonceSize) → legible col v0 →
  Forall (row_of v0 col) rows → same_secrets v0 v →
  steady (rotate_rows k col rows) (λ x v', x = inr (Z.of_nat (length rows)) ∧ same_secrets v v' ∧
    ∀ c, c ∈ rows → (col, ca_id c) ∉ stale_keys col v') v.
Proof.
  revert v. induction rows as [|c rows IH]; intros v Hcol Hn Hl Hrows Hv; simpl.
  { apply steady_ret. split_and!; [done|apply same_secrets_refl, Hv|by intros c ?%elem_of_nil]. }
  apply Forall_cons in Hrows as [Hc Hrows].
  destruct (Hl _ _ _ Hc eq_refl) as [p Hp]. simpl in Hp.
  destruct (Encrypt_Decrypt k (fst col) (snd col) (ca_aad c) (v_nonces v (v_drawn v)) p k_ok (Hn _)) as (enc & Henc & _).
  destruct (same_secrets_lookup _ _ _ _ Hv Hc) as (row & Hrow & Hsame). simpl in Hsame.
  set (v1 := mkVault (v_columns v) (v_rows v) (v_nonces v) (S (v_drawn v)) (v_edits v)).
  assert (same_secrets v v1) as H1 by (apply same_secrets_rows; [done..|apply Hv|done]).
  destruct (write_same col (ca_id c) row enc (v_nonces v (v_drawn v)) p v1) as [H2 Hfresh];
    [apply H1|done| |done|by rewrite (same_aad _ _ _ Hsame)|].
  { apply Hsame. unfold reads. simpl. by rewrite Hp. }
  set (v2 := set_rows v1 (write_value col (ca_id c) enc (v_rows v1))) in *.
  assert (same_secrets v v2) as H3 by (by eapply same_secrets_trans).
  apply steady_bind. unfold rewritten. rewrite Hp. apply steady_bind, steady_attempt, steady_stmt. simpl.
  rewrite Henc. apply steady_ret. fold v1.
  apply steady_bind, steady_stmt. rewrite edited_quiet by apply H1. rewrite decide_True by done. simpl.
  rewrite Hrow, bool_decide_eq_true_2 by done. fold v2.
  apply steady_bind. eapply steady_mono; [|apply IH; [done|done|done|done|by eapply same_secrets_trans]].
  intros x v' (-> & Hv' & Hdone). apply steady_ret. split_and!; [f_equal; lia|by eapply same_secrets_trans|].
  intros c' [->|Hin]%elem_of_cons; [|by apply Hdone]. intros Hst%(stale_keys_same _ _ _ Hv').
  apply stale_keys_elem in Hst as (row' & Hr' & _ & Hst). subst v2. simpl in Hr'. unfold write_value in Hr'.
  rewrite lookup_alter_eq, Hrow in Hr'. injection Hr' as <-. congruence.
Qed.

Lemma rotateColumn_steady fuel col v :
  v_edits v = [] → col ∈ v_columns v → (∀ n, length (v_nonces v n) = nonceSize) → legible col v →
  (size (stale_keys col v) < fuel)%nat →
  steady (rotateColumn k fuel col) (λ x v', (∃ n, x = inr n) ∧ same_secrets v v') v.
Proof.
  revert v. induction fuel as [|fuel IH]; intros v He Hcol Hn Hl Hsz; [lia|]. simpl.
  assert (unversioned col (v_rows v) = false) as Hver.
  { apply bool_decide_eq_false. intros ([col' id] & row & Hr & Hcol' & Hlen). simpl in *. subst col'.
    destruct (row_value row) as [c|] eqn:Hc; simpl in Hlen; [|lia]. destruct (Hl _ _ _ Hr Hc) as [p Hp].
    unfold Decrypt in Hp. rewrite decide_True in Hp by (unfold nonceSize; lia). done. }
  apply steady_bind, steady_stmt. rewrite edited_quiet by done. simpl. rewrite decide_True, Hver by done.
  fold act. fold (batch col v). pose proof (batch_row_of col v) as Hrows. pose proof (batch_rows col v) as Hst.
  destruct (batch col v) as [|c rows]; [apply steady_ret; split; [by exists 0|by apply same_secrets_refl]|].
  apply steady_bind. eapply steady_mono; [|apply (rotate_rows_steady _ _ v); [done..|by apply same_secrets_refl]].
  intros x v1 (-> & H1 & Hdone). rewrite decide_False by (simpl; lia).
  apply steady_bind. eapply steady_mono; [|apply IH; [apply H1| | | |]].
  - intros x v2 [[n ->] H2]. apply steady_ret. split; [by eexists|by eapply same_secrets_trans].
  - by rewrite (same_columns _ _ H1).
  - by rewrite (same_nonces _ _ H1).
  - by eapply legible_same.
  - assert (stale_keys col v1 ⊂ stale_keys col v) as Hlt%subset_size; [|lia].
    split; [by apply stale_keys_same|]. intros Hsub. apply (Hdone c); [by left|]. apply Hsub.
    apply Forall_cons in Hst as [[Hc Hs] _]. apply stale_keys_elem. by eexists.
Qed.

Lemma rotate_columns_steady fuel cols v :
  v_edits v = [] → (∀ n, length (v_nonces v n) = nonceSize) →
  Forall (λ col, col ∈ v_columns v ∧ legible col v ∧ (size (stale_keys col v) < fuel)%nat) cols →
  steady (rotate_columns k fuel cols) (λ x v', ∃ n, x = inr n) v.
Proof.
  revert v. induction cols as [|col cols IH]; intros v He Hn Hcols; simpl; [apply steady_ret; by eexists|].
  apply Forall_cons in Hcols as [(Hc & Hl & Hs) Hcols].
  apply steady_bind, steady_ignore, steady_stmt. simpl.
  apply steady_bind. eapply steady_mono; [|by apply rotateColumn_steady]. intros x v1 [[n ->] H1].
  apply steady_bind, steady_ignore, steady_stmt. simpl.
  apply steady_bind. eapply steady_mono; [|apply IH; [apply H1|by rewrite (same_nonces _ _ H1)|]].
  - intros x v2 [m ->]. apply steady_ret. by eexists.
  - eapply Forall_impl; [done|]. intros col' (Hc' & Hl' & Hs').
    split_and!; [by rewrite (same_columns _ _ H1)|by eapply legible_same|].
    eapply Nat.le_lt_trans; [|done]. by apply subseteq_size, stale_keys_same.
Qed.

Lemma Execute_wp fuel v :
  v_edits v = [] → (∀ n, length (v_nonces v n) = nonceSize) →
  wp (Execute k fuel) (λ x v', same_secrets v v' ∧ if x is inr _ then Forall (λ col, settled col v') (v_columns v) else True) v.
Proof.
  intros He Hn. unfold Execute. apply wp_bind, wp_stmt; rewrite ?edited_quiet by done; simpl;
    [split; [by apply same_secrets_refl|done]..|].
  destruct (v_columns v) as [|col cols]; [apply wp_throw; split; [by apply same_secrets_refl|done]|].
  apply wp_bind. eapply wp_mono; [|by apply rotate_columns_wp].
  intros [e|n] v' [Hs Hset]; [done|by apply wp_ret].
Qed.
End Rotating.

(** C6: while nobody else writes the encrypted columns, a rotation loses no
    secret, wherever it fails: a value that could be read before can be read
    afterwards, with the same text and for the same row.  When it reports success,
    every such value of every column of the schema is under the active key: the
    active key alone reads it, so the other keys can be dropped. *)
Theorem rotation_keeps_secrets `{AeadLaws} file k v fuel :
  Parse file = inr k → v_edits v = [] → (∀ n, length (v_nonces v n) = nonceSize) →
  (∀ key row c, v_rows v !! key = Some row → row_value row = Some c → Forall is_byte c) →
  wp (Execute k fuel) (λ x v',
    ∀ col id row c p, v_rows v !! (col, id) = Some row → row_value row = Some c →
      Decrypt k (fst col) (snd col) (row_aad row) c = inr p →
      ∃ c', v_rows v' !! (col, id) = Some (mkRow (row_aad row) (Some c')) ∧
        Decrypt k (fst col) (snd col) (row_aad row) c' = inr p ∧
        ∀ res k', x = inr res → col ∈ v_columns v → keys k' !! active k = keys k !! active k →
          Decrypt k' (fst col) (snd col) (row_aad row) c' = inr p) v.
Proof.
  intros Hk%Parse_ok He Hn Hb. eapply wp_mono; [|by apply (Execute_wp k)].
  intros x v' [Hs Hset] col id row c p Hrow Hc Hp.
  destruct (same_secrets_lookup _ _ _ _ _ Hs Hrow) as ([ad value] & Hrow' & Hsame). simpl in Hsame.
  assert (reads k col row = Some (inr p)) as Hr by (unfold reads; by rewrite Hc, <- Hp).
  apply (same_plain _ _ _ _ Hsame) in Hr. pose proof (same_aad _ _ _ _ Hsame) as Had. simpl in Had. subst ad.
  unfold reads in Hr. simpl in Hr. destruct value as [c'|]; [|done]. injection Hr as Hp'.
  exists c'. split_and!; [done|done|]. intros res k' -> Hcol Hk'. rewrite Forall_forall in Hset.
  rewrite (Decrypt_version k); [done|]. rewrite (version_of_settled k Hk (mkRow (row_aad row) (Some c')) c'); [done| |done|].
  - by eapply Hset.
  - eapply (same_bytes _ _ _ _ Hsame); [|done]. intros c0 Hc0. apply Forall_take. eapply (Hb _ row); [done|congruence].
Qed.

(** C19: while nobody else writes the columns and nothing fails, a rotation of a
    schema whose values can all be read ends, after at most as many batches in a
    column as it has values under other keys, and reports success. *)
Theorem rotation_converges `{AeadLaws} file k v fuel :
  Parse file = inr k → v_edits v = [] → (∀ n, length (v_nonces v n) = nonceSize) → v_columns v ≠ [] →
  (∀ col id row c, col ∈ v_columns v → v_rows v !! (col, id) = Some row → row_value row = Some c →
     ∃ p, Decrypt k (fst col) (snd col) (row_aad row) c = inr p) →
  (∀ col, col ∈ v_columns v → size (stale_keys k col v) < fuel)%nat →
  ∃ n v', Execute k fuel [] v = (inr (wrap32 (active k), length (v_columns v), n), ([], v')).
Proof.
  intros Hk%Parse_ok He Hn Hne Hl Hf.
  cut (steady (Execute k fuel) (λ x _, ∃ n, x = inr (wrap32 (active k), length (v_columns v), n)) v).
  { intros (x & v' & Hx & n & ->). by exists n, v'. }
  unfold Execute. apply steady_bind, steady_stmt. rewrite edited_quiet by done. simpl.
  destruct (v_columns v) as [|col cols] eqn:Hc; [done|]. rewrite <- Hc in *.
  apply steady_bind. eapply steady_mono; [|apply (rotate_columns_steady k Hk); [done|done|]].
  - intros x v' [n ->]. apply steady_ret. by exists n.
  - apply Forall_forall. intros col' Hin. split_and!; [done|by intros ?; eauto|by apply Hf].
Qed.

(** ** Examples *)

(** An algorithm with the laws of the interface, and no secrecy. *)
Definition toy : Aead := {|
  seal := λ key nonce p a, Z.of_nat (length p) :: p ++ key ++ nonce ++ a;
  open := λ key nonce c a,
    match c with
    | n :: rest => let p := take (Z.to_nat n) rest in
                   if decide (rest = p ++ key ++ nonce ++ a) then Some p else None
    | [] => None
    end
|}.
#[export] Instance toy_laws : AeadLaws toy.
Proof.
  constructor. intros key nonce p a. simpl. rewrite Nat2Z.id, take_app_length. by rewrite decide_True.
Qed.

(** A key file before and after a second key was added. *)
Definition key_1 : string := "1:AAAAAAAAAAAAAAAAAAAAAAAAAAAAAAAAAAAAAAAAAAA=".
Definition key_2 : string := "2:BAAAAAAAAAAAAAAAAAAAAAAAAAAAAAAAAAAAAAAAAAA=".
Definition old_file : string := "# master keys" +:+ String newline (key_1 +:+ String newline "").
Definition new_file : string := old_file +:+ key_2.
Definition ring (versions : list Z) : Keyring :=
  mkKeyring (list_to_map ((λ v, (v, (if v =? 1 then 0 else 4) :: replicate 31 0)) <$> versions)) (foldr Z.max 0 versions).
Lemma files_parse : Parse old_file = inr (ring [1]) ∧ Parse new_file = inr (ring [1; 2]).
Proof. split; by vm_compute. Qed.

Definition twelve : list Z := replicate 12 7.
Lemma envelope_survives_rotation_witness :
  ∃ c, Encrypt (H := toy) (ring [1]) "git_sources" "token_enc" "u1" (Some twelve) [1; 2; 3] = inr c ∧
    Decrypt (H := toy) (ring [1; 2]) "git_sources" "token_enc" "u1" c = inr [1; 2; 3].
Proof.
  destruct (envelope_survives_rotation (A := toy) old_file (ring [1]) "git_sources" "token_enc" "u1" twelve [1; 2; 3]
    (proj1 files_parse) eq_refl) as (_ & c & Hc & _ & Hd & _).
  exists c. split; [exact Hc|]. apply Hd. by vm_compute.
Defined.

(** A token sealed under the first key, in a schema with one encrypted column. *)
Definition tokens : Column := ("git_sources", "token_enc").
Definition sealed (versions : list Z) (p : list Z) : list Z :=
  match Encrypt (H := toy) (ring versions) "git_sources" "token_enc" "u1" (Some twelve) p with inr c => c | inl _ => [] end.
Definition one_token (edits : list (Rows → Rows)) : Vault :=
  mkVault [tokens] {[ (tokens, 1) := mkRow "u1" (Some (sealed [1] [1; 2; 3])) ]} (λ _, twelve) 0 edits.

Lemma one_token_row edits key row :
  v_rows (one_token edits) !! key = Some row →
  key = (tokens, 1) ∧ row = mkRow "u1" (Some (sealed [1] [1; 2; 3])).
Proof. unfold one_token. simpl. rewrite lookup_singleton_Some. naive_solver. Qed.

Lemma rotation_keeps_secrets_witness :
  wp (Execute (H := toy) (ring [1; 2]) 2) (λ x v',
    ∃ c', v_rows v' !! (tokens, 1) = Some (mkRow "u1" (Some c')) ∧
      Decrypt (H := toy) (ring [1; 2]) "git_sources" "token_enc" "u1" c' = inr [1; 2; 3] ∧
      ∀ res k', x = inr res → tokens ∈ [tokens] → keys k' !! 2 = keys (ring [1; 2]) !! 2 →
        Decrypt (H := toy) k' "git_sources" "token_enc" "u1" c' = inr [1; 2; 3]) (one_token []).
Proof.
  eapply wp_mono; [|apply (rotation_keeps_secrets (A := toy) new_file (ring [1; 2]));
    [apply files_parse|done|done|]].
  - intros x v' Hv. apply (Hv tokens 1 (mkRow "u1" (Some (sealed [1] [1; 2; 3]))) (sealed [1] [1; 2; 3]) [1; 2; 3]);
      by vm_compute.
  - intros key row c [-> ->]%one_token_row [= <-]. apply (bool_decide_unpack _). by vm_compute.
Defined.

Lemma rotation_converges_witness :
  ∃ n v', Execute (H := toy) (ring [1; 2]) 2 [] (one_token []) = (inr (2, 1%nat, n), ([], v')).
Proof.
  apply (rotation_converges (A := toy) new_file (ring [1; 2]) (one_token []) 2);
    [apply files_parse|done|done|done| |].
  - intros col id row c _ [[= -> ->] ->]%one_token_row [= <-]. exists [1; 2; 3]. by vm_compute.
  - intros col ->%list_elem_of_singleton. by vm_compute; lia.
Defined.

(** The write of a rotation does not look whether the row still has the value it
    read: a secret replaced in between is lost, and one that was removed is back. *)
Definition rotated_with (edit : Rows → Rows) : (err + Z * nat * Z) * option (option (envelope_error + list Z)) :=
  let '(x, (_, v)) := Execute (H := toy) (ring [1; 2]) 2 [] (one_token [id; id; edit]) in
  (x, reads (A := toy) (ring [1; 2]) tokens <$> v_rows v !! (tokens, 1)).
Lemma replaced_secret_is_lost :
  rotated_with (λ m, <[ (tokens, 1) := mkRow "u1" (Some (sealed [1; 2] [9; 9])) ]> m)
  = (inr (2, 1%nat, 1), Some (Some (inr [1; 2; 3]))).
Proof. by vm_compute. Qed.
Lemma removed_secret_is_back :
  rotated_with (λ m, <[ (tokens, 1) := mkRow "u1" None ]> m) = (inr (2, 1%nat, 1), Some (Some (inr [1; 2; 3]))).
Proof. by vm_compute. Qed.
