(* ===== verification/Backups.v ===== *)
(** * Database backups

    The jobs backup.execute, backup.restore and backup.drill
    ([internal/jobs/backup.go], [backupdrill.go]), the retention queries of
    [internal/store/backups.sql.go] and the agent's pipes between containers,
    files and presigned URLs ([internal/hostops/pipes.go]).  The state is the table
    of executions, the files of the server and the objects of the bucket; every
    statement and every call is a program of [Effects.M], so it may fail, or take
    effect and lose its answer.  Compression, the checksum and what the database
    itself answers are parameters. *)
From stdpp Require Import pretty.
From S2P Require Import Prelude GoLib Calendar Effects DeployBuild.
Local Open Scope Z_scope.

(** ** Rows *)

(** [store.BackupExecutionStatus] *)
Inductive BackupStatus := BRunning | BSucceeded | BPartial | BFailed.
#[export] Instance BackupStatus_eq_dec : EqDecision BackupStatus.
Proof. solve_decision. Defined.

(** [backup_executions] *)
Record Execution := mkExecution {
  ex_id : Z; ex_plan : Z; ex_status : BackupStatus; ex_file : option string; ex_sum : option string;
  ex_uploaded : bool; ex_key : option string; ex_local_deleted : bool; ex_s3_deleted : bool;
  ex_created : Z; ex_tables : option Z
}.

(** [database_backup_plans], with the path prefix of its bucket *)
Record Plan := mkPlan {
  pl_id : Z; pl_dump_all : bool; pl_storage : option string; pl_s3_only : bool;
  pl_local_count : Z; pl_local_days : Z; pl_s3_count : Z; pl_s3_days : Z
}.

(** [backupTarget]: the container, the key of its files, the login when it is a
    managed database, the image of a drill *)
Record Target := mkTarget {
  tg_container : string; tg_key : string; tg_login : option (string * string); tg_image : string
}.

(** [restore_drills] *)
Record Drill := mkDrill { dr_execution : Z; dr_succeeded : option bool }.

(** The database, the server's files, the bucket; what psql was fed in which
    container; the containers created, started or removed. *)
Record State := mkBState {
  b_now : Z; b_next : Z; b_executions : gmap Z Execution; b_drills : gmap Z Drill;
  b_files : gmap string string; b_objects : gmap string string;
  b_fed : list (string * string); b_touched : list string
}.
Definition set_executions (b : State) (m : gmap Z Execution) (next : Z) : State :=
  mkBState (b_now b) next m (b_drills b) (b_files b) (b_objects b) (b_fed b) (b_touched b).
Definition set_drills (b : State) (m : gmap Z Drill) : State :=
  mkBState (b_now b) (b_next b) (b_executions b) m (b_files b) (b_objects b) (b_fed b) (b_touched b).
Definition set_bfiles (b : State) (m : gmap string string) : State :=
  mkBState (b_now b) (b_next b) (b_executions b) (b_drills b) m (b_objects b) (b_fed b) (b_touched b).
Definition set_objects (b : State) (m : gmap string string) : State :=
  mkBState (b_now b) (b_next b) (b_executions b) (b_drills b) (b_files b) m (b_fed b) (b_touched b).
Definition fed (b : State) (container content : string) : State :=
  mkBState (b_now b) (b_next b) (b_executions b) (b_drills b) (b_files b) (b_objects b)
    ((container, content) :: b_fed b) (b_touched b).
Definition touched (b : State) (container : string) : State :=
  mkBState (b_now b) (b_next b) (b_executions b) (b_drills b) (b_files b) (b_objects b) (b_fed b)
    (container :: b_touched b).

(** ** Names *)

(** [time.Format("20060102-150405")], in UTC *)
Definition dec (n : nat) (z : Z) : string :=
  String.string_of_list_ascii ((λ d, ascii_of_byte (48 + d)) <$> pos_digits 10 n z).
Definition stamp (t : Z) : string :=
  let day := day_number UTC t in
  dec 4 (year_of day) +:+ dec 2 (month_of day) +:+ dec 2 (day_of day) +:+ "-" +:+
  dec 2 (Hour UTC t) +:+ dec 2 (Minute UTC t) +:+ dec 2 (Second UTC t).
Definition backupDir : string := "/var/lib/akerdock/backups".
Definition dump_name (key : string) (t : Z) : string := key +:+ "-" +:+ stamp t +:+ ".sql.gz".
Definition dump_file (key : string) (t : Z) : string := backupDir +:+ "/" +:+ key +:+ "/" +:+ dump_name key t.

(** [s3.Client.Key] *)
Fixpoint trim_left_slash (l : list ascii) : list ascii :=
  match l with a :: l' => if decide (a = slash) then trim_left_slash l' else l | [] => [] end.
Definition trim_slashes (s : string) : string :=
  String.string_of_list_ascii (reverse (trim_left_slash (reverse (trim_left_slash (String.list_ascii_of_string s))))).
Definition Key (prefix name : string) : string :=
  let p := trim_slashes prefix in
  let name := match cut_prefix "/" name with Some n => n | None => name end in
  if decide (p = "") then name else p +:+ "/" +:+ name.
Definition object_key (prefix key : string) (t : Z) : string := Key prefix (key +:+ "/" +:+ dump_name key t).

(** ** Statements *)

Definition Created (plan : Z) (b : State) : Execution :=
  mkExecution (b_next b) plan BRunning None None false None false false (b_now b) None.
Definition CreateBackupExecution (plan : Z) : M State Execution :=
  stmt (λ b, let e := Created plan b in
             (set_executions b (<[ ex_id e := e ]> (b_executions b)) (b_next b + 1), inr e)).
Definition update_execution (id : Z) (f : Execution → Execution) : M State () :=
  exec (λ b, set_executions b (alter f id (b_executions b)) (b_next b)).
Definition FinishBackupExecution (id : Z) (st : BackupStatus) (file sum : option string) (up : bool)
    (key : option string) : M State () :=
  update_execution id (λ e, mkExecution (ex_id e) (ex_plan e) st file sum up key (ex_local_deleted e)
    (ex_s3_deleted e) (ex_created e) (ex_tables e)).
Definition SetBackupExecutionTableCount (id n : Z) : M State () :=
  update_execution id (λ e, mkExecution (ex_id e) (ex_plan e) (ex_status e) (ex_file e) (ex_sum e) (ex_uploaded e)
    (ex_key e) (ex_local_deleted e) (ex_s3_deleted e) (ex_created e) (Some n)).
Definition MarkBackupLocalDeleted (id : Z) : M State () :=
  update_execution id (λ e, mkExecution (ex_id e) (ex_plan e) (ex_status e) (ex_file e) (ex_sum e) (ex_uploaded e)
    (ex_key e) true (ex_s3_deleted e) (ex_created e) (ex_tables e)).
Definition MarkBackupS3Deleted (id : Z) : M State () :=
  update_execution id (λ e, mkExecution (ex_id e) (ex_plan e) (ex_status e) (ex_file e) (ex_sum e) (ex_uploaded e)
    (ex_key e) (ex_local_deleted e) true (ex_created e) (ex_tables e)).
Definition GetBackupExecutionByID (id : Z) : M State Execution :=
  query (λ b, match b_executions b !! id with Some e => inr e | None => inl NoRows end).

(** The rows of a plan that satisfy a condition, the newest first *)
Definition newer (x y : Execution) : Prop := ex_id y <= ex_id x.
#[export] Instance newer_dec x y : Decision (newer x y).
Proof. unfold newer. apply _. Defined.
Definition rows_of (plan : Z) (P : Execution → bool) (b : State) : list Execution :=
  merge_sort newer (filter (λ e, ex_plan e = plan ∧ P e = true) (map_to_list (b_executions b)).*2).

(** [SELECT max(b.id) … AND b.status = 'succeeded'] *)
Definition succeeded (e : Execution) : bool := bool_decide (ex_status e = BSucceeded).
Definition last_succeeded (plan : Z) (b : State) : option Z := ex_id <$> head (rows_of plan succeeded b).

(** [ListExpiredLocalBackups], [ListExpiredS3Backups] *)
Definition day_ns : Z := 24 * hour.
Definition local_copy (e : Execution) : bool :=
  bool_decide (ex_status e ∈ [BSucceeded; BPartial]) && negb (ex_local_deleted e) && bool_decide (is_Some (ex_file e)).
Definition s3_copy (e : Execution) : bool :=
  ex_uploaded e && negb (ex_s3_deleted e) && bool_decide (is_Some (ex_key e)).
Definition expired (plan : Z) (P : Execution → bool) (keep days : Z) (b : State) : list Execution :=
  match last_succeeded plan b with
  | None => []
  | Some last =>
      snd <$> filter (λ x : Z * Execution, ex_id (snd x) < last ∧
        ((0 < keep ∧ keep < fst x) ∨ (0 < days ∧ ex_created (snd x) < b_now b - days * day_ns)))
        (imap (λ i e, (Z.of_nat i + 1, e)) (rows_of plan P b))
  end.
Definition ListExpiredLocalBackups (plan keep days : Z) : M State (list Execution) :=
  query (λ b, inr (expired plan local_copy keep days b)).
Definition ListExpiredS3Backups (plan keep days : Z) : M State (list Execution) :=
  query (λ b, inr (expired plan s3_copy keep days b)).

(** [GetLatestSuccessfulBackupExecution] *)
Definition restorable_row (e : Execution) : bool :=
  bool_decide (ex_status e ∈ [BSucceeded; BPartial]) && bool_decide (is_Some (ex_file e)).
Definition GetLatestSuccessfulBackupExecution (plan : Z) : M State Execution :=
  query (λ b, match rows_of plan restorable_row b with e :: _ => inr e | [] => inl NoRows end).

(** ** The agent's pipes *)

(** gzip, gunzip, and SHA-256 in hexadecimal *)
Class Codec := { gzip : string → string; gunzip : string → option string; digest : string → string }.
Class CodecLaws (C : Codec) := {
  gunzip_gzip : ∀ s, gunzip (gzip s) = Some s;
  gzip_header : ∀ s, gzip s ≠ ""
}.

(** What runs in a database container: what pg_dump (or pg_dumpall) prints and its
    exit code; the exit code of psql on an input; what counting the tables prints,
    after what the container was fed; the names of its role and database; whether
    it accepts connections at a probe; whether the server has an image. *)
Class Databases := {
  pg_dump : string → bool → string * Z;
  psql : string → string → Z;
  count_output : string → list (string * string) → string * Z;
  env_names : string → string * Z;
  pg_isready : string → nat → Z;
  image_present : string → bool
}.

Section Jobs.
Context `{Codec} `{Databases}.

(** [ExecToFile], with [Gzip]: the exit code, and the size and the digest of what
    landed on the disk *)
Definition ExecToFile (container : string) (all : bool) (path : string) : M State (Z * Z * string) :=
  stmt (λ b, let '(out, code) := pg_dump container all in
             let c := gzip out in
             (set_bfiles b (<[ path := c ]> (b_files b)), inr (code, Z.of_nat (String.length c), digest c))).
(** [FileToExec], with [Gunzip] *)
Definition FileToExec (path container : string) : M State Z :=
  stmt (λ b, match b_files b !! path with
             | None => (b, inl Broken)
             | Some c => match gunzip c with
                         | None => (b, inl Broken)
                         | Some text => (fed b container c, inr (psql container text))
                         end
             end).
(** [FileToURL], [URLToFile], to and from an object; [HashFile], [Remove] *)
Definition FileToURL (path key : string) : M State () :=
  stmt (λ b, match b_files b !! path with
             | None => (b, inl Broken)
             | Some c => (set_objects b (<[ key := c ]> (b_objects b)), inr ())
             end).
Definition URLToFile (key path : string) : M State () :=
  stmt (λ b, match b_objects b !! key with
             | None => (b, inl Broken)
             | Some c => (set_bfiles b (<[ path := c ]> (b_files b)), inr ())
             end).
Definition HashFile (path : string) : M State string :=
  query (λ b, match b_files b !! path with None => inl Broken | Some c => inr (digest c) end).
Definition Remove (path : string) : M State () := exec (λ b, set_bfiles b (delete path (b_files b))).
(** [s3.Client.Size], [Delete] *)
Definition Size (key : string) : M State (option Z) :=
  query (λ b, inr ((λ c, Z.of_nat (String.length c)) <$> b_objects b !! key)).
Definition Delete (key : string) : M State () := exec (λ b, set_objects b (delete key (b_objects b))).

(** ** Backing up *)

(** [s3ClientFor]: the row, the two credentials *)
Definition s3ClientFor : M State () := _ ← fallible; _ ← fallible; fallible.

(** [uploadToS3] *)
Definition uploadToS3 (prefix key file : string) (t size : Z) : M State string :=
  _ ← s3ClientFor;
  let object := object_key prefix key t in
  _ ← FileToURL file object;
  remote ← Size object;
  match remote with
  | None => throw (Failure "the object is absent from the bucket after the upload")
  | Some n => if decide (n = size) then mret object else throw (Failure "the uploaded object is truncated")
  end.

(** [countTables] *)
Definition countTables (container : string) : M State Z :=
  r ← query (λ b, inr (count_output container (b_fed b)));
  if decide (snd r = 0) then
    match atoi (trim_space (firstLine (fst r))) with
    | Some n => mret (wrap32 n)
    | None => throw (Failure "strconv.Atoi")
    end
  else throw (Failure "counting tables failed").

(** [applyLocalRetention], [applyS3Retention] *)
Definition drop_local (e : Execution) : M State () :=
  match ex_file e with
  | None => mret ()
  | Some f => r ← attempt (Remove f);
              match r with inl _ => mret () | inr _ => ignore (MarkBackupLocalDeleted (ex_id e)) end
  end.
Definition drop_object (e : Execution) : M State () :=
  match ex_key e with
  | None => mret ()
  | Some k => r ← attempt (Delete k);
              match r with inl _ => mret () | inr _ => ignore (MarkBackupS3Deleted (ex_id e)) end
  end.
Definition applyLocalRetention (pl : Plan) : M State () :=
  if decide (pl_local_count pl <= 0 ∧ pl_local_days pl <= 0) then mret ()
  else
    l ← attempt (ListExpiredLocalBackups (pl_id pl) (pl_local_count pl) (pl_local_days pl));
    match l with inl _ => mret () | inr es => each es drop_local end.
Definition applyS3Retention (pl : Plan) : M State () :=
  if decide (pl_storage pl = None ∨ (pl_s3_count pl <= 0 ∧ pl_s3_days pl <= 0)) then mret ()
  else
    l ← attempt (ListExpiredS3Backups (pl_id pl) (pl_s3_count pl) (pl_s3_days pl));
    match l with
    | inl _ | inr [] => mret ()
    | inr es => c ← attempt s3ClientFor; match c with inl _ => mret () | inr _ => each es drop_object end
    end.
Definition applyRetention (pl : Plan) : M State () := _ ← applyLocalRetention pl; applyS3Retention pl.

(** [backup] *)
Definition fail_backup {A} (id : Z) (cause : err) : M State A :=
  _ ← ignore (FinishBackupExecution id BFailed None None false None); throw cause.
Definition upload_copy (pl : Plan) (tg : Target) (file : string) (t size : Z) : M State (BackupStatus * option string) :=
  match pl_storage pl with
  | None => mret (BSucceeded, None)
  | Some prefix =>
      r ← attempt (uploadToS3 prefix (tg_key tg) file t size);
      mret (match r with inl _ => (BPartial, None) | inr key => (BSucceeded, Some key) end)
  end.
Definition drop_dump (pl : Plan) (file : string) (key : option string) : M State bool :=
  if pl_s3_only pl && bool_decide (is_Some key)
  then r ← attempt (Remove file); mret (match r with inr _ => true | inl _ => false end)
  else mret false.
Definition record_dump (pl : Plan) (tg : Target) (id t size : Z) (file sum : string) : M State BackupStatus :=
  _ ← ignore fallible; (** the version of the engine *)
  count ← attempt (countTables (tg_container tg));
  _ ← match count with inr n => ignore (SetBackupExecutionTableCount id n) | inl _ => mret () end;
  copy ← upload_copy pl tg file t size;
  dropped ← drop_dump pl file (snd copy);
  _ ← FinishBackupExecution id (fst copy) (Some file) (Some sum) (bool_decide (is_Some (snd copy))) (snd copy);
  _ ← (if (dropped : bool) then ignore (MarkBackupLocalDeleted id) else mret ());
  _ ← applyRetention pl;
  mret (fst copy).
Definition backup (pl : Plan) (tg : Target) : M State BackupStatus :=
  _ ← fallible; (** a random uuid *)
  e ← CreateBackupExecution (pl_id pl);
  t ← look b_now;
  let file := dump_file (tg_key tg) t in
  res ← attempt (ExecToFile (tg_container tg) (pl_dump_all pl) file);
  match res with
  | inl cause => fail_backup (ex_id e) cause
  | inr (code, size, sum) =>
      if decide (code ≠ 0) then fail_backup (ex_id e) (Failure "pg_dump exited")
      else if decide (size = 0) then fail_backup (ex_id e) (Failure "the dump came out empty")
      else record_dump pl tg (ex_id e) t size file sum
  end.

(** ** Restoring *)

(** The dump of an execution, back on the server and verified *)
Definition fetchFromS3 (pl : Plan) (e : Execution) (file : string) : M State () :=
  match ex_key e, pl_storage pl with
  | Some key, Some _ => _ ← s3ClientFor; URLToFile key file
  | _, _ => throw (Failure "this backup has no copy in a bucket")
  end.
Definition fetched (pl : Plan) (e : Execution) (file : string) : M State () :=
  if ex_local_deleted e then
    if bool_decide (ex_key e = None) || ex_s3_deleted e then throw (Failure "the dump of this backup is gone")
    else fetchFromS3 pl e file
  else mret ().
Definition verified (e : Execution) (file : string) : M State () :=
  match ex_sum e with
  | None => mret ()
  | Some sum => d ← HashFile file; if decide (d = sum) then mret () else throw (Failure "checksum mismatch")
  end.

(** [restore] *)
Definition restore (pl : Plan) (id : Z) (tg : Target) : M State Z :=
  e ← GetBackupExecutionByID id;
  match ex_file e with
  | None => throw (Failure "this backup produced no dump")
  | Some file =>
      _ ← fetched pl e file;
      _ ← verified e file;
      code ← FileToExec file (tg_container tg);
      if decide (code = 0) then mret (ex_id e) else throw (Failure "restore failed")
  end.

(** ** Drills *)

Definition CreateRestoreDrill (execution : Z) : M State Z :=
  stmt (λ b, let id := Z.of_nat (size (b_drills b)) in
             (set_drills b (<[ id := mkDrill execution None ]> (b_drills b)), inr id)).
Definition FinishRestoreDrill (id : Z) (ok : bool) : M State () :=
  exec (λ b, set_drills b (alter (λ d, mkDrill (dr_execution d) (Some ok)) id (b_drills b))).

Definition scratch_name (uuid : string) : string := "akerdock-drill-" +:+ String.substring 0 12 uuid.
Definition DefaultDatabaseImage : string := "postgres:16-alpine".

Definition ContainerCreate (present : bool) (name : string) : M State () :=
  stmt (λ b, if present then (touched b name, inr ()) else (b, inl NoRows)).
Definition ContainerStart (name : string) : M State () := exec (λ b, touched b name).
Definition ContainerRemove (name : string) : M State () := exec (λ b, touched b name).

(** [bootScratch]: an image that is missing is pulled *)
Definition bootScratch (name ref : string) : M State () :=
  created ← attempt (ContainerCreate (image_present ref) name);
  _ ← match created with
      | inr _ => mret ()
      | inl NoRows => _ ← fallible; ContainerCreate true name
      | inl e => throw e
      end;
  ContainerStart name.

(** [drillLogin] *)
Definition drillLogin (tg : Target) : M State (string * string) :=
  match tg_login tg with
  | Some login => mret login
  | None =>
      r ← query (λ _, inr (env_names (tg_container tg)));
      if decide (snd r = 0) then
        match split newline (trim_space (fst r)) with
        | user :: db :: _ => if decide (trim_space user = "") then throw (Failure "no role") else mret (trim_space user, trim_space db)
        | _ => throw (Failure "the component did not expose its role and database names")
        end
      else throw (Failure "cannot read the component's role and database names")
  end.

(** [waitReady]: a probe every two seconds for ninety *)
Definition probes : nat := 45.
Fixpoint waitReady (n : nat) (name : string) : M State () :=
  match n with
  | O => throw (Failure "the disposable database never became ready")
  | S n' =>
      code ← query (λ _, inr (pg_isready name n));
      if decide (code = 0) then mret () else _ ← fallible; waitReady n' name
  end.

(** The disposable instance, with a random password *)
Definition scratch_up (tg : Target) (name : string) : M State () :=
  _ ← fallible;
  _ ← drillLogin tg;
  _ ← bootScratch name (if decide (tg_image tg = "") then DefaultDatabaseImage else tg_image tg);
  waitReady probes name.

(** [drill]: the restore into the scratch container and the comparison; the number
    of tables *)
Definition comparable (e : Execution) (restored : Z) : bool :=
  match ex_tables e with
  | None => negb (restored =? 0)
  | Some n => restored =? n
  end.
Definition drill_steps (pl : Plan) (tg : Target) (e : Execution) (scratch : string) : M State Z :=
  match ex_file e with
  | None => throw (Failure "the backup produced no dump")
  | Some file =>
      _ ← fetched pl e file;
      _ ← verified e file;
      _ ← scratch_up tg scratch;
      code ← FileToExec file scratch;
      if decide (code = 0) then
        restored ← countTables scratch;
        if comparable e restored then mret restored else throw (Failure "the restore came back with other tables")
      else throw (Failure "the dump did not restore")
  end.
Definition drill_verdict (pl : Plan) (tg : Target) (e : Execution) (id : Z) (scratch : string) : M State bool :=
  r ← attempt (drill_steps pl tg e scratch);
  match r with
  | inl _ =>
      _ ← ignore (FinishRestoreDrill id false);
      _ ← ignore fallible; (** SetPlanDrillResult, the event *)
      mret false
  | inr _ => _ ← FinishRestoreDrill id true; _ ← fallible; mret true
  end.
Definition drill (uuid : Z → string) (pl : Plan) (tg : Target) : M State bool :=
  latest ← attempt (GetLatestSuccessfulBackupExecution (pl_id pl));
  match latest with
  | inl _ => throw (Failure "this plan has no successful backup to restore")
  | inr e =>
      id ← CreateRestoreDrill (ex_id e);
      let scratch := scratch_name (uuid id) in
      r ← attempt (drill_verdict pl tg e id scratch);
      _ ← ignore (ContainerRemove scratch);
      match r with inl x => throw x | inr ok => mret ok end
  end.
End Jobs.

(** ** The last successful backup survives *)

(** Ids are those of the rows, and below the sequence. *)
Definition numbered (b : State) : Prop :=
  ∀ i e, b_executions b !! i = Some e → ex_id e = i ∧ i < b_next b.
(** No two executions share a file or an object. *)
Definition separate (b : State) : Prop :=
  ∀ i j e1 e2, b_executions b !! i = Some e1 → b_executions b !! j = Some e2 →
    (∃ f, ex_file e1 = Some f ∧ ex_file e2 = Some f) ∨ (∃ k, ex_key e1 = Some k ∧ ex_key e2 = Some k) → i = j.
(** The newest successful execution of a plan *)
Definition newest (plan : Z) (b : State) (i : Z) (e : Execution) : Prop :=
  b_executions b !! i = Some e ∧ ex_plan e = plan ∧ ex_status e = BSucceeded ∧
  ∀ j e', b_executions b !! j = Some e' → ex_plan e' = plan → ex_status e' = BSucceeded → j <= i.
(** A copy of the dump with the recorded checksum, on the server or in the bucket *)
Definition copied `{Codec} (b : State) (e : Execution) : Prop :=
  ∃ sum c, ex_sum e = Some sum ∧ digest c = sum ∧
    ((∃ f, ex_file e = Some f ∧ b_files b !! f = Some c) ∨ (∃ k, ex_key e = Some k ∧ b_objects b !! k = Some c)).
(** A new file or object takes the name of none that is recorded. *)
Definition unused (f k : string) (b : State) : Prop :=
  ∀ i e, b_executions b !! i = Some e → ex_file e ≠ Some f ∧ ex_key e ≠ Some k.

Section Survival.
Context {C : Codec} `{Databases}.

Definition survives (b : State) : Prop :=
  numbered b ∧ separate b ∧ ∀ plan i e, newest plan b i e → copied b e.

(** *** Rows that differ in their flags only *)

Record same_row (e e' : Execution) : Prop := mkSameRow {
  sr_id : ex_id e' = ex_id e; sr_plan : ex_plan e' = ex_plan e; sr_status : ex_status e' = ex_status e;
  sr_file : ex_file e' = ex_file e; sr_key : ex_key e' = ex_key e; sr_sum : ex_sum e' = ex_sum e
}.
Definition same_table (b b' : State) : Prop :=
  b_next b' = b_next b ∧
  ∀ i, option_relation same_row (λ _, False) (λ _, False) (b_executions b !! i) (b_executions b' !! i).
Lemma same_table_back b b' i e' :
  same_table b b' → b_executions b' !! i = Some e' → ∃ e, b_executions b !! i = Some e ∧ same_row e e'.
Proof. intros [_ Hs] Hi. specialize (Hs i). rewrite Hi in Hs. destruct (b_executions b !! i) as [e|]; [by exists e|done]. Qed.
Lemma same_table_forth b b' i e :
  same_table b b' → b_executions b !! i = Some e → ∃ e', b_executions b' !! i = Some e' ∧ same_row e e'.
Proof. intros [_ Hs] Hi. specialize (Hs i). rewrite Hi in Hs. destruct (b_executions b' !! i) as [e'|]; [by exists e'|done]. Qed.
Lemma same_row_refl e : same_row e e.
Proof. by constructor. Qed.
Lemma same_table_refl b b' : b_next b' = b_next b → b_executions b' = b_executions b → same_table b b'.
Proof. intros Hn He. split; [done|]. intros i. rewrite He. destruct (_ !! i); [apply same_row_refl|done]. Qed.
Lemma same_table_alter b f id :
  (∀ e, same_row e (f e)) → same_table b (set_executions b (alter f id (b_executions b)) (b_next b)).
Proof.
  intros Hf. split; [done|]. intros i. simpl. destruct (decide (id = i)) as [<-|Hne].
  - rewrite lookup_alter_eq. destruct (_ !! id); [apply Hf|done].
  - rewrite lookup_alter_ne by done. destruct (_ !! i); [apply same_row_refl|done].
Qed.

(** What the recorded names lead to is the same. *)
Definition same_copies (b b' : State) : Prop :=
  (∀ i e f, b_executions b !! i = Some e → ex_file e = Some f → b_files b' !! f = b_files b !! f) ∧
  (∀ i e k, b_executions b !! i = Some e → ex_key e = Some k → b_objects b' !! k = b_objects b !! k).

Lemma newest_same b b' plan i e' :
  same_table b b' → newest plan b' i e' → ∃ e, newest plan b i e ∧ same_row e e'.
Proof.
  intros Hs (Hi & Hp & Hst & Hmax). destruct (same_table_back _ _ _ _ Hs Hi) as (e & He & Hr). exists e.
  split; [|done]. split_and!; [done|by rewrite <- (sr_plan _ _ Hr)|by rewrite <- (sr_status _ _ Hr)|].
  intros j ej Hj Hpj Hsj. destruct (same_table_forth _ _ _ _ Hs Hj) as (ej' & Hj' & Hrj).
  apply (Hmax j ej'); [done|by rewrite (sr_plan _ _ Hrj)|by rewrite (sr_status _ _ Hrj)].
Qed.
Lemma numbered_same b b' : same_table b b' → numbered b → numbered b'.
Proof.
  intros Hs Hn i e' Hi. destruct (same_table_back _ _ _ _ Hs Hi) as (e & He & Hr).
  rewrite (sr_id _ _ Hr). destruct Hs as [-> _]. by apply Hn.
Qed.
Lemma separate_same b b' : same_table b b' → separate b → separate b'.
Proof.
  intros Hs Hn i j e1 e2 H1 H2. destruct (same_table_back _ _ _ _ Hs H1) as (d1 & D1 & R1).
  destruct (same_table_back _ _ _ _ Hs H2) as (d2 & D2 & R2).
  rewrite (sr_file _ _ R1), (sr_file _ _ R2), (sr_key _ _ R1), (sr_key _ _ R2). by eapply Hn.
Qed.
Lemma survives_same b b' : same_table b b' → same_copies b b' → survives b → survives b'.
Proof.
  intros Hs [Hf Hk] (H1 & H2 & H3). split_and!; [by eapply numbered_same|by eapply separate_same|].
  intros plan i e' Hnew. destruct (newest_same _ _ _ _ _ Hs Hnew) as (e & He & Hr).
  destruct (H3 plan i e He) as (sum & c & Hsum & Hd & Hc). destruct He as [Hi _].
  exists sum, c. split_and!; [by rewrite (sr_sum _ _ Hr)|done|].
  rewrite (sr_file _ _ Hr), (sr_key _ _ Hr).
  destruct Hc as [(f & Hef & Hfc)|(k & Hek & Hkc)]; [left; exists f|right; exists k];
    (split; [done|]); [by rewrite (Hf i e)|by rewrite (Hk i e)].
Qed.

(** *** What retention removes *)

(** A row that has a newer success in its plan *)
Definition outdated (b : State) (e : Execution) : Prop :=
  ∃ e1 j ej, b_executions b !! ex_id e = Some e1 ∧ same_row e e1 ∧
    b_executions b !! j = Some ej ∧ ex_plan ej = ex_plan e ∧ ex_status ej = BSucceeded ∧ ex_id e < j.
Lemma outdated_same b b' e : same_table b b' → outdated b e → outdated b' e.
Proof.
  intros Hs (e1 & j & ej & H1 & Hr & Hj & Hp & Hst & Hlt).
  destruct (same_table_forth _ _ _ _ Hs H1) as (d1 & D1 & R1). destruct (same_table_forth _ _ _ _ Hs Hj) as (dj & Dj & Rj).
  exists d1, j, dj. split_and!; [done| |done|by rewrite (sr_plan _ _ Rj)|by rewrite (sr_status _ _ Rj)|done].
  destruct Hr, R1. constructor; congruence.
Qed.

(** Dropping the file or the object of such a row touches no newest success. *)
Lemma outdated_file b e plan i en f :
  survives b → outdated b e → ex_file e = Some f → newest plan b i en → ex_file en ≠ Some f.
Proof.
  intros (Hn & Hsep & _) (e1 & j & ej & H1 & Hr & Hj & Hp & Hst & Hlt) Hf (Hi & Hpl & _ & Hmax) Hfn.
  assert (ex_id e = i) as Hid.
  { eapply Hsep; [done|done|]. left. exists f. split; [by rewrite (sr_file _ _ Hr)|done]. }
  rewrite Hid in H1. rewrite Hi in H1. injection H1 as <-.
  assert (j <= i); [|lia]. eapply Hmax; [done| |done]. rewrite Hp, <- (sr_plan _ _ Hr). done.
Qed.
Lemma outdated_key b e plan i en k :
  survives b → outdated b e → ex_key e = Some k → newest plan b i en → ex_key en ≠ Some k.
Proof.
  intros (Hn & Hsep & _) (e1 & j & ej & H1 & Hr & Hj & Hp & Hst & Hlt) Hf (Hi & Hpl & _ & Hmax) Hfn.
  assert (ex_id e = i) as Hid.
  { eapply Hsep; [done|done|]. right. exists k. split; [by rewrite (sr_key _ _ Hr)|done]. }
  rewrite Hid in H1. rewrite Hi in H1. injection H1 as <-.
  assert (j <= i); [|lia]. eapply Hmax; [done| |done]. rewrite Hp, <- (sr_plan _ _ Hr). done.
Qed.
Lemma survives_drop_file b e f :
  outdated b e → ex_file e = Some f → survives b → survives (set_bfiles b (delete f (b_files b))).
Proof.
  intros Ho Hf Hs. pose proof Hs as (H1 & H2 & H3). split_and!; [done|done|]. intros plan i en Hnew.
  destruct (H3 plan i en Hnew) as (sum & c & Hsum & Hd & Hc). exists sum, c. split_and!; [done|done|].
  destruct Hc as [(g & Hg & Hgc)|Hk]; [left; exists g|by right]. split; [done|]. simpl. rewrite lookup_delete_ne; [done|].
  intros ->. by apply (outdated_file b e plan i en g Hs Ho Hf Hnew).
Qed.
Lemma survives_drop_object b e k :
  outdated b e → ex_key e = Some k → survives b → survives (set_objects b (delete k (b_objects b))).
Proof.
  intros Ho Hk Hs. pose proof Hs as (H1 & H2 & H3). split_and!; [done|done|]. intros plan i en Hnew.
  destruct (H3 plan i en Hnew) as (sum & c & Hsum & Hd & Hc). exists sum, c. split_and!; [done|done|].
  destruct Hc as [Hf|(g & Hg & Hgc)]; [by left|right; exists g]. split; [done|]. simpl. rewrite lookup_delete_ne; [done|].
  intros ->. by apply (outdated_key b e plan i en g Hs Ho Hk Hnew).
Qed.

Lemma rows_of_elem plan P b e :
  e ∈ rows_of plan P b ↔ (∃ i, b_executions b !! i = Some e) ∧ ex_plan e = plan ∧ P e = true.
Proof.
  unfold rows_of. rewrite merge_sort_Permutation, list_elem_of_filter, list_elem_of_fmap. split.
  - intros [[Hp HP] ([i e'] & -> & Hin%elem_of_map_to_list)]. split; [by exists i|done].
  - intros [[i Hi] [Hp HP]]. split; [done|]. exists (i, e). split; [done|by apply elem_of_map_to_list].
Qed.
Lemma expired_outdated plan P keep days b e : numbered b → e ∈ expired plan P keep days b → outdated b e.
Proof.
  intros Hn. unfold expired, last_succeeded. destruct (rows_of plan succeeded b) as [|ej rest] eqn:Hr; [by intros ?%elem_of_nil|].
  simpl. intros (x & -> & [[Hlt _] Hx]%list_elem_of_filter)%list_elem_of_fmap.
  apply elem_of_lookup_imap in Hx as (n & e & -> & Hx%list_elem_of_lookup_2). simpl in *.
  apply rows_of_elem in Hx as [[i Hi] [Hp _]]. destruct (Hn i e Hi) as [Hid _].
  assert (ej ∈ rows_of plan succeeded b) as Hj by (rewrite Hr; by left).
  apply rows_of_elem in Hj as [[j Hj] [Hpj Hsj%bool_decide_eq_true]]. destruct (Hn j ej Hj) as [Hidj _].
  exists e, j, ej. rewrite Hid. split_and!; [done|apply same_row_refl|done|congruence|done|lia].
Qed.

(** *** The loops of the retention *)

Definition purging (es : list Execution) (b : State) : Prop := survives b ∧ Forall (outdated b) es.
Lemma purging_mark es b f id :
  (∀ e, same_row e (f e)) → purging es b → purging es (set_executions b (alter f id (b_executions b)) (b_next b)).
Proof.
  intros Hf [Hs Ho]. pose proof (same_table_alter b f id Hf) as Ht. split; [by eapply survives_same|].
  eapply Forall_impl; [done|]. intros e. by apply outdated_same.
Qed.
Lemma wp_mark es id f b :
  (∀ e, same_row e (f e)) → purging es b → wp (ignore (update_execution id f)) (λ _ b', purging es b') b.
Proof. intros Hf Hb. apply wp_ignore, wp_exec; [done|by apply purging_mark..]. Qed.

Lemma drop_local_purging es e b : e ∈ es → purging es b → wp (drop_local e) (λ _ b', purging es b') b.
Proof.
  intros He Hb. unfold drop_local. destruct (ex_file e) as [f|] eqn:Hf; [|by apply wp_ret].
  assert (purging es (set_bfiles b (delete f (b_files b)))) as Hd.
  { destruct Hb as [Hs Ho]. split; [|done]. eapply survives_drop_file; [|done|done]. by eapply Forall_forall in Ho. }
  apply wp_bind, wp_attempt, wp_exec; [by apply wp_ret..|]. by apply wp_mark.
Qed.
Lemma drop_object_purging es e b : e ∈ es → purging es b → wp (drop_object e) (λ _ b', purging es b') b.
Proof.
  intros He Hb. unfold drop_object. destruct (ex_key e) as [k|] eqn:Hk; [|by apply wp_ret].
  assert (purging es (set_objects b (delete k (b_objects b)))) as Hd.
  { destruct Hb as [Hs Ho]. split; [|done]. eapply survives_drop_object; [|done|done]. by eapply Forall_forall in Ho. }
  apply wp_bind, wp_attempt, wp_exec; [by apply wp_ret..|]. by apply wp_mark.
Qed.

Lemma purging_expired plan P keep days b : survives b → purging (expired plan P keep days b) b.
Proof. intros Hs. split; [done|]. apply Forall_forall. intros e. apply expired_outdated, Hs. Qed.
Lemma retention_survives pl b : survives b → wp (applyRetention pl) (λ _ b', survives b') b.
Proof.
  intros Hb. apply wp_bind. unfold applyLocalRetention.
  assert (∀ b1, survives b1 → wp (applyS3Retention pl) (λ _ b', survives b') b1) as Hs3.
  { clear b Hb. intros b Hb. unfold applyS3Retention. case_decide; [by apply wp_ret|].
    apply wp_bind, wp_attempt, wp_query; [by apply wp_ret|].
    pose proof (purging_expired (pl_id pl) s3_copy (pl_s3_count pl) (pl_s3_days pl) b Hb) as Hp.
    destruct (expired _ _ _ _ b) as [|e es]; [by apply wp_ret|].
    apply wp_bind, wp_attempt. assert (keeps eq s3ClientFor) as Hk by (unfold s3ClientFor; keep).
    eapply wp_mono; [|apply Hk]. intros [x|[]] b1 <-; [by apply wp_ret|].
    eapply wp_mono; [|apply (wp_each (purging (e :: es))); [|done]]; [by intros _ b1 []|].
    intros x b1 Hx. by apply drop_object_purging. }
  case_decide; [apply wp_ret; by apply Hs3|].
  apply wp_bind, wp_attempt, wp_query; [apply wp_ret; by apply Hs3|].
  eapply wp_mono; [|apply (wp_each (purging (expired (pl_id pl) local_copy (pl_local_count pl) (pl_local_days pl) b)));
    [|by apply purging_expired]].
  - intros [x|[]] b1 [Hs1 _]; [done|by apply Hs3].
  - intros e b1 He. by apply drop_local_purging.
Qed.

(** *** The new execution *)

Lemma survives_row b id e1 next :
  survives b → (∀ e0, b_executions b !! id = Some e0 → ex_status e0 ≠ BSucceeded) →
  ex_id e1 = id → id < next → b_next b <= next →
  (∀ j ej, b_executions b !! j = Some ej → j ≠ id →
     (∀ f, ex_file e1 = Some f → ex_file ej ≠ Some f) ∧ (∀ k, ex_key e1 = Some k → ex_key ej ≠ Some k)) →
  (ex_status e1 = BSucceeded → copied b e1) →
  survives (set_executions b (<[ id := e1 ]> (b_executions b)) next).
Proof.
  intros (Hn & Hsep & Hc) H0' Hid Hlt Hle Hdis Hcop. split_and!.
  - intros i e. simpl. intros [[<- <-]|[Hne Hi]]%lookup_insert_Some; [done|]. apply Hn in Hi as [? ?]. split; [done|lia].
  - intros i j ei ej. simpl. intros [[<- <-]|[Hni Hi]]%lookup_insert_Some [[<- <-]|[Hnj Hj]]%lookup_insert_Some; [done|..].
    + intros [(f & F1 & F2)|(k & K1 & K2)]; destruct (Hdis j ej Hj) as [Df Dk]; [done|by destruct (Df f)|done|by destruct (Dk k)].
    + intros [(f & F1 & F2)|(k & K1 & K2)]; destruct (Hdis i ei Hi) as [Df Dk]; [done|by destruct (Df f)|done|by destruct (Dk k)].
    + by eapply Hsep.
  - intros plan i e (Hi & Hp & Hs & Hmax). simpl in Hi, Hmax.
    apply lookup_insert_Some in Hi as [[<- <-]|[Hne Hi]]; [by apply Hcop|].
    apply (Hc plan i e). split_and!; [done|done|done|]. intros j ej Hj Hpj Hsj.
    apply (Hmax j ej); [|done|done]. rewrite lookup_insert_ne; [done|]. intros <-. by apply (H0' ej).
Qed.

Definition waiting (e : Execution) : Prop :=
  ex_status e = BRunning ∧ ex_file e = None ∧ ex_key e = None ∧ ex_local_deleted e = false ∧ ex_s3_deleted e = false.
Record pending (id : Z) (f k : string) (b : State) : Prop := mkPending {
  pn_survives : survives b;
  pn_row : ∃ e0, b_executions b !! id = Some e0 ∧ waiting e0;
  pn_unused : unused f k b;
  pn_last : b_next b = id + 1
}.
Lemma pending_files id f k b v : pending id f k b → pending id f k (set_bfiles b (partial_alter v f (b_files b))).
Proof.
  intros [Hs Hr Hu Hl]. split; [|done..]. apply (survives_same b); [by apply same_table_refl| |exact Hs]. split; [|by intros].
  intros i e g Hi Hg. simpl. rewrite lookup_partial_alter_ne; [done|]. intros ->. by destruct (Hu i e Hi).
Qed.
Lemma pending_objects id f k b v : pending id f k b → pending id f k (set_objects b (partial_alter v k (b_objects b))).
Proof.
  intros [Hs Hr Hu Hl]. split; [|done..]. apply (survives_same b); [by apply same_table_refl| |exact Hs]. split; [by intros|].
  intros i e g Hi Hg. simpl. rewrite lookup_partial_alter_ne; [done|]. intros ->. by destruct (Hu i e Hi).
Qed.
Lemma pending_count id f k b n :
  pending id f k b →
  pending id f k (set_executions b (alter (λ e, mkExecution (ex_id e) (ex_plan e) (ex_status e) (ex_file e) (ex_sum e)
    (ex_uploaded e) (ex_key e) (ex_local_deleted e) (ex_s3_deleted e) (ex_created e) (Some n)) id (b_executions b)) (b_next b)).
Proof.
  intros [Hs (e0 & He & Hw) Hu Hl]. pose proof (λ g Hg, same_table_alter b g id Hg) as Ht. split.
  - eapply survives_same; [by apply Ht| |done]. done.
  - eexists. simpl. rewrite lookup_alter_eq, He. by split.
  - intros i e Hi. eapply same_table_back in Hi as (d & Hd & Hr); [|by apply Ht].
    rewrite (sr_file _ _ Hr), (sr_key _ _ Hr). by eapply Hu.
  - done.
Qed.

(** Its row is finished: as failed, or with the dump. *)
Lemma pending_finish id f k b st file sum up key :
  pending id f k b → (file = None ∨ file = Some f) → (key = None ∨ key = Some k) →
  (st = BSucceeded → ∃ s c, sum = Some s ∧ digest c = s ∧
     ((file = Some f ∧ b_files b !! f = Some c) ∨ (key = Some k ∧ b_objects b !! k = Some c))) →
  survives (set_executions b (alter (λ e, mkExecution (ex_id e) (ex_plan e) st file sum up key (ex_local_deleted e)
    (ex_s3_deleted e) (ex_created e) (ex_tables e)) id (b_executions b)) (b_next b)).
Proof.
  intros [Hs (e0 & He & Hst & _) Hu _] Hf Hk Hc. destruct (proj1 Hs id e0 He) as [Hid Hlt].
  replace (alter _ id (b_executions b)) with
    (<[ id := mkExecution (ex_id e0) (ex_plan e0) st file sum up key (ex_local_deleted e0) (ex_s3_deleted e0)
              (ex_created e0) (ex_tables e0) ]> (b_executions b)).
  2: { apply map_eq. intros i. destruct (decide (id = i)) as [<-|Hne].
       - by rewrite lookup_insert_eq, lookup_alter_eq, He.
       - by rewrite lookup_insert_ne, lookup_alter_ne. }
  apply survives_row; simpl; [done| |done|lia|lia| |].
  - intros e1 He1. rewrite He in He1. injection He1 as <-. by rewrite Hst.
  - intros j ej Hj _. destruct (Hu j ej Hj) as [Huf Huk]. destruct Hf as [->| ->], Hk as [->| ->]; naive_solver.
  - intros Hsucc. destruct (Hc Hsucc) as (s' & c & -> & Hd & Hcop). exists s', c. split_and!; [done|done|].
    destruct Hcop as [[-> Hfc]|[-> Hkc]]; [left|right]; eauto.
Qed.

Section Run.
Context (id : Z) (f k c : string).

(** The dump is on the server; the recorded object holds it too. *)
Definition dumped (b : State) : Prop := pending id f k b ∧ b_files b !! f = Some c.
Definition stored (key : option string) (b : State) : Prop :=
  key = None ∨ (key = Some k ∧ b_objects b !! k = Some c).

Lemma s3ClientFor_keeps : keeps eq s3ClientFor.
Proof. unfold s3ClientFor. keep. Qed.

Lemma uploadToS3_wp prefix key t size b :
  object_key prefix key t = k → dumped b →
  wp (uploadToS3 prefix key f t size)
    (λ r b', dumped b' ∧ match r with inr x => x = k ∧ b_objects b' !! k = Some c | inl _ => True end) b.
Proof.
  intros Hk [Hp Hf]. unfold uploadToS3. apply wp_bind. eapply wp_mono; [|apply s3ClientFor_keeps].
  intros [x|[]] b1 <-; [done|]. cbv zeta. rewrite Hk.
  assert (dumped (set_objects b (<[ k := c ]> (b_objects b)))) as Hd by (split; [by apply (pending_objects _ _ _ _ (λ _, Some c))|done]).
  apply wp_bind, wp_stmt; [done|rewrite Hf; done|]. rewrite Hf. simpl.
  apply wp_bind, wp_query; [done|]. simpl. rewrite lookup_insert_eq. simpl.
  case_decide; [apply wp_ret|by apply wp_throw]. split_and!; [done|done|]. simpl. by rewrite lookup_insert_eq.
Qed.

Lemma upload_copy_wp pl tg t size b :
  object_key (default "" (pl_storage pl)) (tg_key tg) t = k → dumped b →
  wp (upload_copy pl tg f t size)
    (λ r b', dumped b' ∧ match r with inr x => stored (snd x) b' | inl _ => True end) b.
Proof.
  intros Hk Hd. unfold upload_copy. destruct (pl_storage pl) as [prefix|]; [|apply wp_ret; split; [done|by left]].
  apply wp_bind, wp_attempt. eapply wp_mono; [|by apply uploadToS3_wp].
  intros [e|x] b1 [Hb1 Hx]; apply wp_ret; (split; [done|]); [by left|]. destruct Hx as [-> Hx]. by right.
Qed.

(** After the local copy may have been dropped, one copy is there. *)
Lemma drop_dump_wp pl key b :
  dumped b → stored key b →
  wp (drop_dump pl f key) (λ _ b', pending id f k b' ∧ stored key b' ∧
    (b_files b' !! f = Some c ∨ key = Some k)) b.
Proof.
  intros [Hp Hf] Hs. unfold drop_dump. destruct (pl_s3_only pl && _) eqn:E; [|apply wp_ret; eauto].
  apply andb_true_iff in E as [_ [x Hx]%bool_decide_eq_true]. destruct Hs as [->|[-> Hs]]; [done|].
  assert (pending id f k (set_bfiles b (delete f (b_files b)))) as Hd by (by apply (pending_files _ _ _ _ (λ _, None))).
  apply wp_bind, wp_attempt, wp_exec; apply wp_ret; (split_and!; [done|by right|by right]).
Qed.

Lemma finish_survives pl st key (dropped : bool) b :
  pending id f k b → stored key b → b_files b !! f = Some c ∨ key = Some k →
  wp (_ ← FinishBackupExecution id st (Some f) (Some (digest c)) (bool_decide (is_Some key)) key;
      _ ← (if dropped then ignore (MarkBackupLocalDeleted id) else mret ());
      _ ← applyRetention pl; mret st) (λ _ b', survives b') b.
Proof.
  intros Hp Hst Hcopy.
  assert (survives (set_executions b (alter (λ e, mkExecution (ex_id e) (ex_plan e) st (Some f) (Some (digest c))
    (bool_decide (is_Some key)) key (ex_local_deleted e) (ex_s3_deleted e) (ex_created e) (ex_tables e)) id
    (b_executions b)) (b_next b))) as Hfin.
  { eapply pending_finish; [done|by right|by destruct Hst as [->|[-> _]]; [left|right]|]. intros _.
    exists (digest c), c. split_and!; [done|done|].
    destruct Hcopy as [Hc|Hk]; [by left|]. destruct Hst as [->|[-> Hst]]; [done|by right]. }
  apply wp_bind, wp_exec; [apply Hp|done|]. apply wp_bind.
  match goal with |- wp _ _ ?s => assert (wp (if dropped then ignore (MarkBackupLocalDeleted id) else mret ()) (λ _ b', survives b') s) as Hm end.
  { destruct dropped; [|by apply wp_ret]. eapply wp_mono; [|apply (wp_mark [])]; [by intros _ b' [? _]|done|by split]. }
  eapply wp_mono; [|exact Hm]. intros [e|u] b1 Hb1; [done|].
  apply wp_bind. eapply wp_mono; [|by apply retention_survives]. intros [e|[]] b2 Hb2; [done|by apply wp_ret].
Qed.

Lemma record_dump_survives pl tg t size sum b :
  object_key (default "" (pl_storage pl)) (tg_key tg) t = k → sum = digest c → dumped b →
  wp (record_dump pl tg id t size f sum) (λ _ b', survives b') b.
Proof.
  intros Hk -> Hd. unfold record_dump.
  assert (keeps eq (ignore (W := State) fallible)) as Hver by keep.
  assert (keeps eq (countTables (tg_container tg))) as Hc by (unfold countTables; keep).
  apply wp_bind. eapply wp_mono; [|apply Hver]. intros [e|[]] b1 <-; [apply Hd|].
  apply wp_bind, wp_attempt. eapply wp_mono; [|apply Hc]. intros r b1 <-. apply wp_bind.
  assert (wp (match r with inr n => ignore (SetBackupExecutionTableCount id n) | inl _ => mret () end) (λ _ b', dumped b') b)
    as Hcount.
  { destruct r as [e|n]; [by apply wp_ret|]. destruct Hd as [Hp Hf].
    apply wp_ignore, wp_exec; [done|by split; [apply pending_count|]..]. }
  eapply wp_mono; [|exact Hcount]. intros [e|u] b2 Hb2; [apply Hb2|].
  apply wp_bind. eapply wp_mono; [|by apply upload_copy_wp]. intros [e|[st key]] b3 [Hb3 Hkey]; [apply Hb3|].
  apply wp_bind. eapply wp_mono; [|by apply drop_dump_wp]. intros [e|dropped] b4 (Hb4 & Hst & Hcopy); [apply Hb4|].
  by apply finish_survives.
Qed.

Lemma fail_survives {A} b cause : pending id f k b → wp (fail_backup (A := A) id cause) (λ _ b', survives b') b.
Proof.
  intros Hp. assert (∀ up, survives (set_executions b (alter (λ e, mkExecution (ex_id e) (ex_plan e) BFailed None None up None
    (ex_local_deleted e) (ex_s3_deleted e) (ex_created e) (ex_tables e)) id (b_executions b)) (b_next b))) as Hf.
  { intros up. eapply pending_finish; [done|by left|by left|done]. }
  unfold fail_backup. apply wp_bind, wp_ignore, wp_exec; [apply wp_throw, Hp|apply wp_throw, Hf..].
Qed.
End Run.

Lemma created_pending plan b f k :
  survives b → unused f k b →
  pending (b_next b) f k (set_executions b (<[ b_next b := Created plan b ]> (b_executions b)) (b_next b + 1)).
Proof.
  intros Hs Hu. split.
  - apply survives_row; simpl; [done| |done|lia|lia|done|done]. intros e0 He0. apply Hs in He0 as [_ ?]. lia.
  - exists (Created plan b). split; [by apply lookup_insert_eq|done].
  - intros i e. simpl. intros [[<- <-]|[_ Hi]]%lookup_insert_Some; [done|by eapply Hu].
  - done.
Qed.

(** C4: the last successful backup of every plan has a copy with the recorded
    checksum, on the server or in the bucket, before a backup runs and after it,
    wherever that backup fails or dies: the retention never takes the last success,
    and an s3_only plan gives up the local dump only for an object that holds it.
    (The rows do not share files or objects, and the new dump's names are not taken;
    see [same_second_overwrites] for when they are.) *)
Theorem last_backup_survives pl tg b :
  numbered b → separate b → (∀ plan i e, newest plan b i e → copied b e) →
  unused (dump_file (tg_key tg) (b_now b)) (object_key (default "" (pl_storage pl)) (tg_key tg) (b_now b)) b →
  wp (backup pl tg) (λ _ b', numbered b' ∧ separate b' ∧ ∀ plan i e, newest plan b' i e → copied b' e) b.
Proof.
  intros Hn Hsep Hc Hu. change (wp (backup pl tg) (λ _ b', survives b') b). unfold backup.
  assert (survives b) as Hs by done. pose proof (created_pending (pl_id pl) b _ _ Hs Hu) as Hp. revert Hp.
  set (f := dump_file _ _) in *. set (k := object_key _ _ _) in *. intros Hp.
  apply wp_bind, wp_query; [done|]. apply wp_bind, wp_stmt; [done|apply Hp|]. simpl.
  apply wp_bind, wp_look. simpl. fold f.
  destruct (pg_dump (tg_container tg) (pl_dump_all pl)) as [out code] eqn:Hdump.
  pose proof (pending_files _ _ _ _ (λ _, Some (gzip out)) Hp) as Hp2.
  apply wp_bind, wp_attempt, wp_stmt; rewrite ?Hdump; simpl; [by eapply fail_survives|by eapply fail_survives|].
  case_decide; [by eapply fail_survives|]. case_decide; [by eapply fail_survives|].
  eapply (record_dump_survives _ f k); [done|done|]. split; [done|]. simpl. apply lookup_insert_eq.
Qed.

(** ** Backing up, then restoring *)

Section Sparing.
Context (plan i : Z) (e : Execution) (b0 : State).

(** The newest success, its row and its copies untouched since [b0] *)
Record sparing (es : list Execution) (b : State) : Prop := mkSparing {
  sp_purging : purging es b; sp_newest : newest plan b i e;
  sp_file : ∀ f, ex_file e = Some f → b_files b !! f = b_files b0 !! f;
  sp_key : ∀ k, ex_key e = Some k → b_objects b !! k = b_objects b0 !! k
}.

Lemma outdated_other b x : newest plan b i e → outdated b x → ex_id x ≠ i.
Proof.
  intros (Hi & Hp & _ & Hmax) (e1 & j & ej & H1 & Hr & Hj & Hpj & Hs & Hlt) Hid. rewrite Hid, Hi in H1. injection H1 as <-.
  assert (j <= i); [|lia]. eapply Hmax; [done| |done]. rewrite Hpj, <- (sr_plan _ _ Hr). done.
Qed.
Lemma sparing_mark es b f x :
  x ∈ es → (∀ y, same_row y (f y)) → sparing es b →
  sparing es (set_executions b (alter f (ex_id x) (b_executions b)) (b_next b)).
Proof.
  intros Hx Hf [Hp Hn Hfile Hkey]. split; [by apply purging_mark| |done|done].
  assert (ex_id x ≠ i) as Hne by (eapply outdated_other; [done|]; destruct Hp as [_ Ho]; by eapply Forall_forall in Ho).
  pose proof Hn as (Hi & Hpl & Hs & Hmax). split_and!; [by simpl; rewrite lookup_alter_ne|done|done|].
  intros j ej Hj Hpj Hsj. destruct (same_table_back _ _ _ _ (same_table_alter b f (ex_id x) Hf) Hj) as (d & Hd & Hr).
  apply (Hmax j d); [done|by rewrite <- (sr_plan _ _ Hr)|by rewrite <- (sr_status _ _ Hr)].
Qed.

Lemma drop_local_spares es x b :
  x ∈ es → sparing es b → wp (drop_local x) (λ r b', r = inr () ∧ sparing es b') b.
Proof.
  intros Hx Hb. unfold drop_local. destruct (ex_file x) as [f|] eqn:Hf; [|by apply wp_ret].
  assert (outdated b x) as Ho by (destruct Hb as [[_ Ho] _ _ _]; by eapply Forall_forall in Ho).
  assert (sparing es (set_bfiles b (delete f (b_files b)))) as Hd.
  { destruct Hb as [[Hs Hall] Hn Hfile Hkey]. split; [split; [by eapply survives_drop_file|done]|done| |done].
    intros g Hg. simpl. rewrite lookup_delete_ne; [by apply Hfile|]. intros ->.
    by apply (outdated_file b x plan i e g Hs Ho Hf Hn). }
  apply wp_bind, wp_attempt, wp_exec; [by apply wp_ret..|].
  apply wp_ignore, wp_exec; (split; [done|]); [done|by apply sparing_mark..].
Qed.
Lemma drop_object_spares es x b :
  x ∈ es → sparing es b → wp (drop_object x) (λ r b', r = inr () ∧ sparing es b') b.
Proof.
  intros Hx Hb. unfold drop_object. destruct (ex_key x) as [k|] eqn:Hk; [|by apply wp_ret].
  assert (outdated b x) as Ho by (destruct Hb as [[_ Ho] _ _ _]; by eapply Forall_forall in Ho).
  assert (sparing es (set_objects b (delete k (b_objects b)))) as Hd.
  { destruct Hb as [[Hs Hall] Hn Hfile Hkey]. split; [split; [by eapply survives_drop_object|done]|done|done|].
    intros g Hg. simpl. rewrite lookup_delete_ne; [by apply Hkey|]. intros ->.
    by apply (outdated_key b x plan i e g Hs Ho Hk Hn). }
  apply wp_bind, wp_attempt, wp_exec; [by apply wp_ret..|].
  apply wp_ignore, wp_exec; (split; [done|]); [done|by apply sparing_mark..].
Qed.
Lemma each_spares es xs (body : Execution → M State ()) b :
  (∀ x b', x ∈ xs → sparing es b' → wp (body x) (λ r b'', r = inr () ∧ sparing es b'') b') → sparing es b →
  wp (each xs body) (λ r b', r = inr () ∧ sparing es b') b.
Proof.
  revert b. induction xs as [|x xs IH]; intros b Hbody Hb; simpl; [by apply wp_ret|].
  apply wp_bind. eapply wp_mono; [|apply Hbody; [by left|done]]. intros r b1 [-> Hb1].
  apply IH; [|done]. intros y b' Hy. apply Hbody. by right.
Qed.
Lemma sparing_again es es' b : Forall (outdated b) es' → sparing es b → sparing es' b.
Proof. intros Ho [[Hs _] Hn Hf Hk]. split; [by split|done..]. Qed.
Lemma sparing_expired es plan' P keep days b : sparing es b → sparing (expired plan' P keep days b) b.
Proof. intros Hb. eapply sparing_again; [|done]. by apply purging_expired, (sp_purging _ _ Hb). Qed.

Lemma retention_spares pl b :
  sparing [] b → wp (applyRetention pl) (λ r b', r = inr () ∧ ∃ es, sparing es b') b.
Proof.
  intros Hb. apply wp_bind. unfold applyLocalRetention.
  assert (∀ b1, (∃ es, sparing es b1) → wp (applyS3Retention pl) (λ r b', r = inr () ∧ ∃ es, sparing es b') b1) as Hs3.
  { clear b Hb. intros b [es0 Hb]. unfold applyS3Retention. case_decide; [apply wp_ret; eauto|].
    apply wp_bind, wp_attempt, wp_query; [apply wp_ret; eauto|].
    pose proof (sparing_expired _ (pl_id pl) s3_copy (pl_s3_count pl) (pl_s3_days pl) _ Hb) as Hp.
    destruct (expired _ _ _ _ b) as [|x es]; [apply wp_ret; eauto|].
    apply wp_bind, wp_attempt. eapply wp_mono; [|apply s3ClientFor_keeps]. intros [x'|[]] b1 <-; [apply wp_ret; eauto|].
    eapply wp_mono; [|apply (each_spares (x :: es)); [|done]]; [intros r b1 [-> Hb1]; eauto|].
    intros y b1 Hy. by apply drop_object_spares. }
  case_decide; [apply wp_ret; eauto|]. apply wp_bind, wp_attempt, wp_query; [apply wp_ret; eauto|].
  eapply wp_mono; [|eapply each_spares; [|by eapply sparing_expired]].
  - intros r b1 [-> Hb1]. eauto.
  - intros x b1 Hx. by apply drop_local_spares.
Qed.
End Sparing.

(** What a restore finds: a row whose flags say where its dump is. *)
Definition restorable (pl : Plan) (b : State) (id : Z) (c : string) : Prop :=
  ∃ e f, b_executions b !! id = Some e ∧ ex_id e = id ∧ ex_file e = Some f ∧ ex_sum e = Some (digest c) ∧
    ((ex_local_deleted e = false ∧ b_files b !! f = Some c) ∨
     (ex_local_deleted e = true ∧ ex_s3_deleted e = false ∧ is_Some (pl_storage pl) ∧
      ∃ k, ex_key e = Some k ∧ b_objects b !! k = Some c)).

Lemma restore_steady pl id tg b c text :
  restorable pl b id c → gunzip c = Some text → psql (tg_container tg) text = 0 →
  steady (restore pl id tg) (λ r b', r = inr id ∧ b_fed b' = (tg_container tg, c) :: b_fed b) b.
Proof.
  intros (e & f & He & Hid & Hf & Hsum & Hcopy) Hg Hq. unfold restore.
  apply steady_bind, steady_stmt. simpl. rewrite He. simpl. rewrite Hf. apply steady_bind.
  assert (steady (fetched pl e f) (λ r b', r = inr () ∧ b_files b' !! f = Some c ∧ b_fed b' = b_fed b) b) as Hfetch.
  { unfold fetched. destruct Hcopy as [[-> Hc]|(-> & -> & [prefix Hp] & k & Hk & Hc)]; [by apply steady_ret|].
    rewrite Hk. rewrite bool_decide_eq_false_2 by done. simpl. unfold fetchFromS3. rewrite Hk, Hp.
    apply steady_bind. exists (inr ()), b. split; [done|]. apply steady_stmt. rewrite Hc. simpl.
    split_and!; [done|by apply lookup_insert_eq|done]. }
  eapply steady_mono; [|exact Hfetch]. intros r b1 (-> & Hfile & Hfed). apply steady_bind.
  unfold verified. rewrite Hsum. apply steady_bind, steady_stmt. simpl. rewrite Hfile. simpl.
  rewrite decide_True by done. apply steady_ret. apply steady_bind, steady_stmt. rewrite Hfile, Hg. simpl.
  rewrite Hq. apply steady_ret. split; [by rewrite Hid|]. simpl. by rewrite Hfed.
Qed.

Section Round.
Context (pl : Plan) (tg : Target) (id t : Z) (f k c : string).
Hypothesis Hk : object_key (default "" (pl_storage pl)) (tg_key tg) t = k.

Lemma upload_copy_steady b :
  dumped id f k c b →
  steady (upload_copy pl tg f t (Z.of_nat (String.length c)))
    (λ r b', dumped id f k c b' ∧ ∃ key, r = inr (BSucceeded, key) ∧
       match pl_storage pl with None => key = None | Some _ => key = Some k ∧ b_objects b' !! k = Some c end) b.
Proof.
  intros Hd. unfold upload_copy. destruct (pl_storage pl) as [prefix|]; [|apply steady_ret; eauto].
  pose proof Hd as [Hp Hf]. simpl in Hk.
  assert (dumped id f k c (set_objects b (<[ k := c ]> (b_objects b)))) as Hd' by (split; [by apply (pending_objects _ _ _ _ (λ _, Some c))|done]).
  apply steady_bind, steady_attempt. unfold uploadToS3. apply steady_bind. exists (inr ()), b. split; [done|].
  cbv zeta. rewrite Hk. apply steady_bind, steady_stmt. rewrite Hf. simpl.
  apply steady_bind, steady_stmt. simpl. rewrite lookup_insert_eq. simpl. rewrite decide_True by done.
  do 2 apply steady_ret. split; [done|]. exists (Some k). split_and!; [done|done|]. simpl. by rewrite lookup_insert_eq.
Qed.

Lemma retention_settles : settles (applyRetention pl).
Proof.
  unfold applyRetention, applyLocalRetention, applyS3Retention, drop_local, drop_object, s3ClientFor, fallible,
    ListExpiredLocalBackups, ListExpiredS3Backups, Remove, Delete, MarkBackupLocalDeleted, MarkBackupS3Deleted,
    update_execution. settle.
Qed.

(** The finished row, its flag set when the local dump was given up *)
Definition finished_row (e0 : Execution) (up : bool) (key : option string) (dropped : bool) : Execution :=
  mkExecution (ex_id e0) (ex_plan e0) BSucceeded (Some f) (Some (digest c)) up key (dropped || ex_local_deleted e0)
    (ex_s3_deleted e0) (ex_created e0) (ex_tables e0).

Lemma finish_steady b (dropped : bool) key :
  pending id f k b →
  match pl_storage pl with None => key = None | Some _ => key = Some k ∧ b_objects b !! k = Some c end →
  (if dropped then is_Some (pl_storage pl) else b_files b !! f = Some c) →
  steady (_ ← FinishBackupExecution id BSucceeded (Some f) (Some (digest c)) (bool_decide (is_Some key)) key;
      _ ← (if dropped then ignore (MarkBackupLocalDeleted id) else mret ());
      _ ← applyRetention pl; mret BSucceeded) (λ r b', r = inr BSucceeded ∧ restorable pl b' id c) b.
Proof.
  intros Hp Hkey Hdrop. pose proof Hp as [Hs (e0 & He & Hrun & _ & _ & Hl & Hsd) Hu Hlast].
  destruct (proj1 Hs id e0 He) as [Hid _]. set (e := finished_row e0 (bool_decide (is_Some key)) key dropped).
  set (b1 := set_executions b (<[ id := e ]> (b_executions b)) (b_next b)).
  assert (survives b1) as Hs1.
  { apply survives_row; [done| |done|lia|lia| |].
    - intros e1 He1. rewrite He in He1. injection He1 as <-. by rewrite Hrun.
    - intros j ej Hj _. destruct (Hu j ej Hj) as [Uf Uk]. simpl.
      split; [by intros g [= <-]|]. intros g Hg. destruct (pl_storage pl) as [prefix|]; [destruct Hkey as [Hkey _]|]; congruence.
    - intros _. exists (digest c), c. split_and!; [done|done|]. simpl. destruct dropped; [|left; eauto].
      destruct Hdrop as [prefix Hpre]. rewrite Hpre in Hkey. destruct Hkey as [-> Hob]. right. eauto. }
  assert (newest (ex_plan e0) b1 id e) as Hnew.
  { split_and!; [by apply lookup_insert_eq|done|done|]. intros j ej Hj _ _. apply (proj1 Hs1) in Hj as [_ Hj]. simpl in Hj. lia. }
  assert (steady (_ ← applyRetention pl; mret BSucceeded) (λ r b', r = inr BSucceeded ∧ restorable pl b' id c) b1) as Hret.
  { assert (sparing (ex_plan e0) id e b1 [] b1) as Hsp by (by split; [split|..]).
    apply steady_bind. eapply steady_mono; [|exact (steady_wp _ _ _ retention_settles (retention_spares _ _ _ _ pl b1 Hsp))].
    intros r b2 [-> [es [_ (Hi & _) Hf2 Hk2]]]. apply steady_ret. split; [done|]. exists e, f.
    split_and!; [done|done|done|done|]. simpl. rewrite Hl, Hsd. destruct dropped; simpl in *.
    - right. destruct Hdrop as [prefix Hpre]. rewrite Hpre in Hkey. destruct Hkey as [-> Hob].
      split_and!; [done|done|by exists prefix|]. exists k. split; [done|]. by rewrite Hk2.
    - left. split; [done|]. by rewrite Hf2. }
  apply steady_bind, steady_stmt. apply steady_bind.
  assert (∀ g (m : gmap Z Execution), m !! id = Some e0 → alter g id m = <[ id := g e0 ]> m) as Halter.
  { intros g m Hm. apply map_eq. intros i. destruct (decide (id = i)) as [<-|Hne].
    - by rewrite lookup_insert_eq, lookup_alter_eq, Hm.
    - by rewrite lookup_insert_ne, lookup_alter_ne. }
  cbn [fst]. rewrite Halter by done. destruct dropped.
  - apply steady_ignore, steady_stmt. cbn [fst]. unfold b1, e, finished_row in Hret. simpl in Hret |- *.
    rewrite alter_insert_eq. simpl. exact Hret.
  - apply steady_ret. exact Hret.
Qed.

Lemma drop_dump_steady b key :
  dumped id f k c b →
  match pl_storage pl with None => key = None | Some _ => key = Some k ∧ b_objects b !! k = Some c end →
  steady (drop_dump pl f key) (λ r b', ∃ dropped : bool, r = inr dropped ∧ pending id f k b' ∧
    b_objects b' = b_objects b ∧ if dropped then is_Some (pl_storage pl) else b_files b' !! f = Some c) b.
Proof.
  intros [Hp Hf] Hkey. unfold drop_dump. destruct (pl_s3_only pl && _) eqn:E; [|apply steady_ret; by exists false].
  apply andb_true_iff in E as [_ [x Hx]%bool_decide_eq_true].
  apply steady_bind, steady_attempt, steady_stmt. simpl. apply steady_ret. exists true.
  split_and!; [done|by apply (pending_files _ _ _ _ (λ _, None))|done|]. destruct (pl_storage pl); [done|congruence].
Qed.

Lemma record_dump_steady b :
  dumped id f k c b →
  steady (record_dump pl tg id t (Z.of_nat (String.length c)) f (digest c))
    (λ r b', r = inr BSucceeded ∧ restorable pl b' id c) b.
Proof.
  intros Hd. unfold record_dump. apply steady_bind, steady_ignore, steady_stmt. simpl.
  assert (keeps eq (countTables (tg_container tg))) as Hc by (unfold countTables; keep).
  assert (settles (countTables (tg_container tg))) as Hset by (unfold countTables; settle).
  apply steady_bind, steady_attempt. eapply steady_mono; [|exact (steady_wp _ _ _ Hset (Hc b))].
  intros r b1 <-. apply steady_bind.
  assert (steady (match r with inr n => ignore (SetBackupExecutionTableCount id n) | inl _ => mret () end)
    (λ x b', x = inr () ∧ dumped id f k c b') b) as Hcount.
  { destruct r as [e|n]; [by apply steady_ret|]. destruct Hd as [Hp Hf].
    apply steady_ignore, steady_stmt. split; [done|]. split; [by apply pending_count|done]. }
  eapply steady_mono; [|exact Hcount]. intros x b2 [-> Hb2].
  apply steady_bind. eapply steady_mono; [|by apply upload_copy_steady]. intros x b3 (Hb3 & key & -> & Hkey).
  apply steady_bind. eapply steady_mono; [|by apply (drop_dump_steady b3 key)].
  intros x b4 (dropped & -> & Hp4 & Ho4 & Hcopy).
  apply (finish_steady b4 dropped key); [done|by rewrite Ho4|done].
Qed.
End Round.

(** C11: a backup of a database that pg_dump prints something of, in which nothing
    fails and whose names no recorded dump has, succeeds, and restoring it feeds to
    psql exactly what pg_dump printed, whether the dump is kept on the server, in the
    bucket, or in both, and whatever the retention rules of the plan are; it is
    restored when psql accepts it.  (For the excluded cases see
    [empty_dump_succeeds] and [same_second_overwrites].) *)
Theorem backup_restore_roundtrip `{!CodecLaws C} pl tg b text :
  numbered b → separate b → (∀ plan i e, newest plan b i e → copied b e) →
  unused (dump_file (tg_key tg) (b_now b)) (object_key (default "" (pl_storage pl)) (tg_key tg) (b_now b)) b →
  pg_dump (tg_container tg) (pl_dump_all pl) = (text, 0) → text ≠ "" → psql (tg_container tg) text = 0 →
  ∃ b1 b2, backup pl tg [] b = (inr BSucceeded, ([], b1)) ∧
    restore pl (b_next b) tg [] b1 = (inr (b_next b), ([], b2)) ∧
    ∃ c, b_fed b2 = (tg_container tg, c) :: b_fed b1 ∧ gunzip c = Some text.
Proof.
  intros Hn Hsep Hc Hu Hdump _ Hq. assert (survives b) as Hs by done.
  pose proof (created_pending (pl_id pl) b _ _ Hs Hu) as Hp.
  pose proof (pending_files _ _ _ _ (λ _, Some (gzip text)) Hp) as Hp2.
  assert (steady (backup pl tg) (λ r b', r = inr BSucceeded ∧ restorable pl b' (b_next b) (gzip text)) b)
    as (r & b1 & Hb1 & -> & Hr).
  { unfold backup. apply steady_bind, steady_stmt. simpl. apply steady_bind, steady_stmt. simpl.
    apply steady_bind, steady_look. simpl. apply steady_bind, steady_attempt, steady_stmt. rewrite Hdump. simpl.
    rewrite decide_False by (intros Hl; apply (gzip_header text); by destruct (gzip text)).
    eapply record_dump_steady; [done|]. split; [done|]. simpl. apply lookup_insert_eq. }
  destruct (restore_steady pl (b_next b) tg b1 (gzip text) text Hr (gunzip_gzip text) Hq) as (r & b2 & Hb2 & -> & Hfed).
  exists b1, b2. split_and!; [done|done|]. exists (gzip text). split; [done|apply gunzip_gzip].
Qed.

(** ** What is restored, and where *)

(** The file and the object of a dump that is only in the bucket *)
Definition fetchable (e : Execution) : option (string * string) :=
  if ex_local_deleted e then f ← ex_file e; k ← ex_key e; Some (f, k) else None.

(** Steps of a restore or a drill: rows, objects and what other containers were fed
    stay; the containers touched are those of one name, and so are those fed; no
    file changes, but for a dump of the bucket that is fetched to its place. *)
Record around (name : string) (dump : option (string * string)) (b b' : State) : Prop := mkAround {
  ar_rows : b_executions b' = b_executions b; ar_objects : b_objects b' = b_objects b;
  ar_files : ∀ f, b_files b' !! f = b_files b !! f ∨
    ∃ k c, dump = Some (f, k) ∧ b_objects b !! k = Some c ∧ b_files b' !! f = Some c;
  ar_touched : ∃ l, b_touched b' = l ++ b_touched b ∧ Forall (eq name) l;
  ar_fed : ∃ l, b_fed b' = l ++ b_fed b ∧ Forall (λ x, fst x = name) l
}.
#[export] Instance around_preorder name dump : PreOrder (around name dump).
Proof.
  split.
  - intros b. split; [done|done|by left|by exists []..].
  - intros b1 b2 b3 [R1 O1 S1 (l1 & T1 & F1) (k1 & D1 & G1)] [R2 O2 S2 (l2 & T2 & F2) (k2 & D2 & G2)].
    split; [congruence|congruence| |exists (l2 ++ l1)|exists (k2 ++ k1)].
    + intros f. destruct (S2 f) as [->|(k & c & Hd & Ho & Hf)]; [apply S1|]. right. exists k, c. by rewrite <- O1.
    + split; [by rewrite T2, T1, (assoc_L (++))|by apply Forall_app].
    + split; [by rewrite D2, D1, (assoc_L (++))|by apply Forall_app].
Qed.
(** The same, with nothing fed. *)
Definition unfed (name : string) (dump : option (string * string)) (b b' : State) : Prop :=
  around name dump b b' ∧ b_fed b' = b_fed b.
#[export] Instance unfed_preorder name dump : PreOrder (unfed name dump).
Proof.
  split; [by intros b|]. intros b1 b2 b3 [H1 F1] [H2 F2]. split; [by transitivity b2|congruence].
Qed.

Lemma unfed_touched name dump b : unfed name dump b (touched b name).
Proof. split; [|done]. split; [done|done|by left|exists [name]; split; [done|by constructor]|by exists []]. Qed.
Lemma unfed_drills name dump b m : unfed name dump b (set_drills b m).
Proof. split; [|done]. split; [done|done|by left|by exists []..]. Qed.

Lemma fetched_unfed name pl e f : ex_file e = Some f → keeps (unfed name (fetchable e)) (fetched pl e f).
Proof.
  intros Hf. unfold fetched, fetchFromS3, s3ClientFor, fetchable. rewrite Hf.
  destruct (ex_local_deleted e); [|keep]. destruct (ex_key e) as [k|]; simpl; [|keep].
  keep. apply (keeps_stmt _). intros b. destruct (b_objects b !! k) as [c|] eqn:Hk; simpl; [|done].
  split; [|done]. split; [done|done| |by exists []..]. intros g. simpl.
  destruct (decide (f = g)) as [<-|Hne]; [right; exists k, c; by rewrite lookup_insert_eq|left; by rewrite lookup_insert_ne].
Qed.
(** What passes the check has the recorded checksum. *)
Definition checked (e : Execution) (f : string) (b : State) : Prop :=
  ∀ sum, ex_sum e = Some sum → ∃ c, b_files b !! f = Some c ∧ digest c = sum.
Lemma verified_wp e f b :
  wp (verified e f) (λ r b', b' = b ∧ match r with inr _ => checked e f b | inl _ => True end) b.
Proof.
  unfold verified, checked. destruct (ex_sum e) as [sum|]; [|by apply wp_ret].
  apply wp_bind, wp_query; [done|]. destruct (b_files b !! f) as [c|]; [|done].
  case_decide as Hd; [apply wp_ret|by apply wp_throw]. split; [done|]. intros x [= <-]. eauto.
Qed.
(** What a container is fed is the file. *)
Lemma FileToExec_wp f name b :
  wp (FileToExec f name) (λ r b', (b' = b ∧ ∃ e, r = inl e) ∨ ∃ c text, b_files b !! f = Some c ∧ gunzip c = Some text ∧ b' = fed b name c ∧
    match r with inr code => code = psql name text | inl _ => True end) b.
Proof.
  apply wp_stmt; [by left; eauto|..]; (destruct (b_files b !! f) as [c|] eqn:Hf; [|by left; eauto]);
    (destruct (gunzip c) as [text|] eqn:Hg; [|by left; eauto]); right; by exists c, text.
Qed.
Lemma around_fed name dump b c : around name dump b (fed b name c).
Proof. split; [done|done|by left|by exists []|exists [(name, c)]; split; [done|by constructor]]. Qed.

(** A restore feeds at most one file into the container of its database, after
    that file was found to have the checksum recorded for the execution; it changes no
    row and no object, and reports success only when psql accepted the file. *)
Theorem restore_is_verified pl id tg b e sum :
  b_executions b !! id = Some e → ex_sum e = Some sum →
  wp (restore pl id tg) (λ r b', b_executions b' = b_executions b ∧ b_objects b' = b_objects b ∧
    (b_fed b' = b_fed b ∨ ∃ c, digest c = sum ∧ b_fed b' = (tg_container tg, c) :: b_fed b) ∧
    ∀ x, r = inr x → ∃ c text, digest c = sum ∧ b_fed b' = (tg_container tg, c) :: b_fed b ∧
      gunzip c = Some text ∧ psql (tg_container tg) text = 0) b.
Proof.
  intros He Hsum. unfold restore.
  apply wp_bind, wp_query; [by split_and!; [..|left|]|]. rewrite He.
  destruct (ex_file e) as [f|] eqn:Hf; [|apply wp_throw; by split_and!; [..|left|]].
  apply wp_bind. eapply wp_mono; [|by apply (fetched_unfed (tg_container tg))].
  intros r1 b1 [[R1 O1 _ _ _] F1]. destruct r1 as [x|[]]; [by split_and!; [..|left|]|].
  apply wp_bind. eapply wp_mono; [|apply verified_wp]. intros r2 b2 [-> Hr2].
  destruct r2 as [x|[]]; [by split_and!; [..|left|]|]. destruct (Hr2 sum Hsum) as (c & Hc & Hd).
  apply wp_bind. eapply wp_mono; [|apply FileToExec_wp].
  intros r3 b3 [[-> [x ->]]|(c' & text & Hc' & Hg & -> & Hcode)]; [by split_and!; [..|left|]|].
  rewrite Hc in Hc'. injection Hc' as <-.
  assert (b_fed (fed b1 (tg_container tg) c) = (tg_container tg, c) :: b_fed b) as Hfed by (simpl; by rewrite F1).
  destruct r3 as [x|code]; [split_and!; [done|done|right; eauto|done]|].
  case_decide as Hz; [apply wp_ret|apply wp_throw]; (split_and!; [done|done|right; eauto|]); [|done].
  intros x _. exists c, text. split_and!; [done|done|done|congruence].
Qed.

(** *** Drills *)

(** Nothing is fed and no file changes. *)
Definition still (name : string) (b b' : State) : Prop := unfed name None b b' ∧ b_files b' = b_files b.
#[local] Instance still_preorder name : PreOrder (still name).
Proof. split; [by intros b|]. intros b1 b2 b3 [H1 F1] [H2 F2]. split; [by transitivity b2|congruence]. Qed.
Lemma still_around name dump b b' : still name b b' → around name dump b b'.
Proof. intros [[[R O S T F] _] Hf]. split; [done|done| |done|done]. intros f. left. by rewrite Hf. Qed.
Lemma still_touched name b : still name b (touched b name).
Proof. split; [apply unfed_touched|done]. Qed.

Lemma bootScratch_still name ref : keeps (still name) (bootScratch name ref).
Proof.
  unfold bootScratch, ContainerStart. keep.
  - apply (keeps_stmt _). intros b. destruct (image_present ref); simpl; [apply still_touched|done].
  - apply (keeps_stmt _). intros b. apply still_touched.
  - apply (keeps_exec _). intros b. apply still_touched.
Qed.
Lemma waitReady_still n name : keeps (still name) (waitReady n name).
Proof. induction n as [|n IH]; simpl; keep. Qed.
Lemma drillLogin_still name tg : keeps (still name) (drillLogin tg).
Proof. unfold drillLogin. keep. Qed.
Lemma scratch_up_still tg name : keeps (still name) (scratch_up tg name).
Proof.
  pose proof (drillLogin_still name tg). pose proof (bootScratch_still name). pose proof (waitReady_still probes name).
  unfold scratch_up. keep.
Qed.

(** The container counts as many tables as the execution recorded, or some when it
    recorded no number. *)
Definition counted (e : Execution) (name : string) (fed : list (string * string)) : Prop :=
  ∃ out n, count_output name fed = (out, 0) ∧ atoi (trim_space (firstLine out)) = Some n ∧
    match ex_tables e with Some m => wrap32 n = m | None => wrap32 n ≠ 0 end.
Lemma comparable_spec e m :
  comparable e m = true → match ex_tables e with Some n => m = n | None => m ≠ 0 end.
Proof. unfold comparable. destruct (ex_tables e); lia. Qed.
Lemma countTables_wp name b :
  wp (countTables name) (λ r b', b' = b ∧ match r with
    | inr m => ∃ out n, count_output name (b_fed b) = (out, 0) ∧ atoi (trim_space (firstLine out)) = Some n ∧ m = wrap32 n
    | inl _ => True end) b.
Proof.
  unfold countTables. apply wp_bind, wp_query; [done|]. destruct (count_output name (b_fed b)) as [out code] eqn:Ho. simpl.
  case_decide as Hz; [|by apply wp_throw]. destruct (atoi _) as [n|] eqn:Hn; [|by apply wp_throw].
  apply wp_ret. split; [done|]. exists out, n. split_and!; [congruence|done|done].
Qed.

Definition drilled (e : Execution) (name : string) (b b' : State) : Prop :=
  ∃ c text, b_fed b' = (name, c) :: b_fed b ∧ (∀ sum, ex_sum e = Some sum → digest c = sum) ∧
    gunzip c = Some text ∧ psql name text = 0 ∧ counted e name (b_fed b').

Lemma drill_steps_wp pl tg e name b :
  wp (drill_steps pl tg e name)
    (λ r b', around name (fetchable e) b b' ∧ match r with inr _ => drilled e name b b' | inl _ => True end) b.
Proof.
  unfold drill_steps. destruct (ex_file e) as [f|] eqn:Hef; [|by apply wp_throw].
  apply wp_bind. eapply wp_mono; [|by apply (fetched_unfed name pl e f)]. intros r1 b1 [A1 F1]. destruct r1 as [x|[]]; [done|].
  apply wp_bind. eapply wp_mono; [|apply verified_wp]. intros r2 b2 [-> Hr2]. destruct r2 as [x|[]]; [done|].
  apply wp_bind. eapply wp_mono; [|apply scratch_up_still]. intros r3 b3 S3. pose proof S3 as [[_ F3] Hf3].
  assert (around name (fetchable e) b b3) as A13 by (transitivity b1; [done|by apply still_around]). destruct r3 as [x|[]]; [done|].
  apply wp_bind. eapply wp_mono; [|apply FileToExec_wp].
  intros r4 b4 [[-> [x ->]]|(c & text & Hc & Hg & -> & Hcode)]; [done|].
  assert (around name (fetchable e) b (fed b3 name c)) as A4 by (transitivity b3; [done|apply around_fed]).
  destruct r4 as [x|code]; [done|]. case_decide as Hz; [|by apply wp_throw].
  apply wp_bind. eapply wp_mono; [|apply countTables_wp]. intros r5 b5 [-> Hr5].
  destruct r5 as [x|m]; [done|]. destruct (comparable e m) eqn:Hm; [apply wp_ret|by apply wp_throw].
  split; [done|]. exists c, text. split_and!; [simpl; congruence| |done|congruence|].
  - intros sum Hsum. destruct (Hr2 sum Hsum) as (c' & Hc' & Hd). rewrite Hf3 in Hc. congruence.
  - destruct Hr5 as (out & n & Ho & Hn & ->). exists out, n. split_and!; [done|done|by apply comparable_spec].
Qed.

Lemma drilled_unfed e name dump b b1 b2 : unfed name dump b1 b2 → drilled e name b b1 → drilled e name b b2.
Proof. intros [_ Hf] (c & text & H1 & H2 & H3 & H4 & H5). exists c, text. rewrite Hf. by split_and!. Qed.
Lemma drill_verdict_wp pl tg e id name b :
  wp (drill_verdict pl tg e id name) (λ r b', around name (fetchable e) b b' ∧ (r = inr true → drilled e name b b')) b.
Proof.
  unfold drill_verdict. apply wp_bind, wp_attempt. eapply wp_mono; [|apply drill_steps_wp].
  intros r b1 [A1 Hr]. destruct r as [x|n].
  - assert (keeps (unfed name (fetchable e)) (_ ← ignore (FinishRestoreDrill id false); _ ← ignore fallible; mret false)) as Hk.
    { keep. apply (keeps_exec _). intros b2. apply unfed_drills. }
    intros fs. pose proof (Hk b1 fs) as Hw. revert Hw.
    unfold FinishRestoreDrill, ignore, fallible, query, exec, stmt, attempt, mbind, M_bind, mret, M_ret. simpl.
    destruct fs as [|[] [|[] fs]]; simpl; intros [A2 _]; (split; [by transitivity b1|done]).
  - apply wp_bind, wp_exec; [split; [done|by intros]|split; [|by intros]; etransitivity; [done|apply unfed_drills]|].
    set (b2 := set_drills _ _). assert (unfed name (fetchable e) b1 b2) as A2 by apply unfed_drills.
    assert (around name (fetchable e) b b2) as A12 by (transitivity b1; [done|apply A2]).
    apply wp_bind, wp_query; [done|]. apply wp_ret. split; [done|]. intros _. by apply (drilled_unfed e name (fetchable e) b b1 b2).
Qed.

(** C20: a drill never touches the live database: whatever fails, the containers it
    creates, starts, removes or feeds all bear one name that begins with
    akerdock-drill-; no row of a backup, no object and no file changes, but for the
    dump of the drilled backup, which is fetched to its place when only the bucket
    has it.  It reports success only when the newest dump of the plan, with its
    recorded checksum, was fed into that container, psql accepted it, and the tables
    counted there are as many as the source had (at least one, when the backup
    recorded no number). *)
Theorem drill_is_disposable uuid pl tg b :
  wp (drill uuid pl tg) (λ r b',
    ∃ name, (∃ s, name = "akerdock-drill-" +:+ s) ∧
      around name (head (rows_of (pl_id pl) restorable_row b) ≫= fetchable) b b' ∧
      (r = inr true → ∃ e, head (rows_of (pl_id pl) restorable_row b) = Some e ∧ drilled e name b b')) b.
Proof.
  unfold drill. set (dump := head _ ≫= fetchable).
  assert (∀ (x : err + bool) b1, b_executions b1 = b_executions b → b_objects b1 = b_objects b → b_touched b1 = b_touched b →
    b_fed b1 = b_fed b → b_files b1 = b_files b → ∀ name, around name dump b b1) as Hsame.
  { intros x b1 H1 H2 H3 H4 H5 name. split; [done|done|intros f; left; by rewrite H5|by exists []..]. }
  apply wp_bind, wp_attempt, wp_query; [apply wp_throw; exists "akerdock-drill-"; split_and!; [by exists ""|done|done]|].
  destruct (rows_of (pl_id pl) restorable_row b) as [|e rest] eqn:Hrows; simpl in dump |- *;
    [apply wp_throw; exists "akerdock-drill-"; split_and!; [by exists ""|done|done]|].
  apply wp_bind, wp_stmt; [exists "akerdock-drill-"; split_and!; [by exists ""|done|done]
    |exists "akerdock-drill-"; split_and!; [by exists ""|by apply (Hsame (inr true))|done]|]. simpl.
  set (id := Z.of_nat _). set (b1 := set_drills _ _). set (name := scratch_name (uuid id)).
  apply wp_bind, wp_attempt. eapply wp_mono; [|apply drill_verdict_wp]. intros r b2 [A2 Hr].
  assert (around name dump b b2) as A02 by (transitivity b1; [by apply (Hsame (inr true))|done]).
  assert (∀ b3, unfed name dump b2 b3 → ∃ name0, (∃ s, name0 = "akerdock-drill-" +:+ s) ∧ around name0 dump b b3 ∧
    (r = inr true → ∃ e0, Some e = Some e0 ∧ drilled e0 name0 b b3)) as Hend.
  { intros b3 H3. exists name. split_and!; [by eexists|transitivity b2; [done|apply H3]|]. intros Ht. exists e. split; [done|].
    eapply drilled_unfed; [done|]. destruct (Hr Ht) as (c & text & Hfed & Hrest). by exists c, text. }
  apply wp_bind, wp_ignore, wp_exec; (destruct r as [x|ok]; [apply wp_throw|apply wp_ret]);
    (apply Hend; done || apply unfed_touched).
Qed.
End Survival.

(** ** Examples *)

(** A compression that only marks, and a database that prints three tables. *)
#[local] Instance marking : Codec := {|
  gzip := λ s, String "z" s;
  gunzip := λ s, match s with String a s' => if decide (a = "z"%char) then Some s' else None | EmptyString => None end;
  digest := λ s, s
|}.
#[local] Instance marking_laws : CodecLaws marking.
Proof. split; [done|by intros s]. Qed.
#[local] Instance three_tables : Databases := {|
  pg_dump := λ container all, if decide (container = "blank") then ("", 0) else ((if all then "everything" else "orders"), 0);
  psql := λ _ _, 0;
  count_output := λ _ _, ("3", 0);
  env_names := λ _, ("app", 0);
  pg_isready := λ _ _, 0;
  image_present := λ _, true
|}.

Definition none_yet : State := mkBState 1700000000000000000 1 ∅ ∅ ∅ ∅ [] [].
Definition orders : Target := mkTarget "db" "db" (Some ("app", "app")) "".
Definition plan_of (id : Z) (all : bool) (storage : option string) (s3_only : bool) : Plan :=
  mkPlan id all storage s3_only 1 0 1 0.
Definition nightly : Plan := plan_of 1 false None false.
Definition offsite : Plan := plan_of 1 false (Some "/backups/") true.
Definition after {A} (m : M State A) (fs : list fate) (b : State) : State := snd (snd (m fs b)).

Lemma none_yet_rows b : b_executions b = ∅ →
  numbered b ∧ separate b ∧ (∀ plan i e, newest plan b i e → copied b e) ∧ ∀ f k, unused f k b.
Proof.
  intros He. unfold numbered, separate, newest, unused. rewrite He.
  split_and!; [intros i e|intros i j e1 e2|intros plan i e [H _]|intros f k i e]; by rewrite ?lookup_empty in *.
Qed.

Lemma last_backup_survives_witness :
  wp (backup offsite orders) (λ _ b', numbered b' ∧ separate b' ∧ ∀ plan i e, newest plan b' i e → copied b' e) none_yet ∧
  fst (backup offsite orders [] none_yet) = inr BSucceeded.
Proof.
  split; [|by vm_compute]. destruct (none_yet_rows none_yet eq_refl) as (H1 & H2 & H3 & H4).
  apply (last_backup_survives offsite orders none_yet H1 H2 H3 (H4 _ _)).
Defined.
Lemma backup_restore_roundtrip_witness :
  ∃ b1 b2, backup offsite orders [] none_yet = (inr BSucceeded, ([], b1)) ∧
    restore offsite 1 orders [] b1 = (inr 1, ([], b2)) ∧ ∃ c, b_fed b2 = ("db", c) :: b_fed b1 ∧ gunzip c = Some "orders".
Proof.
  destruct (none_yet_rows none_yet eq_refl) as (H1 & H2 & H3 & H4).
  apply (backup_restore_roundtrip offsite orders none_yet "orders" H1 H2 H3 (H4 _ _)); by vm_compute.
Defined.
Definition backed_up : State := after (backup offsite orders) [] none_yet.
Lemma restore_is_verified_witness :
  ∃ e, b_executions backed_up !! 1 = Some e ∧
    wp (restore offsite 1 orders) (λ r b', b_executions b' = b_executions backed_up ∧ b_objects b' = b_objects backed_up ∧
    (b_fed b' = b_fed backed_up ∨ ∃ c, digest c = "zorders" ∧ b_fed b' = ("db", c) :: b_fed backed_up) ∧
    ∀ x, r = inr x → ∃ c text, digest c = "zorders" ∧ b_fed b' = ("db", c) :: b_fed backed_up ∧
      gunzip c = Some text ∧ psql "db" text = 0) backed_up.
Proof.
  destruct (b_executions backed_up !! 1) as [e|] eqn:He; [|by vm_compute in He]. exists e. split; [done|].
  apply (restore_is_verified offsite 1 orders backed_up e "zorders" He). vm_compute in He. by injection He as <-.
Defined.

(** A drill of the offsite backup succeeds, and brings its dump back. *)
Lemma drill_is_disposable_witness :
  wp (drill (λ _, "0123456789abcdef") offsite orders) (λ r b',
    ∃ name, (∃ s, name = "akerdock-drill-" +:+ s) ∧
      around name (head (rows_of 1 restorable_row backed_up) ≫= fetchable) backed_up b' ∧
      (r = inr true → ∃ e, head (rows_of 1 restorable_row backed_up) = Some e ∧ drilled e name backed_up b')) backed_up ∧
  fst (drill (λ _, "0123456789abcdef") offsite orders [] backed_up) = inr true ∧
  b_touched (after (drill (λ _, "0123456789abcdef") offsite orders) [] backed_up) = replicate 3 "akerdock-drill-0123456789ab".
Proof.
  split; [|by vm_compute]. exact (drill_is_disposable (λ _, "0123456789abcdef") offsite orders backed_up).
Defined.

(** A database that prints nothing is backed up with success: what is counted is the
    compressed file, which is never empty. *)
Lemma empty_dump_succeeds :
  fst (backup nightly (mkTarget "blank" "blank" None "") [] none_yet) = inr BSucceeded.
Proof. by vm_compute. Qed.

(** Two plans of one database that fire in the same second write to the same file:
    the second dump replaces the first, which can no longer be restored. *)
Definition both_plans : State := after (backup (plan_of 2 true None false) orders) [] (after (backup nightly orders) [] none_yet).
Lemma same_second_overwrites :
  ex_file <$> b_executions both_plans !! 1 = ex_file <$> b_executions both_plans !! 2 ∧
  (ex_status <$> b_executions both_plans !! 1) = Some BSucceeded ∧
  fst (restore nightly 1 orders [] both_plans) = inl (Failure "checksum mismatch") ∧
  fst (restore nightly 2 orders [] both_plans) = inr 2.
Proof. by vm_compute. Qed.

(** When the row of a dump that was given up locally is not marked, the restore looks
    for the local file and fails, although the bucket has the dump. *)
Definition unmarked : State := after (backup offsite orders) (replicate 13 Applied ++ [Refused]) none_yet.
Lemma unmarked_drop_is_not_restored :
  fst (backup offsite orders (replicate 13 Applied ++ [Refused]) none_yet) = inr BSucceeded ∧
  b_files unmarked = ∅ ∧ size (b_objects unmarked) = 1%nat ∧
  fst (restore offsite 1 orders [] unmarked) = inl Broken.
Proof. by vm_compute. Qed.

(** A dump fetched for a restore stays on the server: its row says that the local copy
    is gone, so no retention will ever remove it. *)
Definition restored : State := after (restore offsite 1 orders) [] backed_up.
Lemma fetched_dump_stays :
  b_files backed_up = ∅ ∧ size (b_files restored) = 1%nat ∧
  (local_copy <$> b_executions restored !! 1) = Some false.
Proof. by vm_compute. Qed.
