(* ===== verification/WebhookReceive.v ===== *)
(** * Receiving webhooks

    Models [ReceiveGitWebhook] of [internal/handlers/gitwebhooks.go]: an
    unauthenticated endpoint, whose only credential is the signature and whose
    only protection against replays is the unique (provider, delivery_id) of
    [webhook_deliveries].  The handler is a program over [ControlDB], so any of
    its statements may fail; the system around it interleaves deliveries with
    the retention purge, the clock and every other writer of the database but
    the webhook of GitHub apps ([handlers/githubapps.go]), which is not modelled. *)
From S2P Require Import Prelude GoLib Queue Effects Json GitWebhook ControlDB.
Local Open Scope Z_scope.

(** What the handler reads of a request; [rq_body] is [None] when reading fails. *)
Record request := mkRequest {
  rq_provider : string; rq_endpoint : string; rq_header : Header; rq_body : option string
}.

Definition len (s : string) : Z := Z.of_nat (String.length s).

(** [GetWebhookEndpointByUUID] *)
Definition GetWebhookEndpointByUUID (uuid : string) : M World Endpoint :=
  query (λ w, match w_endpoints w !! uuid with
              | Some e => if e_enabled e then inr e else inl NoRows
              | None => inl NoRows
              end).

(** [jobs.TypeWebhookProcess] and the job of a delivery. *)
Definition webhook_job : EnqueueOptions := mkOptions "webhook" "webhook.process" 0 None 0 None None true.

Section Receive.
(** [pgtype.UUID.Scan], and the value a [jsonb] column keeps of a valid text. *)
Context (scan_uuid : string → option string) (jsonb : string → option json).

(** [truncatedPayload] *)
Definition maxStored : Z := Z.shiftl 512 10.
Definition truncatedPayload (body : string) : json :=
  if maxStored <? len body then JObj [("truncated", JBool true)]
  else match jsonb body with
       | None => JObj [("unparsable", JBool true)]
       | Some v => v
       end.

(** [ReceiveGitWebhook]: the status it answers. *)
Definition ReceiveGitWebhook (r : request) : M World Z :=
  let provider := rq_provider r in
  if negb (Supported provider) then mret 404
  else match rq_body r with
  | None => mret 400
  | Some body =>
      if MaxBodyBytes <? len body then mret 413
      else match scan_uuid (rq_endpoint r) with
      | None => mret 404
      | Some uuid =>
          found ← attempt (GetWebhookEndpointByUUID uuid);
          match found with
          | inl _ => mret 404
          | inr endpoint =>
              if negb (bool_decide (provider = e_provider endpoint)) then mret 404
              else match e_secret endpoint with
              | None => mret 500
              | Some secret =>
                  let deliveryID := DeliveryID provider (rq_header r) in
                  if decide (deliveryID = "") then mret 401
                  else
                    let eventType := EventType provider (rq_header r) in
                    let valid := VerifySignature provider (rq_header r) body secret in
                    created ← attempt (CreateWebhookDelivery provider deliveryID eventType valid
                      (if valid then DReceived else DFailed) (truncatedPayload body) (e_app endpoint));
                    match created with
                    | inl NoRows => mret 200
                    | inl _ => mret 500
                    | inr delivery =>
                        if negb valid then mret 401
                        else
                          queued ← attempt (Enqueue webhook_job (PWebhookProcess (dl_id delivery)));
                          match queued with inl _ => mret 500 | inr _ => mret 200 end
                    end
              end
          end
      end
  end.

(** A request that proves knowledge of the secret of the endpoint it names. *)
Definition authentic (w : World) (r : request) (provider id : string) : Prop :=
  rq_provider r = provider ∧ DeliveryID provider (rq_header r) = id ∧
  ∃ uuid e secret body,
    scan_uuid (rq_endpoint r) = Some uuid ∧ w_endpoints w !! uuid = Some e ∧ e_enabled e = true ∧
    e_provider e = provider ∧ e_secret e = Some secret ∧ rq_body r = Some body ∧ len body <= MaxBodyBytes ∧
    VerifySignature provider (rq_header r) body secret = true.

(** ** Histories *)

(** What a delivery row was created with. *)
Record ident := mkIdent { i_provider : string; i_delivery : string; i_valid : bool; i_received : Z }.
Definition ident_of (d : Delivery) : ident :=
  mkIdent (dl_provider d) (dl_delivery_id d) (dl_signature_valid d) (dl_received_at d).
Definition same_key (a b : ident) : Prop := i_provider a = i_provider b ∧ i_delivery a = i_delivery b.

(** The database, every request received so far with the database it met, and
    every delivery row that ever existed. *)
Record Sys := mkSys {
  sys_world : World; sys_log : list (World * request); sys_born : gmap Z ident
}.

Definition recorded (w : World) (born : gmap Z ident) : gmap Z ident := (ident_of <$> w_deliveries w) ∪ born.

(** Time passing and a change of the database by anyone else: configuration, jobs, deployments,
    previews and the outcome of a delivery are free; no delivery appears or
    loses its identity, and no webhook job is made up or forgotten.  Left out are
    the deliveries of [ReceiveGithubAppWebhook] ([handlers/githubapps.go]), which go
    to the same table under the provider github with ids GitHub gives: it queues
    jobs of its own types and none of type webhook.process. *)
Record elsewhere (w w' : World) : Prop := mkElsewhere {
  els_now : w_now w <= w_now w';
  els_rows : ident_of <$> w_deliveries w' = ident_of <$> w_deliveries w;
  els_next : w_delivery_next w' = w_delivery_next w;
  els_queue : next_id (w_queue w) <= next_id (w_queue w');
  els_jobs : ∀ j d, w_payloads w' !! j = Some (PWebhookProcess d) ↔ w_payloads w !! j = Some (PWebhookProcess d)
}.

Inductive step : Sys → Sys → Prop :=
| Receives w log born r fs res fs' w' :
    ReceiveGitWebhook r fs w = (res, (fs', w')) →
    step (mkSys w log born) (mkSys w' ((w, r) :: log) (recorded w' born))
| Purges w log born fs res fs' w' :
    PurgeWebhookDeliveries fs w = (res, (fs', w')) →
    step (mkSys w log born) (mkSys w' log born)
| Others w log born w' :
    elsewhere w w' → step (mkSys w log born) (mkSys w' log born).

(** An instance that has received nothing. *)
Definition pristine (w : World) : Prop :=
  w_deliveries w = ∅ ∧ ∀ j d, w_payloads w !! j ≠ Some (PWebhookProcess d).
Definition start (w : World) : Sys := mkSys w [] ∅.

(** ** The invariant *)

Record sound (s : Sys) : Prop := mkSound {
  snd_rows : ∀ i d, w_deliveries (sys_world s) !! i = Some d →
    sys_born s !! i = Some (ident_of d);
  snd_born : ∀ i a, sys_born s !! i = Some a → i < w_delivery_next (sys_world s) ∧
    i_received a <= w_now (sys_world s);
  snd_gone : ∀ i a, sys_born s !! i = Some a → w_deliveries (sys_world s) !! i = None →
    i_received a < w_now (sys_world s) - delivery_retention;
  snd_apart : ∀ i j a b, i < j → sys_born s !! i = Some a → sys_born s !! j = Some b → same_key a b →
    i_received a < i_received b - delivery_retention;
  snd_valid : ∀ i a, sys_born s !! i = Some a → i_valid a = true →
    ∃ w r, (w, r) ∈ sys_log s ∧ authentic w r (i_provider a) (i_delivery a);
  snd_fresh : ∀ j d, w_payloads (sys_world s) !! j = Some (PWebhookProcess d) →
    j < next_id (w_queue (sys_world s));
  snd_jobs : ∀ j d, w_payloads (sys_world s) !! j = Some (PWebhookProcess d) →
    ∃ a, sys_born s !! d = Some a ∧ i_valid a = true;
  snd_once : ∀ j j' d, w_payloads (sys_world s) !! j = Some (PWebhookProcess d) →
    w_payloads (sys_world s) !! j' = Some (PWebhookProcess d) → j = j'
}.

(** *** What one request does *)

Definition add_row (w : World) (d : Delivery) : World :=
  set_deliveries w (<[ dl_id d := d ]> (w_deliveries w)) (w_delivery_next w + 1).
Definition add_job (w : World) (d : Z) : World :=
  set_jobs w (fst (EnqueueJob (w_queue w) (new_row webhook_job (w_now w))))
    (<[ next_id (w_queue w) := PWebhookProcess d ]> (w_payloads w)).

(** The row a request may leave behind. *)
Record row_of (r : request) (w : World) (d : Delivery) : Prop := mkRowOf {
  ro_id : dl_id d = w_delivery_next w;
  ro_free : delivery_taken w (dl_provider d) (dl_delivery_id d) = false;
  ro_received : dl_received_at d = w_now w;
  ro_valid : dl_signature_valid d = true → authentic w r (dl_provider d) (dl_delivery_id d)
}.

Inductive effect (r : request) (w : World) : World → Prop :=
| Nothing : effect r w w
| Absorbed : effect r w (set_deliveries w (w_deliveries w) (w_delivery_next w + 1))
| Stored d : row_of r w d → effect r w (add_row w d)
| Triggered d : row_of r w d → dl_signature_valid d = true → effect r w (add_job (add_row w d) (dl_id d)).

Lemma ReceiveGitWebhook_effect r w : wp (ReceiveGitWebhook r) (λ _ w', effect r w w') w.
Proof.
  unfold ReceiveGitWebhook. destruct (Supported (rq_provider r)) eqn:Hp; simpl; [|wp; constructor].
  destruct (rq_body r) as [body|] eqn:Hb; [|wp; constructor].
  destruct (MaxBodyBytes <? len body) eqn:Hlen; [wp; constructor|].
  destruct (scan_uuid (rq_endpoint r)) as [uuid|] eqn:Hu; [|wp; constructor].
  wp. apply wp_query; [wp; constructor|].
  destruct (w_endpoints w !! uuid) as [e|] eqn:He; [|wp; constructor].
  destruct (e_enabled e) eqn:Hen; [|wp; constructor].
  case_bool_decide as Hpe; simpl; [|wp; constructor].
  destruct (e_secret e) as [secret|] eqn:Hs; [|wp; constructor].
  case_decide as Hd; [wp; constructor|].
  set (valid := VerifySignature _ _ _ _).
  wp. unfold CreateWebhookDelivery.
  assert (valid = true → authentic w r (rq_provider r) (DeliveryID (rq_provider r) (rq_header r))) as Hauth.
  { intros Hv. split_and!; [done..|]. exists uuid, e, secret, body. split_and!; try done. lia. }
  apply wp_stmt.
  - wp. constructor.
  - destruct (delivery_taken _ _ _) eqn:Ht; simpl; wp; [constructor|].
    apply (Stored r w (mkDelivery _ _ _ _ _ _ _ _ _ _)). by constructor.
  - destruct (delivery_taken _ _ _) eqn:Ht; simpl; [wp; constructor|].
    set (d := mkDelivery _ _ _ _ _ _ _ _ _ _).
    assert (row_of r w d) as Hrow by by constructor.
    destruct valid eqn:Hv; simpl; [|wp; by apply (Stored r w d)].
    wp. apply wp_stmt.
    + wp. by apply (Stored r w d).
    + wp. rewrite (Enqueue_unfold _ webhook_job). simpl. by apply (Triggered r w d).
    + rewrite (Enqueue_unfold _ webhook_job). simpl. wp. by apply (Triggered r w d).
Qed.

(** *** Every step keeps it *)

Lemma recorded_same w born :
  (∀ i d, w_deliveries w !! i = Some d → born !! i = Some (ident_of d)) → recorded w born = born.
Proof.
  intros H. apply map_eq. intros i. unfold recorded. rewrite lookup_union, lookup_fmap.
  destruct (w_deliveries w !! i) as [d|] eqn:E; simpl; [rewrite (H i d E)|]; by destruct (born !! i).
Qed.

Lemma recorded_add w d born :
  (∀ i d, w_deliveries w !! i = Some d → born !! i = Some (ident_of d)) →
  recorded (add_row w d) born = <[ dl_id d := ident_of d ]> born.
Proof.
  intros H. apply map_eq. intros i. unfold recorded, add_row. simpl.
  rewrite lookup_union, lookup_fmap. destruct (decide (i = dl_id d)) as [->|Hi].
  - rewrite !lookup_insert. repeat (rewrite decide_True by done). simpl. by destruct (born !! _).
  - rewrite !lookup_insert_ne by done. destruct (w_deliveries w !! i) as [d'|] eqn:E; simpl; [rewrite (H i d' E)|];
      by destruct (born !! i).
Qed.

Lemma taken_false w p id i d :
  delivery_taken w p id = false → w_deliveries w !! i = Some d → ¬ (dl_provider d = p ∧ dl_delivery_id d = id).
Proof.
  unfold delivery_taken. rewrite bool_decide_eq_false. intros Hn Hi Hd. apply Hn. by exists i, d.
Qed.

(** The request extends the log: nothing else changes. *)
Lemma sound_log w log born x : sound (mkSys w log born) → sound (mkSys w (x :: log) born).
Proof.
  intros []. constructor; simpl in *; auto. intros i a Hi Hv. destruct (snd_valid0 i a Hi Hv) as (w0 & r & Hin & Ha).
  exists w0, r. split; [by right|done].
Qed.

Lemma sound_stored w log born r d :
  sound (mkSys w log born) → (w, r) ∈ log → row_of r w d →
  sound (mkSys (add_row w d) log (<[ dl_id d := ident_of d ]> born)).
Proof.
  intros [Hrows Hborn Hgone Hap Hval Hfr Hjob Honce] Hlog [Hid Hfree Hrec Hv]. simpl in *.
  assert (∀ a, born !! dl_id d = Some a → False) as Hnew.
  { intros a Ha. apply Hborn in Ha. lia. }
  constructor; simpl.
  - intros i d' Hi. apply lookup_insert_Some in Hi as [[<- <-]|[Hne Hi]].
    + by rewrite lookup_insert, decide_True.
    + rewrite lookup_insert_ne by done. by apply Hrows.
  - intros i a Hi. apply lookup_insert_Some in Hi as [[<- <-]|[Hne Hi]]; simpl; [lia|]. apply Hborn in Hi. lia.
  - intros i a Hi Hn. apply lookup_insert_None in Hn as [Hn Hne]. rewrite lookup_insert_ne in Hi by done. eauto.
  - intros i j a b Hij Hi Hj Hk. apply lookup_insert_Some in Hj as [[<- <-]|[Hne Hj]].
    + rewrite lookup_insert_ne in Hi by lia. simpl. rewrite Hrec.
      apply (Hgone i a Hi). destruct (w_deliveries w !! i) as [d'|] eqn:E; [|done]. exfalso.
      rewrite (Hrows i d' E) in Hi. injection Hi as <-.
      by apply (taken_false _ _ _ i d' Hfree E).
    + apply lookup_insert_Some in Hi as [[<- <-]|[_ Hi]]; [|by eapply Hap].
      apply Hborn in Hj. lia.
  - intros i a Hi Hva. apply lookup_insert_Some in Hi as [[<- <-]|[_ Hi]]; [|eauto].
    exists w, r. split; [done|]. by apply Hv.
  - done.
  - intros j d' Hj. destruct (Hjob j d' Hj) as (a & Ha & Hva). exists a. split; [|done].
    rewrite lookup_insert_ne; [done|]. intros <-. eauto.
  - done.
Qed.

Lemma sound_triggered w log born d a :
  sound (mkSys w log born) → born !! d = Some a → i_valid a = true →
  (∀ j, w_payloads w !! j ≠ Some (PWebhookProcess d)) →
  sound (mkSys (add_job w d) log born).
Proof.
  intros [Hrows Hborn Hgone Hap Hval Hfr Hjob Honce] Hd Hva Hnone. simpl in *.
  constructor; simpl; auto.
  - intros j d' Hj. apply lookup_insert_Some in Hj as [[<- _]|[_ Hj]]; [lia|]. apply Hfr in Hj. lia.
  - intros j d' Hj. apply lookup_insert_Some in Hj as [[_ [= <-]]|[_ Hj]]; [by exists a|eauto].
  - intros j j' d' Hj Hj'.
    apply lookup_insert_Some in Hj as [[<- [= <-]]|[_ Hj]];
      apply lookup_insert_Some in Hj' as [[<- Hj']|[_ Hj']]; eauto.
    + by destruct (Hnone j').
    + injection Hj' as <-. by destruct (Hnone j).
Qed.

Lemma sound_receives w log born r w' :
  effect r w w' → sound (mkSys w log born) → sound (mkSys w' ((w, r) :: log) (recorded w' born)).
Proof.
  intros He Hs. apply (sound_log _ _ _ (w, r)) in Hs. pose proof (snd_rows _ Hs) as Hrows. simpl in Hrows.
  destruct He as [| |d Hd|d Hd Hv].
  - rewrite recorded_same; [done|]. intros i d Hi. by apply Hrows.
  - rewrite recorded_same by (intros i d Hi; by apply Hrows). destruct Hs. constructor; simpl in *; auto.
    intros i a Hi. apply snd_born0 in Hi. lia.
  - rewrite recorded_add by (intros i d' Hi; by apply Hrows). apply (sound_stored w _ born r); [done|by left|done].
  - pose proof (snd_jobs _ Hs) as Hjobs. pose proof (snd_born _ Hs) as Hborn. simpl in Hjobs, Hborn.
    change (recorded (add_job (add_row w d) (dl_id d)) born) with (recorded (add_row w d) born).
    rewrite recorded_add by (intros i d' Hi; by apply Hrows).
    eapply sound_triggered; [apply (sound_stored w _ born r); [done|by left|done]| | |].
    + by rewrite lookup_insert, decide_True.
    + exact Hv.
    + intros j Hj. destruct (Hjobs j _ Hj) as (a & Ha & _). apply Hborn in Ha. destruct Hd. lia.
Qed.

Lemma sound_purges w log born fs res fs' w' :
  PurgeWebhookDeliveries fs w = (res, (fs', w')) → sound (mkSys w log born) → sound (mkSys w' log born).
Proof.
  intros Hp Hs.
  assert (wp PurgeWebhookDeliveries (λ _ w', w' = w ∨ w' = set_deliveries w
    (filter (λ x, w_now w - delivery_retention <= dl_received_at x.2) (w_deliveries w)) (w_delivery_next w)) w) as H
    by (apply wp_exec; auto).
  specialize (H fs). rewrite Hp in H. destruct H as [->| ->]; [done|].
  destruct Hs as [Hrows Hborn Hgone Hap Hval Hfr Hjob Honce]. constructor; simpl in *; auto.
  - intros i d Hi. apply map_lookup_filter_Some in Hi as [Hi _]. by apply Hrows.
  - intros i a Hi Hn. apply map_lookup_filter_None in Hn as [Hn|Hn]; [by eapply Hgone|].
    destruct (w_deliveries w !! i) as [d|] eqn:E; [|by eapply Hgone].
    specialize (Hn d eq_refl). simpl in Hn. rewrite (Hrows i d E) in Hi.
    injection Hi as <-. simpl. lia.
Qed.

Lemma sound_others w log born w' :
  elsewhere w w' → sound (mkSys w log born) → sound (mkSys w' log born).
Proof.
  intros [Hnow Hrow Hnext Hq Hj] [Hrows Hborn Hgone Hap Hval Hfr Hjob Honce].
  assert (∀ i, ident_of <$> w_deliveries w' !! i = ident_of <$> w_deliveries w !! i) as Hl.
  { intros i. by rewrite <- !lookup_fmap, Hrow. }
  constructor; simpl in *; eauto.
  - intros i d Hi. specialize (Hl i). rewrite Hi in Hl. symmetry in Hl. apply fmap_Some in Hl as (d' & Hd' & ->).
    by apply Hrows.
  - intros i a Hi. apply Hborn in Hi. lia.
  - intros i a Hi Hn. specialize (Hl i). rewrite Hn in Hl. symmetry in Hl. apply fmap_None in Hl.
    specialize (Hgone i a Hi Hl). lia.
  - intros j d Hd. apply Hj, Hfr in Hd. lia.
  - intros j d Hd. by apply Hj, Hjob in Hd.
  - intros j j' d Hd Hd'. by eapply Honce; apply Hj.
Qed.

Lemma sound_start w : pristine w → sound (start w).
Proof.
  intros [Hd Hj]. constructor; simpl; try (by intros; simplify_map_eq).
  - intros i d Hi. by rewrite Hd, lookup_empty in Hi.
  - intros j d H. by apply Hj in H.
  - intros j d H. by apply Hj in H.
  - intros j j' d H. by apply Hj in H.
Qed.

Lemma sound_reachable w s : pristine w → reachable_from step (start w) s → sound s.
Proof.
  intros Hw Hr. apply (reachable_invariant step sound (start w)); [by apply sound_start| |done].
  intros s1 s2 Hs Hst. destruct Hst as [w1 log born r fs res fs' w2 He|w1 log born fs res fs' w2 Hp|w1 log born w2 He].
  - apply sound_receives with (r := r); [|done]. pose proof (ReceiveGitWebhook_effect r w1 fs) as H. by rewrite He in H.
  - by eapply sound_purges.
  - by eapply sound_others.
Qed.

(** C7: a webhook triggers nothing unless it is authenticated, and once at
    most (INV-009): in every history of deliveries, purges and other writers,
    with any statement failing, each processing job belongs to a delivery whose
    signature verified — some request received proved knowledge of the secret of
    the endpoint it named and carried that delivery id — no delivery has two
    jobs, and two jobs for the same provider and delivery id stem from receptions
    more than the thirty days of retention apart. *)
Theorem webhook_authenticated_once w s :
  pristine w → reachable_from step (start w) s →
  (∀ j d, w_payloads (sys_world s) !! j = Some (PWebhookProcess d) →
     ∃ a, sys_born s !! d = Some a ∧
       ∃ w0 r, (w0, r) ∈ sys_log s ∧ authentic w0 r (i_provider a) (i_delivery a)) ∧
  (∀ j j' d d' a a', w_payloads (sys_world s) !! j = Some (PWebhookProcess d) →
     w_payloads (sys_world s) !! j' = Some (PWebhookProcess d') →
     sys_born s !! d = Some a → sys_born s !! d' = Some a' → same_key a a' → j ≠ j' →
     delivery_retention < Z.abs (i_received a - i_received a')).
Proof.
  intros Hw Hr. pose proof (sound_reachable w s Hw Hr) as [Hrows Hborn Hgone Hap Hval Hfr Hjob Honce]. split.
  - intros j d Hj. destruct (Hjob j d Hj) as (a & Ha & Hv). exists a. split; [done|]. by eapply Hval.
  - intros j j' d d' a a' Hj Hj' Ha Ha' Hk Hne.
    destruct (Z.lt_total d d') as [H|[<-|H]].
    + specialize (Hap d d' a a' H Ha Ha' Hk). lia.
    + by destruct (Hne (Honce j j' d Hj Hj')).
    + assert (same_key a' a) as Hk' by (destruct Hk; by split).
      specialize (Hap d' d a' a H Ha' Ha Hk'). lia.
Qed.

(** An authentic delivery that is new is accepted: with no statement
    failing the answer is 200, the delivery is stored as received with the
    payload it carried, and exactly one job is queued for it; a delivery id
    already known is answered 200 and queues nothing; a signature that does not
    verify is stored as failed, answered 401 and queues nothing. *)
Theorem ReceiveGitWebhook_answers w r uuid e secret body :
  Supported (rq_provider r) = true → rq_body r = Some body → len body <= MaxBodyBytes →
  scan_uuid (rq_endpoint r) = Some uuid → w_endpoints w !! uuid = Some e → e_enabled e = true →
  e_provider e = rq_provider r → e_secret e = Some secret → DeliveryID (rq_provider r) (rq_header r) ≠ "" →
  let id := DeliveryID (rq_provider r) (rq_header r) in
  let valid := VerifySignature (rq_provider r) (rq_header r) body secret in
  let d := mkDelivery (w_delivery_next w) (rq_provider r) id (Some (EventType (rq_provider r) (rq_header r)))
             valid (if valid then DReceived else DFailed) None (truncatedPayload body) (Some (e_app e)) (w_now w) in
  eval (ReceiveGitWebhook r) w =
  if delivery_taken w (rq_provider r) id
  then (inr 200, set_deliveries w (w_deliveries w) (w_delivery_next w + 1))
  else if valid then (inr 200, add_job (add_row w d) (dl_id d))
  else (inr 401, add_row w d).
Proof.
  intros Hp Hb Hlen Hu He Hen Hpe Hs Hid. cbv zeta. unfold eval, ReceiveGitWebhook. rewrite Hp, Hb, Hu. cbn [negb].
  rewrite (proj2 (Z.ltb_ge _ _) Hlen), run_bind, run_attempt. unfold GetWebhookEndpointByUUID.
  rewrite run_query, He, Hen. cbn [fst snd]. rewrite bool_decide_true by done. cbn [negb]. rewrite Hs. cbv iota.
  rewrite decide_False, run_bind, run_attempt by done. unfold CreateWebhookDelivery. rewrite run_stmt.
  destruct (delivery_taken w (rq_provider r) (DeliveryID (rq_provider r) (rq_header r))); [done|].
  destruct (VerifySignature (rq_provider r) (rq_header r) body secret); [|done].
  cbn [fst snd negb]. rewrite run_bind, run_attempt. unfold Enqueue. rewrite run_stmt.
  by rewrite Enqueue_unfold.
Qed.
End Receive.

(** ** Executions *)

Section Executions.
Context (scan_uuid : string → option string) (jsonb : string → option json).

(** The functions of the steps. *)
Definition receive (r : request) (fs : list fate) (s : Sys) : Sys :=
  let w' := snd (snd (ReceiveGitWebhook scan_uuid jsonb r fs (sys_world s))) in
  mkSys w' ((sys_world s, r) :: sys_log s) (recorded w' (sys_born s)).
Definition purge (s : Sys) : Sys :=
  mkSys (snd (snd (PurgeWebhookDeliveries [] (sys_world s)))) (sys_log s) (sys_born s).
Definition later (dt : Z) (w : World) : World :=
  mkWorld (w_now w + dt) (w_uuid w) (w_queue w) (w_payloads w) (w_apps w) (w_destinations w) (w_servers w)
    (w_domains w) (w_components w) (w_endpoints w) (w_deliveries w) (w_delivery_next w) (w_deployments w)
    (w_deployment_next w) (w_previews w) (w_preview_next w) (w_credentials w)
    (w_cancel_requested w) (w_repositories w).
Definition wait (dt : Z) (s : Sys) : Sys := mkSys (later dt (sys_world s)) (sys_log s) (sys_born s).

Lemma receive_step r fs s : step scan_uuid jsonb s (receive r fs s).
Proof.
  destruct s as [w log born]. unfold receive. simpl.
  destruct (ReceiveGitWebhook scan_uuid jsonb r fs w) as [res [fs' w']] eqn:E. by eapply Receives.
Qed.
Lemma purge_step s : step scan_uuid jsonb s (purge s).
Proof.
  destruct s as [w log born]. by apply (Purges scan_uuid jsonb w log born [] (inr ()) []).
Qed.
Lemma wait_step dt s : 0 <= dt → step scan_uuid jsonb s (wait dt s).
Proof. intros Hdt. destruct s as [w log born]. apply Others. constructor; simpl; [lia|done|done|lia|done]. Qed.
End Executions.

(** An instance with an endpoint of GitHub and one of GitLab, texts standing for
    themselves. *)
Definition sample_app : App :=
  mkApp 1 "app-uuid" 1 None true None true None false true true (Some 1) false true false (Some 60) None "" true 30.
Definition sample_world : World :=
  mkWorld 0 (λ i, FormatInt i) (mkDB ∅ 1) ∅ {[ 1 := sample_app ]} {[ 1 := 1 ]} {[ 1 := mkServer 2 None ]}
    ∅ ∅ {[ "ep" := mkEndpoint 1 "github" 1 (Some "s3cr3t") true; "gl" := mkEndpoint 2 "gitlab" 1 (Some "s3cr3t") true ]} ∅ 1 ∅ 1 ∅ 1 ∅ ∅ ∅.
Definition sample_jsonb (body : string) : option json := Some (JObj [("ref", JStr body)]).
Definition delivery (id event body : string) (signed : bool) : request :=
  mkRequest "github" "ep"
    [("X-GitHub-Delivery", id); ("X-GitHub-Event", event);
     ("X-Hub-Signature-256", "sha256=" +:+ (if signed then Sign body "s3cr3t" else "00"))] (Some body).
Definition token_delivery (id event body : string) (signed : bool) : request :=
  mkRequest "gitlab" "gl"
    [("X-Gitlab-Event-UUID", id); ("X-Gitlab-Event", event);
     ("X-Gitlab-Token", if signed then "s3cr3t" else "guess")] (Some body).
Definition sample_receive : request → list fate → Sys → Sys := receive Some sample_jsonb.

Definition jobs_of (s : Sys) : list (Z * payload) := map_to_list (w_payloads (sys_world s)).

Lemma sample_pristine : pristine sample_world.
Proof. split; [done|]. intros j d. apply (lookup_empty_Some (M := gmap Z) j). Qed.

(** The same delivery twice, then once more a month and a day later. *)
Definition month_and_a_day : Z := 31 * 24 * 3600 * 1000000000.
Definition replayed : Sys :=
  sample_receive (token_delivery "guid" "push" "b" true) []
    (purge (wait month_and_a_day
      (sample_receive (token_delivery "guid" "push" "b" true) []
        (sample_receive (token_delivery "guid" "push" "b" true) [] (start sample_world))))).

Lemma webhook_authenticated_once_witness :
  jobs_of replayed = [(2, PWebhookProcess 3); (1, PWebhookProcess 1)] ∧
  (∃ a, sys_born replayed !! 1 = Some a ∧ ∃ w0 r, (w0, r) ∈ sys_log replayed ∧
     authentic Some w0 r (i_provider a) (i_delivery a)) ∧
  delivery_retention < Z.abs (0 - month_and_a_day).
Proof.
  assert (reachable_from (step Some sample_jsonb) (start sample_world) replayed) as Hr.
  { eapply reach_step; [|apply receive_step]. eapply reach_step; [|apply purge_step].
    eapply reach_step; [|by apply wait_step]. do 2 (eapply reach_step; [|apply receive_step]). apply reach_here. }
  destruct (webhook_authenticated_once Some sample_jsonb sample_world replayed sample_pristine Hr) as [H1 H2].
  split; [vm_compute; reflexivity|]. split; [apply (H1 1 1); vm_compute; reflexivity|].
  apply (H2 1 2 1 3 (mkIdent "gitlab" "guid" true 0) (mkIdent "gitlab" "guid" true month_and_a_day));
    first [vm_compute; reflexivity|by split|done].
Defined.

Lemma ReceiveGitWebhook_answers_witness :
  fst (eval (ReceiveGitWebhook Some sample_jsonb (delivery "guid" "push" "b" true)) sample_world) = inr 200 ∧
  fst (eval (ReceiveGitWebhook Some sample_jsonb (delivery "guid" "push" "b" false)) sample_world) = inr 401 ∧
  jobs_of (sample_receive (delivery "guid" "push" "b" false) [] (start sample_world)) = [].
Proof.
  split; [|split; [vm_compute; reflexivity|vm_compute; reflexivity]].
  rewrite (ReceiveGitWebhook_answers Some sample_jsonb sample_world (delivery "guid" "push" "b" true)
    "ep" (mkEndpoint 1 "github" 1 (Some "s3cr3t") true) "s3cr3t" "b");
    first [vm_compute; reflexivity|by vm_compute|discriminate].
Defined.

(** The unauthenticated request takes the delivery id: the genuine delivery that
    follows is answered 200 as a duplicate, and nothing is queued for it. *)
Lemma forged_delivery_shadows_the_genuine_one :
  let s := sample_receive (token_delivery "guid" "push" "b" false) [] (start sample_world) in
  fst (eval (ReceiveGitWebhook Some sample_jsonb (token_delivery "guid" "push" "b" true)) (sys_world s)) = inr 200 ∧
  jobs_of (sample_receive (token_delivery "guid" "push" "b" true) [] s) = [].
Proof. split; vm_compute; reflexivity. Qed.

(** The enqueue fails after the delivery is stored: the forge is answered 500,
    its redelivery is absorbed with 200, and the push is lost. *)
Lemma failed_enqueue_loses_the_delivery :
  let r := token_delivery "guid" "push" "b" true in
  let s := sample_receive r [Applied; Applied; Refused] (start sample_world) in
  fst (ReceiveGitWebhook Some sample_jsonb r [Applied; Applied; Refused] sample_world) = inr 500 ∧
  fst (eval (ReceiveGitWebhook Some sample_jsonb r) (sys_world s)) = inr 200 ∧
  jobs_of (sample_receive r [] s) = [].
Proof. split_and!; vm_compute; reflexivity. Qed.
