(* ===== verification/WebhookDeploy.v ===== *)
(** * From a push to a deployment

    Models the policies and the coalescing of [internal/jobs/webhookprocess.go]:
    [PushPolicyReason] with [matchesWatchPaths], and [EnqueueWebhookDeployment]
    over the statements of [ControlDB], any of which may fail. *)
From S2P Require Import Prelude GoLib Queue Effects Json GitWebhook ControlDB.
Local Open Scope Z_scope.

(** ** Policies *)

(** [strings.FieldsFunc]: the maximal runs of characters that do not satisfy [f]. *)
Fixpoint fields_func (f : ascii → bool) (s : string) (cur : string) : list string :=
  match s with
  | EmptyString => if decide (cur = "") then [] else [cur]
  | String c s' =>
      if f c then (if decide (cur = "") then [] else [cur]) ++ fields_func f s' ""
      else fields_func f s' (cur +:+ String c "")
  end.

(** [strings.TrimSuffix(s, "*")] *)
Fixpoint trim_star (s : string) : string :=
  match s with
  | EmptyString => EmptyString
  | String c s' => if decide (c = "*"%char ∧ s' = "") then EmptyString else String c (trim_star s')
  end.

Definition separator (c : ascii) : bool :=
  (byte_val c =? 10) || bool_decide (c = ","%char) || bool_decide (c = " "%char).

(** The patterns of a watch specification, as they are compared. *)
Definition watch_patterns (spec : string) : list string :=
  (λ p, trim_space (trim_star p)) <$> fields_func separator spec "".

(** [matchesWatchPaths] *)
Definition matchesWatchPaths (files : list string) (spec : string) : bool :=
  existsb (λ file, existsb (λ pattern,
    if decide (pattern = "") then false else has_prefix file pattern) (watch_patterns spec)) files.

(** The branch an application deploys. *)
Definition deployed_branch (app : App) : string :=
  match app_git_branch app with
  | Some b => if decide (b ≠ "") then b else "main"
  | None => "main"
  end.

(** [PushPolicyReason] *)
Definition PushPolicyReason (app : App) (push : Push) : string :=
  let branch := deployed_branch app in
  if decide (Branch push ≠ branch)
  then "push on branch " +:+ Branch push +:+ ", the application deploys " +:+ branch
  else if negb (app_auto_deploy app) then "auto_deploy_disabled"
  else if SkipRequested push then "skip_ci"
  else match app_watch_paths app with
       | Some spec =>
           if decide (spec ≠ "") then
             if negb (matchesWatchPaths (Files push) spec)
             then "watch_paths: the push touched no watched path" else ""
           else ""
       | None => ""
       end.

(** ** Queueing a deployment *)

Definition deployment_job (lock : string) (max_attempts : Z) : EnqueueOptions :=
  mkOptions "deploy" "deployment.run" 0 None max_attempts None (Some lock) true.

(** [EnqueueWebhookDeployment] *)
Definition EnqueueWebhookDeployment (app : App) : M World Deployment :=
  server_id ← GetDestinationByID (app_destination app);
  server ← GetServerByID server_id;
  active ← CountActiveDeploymentsForServer server_id;
  if srv_queue_limit server <=? active then throw (Failure "the server deployment queue is full (§5.5)")
  else
    deployment ← CreateDeployment (app_id app) TWebhook server_id None None false;
    superseded ← SupersedeQueuedDeployments (app_id app) (d_id deployment);
    _ ← (if decide (superseded = []) then mret () else CancelJobsForDeployments superseded);
    _ ← Enqueue (deployment_job ("deploy:app:" +:+ app_uuid app) 1) (PDeploymentRun (d_id deployment));
    mret deployment.

(** ** What the policies accept *)

Lemma matchesWatchPaths_spec files spec :
  matchesWatchPaths files spec = true ↔
  ∃ file pattern, file ∈ files ∧ pattern ∈ watch_patterns spec ∧ pattern ≠ "" ∧ has_prefix file pattern = true.
Proof.
  unfold matchesWatchPaths. rewrite existsb_exists. setoid_rewrite existsb_exists.
  setoid_rewrite <- list_elem_of_In. split.
  - intros (file & Hf & pattern & Hp & H). case_decide; [done|]. by exists file, pattern.
  - intros (file & pattern & Hf & Hp & Hne & H). exists file. split; [done|]. exists pattern.
    by rewrite decide_False.
Qed.

(** A push deploys an application exactly when it is on the branch the
    application deploys, automatic deployment is on, the head commit does not
    ask to be skipped and — when paths are watched — some changed file begins
    with a non-empty watched pattern; otherwise a reason is given. *)
Theorem PushPolicyReason_exact app push :
  PushPolicyReason app push = "" ↔
  Branch push = deployed_branch app ∧ app_auto_deploy app = true ∧ SkipRequested push = false ∧
  ∀ spec, app_watch_paths app = Some spec → spec ≠ "" →
    ∃ file pattern, file ∈ Files push ∧ pattern ∈ watch_patterns spec ∧ pattern ≠ "" ∧ has_prefix file pattern = true.
Proof.
  unfold PushPolicyReason. cbv zeta. destruct (decide (Branch push = deployed_branch app)) as [Hb|Hb].
  2:{ rewrite decide_True by done. split; [done|]. by intros [? _]. }
  rewrite decide_False by tauto. destruct (app_auto_deploy app); simpl; [|split; [done|by intros (_ & ? & _)]].
  destruct (SkipRequested push); [split; [done|by intros (_ & _ & ? & _)]|].
  destruct (app_watch_paths app) as [spec|]; [|naive_solver].
  destruct (decide (spec = "")) as [->|Hs]; [rewrite decide_False by tauto; naive_solver|].
  rewrite decide_True by done. destruct (matchesWatchPaths (Files push) spec) eqn:Hm; simpl.
  - rewrite matchesWatchPaths_spec in Hm. naive_solver.
  - split; [done|]. intros (_ & _ & _ & H). specialize (H spec eq_refl Hs).
    by rewrite <- matchesWatchPaths_spec, Hm in H.
Qed.

(** A watched directory also matches its siblings that share the name, and a
    lone star matches nothing. *)
Lemma watch_paths_observed :
  matchesWatchPaths ["src/api-docs/readme.md"] "src/api" = true ∧ matchesWatchPaths ["main.go"] "*" = false.
Proof. split; vm_compute; reflexivity. Qed.

(** ** What queueing a deployment does *)

(** Rows are stored under their ids, which the sequences have already passed. *)
Record keyed (w : World) : Prop := mkKeyed {
  key_deployments : ∀ i d, w_deployments w !! i = Some d → d_id d = i ∧ i < w_deployment_next w;
  key_jobs : ∀ j x, jobs (w_queue w) !! j = Some x → job_id x = j ∧ j < next_id (w_queue w)
}.

(** A deployment that a newer push of the application replaces. *)
Definition replaceable (app : Z) (d : Deployment) : bool :=
  bool_decide (d_resource d = app) && bool_decide (d_status d = SQueued) && bool_decide (d_trigger d = TWebhook).

(** The rows of [w] as they are in [w'], replaced by [by_id] or untouched. *)
Definition deployment_after (app by_id : Z) (d : Deployment) : Deployment :=
  if replaceable app d then superseded_by by_id d else d.

(** The queued jobs of the replaced deployments. *)
Definition replaced_job (w : World) (app : Z) (x : Job) : bool :=
  bool_decide (job_status x = Queued) && bool_decide (job_type x = "deployment.run") &&
  match w_payloads w !! job_id x with
  | Some (PDeploymentRun i) => match w_deployments w !! i with Some d => replaceable app d | None => false end
  | _ => false
  end.

(** How far the function got: the row, the coalescing, the cancellation, the job. *)
Record stage (app : App) (server : Z) (w w' : World) (rows coalesced cancelled queued : bool) : Prop := mkStage {
  st_now : w_now w' = w_now w;
  st_rows : ∀ i, w_deployments w' !! i =
    if decide (i = w_deployment_next w) then
      if rows then Some (mkDeployment i (app_id app) TWebhook server None None false SQueued None)
      else w_deployments w !! i
    else (if coalesced then deployment_after (app_id app) (w_deployment_next w) else λ d, d) <$> w_deployments w !! i;
  st_jobs : ∀ j, j < next_id (w_queue w) → jobs (w_queue w') !! j =
    (λ x, if cancelled && replaced_job w (app_id app) x then cancel_job (w_now w) x else x) <$> jobs (w_queue w) !! j;
  st_queue : next_id (w_queue w') = next_id (w_queue w) + b2z queued;
  st_job : jobs (w_queue w') !! next_id (w_queue w) =
    if queued then Some (new_row (deployment_job ("deploy:app:" +:+ app_uuid app) 1) (w_now w) (next_id (w_queue w)))
    else None;
  st_payloads : w_payloads w' =
    if queued then <[ next_id (w_queue w) := PDeploymentRun (w_deployment_next w) ]> (w_payloads w) else w_payloads w;
  st_rest : w_previews w' = w_previews w ∧ w_deliveries w' = w_deliveries w ∧
    w_delivery_next w' = w_delivery_next w ∧ w_deployment_next w' = w_deployment_next w + b2z rows
}.

Lemma replaceable_other app by_id d :
  d_id d ≠ by_id →
  bool_decide (d_resource d = app) && bool_decide (d_status d = SQueued) &&
  bool_decide (d_trigger d = TWebhook) && negb (d_id d =? by_id) = replaceable app d.
Proof. intros H. unfold replaceable. destruct (Z.eqb_spec (d_id d) by_id); [done|]. by rewrite andb_true_r. Qed.

Section Queueing.
Context (app : App) (server : Z) (w : World) (Hk : keyed w).

Lemma fresh_deployment : w_deployments w !! w_deployment_next w = None.
Proof. destruct (w_deployments w !! _) as [d|] eqn:E; [|done]. apply (key_deployments w Hk) in E. lia. Qed.
Lemma fresh_job : jobs (w_queue w) !! next_id (w_queue w) = None.
Proof. destruct (jobs (w_queue w) !! _) as [x|] eqn:E; [|done]. apply (key_jobs w Hk) in E. lia. Qed.

Lemma stage_none : stage app server w w false false false false.
Proof.
  constructor; simpl; auto; [intros i; case_decide; [done|]; by rewrite option_fmap_id| | |apply fresh_job|].
  - intros j _. by rewrite option_fmap_id.
  - lia.
  - split_and!; [done..|lia].
Qed.

Lemma stage_created w' :
  stage app server w w' false false false false →
  stage app server w (fst (let d := mkDeployment (w_deployment_next w') (app_id app) TWebhook server None None false SQueued None in
    (set_deployments w' (<[ d_id d := d ]> (w_deployments w')) (w_deployment_next w' + 1), inr (A := err) d))) true false false false.
Proof.
  intros [Hn Hr Hj Hq Hjob Hp (H1 & H2 & H3 & H4)]. simpl in *. constructor; simpl; auto.
  - intros i. rewrite H4, Z.add_0_r. case_decide as E.
    + subst i. by rewrite lookup_insert, decide_True.
    + rewrite lookup_insert_ne by done. specialize (Hr i). by rewrite decide_False in Hr.
  - split_and!; auto. lia.
Qed.

(** The condition of the coalescing statement, on the rows of [w]. *)
Definition newer_push (d : Deployment) : bool :=
  bool_decide (d_resource d = app_id app) && bool_decide (d_status d = SQueued) &&
  bool_decide (d_trigger d = TWebhook) && negb (d_id d =? w_deployment_next w).

Lemma stage_coalesced w' :
  stage app server w w' true false false false →
  stage app server w (set_deployments w' ((λ d, if newer_push d then superseded_by (w_deployment_next w) d else d)
    <$> w_deployments w') (w_deployment_next w')) true true false false.
Proof.
  intros [Hn Hr Hj Hq Hjob Hp Hrest]. constructor; simpl; auto. intros i. rewrite lookup_fmap, Hr.
  case_decide as E.
  - simpl. unfold newer_push. simpl. by rewrite E, Z.eqb_refl, andb_false_r.
  - rewrite option_fmap_id. destruct (w_deployments w !! i) as [d|] eqn:Ed; [|done]. simpl. f_equal.
    unfold newer_push, deployment_after. rewrite replaceable_other; [done|].
    destruct (key_deployments w Hk i d Ed). lia.
Qed.

Lemma superseded_ids w' i :
  stage app server w w' true false false false →
  i ∈ d_id <$> filter (λ d, newer_push d = true) (map_to_list (w_deployments w')).*2 ↔
  ∃ d, w_deployments w !! i = Some d ∧ replaceable (app_id app) d = true.
Proof.
  intros [Hn Hr Hj Hq Hjob Hp Hrest]. rewrite list_elem_of_fmap. setoid_rewrite list_elem_of_filter.
  setoid_rewrite list_elem_of_fmap. setoid_rewrite elem_of_map_to_list'. split.
  - intros (d & -> & Hc & [k e] & -> & Hkd). simpl in *. rewrite Hr in Hkd. case_decide as E.
    + injection Hkd as <-. unfold newer_push in Hc. simpl in Hc. by rewrite E, Z.eqb_refl, andb_false_r in Hc.
    + rewrite option_fmap_id in Hkd. destruct (key_deployments w Hk k e Hkd) as [He _]. rewrite He. exists e.
      split; [done|]. unfold newer_push in Hc. rewrite replaceable_other in Hc by lia. done.
  - intros (d & Hd & Hc). destruct (key_deployments w Hk i d Hd) as [He Hlt].
    exists d. split; [done|]. split; [unfold newer_push; rewrite replaceable_other by lia; done|].
    exists (i, d). split; [done|]. simpl. rewrite Hr, decide_False by lia. by rewrite option_fmap_id.
Qed.

(** Cancelling the jobs of the superseded deployments, all of them in [w]. *)
Lemma stage_cancelled w' ids :
  (∀ i, i ∈ ids ↔ ∃ d, w_deployments w !! i = Some d ∧ replaceable (app_id app) d = true) →
  stage app server w w' true true false false →
  stage app server w (set_jobs w'
      (mkDB ((λ j, if bool_decide (job_status j = Queued) && runs_one_of (w_payloads w') ids j
                   then cancel_job (w_now w') j else j) <$> jobs (w_queue w')) (next_id (w_queue w')))
      (w_payloads w')) true true true false.
Proof.
  intros Hids [Hn Hr Hj Hq Hjob Hp Hrest]. simpl in Hp, Hjob, Hq.
  constructor; simpl; auto.
  - intros j Hlt. rewrite lookup_fmap, Hj by done. rewrite option_fmap_id.
    destruct (jobs (w_queue w) !! j) as [x|] eqn:Ex; [|done]. simpl. f_equal. rewrite Hn, Hp.
    replace (bool_decide (job_status x = Queued) && runs_one_of (w_payloads w) ids x)
      with (replaced_job w (app_id app) x); [done|].
    unfold replaced_job, runs_one_of. destruct (w_payloads w !! job_id x) as [[d|i|p|s]|]; rewrite ?andb_false_r; try done.
    rewrite <- andb_assoc. f_equal. rewrite andb_comm. f_equal.
    symmetry. case_bool_decide as Hi.
    + apply Hids in Hi as (d & -> & Hd). done.
    + destruct (w_deployments w !! i) as [d|] eqn:Ed; [|done].
      destruct (replaceable (app_id app) d) eqn:Hd; [|done]. destruct Hi. apply Hids. by exists d.
  - by rewrite lookup_fmap, Hjob.
Qed.

(** No deployment was superseded: there is nothing to cancel. *)
Lemma stage_nothing_to_cancel w' :
  (∀ i d, w_deployments w !! i = Some d → replaceable (app_id app) d = false) →
  stage app server w w' true true false false → stage app server w w' true true true false.
Proof.
  intros Hnone [Hn Hr Hj Hq Hjob Hp Hrest]. constructor; simpl; auto. intros j Hlt. rewrite Hj by done.
  destruct (jobs (w_queue w) !! j) as [x|]; [|done]. simpl. f_equal.
  unfold replaced_job. destruct (w_payloads w !! job_id x) as [[d|i|p|s]|]; rewrite ?andb_false_r; try done.
  destruct (w_deployments w !! i) as [d|] eqn:Ed; [rewrite (Hnone i d Ed)|]; by rewrite andb_false_r.
Qed.

Lemma stage_queued w' :
  stage app server w w' true true true false →
  stage app server w (set_jobs w'
    (fst (EnqueueJob (w_queue w') (new_row (deployment_job ("deploy:app:" +:+ app_uuid app) 1) (w_now w'))))
    (<[ next_id (w_queue w') := PDeploymentRun (w_deployment_next w) ]> (w_payloads w'))) true true true true.
Proof.
  intros [Hn Hr Hj Hq Hjob Hp Hrest]. simpl in Hq, Hp. rewrite Z.add_0_r in Hq. constructor; simpl; auto.
  - intros j Hlt. rewrite lookup_insert_ne by lia. by apply Hj.
  - lia.
  - rewrite Hq, Hn. by rewrite lookup_insert, decide_True.
  - by rewrite Hq, Hp.
Qed.
End Queueing.

(** The stages in order: each needs the ones before it, and the row needs room
    in the queue of the server. *)
Definition room (w : World) (server : Z) : Prop :=
  ∃ s, w_servers w !! server = Some s ∧ active_deployments w server < srv_queue_limit s.
Inductive got_to (app : App) (server : Z) (w w' : World) : Prop :=
| NoRow : stage app server w w' false false false false → got_to app server w w'
| Row : room w server → stage app server w w' true false false false → got_to app server w w'
| Coalesced : room w server → stage app server w w' true true false false → got_to app server w w'
| CancelledJobs : room w server → stage app server w w' true true true false → got_to app server w w'
| Queued' : room w server → stage app server w w' true true true true → got_to app server w w'.

Definition new_deployment (app : App) (server id : Z) : Deployment :=
  mkDeployment id (app_id app) TWebhook server None None false SQueued None.

Definition outcome_of (app : App) (w : World) (r : err + Deployment) (w' : World) : Prop :=
  ∃ server,
    match r with
    | inl _ => got_to app server w w'
    | inr d => d = new_deployment app server (w_deployment_next w) ∧
               w_destinations w !! app_destination app = Some server ∧ room w server ∧
               stage app server w w' true true true true
    end.

(** Each statement in turn, whatever fails. *)
Lemma EnqueueWebhookDeployment_stages app w :
  keyed w → wp (EnqueueWebhookDeployment app) (outcome_of app w) w.
Proof.
  intros Hk. unfold EnqueueWebhookDeployment, GetDestinationByID, GetServerByID, row.
  assert (∀ e, outcome_of app w (inl e) w) as Hnone by (intros e; exists 0; apply NoRow; by apply stage_none).
  apply wp_bind, wp_query; [done|].
  destruct (w_destinations w !! app_destination app) as [server|] eqn:Hdest; [|done].
  apply wp_bind, wp_query; [done|]. destruct (w_servers w !! server) as [s|] eqn:Hs; [|done].
  apply wp_bind, wp_query; [done|]. case_match eqn:Hlim; [by apply wp_throw|].
  assert (room w server) as Hroom by (exists s; split; [done|]; lia).
  pose proof (stage_created app server w w (stage_none app server w Hk)) as H1.
  apply wp_bind, wp_stmt; [done|exists server; by apply Row|].
  simpl in *. set (w1 := set_deployments w _ _) in *.
  pose proof (stage_coalesced app server w Hk w1 H1) as H2.
  apply wp_bind, wp_stmt; [exists server; by apply Row|exists server; by apply Coalesced|].
  cbn [fst snd]. set (w2 := set_deployments w1 _ _) in *. set (ids := d_id <$> _).
  assert (∀ i, i ∈ ids ↔ ∃ d, w_deployments w !! i = Some d ∧ replaceable (app_id app) d = true) as Hids.
  { intros i. by apply (superseded_ids app server w Hk w1 i). }
  assert (∀ w3, stage app server w w3 true true true false →
    wp (_ ← Enqueue (deployment_job ("deploy:app:" +:+ app_uuid app) 1) (PDeploymentRun (w_deployment_next w));
        mret (new_deployment app server (w_deployment_next w))) (outcome_of app w) w3) as Hlast.
  { intros w3 H3. pose proof (stage_queued app server w w3 H3) as H4. apply wp_bind, wp_stmt.
    - exists server. by apply CancelledJobs.
    - rewrite Enqueue_unfold. exists server. by apply Queued'.
    - rewrite Enqueue_unfold. simpl. apply wp_ret. by exists server. }
  apply wp_bind. case_decide as Hids0.
  - apply wp_ret. apply Hlast. apply stage_nothing_to_cancel; [|done]. intros i d Hi.
    destruct (replaceable (app_id app) d) eqn:Hd; [|done]. exfalso.
    assert (i ∈ ids) as Hin by (apply Hids; by exists d). rewrite Hids0 in Hin. by apply not_elem_of_nil in Hin.
  - pose proof (stage_cancelled app server w w2 ids Hids H2) as H3. apply wp_exec.
    + exists server. by apply Coalesced.
    + exists server. by apply CancelledJobs.
    + by apply Hlast.
Qed.

(** *** The theorems *)

Lemma stage_keeps app server w w' rows coalesced cancelled queued i d :
  stage app server w w' rows coalesced cancelled queued → keyed w → w_deployments w !! i = Some d →
  w_deployments w' !! i =
    Some (if coalesced then deployment_after (app_id app) (w_deployment_next w) d else d).
Proof.
  intros [_ Hr _ _ _ _ _] Hk Hd. rewrite Hr, decide_False, Hd by (apply (key_deployments w Hk) in Hd; lia).
  by destruct coalesced.
Qed.

Lemma stage_map app server w w' rows coalesced cancelled queued :
  stage app server w w' rows coalesced cancelled queued → keyed w →
  w_deployments w' =
    (let m := (if coalesced then deployment_after (app_id app) (w_deployment_next w) else λ d, d) <$> w_deployments w in
     if rows then <[ w_deployment_next w := new_deployment app server (w_deployment_next w) ]> m else m).
Proof.
  intros [_ Hr _ _ _ _ _] Hk. apply map_eq. intros i. rewrite Hr. cbv zeta. case_decide as E; destruct rows.
  - subst i. by rewrite lookup_insert, decide_True.
  - subst i. rewrite lookup_fmap. by rewrite (fresh_deployment w Hk).
  - by rewrite lookup_insert_ne, lookup_fmap.
  - by rewrite lookup_fmap.
Qed.

(** Deployments in flight: never more than one above what there was, and only on
    a server that had room. *)
Lemma stage_active app server w w' rows coalesced cancelled queued s :
  stage app server w w' rows coalesced cancelled queued → keyed w →
  active_deployments w' s <= active_deployments w s + b2z (rows && bool_decide (server = s)).
Proof.
  intros Hst Hk. unfold active_deployments. rewrite (stage_map _ _ _ _ _ _ _ _ Hst Hk). cbv zeta.
  set (P := λ d, _ && _). set (f := if coalesced then _ else _).
  assert (count P (f <$> w_deployments w) <= count P (w_deployments w)) as Hle.
  { apply count_fmap_le. intros d. unfold f, P. destruct coalesced; [|done]. unfold deployment_after.
    destruct (replaceable (app_id app) d); [|done]. simpl. by rewrite andb_false_r. }
  destruct rows; [|simpl; lia]. rewrite count_insert_new by (by rewrite lookup_fmap, (fresh_deployment w Hk)).
  unfold P at 2. simpl. rewrite andb_true_r. lia.
Qed.

(** The outcome a run leaves behind, whatever it answered. *)
Lemma outcome_got_to app w r w' : outcome_of app w r w' → ∃ server, got_to app server w w'.
Proof. intros [server H]. exists server. destruct r as [e|d]; [done|]. destruct H as (_ & _ & ? & ?). by apply Queued'. Qed.

(** Queueing the deployment of a push is safe whatever fails on the way:
    no deployment changes except queued webhook deployments of the same
    application, which can only become superseded by the new one; a job is only
    ever cancelled when it was queued and its deployment is superseded; and the
    deployments in flight on a server never pass its limit. *)
Theorem EnqueueWebhookDeployment_safe app w fs :
  keyed w →
  let w' := snd (snd (EnqueueWebhookDeployment app fs w)) in
  (∀ i d, w_deployments w !! i = Some d →
     w_deployments w' !! i = Some d ∨
     (d_resource d = app_id app ∧ d_status d = SQueued ∧ d_trigger d = TWebhook ∧
      w_deployments w' !! i = Some (superseded_by (w_deployment_next w) d) ∧
      is_Some (w_deployments w' !! w_deployment_next w))) ∧
  (∀ j x, jobs (w_queue w) !! j = Some x →
     jobs (w_queue w') !! j = Some x ∨
     (job_status x = Queued ∧ jobs (w_queue w') !! j = Some (cancel_job (w_now w) x) ∧
      ∃ i d, w_payloads w !! j = Some (PDeploymentRun i) ∧ w_deployments w' !! i = Some d ∧
        d_status d = SSuperseded)) ∧
  (∀ s sv, w_servers w !! s = Some sv → active_deployments w s <= srv_queue_limit sv →
     active_deployments w' s <= srv_queue_limit sv).
Proof.
  intros Hk w'. pose proof (EnqueueWebhookDeployment_stages app w Hk fs) as H. subst w'.
  destruct (EnqueueWebhookDeployment app fs w) as [r [fs' w']]. simpl.
  destruct (outcome_got_to _ _ _ _ H) as [server Hg]. clear H.
  assert (∃ rows coalesced cancelled queued, stage app server w w' rows coalesced cancelled queued ∧
    (cancelled = true → coalesced = true) ∧ (coalesced = true → rows = true) ∧ (rows = true → room w server)) as
    (rows & coalesced & cancelled & queued & Hst & Hcc & Hcr & Hrm).
  { destruct Hg; do 4 eexists; split_and!; try done; by eauto. }
  split_and!.
  - intros i d Hd. rewrite (stage_keeps _ _ _ _ _ _ _ _ i d Hst Hk Hd). destruct coalesced; [|by left].
    unfold deployment_after. destruct (replaceable (app_id app) d) eqn:Hr; [right|by left].
    unfold replaceable in Hr. rewrite !andb_true_iff, !bool_decide_eq_true in Hr. destruct Hr as [[? ?] ?].
    split_and!; try done. rewrite (st_rows _ _ _ _ _ _ _ _ Hst), decide_True, Hcr by done. by eexists.
  - intros j x Hx. destruct (key_jobs w Hk j x Hx) as [Hid Hlt].
    rewrite (st_jobs _ _ _ _ _ _ _ _ Hst j Hlt), Hx. simpl.
    destruct (cancelled && replaced_job w (app_id app) x) eqn:Hr; [right|by left].
    apply andb_true_iff in Hr as [-> Hr]. unfold replaced_job in Hr. rewrite Hid in Hr.
    destruct (w_payloads w !! j) as [[?|i|?|?]|]; rewrite ?andb_false_r in Hr; try done.
    destruct (w_deployments w !! i) as [d|] eqn:Hd; [|by rewrite andb_false_r in Hr].
    rewrite !andb_true_iff, !bool_decide_eq_true in Hr. destruct Hr as [[Hq _] Hr].
    split_and!; [done..|]. exists i. rewrite (stage_keeps _ _ _ _ _ _ _ _ i d Hst Hk Hd), Hcc by done.
    unfold deployment_after. rewrite Hr. by eexists.
  - intros s sv Hs Hle. pose proof (stage_active _ _ _ _ _ _ _ _ s Hst Hk) as Ha.
    destruct rows; [|simpl in Ha; lia]. case_bool_decide; [|simpl in Ha; lia]. subst s.
    destruct (Hrm eq_refl) as (sv' & Hsv & Hlt). assert (sv' = sv) as -> by congruence. simpl in Ha. lia.
Qed.

Lemma EnqueueWebhookDeployment_returns app w server :
  w_destinations w !! app_destination app = Some server → room w server →
  ∃ d w', eval (EnqueueWebhookDeployment app) w = (inr d, w').
Proof.
  intros Hd (s & Hs & Hlt). unfold eval, EnqueueWebhookDeployment, GetDestinationByID, GetServerByID, row.
  rewrite run_bind, run_query, Hd. rewrite run_bind, run_query, Hs.
  rewrite run_bind. unfold CountActiveDeploymentsForServer. rewrite run_query, (proj2 (Z.leb_gt _ _) Hlt). cbv iota.
  rewrite run_bind. unfold CreateDeployment. rewrite run_stmt. cbn [fst snd].
  rewrite run_bind. unfold SupersedeQueuedDeployments, supersede_where. rewrite run_stmt. cbn [fst snd].
  rewrite run_bind. unfold CancelJobsForDeployments, exec. case_decide; [|rewrite run_stmt];
    unfold mret, M_ret; cbv beta iota; cbn [fst snd]; rewrite run_bind; unfold Enqueue; rewrite run_stmt, Enqueue_unfold; cbn; eauto.
Qed.

(** A push that passes the policies is coalesced with the ones still
    waiting: when the application's server has room and nothing fails, a new
    deployment is queued with one job of its own — one attempt, under the
    application's lock — it is the only webhook deployment of the application
    left in the queue, and the queued jobs of the ones it replaces are all
    cancelled. *)
Theorem EnqueueWebhookDeployment_coalesces app w server :
  keyed w → w_destinations w !! app_destination app = Some server → room w server →
  ∃ d w', eval (EnqueueWebhookDeployment app) w = (inr d, w') ∧
    w_deployments w' !! d_id d = Some d ∧ d_status d = SQueued ∧ d_server d = server ∧
    (∀ i e, w_deployments w' !! i = Some e → d_resource e = app_id app → d_status e = SQueued →
       d_trigger e = TWebhook → e = d) ∧
    (∃ x, jobs (w_queue w') !! next_id (w_queue w) = Some x ∧ job_status x = Queued ∧ job_max_attempts x = 1 ∧
       job_lock_key x = Some ("deploy:app:" +:+ app_uuid app) ∧
       w_payloads w' !! next_id (w_queue w) = Some (PDeploymentRun (d_id d))) ∧
    (∀ j x i e, jobs (w_queue w) !! j = Some x → job_status x = Queued → job_type x = "deployment.run" →
       w_payloads w !! j = Some (PDeploymentRun i) → w_deployments w !! i = Some e →
       replaceable (app_id app) e = true → jobs (w_queue w') !! j = Some (cancel_job (w_now w) x)).
Proof.
  intros Hk Hdest Hroom. destruct (EnqueueWebhookDeployment_returns app w server Hdest Hroom) as (d & w' & He).
  pose proof (wp_eval _ _ _ _ _ (EnqueueWebhookDeployment_stages app w Hk) He) as (sv & -> & Hsv & _ & Hst).
  assert (sv = server) as -> by congruence. clear Hsv. do 2 eexists. split; [exact He|].
  pose proof Hst as [Hn Hr Hj Hq Hjob Hp Hrest]. simpl d_id. split_and!; try done.
  - by rewrite Hr, decide_True.
  - intros i e Hi H1 H2 H3. rewrite Hr in Hi. case_decide as E; [by injection Hi as <-; subst i|].
    apply fmap_Some in Hi as (e0 & He0 & ->). exfalso. revert H1 H2 H3. unfold deployment_after.
    destruct (replaceable (app_id app) e0) eqn:Hrep; [done|]. intros H1 H2 H3. unfold replaceable in Hrep.
    by rewrite !bool_decide_true in Hrep.
  - eexists. split; [exact Hjob|]. split_and!; try done. by rewrite Hp, lookup_insert, decide_True.
  - intros j x i e Hx Hqd Hty Hpl He0 Hrep. destruct (key_jobs w Hk j x Hx) as [Hid Hlt].
    rewrite Hj, Hx by done. simpl. unfold replaced_job. by rewrite Hid, Hpl, He0, Hrep, !bool_decide_true.
Qed.

(** Two pushes in a row on an application whose server takes two deployments. *)
Definition push_app : App :=
  mkApp 1 "app-uuid" 1 None true None true None false true true (Some 1) false true false (Some 60) None "" true 30.
Definition push_world : World :=
  mkWorld 0 (λ i, FormatInt i) (mkDB ∅ 1) ∅ {[ 1 := push_app ]} {[ 1 := 1 ]} {[ 1 := mkServer 2 None ]}
    ∅ ∅ ∅ ∅ 1 ∅ 1 ∅ 1 ∅ ∅ ∅.
Definition pushed_once : World := snd (eval (EnqueueWebhookDeployment push_app) push_world).

Lemma pushed_once_keyed : keyed pushed_once.
Proof.
  constructor.
  - intros i d H. change (w_deployments pushed_once) with
      ({[ 1 := new_deployment push_app 1 1 ]} : gmap Z Deployment) in H.
    apply lookup_singleton_Some in H as [<- <-]. done.
  - intros j x H. change (jobs (w_queue pushed_once)) with
      ({[ 1 := new_row (deployment_job "deploy:app:app-uuid" 1) 0 1 ]} : gmap Z Job) in H.
    apply lookup_singleton_Some in H as [<- <-]. done.
Qed.

Lemma EnqueueWebhookDeployment_coalesces_witness :
  ∃ d w', eval (EnqueueWebhookDeployment push_app) pushed_once = (inr d, w') ∧ w_deployments w' !! d_id d = Some d ∧
    jobs (w_queue w') !! 1 = Some (cancel_job 0 (new_row (deployment_job "deploy:app:app-uuid" 1) 0 1)).
Proof.
  destruct (EnqueueWebhookDeployment_coalesces push_app pushed_once 1 pushed_once_keyed) as
    (d & w' & He & Hd & _ & _ & _ & _ & Hc).
  - vm_compute. reflexivity.
  - exists (mkServer 2 None). split; vm_compute; reflexivity.
  - exists d, w'. split; [exact He|]. split; [exact Hd|].
    apply (Hc 1 (new_row (deployment_job "deploy:app:app-uuid" 1) 0 1) 1 (new_deployment push_app 1 1));
      vm_compute; reflexivity.
Defined.

Lemma EnqueueWebhookDeployment_safe_witness :
  active_deployments (snd (snd (EnqueueWebhookDeployment push_app [] pushed_once))) 1 <= 2.
Proof.
  refine (proj2 (proj2 (EnqueueWebhookDeployment_safe push_app pushed_once [] pushed_once_keyed)) 1 (mkServer 2 None) _ _).
  - vm_compute. reflexivity.
  - vm_compute. discriminate.
Defined.
