(* ===== verification/PreviewHost.v ===== *)
(** * The hostname of a preview

    Models [internal/jobs/previewroutes.go] and the hostname part of
    [previewpr.go]: the route templates of an application, the substitution of
    their placeholders, the component a stack routes to, and the primary
    hostname of a pull request's preview. *)
From stdpp Require Import pretty.
From S2P Require Import Prelude GoLib Queue Effects Json GitWebhook ControlDB.
Local Open Scope Z_scope.

(** [previewRouteTemplate] *)
Record template := mkTemplate { t_host : string; t_port : option Z }.

Definition as_port (v : json) : option (option Z) :=
  match v with JNull => Some None | _ => Some <$> as_int64 v end.
Definition as_template (v : json) : option template :=
  m ← as_struct v; host ← get m "host" as_string; port ← get m "port" as_port; Some (mkTemplate host port).

(** [previewTemplates] *)
Definition kept_templates (rows : list template) : list template :=
  filter (λ r, trim_space (t_host r) ≠ "") rows.
Definition legacy_template (app : App) : list template :=
  let t := trim_space (app_url_template app) in if decide (t ≠ "") then [mkTemplate t None] else [].
Definition previewTemplates (app : App) : list template :=
  match app_url_templates app ≫= as_slice as_template with
  | Some rows => if decide (kept_templates rows = []) then legacy_template app else kept_templates rows
  | None => legacy_template app
  end.

(** [strings.NewReplacer(…).Replace]: at each place the first pair that matches,
    whose text is not scanned again; [skip] counts the bytes of a match still to
    pass over. *)
Definition first_match (pairs : list (string * string)) (s : string) : option (string * string) :=
  snd <$> list_find (λ p, p.1 ≠ "" ∧ has_prefix s p.1 = true) pairs.
Fixpoint replacer (pairs : list (string * string)) (skip : nat) (s : string) : string :=
  match s with
  | EmptyString => EmptyString
  | String c s' =>
      match skip with
      | S k => replacer pairs k s'
      | O => match first_match pairs s with
             | Some (old, new) => new +:+ replacer pairs (String.length old - 1) s'
             | None => String c (replacer pairs 0 s')
             end
      end
  end.

(** [resolvePreviewHost] *)
Definition dashed (c : ascii) : ascii := if decide (c = "_"%char) then "-"%char else c.
Definition placeholders (prID : Z) (domain service random : string) : list (string * string) :=
  [("{{pr_id}}", FormatInt prID); ("{{domain}}", domain);
   ("{{service}}", map_string dashed service); ("{{random}}", random)].
Definition resolvePreviewHost (host : string) (prID : Z) (domain service random : string) : string :=
  ToLower (replacer (placeholders prID domain service random) 0 host).

(** [hostHasService], [serviceTemplate], [explicitTemplates] *)
Definition hostHasService (host : string) : bool := contains_sub "{{service}}" host.
Definition serviceTemplate (ts : list template) : option template :=
  snd <$> list_find (λ t, hostHasService (t_host t) = true) ts.
Definition explicitTemplates (ts : list template) : list template :=
  filter (λ t, hostHasService (t_host t) = false) ts.

(** [resolveWebComponent]: the component whose port is asked for, or the only
    one with a port; [None] is the error. *)
Fixpoint resolve_scan (target : option Z) (cs : list (string * option Z)) (routable : list string) :
    option string + list string :=
  match cs with
  | [] => inr routable
  | (name, None) :: cs' => resolve_scan target cs' routable
  | (name, Some port) :: cs' =>
      if bool_decide (target = Some port) then inl (Some name)
      else resolve_scan target cs' (routable ++ [name])
  end.
Definition resolveWebComponent (cs : list (string * option Z)) (target : option Z) : option string :=
  match resolve_scan target cs [] with
  | inl found => found
  | inr [name] => Some name
  | inr _ => None
  end.

(** [primaryServiceName] *)
Definition primaryServiceName (app : App) : M World string :=
  comps ← attempt (ListServiceComponents (app_id app));
  match comps with
  | inl _ => mret ""
  | inr cs =>
      match resolveWebComponent cs None with
      | Some name => mret name
      | None => mret (match cs with (name, _) :: _ => name | [] => "" end)
      end
  end.

(** The fallback of [previewFQDN]. *)
Definition wildcard_host (app : App) (prID : Z) : M World string :=
  server_id ← GetDestinationByID (app_destination app);
  server ← GetServerByID server_id;
  match srv_wildcard server with
  | Some d => if decide (d = "") then mret ""
              else mret ("pr-" +:+ FormatInt prID +:+ "-" +:+ String.substring 0 8 (app_uuid app) +:+ "." +:+ d)
  | None => mret ""
  end.

(** [previewFQDN] *)
Definition previewFQDN (app : App) (prID : Z) (random : string) : M World string :=
  domains ← attempt (ListDomainsForApplication (app_id app));
  let domain := match domains with inr (d :: _) => d | _ => "" end in
  match previewTemplates app with
  | [] => wildcard_host app prID
  | t0 :: _ as templates =>
      '(host, svc) ← match explicitTemplates templates with
                     | t :: _ => mret (t_host t, "")
                     | [] => svc ← primaryServiceName app; mret (t_host t0, svc)
                     end;
      if contains_sub "{{domain}}" host && bool_decide (domain = "") then wildcard_host app prID
      else mret (resolvePreviewHost host prID domain svc random)
  end.

(** The documented expansion. *)
Example resolvePreviewHost_sample :
  resolvePreviewHost "{{service}}-pr-{{pr_id}}-{{random}}.{{domain}}" 12 "App.example.com" "web_ui" "a1b2c3" =
  "web-ui-pr-12-a1b2c3.app.example.com".
Proof. vm_compute. reflexivity. Qed.
