(* ===== verification/Previews.v ===== *)
(** * Previews of pull requests

    Models the preview lifecycle: the reaction to a pull request event and the
    promotion of a preview ([internal/jobs/previewpr.go]), the comment commands
    ([previewcommands.go]), the teardown ([previewdestroy.go]), the part of a
    deployment run that decides about previews ([deploymentrun.go]), the
    preview endpoints of the API ([internal/handlers/previews.go]) and the
    scheduler's pass ([internal/scheduler/previews.go]).  Every operation is a
    program over [ControlDB]; what happens outside the database — feedback to
    the forge, containers, builds — is a result given from outside. *)
From S2P Require Import Prelude GoLib Queue Effects Json GitWebhook ControlDB WebhookDeploy PreviewHost.
Local Open Scope Z_scope.

Section Lifecycle.
(** The random slug drawn for a preview. *)
Context (slug_of : Z → string).

(** [PreviewEngaged] *)
Definition PreviewEngaged (p : Preview) : bool :=
  if decide (p_status p ∈ [PDeploying; PActive; PFailed]) then true
  else bool_decide (p_last_deployed p ≠ None).

(** [ManualFirstReserved] *)
Definition ManualFirstReserved (app : App) (p : Preview) : bool :=
  negb (app_deploy_on_open app) && bool_decide (p_deploy_requested p = None) && negb (PreviewEngaged p).

(** [EnqueuePreviewDestroy] *)
Definition preview_lock (p : Preview) : string := "deploy:preview:" +:+ p_uuid p.
Definition destroy_job (p : Preview) : EnqueueOptions :=
  mkOptions "deploy" "preview.destroy" 0 None 0 None (Some (preview_lock p)) true.
Definition EnqueuePreviewDestroy (p : Preview) : M World () :=
  _ ← Enqueue (destroy_job p) (PPreviewDestroy (p_id p));
  SetPreviewStatus (p_id p) PDestroying None.

(** [PromotePreviewDeployment]: the deployment when promoted, and the reason
    when not. *)
Definition cap_reached (app : App) : M World (option Z) :=
  match app_max_concurrent app with
  | None => mret None
  | Some cap =>
      live ← CountLivePreviewsForApplication (app_id app);
      mret (if cap <=? live then Some live else None)
  end.
Definition cancel_obsolete (app : App) (p : Preview) (deployment : Z) : M World () :=
  if app_cancel_obsolete app then
    superseded ← SupersedeObsoletePreviewDeployments (p_id p) deployment;
    _ ← (if decide (superseded = []) then mret () else CancelJobsForDeployments superseded);
    running ← ListCancellablePreviewDeploymentIDs (p_id p) deployment;
    each running RequestDeploymentJobCancel
  else mret ().
Definition PromotePreviewDeployment (app : App) (p : Preview) (force : bool) :
    M World (option Deployment * string) :=
  capped ← cap_reached app;
  match capped with
  | Some live => mret (None, "concurrency cap reached (" +:+ FormatInt live +:+ " live)")
  | None =>
      server ← GetDestinationByID (app_destination app);
      deployment ← CreateDeployment (app_id app) TPreview server (Some (p_id p)) (p_sha p) force;
      _ ← cancel_obsolete app p (d_id deployment);
      _ ← Enqueue (deployment_job (preview_lock p) 0) (PDeploymentRun (d_id deployment));
      _ ← ignore (SetPreviewStatus (p_id p) PDeploying None);
      mret (Some deployment, "")
  end.

(** [ensurePreviewScaffolding]: the caller's copy of the row, with its names. *)
Definition rename (fqdn slug : option string) (p : Preview) : Preview := with_names fqdn slug (p_updated_at p) p.
Definition unset (s : option string) : bool := bool_decide (s = None ∨ s = Some "").
Definition scaffold_slug (p : Preview) : M World Preview :=
  if unset (p_slug p) then
    drawn ← attempt fallible;
    match drawn with
    | inl _ => mret p
    | inr _ =>
        _ ← ignore (SetPreviewRandomSlug (p_id p) (slug_of (p_id p)));
        mret (rename (p_fqdn p) (Some (slug_of (p_id p))) p)
    end
  else mret p.
Definition scaffold_fqdn (app : App) (p : Preview) : M World Preview :=
  if unset (p_fqdn p) then
    found ← attempt (previewFQDN app (p_pr p) (default "" (p_slug p)));
    match found with
    | inl _ => mret p
    | inr fqdn =>
        if decide (fqdn = "") then mret p
        else
          _ ← ignore (SetPreviewFqdn (p_id p) (Some fqdn));
          mret (rename (Some fqdn) (p_slug p) p)
    end
  else mret p.
Definition ensurePreviewScaffolding (app : App) (p : Preview) : M World Preview :=
  p ← scaffold_slug p;
  p ← scaffold_fqdn app p;
  if negb (app_basic_auth app) then mret p
  else
    _ ← fallible;
    _ ← CreateGeneratedPreviewEnvVar (app_id app);
    mret p.

(** ** Pull request events *)

(** [destroyIfLive] *)
Definition destroyIfLive (app : App) (provider : string) (pr : Z) : M World string :=
  found ← attempt (GetPreviewByIdentity (app_id app) provider pr);
  match found with
  | inl _ => mret "no preview to destroy"
  | inr p =>
      if decide (p_status p ∈ [PDestroyed; PDestroying]) then mret "already destroyed"
      else _ ← EnqueuePreviewDestroy p; mret "destroy queued"
  end.

(** [event.IsFork && !preview.ForkApprovedAt.Valid] *)
Definition fork_gate (is_fork : bool) (p : Preview) : bool :=
  is_fork && bool_decide (p_fork_approved_at p = None).

(** What follows the checks of an event that may deploy. *)
Definition serve_event (app : App) (provider : string) (event : PullRequestEvent) : M World string :=
  p ← UpsertPreview (app_id app) provider (wrap32 (Number event)) (Some (HeadRef event)) (Some (HeadSHA event))
        (IsFork event) (if decide (RepoReference event = "") then None else Some (RepoReference event));
  if bool_decide (Action event = "labeled") && bool_decide (p_status p ∈ [PActive; PDeploying]) &&
     bool_decide (p_sha p = Some (HeadSHA event))
  then mret "already deployed at this SHA"
  else
    p ← ensurePreviewScaffolding app p;
    if fork_gate (IsFork event) p then mret "fork waiting for maintainer approval (INV-010)"
    else if ManualFirstReserved app p then mret "awaiting manual deploy (preview_deploy_on_open=false)"
    else
      '(promoted, reason) ← PromotePreviewDeployment app p false;
      mret (match promoted with None => "queued: " +:+ reason | Some _ => "deployment queued" end).

(** [HandlePreviewPREvent] *)
Definition deploying_actions : list string :=
  ["opened"; "synchronize"; "reopened"; "ready_for_review"; "labeled"; "unlabeled"].
Definition HandlePreviewPREvent (app : App) (provider : string) (event : PullRequestEvent) : M World string :=
  if decide (Action event = "closed") then destroyIfLive app provider (wrap32 (Number event))
  else if decide (Action event ∈ deploying_actions) then
    let label := default "" (app_require_label app) in
    if bool_decide (label ≠ "") && negb (HasLabel event label) then
      outcome ← destroyIfLive app provider (wrap32 (Number event));
      mret (if decide (outcome = "destroy queued") then "required label removed: " +:+ outcome
            else "label " +:+ label +:+ " required (preview_require_label)")
    else if bool_decide (label = "") && bool_decide (Action event ∈ ["labeled"; "unlabeled"]) then
      mret "label events ignored without preview_require_label"
    else if Draft event && app_exclude_drafts app then mret "draft excluded (preview_exclude_drafts)"
    else if IsFork event && negb (app_fork_approval app) then
      mret "fork ignored (enable preview_fork_approval_enabled to allow approvals)"
    else serve_event app provider event
  else mret ("action " +:+ Action event +:+ " not handled").

(** ** Comment commands *)

(** [CommentOutcome] *)
Inductive CommentOutcome := CAccepted (what : string) | CIgnored (reason : string).

(** [/deploy] and [/rebuild]: the same steps, with and without the build cache. *)
Definition deploy_command (app : App) (provider : string) (p : Preview) (force : bool)
    (queued done : string) : M World CommentOutcome :=
  if fork_gate (p_is_fork p) p then mret (CIgnored "fork waiting for maintainer approval (INV-010)")
  else
    p' ← UpsertPreview (app_id app) provider (p_pr p) (p_branch p) (p_sha p) (p_is_fork p) (p_repo p);
    p' ← ensurePreviewScaffolding app p';
    _ ← ignore (MarkPreviewDeployRequested (p_id p'));
    '(promoted, reason) ← PromotePreviewDeployment app p' force;
    mret (match promoted with None => CAccepted (queued +:+ reason) | Some _ => CAccepted done end).

(** [handlePreviewComment]; [rights] is the forge's answer about the author, if
    there is a credential to ask it with. *)
Definition handlePreviewComment (app : App) (provider : string) (event : CommentEvent)
    (rights : option (string → err + bool)) : M World CommentOutcome :=
  if negb (OnPullRequest event) then mret (CIgnored "not a comment on a pull request")
  else if decide (Command event = "") then mret (CIgnored "no command in the first line")
  else if negb (app_comment_commands app) then
    mret (CIgnored "comment commands disabled (preview_comment_commands_enabled)")
  else if negb (app_previews_enabled app) then mret (CIgnored "previews disabled")
  else
    found ← attempt (GetPreviewByIdentity (app_id app) provider (wrap32 (c_Number event)));
    match found with
    | inl _ => mret (CIgnored "no preview known for this PR")
    | inr p =>
        let repo := if decide (c_RepoReference event = "") then default "" (p_repo p) else c_RepoReference event in
        match rights with
        | None => mret (CIgnored "no_api_credentials: comment commands need a provider API token")
        | Some ask =>
            match ask repo with
            | inl _ => throw (Failure "author rights check failed")
            | inr false => mret (CIgnored "author lacks write access")
            | inr true =>
                if decide (Command event = "destroy") then
                  if decide (p_status p ∈ [PDestroyed; PDestroying])
                  then mret (CIgnored "preview already destroyed")
                  else _ ← EnqueuePreviewDestroy p; mret (CAccepted "destroy queued by /destroy")
                else if decide (Command event = "deploy") then
                  deploy_command app provider p false "queued by /deploy: " "deployment queued by /deploy"
                else if decide (Command event = "rebuild") then
                  deploy_command app provider p true "queued by /rebuild: " "rebuild (no cache) queued by /rebuild"
                else if decide (Command event = "keep") then
                  if decide (p_status p ∈ [PDestroyed; PDestroying])
                  then mret (CIgnored "preview already destroyed — /deploy to bring it back")
                  else _ ← KeepPreviewAlive (p_id p); mret (CAccepted "TTL reset by /keep")
                else mret (CIgnored "unknown command")
            end
        end
    end.

(** [DeployPreviewForPR] *)
Definition DeployPreviewForPR (app : App) (provider : string) (prID : Z) (branch sha : string) (isFork : bool)
    (repo : option string) : M World (option Deployment * string) :=
  p ← UpsertPreview (app_id app) provider (wrap32 prID) (Some branch) (Some sha) isFork repo;
  p ← ensurePreviewScaffolding app p;
  if fork_gate (p_is_fork p) p then mret (None, "fork waiting for maintainer approval (INV-010)")
  else
    _ ← ignore (MarkPreviewDeployRequested (p_id p));
    PromotePreviewDeployment app p false.

(** ** The preview endpoints, once the caller's rights and the row are resolved *)

(** [ApprovePreviewFork]: the status it answers. *)
Definition approve_endpoint (app : Z) (p : Preview) : M World Z :=
  if negb (p_is_fork p) then mret 409
  else if bool_decide (p_fork_approved_at p ≠ None) then mret 409
  else
    rows ← attempt (ApprovePreviewFork (p_id p));
    match rows with
    | inl _ | inr 0 => mret 500
    | inr _ =>
        found ← attempt (GetApplicationByID app);
        _ ← match found with
            | inl _ => mret ()
            | inr a =>
                refreshed ← attempt (GetPreviewByID (p_id p));
                match refreshed with
                | inl _ => mret ()
                | inr r =>
                    _ ← ignore (MarkPreviewDeployRequested (p_id r));
                    ignore (PromotePreviewDeployment a r false)
                end
            end;
        mret 202
    end.

(** [enqueueNoBuildDeployment] of a preview.  The server is the one the
    application was resolved with; [nb_artifact] is [None] for a compose stack,
    and otherwise whether an image of this preview is recorded. *)
Record no_build := mkNoBuild { nb_server : Z; nb_artifact : option bool; nb_key : option string }.
Definition errNothingToRedeploy : err := Failure "nothing deployed to redeploy".
Definition errQueueFull : err := Failure "deployment queue full".
Definition reusable_artifact (there : option bool) : M World () :=
  match there with
  | None => mret ()
  | Some b => _ ← fallible; if (b : bool) then mret () else throw errNothingToRedeploy
  end.
Definition enqueueNoBuildDeployment (app : Z) (p : Preview) (nb : no_build) : M World Deployment :=
  found ← attempt (GetLastSucceededPreviewDeployment (p_id p));
  match found with
  | inl NoRows => throw errNothingToRedeploy
  | inl e => throw e
  | inr last =>
      _ ← reusable_artifact (nb_artifact nb);
      active ← CountActiveDeploymentsForServer (nb_server nb);
      server ← GetServerByID (nb_server nb);
      if srv_queue_limit server <=? active then throw errQueueFull
      else
        deployment ← CreateNoBuildDeployment app TConfigApply (nb_server nb) (Some (p_id p)) (d_commit last);
        _ ← Enqueue (mkOptions "deploy" "deployment.run" 0 None 1 (nb_key nb) (Some (preview_lock p)) true)
              (PDeploymentRun (d_id deployment));
        mret deployment
  end.

(** [RedeployPreview], with [skip_build] or not, and [writeDeployError]. *)
Definition redeploy_endpoint (app : Z) (p : Preview) (skip_build : option no_build) (force : bool) : M World Z :=
  if decide (p_status p ∈ [PDestroyed; PDestroying]) then mret 409
  else if fork_gate (p_is_fork p) p then mret 409
  else match skip_build with
  | Some nb =>
      res ← attempt (enqueueNoBuildDeployment app p nb);
      match res with
      | inl e => mret (if decide (e = errQueueFull) then 429 else if decide (e = errNothingToRedeploy) then 409 else 500)
      | inr _ => mret 202
      end
  | None =>
    found ← attempt (GetApplicationByID app);
    match found with
    | inl _ => mret 500
    | inr a =>
        _ ← ignore (MarkPreviewDeployRequested (p_id p));
        res ← attempt (PromotePreviewDeployment a p force);
        match res with
        | inl _ => mret 500
        | inr (None, _) => mret 409
        | inr (Some _, _) => mret 202
        end
    end
  end.

(** [DestroyPreview] *)
Definition destroy_endpoint (p : Preview) : M World Z :=
  if decide (p_status p ∈ [PDestroyed; PDestroying]) then mret 409
  else
    res ← attempt (EnqueuePreviewDestroy p);
    match res with inl _ => mret 500 | inr _ => mret 202 end.

(** [KeepPreview] *)
Definition keep_endpoint (p : Preview) : M World Z :=
  if decide (p_status p ∈ [PDestroyed; PDestroying]) then mret 409
  else
    res ← attempt (KeepPreviewAlive (p_id p));
    match res with inl _ => mret 500 | inr _ => mret 204 end.

(** ** The workers *)

(** [PreviewDestroy.Execute]; [torn_down] is how the removal on the server ended. *)
Definition PreviewDestroy (id : Z) (torn_down : option string) : M World string :=
  found ← attempt (GetPreviewByID id);
  match found with
  | inl _ => mret "already gone"
  | inr p =>
      if decide (p_status p = PDestroyed) then mret "already destroyed"
      else
        app ← attempt (GetApplicationByID (p_app p));
        match app with
        | inl _ =>
            _ ← ignore (SetPreviewStatus id PDestroyed None); mret "destroyed (application gone)"
        | inr a =>
            server ← GetDestinationByID (app_destination a);
            _ ← GetServerByID server;
            match torn_down with
            | Some cause =>
                _ ← ignore (SetPreviewStatus id PCleanupFailed (Some cause)); throw (Failure cause)
            | None =>
                _ ← SetPreviewStatus id PDestroyed None;
                _ ← ignore (SetPreviewFqdn id None);
                mret "preview removed"
            end
        end
  end.

(** The end of [ApplicationDelete.Execute]: the previews read at its start. *)
Definition tombstone_previews (ps : list Preview) : M World () :=
  each ps (λ p,
    if decide (p_status p = PDestroyed) then mret ()
    else _ ← ignore (SetPreviewStatus (p_id p) PDestroyed None); ignore (SetPreviewFqdn (p_id p) None)).

(** A deployment run as previews see it: [DeploymentRun.Execute] with the gate at
    the head of [execute], and [finish], [markFailed] and [markCancelled] at its
    end; [pipeline] is how the build in between ends.  The statuses the deployment
    goes through meanwhile are not written here. *)
Inductive pipeline := Built | BuildFailed | BuildCancelled | NoLongerQueued.
Definition SetDeploymentStatus (id : Z) (st : DeploymentStatus) : M World () :=
  exec (λ w, set_deployments w (alter (λ d, mkDeployment (d_id d) (d_resource d) (d_trigger d) (d_server d)
    (d_preview d) (d_commit d) (d_force d) st (d_superseded_by d)) id (w_deployments w)) (w_deployment_next w)).
Definition mark_failed (d : Deployment) (p : Preview) : M World () :=
  _ ← ignore (SetPreviewStatus (p_id p) PFailed None);
  ignore (SetDeploymentStatus (d_id d) SFailed).
Definition finish_preview (d : Deployment) (p : Preview) : M World () :=
  _ ← SetDeploymentStatus (d_id d) SFinishing;
  _ ← ignore (SetPreviewDeployed (p_id p));
  SetDeploymentStatus (d_id d) SSucceeded.
Definition run_preview_deployment (id : Z) (end_ : pipeline) : M World string :=
  d ← row w_deployments id;
  if finished (d_status d) then mret "nothing to redo"
  else
    match d_preview d with
    | None => mret "not a preview"
    | Some pid =>
        p ← GetPreviewByID pid;
        if fork_gate (p_is_fork p) p then _ ← mark_failed d p; mret "failed"
        else match end_ with
        | NoLongerQueued => mret "no longer queued"
        | BuildCancelled => _ ← ignore (SetDeploymentStatus (d_id d) SCancelled); mret "cancelled"
        | BuildFailed => _ ← mark_failed d p; mret "failed"
        | Built =>
            res ← attempt (finish_preview d p);
            match res with inl _ => _ ← mark_failed d p; mret "failed" | inr _ => mret "succeeded" end
        end
    end.

(** ** The scheduler *)

(** [reapPreviews] *)
Definition warn_one (p : Preview) : M World () :=
  found ← attempt (GetApplicationByID (p_app p));
  match found with inl _ => mret () | inr _ => ignore (SetPreviewExpiryWarned (p_id p)) end.
Definition promote_one (p : Preview) : M World () :=
  if fork_gate (p_is_fork p) p then mret ()
  else
    found ← attempt (GetApplicationByID (p_app p));
    match found with
    | inl _ => mret ()
    | inr app =>
        if negb (app_previews_enabled app) then mret ()
        else if ManualFirstReserved app p then mret ()
        else ignore (PromotePreviewDeployment app p false)
    end.
Definition reapPreviews : M World () :=
  toWarn ← attempt ListPreviewsToWarn;
  _ ← match toWarn with inl _ => mret () | inr ps => each ps warn_one end;
  expired ← attempt ListExpiredPreviews;
  match expired with
  | inl _ => mret ()
  | inr ps =>
      _ ← each ps (λ p, ignore (EnqueuePreviewDestroy p));
      queued ← attempt ListQueuedPreviews;
      match queued with inl _ => mret () | inr qs => each qs promote_one end
  end.
End Lifecycle.
