(* ===== verification/ScaleZero.v ===== *)
(** * Scale to zero

    Models [scaleZeroPreviews] of [internal/scheduler/previews.go] with its
    helpers, and the [stz_woken] observation of [internal/handlers/agent.go]
    where it concerns a preview.  What the agent of a server answers is given
    from outside: whether its channel is there, what the activity file of a
    preview says, whether its containers stopped. *)
From S2P Require Import Prelude GoLib Effects Json Queue GitWebhook ControlDB.
Local Open Scope Z_scope.

(** [idlePastWindow] *)
Definition idlePastWindow (last windowMin now : Z) : bool :=
  (if windowMin <=? 0 then 30 * minute else windowMin * minute) <=? now - last.

(** [latestOf]; the zero time is [None]. *)
Definition latestOf (a b : option Z) : option Z :=
  match a, b with
  | Some x, Some y => Some (Z.max x y)
  | Some x, None => Some x
  | None, y => y
  end.

(** [previewPlacement] *)
Definition previewPlacement (app : Z) : M World Z :=
  a ← GetApplicationByID app;
  server ← GetDestinationByID (app_destination a);
  _ ← GetServerByID server;
  mret server.

Section Pass.
(** The agent channel of a server, [readWakerActivity], [stopPreviewContainers]. *)
Context (channel : Z → bool) (activity : string → err + option Z) (stopped : string → bool).

(** The last sign of life of a preview, when it can be told. *)
Definition last_active (p : Preview) : option Z :=
  match activity (p_uuid p) with
  | inl _ => None
  | inr seen => latestOf seen (latestOf (p_last_activity p) (p_last_deployed p))
  end.

(** The bodies of the two loops. *)
Definition sleep_one (now : Z) (x : Preview * Z) : M World () :=
  placed ← attempt (previewPlacement (p_app x.1));
  match placed with
  | inl _ => mret ()
  | inr server =>
      if negb (channel server) then mret ()
      else match last_active x.1 with
      | None => mret ()
      | Some last =>
          if negb (idlePastWindow last x.2 now) then mret ()
          else if negb (stopped (p_uuid x.1)) then mret ()
          else ignore (SetPreviewSleeping (p_id x.1))
      end
  end.
Definition wake_one (p : Preview) : M World () :=
  placed ← attempt (previewPlacement (p_app p));
  match placed with
  | inl _ => mret ()
  | inr server =>
      if negb (channel server) then mret ()
      else match activity (p_uuid p) with
      | inr (Some last) => if p_updated_at p <? last then ignore (SetPreviewAwake (p_id p)) else mret ()
      | _ => mret ()
      end
  end.

(** [scaleZeroPreviews] *)
Definition scaleZeroPreviews : M World () :=
  active ← attempt ListPreviewsForScaleToZero;
  match active with
  | inl _ => mret ()
  | inr active =>
      sleeping ← attempt ListSleepingPreviews;
      match sleeping with
      | inl _ => mret ()
      | inr sleeping =>
          now ← look w_now;
          _ ← each active (sleep_one now);
          each sleeping wake_one
      end
  end.
End Pass.

(** [applyAgentObservation] of a woken preview: whether there was one. *)
Definition stz_woken (server : Z) (uuid : string) : M World bool :=
  found ← attempt (GetSleepingPreviewForServer uuid server);
  match found with
  | inl _ => mret false
  | inr p => _ ← ignore (SetPreviewAwake (p_id p)); mret true
  end.

(** ** The transitions of a pass *)

Section Transitions.
Context (channel : Z → bool) (activity : string → err + option Z) (stopped : string → bool).

(** The agent of the preview's server can be heard. *)
Definition heard (w : World) (app : Z) : bool :=
  match w_apps w !! app with
  | None => false
  | Some a =>
      match w_destinations w !! app_destination a with
      | None => false
      | Some server => bool_decide (is_Some (w_servers w !! server)) && channel server
      end
  end.

(** The preview is active, opted in, idle past its window by every signal, and
    its containers are stopped. *)
Definition due_asleep (w : World) (p : Preview) : bool :=
  match scales_to_zero w p, last_active activity p with
  | Some (_, minutes), Some last =>
      heard w (p_app p) && idlePastWindow last minutes (w_now w) && stopped (p_uuid p)
  | _, _ => false
  end.
(** The preview sleeps, and was served since. *)
Definition due_awake (w : World) (p : Preview) : bool :=
  bool_decide (p_status p = PSleeping) && heard w (p_app p) &&
  match activity (p_uuid p) with inr (Some last) => p_updated_at p <? last | _ => false end.

Definition after_pass (w : World) (p : Preview) : Preview :=
  if due_asleep w p then asleep PSleeping (λ x, x) (w_now w) p
  else if due_awake w p then asleep PActive (λ _, None) (w_now w) p
  else p.

(** Rows are stored under their ids. *)
Definition rows_filed (w : World) : Prop := ∀ i p, w_previews w !! i = Some p → p_id p = i.

Lemma due_exclusive w p : due_asleep w p = true → due_awake w p = false.
Proof.
  unfold due_asleep, due_awake, scales_to_zero. destruct (w_apps w !! p_app p) as [a|]; [|done]. simpl.
  case_bool_decide as Ha; simpl; [|done]. intros _. rewrite bool_decide_false; [done|]. rewrite Ha. done.
Qed.

(** The tables a pass reads and does not write. *)
Record same_but_previews (w v : World) : Prop := mkSame {
  s_now : w_now v = w_now w; s_apps : w_apps v = w_apps w; s_destinations : w_destinations v = w_destinations w;
  s_servers : w_servers v = w_servers w; s_deployments : w_deployments v = w_deployments w;
  s_queue : w_queue v = w_queue w; s_next : w_preview_next v = w_preview_next w;
  s_dom : dom (w_previews v) = dom (w_previews w)
}.

Lemma placement_wp w v app (Q : err + Z → World → Prop) :
  same_but_previews w v → (∀ e, Q (inl e) v) → (∀ server, heard w app = channel server → Q (inr server) v) →
  wp (previewPlacement app) Q v.
Proof.
  intros [H1 H2 H3 H4 _ _ _] He Hs. unfold previewPlacement, heard in *.
  apply wp_bind, wp_query; [apply He|]. rewrite H2. destruct (w_apps w !! app) as [a|]; [|apply He].
  apply wp_bind, wp_query; [apply He|]. rewrite H3. destruct (w_destinations w !! app_destination a) as [s|]; [|apply He].
  apply wp_bind, wp_query; [apply He|]. rewrite H4. destruct (w_servers w !! s) as [x|]; [|apply He].
  apply wp_ret, Hs. by rewrite bool_decide_true by eauto.
Qed.

(** Each row is untouched or moved as its transition says; those of [S] are moved. *)
Definition underway (S : Z → Prop) (w v : World) : Prop :=
  same_but_previews w v ∧ ∀ i p, w_previews w !! i = Some p →
    w_previews v !! i = Some (after_pass w p) ∨ ¬ S i ∧ w_previews v !! i = Some p.

Lemma underway_move S w v p f :
  w_previews w !! p_id p = Some p → underway S w v →
  (after_pass w p = f (w_now w) p ∧ f (w_now w) (f (w_now w) p) = f (w_now w) p) →
  underway S w (set_previews v (alter (f (w_now v)) (p_id p) (w_previews v)) (w_preview_next v)).
Proof.
  intros Hp [Hs Hr] [Hf Hff]. split.
  - destruct Hs. constructor; simpl; try done. by rewrite dom_alter_L.
  - intros i q Hq. simpl. rewrite (s_now _ _ Hs), lookup_alter. case_decide; [|by apply Hr]. subst i.
    rewrite Hp in Hq. injection Hq as <-. left.
    destruct (Hr _ _ Hp) as [->|[_ ->]]; simpl; rewrite Hf; [|done]. by rewrite Hff.
Qed.

Lemma sleep_one_underway S w v x :
  w_previews w !! p_id x.1 = Some x.1 → scales_to_zero w x.1 = Some x → underway S w v →
  wp (sleep_one channel activity stopped (w_now w) x) (λ _ v', underway S w v') v.
Proof.
  intros Hp Hx Hv. unfold sleep_one. apply wp_bind, wp_attempt.
  apply (placement_wp w); [apply Hv|intros e; by apply wp_ret|]. intros server Hh.
  destruct (channel server) eqn:Hc; simpl; [|by apply wp_ret].
  destruct (last_active activity x.1) as [last|] eqn:Hl; [|by apply wp_ret].
  destruct (idlePastWindow last x.2 (w_now w)) eqn:Hi; simpl; [|by apply wp_ret].
  destruct (stopped (p_uuid x.1)) eqn:Hst; simpl; [|by apply wp_ret].
  assert (underway S w (set_previews v (alter (asleep PSleeping (λ x, x) (w_now v)) (p_id x.1) (w_previews v)) (w_preview_next v))).
  { apply (underway_move S w v x.1 (asleep PSleeping (λ x, x))); [done..|]. split; [|done].
    unfold after_pass, due_asleep. rewrite Hx. destruct x as [p minutes]; simpl in *. by rewrite Hl, Hh, Hi, Hst. }
  by apply wp_ignore, wp_exec.
Qed.

Lemma wake_one_underway S w v p :
  w_previews w !! p_id p = Some p → p_status p = PSleeping → underway S w v →
  wp (wake_one channel activity p) (λ _ v', underway S w v') v.
Proof.
  intros Hp Hsl Hv. unfold wake_one. apply wp_bind, wp_attempt.
  apply (placement_wp w); [apply Hv|intros e; by apply wp_ret|]. intros server Hh.
  destruct (channel server) eqn:Hc; simpl; [|by apply wp_ret].
  destruct (activity (p_uuid p)) as [e|[last|]] eqn:Ha; [by apply wp_ret| |by apply wp_ret].
  destruct (p_updated_at p <? last) eqn:Hlt; [|by apply wp_ret].
  assert (due_awake w p = true) as Hd by (unfold due_awake; by rewrite bool_decide_true, Hh, Ha).
  assert (due_asleep w p = false) as Hn.
  { destruct (due_asleep w p) eqn:E; [|done]. by rewrite (due_exclusive w p E) in Hd. }
  assert (underway S w (set_previews v (alter (asleep PActive (λ _, None) (w_now v)) (p_id p) (w_previews v)) (w_preview_next v))).
  { apply (underway_move S w v p (asleep PActive (λ _, None))); [done..|]. split; [|done].
    unfold after_pass. by rewrite Hn, Hd. }
  by apply wp_ignore, wp_exec.
Qed.

Lemma scales_self w p x : scales_to_zero w p = Some x → x.1 = p.
Proof.
  unfold scales_to_zero. destruct (w_apps w !! p_app p); [|done]. simpl. case_match; [|done]. by intros [= <-].
Qed.
Lemma listed w p : rows_filed w → p ∈ (map_to_list (w_previews w)).*2 → w_previews w !! p_id p = Some p.
Proof.
  intros Hf ([i q] & -> & Hin)%list_elem_of_fmap. apply elem_of_map_to_list in Hin. simpl.
  by rewrite (Hf i q Hin).
Qed.

Lemma scaleZeroPreviews_underway w :
  rows_filed w → wp (scaleZeroPreviews channel activity stopped) (λ _ v, underway (λ _, False) w v) w.
Proof.
  intros Hf. set (S := λ _ : Z, False). assert (underway S w w) as H0 by (split; [by constructor|by right; auto]).
  unfold scaleZeroPreviews. apply wp_bind, wp_attempt, wp_query; [by apply wp_ret|].
  apply wp_bind, wp_attempt, wp_query; [by apply wp_ret|]. apply wp_bind, wp_look, wp_bind.
  eapply wp_mono; [|apply (wp_each (underway S w)); [|exact H0]].
  - intros [e|[]] v Hv; [done|]. apply wp_each; [|done]. intros p v' Hp Hv'.
    apply list_elem_of_filter in Hp as [Hst Hp]. apply bool_decide_eq_true in Hst.
    apply wake_one_underway; [by apply listed|done..].
  - intros x v Hx Hv. apply list_elem_of_omap in Hx as (p & Hp & Hx).
    pose proof (scales_self w p x Hx) as <-. apply sleep_one_underway; [by apply listed|done..].
Qed.

(** With no failure, every transition that is due is made. *)
Lemma placement_run w v app :
  same_but_previews w v → heard w app = true →
  ∃ server, previewPlacement app [] v = (inr server, ([], v)) ∧ channel server = true.
Proof.
  intros [H1 H2 H3 H4 _ _ _] Hh. unfold heard in Hh.
  destruct (w_apps w !! app) as [a|] eqn:Ea; [|done].
  destruct (w_destinations w !! app_destination a) as [s|] eqn:Ed; [|done].
  apply andb_true_iff in Hh as [[x Hs]%bool_decide_eq_true Hc]. exists s. split; [|done].
  unfold previewPlacement, GetApplicationByID, GetDestinationByID, GetServerByID, row.
  rewrite run_bind, run_query, H2, Ea, run_bind, run_query, H3, Ed, run_bind, run_query, H4, Hs. done.
Qed.

Lemma placement_quiet app v : ∃ r, previewPlacement app [] v = (r, ([], v)).
Proof.
  unfold previewPlacement, GetApplicationByID, GetDestinationByID, GetServerByID, row.
  rewrite run_bind, run_query. destruct (w_apps v !! app) as [a|]; [|eauto].
  rewrite run_bind, run_query. destruct (w_destinations v !! _) as [s|]; [|eauto].
  rewrite run_bind, run_query. destruct (w_servers v !! s); eauto.
Qed.

Lemma sleep_one_runs now x v : ∃ v', sleep_one channel activity stopped now x [] v = (inr (), ([], v')).
Proof.
  unfold sleep_one. rewrite run_bind, run_attempt. destruct (placement_quiet (p_app x.1) v) as [r ->]. simpl.
  destruct r as [e|s]; [eauto|]. destruct (negb (channel s)); [eauto|].
  destruct (last_active activity x.1) as [l|]; [|eauto]. destruct (negb (idlePastWindow _ _ _)); [eauto|].
  destruct (negb (stopped _)); eauto.
Qed.
Lemma wake_one_runs p v : ∃ v', wake_one channel activity p [] v = (inr (), ([], v')).
Proof.
  unfold wake_one. rewrite run_bind, run_attempt. destruct (placement_quiet (p_app p) v) as [r ->]. simpl.
  destruct r as [e|s]; [eauto|]. destruct (negb (channel s)); [eauto|].
  destruct (activity (p_uuid p)) as [e|[l|]]; [eauto| |eauto]. destruct (p_updated_at p <? l); eauto.
Qed.

Lemma sleep_one_moves (S : Z → Prop) w v p minutes :
  underway S w v → w_previews w !! p_id p = Some p → scales_to_zero w p = Some (p, minutes) → due_asleep w p = true →
  w_previews (snd (snd (sleep_one channel activity stopped (w_now w) (p, minutes) [] v))) !! p_id p =
    Some (after_pass w p).
Proof.
  intros [Hs Hr] Hp Hx Hd. unfold after_pass. rewrite Hd. unfold due_asleep in Hd. rewrite Hx in Hd.
  destruct (last_active activity p) as [last|] eqn:El; [|done]. apply andb_true_iff in Hd as [[Hh Hi]%andb_true_iff Hst].
  unfold sleep_one. simpl. rewrite run_bind, run_attempt.
  destruct (placement_run w v (p_app p) Hs Hh) as (server & -> & Hc). simpl. rewrite Hc, El, Hi, Hst. simpl.
  rewrite lookup_alter, decide_True by done. rewrite (s_now _ _ Hs).
  destruct (Hr _ _ Hp) as [->|[_ ->]]; simpl; [|done]. unfold after_pass, due_asleep.
  by rewrite Hx, El, Hh, Hi, Hst.
Qed.

Lemma wake_one_moves (S : Z → Prop) w v p :
  underway S w v → w_previews w !! p_id p = Some p → due_awake w p = true →
  w_previews (snd (snd (wake_one channel activity p [] v))) !! p_id p = Some (after_pass w p).
Proof.
  intros [Hs Hr] Hp Hd.
  assert (after_pass w p = asleep PActive (λ _, None) (w_now w) p) as Ha.
  { unfold after_pass. destruct (due_asleep w p) eqn:E; [|by rewrite Hd]. by rewrite (due_exclusive w p E) in Hd. }
  unfold due_awake in Hd. apply andb_true_iff in Hd as [[_ Hh]%andb_true_iff Hd].
  destruct (activity (p_uuid p)) as [e|[last|]] eqn:El; [done| |done].
  unfold wake_one. rewrite run_bind, run_attempt.
  destruct (placement_run w v (p_app p) Hs Hh) as (server & -> & Hc). simpl. rewrite Hc, El, Hd. simpl.
  rewrite lookup_alter, decide_True by done. rewrite (s_now _ _ Hs).
  destruct (Hr _ _ Hp) as [->|[_ ->]]; simpl; by rewrite Ha.
Qed.

Lemma underway_seen (S : Z → Prop) w v i p :
  underway S w v → w_previews w !! i = Some p → w_previews v !! i = Some (after_pass w p) →
  underway (λ j, S j ∨ j = i) w v.
Proof.
  intros [Hs Hr] Hp Hi. split; [done|]. intros j q Hq. destruct (decide (j = i)) as [->|Hne].
  - left. rewrite Hp in Hq. by injection Hq as <-.
  - destruct (Hr j q Hq) as [?|[Hn ?]]; [by left|right]. split; [|done]. by intros [?|?].
Qed.
Lemma underway_mono (S T : Z → Prop) w v : (∀ i, T i → S i) → underway S w v → underway T w v.
Proof.
  intros H [Hs Hr]. split; [done|]. intros j q Hq. destruct (Hr j q Hq) as [?|[Hn ?]]; [by left|right; eauto].
Qed.

(** What one turn of each loop adds. *)
Lemma sleep_one_seen S w v x :
  w_previews w !! p_id x.1 = Some x.1 → scales_to_zero w x.1 = Some x → underway S w v →
  ∃ v', sleep_one channel activity stopped (w_now w) x [] v = (inr (), ([], v')) ∧
        underway (λ i, S i ∨ i = p_id x.1 ∧ due_asleep w x.1 = true) w v'.
Proof.
  intros Hp Hx Hu. pose proof (sleep_one_underway S w v x Hp Hx Hu []) as Hu'.
  destruct (sleep_one_runs (w_now w) x v) as [v' Hv']. rewrite Hv' in Hu'. exists v'. split; [done|].
  destruct (due_asleep w x.1) eqn:Hd; [|by eapply underway_mono; [|exact Hu']; intros i [?|[_ ?]]].
  eapply underway_mono; [|apply (underway_seen S w v' (p_id x.1) x.1); [done..|]].
  - intros i [?|[-> _]]; auto.
  - destruct x as [p minutes]. pose proof (sleep_one_moves S w v p minutes Hu Hp Hx Hd) as H. by rewrite Hv' in H.
Qed.
Lemma wake_one_seen S w v p :
  w_previews w !! p_id p = Some p → p_status p = PSleeping → underway S w v →
  ∃ v', wake_one channel activity p [] v = (inr (), ([], v')) ∧
        underway (λ i, S i ∨ i = p_id p ∧ due_awake w p = true) w v'.
Proof.
  intros Hp Hst Hu. pose proof (wake_one_underway S w v p Hp Hst Hu []) as Hu'.
  destruct (wake_one_runs p v) as [v' Hv']. rewrite Hv' in Hu'. exists v'. split; [done|].
  destruct (due_awake w p) eqn:Hd; [|by eapply underway_mono; [|exact Hu']; intros i [?|[_ ?]]].
  eapply underway_mono; [|apply (underway_seen S w v' (p_id p) p); [done..|]].
  - intros i [?|[-> _]]; auto.
  - pose proof (wake_one_moves S w v p Hu Hp Hd) as H. by rewrite Hv' in H.
Qed.

(** When every row that is due was seen, the pass is complete. *)
Lemma completed (S : Z → Prop) w v :
  rows_filed w → underway S w v →
  (∀ p, p ∈ (map_to_list (w_previews w)).*2 → due_asleep w p = true ∨ due_awake w p = true → S (p_id p)) →
  w_previews v = after_pass w <$> w_previews w.
Proof.
  intros Hf [Hs Hr] HS. apply map_eq. intros i. rewrite lookup_fmap.
  destruct (w_previews w !! i) as [p|] eqn:Hp; simpl.
  2:{ apply not_elem_of_dom. rewrite (s_dom _ _ Hs). by apply not_elem_of_dom. }
  destruct (Hr i p Hp) as [?|[Hn Hi]]; [done|]. rewrite Hi. f_equal.
  assert (p ∈ (map_to_list (w_previews w)).*2) as Hin
    by (apply list_elem_of_fmap; exists (i, p); split; [done|]; by apply elem_of_map_to_list).
  specialize (HS p Hin). rewrite (Hf i p Hp) in HS. unfold after_pass.
  destruct (due_asleep w p); [destruct Hn; auto|]. destruct (due_awake w p); [destruct Hn; auto|done].
Qed.

Lemma scaleZeroPreviews_runs w :
  rows_filed w →
  ∃ v, scaleZeroPreviews channel activity stopped [] w = (inr (), ([], v)) ∧ w_previews v = after_pass w <$> w_previews w.
Proof.
  intros Hf. unfold scaleZeroPreviews, ListPreviewsForScaleToZero, ListSleepingPreviews, list_previews.
  rewrite run_bind, run_attempt, run_query. simpl. rewrite run_bind, run_attempt, run_query. simpl.
  rewrite run_bind. unfold look. rewrite run_bind.
  set (active := omap (scales_to_zero w) _). set (sleeping := filter _ _).
  destruct (each_done (λ seen v, underway (λ i, ∃ x, x ∈ seen ∧ i = p_id x.1 ∧ due_asleep w x.1 = true) w v)
    active (sleep_one channel activity stopped (w_now w)) w) as (v1 & -> & Hu1).
  { intros seen x rest v Hxs Hv. assert (x ∈ active) as (p & Hp & Hx)%list_elem_of_omap by (rewrite Hxs; set_solver). pose proof (scales_self w p x Hx) as <-.
    destruct (sleep_one_seen _ w v x (listed w _ Hf Hp) Hx Hv) as (v' & Hr & Hu). exists v'. split; [done|].
    eapply underway_mono; [|exact Hu]. intros i (y & [Hy| ->%list_elem_of_singleton]%elem_of_app & Hi); [left|right]; eauto. }
  { split; [by constructor|]. intros i p Hp. right. split; [|done]. intros (x & Hx & _). by apply not_elem_of_nil in Hx. }
  destruct (each_done (λ seen v, underway (λ i, (∃ x, x ∈ active ∧ i = p_id x.1 ∧ due_asleep w x.1 = true) ∨
    ∃ p, p ∈ seen ∧ i = p_id p ∧ due_awake w p = true) w v) sleeping (wake_one channel activity) v1) as (v2 & Hv2 & Hu2).
  { intros seen p rest v Hxs Hv. assert (p ∈ sleeping) as [Hst Hp]%list_elem_of_filter by (rewrite Hxs; set_solver). apply bool_decide_eq_true in Hst.
    destruct (wake_one_seen _ w v p (listed w _ Hf Hp) Hst Hv) as (v' & Hr & Hu). exists v'. split; [done|].
    eapply underway_mono; [|exact Hu].
    intros i [?|(y & [Hy| ->%list_elem_of_singleton]%elem_of_app & Hi)]; [by left; left|left; right; eauto|by right]. }
  { eapply underway_mono; [|exact Hu1]. intros i [?|(p & Hp & _)]; [done|]. by apply not_elem_of_nil in Hp. }
  exists v2. split; [exact Hv2|]. apply (completed _ w v2 Hf Hu2).
  intros p Hp [Ha|Hw]; [left|right].
  - pose proof Ha as Ha'. unfold due_asleep in Ha'. destruct (scales_to_zero w p) as [x|] eqn:Hz; [|done].
    pose proof (scales_self w p x Hz) as <-. exists x. split_and!; [|done..]. apply list_elem_of_omap. eauto.
  - exists p. split_and!; [|done..]. apply list_elem_of_filter. split; [|done]. unfold due_awake in Hw.
    by apply andb_true_iff in Hw as [[? _]%andb_true_iff _].
Qed.
Lemma latestOf_le a b last t : latestOf a b = Some last → a = Some t ∨ b = Some t → t <= last.
Proof. destruct a as [x|], b as [y|]; simpl; intros [= <-] [[= <-]|[= <-]]; lia. Qed.

(** The window the code applies. *)
Definition window_of (minutes : Z) : Z := if minutes <=? 0 then 30 * minute else minutes * minute.

(** What a preview put to sleep had to show. *)
Lemma due_asleep_idle w p :
  due_asleep w p = true →
  ∃ app seen, w_apps w !! p_app p = Some app ∧ app_scale_to_zero app = true ∧ p_status p = PActive ∧
    activity (p_uuid p) = inr seen ∧ stopped (p_uuid p) = true ∧
    ∀ t, seen = Some t ∨ p_last_activity p = Some t ∨ p_last_deployed p = Some t →
      t + window_of (app_scale_minutes app) <= w_now w.
Proof.
  unfold due_asleep, last_active. destruct (scales_to_zero w p) as [[q minutes]|] eqn:Hz; [|done].
  destruct (activity (p_uuid p)) as [e|seen] eqn:Ha; [done|]. destruct (latestOf seen _) as [last|] eqn:Hl; [|done].
  intros [[_ Hi]%andb_true_iff Hst]%andb_true_iff. unfold scales_to_zero in Hz.
  destruct (w_apps w !! p_app p) as [app|]; [|done]. simpl in Hz. case_match eqn:Hc; [|done]. injection Hz as <- <-.
  apply andb_true_iff in Hc as [Hp%bool_decide_eq_true Hopt]. exists app, seen. split_and!; try done.
  intros t Ht. assert (t <= last) as Hle.
  { destruct Ht as [->|Ht]; [eapply latestOf_le; [exact Hl|by left]|].
    destruct (latestOf (p_last_activity p) (p_last_deployed p)) as [db|] eqn:Hdb.
    - assert (t <= db) by (by eapply latestOf_le). assert (db <= last) by (eapply latestOf_le; [exact Hl|by right]). lia.
    - destruct (p_last_activity p), (p_last_deployed p); destruct Ht; simpl in *; congruence. }
  unfold idlePastWindow, window_of in *. case_match; lia.
Qed.

(** C30: A scale-to-zero pass changes nothing but the status of previews.  Whatever
    statement fails, each row is left alone or makes the one transition that is
    due for it; with no failure every due transition is made.  A preview falls
    asleep only if it was active on an application that opted in, its agent
    answered, its containers stopped, and no request, activity or deployment is
    more recent than the window. *)
Theorem scaleZeroPreviews_exact w fs :
  rows_filed w →
  let '(_, (_, w')) := scaleZeroPreviews channel activity stopped fs w in
  same_but_previews w w' ∧
  (∀ i p, w_previews w !! i = Some p →
     w_previews w' !! i = Some p ∨ w_previews w' !! i = Some (after_pass w p)) ∧
  (fs = [] → w_previews w' = after_pass w <$> w_previews w) ∧
  (∀ i p p', w_previews w !! i = Some p → w_previews w' !! i = Some p' → p_status p ≠ PSleeping →
     p_status p' = PSleeping →
     ∃ app seen, w_apps w !! p_app p = Some app ∧ app_scale_to_zero app = true ∧ p_status p = PActive ∧
       activity (p_uuid p) = inr seen ∧ stopped (p_uuid p) = true ∧
       ∀ t, seen = Some t ∨ p_last_activity p = Some t ∨ p_last_deployed p = Some t →
         t + window_of (app_scale_minutes app) <= w_now w).
Proof.
  intros Hf. pose proof (scaleZeroPreviews_underway w Hf fs) as H.
  destruct (scaleZeroPreviews _ _ _ fs w) as [r [fs' w']] eqn:E. destruct H as [Hs Hr].
  assert (∀ i p, w_previews w !! i = Some p →
    w_previews w' !! i = Some p ∨ w_previews w' !! i = Some (after_pass w p)) as Hrows.
  { intros i p Hp. destruct (Hr i p Hp) as [?|[_ ?]]; auto. }
  split_and!; [done..| |].
  - intros ->. destruct (scaleZeroPreviews_runs w Hf) as (v & Hv & Hrow). congruence.
  - intros i p p' Hp Hp' Hn Hsl. apply due_asleep_idle. destruct (due_asleep w p) eqn:Hd; [done|exfalso].
    destruct (Hrows i p Hp) as [H|H]; rewrite H in Hp'; injection Hp' as <-; [done|].
    revert Hsl. unfold after_pass. rewrite Hd. by destruct (due_awake w p).
Qed.
End Transitions.

(** Two previews of one application: one idle for an hour, one served a minute ago. *)
Definition zero_app (cap : option Z) : App :=
  mkApp 1 "app-uuid" 1 None true None true None false true true cap false true false None None "" true 30.
Definition zero_preview (id : Z) (served : Z) : Preview :=
  mkPreview id (FormatInt id) 1 "github" id None None false None None PActive None (Some 0) (Some served) None 0
    None None None None.
Definition zero_world (cap : option Z) (previews : gmap Z Preview) : World :=
  mkWorld (60 * minute) (λ i, FormatInt i) (mkDB ∅ 1) ∅ {[ 1 := zero_app cap ]} {[ 1 := 1 ]}
    {[ 1 := mkServer 2 None ]} ∅ ∅ ∅ ∅ 1 ∅ 1 previews 3 ∅ ∅ ∅.
Definition idle_and_busy : World :=
  zero_world None {[ 1 := zero_preview 1 0; 2 := zero_preview 2 (59 * minute) ]}.

Lemma scaleZeroPreviews_exact_witness :
  let '(_, (_, w')) := scaleZeroPreviews (λ _, true) (λ _, inr None) (λ _, true) [] idle_and_busy in
  p_status <$> w_previews w' !! 1 = Some PSleeping ∧ p_status <$> w_previews w' !! 2 = Some PActive ∧
  w_queue w' = w_queue idle_and_busy.
Proof.
  pose proof (scaleZeroPreviews_exact (λ _, true) (λ _, inr None) (λ _, true) idle_and_busy []) as H.
  destruct (scaleZeroPreviews _ _ _ _ _) as [r [fs w']].
  destruct H as (Hs & _ & H & _).
  - intros i p. simpl. intros [[<- <-]|[_ [<- <-]%lookup_singleton_Some]]%lookup_insert_Some; reflexivity.
  - rewrite (H eq_refl). split_and!; [vm_compute; reflexivity..|]. destruct Hs as [_ _ _ _ _ Hq _]. exact Hq.
Defined.

(** A preview waking up does not ask for room: with a cap of one, two are live. *)
Definition one_awake_one_asleep : World :=
  zero_world (Some 1) {[ 1 := zero_preview 1 0; 2 := asleep PSleeping (λ x, x) 0 (zero_preview 2 0) ]}.
Lemma waking_ignores_the_cap :
  live_previews one_awake_one_asleep 1 = 1 ∧
  live_previews (snd (eval (stz_woken 1 "2") one_awake_one_asleep)) 1 = 2.
Proof. vm_compute. done. Qed.
