(* ===== verification/WebhookProcess.v ===== *)
(** * Processing deliveries

    Models the worker handlers of a received delivery: [WebhookProcess.Execute]
    ([internal/jobs/webhookprocess.go]) for the endpoint of one application, and
    the fan-out of a GitHub App delivery to every application bound to the
    repository ([githubapppush.go], [previewpr.go], [githubappcomment.go]).  The
    step records are left out: no decision reads them. *)
From S2P Require Import Prelude GoLib Queue Effects Json GitWebhook ControlDB WebhookReceive WebhookDeploy.
From S2P Require Import PreviewHost Previews.
Local Open Scope Z_scope.

Section Process.
Context (slug_of : Z → string).

(** What a handler reports: the result of the job. *)
Inductive verdict :=
| VIgnored (reason : string)
| VDeployed (deployment : Z)
| VPreview (outcome : string).

(** The [ignore] of [Execute], and the record of a failure. *)
Definition ignored_with (id : Z) (reason : string) : M World verdict :=
  _ ← ignore (FinishWebhookDelivery id DIgnored (Some reason)); mret (VIgnored reason).
Definition failed_with {A} (id : Z) (msg : string) (e : err) : M World A :=
  _ ← ignore (FinishWebhookDelivery id DFailed (Some msg)); throw e.
Definition accepted_with (id : Z) (v : verdict) : M World verdict :=
  _ ← ignore (FinishWebhookDelivery id DAccepted None); mret v.
Definition error_text (e : err) : string :=
  match e with Failure msg => msg | NoRows => "no rows in result set" | Broken => "store unavailable" end.

(** The texts of the parse errors. *)
Definition push_error (p : Provider) : string :=
  if Supported p then "unparsable push payload" else "unsupported provider".
Definition pull_request_error (p : Provider) : string :=
  if decide (p = GitLab) then "unparsable merge_request payload"
  else if Supported p then "unparsable pull_request payload" else "unsupported provider".

(** [processPullRequest] *)
Definition processPullRequest (d : Delivery) (app_id : Z) : M World verdict :=
  app ← GetApplicationByID app_id;
  if negb (app_previews_enabled app) then ignored_with (dl_id d) "previews disabled"
  else match ParsePullRequest (dl_provider d) (dl_payload d) with
  | None => failed_with (dl_id d) (pull_request_error (dl_provider d)) (Failure (pull_request_error (dl_provider d)))
  | Some event =>
      res ← attempt (HandlePreviewPREvent slug_of app (dl_provider d) event);
      match res with
      | inl e => failed_with (dl_id d) (error_text e) e
      | inr outcome => accepted_with (dl_id d) (VPreview outcome)
      end
  end.

(** [HandlePreviewComment]: the forge client may be unavailable, or absent. *)
Definition Rights : Type := err + option (string → err + bool).
Definition HandlePreviewComment (app : App) (provider : string) (event : CommentEvent) (rights : Rights) :
    M World CommentOutcome :=
  match rights with
  | inl e => throw e
  | inr ask => handlePreviewComment slug_of app provider event ask
  end.

(** [processComment] *)
Definition processComment (d : Delivery) (app_id : Z) (rights : Rights) : M World verdict :=
  app ← GetApplicationByID app_id;
  match ParseComment (dl_provider d) (dl_payload d) with
  | None => ignored_with (dl_id d) "unparsable comment payload"
  | Some event =>
      res ← attempt (HandlePreviewComment app (dl_provider d) event rights);
      match res with
      | inl e => failed_with (dl_id d) (error_text e) e
      | inr (CIgnored reason) => ignored_with (dl_id d) reason
      | inr (CAccepted what) => accepted_with (dl_id d) (VPreview what)
      end
  end.

(** [WebhookProcess.Execute] *)
Definition Execute (delivery : Z) (rights : Rights) : M World verdict :=
  d ← GetWebhookDeliveryByID delivery;
  if negb (dl_signature_valid d) then
    throw (Failure "refusing to process a delivery with an invalid signature")
  else match dl_app d with
  | None => ignored_with (dl_id d) "no application associated with this endpoint"
  | Some app_id =>
      let provider := dl_provider d in
      let eventType := default "unknown" (dl_event_type d) in
      if IsPullRequestEvent provider eventType then processPullRequest d app_id
      else if IsCommentEvent provider eventType then processComment d app_id rights
      else if decide (eventType ≠ "push") then ignored_with (dl_id d) ("event " +:+ eventType +:+ " is not a push")
      else match ParsePush provider (dl_payload d) with
      | None => failed_with (dl_id d) (push_error provider) (Failure (push_error provider))
      | Some push =>
          if Deleted push then ignored_with (dl_id d) "branch deleted"
          else
            app ← GetApplicationByID app_id;
            if decide (PushPolicyReason app push ≠ "") then ignored_with (dl_id d) (PushPolicyReason app push)
            else
              res ← attempt (EnqueueWebhookDeployment app);
              match res with
              | inl e => failed_with (dl_id d) (error_text e) e
              | inr deployment => accepted_with (dl_id d) (VDeployed (d_id deployment))
              end
      end
  end.

(** ** The GitHub App *)

(** The loop over the applications: one that cannot be read is passed over, a
    failure of one is its result and not the end of the others. *)
Fixpoint fan_out (apps : list Z) (body : App → M World string) : M World (list (string * string)) :=
  match apps with
  | [] => mret []
  | id :: apps' =>
      found ← attempt (GetApplicationByID id);
      match found with
      | inl _ => fan_out apps' body
      | inr app =>
          res ← attempt (body app);
          rest ← fan_out apps' body;
          mret ((app_uuid app, match res with inl e => "failed: " +:+ error_text e | inr s => s end) :: rest)
      end
  end.

(** [GithubAppPush.Execute] *)
Definition push_one (push : Push) (app : App) : M World string :=
  if decide (PushPolicyReason app push ≠ "") then mret ("ignored: " +:+ PushPolicyReason app push)
  else d ← EnqueueWebhookDeployment app; mret ("deployment " +:+ FormatInt (d_id d)).
Definition is_deployment (r : string * string) : bool := has_prefix r.2 "deployment ".
Definition GithubAppPush (delivery github_app repository : Z) : M World verdict :=
  d ← GetWebhookDeliveryByID delivery;
  if negb (dl_signature_valid d) then
    throw (Failure "refusing to process a delivery with an invalid signature")
  else match ParsePush GitHub (dl_payload d) with
  | None => failed_with (dl_id d) "unparsable push payload" (Failure "unparsable push payload")
  | Some push =>
      if Deleted push then ignored_with (dl_id d) "branch deleted"
      else
        apps ← ListApplicationIDsForRepositoryPush github_app (FormatInt repository);
        if decide (apps = []) then ignored_with (dl_id d) "no application bound to this repository"
        else
          results ← fan_out apps (push_one push);
          if existsb is_deployment results then accepted_with (dl_id d) (VPreview "accepted")
          else ignored_with (dl_id d) "no application accepted the push"
  end.

(** The repository a pull request or comment delivery is about; 0 when absent. *)
Definition id_at (path : list string) (body : json) : Z :=
  (fix go (path : list string) (v : json) : Z :=
     match path with
     | [] => default 0 (as_int64 v)
     | k :: path' => match v with JObj m => go path' (default JNull (field k m)) | _ => 0 end
     end) path body.

(** [GithubAppPullRequest.Execute] *)
Definition pr_one (event : PullRequestEvent) (app : App) : M World string :=
  if negb (app_previews_enabled app) then mret "previews disabled"
  else HandlePreviewPREvent slug_of app "github" event.
Definition GithubAppPullRequest (delivery github_app : Z) : M World verdict :=
  d ← GetWebhookDeliveryByID delivery;
  if negb (dl_signature_valid d) then throw (Failure "refusing an unverified delivery")
  else match ParsePullRequest GitHub (dl_payload d) with
  | None => throw (Failure "unparsable pull_request payload")
  | Some event =>
      apps ← ListApplicationIDsForRepositoryPush github_app
               (FormatInt (id_at ["pull_request"; "base"; "repo"; "id"] (dl_payload d)));
      results ← fan_out apps (pr_one event);
      if decide (results = []) then ignored_with (dl_id d) "no application bound to this repository"
      else accepted_with (dl_id d) (VPreview "accepted")
  end.

(** [GithubAppIssueComment.Execute]: an unusable credential is no credential. *)
Definition comment_one (event : CommentEvent) (ask : option (string → err + bool)) (app : App) : M World string :=
  res ← handlePreviewComment slug_of app "github" event ask;
  mret (match res with CIgnored r => "ignored: " +:+ r | CAccepted a => a end).
Definition GithubAppIssueComment (delivery github_app : Z) (rights : Rights) : M World verdict :=
  d ← GetWebhookDeliveryByID delivery;
  if negb (dl_signature_valid d) then throw (Failure "refusing an unverified delivery")
  else match ParseComment GitHub (dl_payload d) with
  | None => throw (Failure "unparsable comment payload")
  | Some event =>
      if negb (OnPullRequest event) || bool_decide (Command event = "") then
        ignored_with (dl_id d) "no command on a pull request"
      else
        apps ← ListApplicationIDsForRepositoryPush github_app (FormatInt (id_at ["repository"; "id"] (dl_payload d)));
        results ← fan_out apps (comment_one event (match rights with inl _ => None | inr ask => ask end));
        if decide (results = []) then ignored_with (dl_id d) "no application bound to this repository"
        else accepted_with (dl_id d) (VPreview "accepted")
  end.
End Process.

(** ** Executions *)

(** A delivery that was authenticated, for an application that deploys on push. *)
Definition stored (provider event : string) (body : json) : World :=
  set_deliveries push_world {[ 1 := mkDelivery 1 provider "d1" (Some event) true DReceived None body (Some 1) 0 ]} 2.
Definition push_body : json :=
  JObj [("ref", JStr "refs/heads/main"); ("after", JStr "c0ffee");
        ("head_commit", JObj [("message", JStr "work"); ("modified", JArr [])])].
Definition processed (w : World) : (err + verdict) * World := eval (Execute (λ _, "slug") 1 (inr None)) w.

(** A push is deployed, and deployed again if the job is run again: the status of
    the delivery is not looked at. *)
Lemma redelivery_deploys_again :
  fst (processed (stored "github" "push" push_body)) = inr (VDeployed 1) ∧
  fst (processed (snd (processed (stored "github" "push" push_body)))) = inr (VDeployed 2).
Proof. vm_compute. done. Qed.

(** GitLab names its event differently. *)
Lemma gitlab_push_is_ignored :
  fst (processed (stored "gitlab" "Push Hook" push_body)) = inr (VIgnored "event Push Hook is not a push").
Proof. vm_compute. done. Qed.

(** The placeholder of a payload that was too large reads as a deleted branch. *)
Lemma large_push_is_ignored :
  fst (processed (stored "github" "push" (JObj [("truncated", JBool true)])))
    = inr (VIgnored "branch deleted").
Proof. vm_compute. done. Qed.
