(* ===== verification/PreviewSafety.v ===== *)
(** * What can make a preview deploy

    The properties of the preview lifecycle ([Previews], [WebhookProcess]) under
    any failure of its statements: who can cause a deployment of a pull request,
    the approval of forks, the manual-first reservation and the concurrency
    cap.  Programs are related to their effect through [Effects.keeps]. *)
From S2P Require Import Prelude GoLib Queue Effects Json GitWebhook ControlDB WebhookReceive WebhookDeploy.
From S2P Require Import PreviewHost Previews WebhookProcess.
Local Open Scope Z_scope.

(** ** Relations between the databases before and after *)

(** A preview without its names: what the decisions read. *)
Definition core (p : Preview) : Preview := with_names None None 0 p.

(** Nothing but the names of previews, the credentials and the outcome of
    deliveries changes. *)
Record quiet (w w' : World) : Prop := mkQuiet {
  q_now : w_now w' = w_now w;
  q_apps : w_apps w' = w_apps w;
  q_queue : w_queue w' = w_queue w;
  q_payloads : w_payloads w' = w_payloads w;
  q_deployments : w_deployments w' = w_deployments w;
  q_deployment_next : w_deployment_next w' = w_deployment_next w;
  q_previews : core <$> w_previews w' = core <$> w_previews w;
  q_preview_next : w_preview_next w' = w_preview_next w
}.

#[export] Instance quiet_preorder : PreOrder quiet.
Proof.
  split; [by intros w|]. intros w1 w2 w3 [] []. constructor; congruence.
Qed.

Lemma update_preview_quiet id f :
  (∀ now p, core (f now p) = core p) → keeps quiet (update_preview id f).
Proof.
  intros Hf. apply (keeps_exec _). intros w. constructor; try done. simpl. apply map_eq. intros i.
  rewrite !lookup_fmap, lookup_alter. case_decide; [subst i|done].
  destruct (w_previews w !! id) as [p|]; simpl; [by rewrite Hf|done].
Qed.

Lemma SetPreviewFqdn_quiet id fqdn : keeps quiet (SetPreviewFqdn id fqdn).
Proof. by apply update_preview_quiet. Qed.
Lemma SetPreviewRandomSlug_quiet id slug : keeps quiet (SetPreviewRandomSlug id slug).
Proof. apply update_preview_quiet. intros now p. by destruct (p_slug p). Qed.
Lemma CreateGeneratedPreviewEnvVar_quiet id : keeps quiet (CreateGeneratedPreviewEnvVar id).
Proof. apply (keeps_exec _). intros w. by constructor. Qed.
Lemma FinishWebhookDelivery_quiet id st reason : keeps quiet (FinishWebhookDelivery id st reason).
Proof. apply (keeps_exec _). intros w. by constructor. Qed.
Lemma row_quiet {A} (t : World → gmap Z A) k : keeps quiet (row t k).
Proof. apply (keeps_query _). Qed.
#[export] Hint Resolve SetPreviewFqdn_quiet SetPreviewRandomSlug_quiet CreateGeneratedPreviewEnvVar_quiet
  FinishWebhookDelivery_quiet row_quiet : effects.

Lemma previewFQDN_quiet app pr random : keeps quiet (previewFQDN app pr random).
Proof.
  unfold previewFQDN, wildcard_host, primaryServiceName, GetDestinationByID, GetServerByID,
    ListDomainsForApplication, ListServiceComponents. keep.
Qed.

Section Scaffolding.
Context (slug_of : Z → string).

Lemma ensurePreviewScaffolding_quiet app p : keeps quiet (ensurePreviewScaffolding slug_of app p).
Proof.
  unfold ensurePreviewScaffolding, scaffold_slug, scaffold_fqdn. keep. apply previewFQDN_quiet.
Qed.

(** The caller's copy keeps what the decisions read. *)
Lemma ensurePreviewScaffolding_core app p w :
  wp (ensurePreviewScaffolding slug_of app p) (λ r _, ∀ p', r = inr p' → core p' = core p) w.
Proof.
  assert (∀ p w, wp (scaffold_slug slug_of p) (λ r _, ∀ p', r = inr p' → core p' = core p) w) as H1.
  { intros q v fs. unfold scaffold_slug. destruct (unset (p_slug q)); [|by intros p' [= <-]].
    unfold mbind, M_bind, attempt, ignore, fallible, query, stmt, mret, M_ret. simpl.
    destruct fs as [|[] fs]; simpl; repeat case_match; simplify_eq; by intros p' [= <-]. }
  assert (∀ p w, wp (scaffold_fqdn app p) (λ r _, ∀ p', r = inr p' → core p' = core p) w) as H2.
  { intros q v. unfold scaffold_fqdn. destruct (unset (p_fqdn q)); [|by apply wp_ret; intros p' [= <-]].
    apply wp_bind, wp_attempt. intros fs. destruct (previewFQDN _ _ _ fs v) as [[e|fqdn] [fs' v']].
    - by apply wp_ret; intros p' [= <-].
    - case_decide; [by apply wp_ret; intros p' [= <-]|]. apply wp_bind, wp_ignore. intros fs0.
      destruct (SetPreviewFqdn _ _ fs0 v') as [? [? ?]]. by apply wp_ret; intros p' [= <-]. }
  unfold ensurePreviewScaffolding. apply wp_bind. eapply wp_mono; [|apply H1]. intros [e|p1] w1 Hp1; [done|].
  apply wp_bind. eapply wp_mono; [|apply H2]. intros [e|p2] w2 Hp2; [done|].
  assert (core p2 = core p) as Hc by (rewrite (Hp2 p2 eq_refl); by apply Hp1).
  destruct (app_basic_auth app); simpl; [|apply wp_ret; by intros p' [= <-]].
  apply wp_bind, wp_query; [done|]. apply wp_bind, wp_exec; [done|done|]. apply wp_ret. by intros p' [= <-].
Qed.
End Scaffolding.

(** ** Promotions *)

(** Rows of deployments are below their sequence. *)
Definition numbered (w : World) : Prop :=
  ∀ i d, w_deployments w !! i = Some d → i < w_deployment_next w.

(** Deployments may advance, and new ones appear for no preview or one of [S]. *)
Record adds (S : Z → Prop) (w w' : World) : Prop := mkAdds {
  a_numbered : numbered w';
  a_next : w_deployment_next w <= w_deployment_next w';
  a_old : ∀ i d, w_deployments w !! i = Some d →
    ∃ d', w_deployments w' !! i = Some d' ∧ d_preview d' = d_preview d;
  a_new : ∀ i d k, w_deployments w' !! i = Some d → w_deployments w !! i = None → d_preview d = Some k → S k
}.

(** Previews, configuration and time stay; deployments may be added for [S]. *)
Record busy (S : Z → Prop) (w w' : World) : Prop := mkBusy {
  b_now : w_now w' = w_now w;
  b_apps : w_apps w' = w_apps w;
  b_previews : w_previews w' = w_previews w;
  b_preview_next : w_preview_next w' = w_preview_next w;
  b_adds : numbered w → adds S w w'
}.

Lemma adds_refl S w : numbered w → adds S w w.
Proof. intros Hn. constructor; eauto; [lia|]. intros i d k H1 H2. congruence. Qed.

Lemma adds_trans S w1 w2 w3 : adds S w1 w2 → adds S w2 w3 → adds S w1 w3.
Proof.
  intros [_ Hn12 Ho Hw] [Hn Hn23 Ho' Hw']. constructor; [done|lia| |].
  - intros i d Hd. destruct (Ho i d Hd) as (d' & Hd' & E). destruct (Ho' i d' Hd') as (d'' & Hd'' & E').
    exists d''. split; [done|]. congruence.
  - intros i d k Hd Hnone Hk. destruct (w_deployments w2 !! i) as [d2|] eqn:E2; [|by eapply Hw'].
    destruct (Ho' i d2 E2) as (d3 & Hd3 & E3). apply (Hw i d2 k E2 Hnone). congruence.
Qed.

#[export] Instance busy_preorder S : PreOrder (busy S).
Proof.
  split.
  - intros w. constructor; try done. apply adds_refl.
  - intros w1 w2 w3 [] []. constructor; try congruence. intros Hn.
    assert (adds S w1 w2) as H12 by auto. eapply adds_trans; [done|]. apply b_adds1, H12.
Qed.

Lemma busy_same_deployments S w w' :
  w_now w' = w_now w → w_apps w' = w_apps w → w_previews w' = w_previews w →
  w_preview_next w' = w_preview_next w → w_deployments w' = w_deployments w →
  w_deployment_next w' = w_deployment_next w → busy S w w'.
Proof.
  intros H1 H2 H3 H4 H5 H6. constructor; try done. intros Hn. constructor.
  - intros i d. rewrite H5, H6. apply Hn.
  - lia.
  - intros i d Hd. exists d. by rewrite H5.
  - intros i d k. rewrite H5. congruence.
Qed.

Lemma Enqueue_busy S opts p : keeps (busy S) (Enqueue opts p).
Proof.
  apply (keeps_stmt _). intros w. destruct (Queue.Enqueue (w_queue w) opts (w_now w)) as [db [e|j]];
    by apply busy_same_deployments.
Qed.
Lemma CancelJobsForDeployments_busy S ids : keeps (busy S) (CancelJobsForDeployments ids).
Proof. apply (keeps_exec _). intros w. by apply busy_same_deployments. Qed.
Lemma RequestDeploymentJobCancel_busy S id : keeps (busy S) (RequestDeploymentJobCancel id).
Proof. apply (keeps_exec _). intros w. by apply busy_same_deployments. Qed.
Lemma row_busy S {A} (t : World → gmap Z A) k : keeps (busy S) (row t k).
Proof. apply (keeps_query _). Qed.

(** Rewriting rows of deployments in place. *)
Lemma busy_fmap S w f :
  (∀ d, d_preview (f d) = d_preview d) →
  busy S w (set_deployments w (f <$> w_deployments w) (w_deployment_next w)).
Proof.
  intros Hf. constructor; try done. intros Hn. constructor; simpl.
  - intros i d. simpl. rewrite lookup_fmap. intros (d0 & Hd0 & ->)%fmap_Some. by apply (Hn i d0).
  - lia.
  - intros i d Hd. exists (f d). by rewrite lookup_fmap, Hd, Hf.
  - intros i d k. rewrite lookup_fmap. intros Hd Hnone. by rewrite Hnone in Hd.
Qed.
Lemma supersede_where_busy S cond by_id : keeps (busy S) (supersede_where cond by_id).
Proof. apply (keeps_stmt _). intros w. apply busy_fmap. intros d. by destruct (cond d). Qed.
Lemma SetDeploymentStatus_busy S id st : keeps (busy S) (SetDeploymentStatus id st).
Proof.
  apply (keeps_exec _). intros w. constructor; try done. intros Hn. constructor; simpl.
  - intros i d. simpl. rewrite lookup_alter. case_decide; [subst i|by apply Hn].
    intros (d0 & Hd0 & ->)%fmap_Some. by apply (Hn id d0).
  - lia.
  - intros i d Hd. rewrite lookup_alter. case_decide; [subst i; rewrite Hd|]; eauto.
  - intros i d k. rewrite lookup_alter. case_decide; [subst i|congruence]. intros Hd Hnone. by rewrite Hnone in Hd.
Qed.
Lemma CreateDeployment_busy (S : Z → Prop) resource trigger server preview commit force :
  (∀ k, preview = Some k → S k) →
  keeps (busy S) (CreateDeployment resource trigger server preview commit force).
Proof.
  intros HS. apply (keeps_stmt _). intros w. constructor; try done. intros Hn. constructor; simpl.
  - intros i d. simpl. intros [[<- _]|[_ Hd]]%lookup_insert_Some; [lia|]. apply Hn in Hd. lia.
  - lia.
  - intros i d Hd. exists d. rewrite lookup_insert_ne; [done|]. apply Hn in Hd. lia.
  - intros i d k [[<- <-]|[_ Hd]]%lookup_insert_Some Hnone Hk; [by apply HS|congruence].
Qed.
#[export] Hint Resolve Enqueue_busy CancelJobsForDeployments_busy RequestDeploymentJobCancel_busy row_busy
  supersede_where_busy SetDeploymentStatus_busy : effects.

(** A deployment over the image that runs adds one of this preview at most. *)
Lemma enqueueNoBuildDeployment_busy app p nb : keeps (busy (eq (p_id p))) (enqueueNoBuildDeployment app p nb).
Proof.
  unfold enqueueNoBuildDeployment, reusable_artifact, fallible, GetLastSucceededPreviewDeployment, GetServerByID,
    CountActiveDeploymentsForServer, CreateNoBuildDeployment.
  keep. apply CreateDeployment_busy. by intros k [= <-].
Qed.

(** A promotion: there was room under the cap, deployments were added for this
    preview only, and its status may have become deploying. *)
Definition under_cap (app : App) (w : World) : Prop :=
  ∀ cap, app_max_concurrent app = Some cap → live_previews w (app_id app) < cap.
Definition marked (k : Z) (w : World) : World :=
  set_previews w (alter (with_status PDeploying None (w_now w)) k (w_previews w)) (w_preview_next w).
Definition promotes (app : App) (k : Z) (w w' : World) : Prop :=
  w' = w ∨ (under_cap app w ∧ ∃ w1, busy (eq k) w w1 ∧ (w' = w1 ∨ w' = marked k w1)).

Lemma PromotePreviewDeployment_promotes app p force w :
  wp (PromotePreviewDeployment app p force) (λ _ w', promotes app (p_id p) w w') w.
Proof.
  unfold PromotePreviewDeployment. apply wp_bind.
  assert (wp (cap_reached app) (λ r w', w' = w ∧ (r = inr None → under_cap app w)) w) as Hcap.
  { unfold cap_reached. destruct (app_max_concurrent app) as [cap|] eqn:Hc.
    - apply wp_bind, wp_query; [done|]. apply wp_ret. split; [done|]. case_match eqn:Hle; [done|].
      intros _ cap' Hc'. simplify_eq. lia.
    - apply wp_ret. split; [done|]. intros _ cap'. congruence. }
  eapply wp_mono; [|exact Hcap]. intros [e|[live|]] w0 [-> Hu]; [by left|apply wp_ret; by left|].
  specialize (Hu eq_refl). unfold GetDestinationByID.
  assert (∀ w', busy (eq (p_id p)) w w' → promotes app (p_id p) w w') as Hb.
  { intros w' H. right. split; [done|]. exists w'. auto. }
  apply wp_bind. eapply wp_mono; [|apply (row_busy (eq (p_id p)))]. intros [e|server] w1 H1; [by apply Hb|].
  apply wp_bind. eapply wp_mono; [|apply (CreateDeployment_busy (eq (p_id p))); by intros k [= <-]].
  intros [e|d] w2 H2; [apply Hb; by etransitivity|].
  apply wp_bind. eapply wp_mono; [|unshelve eapply (_ : keeps (busy (eq (p_id p))) _)].
  2:{ unfold cancel_obsolete, SupersedeObsoletePreviewDeployments, ListCancellablePreviewDeploymentIDs. keep. }
  intros [e|[]] w3 H3; [apply Hb; by do 2 (etransitivity; [eassumption|])|].
  apply wp_bind. eapply wp_mono; [|apply (Enqueue_busy (eq (p_id p)))].
  intros [e|j] w4 H4; [apply Hb; by do 3 (etransitivity; [eassumption|])|].
  assert (busy (eq (p_id p)) w w4) as H by (by do 3 (etransitivity; [eassumption|])).
  assert (∀ a, wp (mret a : M World (option Deployment * string)) (λ _ w', promotes app (p_id p) w w') (marked (p_id p) w4)) as Hm.
  { intros a. apply wp_ret. right. split; [done|]. exists w4. auto. }
  apply wp_bind, wp_ignore, wp_exec; [apply wp_ret; by apply Hb|apply Hm..].
Qed.

(** A property of a row that neither a promotion nor the scaffolding touches. *)
Lemma promotes_row app k w w' i p :
  promotes app k w w' → w_previews w !! i = Some p →
  ∃ p', w_previews w' !! i = Some p' ∧ (i ≠ k → p' = p) ∧ p_is_fork p' = p_is_fork p ∧
    p_fork_approved_at p' = p_fork_approved_at p ∧ p_app p' = p_app p ∧ p_provider p' = p_provider p ∧
    p_pr p' = p_pr p ∧ p_deploy_requested p' = p_deploy_requested p ∧ p_last_deployed p' = p_last_deployed p.
Proof.
  intros [->|(_ & w1 & Hb & [->| ->])] Hp; [by exists p| |].
  - exists p. by rewrite (b_previews _ _ _ Hb).
  - unfold marked. simpl. rewrite (b_previews _ _ _ Hb), lookup_alter. case_decide.
    + subst i. rewrite Hp. simpl. eexists. split; [done|]. split_and!; done.
    + by exists p.
Qed.

Lemma promotes_none app k w w' i :
  promotes app k w w' → w_previews w !! i = None → w_previews w' !! i = None.
Proof.
  intros [->|(_ & w1 & Hb & [->| ->])] Hp; [done|by rewrite (b_previews _ _ _ Hb)|].
  unfold marked. simpl. rewrite (b_previews _ _ _ Hb), lookup_alter. case_decide; [subst i|done]. by rewrite Hp.
Qed.

Lemma promotes_adds app k w w' : promotes app k w w' → numbered w → adds (eq k) w w'.
Proof.
  intros [->|(_ & w1 & Hb & [->| ->])] Hn; [by apply adds_refl|by apply Hb|].
  destruct (b_adds _ _ _ Hb Hn). by constructor.
Qed.

(** Marking one preview adds at most one to those that are live. *)
Lemma live_marked k w app : live_previews (marked k w) app <= live_previews w app + 1.
Proof.
  unfold live_previews, marked. simpl. destruct (w_previews w !! k) as [p|] eqn:Hp.
  - rewrite (alter_alt_Some _ _ _ _ Hp), (count_insert _ _ _ _ _ Hp). unfold b2z. repeat case_match; lia.
  - rewrite alter_id by (intros x; congruence). lia.
Qed.

(** A promotion of an application with a cap either changes nothing or finds
    fewer live previews than the cap and leaves no more than it; every
    deployment it adds is of the promoted preview.  Whatever statement fails. *)
Theorem promotion_respects_cap app p force w fs cap :
  app_max_concurrent app = Some cap →
  let w' := snd (snd (PromotePreviewDeployment app p force fs w)) in
  w' = w ∨
  (live_previews w (app_id app) < cap ∧ live_previews w' (app_id app) <= cap ∧
   (numbered w → adds (eq (p_id p)) w w')).
Proof.
  intros Hcap. pose proof (PromotePreviewDeployment_promotes app p force w fs) as H.
  destruct (PromotePreviewDeployment app p force fs w) as [r [fs' w']]. simpl.
  pose proof (promotes_adds app (p_id p) w w' H) as Ha. destruct H as [->|(Hu & w1 & Hb & Hm)]; [by left|right].
  specialize (Hu cap Hcap). split_and!; [done| |done].
  assert (live_previews w1 (app_id app) = live_previews w (app_id app)) as E
    by (unfold live_previews; by rewrite (b_previews _ _ _ Hb)).
  destruct Hm as [->| ->]; [lia|]. pose proof (live_marked (p_id p) w1 (app_id app)). lia.
Qed.

(** ** Forks *)

(** Rows of previews are stored under their ids, below the sequence. *)
Definition filed (w : World) : Prop :=
  ∀ i p, w_previews w !! i = Some p → p_id p = i ∧ i < w_preview_next w.
Definition tidy (w : World) : Prop := numbered w ∧ filed w.

(** What the fork gate reads, and the previews it lets through. *)
Definition gate_cols (p : Preview) : bool * option Z := (p_is_fork p, p_fork_approved_at p).
Definition gated (w : World) (k : Z) : Prop :=
  ∃ p, w_previews w !! k = Some p ∧ fork_gate (p_is_fork p) p = false.

(** The gate columns stay, and deployments are added through the gate only. *)
Record guarded (w w' : World) : Prop := mkGuarded {
  g_tidy : tidy w';
  g_cols : gate_cols <$> w_previews w' = gate_cols <$> w_previews w;
  g_adds : adds (gated w) w w'
}.

Lemma cols_row w w' i p :
  gate_cols <$> w_previews w' = gate_cols <$> w_previews w → w_previews w !! i = Some p →
  ∃ p', w_previews w' !! i = Some p' ∧ gate_cols p' = gate_cols p.
Proof.
  intros Hc Hp. assert (gate_cols <$> w_previews w' !! i = Some (gate_cols p)) as H
    by (by rewrite <- lookup_fmap, Hc, lookup_fmap, Hp).
  apply fmap_Some in H as (p' & Hp' & E). eauto.
Qed.

Lemma gate_cols_gate p p' : gate_cols p' = gate_cols p → fork_gate (p_is_fork p') p' = fork_gate (p_is_fork p) p.
Proof. unfold gate_cols, fork_gate. intros [= -> ->]. done. Qed.

Lemma cols_gated w w' k :
  gate_cols <$> w_previews w' = gate_cols <$> w_previews w → gated w k → gated w' k.
Proof.
  intros Hc (p & Hp & Hg). destruct (cols_row w w' k p Hc Hp) as (p' & Hp' & E). exists p'.
  split; [done|]. by rewrite (gate_cols_gate p p' E).
Qed.

Lemma adds_mono (S T : Z → Prop) w w' : (∀ k, S k → T k) → adds S w w' → adds T w w'.
Proof. intros H []. constructor; eauto. Qed.

Lemma guarded_refl w : tidy w → guarded w w.
Proof. intros [Hn Hf]. constructor; [done|done|by apply adds_refl]. Qed.

Lemma guarded_trans w1 w2 w3 : guarded w1 w2 → guarded w2 w3 → guarded w1 w3.
Proof.
  intros [_ Hc Ha] [Ht Hc' Ha']. constructor; [done|congruence|]. eapply adds_trans; [done|].
  eapply adds_mono; [|done]. intros k. apply cols_gated. done.
Qed.

Definition guards (w w' : World) : Prop := tidy w → guarded w w'.
#[export] Instance guards_preorder : PreOrder guards.
Proof.
  split; [intros w Ht; by apply guarded_refl|]. intros w1 w2 w3 H1 H2 Ht. specialize (H1 Ht).
  eapply guarded_trans; [done|]. apply H2, H1.
Qed.

Lemma update_preview_guards id f :
  (∀ now p, p_id (f now p) = p_id p ∧ gate_cols (f now p) = gate_cols p) → keeps guards (update_preview id f).
Proof.
  intros Hf. apply (keeps_exec _). intros w [Hn Hp]. constructor.
  - split; [done|]. intros i p. simpl. rewrite lookup_alter. case_decide; [subst i|apply Hp].
    intros (p0 & Hp0 & ->)%fmap_Some. rewrite (proj1 (Hf _ _)). by apply Hp.
  - simpl. apply map_eq. intros i. rewrite !lookup_fmap, lookup_alter. case_decide; [subst i|done].
    destruct (w_previews w !! id) as [p|]; simpl; [by rewrite (proj2 (Hf _ _))|done].
  - destruct (adds_refl (gated w) w Hn). by constructor.
Qed.
Lemma SetPreviewStatus_guards id st c : keeps guards (SetPreviewStatus id st c).
Proof. by apply update_preview_guards. Qed.
Lemma SetPreviewDeployed_guards id : keeps guards (SetPreviewDeployed id).
Proof. by apply update_preview_guards. Qed.
Lemma MarkPreviewDeployRequested_guards id : keeps guards (MarkPreviewDeployRequested id).
Proof. by apply update_preview_guards. Qed.
Lemma KeepPreviewAlive_guards id : keeps guards (KeepPreviewAlive id).
Proof. by apply update_preview_guards. Qed.
Lemma SetPreviewExpiryWarned_guards id : keeps guards (SetPreviewExpiryWarned id).
Proof. by apply update_preview_guards. Qed.
Lemma SetPreviewFqdn_guards id fqdn : keeps guards (SetPreviewFqdn id fqdn).
Proof. by apply update_preview_guards. Qed.

Lemma busy_guards w w' (S : Z → Prop) : (tidy w → ∀ k, S k → gated w k) → busy S w w' → guards w w'.
Proof.
  intros HS [H1 H2 H3 H4 H5] [Hn Hf]. specialize (H5 Hn). constructor.
  - split; [by destruct H5|]. intros i p. rewrite H3, H4. apply Hf.
  - by rewrite H3.
  - eapply adds_mono; [|done]. by apply HS.
Qed.
Lemma quiet_guards w w' : quiet w w' → guards w w'.
Proof.
  intros [H1 H2 H3 H4 H5 H6 H7 H8] [Hn Hf].
  assert (∀ i, core <$> w_previews w' !! i = core <$> w_previews w !! i) as Hl by (intros i; by rewrite <- !lookup_fmap, H7).
  constructor.
  - split; [intros i d; rewrite H5, H6; apply Hn|]. intros i p Hp. specialize (Hl i). rewrite Hp in Hl. symmetry in Hl.
    apply fmap_Some in Hl as (p0 & Hp0 & E). rewrite H8. destruct (Hf i p0 Hp0) as [<- ?].
    split; [|done]. by apply (f_equal p_id) in E.
  - apply map_eq. intros i. specialize (Hl i). rewrite !lookup_fmap.
    destruct (w_previews w' !! i) as [p|], (w_previews w !! i) as [p0|]; simpl in *; try done. f_equal.
    apply (inj Some) in Hl. unfold gate_cols. f_equal; [by apply (f_equal p_is_fork) in Hl|by apply (f_equal p_fork_approved_at) in Hl].
  - constructor; [intros i d; rewrite H5, H6; apply Hn|lia|rewrite H5; eauto|rewrite H5; congruence].
Qed.

Lemma keeps_sub {A} (R S : relation World) (m : M World A) : (∀ w w', R w w' → S w w') → keeps R m → keeps S m.
Proof. intros H Hm w. eapply wp_mono; [|apply Hm]. eauto. Qed.
Lemma keeps_busy_guards {A} (m : M World A) : keeps (busy (λ _, False)) m → keeps guards m.
Proof. apply keeps_sub. intros w w'. by apply busy_guards. Qed.
Lemma keeps_quiet_guards {A} (m : M World A) : keeps quiet m → keeps guards m.
Proof. apply keeps_sub. apply quiet_guards. Qed.
Lemma Enqueue_guards opts p : keeps guards (Enqueue opts p).
Proof. apply keeps_busy_guards, Enqueue_busy. Qed.
Lemma SetDeploymentStatus_guards id st : keeps guards (SetDeploymentStatus id st).
Proof. apply keeps_busy_guards, SetDeploymentStatus_busy. Qed.
Lemma row_guards {A} (t : World → gmap Z A) k : keeps guards (row t k).
Proof. apply (keeps_query _). Qed.
#[export] Hint Resolve SetPreviewStatus_guards SetPreviewDeployed_guards MarkPreviewDeployRequested_guards
  KeepPreviewAlive_guards SetPreviewExpiryWarned_guards SetPreviewFqdn_guards Enqueue_guards
  SetDeploymentStatus_guards row_guards : effects.

(** *** Each operation, through the gate *)

Lemma promotes_guarded app k w w' : tidy w → gated w k → promotes app k w w' → guarded w w'.
Proof.
  intros Ht Hg [->|(_ & w1 & Hb & Hm)]; [by apply guarded_refl|].
  assert (guarded w w1) as H1 by (apply (busy_guards w w1 (eq k)); [by intros _ j <-|done|done]).
  destruct Hm as [->| ->]; [done|]. eapply guarded_trans; [done|].
  pose proof (SetPreviewStatus_guards k PDeploying None w1 []) as H. apply H, H1.
Qed.

Lemma promote_guarded app p force w :
  tidy w → gated w (p_id p) → wp (PromotePreviewDeployment app p force) (λ _ w', guarded w w') w.
Proof.
  intros Ht Hg. eapply wp_mono; [|apply PromotePreviewDeployment_promotes]. intros r w'. by apply promotes_guarded.
Qed.

Lemma preview_of_Some w app provider pr p :
  preview_of w app provider pr = Some p → ∃ i, w_previews w !! i = Some p ∧ identity_is app provider pr p.
Proof.
  unfold preview_of. intros ([i q] & Hh & ->)%fmap_Some. exists i.
  assert ((i, q) ∈ filter (λ x, identity_is app provider pr x.2) (map_to_list (w_previews w))) as Hin.
  { destruct (filter _ _) as [|y l]; [done|]. simpl in Hh. injection Hh as ->. by left. }
  apply list_elem_of_filter in Hin as [Hid Hin]. by apply elem_of_map_to_list in Hin.
Qed.

(** Previews approved after were approved before, but for those of [A]. *)
Definition approvals (A : Z → Prop) (w w' : World) : Prop :=
  ∀ i p', w_previews w' !! i = Some p' → p_fork_approved_at p' ≠ None →
    A i ∨ ∃ p, w_previews w !! i = Some p ∧ p_fork_approved_at p ≠ None.
Definition nobody (_ : Z) : Prop := False.

(** Rows of previews may be brought up to date, or one of [A] approved; then the
    gate holds. *)
Definition revises (A : Z → Prop) (w w' : World) : Prop :=
  ∃ w1, tidy w1 ∧ w_deployments w1 = w_deployments w ∧ approvals A w w1 ∧ guarded w1 w'.
Lemma approvals_refl A w : approvals A w w.
Proof. intros i p Hp Ha. right. eauto. Qed.
Lemma revises_refl A w : tidy w → revises A w w.
Proof. intros Ht. exists w. split_and!; [done..|apply approvals_refl|]. by apply guarded_refl. Qed.
Lemma guarded_revises A w w' : tidy w → guarded w w' → revises A w w'.
Proof. intros Ht Hg. exists w. split_and!; [done..|apply approvals_refl|done]. Qed.
Lemma revises_settled A w w1 :
  tidy w1 → w_deployments w1 = w_deployments w → approvals A w w1 → revises A w w1.
Proof. intros Ht Hd Ha. exists w1. split_and!; [done..|]. by apply guarded_refl. Qed.

Lemma UpsertPreview_revises app provider pr branch sha fork repo w :
  tidy w →
  wp (UpsertPreview app provider pr branch sha fork repo) (λ r w', tidy w' ∧ w_deployments w' = w_deployments w ∧
    approvals nobody w w' ∧
    ∀ p, r = inr p → w_previews w' !! p_id p = Some p ∧ p_is_fork p = fork ∧ identity_is app provider pr p) w.
Proof.
  intros [Hn Hf]. unfold UpsertPreview.
  set (p := upserted w app provider pr branch sha fork repo).
  assert (tidy (set_previews w (<[ p_id p := p ]> (w_previews w)) (w_preview_next w + 1)) ∧
          p_is_fork p = fork ∧ identity_is app provider pr p) as (Ht & Hfork & Hid).
  { unfold p, upserted. destruct (preview_of w app provider pr) as [q|] eqn:E.
    - apply preview_of_Some in E as (i & Hi & Hq). split; [|split; [done|exact Hq]]. split; [exact Hn|].
      intros j r. simpl. intros [[<- <-]|[_ Hr]]%lookup_insert_Some.
      + destruct (Hf i q Hi). simpl. lia.
      + apply Hf in Hr. lia.
    - split; [|done]. split; [exact Hn|].
      intros j r. simpl. intros [[<- <-]|[_ Hr]]%lookup_insert_Some; [simpl; lia|]. apply Hf in Hr. lia. }
  assert (approvals nobody w (set_previews w (<[ p_id p := p ]> (w_previews w)) (w_preview_next w + 1))) as Ha.
  { intros i q. simpl. intros [[<- <-]|[_ Hq]]%lookup_insert_Some Hap; right; [|by exists q].
    unfold p, upserted in *. destruct (preview_of w app provider pr) as [q|] eqn:E; [|done].
    apply preview_of_Some in E as (i & Hi & _). exists q. split; [|done]. simpl. by rewrite (proj1 (Hf i q Hi)). }
  apply wp_stmt; simpl; fold p; (split; [done|]); (split; [done|]); (split; [done || apply approvals_refl|]); try done.
  intros q [= <-]. split_and!; try done; [by rewrite lookup_insert, decide_True|apply Hid..].
Qed.

Section Gate.
Context (slug_of : Z → string).

Lemma EnqueuePreviewDestroy_guards p : keeps guards (EnqueuePreviewDestroy p).
Proof. unfold EnqueuePreviewDestroy. keep. Qed.
Lemma destroyIfLive_guards app provider pr : keeps guards (destroyIfLive app provider pr).
Proof. unfold destroyIfLive, GetPreviewByIdentity. keep. apply EnqueuePreviewDestroy_guards. Qed.

(** After the upsert: the scaffolding and a promotion that passed the gate. *)
Lemma scaffold_then_promote {A} app p w (k : Preview → M World A) :
  tidy w → w_previews w !! p_id p = Some p →
  (∀ p' w', core p' = core p → tidy w' → (fork_gate (p_is_fork p) p = false → gated w' (p_id p)) →
     guarded w w' → wp (k p') (λ _ w'', guarded w' w'') w') →
  wp (ensurePreviewScaffolding slug_of app p ≫= k) (λ _ w', guarded w w') w.
Proof.
  intros Ht Hp Hk. apply wp_bind.
  assert (wp (ensurePreviewScaffolding slug_of app p) (λ r w', quiet w w' ∧ ∀ p', r = inr p' → core p' = core p) w) as H.
  { intros fs. pose proof (ensurePreviewScaffolding_quiet slug_of app p w fs) as H1.
    pose proof (ensurePreviewScaffolding_core slug_of app p w fs) as H2.
    destruct (ensurePreviewScaffolding slug_of app p fs w) as [r [fs' w']]. done. }
  eapply wp_mono; [|exact H]. intros [e|p'] w' [Hq Hc]; pose proof (quiet_guards w w' Hq Ht) as Hg; [done|].
  eapply wp_mono; [intros r w''; apply (guarded_trans w w' w'' Hg)|]. apply Hk; [by apply Hc|by destruct Hg| |done].
  intros Hgate. apply (cols_gated w w'); [by destruct Hg|]. by exists p.
Qed.

Lemma core_gate p p' fork :
  core p' = core p → fork_gate fork p' = fork_gate fork p ∧ p_id p' = p_id p ∧ p_is_fork p' = p_is_fork p.
Proof.
  intros H. unfold fork_gate. split_and!; [|by apply (f_equal p_id) in H|by apply (f_equal p_is_fork) in H].
  apply (f_equal p_fork_approved_at) in H. simpl in H. by rewrite H.
Qed.

Lemma serve_event_revises app provider event w :
  tidy w → wp (serve_event slug_of app provider event) (λ _ w', revises nobody w w') w.
Proof.
  intros Ht. unfold serve_event. apply wp_bind.
  eapply wp_mono; [|by apply UpsertPreview_revises]. intros [e|p] w1 (Ht1 & Hd & Ha & Hp).
  { by apply revises_settled. }
  destruct (Hp p eq_refl) as (Hp1 & Hfork & _).
  assert (∀ w', guarded w1 w' → revises nobody w w') as Hr by (intros w' Hg; by exists w1).
  destruct (bool_decide _ && _ && _); [apply wp_ret, Hr; by apply guarded_refl|].
  eapply wp_mono; [intros r w'; apply Hr|]. apply scaffold_then_promote; [done..|].
  intros p' w2 Hc Ht2 Hgate Hg. destruct (core_gate p p' (IsFork event) Hc) as (-> & Hid & _).
  destruct (fork_gate (IsFork event) p) eqn:Eg; [apply wp_ret; by apply guarded_refl|].
  destruct (ManualFirstReserved app p'); [apply wp_ret; by apply guarded_refl|].
  apply wp_bind. eapply wp_mono; [|apply promote_guarded; [done|rewrite Hid; apply Hgate; by rewrite Hfork]].
  intros [e|[d reason]] w3 H3; [done|]. by apply wp_ret.
Qed.

Lemma HandlePreviewPREvent_revises app provider event w :
  tidy w → wp (HandlePreviewPREvent slug_of app provider event) (λ _ w', revises nobody w w') w.
Proof.
  intros Ht. unfold HandlePreviewPREvent. cbv zeta.
  assert (∀ {A} (m : M World A), keeps guards m → wp m (λ _ w', revises nobody w w') w) as Hk.
  { intros A m Hm. eapply wp_mono; [|apply Hm]. intros r w' H. apply guarded_revises; auto. }
  case_decide; [apply Hk, destroyIfLive_guards|]. case_decide; [|apply Hk; keep].
  destruct (bool_decide _ && negb _); [apply Hk; keep; apply destroyIfLive_guards|].
  destruct (bool_decide _ && bool_decide _); [apply Hk; keep|].
  destruct (Draft event && _); [apply Hk; keep|]. destruct (IsFork event && _); [apply Hk; keep|].
  by apply serve_event_revises.
Qed.

Lemma keeps_guards_revises {A} (m : M World A) w : keeps guards m → tidy w → wp m (λ _ w', revises nobody w w') w.
Proof. intros Hm Ht. eapply wp_mono; [|apply Hm]. intros r w' H. apply guarded_revises; auto. Qed.

(** Mark the order, then go on with a preview that passed the gate. *)
Lemma mark_order_guards k : keeps guards (ignore (MarkPreviewDeployRequested k)).
Proof. keep. Qed.
Lemma order_then {A} (m : M World A) k w :
  tidy w → gated w k → (∀ w', tidy w' → gated w' k → wp m (λ _ w'', guarded w' w'') w') →
  wp (_ ← ignore (MarkPreviewDeployRequested k); m) (λ _ w', guarded w w') w.
Proof.
  intros Ht Hg Hm. apply wp_bind. eapply wp_mono; [|apply mark_order_guards].
  intros [e|[]] w1 H1; specialize (H1 Ht); [done|].
  eapply wp_mono; [intros r w'; apply (guarded_trans w w1 w' H1)|]. destruct H1 as [Ht1 Hc1 _].
  apply Hm; [done|]. by apply (cols_gated w w1).
Qed.

(** Bringing a known preview back keeps what the gate reads. *)
Lemma UpsertPreview_revised w app provider p :
  tidy w → preview_of w app provider (p_pr p) = Some p →
  wp (UpsertPreview app provider (p_pr p) (p_branch p) (p_sha p) (p_is_fork p) (p_repo p))
    (λ r w', tidy w' ∧ w_deployments w' = w_deployments w ∧ approvals nobody w w' ∧
      ∀ q, r = inr q → q = revived (w_now w) (p_branch p) (p_sha p) (p_is_fork p) (p_repo p) p ∧
                       w_previews w' !! p_id q = Some q) w.
Proof.
  intros Ht Hp fs.
  pose proof (UpsertPreview_revises app provider (p_pr p) (p_branch p) (p_sha p) (p_is_fork p) (p_repo p) w Ht fs) as H.
  assert (∀ q, fst (UpsertPreview app provider (p_pr p) (p_branch p) (p_sha p) (p_is_fork p) (p_repo p) fs w) = inr q →
    q = revived (w_now w) (p_branch p) (p_sha p) (p_is_fork p) (p_repo p) p) as Hq.
  { unfold UpsertPreview, stmt, upserted. rewrite Hp. destruct fs as [|[] fs]; simpl; by intros q [= <-]. }
  destruct (UpsertPreview _ _ _ _ _ _ _ fs w) as [r [fs' w']]. destruct H as (H1 & H2 & H3 & H4). split_and!; [done..|].
  intros q ->. split; [by apply Hq|by apply H4].
Qed.

Lemma deploy_command_revises app provider p force queued done' w :
  tidy w → preview_of w (app_id app) provider (p_pr p) = Some p →
  wp (deploy_command slug_of app provider p force queued done') (λ _ w', revises nobody w w') w.
Proof.
  intros Ht Hp. unfold deploy_command. destruct (fork_gate (p_is_fork p) p) eqn:Eg.
  { apply wp_ret. by apply revises_refl. }
  assert (wp (UpsertPreview (app_id app) provider (p_pr p) (p_branch p) (p_sha p) (p_is_fork p) (p_repo p))
    (λ r w', tidy w' ∧ w_deployments w' = w_deployments w ∧ approvals nobody w w' ∧
      ∀ q, r = inr q → w_previews w' !! p_id q = Some q ∧ fork_gate (p_is_fork q) q = false) w) as Hup.
  { eapply wp_mono; [|apply (UpsertPreview_revised w (app_id app) provider p); done].
    intros r w' (H1 & H2 & H3 & H4). split_and!; [done..|]. intros q Hq. destruct (H4 q Hq) as [-> H5]. done. }
  apply wp_bind. eapply wp_mono; [|exact Hup].
  intros [e|q] w1 (Ht1 & Hd & Ha & Hq); [by apply revises_settled|].
  destruct (Hq q eq_refl) as [Hq1 Hq2].
  eapply wp_mono; [intros r w' Hg; exists w1; split_and!; [done|done|done|exact Hg]|].
  apply scaffold_then_promote; [done..|]. intros p' w2 Hc Ht2 Hgate Hg.
  destruct (core_gate q p' true Hc) as (_ & Hid & _). apply order_then; [done|rewrite Hid; auto|].
  intros w3 Ht3 Hg3. apply wp_bind. eapply wp_mono; [|by apply promote_guarded].
  intros [e|[promoted reason]] w4 H4; [done|]. by apply wp_ret.
Qed.

Lemma handlePreviewComment_revises app provider event rights w :
  tidy w → wp (handlePreviewComment slug_of app provider event rights) (λ _ w', revises nobody w w') w.
Proof.
  intros Ht. unfold handlePreviewComment.
  do 4 (case_match; [apply wp_ret; by apply revises_refl|]).
  apply wp_bind, wp_attempt, wp_query; [apply wp_ret; by apply revises_refl|].
  destruct (preview_of w _ _ _) as [p|] eqn:Hp; [|apply wp_ret; by apply revises_refl].
  assert (preview_of w (app_id app) provider (p_pr p) = Some p) as Hp'.
  { pose proof (preview_of_Some _ _ _ _ _ Hp) as (_ & _ & _ & _ & ->). done. }
  cbv zeta. destruct rights as [ask|]; [|apply wp_ret; by apply revises_refl].
  destruct (ask _) as [e|[|]]; [apply wp_throw; by apply revises_refl| |apply wp_ret; by apply revises_refl].
  destruct (decide (Command event = "destroy")); [apply keeps_guards_revises; [keep; apply EnqueuePreviewDestroy_guards|done]|].
  destruct (decide (Command event = "deploy")); [by apply deploy_command_revises|].
  destruct (decide (Command event = "rebuild")); [by apply deploy_command_revises|].
  apply keeps_guards_revises; [keep|done].
Qed.

Lemma DeployPreviewForPR_revises app provider pr branch sha fork repo w :
  tidy w → wp (DeployPreviewForPR slug_of app provider pr branch sha fork repo) (λ _ w', revises nobody w w') w.
Proof.
  intros Ht. unfold DeployPreviewForPR. apply wp_bind. eapply wp_mono; [|by apply UpsertPreview_revises].
  intros [e|p] w1 (Ht1 & Hd & Ha & Hp); [by apply revises_settled|].
  destruct (Hp p eq_refl) as (Hp1 & _ & _).
  eapply wp_mono; [intros r w' Hg; exists w1; split_and!; [done|done|done|exact Hg]|].
  apply scaffold_then_promote; [done..|]. intros p' w2 Hc Ht2 Hgate Hg.
  destruct (core_gate p p' (p_is_fork p) Hc) as (Eg & Hid & ->). rewrite Eg.
  destruct (fork_gate (p_is_fork p) p) eqn:Egp; [apply wp_ret; by apply guarded_refl|].
  apply order_then; [done|rewrite Hid; by apply Hgate|]. intros w3 Ht3 Hg3. by apply promote_guarded.
Qed.

Lemma redeploy_endpoint_revises app p nb force w :
  tidy w → w_previews w !! p_id p = Some p → wp (redeploy_endpoint app p nb force) (λ _ w', revises nobody w w') w.
Proof.
  intros Ht Hp. unfold redeploy_endpoint. case_decide; [apply wp_ret; by apply revises_refl|].
  destruct (fork_gate (p_is_fork p) p) eqn:Eg; [apply wp_ret; by apply revises_refl|].
  destruct nb as [nb|].
  { apply wp_bind, wp_attempt. eapply wp_mono; [|apply enqueueNoBuildDeployment_busy].
    intros r w1 Hb. assert (revises nobody w w1) as H1.
    { apply guarded_revises; [done|]. apply (busy_guards w w1 (eq (p_id p))); [|done|done].
      intros _ j <-. by exists p. }
    by destruct r; apply wp_ret. }
  apply wp_bind, wp_attempt, wp_query; [apply wp_ret; by apply revises_refl|].
  destruct (w_apps w !! app) as [a|]; [|apply wp_ret; by apply revises_refl].
  eapply wp_mono; [intros r w'; by apply guarded_revises|].
  apply order_then; [done|by exists p|]. intros w1 Ht1 Hg1.
  apply wp_bind, wp_attempt. eapply wp_mono; [|by apply promote_guarded].
  intros r w2 H2. by destruct r as [e|[[d|] reason]]; apply wp_ret.
Qed.

Lemma approve_endpoint_revises app p w :
  tidy w → w_previews w !! p_id p = Some p → wp (approve_endpoint app p) (λ _ w', revises (eq (p_id p)) w w') w.
Proof.
  intros Ht Hp. unfold approve_endpoint. destruct (p_is_fork p) eqn:Ef; simpl; [|apply wp_ret; by apply revises_refl].
  case_bool_decide as Ha; [apply wp_ret; by apply revises_refl|].
  assert (p_fork_approved_at p = None) as Hn by (destruct (p_fork_approved_at p); [destruct Ha; done|done]).
  set (w1 := set_previews w (<[ p_id p := approved (w_now w) p ]> (w_previews w)) (w_preview_next w)).
  assert (tidy w1) as Ht1.
  { destruct Ht as [H1 H2]. split; [exact H1|]. intros i q. simpl.
    intros [[<- <-]|[_ Hq]]%lookup_insert_Some; [by apply (H2 _ p)|by apply H2]. }
  assert (approvals (eq (p_id p)) w w1) as Ha1.
  { intros i q. simpl. intros [[<- <-]|[_ Hq]]%lookup_insert_Some Hap; [by left|right; by exists q]. }
  assert (revises (eq (p_id p)) w w1) as Hw1 by (by apply revises_settled).
  apply wp_bind, wp_attempt. unfold ApprovePreviewFork.
  assert (awaits_approval p = true) as Haw by (unfold awaits_approval; by rewrite Ef, bool_decide_true).
  apply wp_stmt; rewrite ?Hp, ?Haw; simpl; [apply wp_ret; by apply revises_refl|apply wp_ret; by apply Hw1|].
  fold w1. assert (∀ w', guarded w1 w' → revises (eq (p_id p)) w w') as Hr by (intros w' Hg; by exists w1).
  eapply wp_mono; [intros r w'; apply Hr|].
  assert (∀ w', guarded w1 w' → wp (mret 202 : M World Z) (λ _ w', guarded w1 w') w') as H202.
  { intros w' Hg. by apply wp_ret. }
  apply wp_bind, wp_attempt, wp_query; [apply wp_bind, wp_ret, H202; by apply guarded_refl|].
  destruct (w_apps w1 !! app) as [a|]; [|apply wp_bind, wp_ret, H202; by apply guarded_refl].
  apply wp_bind, wp_bind, wp_attempt, wp_query; [apply wp_ret, H202; by apply guarded_refl|].
  unfold w1 at 1. simpl w_previews. rewrite lookup_insert, decide_True by done.
  assert (gated w1 (p_id p)) as Hg1.
  { exists (approved (w_now w) p). simpl. rewrite lookup_insert, decide_True by done. split; [done|].
    unfold fork_gate. simpl. by rewrite andb_false_r. }
  eapply wp_mono; [|apply (order_then (ignore (PromotePreviewDeployment a (approved (w_now w) p) false)) (p_id p) w1);
    [done|done|]].
  - intros [e|[]] w2 H2; [done|by apply H202].
  - intros w2 Ht2 Hg2. apply wp_ignore. eapply wp_mono; [|apply (promote_guarded a (approved (w_now w) p)); done]. done.
Qed.
End Gate.

(** One queued preview of an application that takes one. *)
Definition capped : App :=
  mkApp 1 "app-uuid" 1 None true None true None false true true (Some 1) false true false None None "" false 0.
Definition capped_row : Preview :=
  mkPreview 1 "1" 1 "github" 7 None (Some "c0ffee") false None None PQueued None None None None 0 None None None None.
Definition capped_world : World :=
  mkWorld 5 (λ i, FormatInt i) (mkDB ∅ 1) ∅ {[ 1 := capped ]} {[ 1 := 1 ]} {[ 1 := mkServer 2 None ]}
    ∅ ∅ ∅ ∅ 1 ∅ 1 {[ 1 := capped_row ]} 2 ∅ ∅ ∅.
Lemma promotion_respects_cap_witness :
  live_previews (snd (snd (PromotePreviewDeployment capped capped_row false [] capped_world))) 1 = 1 ∧
  adds (eq 1) capped_world (snd (snd (PromotePreviewDeployment capped capped_row false [] capped_world))).
Proof.
  destruct (promotion_respects_cap capped capped_row false capped_world [] 1) as [E|(_ & _ & Ha)]; [reflexivity| |].
  - apply (f_equal w_deployment_next) in E. vm_compute in E. discriminate.
  - split; [vm_compute; reflexivity|]. apply Ha. intros i d. simpl. by rewrite lookup_empty.
Defined.
