(* ===== verification/PreviewLife.v ===== *)
(** * Histories of previews

    Every operation that touches previews or their deployments as a step of one
    transition system — pull request events, comments, the endpoints, the
    workers and the scheduler, in any order and with any statement failing — and
    what holds of all its histories: no deployment of a fork without a
    maintainer's approval, and no deployment at all of a pull request reserved
    for a manual start until somebody orders it. *)
From S2P Require Import Prelude GoLib Queue Effects Json GitWebhook ControlDB WebhookReceive WebhookDeploy.
From S2P Require Import PreviewHost Previews ScaleZero WebhookProcess PreviewSafety.
Local Open Scope Z_scope.

(** ** The transition system *)

Inductive action :=
| Event (app : App) (provider : string) (event : PullRequestEvent)
| Comment (app : App) (provider : string) (event : CommentEvent) (rights : option (string → err + bool))
| DeployPR (app : App) (provider : string) (pr : Z) (branch sha : string) (fork : bool) (repo : option string)
| Approve (app : Z) (p : Preview)
| Redeploy (app : Z) (p : Preview) (skip_build : option no_build) (force : bool)
| Destroy (p : Preview)
| Keep (p : Preview)
| Teardown (id : Z) (torn_down : option string)
| Tombstone (ps : list Preview)
| Run (deployment : Z) (end_ : pipeline)
| Reap
| Scale (channel : Z → bool) (activity : string → err + option Z) (stopped : string → bool)
| Woken (server : Z) (uuid : string)
| Beat (id : Z)
| PushTo (app : App)
| Elsewhere.

(** The endpoints act on a row they have just read. *)
Definition ready (w : World) (a : action) : Prop :=
  match a with
  | Approve _ p | Redeploy _ p _ _ | Destroy p | Keep p => w_previews w !! p_id p = Some p
  | _ => True
  end.

(** What the rest of the control plane may do meanwhile: the clock, the queue and
    the configuration change, deployments of no preview come and go, the
    others change status while they build, rows of previews disappear with their
    application. *)
Record elsewhere (w w' : World) : Prop := mkElsewhere {
  e_previews : w_previews w' ⊆ w_previews w;
  e_preview_next : w_preview_next w <= w_preview_next w';
  e_numbered : numbered w → numbered w';
  e_deployments : ∀ i d' k, w_deployments w' !! i = Some d' → d_preview d' = Some k →
    ∃ d, w_deployments w !! i = Some d ∧ d_preview d = Some k
}.

Section Life.
Context (slug_of : Z → string).

Definition perform (a : action) : M World () :=
  match a with
  | Event app provider event => ignore (HandlePreviewPREvent slug_of app provider event)
  | Comment app provider event rights => ignore (handlePreviewComment slug_of app provider event rights)
  | DeployPR app provider pr branch sha fork repo =>
      ignore (DeployPreviewForPR slug_of app provider pr branch sha fork repo)
  | Approve app p => ignore (approve_endpoint app p)
  | Redeploy app p skip_build force => ignore (redeploy_endpoint app p skip_build force)
  | Destroy p => ignore (destroy_endpoint p)
  | Keep p => ignore (keep_endpoint p)
  | Teardown id torn_down => ignore (PreviewDestroy id torn_down)
  | Tombstone ps => tombstone_previews ps
  | Run id end_ => ignore (run_preview_deployment id end_)
  | Reap => reapPreviews
  | Scale channel activity stopped => scaleZeroPreviews channel activity stopped
  | Woken server uuid => ignore (stz_woken server uuid)
  | Beat id => RecordPreviewActivity id
  | PushTo app => ignore (EnqueueWebhookDeployment app)
  | Elsewhere => mret ()
  end.

Inductive step : action → World → World → Prop :=
| step_perform a fs w : ready w a → step a w (snd (snd (perform a fs w)))
| step_elsewhere w w' : elsewhere w w' → step Elsewhere w w'.

Inductive history : list action → World → World → Prop :=
| history_nil w : history [] w w
| history_snoc acts a w w1 w2 : history acts w w1 → step a w1 w2 → history (acts ++ [a]) w w2.

(** ** Forks *)

Definition approves (a : action) (k : Z) : Prop :=
  match a with Approve _ p => p_id p = k | _ => False end.

Lemma destroy_endpoint_guards p : keeps guards (destroy_endpoint p).
Proof. unfold destroy_endpoint. keep. apply EnqueuePreviewDestroy_guards. Qed.
Lemma keep_endpoint_guards p : keeps guards (keep_endpoint p).
Proof. unfold keep_endpoint. keep. Qed.
Lemma tombstone_previews_guards ps : keeps guards (tombstone_previews ps).
Proof. unfold tombstone_previews. keep. Qed.
Lemma PreviewDestroy_guards id torn_down : keeps guards (PreviewDestroy id torn_down).
Proof. unfold PreviewDestroy, GetPreviewByID, GetApplicationByID, GetDestinationByID, GetServerByID. keep. Qed.
Lemma run_preview_deployment_guards id end_ : keeps guards (run_preview_deployment id end_).
Proof. unfold run_preview_deployment, mark_failed, finish_preview, GetPreviewByID. keep. Qed.
Lemma SetPreviewSleeping_guards id : keeps guards (SetPreviewSleeping id).
Proof. by apply update_preview_guards. Qed.
Lemma SetPreviewAwake_guards id : keeps guards (SetPreviewAwake id).
Proof. by apply update_preview_guards. Qed.
Lemma RecordPreviewActivity_guards id : keeps guards (RecordPreviewActivity id).
Proof. by apply update_preview_guards. Qed.
#[local] Hint Resolve SetPreviewSleeping_guards SetPreviewAwake_guards RecordPreviewActivity_guards : effects.
Lemma scaleZeroPreviews_guards channel activity stopped : keeps guards (scaleZeroPreviews channel activity stopped).
Proof.
  unfold scaleZeroPreviews, sleep_one, wake_one, previewPlacement, GetApplicationByID, GetDestinationByID,
    GetServerByID, ListPreviewsForScaleToZero, ListSleepingPreviews, list_previews. keep.
Qed.
Lemma stz_woken_guards server uuid : keeps guards (stz_woken server uuid).
Proof. unfold stz_woken, GetSleepingPreviewForServer. keep. Qed.
Lemma EnqueueWebhookDeployment_guards app : keeps guards (EnqueueWebhookDeployment app).
Proof.
  apply keeps_busy_guards.
  unfold EnqueueWebhookDeployment, GetDestinationByID, GetServerByID, CountActiveDeploymentsForServer,
    SupersedeQueuedDeployments. keep. by apply CreateDeployment_busy.
Qed.

(** A preview of a list read in [w] may be promoted later, while the gate columns
    stay what they were. *)
Lemma promote_one_guarded w v p :
  w_previews w !! p_id p = Some p → guarded w v → wp (promote_one p) (λ _ v', guarded w v') v.
Proof.
  intros Hp Hg. unfold promote_one, GetApplicationByID.
  destruct (fork_gate (p_is_fork p) p) eqn:Eg; [by apply wp_ret|].
  apply wp_bind, wp_attempt, wp_query; [by apply wp_ret|].
  destruct (w_apps v !! p_app p) as [app|]; [|by apply wp_ret].
  destruct (negb (app_previews_enabled app)); [by apply wp_ret|].
  destruct (ManualFirstReserved app p); [by apply wp_ret|]. apply wp_ignore.
  eapply wp_mono; [intros r v'; apply (guarded_trans w v v' Hg)|]. destruct Hg as [Ht Hc _].
  apply promote_guarded; [done|]. apply (cols_gated w v); [done|]. by exists p.
Qed.

Lemma ListQueuedPreviews_rows w p :
  p ∈ take 50 (merge_sort older (filter (λ p, p_status p = PQueued) (map_to_list (w_previews w)).*2)) →
  filed w → w_previews w !! p_id p = Some p ∧ p_status p = PQueued.
Proof.
  intros Hp Hf. assert (p ∈ filter (λ p, p_status p = PQueued) (map_to_list (w_previews w)).*2) as Hin.
  { rewrite <- (merge_sort_Permutation older). by eapply subseteq_take. }
  apply list_elem_of_filter in Hin as [Hst Hin]. split; [|done]. apply listed; [|done]. intros i q Hq.
  by apply Hf.
Qed.

Lemma reap_tail_guards :
  keeps guards (queued ← attempt ListQueuedPreviews;
    match queued with inl _ => mret () | inr qs => each qs promote_one end).
Proof.
  intros w. apply wp_bind, wp_attempt, wp_query; [apply wp_ret; intros Ht; by apply guarded_refl|].
  set (qs := take _ _). intros fs.
  assert (tidy w → wp (each qs promote_one) (λ _ v, guarded w v) w) as H.
  { intros Ht. apply wp_each; [|by apply guarded_refl]. intros p v Hp Hv.
    apply (promote_one_guarded w v); [|done]. by apply ListQueuedPreviews_rows in Hp as [? _]; [|apply Ht]. }
  destruct (each qs promote_one fs w) as [r [fs' w']] eqn:E. intros Ht. specialize (H Ht fs). by rewrite E in H.
Qed.
Lemma reapPreviews_guards : keeps guards reapPreviews.
Proof.
  unfold reapPreviews. pose proof reap_tail_guards.
  apply (keeps_bind _); [unfold ListPreviewsToWarn, list_previews; keep|]. intros toWarn.
  apply (keeps_bind _); [unfold warn_one, GetApplicationByID; keep|]. intros [].
  apply (keeps_bind _); [unfold ListExpiredPreviews, list_previews; keep|]. intros [e|ps]; [keep|].
  apply (keeps_bind _); [keep; apply EnqueuePreviewDestroy_guards|done].
Qed.

(** Every step goes through the gate. *)
Lemma perform_revises a w : tidy w → ready w a → wp (perform a) (λ _ w', revises (approves a) w w') w.
Proof.
  assert (∀ A w w', revises nobody w w' → revises A w w') as Hn.
  { intros A v v' (w1 & H1 & H2 & H3 & H4). exists w1. split_and!; [done..| |done].
    intros i p Hp Ha. by destruct (H3 i p Hp Ha) as [[]|?]; [right]. }
  assert (∀ {A} (m : M World A) B w, keeps guards m → tidy w → wp m (λ _ w', revises B w w') w) as Hk.
  { intros A m B v Hm Ht. eapply wp_mono; [|apply Hm]. intros r v' H. apply guarded_revises; auto. }
  intros Ht Hr. destruct a; simpl in *; try apply wp_ignore.
  - eapply wp_mono; [intros r w'; apply Hn|]. by apply HandlePreviewPREvent_revises.
  - eapply wp_mono; [intros r w'; apply Hn|]. by apply handlePreviewComment_revises.
  - eapply wp_mono; [intros r w'; apply Hn|]. by apply DeployPreviewForPR_revises.
  - by apply approve_endpoint_revises.
  - eapply wp_mono; [intros r w'; apply Hn|]. by apply redeploy_endpoint_revises.
  - apply Hk; [apply destroy_endpoint_guards|done].
  - apply Hk; [apply keep_endpoint_guards|done].
  - apply Hk; [apply PreviewDestroy_guards|done].
  - apply Hk; [apply tombstone_previews_guards|done].
  - apply Hk; [apply run_preview_deployment_guards|done].
  - apply Hk; [apply reapPreviews_guards|done].
  - apply Hk; [apply scaleZeroPreviews_guards|done].
  - apply Hk; [apply stz_woken_guards|done].
  - apply Hk; [apply RecordPreviewActivity_guards|done].
  - apply Hk; [apply EnqueueWebhookDeployment_guards|done].
  - apply wp_ret. by apply revises_refl.
Qed.

(** The deployments that appear for a preview, and the gate they passed. *)
Definition appears (w w' : World) (k : Z) : Prop :=
  ∃ i d, w_deployments w' !! i = Some d ∧ w_deployments w !! i = None ∧ d_preview d = Some k.

Lemma step_gate a w w' :
  tidy w → step a w w' → tidy w' ∧ approvals (approves a) w w' ∧ ∀ k, appears w w' k → gated w' k.
Proof.
  intros Ht Hs. destruct Hs as [a fs w Hr|w w' [H1 H2 H3 H4]].
  - pose proof (perform_revises a w Ht Hr fs) as H. destruct (perform a fs w) as [r [fs' w']]. simpl.
    destruct H as (w1 & Ht1 & Hd & Ha & Hg). destruct Hg as [Ht' Hc Had]. split_and!; [done| |].
    + intros i p Hp Hap. destruct (cols_row w' w1 i p (eq_sym Hc) Hp) as (p1 & Hp1 & E).
      apply (Ha i p1 Hp1). injection E as _ ->. done.
    + intros k (i & d & Hd' & Hnone & Hk). apply (cols_gated w1 w'); [done|].
      apply (a_new _ _ _ Had i d k Hd'); [by rewrite Hd|done].
  - split_and!.
    + split; [apply H3, Ht|]. intros i p Hp. destruct (proj2 Ht i p); [by eapply lookup_weaken|]. lia.
    + intros i p Hp Hap. right. exists p. split; [by eapply lookup_weaken|done].
    + intros k (i & d & Hd & Hnone & Hk). destruct (H4 i d k Hd Hk) as (d0 & Hd0 & _). congruence.
Qed.

Lemma history_gate acts w0 w :
  tidy w0 → history acts w0 w → tidy w ∧ approvals (λ k, Exists (λ a, approves a k) acts) w0 w.
Proof.
  intros Ht0 H. induction H as [w|acts a w w1 w2 H IH Hs]; [split; [done|apply approvals_refl]|].
  destruct (IH Ht0) as [Ht1 Ha1]. destruct (step_gate a w1 w2 Ht1 Hs) as (Ht2 & Ha2 & _). split; [done|].
  intros i p Hp Hap. destruct (Ha2 i p Hp Hap) as [Ha|(q & Hq & Haq)].
  - left. apply Exists_app. right. by left.
  - destruct (Ha1 i q Hq Haq) as [?|?]; [left; apply Exists_app; by left|by right].
Qed.

(** A deployment that appears belongs to an existing preview, and if that is a
    fork's, it was approved: before the history began or by an approval in it. *)
Lemma deployments_are_approved acts w0 w a w' k :
  tidy w0 → history acts w0 w → step a w w' → appears w w' k →
  ∃ p, w_previews w' !! k = Some p ∧
    (p_is_fork p = true →
     p_fork_approved_at p ≠ None ∧
     ((∃ p0, w_previews w0 !! k = Some p0 ∧ p_fork_approved_at p0 ≠ None) ∨
      Exists (λ b, approves b k) (acts ++ [a]))).
Proof.
  intros Ht H Hs Hap.
  assert (history (acts ++ [a]) w0 w') as H' by (by eapply history_snoc).
  destruct (history_gate acts w0 w Ht H) as [Htw _]. destruct (step_gate a w w' Htw Hs) as (_ & _ & Hg).
  destruct (history_gate _ w0 w' Ht H') as [_ Ha]. destruct (Hg k Hap) as (p & Hp & Hgate).
  exists p. split; [done|]. intros Hfork. unfold fork_gate in Hgate. rewrite Hfork in Hgate. simpl in Hgate.
  apply bool_decide_eq_false in Hgate. split; [done|]. destruct (Ha k p Hp Hgate); auto.
Qed.


(** ** Reserved for a manual start *)

(** A preview nobody ordered and that never ran. *)
Definition dormant (p : Preview) : Prop :=
  p_deploy_requested p = None ∧ p_last_deployed p = None ∧
  p_status p ∈ [PQueued; PDestroying; PCleanupFailed; PDestroyed].

Lemma dormant_not_running p : dormant p → p_status p ≠ PActive ∧ p_status p ≠ PSleeping.
Proof.
  intros (_ & _ & H). split; intros E; rewrite E in H; revert H; apply (bool_decide_unpack _); by vm_compute.
Qed.

Section Reserved.
Context (app : Z) (provider : string) (pr : Z).
Local Abbreviation its p := (identity_is app provider pr p).

(** The application leaves opened pull requests alone, and this one was never
    deployed. *)
Definition manual_first (w : World) : Prop :=
  ∀ a, w_apps w !! app = Some a → app_deploy_on_open a = false.
Record reserved (w : World) : Prop := mkReserved {
  r_tidy : tidy w;
  r_manual : manual_first w;
  r_rows : ∀ i p, w_previews w !! i = Some p → its p → dormant p;
  r_deployments : ∀ i d k, w_deployments w !! i = Some d → d_preview d = Some k →
    k < w_preview_next w ∧ ∀ p, w_previews w !! k = Some p → ¬ its p
}.

Lemma dormant_reserved a p : app_deploy_on_open a = false → dormant p → ManualFirstReserved a p = true.
Proof.
  intros Ha (H1 & H2 & H3). unfold ManualFirstReserved, PreviewEngaged. rewrite Ha, bool_decide_true by done. simpl.
  rewrite decide_False; [by rewrite bool_decide_false by (rewrite H2; auto)|].
  intros Hin. rewrite !elem_of_cons, !elem_of_nil in *. intuition congruence.
Qed.

(** How a database stays reserved. *)
Lemma reserved_by w w' :
  reserved w → tidy w' → manual_first w' → w_preview_next w <= w_preview_next w' →
  (∀ i p', w_previews w' !! i = Some p' → its p' →
     dormant p' ∧ (w_preview_next w <= i ∨ ∃ p, w_previews w !! i = Some p ∧ its p)) →
  (∀ i d k, w_deployments w' !! i = Some d → d_preview d = Some k →
     (∃ d0, w_deployments w !! i = Some d0 ∧ d_preview d0 = Some k) ∨
     (k < w_preview_next w ∧ ∀ p, w_previews w !! k = Some p → ¬ its p)) →
  reserved w'.
Proof.
  intros [Ht Hm Hr Hd] Ht' Hm' Hn Hrows Hdeps. constructor; [done..| |].
  - intros i p' Hp' Hi. by apply (Hrows i p').
  - intros i d k Hdk Hk.
    assert (k < w_preview_next w ∧ ∀ p, w_previews w !! k = Some p → ¬ its p) as [Hlt Hno].
    { destruct (Hdeps i d k Hdk Hk) as [(d0 & H0 & Hk0)|?]; [by apply (Hd i d0 k)|done]. }
    split; [lia|]. intros p' Hp' Hi. destruct (Hrows k p' Hp' Hi) as [_ [?|(p & Hp & Hip)]]; [lia|by apply (Hno p)].
Qed.

Definition same_key (p q : Preview) : Prop :=
  p_id q = p_id p ∧ p_app q = p_app p ∧ p_provider q = p_provider p ∧ p_pr q = p_pr p.
Lemma same_key_its p q : same_key p q → its q ↔ its p.
Proof. unfold same_key, identity_is. intros (_ & -> & -> & ->). done. Qed.

(** Updating a row that is not this pull request's, or without ordering it. *)
Lemma reserved_update id f w :
  (∀ p, same_key p (f p)) →
  (∀ p, w_previews w !! id = Some p → its p → dormant p → dormant (f p)) →
  reserved w → reserved (set_previews w (alter f id (w_previews w)) (w_preview_next w)).
Proof.
  intros Hk Hf Hw. assert (tidy w) as [Hn Hfile] by apply Hw. apply (reserved_by w); [done| |apply Hw|simpl; lia| |].
  - split; [done|]. intros i p. simpl. rewrite lookup_alter. case_decide; [subst i|apply Hfile].
    intros (q & Hq & ->)%fmap_Some. destruct (Hk q) as [-> _]. by apply Hfile.
  - intros i p'. simpl. rewrite lookup_alter. case_decide.
    + subst i. intros (q & Hq & ->)%fmap_Some Hi. apply (same_key_its _ _ (Hk q)) in Hi.
      split; [|right; by exists q]. apply Hf; [done..|]. by apply (r_rows w Hw id).
    + intros Hp' Hi. split; [by apply (r_rows w Hw i)|right; by exists p'].
  - intros i d k Hd Hk'. left. by exists d.
Qed.

Definition lulls (w w' : World) : Prop := reserved w → reserved w'.
#[local] Instance lulls_preorder : PreOrder lulls.
Proof. split; [intros w H; exact H|]. intros w1 w2 w3 H1 H2 H. auto. Qed.

Lemma update_preview_lulls id f :
  (∀ now p, same_key p (f now p)) → (∀ now p, dormant p → dormant (f now p)) → keeps lulls (update_preview id f).
Proof. intros Hk Hf. apply (keeps_exec _). intros w Hw. apply reserved_update; auto. Qed.
Lemma SetPreviewStatus_lulls id st c :
  st ∈ [PQueued; PDestroying; PCleanupFailed; PDestroyed] → keeps lulls (SetPreviewStatus id st c).
Proof.
  intros Hst. apply update_preview_lulls; [done|]. intros now p (H1 & H2 & H3). by split_and!.
Qed.
Lemma SetPreviewFqdn_lulls id fqdn : keeps lulls (SetPreviewFqdn id fqdn).
Proof. by apply update_preview_lulls. Qed.
Lemma KeepPreviewAlive_lulls id : keeps lulls (KeepPreviewAlive id).
Proof. by apply update_preview_lulls. Qed.
Lemma RecordPreviewActivity_lulls id : keeps lulls (RecordPreviewActivity id).
Proof. by apply update_preview_lulls. Qed.
Lemma SetPreviewExpiryWarned_lulls id : keeps lulls (SetPreviewExpiryWarned id).
Proof. by apply update_preview_lulls. Qed.
Lemma row_lulls {A} (t : World → gmap Z A) k : keeps lulls (row t k).
Proof. apply (keeps_query _). Qed.

(** Deployments of other previews may appear. *)
Definition other (w : World) (k : Z) : Prop := ∃ p, w_previews w !! k = Some p ∧ ¬ its p.
Lemma other_update w k id f :
  (∀ p, same_key p (f p)) → other w k →
  other (set_previews w (alter f id (w_previews w)) (w_preview_next w)) k.
Proof.
  intros Hk (p & Hp & Hi). unfold other. simpl. rewrite lookup_alter. case_decide; [subst|by exists p].
  rewrite Hp. exists (f p). split; [done|]. by rewrite (same_key_its _ _ (Hk p)).
Qed.
Lemma reserved_busy (S : Z → Prop) w w' : (∀ k, S k → other w k) → busy S w w' → lulls w w'.
Proof.
  intros HS [H1 H2 H3 H4 H5] Hw. assert (tidy w) as [Hn Hf] by apply Hw. specialize (H5 Hn).
  apply (reserved_by w); [done| | |lia| |].
  - split; [by destruct H5|]. intros i p. rewrite H3, H4. apply Hf.
  - unfold manual_first. rewrite H2. apply Hw.
  - intros i p. rewrite H3. intros Hp Hi. split; [by apply (r_rows w Hw i)|right; by exists p].
  - intros i d k Hd Hk. destruct (w_deployments w !! i) as [d0|] eqn:E.
    + left. exists d0. split; [done|]. destruct (a_old _ _ _ H5 i d0 E) as (d' & Hd' & <-). congruence.
    + right. destruct (HS k (a_new _ _ _ H5 i d k Hd E Hk)) as (p & Hp & Hi). split; [by apply (Hf k p)|].
      intros q Hq. by rewrite Hp in Hq; injection Hq as <-.
Qed.
Lemma keeps_busy_lulls {A} (m : M World A) : keeps (busy nobody) m → keeps lulls m.
Proof. apply keeps_sub. intros w w' H. by apply (reserved_busy nobody). Qed.
Lemma Enqueue_lulls opts p : keeps lulls (Enqueue opts p).
Proof. apply keeps_busy_lulls, Enqueue_busy. Qed.
Lemma SetDeploymentStatus_lulls id st : keeps lulls (SetDeploymentStatus id st).
Proof. apply keeps_busy_lulls, SetDeploymentStatus_busy. Qed.

Lemma EnqueuePreviewDestroy_lulls p : keeps lulls (EnqueuePreviewDestroy p).
Proof.
  unfold EnqueuePreviewDestroy. apply (keeps_bind _); [apply Enqueue_lulls|intros j].
  apply SetPreviewStatus_lulls. set_solver.
Qed.

(** Naming a preview changes nothing here. *)
Lemma core_same p q : core q = core p → same_key p q ∧ (dormant p → dormant q).
Proof.
  intros H. split.
  { split_and!; [by apply (f_equal p_id) in H|by apply (f_equal p_app) in H|by apply (f_equal p_provider) in H|
      by apply (f_equal p_pr) in H]. }
  intros (H1 & H2 & H3). apply (f_equal p_deploy_requested) in H as E1. apply (f_equal p_last_deployed) in H as E2.
  apply (f_equal p_status) in H as E3. simpl in *. unfold dormant. by rewrite E1, E2, E3.
Qed.
Lemma quiet_row w w' i p' :
  quiet w w' → w_previews w' !! i = Some p' → ∃ p, w_previews w !! i = Some p ∧ core p' = core p.
Proof.
  intros Hq Hp'. assert (core <$> w_previews w !! i = Some (core p')) as H
    by (by rewrite <- lookup_fmap, <- (q_previews _ _ Hq), lookup_fmap, Hp').
  apply fmap_Some in H as (p & Hp & E). eauto.
Qed.
Lemma reserved_quiet w w' : quiet w w' → lulls w w'.
Proof.
  intros Hq Hw. assert (tidy w') as Ht by (apply (quiet_guards w w' Hq), Hw).
  pose proof Hq as [H1 H2 H3 H4 H5 H6 H7 H8]. apply (reserved_by w); [done|done| |lia| |].
  - unfold manual_first. rewrite H2. apply Hw.
  - intros i p' Hp' Hi. destruct (quiet_row w w' i p' Hq Hp') as (p & Hp & E).
    destruct (core_same p p' E) as [Hk Hd]. apply (same_key_its _ _ Hk) in Hi.
    split; [apply Hd; by apply (r_rows w Hw i)|right; by exists p].
  - intros i d k. rewrite H5. intros Hd Hk. left. by exists d.
Qed.
Lemma other_quiet w w' k : quiet w w' → other w k → other w' k.
Proof.
  intros Hq (p & Hp & Hi). assert (core <$> w_previews w' !! k = Some (core p)) as H
    by (by rewrite <- lookup_fmap, (q_previews _ _ Hq), lookup_fmap, Hp).
  apply fmap_Some in H as (q & Hq' & E). exists q. split; [done|].
  by rewrite (same_key_its p q) by (by apply core_same).
Qed.

(** Bringing a pull request up to date does not order it. *)
Lemma reserved_upsert w a prov n branch sha fork repo :
  let p := upserted w a prov n branch sha fork repo in
  reserved w → reserved (set_previews w (<[ p_id p := p ]> (w_previews w)) (w_preview_next w + 1)).
Proof.
  intros p Hw. assert (tidy w) as [Hn Hf] by apply Hw.
  assert (p_id p < w_preview_next w + 1 ∧ (its p → dormant p ∧
    (w_preview_next w <= p_id p ∨ ∃ q, w_previews w !! p_id p = Some q ∧ its q))) as [Hlt Hp].
  { unfold p, upserted. destruct (preview_of w a prov n) as [q|] eqn:E.
    - apply preview_of_Some in E as (i & Hi & _). destruct (Hf i q Hi) as [<- ?]. split; [simpl; lia|].
      intros Hits. destruct (r_rows w Hw _ q Hi Hits) as (H1 & H2 & H3). split; [|right; by exists q].
      unfold dormant. simpl. rewrite H1, H2. split_and!; [by case_decide|done|].
      case_decide; [by left|done].
    - split; [simpl; lia|]. intros _. split; [|left; simpl; lia]. split_and!; [done..|]. by left. }
  apply (reserved_by w); [done| |apply Hw|simpl; lia| |].
  - split; [done|]. intros i q. simpl. intros [[<- <-]|[_ Hq]]%lookup_insert_Some; [lia|]. apply Hf in Hq. lia.
  - intros i q. simpl. intros [[<- <-]|[_ Hq]]%lookup_insert_Some Hits; [by apply Hp|].
    split; [by apply (r_rows w Hw i)|right; by exists q].
  - intros i d k Hd Hk. left. by exists d.
Qed.
Lemma UpsertPreview_lulls a prov n branch sha fork repo : keeps lulls (UpsertPreview a prov n branch sha fork repo).
Proof. apply (keeps_stmt _). intros w Hw. by apply reserved_upsert. Qed.

(** A promotion of another preview. *)
Lemma promotes_reserved a k w w' : reserved w → other w k → promotes a k w w' → reserved w'.
Proof.
  intros Hw Ho [->|(_ & w1 & Hb & Hm)]; [done|].
  assert (reserved w1) as H1 by (apply (reserved_busy (eq k) w); [by intros j <-|done|done]).
  destruct Hm as [->| ->]; [done|]. apply reserved_update; [done| |done].
  intros p. rewrite (b_previews _ _ _ Hb). destruct Ho as (q & Hq & Hn). congruence.
Qed.
Lemma promotes_other a k w w' j : promotes a k w w' → other w j → other w' j.
Proof.
  intros Hp (p & Hj & Hi). destruct (promotes_row a k w w' j p Hp Hj) as (p' & Hp' & _ & _ & _ & E1 & E2 & E3 & _).
  exists p'. split; [done|]. unfold identity_is in *. by rewrite E1, E2, E3.
Qed.
Lemma promote_reserved a p force w :
  reserved w → other w (p_id p) → wp (PromotePreviewDeployment a p force) (λ _ w', reserved w') w.
Proof.
  intros Hw Ho. eapply wp_mono; [|apply PromotePreviewDeployment_promotes]. intros r w'. by apply promotes_reserved.
Qed.
Lemma order_other {A} (m : M World A) k w :
  reserved w → other w k → (∀ w', reserved w' → other w' k → wp m (λ _ w'', reserved w'') w') →
  wp (_ ← ignore (MarkPreviewDeployRequested k); m) (λ _ w', reserved w') w.
Proof.
  intros Hw Ho Hm. apply wp_bind, wp_ignore, wp_exec; apply Hm; try done;
    try (apply other_update; [done|done]);
    (apply reserved_update; [done| |done]); destruct Ho as (q & Hq & Hn); intros p Hp; congruence.
Qed.

(** The scaffolding, then the rest with the caller's copy. *)
Lemma scaffold_reserved {A} a p w (k : Preview → M World A) :
  reserved w →
  (∀ p' w', core p' = core p → quiet w w' → reserved w' → wp (k p') (λ _ w'', reserved w'') w') →
  wp (ensurePreviewScaffolding slug_of a p ≫= k) (λ _ w', reserved w') w.
Proof.
  intros Hw Hk. apply wp_bind. intros fs. pose proof (ensurePreviewScaffolding_quiet slug_of a p w fs) as H1.
  pose proof (ensurePreviewScaffolding_core slug_of a p w fs) as H2.
  destruct (ensurePreviewScaffolding slug_of a p fs w) as [[e|p'] [fs' w']]; [by apply (reserved_quiet w)|].
  apply Hk; [by apply H2|done|by apply (reserved_quiet w)].
Qed.

(** *** Each operation *)

Lemma keeps_reserved {A} (m : M World A) w : keeps lulls m → reserved w → wp m (λ _ w', reserved w') w.
Proof. intros Hm Hw. eapply wp_mono; [|apply Hm]. intros r w' H. by apply H. Qed.

Lemma destroyIfLive_lulls a prov n : keeps lulls (destroyIfLive a prov n).
Proof. unfold destroyIfLive, GetPreviewByIdentity. keep. apply EnqueuePreviewDestroy_lulls. Qed.

(** The row an upsert returns. *)
Lemma upsert_then {A} a prov n branch sha fork repo w (k : Preview → M World A) :
  reserved w →
  (∀ p w', reserved w' → w_previews w' !! p_id p = Some p → identity_is a prov n p →
     wp (k p) (λ _ w'', reserved w'') w') →
  wp (UpsertPreview a prov n branch sha fork repo ≫= k) (λ _ w', reserved w') w.
Proof.
  intros Hw Hk. apply wp_bind. intros fs. pose proof (UpsertPreview_lulls a prov n branch sha fork repo w fs) as H1.
  pose proof (UpsertPreview_revises a prov n branch sha fork repo w (r_tidy w Hw) fs) as H2.
  destruct (UpsertPreview a prov n branch sha fork repo fs w) as [[e|p] [fs' w']]; [by apply H1|].
  destruct H2 as (_ & _ & _ & H2). destruct (H2 p eq_refl) as (Hp & _ & Hi). apply Hk; [by apply H1|done..].
Qed.

Lemma serve_event_reserved a prov event w :
  (app_id a = app → app_deploy_on_open a = false) → reserved w →
  wp (serve_event slug_of a prov event) (λ _ w', reserved w') w.
Proof.
  intros Ha Hw. unfold serve_event. apply upsert_then; [done|]. intros p w1 H1 Hp Hid.
  destruct (bool_decide _ && _ && _); [by apply wp_ret|]. apply scaffold_reserved; [done|]. intros p' w2 Hc Hq H2.
  destruct (fork_gate _ _); [by apply wp_ret|]. destruct (core_same p p' Hc) as [Hk Hd].
  destruct (decide (its p)) as [Hi|Hi].
  - rewrite dormant_reserved; [by apply wp_ret| |apply Hd; by apply (r_rows w1 H1 (p_id p))].
    apply Ha. destruct Hid as [<- _], Hi as [<- _]. done.
  - destruct (ManualFirstReserved a p'); [by apply wp_ret|]. apply wp_bind.
    eapply wp_mono; [|apply promote_reserved; [done|]].
    + intros [e|[d reason]] w3 H3; [done|]. by apply wp_ret.
    + destruct Hk as [-> _]. apply (other_quiet w1); [done|]. by exists p.
Qed.

Lemma HandlePreviewPREvent_reserved a prov event w :
  (app_id a = app → app_deploy_on_open a = false) → reserved w →
  wp (HandlePreviewPREvent slug_of a prov event) (λ _ w', reserved w') w.
Proof.
  intros Ha Hw. unfold HandlePreviewPREvent. cbv zeta. pose proof destroyIfLive_lulls.
  case_decide; [by apply keeps_reserved|]. case_decide; [|by apply wp_ret].
  destruct (bool_decide _ && negb _); [apply keeps_reserved; [keep|done]|].
  destruct (bool_decide _ && bool_decide _); [by apply wp_ret|].
  destruct (Draft event && _); [by apply wp_ret|]. destruct (IsFork event && _); [by apply wp_ret|].
  by apply serve_event_reserved.
Qed.

Lemma deploy_command_reserved a prov p force queued done' w :
  ¬ identity_is app provider pr p → identity_is (app_id a) prov (p_pr p) p → reserved w →
  wp (deploy_command slug_of a prov p force queued done') (λ _ w', reserved w') w.
Proof.
  intros Hno Hid Hw. unfold deploy_command. destruct (fork_gate _ _); [by apply wp_ret|].
  apply upsert_then; [done|]. intros q w1 H1 Hq Hidq.
  assert (¬ its q) as Hnq.
  { intros (E1 & E2 & E3). apply Hno. destruct Hid as (F1 & F2 & _), Hidq as (G1 & G2 & G3).
    split_and!; congruence. }
  apply scaffold_reserved; [done|]. intros q' w2 Hc Hqt H2. destruct (core_same q q' Hc) as [[Hk _] _].
  apply order_other; [done|rewrite Hk; apply (other_quiet w1); [done|by exists q]|]. intros w3 H3 Ho3.
  apply wp_bind. eapply wp_mono; [|by apply promote_reserved]. intros [e|[d reason]] w4 H4; [done|]. by apply wp_ret.
Qed.

(** A comment that deploys this pull request. *)
Definition orders_deploy (event : CommentEvent) : Prop := Command event ∈ ["deploy"; "rebuild"].
Lemma handlePreviewComment_reserved a prov event rights w :
  ¬ (orders_deploy event ∧ app_id a = app ∧ prov = provider ∧ wrap32 (c_Number event) = pr) → reserved w →
  wp (handlePreviewComment slug_of a prov event rights) (λ _ w', reserved w') w.
Proof.
  intros Hno Hw. unfold handlePreviewComment. do 4 (case_match; [by apply wp_ret|]).
  apply wp_bind, wp_attempt, wp_query; [by apply wp_ret|].
  destruct (preview_of w _ _ _) as [p|] eqn:Hp; [|by apply wp_ret].
  apply preview_of_Some in Hp as (i & Hi & Hid). cbv zeta. destruct rights as [ask|]; [|by apply wp_ret].
  destruct (ask _) as [e|[|]]; [by apply wp_throw| |by apply wp_ret].
  assert (Command event ∈ ["deploy"; "rebuild"] → ¬ its p) as Hnp.
  { intros Hc (E1 & E2 & E3). apply Hno. destruct Hid as (F1 & F2 & F3). split_and!; [done|congruence..]. }
  assert (identity_is (app_id a) prov (p_pr p) p) as Hid' by (destruct Hid as (? & ? & _); by split_and!).
  destruct (decide (Command event = "destroy")); [apply keeps_reserved; [keep; apply EnqueuePreviewDestroy_lulls|done]|].
  destruct (decide (Command event = "deploy")) as [E|_]; [apply deploy_command_reserved; [rewrite E in Hnp; apply Hnp; by left|done..]|].
  destruct (decide (Command event = "rebuild")) as [E|_];
    [apply deploy_command_reserved; [rewrite E in Hnp; apply Hnp; right; by left|done..]|].
  apply keeps_reserved; [keep; apply KeepPreviewAlive_lulls|done].
Qed.

Lemma DeployPreviewForPR_reserved a prov n branch sha fork repo w :
  ¬ (app_id a = app ∧ prov = provider ∧ wrap32 n = pr) → reserved w →
  wp (DeployPreviewForPR slug_of a prov n branch sha fork repo) (λ _ w', reserved w') w.
Proof.
  intros Hno Hw. unfold DeployPreviewForPR. apply upsert_then; [done|]. intros p w1 H1 Hp Hid.
  assert (¬ its p) as Hnp.
  { intros (E1 & E2 & E3). apply Hno. destruct Hid as (F1 & F2 & F3). split_and!; congruence. }
  apply scaffold_reserved; [done|]. intros p' w2 Hc Hq H2. destruct (core_same p p' Hc) as [[Hk _] _].
  destruct (fork_gate _ _); [by apply wp_ret|].
  apply order_other; [done|rewrite Hk; apply (other_quiet w1); [done|by exists p]|]. intros w3 H3 Ho3.
  by apply promote_reserved.
Qed.

Lemma redeploy_endpoint_reserved a p nb force w :
  w_previews w !! p_id p = Some p → ¬ its p → reserved w → wp (redeploy_endpoint a p nb force) (λ _ w', reserved w') w.
Proof.
  intros Hp Hno Hw. unfold redeploy_endpoint. case_decide; [by apply wp_ret|].
  destruct (fork_gate _ _); [by apply wp_ret|]. destruct nb as [nb|].
  { apply wp_bind, wp_attempt. eapply wp_mono; [|apply enqueueNoBuildDeployment_busy]. intros r w1 Hb.
    assert (reserved w1) as H1 by (apply (reserved_busy (eq (p_id p)) w); [intros k <-; by exists p|done|done]).
    by destruct r; apply wp_ret. }
  apply wp_bind, wp_attempt, wp_query; [by apply wp_ret|].
  destruct (w_apps w !! a) as [x|]; [|by apply wp_ret].
  apply order_other; [done|by exists p|]. intros w1 H1 Ho1. apply wp_bind, wp_attempt.
  eapply wp_mono; [|by apply promote_reserved]. intros r w2 H2. by destruct r as [e|[[d|] reason]]; apply wp_ret.
Qed.

Lemma approve_endpoint_reserved a p w :
  w_previews w !! p_id p = Some p → ¬ its p → reserved w → wp (approve_endpoint a p) (λ _ w', reserved w') w.
Proof.
  intros Hp Hno Hw. unfold approve_endpoint. destruct (negb (p_is_fork p)); [by apply wp_ret|].
  destruct (bool_decide _); [by apply wp_ret|]. apply wp_bind, wp_attempt. unfold ApprovePreviewFork.
  set (w1 := set_previews w (<[ p_id p := approved (w_now w) p ]> (w_previews w)) (w_preview_next w)).
  assert (w1 = set_previews w (alter (approved (w_now w)) (p_id p) (w_previews w)) (w_preview_next w)) as Ew1.
  { unfold w1. f_equal. apply map_eq. intros i. rewrite lookup_insert, lookup_alter. case_decide; [subst i|done].
    by rewrite Hp. }
  assert (reserved w1) as H1 by (rewrite Ew1; apply reserved_update; [done| |done]; intros q Hq; congruence).
  apply wp_stmt; rewrite ?Hp; [by apply wp_ret|destruct (awaits_approval p); by apply wp_ret|].
  destruct (awaits_approval p); [|by apply wp_ret]. simpl. fold w1.
  apply wp_bind, wp_attempt, wp_query; [by apply wp_bind, wp_ret, wp_ret|].
  destruct (w_apps w1 !! a) as [x|]; [|by apply wp_bind, wp_ret, wp_ret].
  apply wp_bind, wp_bind, wp_attempt, wp_query; [by apply wp_ret, wp_ret|].
  unfold w1 at 1. simpl w_previews. rewrite lookup_insert, decide_True by done.
  eapply wp_mono; [|apply (order_other (ignore (PromotePreviewDeployment x (approved (w_now w) p) false)) (p_id p) w1);
    [done| |]].
  - intros [e|[]] w2 H2; [done|by apply wp_ret].
  - exists (approved (w_now w) p). split; [|done]. unfold w1. simpl. by rewrite lookup_insert, decide_True.
  - intros w2 H2 Ho2. apply wp_ignore. eapply wp_mono; [|by apply promote_reserved]. done.
Qed.

#[local] Hint Resolve EnqueuePreviewDestroy_lulls KeepPreviewAlive_lulls SetPreviewFqdn_lulls row_lulls
  SetPreviewExpiryWarned_lulls SetDeploymentStatus_lulls : effects.
Lemma destroy_endpoint_lulls p : keeps lulls (destroy_endpoint p).
Proof. unfold destroy_endpoint. keep. Qed.
Lemma keep_endpoint_lulls p : keeps lulls (keep_endpoint p).
Proof. unfold keep_endpoint. keep. Qed.
Lemma tombstone_previews_lulls ps : keeps lulls (tombstone_previews ps).
Proof. unfold tombstone_previews. keep. apply SetPreviewStatus_lulls. set_solver. Qed.
Lemma PreviewDestroy_lulls id torn_down : keeps lulls (PreviewDestroy id torn_down).
Proof.
  unfold PreviewDestroy, GetPreviewByID, GetApplicationByID, GetDestinationByID, GetServerByID. keep;
    apply SetPreviewStatus_lulls; set_solver.
Qed.

(** A deployment that runs belongs to another preview, whose row may change. *)
Definition watch (k : Z) (w w' : World) : Prop := reserved w ∧ other w k → reserved w' ∧ other w' k.
#[local] Instance watch_preorder k : PreOrder (watch k).
Proof. split; [intros w H; exact H|]. intros w1 w2 w3 H1 H2 H. auto. Qed.
Lemma update_preview_watch k f : (∀ now p, same_key p (f now p)) → keeps (watch k) (update_preview k f).
Proof.
  intros Hk. apply (keeps_exec _). intros w [Hw Ho]. split; [|by apply other_update].
  apply reserved_update; [done| |done]. destruct Ho as (q & Hq & Hn). intros p Hp. congruence.
Qed.
Lemma SetPreviewStatus_watch k st c : keeps (watch k) (SetPreviewStatus k st c).
Proof. by apply update_preview_watch. Qed.
Lemma SetPreviewDeployed_watch k : keeps (watch k) (SetPreviewDeployed k).
Proof. by apply update_preview_watch. Qed.
Lemma SetDeploymentStatus_watch k id st : keeps (watch k) (SetDeploymentStatus id st).
Proof.
  apply (keeps_sub (busy nobody)); [|apply SetDeploymentStatus_busy]. intros w w' Hb [Hw Ho].
  split; [by apply (reserved_busy nobody w)|]. unfold other. by rewrite (b_previews _ _ _ Hb).
Qed.
#[local] Hint Resolve SetPreviewStatus_watch SetPreviewDeployed_watch SetDeploymentStatus_watch : effects.
Lemma run_reserved id end_ w : reserved w → wp (run_preview_deployment id end_) (λ _ w', reserved w') w.
Proof.
  intros Hw. unfold run_preview_deployment. apply wp_bind, wp_query; [done|].
  destruct (w_deployments w !! id) as [d|] eqn:Hd; [|done]. destruct (finished _); [by apply wp_ret|].
  destruct (d_preview d) as [k|] eqn:Hk; [|by apply wp_ret]. apply wp_bind, wp_query; [done|].
  destruct (w_previews w !! k) as [p|] eqn:Hp; [|done].
  destruct (r_deployments w Hw id d k Hd Hk) as [_ Hno]. specialize (Hno p Hp).
  assert (p_id p = k) as <- by (by apply (proj2 (r_tidy w Hw))).
  assert (∀ {A} (m : M World A), keeps (watch (p_id p)) m → wp m (λ _ w', reserved w') w) as Hm.
  { intros A m Hm. eapply wp_mono; [|apply Hm]. intros r w' H. apply H. split; [done|by exists p]. }
  apply Hm. unfold mark_failed, finish_preview. keep.
Qed.

Lemma promote_one_reserved w v p :
  w_previews w !! p_id p = Some p → reserved w → reserved v ∧ (∀ k, other w k → other v k) →
  wp (promote_one p) (λ _ v', reserved v' ∧ ∀ k, other w k → other v' k) v.
Proof.
  intros Hp Hw [Hv Hall]. unfold promote_one, GetApplicationByID.
  destruct (fork_gate (p_is_fork p) p); [by apply wp_ret|]. apply wp_bind, wp_attempt, wp_query; [by apply wp_ret|].
  destruct (w_apps v !! p_app p) as [a|] eqn:Ea; [|by apply wp_ret].
  destruct (negb (app_previews_enabled a)); [by apply wp_ret|].
  destruct (decide (its p)) as [Hi|Hi].
  { rewrite dormant_reserved; [by apply wp_ret| |by apply (r_rows w Hw (p_id p))].
    apply (r_manual v Hv). destruct Hi as [<- _]. done. }
  destruct (ManualFirstReserved a p); [by apply wp_ret|]. apply wp_ignore.
  eapply wp_mono; [|apply PromotePreviewDeployment_promotes]. intros r v' Hpr. split.
  - apply (promotes_reserved a (p_id p) v); [done| |done]. apply Hall. by exists p.
  - intros k Hk. by apply (promotes_other a (p_id p) v), Hall.
Qed.
Lemma reap_tail_reserved w :
  reserved w → wp (queued ← attempt ListQueuedPreviews;
    match queued with inl _ => mret () | inr qs => each qs promote_one end) (λ _ w', reserved w') w.
Proof.
  intros Hw. apply wp_bind, wp_attempt, wp_query; [by apply wp_ret|].
  eapply wp_mono; [|apply (wp_each (λ v, reserved v ∧ ∀ k, other w k → other v k)); [|done]].
  - by intros r w' [H _].
  - intros p v Hp Hv. apply (promote_one_reserved w v); [|done..].
    apply ListQueuedPreviews_rows in Hp as [? _]; [done|apply Hw].
Qed.
Lemma reapPreviews_reserved w : reserved w → wp reapPreviews (λ _ w', reserved w') w.
Proof.
  intros Hw. unfold reapPreviews, ListPreviewsToWarn, ListExpiredPreviews, list_previews.
  assert (∀ {A B} (m : M World A) (k : A → M World B) w, keeps lulls m → reserved w →
    (∀ x w', reserved w' → wp (k x) (λ _ w'', reserved w'') w') → wp (m ≫= k) (λ _ w', reserved w') w) as Hb.
  { intros A B m k v Hm Hv Hk. apply wp_bind. eapply wp_mono; [|by apply keeps_reserved].
    intros [e|x] v' Hv'; [done|by apply Hk]. }
  apply Hb; [keep|done|]. intros toWarn w1 H1.
  apply Hb; [unfold warn_one, GetApplicationByID; keep|done|]. intros [] w2 H2.
  apply Hb; [keep|done|]. intros [e|ps] w3 H3; [by apply wp_ret|].
  apply Hb; [keep|done|]. intros [] w4 H4. by apply reap_tail_reserved.
Qed.

(** A dormant preview is neither put to sleep nor woken. *)
Lemma scale_reserved channel activity stopped w :
  reserved w → wp (scaleZeroPreviews channel activity stopped) (λ _ w', reserved w') w.
Proof.
  intros Hw. assert (tidy w) as [Hn Hf] by apply Hw.
  assert (∀ p, dormant p → after_pass channel activity stopped w p = p) as Hdorm.
  { intros p Hp. unfold after_pass, due_asleep, due_awake, scales_to_zero.
    rewrite !bool_decide_false by (by apply dormant_not_running). by destruct (w_apps w !! p_app p). }
  assert (∀ p, same_key p (after_pass channel activity stopped w p)) as Hkey.
  { intros p. unfold after_pass. by repeat case_match. }
  intros fs. pose proof (scaleZeroPreviews_guards channel activity stopped w fs) as Hg.
  pose proof (scaleZeroPreviews_underway channel activity stopped w (λ i p Hp, proj1 (Hf i p Hp)) fs) as Hu.
  destruct (scaleZeroPreviews _ _ _ fs w) as [r [fs' w']]. destruct Hu as [[H1 H2 H3 H4 H5 H6 H7 H8] Hr]. specialize (Hg (r_tidy w Hw)).
  assert (∀ i p', w_previews w' !! i = Some p' → ∃ p, w_previews w !! i = Some p ∧
    (p' = p ∨ p' = after_pass channel activity stopped w p)) as Hrow.
  { intros i p' Hp'. assert (i ∈ dom (w_previews w)) as [p Hp]%elem_of_dom by (rewrite <- H8; by apply elem_of_dom).
    exists p. split; [done|]. destruct (Hr i p Hp) as [E|[_ E]]; rewrite E in Hp'; injection Hp' as <-; auto. }
  apply (reserved_by w); [done|apply Hg| |lia| |].
  - unfold manual_first. rewrite H2. apply Hw.
  - intros i p' Hp' Hi. destruct (Hrow i p' Hp') as (p & Hp & E).
    assert (its p) as Hip by (destruct E as [->| ->]; [done|by apply (same_key_its _ _ (Hkey p)) in Hi]).
    split; [|right; by exists p]. pose proof (r_rows w Hw i p Hp Hip) as Hd.
    destruct E as [->| ->]; [done|]. by rewrite (Hdorm p Hd).
  - intros i d k. rewrite H5. intros Hd Hk. left. by exists d.
Qed.

Lemma woken_reserved server uuid w : reserved w → wp (stz_woken server uuid) (λ _ w', reserved w') w.
Proof.
  intros Hw. unfold stz_woken, GetSleepingPreviewForServer. apply wp_bind, wp_attempt, wp_query; [by apply wp_ret|].
  destruct (filter _ _) as [|p l] eqn:E; [by apply wp_ret|].
  assert (p ∈ p :: l) as Hp by (by left). rewrite <- E in Hp. apply list_elem_of_filter in Hp as [Hs Hp].
  assert (w_previews w !! p_id p = Some p) as Hrow.
  { apply listed; [|done]. intros i q Hq. by apply (proj2 (r_tidy w Hw)). }
  assert (¬ its p) as Hno.
  { intros Hi. pose proof (r_rows w Hw (p_id p) p Hrow Hi) as Hd. unfold sleeps_on in Hs.
    apply andb_true_iff in Hs as [[_ Hs%bool_decide_eq_true]%andb_true_iff _]. by apply (dormant_not_running p). }
  apply wp_bind, wp_ignore. eapply wp_mono; [|by apply (update_preview_watch (p_id p) (asleep PActive (λ _, None)))].
  intros r w' H. apply wp_ret. apply H. split; [done|by exists p].
Qed.

(** *** Histories nobody ordered *)

(** What orders a deployment of this pull request. *)
Definition orders (a : action) : Prop :=
  match a with
  | Comment x prov event _ => orders_deploy event ∧ app_id x = app ∧ prov = provider ∧ wrap32 (c_Number event) = pr
  | DeployPR x prov n _ _ _ _ => app_id x = app ∧ prov = provider ∧ wrap32 n = pr
  | Approve _ p | Redeploy _ p _ _ => its p
  | _ => False
  end.
(** The application an event is handled with has the setting. *)
Definition manual_action (a : action) : Prop :=
  match a with Event x _ _ => app_id x = app → app_deploy_on_open x = false | _ => True end.

Lemma perform_reserved a w :
  ready w a → ¬ orders a → manual_action a → reserved w → wp (perform a) (λ _ w', reserved w') w.
Proof.
  intros Hr Ho Hm Hw. destruct a; simpl in *; try apply wp_ignore.
  - by apply HandlePreviewPREvent_reserved.
  - by apply handlePreviewComment_reserved.
  - by apply DeployPreviewForPR_reserved.
  - by apply approve_endpoint_reserved.
  - by apply redeploy_endpoint_reserved.
  - by apply keeps_reserved; [apply destroy_endpoint_lulls|].
  - by apply keeps_reserved; [apply keep_endpoint_lulls|].
  - by apply keeps_reserved; [apply PreviewDestroy_lulls|].
  - by apply keeps_reserved; [apply tombstone_previews_lulls|].
  - by apply run_reserved.
  - by apply reapPreviews_reserved.
  - by apply scale_reserved.
  - by apply woken_reserved.
  - by apply keeps_reserved; [apply RecordPreviewActivity_lulls|].
  - apply keeps_reserved; [|done]. apply keeps_busy_lulls.
    unfold EnqueueWebhookDeployment, GetDestinationByID, GetServerByID, CountActiveDeploymentsForServer,
      SupersedeQueuedDeployments. keep. by apply CreateDeployment_busy.
  - by apply wp_ret.
Qed.

Lemma step_reserved a w w' :
  step a w w' → ¬ orders a → manual_action a → manual_first w' → reserved w → reserved w'.
Proof.
  intros Hs Ho Hm Hm' Hw. destruct Hs as [a fs w Hr|w w' [H1 H2 H3 H4]].
  - pose proof (perform_reserved a w Hr Ho Hm Hw fs) as H. by destruct (perform a fs w) as [r [fs' w']].
  - assert (tidy w) as [Hn Hf] by apply Hw. apply (reserved_by w); [done| |done|done| |].
    + split; [by apply H3|]. intros i p Hp. destruct (Hf i p); [by eapply lookup_weaken|]. lia.
    + intros i p Hp Hi. assert (w_previews w !! i = Some p) by (by eapply lookup_weaken).
      split; [by apply (r_rows w Hw i)|right; by exists p].
    + intros i d k Hd Hk. left. by eapply H4.
Qed.

(** A history in which the setting stays and nobody orders the pull request. *)
Inductive unordered : World → World → Prop :=
| unordered_nil w : unordered w w
| unordered_step a w w1 w2 :
    unordered w w1 → step a w1 w2 → ¬ orders a → manual_action a → manual_first w2 → unordered w w2.
Lemma unordered_reserved w0 w : unordered w0 w → reserved w0 → reserved w.
Proof. intros H Hw0. induction H as [|a w0 w1 w2 H IH Hs Ho Hm Hm2]; [done|]. eapply step_reserved; eauto. Qed.

(** C21: While an application has preview_deploy_on_open off and nobody orders a
    pull request — no /deploy or /rebuild, no deploy, redeploy or approval
    through the API — no history of events, pushes, teardowns, deployment runs
    and scheduler passes, with any statement failing, leaves a deployment of it. *)
Theorem manual_first_waits w0 w :
  reserved w0 → unordered w0 w →
  ∀ i d k p, w_deployments w !! i = Some d → d_preview d = Some k → w_previews w !! k = Some p → ¬ its p.
Proof.
  intros Hw0 H i d k p Hd Hk Hp. destruct (unordered_reserved w0 w H Hw0) as [_ _ _ Hno].
  by apply (proj2 (Hno i d k Hd Hk)).
Qed.
End Reserved.
(** ** Deliveries

    Processing a delivery is a history of these steps, so what holds of all
    histories holds of whatever a forge sends. *)

Lemma history_app acts acts' w0 w1 w2 : history acts w0 w1 → history acts' w1 w2 → history (acts ++ acts') w0 w2.
Proof.
  intros H H'. revert H. induction H' as [w|acts' a w v v' H' IH Hs]; intros H; [by rewrite app_nil_r|].
  rewrite (assoc_L (++)). eapply history_snoc; [by apply IH|done].
Qed.

(** The steps a delivery can cause: no approval, no endpoint, no worker. *)
Definition from_forge (a : action) : bool :=
  match a with Event _ _ _ | Comment _ _ _ _ | PushTo _ | Elsewhere => true | _ => false end.
Definition driven (w w' : World) : Prop := ∃ acts, history acts w w' ∧ Forall from_forge acts.
#[local] Instance driven_preorder : PreOrder driven.
Proof.
  split; [intros w; exists []; split; constructor|]. intros w1 w2 w3 (l1 & H1 & F1) (l2 & H2 & F2).
  exists (l1 ++ l2). split; [by eapply history_app|by apply Forall_app].
Qed.

Lemma step_driven a w w' : step a w w' → from_forge a → driven w w'.
Proof. intros Hs Ha. exists ([] ++ [a]). split; [eapply history_snoc; [constructor|done]|by repeat constructor]. Qed.
Lemma perform_driven {A} a (m : M World A) :
  perform a = ignore m → (∀ w, ready w a) → from_forge a → keeps driven m.
Proof.
  intros Hp Hr Ha w fs. pose proof (step_perform a fs w (Hr w)) as Hs. rewrite Hp in Hs.
  unfold ignore in Hs. rewrite run_bind, run_attempt in Hs. destruct (m fs w) as [r [fs' w']].
  by eapply step_driven.
Qed.
Lemma FinishWebhookDelivery_driven id st reason : keeps driven (FinishWebhookDelivery id st reason).
Proof.
  apply (keeps_exec _). intros w. apply (step_driven Elsewhere); [|done]. apply step_elsewhere.
  constructor; [done|simpl; lia|done|]. intros i d k Hd Hk. by exists d.
Qed.
Lemma row_driven {A} (t : World → gmap Z A) k : keeps driven (row t k).
Proof. apply (keeps_query _). Qed.
Lemma event_driven a prov event : keeps driven (HandlePreviewPREvent slug_of a prov event).
Proof. by apply (perform_driven (Event a prov event)). Qed.
Lemma comment_driven a prov event rights : keeps driven (handlePreviewComment slug_of a prov event rights).
Proof. by apply (perform_driven (Comment a prov event rights)). Qed.
Lemma push_driven a : keeps driven (EnqueueWebhookDeployment a).
Proof. by apply (perform_driven (PushTo a)). Qed.
#[local] Hint Resolve FinishWebhookDelivery_driven row_driven event_driven comment_driven push_driven : effects.

Lemma fan_out_driven ids body : (∀ a, keeps driven (body a)) → keeps driven (fan_out ids body).
Proof.
  intros Hb. induction ids as [|id ids IH]; simpl; [keep|]. unfold GetApplicationByID. keep.
Qed.

(** Whatever a forge delivers, and whichever statement fails: processing the
    delivery of an application's endpoint, and fanning one of the GitHub App out
    to every application bound to the repository, is a history of the preview
    lifecycle made of pull request events, comments and pushes, and of changes
    elsewhere: what holds of all histories holds of it. *)
Theorem deliveries_are_histories delivery github_app repository rights w :
  wp (Execute slug_of delivery rights) (λ _ w', driven w w') w ∧
  wp (GithubAppPush delivery github_app repository) (λ _ w', driven w w') w ∧
  wp (GithubAppPullRequest slug_of delivery github_app) (λ _ w', driven w w') w ∧
  wp (GithubAppIssueComment slug_of delivery github_app rights) (λ _ w', driven w w') w.
Proof.
  split_and!; revert w.
  - change (keeps driven (Execute slug_of delivery rights)).
    unfold Execute, processPullRequest, processComment, HandlePreviewComment, ignored_with, failed_with,
      accepted_with, GetWebhookDeliveryByID, GetApplicationByID. keep.
  - change (keeps driven (GithubAppPush delivery github_app repository)).
    unfold GithubAppPush, ignored_with, failed_with, accepted_with, GetWebhookDeliveryByID,
      ListApplicationIDsForRepositoryPush. keep. apply fan_out_driven. intros x. unfold push_one. keep.
  - change (keeps driven (GithubAppPullRequest slug_of delivery github_app)).
    unfold GithubAppPullRequest, ignored_with, accepted_with, GetWebhookDeliveryByID,
      ListApplicationIDsForRepositoryPush. keep. apply fan_out_driven. intros x. unfold pr_one. keep.
  - change (keeps driven (GithubAppIssueComment slug_of delivery github_app rights)).
    unfold GithubAppIssueComment, ignored_with, accepted_with, GetWebhookDeliveryByID,
      ListApplicationIDsForRepositoryPush. keep; apply fan_out_driven; intros x; unfold comment_one; keep.
Qed.
End Life.

(** ** Executions *)

(** One application on one server; the flags under test vary. *)
Definition life_app (deploy_on_open : bool) (cap : option Z) : App :=
  mkApp 1 "app-uuid" 1 None true None true None false true deploy_on_open cap false true false None None "" false 0.
Definition life_world (a : App) : World :=
  mkWorld 5 (λ i, FormatInt i) (mkDB ∅ 1) ∅ {[ 1 := a ]} {[ 1 := 1 ]} {[ 1 := mkServer 2 None ]}
    ∅ ∅ ∅ ∅ 1 ∅ 1 ∅ 1 ∅ ∅ ∅.
Definition life_slug (_ : Z) : string := "slug".
Definition pr_event (action : string) (n : Z) (sha : string) (fork : bool) : PullRequestEvent :=
  mkPR action n "branch" sha false false fork [] "acme/site".
Definition after (a : action) (w : World) : World := snd (snd (perform life_slug a [] w)).
Definition verdict_of {A} (m : M World A) (w : World) : err + A := fst (eval m w).
Definition status_of (w : World) (k : Z) : option PreviewStatus := p_status <$> w_previews w !! k.
Definition deployed_commits (w : World) : list (option string) :=
  d_commit <$> (map_to_list (w_deployments w)).*2.

Lemma life_world_tidy a : tidy (life_world a).
Proof. split; intros i x; simpl; by rewrite lookup_empty. Qed.

(** A fork's pull request waits, and is deployed on its approval. *)
Definition fork_waits : World := after (Event (life_app true None) "github" (pr_event "opened" 7 "c0ffee" true)) (life_world (life_app true None)).
Definition waiting_fork : Preview := default (fresh_preview fork_waits 0 "" 0 None None false None) (w_previews fork_waits !! 1).
Definition fork_opened : action := Event (life_app true None) "github" (pr_event "opened" 7 "c0ffee" true).

(** A pull request of a manual-first application, after it was opened and the
    scheduler passed. *)
Definition manual_app : App := life_app false None.
Definition opened_manual : World := after (Event manual_app "github" (pr_event "opened" 7 "c0ffee" false)) (life_world manual_app).
Lemma manual_first_waits_witness :
  p_pr <$> w_previews (after Reap opened_manual) !! 1 = Some 7 ∧
  ∀ i d k p, w_deployments (after Reap opened_manual) !! i = Some d → d_preview d = Some k →
    w_previews (after Reap opened_manual) !! k = Some p → ¬ identity_is 1 "github" 7 p.
Proof.
  assert (manual_first 1 (life_world manual_app) ∧ manual_first 1 opened_manual ∧ manual_first 1 (after Reap opened_manual))
    as (H0 & H1 & H2).
  { split_and!; intros a; vm_compute; by intros [= <-]. }
  split; [vm_compute; reflexivity|].
  apply (manual_first_waits life_slug 1 "github" 7 (life_world manual_app)).
  - constructor; [apply life_world_tidy|exact H0| |]; intros i x; simpl; by rewrite lookup_empty.
  - apply (unordered_step life_slug 1 "github" 7 Reap _ opened_manual).
    + apply (unordered_step life_slug 1 "github" 7 (Event manual_app "github" (pr_event "opened" 7 "c0ffee" false)) _
        (life_world manual_app)); [constructor| |intros []|done|exact H1].
      exact (step_perform life_slug (Event _ _ _) [] (life_world manual_app) I).
    + exact (step_perform life_slug Reap [] opened_manual I).
    + intros [].
    + exact I.
    + exact H2.
Defined.

(** With a cap of one, a push to the only live pull request is refused for the room
    it takes itself, and the scheduler never comes back to it. *)
Definition one_live : World :=
  after (Run 1 Built) (after (Event (life_app true (Some 1)) "github" (pr_event "opened" 7 "old" false))
    (life_world (life_app true (Some 1)))).
Definition pushed_again : World :=
  after (Event (life_app true (Some 1)) "github" (pr_event "synchronize" 7 "new" false)) one_live.
Lemma cap_blocks_its_own_preview :
  verdict_of (HandlePreviewPREvent life_slug (life_app true (Some 1)) "github" (pr_event "synchronize" 7 "new" false)) one_live
    = inr "queued: concurrency cap reached (1 live)" ∧
  status_of pushed_again 1 = Some PActive ∧
  deployed_commits (after Reap pushed_again) = [Some "old"].
Proof. vm_compute. done. Qed.

(** A manual-first pull request that was deployed, closed, torn down and reopened is
    deployed with no new order. *)
Definition reopened : World :=
  let w := after (DeployPR manual_app "github" 7 "branch" "c0ffee" false None) opened_manual in
  after (Teardown 1 None) (after (Event manual_app "github" (pr_event "closed" 7 "c0ffee" false)) (after (Run 1 Built) w)).
Lemma reopened_is_deployed_unasked :
  status_of reopened 1 = Some PDestroyed ∧
  verdict_of (HandlePreviewPREvent life_slug manual_app "github" (pr_event "reopened" 7 "c0ffee" false)) reopened
    = inr "deployment queued".
Proof. vm_compute. done. Qed.

(** An approved fork is deployed at whatever it is pushed to next. *)
Lemma approval_covers_later_pushes :
  d_commit <$> w_deployments (after (Event (life_app true None) "github" (pr_event "synchronize" 7 "unseen" true))
    (after (Approve 1 waiting_fork) fork_waits)) !! 2 = Some (Some "unseen").
Proof. vm_compute. done. Qed.

(** A deployment still queued when its preview is torn down brings it back when it
    runs; one that is cancelled leaves its preview deploying. *)
Definition opened_auto : World :=
  after (Event (life_app true None) "github" (pr_event "opened" 7 "c0ffee" false)) (life_world (life_app true None)).
Lemma late_runs_observed :
  status_of (after (Teardown 1 None) opened_auto) 1 = Some PDestroyed ∧
  status_of (after (Run 1 Built) (after (Teardown 1 None) opened_auto)) 1 = Some PActive ∧
  status_of (after (Run 1 BuildCancelled) opened_auto) 1 = Some PDeploying.
Proof. vm_compute. done. Qed.
