(* ===== verification/Totp.v ===== *)
(** * Time-based one-time passwords

    Models [internal/totp] — [Step], [Validate], [hotp], the secret codec — with
    the parts of the standard library it calls: HMAC-SHA1 ([crypto/hmac],
    [crypto/sha1]) and unpadded base32 ([encoding/base32]), executable, so that
    the RFC vectors the package is pinned to are computed here too. *)
From S2P Require Import Prelude GoLib Calendar.
Local Open Scope Z_scope.

(** ** SHA-1 *)

Definition rotl (n x : Z) : Z := mask32 (Z.lor (Z.shiftl x n) (Z.shiftr x (32 - n))).

(** The message schedule, newest word first. *)
Fixpoint schedule (n : nat) (w : list Z) : list Z :=
  match n with
  | O => w
  | S n' =>
      let at' i := nth i w 0 in
      schedule n' (rotl 1 (Z.lxor (Z.lxor (at' 2%nat) (at' 7%nat)) (Z.lxor (at' 13%nat) (at' 15%nat))) :: w)
  end.

Definition sha1_f (t b c d : Z) : Z * Z :=
  if t <? 20 then (Z.lxor d (Z.land b (Z.lxor c d)), 1518500249)
  else if t <? 40 then (Z.lxor (Z.lxor b c) d, 1859775393)
  else if t <? 60 then (Z.lor (Z.land (Z.lor b c) d) (Z.land b c), 2400959708)
  else (Z.lxor (Z.lxor b c) d, 3395469782).

Definition sha1_round (st : Z * (Z * Z * Z * Z * Z)) (w : Z) : Z * (Z * Z * Z * Z * Z) :=
  let '(t, (a, b, c, d, e)) := st in
  let '(f, k) := sha1_f t b c d in
  (t + 1, (mask32 (rotl 5 a + f + e + w + k), a, rotl 30 b, c, d)).

Definition sha1_block (h : Z * Z * Z * Z * Z) (block : list Z) : Z * Z * Z * Z * Z :=
  let words := (λ i, be_value (take 4 (drop (4 * i) block))) <$> seq 0 16 in
  let w := rev (schedule 64 (rev words)) in
  let '(_, (a, b, c, d, e)) := foldl sha1_round (0, h) w in
  let '(h0, h1, h2, h3, h4) := h in
  (mask32 (h0 + a), mask32 (h1 + b), mask32 (h2 + c), mask32 (h3 + d), mask32 (h4 + e)).

Definition sha1_pad (m : list Z) : list Z :=
  let n := Z.of_nat (length m) in
  m ++ [128] ++ replicate (Z.to_nat ((55 - n) `mod` 64)) 0 ++ be_bytes 8 (8 * n).

Fixpoint sha1_blocks (n : nat) (h : Z * Z * Z * Z * Z) (m : list Z) : Z * Z * Z * Z * Z :=
  match n with
  | O => h
  | S n' => sha1_blocks n' (sha1_block h (take 64 m)) (drop 64 m)
  end.

Definition sha1 (m : list Z) : list Z :=
  let p := sha1_pad m in
  let '(a, b, c, d, e) :=
    sha1_blocks (length p / 64)%nat (1732584193, 4023233417, 2562383102, 271733878, 3285377520) p in
  be_bytes 4 a ++ be_bytes 4 b ++ be_bytes 4 c ++ be_bytes 4 d ++ be_bytes 4 e.

Definition hmac_sha1 (key msg : list Z) : list Z :=
  let key := if (64 <? length key)%nat then sha1 key else key in
  let key := key ++ replicate (64 - length key)%nat 0 in
  sha1 ((Z.lxor 92 <$> key) ++ sha1 ((Z.lxor 54 <$> key) ++ msg)).

(** ** Base32 without padding *)

Definition base32_alphabet : list ascii := String.list_ascii_of_string "ABCDEFGHIJKLMNOPQRSTUVWXYZ234567".
Definition base32_char (v : Z) : ascii := nth (Z.to_nat v) base32_alphabet "A"%char.
Definition base32_value (c : ascii) : option Z :=
  Z.of_nat ∘ fst <$> list_find (λ x, x = c) base32_alphabet.

(** Five bytes are eight characters. *)
Definition base32_digits : nat → Z → list Z := pos_digits 32.
(** [EncodeToString] on whole quanta, which is what a secret of 20 bytes is. *)
Fixpoint base32_encode_quanta (n : nat) (raw : list Z) : list ascii :=
  match n with
  | O => []
  | S n' => (base32_char <$> base32_digits 8 (be_value (take 5 raw))) ++ base32_encode_quanta n' (drop 5 raw)
  end.

(** One quantum of [DecodeString]: [d] characters give the bytes they fill. *)
Definition base32_quantum (vs : list Z) : list Z :=
  let d := length vs in
  let v := pos_value 32 (vs ++ replicate (8 - d)%nat 0) in
  let n := match d with 8 => 5 | 7 => 4 | 5 => 3 | 4 => 2 | 2 => 1 | _ => 0 end%nat in
  take n (be_bytes 5 v).
Fixpoint base32_quanta (fuel : nat) (vs : list Z) : list Z :=
  match fuel with
  | O => []
  | S f => match vs with [] => [] | _ => base32_quantum (take 8 vs) ++ base32_quanta f (drop 8 vs) end
  end.
Definition base32_decode (s : string) : option (list Z) :=
  let cs := filter (λ c, c ≠ ascii_of_byte 10 ∧ c ≠ ascii_of_byte 13) (String.list_ascii_of_string s) in
  vs ← mapM base32_value cs; Some (base32_quanta (length vs) vs).

(** ** Package totp *)

Definition Digits : nat := 6.
Definition Period : Z := 30 * second.
Definition SecretSize : nat := 20.
Definition Skew : Z := 1.

(** [totp.GenerateSecret], given the 20 random bytes it reads. *)
Definition GenerateSecret (raw : list Z) : string :=
  String.string_of_list_ascii (base32_encode_quanta (length raw / 5)%nat raw).

(** [totp.Step]: [at.Unix() / 30], truncated. *)
Definition Step (at' : Z) : Z := (at' / second) `quot` (Period / second).

(** [%0*d] of a number below [10 ^ n]. *)
Definition decimal (n : nat) (v : Z) : list ascii :=
  (λ d, ascii_of_byte (48 + d)) <$> pos_digits 10 n v.

(** [totp.hotp] *)
Definition hotp (key : list Z) (counter : Z) : string :=
  let msg := be_bytes 8 counter in
  let sum := hmac_sha1 key msg in
  let offset := Z.land (nth (length sum - 1) sum 0) 15 in
  let truncated := Z.land (be_value (take 4 (drop (Z.to_nat offset) sum))) 2147483647 in
  String.string_of_list_ascii (decimal Digits (truncated `mod` 1000000)).

(** [totp.Validate]: the scan over every candidate step, keeping the first. *)
Definition validate_scan (key : list Z) (code : string) (at' : Z) (acc : option Z) (offset : Z) : option Z :=
  let step := Step at' + offset in
  if step <? 0 then acc
  else match acc with
       | None => if bool_decide (hotp key step = code) then Some step else None
       | Some _ => acc
       end.
Definition Validate (secret code : string) (at' : Z) : option Z :=
  match base32_decode (to_upper (trim_space secret)) with
  | None => None
  | Some key =>
      let code := trim_space code in
      if negb (String.length code =? Digits)%nat then None
      else foldl (validate_scan key code at') None [- Skew; 0; Skew]
  end.

(** RFC 6238, appendix B (SHA-1, the low six digits). *)
Example rfc6238_59 : hotp (bytes_of "12345678901234567890") (Step (59 * second)) = "287082".
Proof. vm_compute. reflexivity. Qed.
Example rfc6238_1111111109 :
  hotp (bytes_of "12345678901234567890") (Step (1111111109 * second)) = "081804".
Proof. vm_compute. reflexivity. Qed.
Example rfc6238_20000000000 :
  hotp (bytes_of "12345678901234567890") (Step (20000000000 * second)) = "353130".
Proof. vm_compute. reflexivity. Qed.

(** ** The secret codec *)

(** Every base32 digit is a printable upper-case character that decodes to it. *)
Definition base32_char_ok (n : nat) : bool :=
  let c := base32_char (Z.of_nat n) in
  bool_decide (base32_value c = Some (Z.of_nat n)) && (33 <=? byte_val c) && (byte_val c <=? 126) &&
  bool_decide (upper_byte c = c) && bool_decide (c ≠ ascii_of_byte 10 ∧ c ≠ ascii_of_byte 13).

Lemma base32_chars_ok : forallb base32_char_ok (seq 0 32) = true.
Proof. vm_compute. reflexivity. Qed.

Lemma base32_char_spec v :
  is_digit 32 v →
  base32_value (base32_char v) = Some v ∧ plain (base32_char v) ∧ upper_byte (base32_char v) = base32_char v ∧
  (base32_char v ≠ ascii_of_byte 10 ∧ base32_char v ≠ ascii_of_byte 13).
Proof.
  intros Hv. unfold is_digit in Hv. pose proof base32_chars_ok as H. rewrite forallb_forall in H.
  specialize (H (Z.to_nat v)). rewrite in_seq in H. specialize (H ltac:(lia)).
  unfold base32_char_ok in H. rewrite Z2Nat.id in H by lia. unfold plain. reflect_bools. auto.
Qed.

(** The digits [EncodeToString] writes. *)
Fixpoint encode_digits (n : nat) (raw : list Z) : list Z :=
  match n with
  | O => []
  | S n' => base32_digits 8 (be_value (take 5 raw)) ++ encode_digits n' (drop 5 raw)
  end.

Lemma encode_quanta_digits n raw : base32_encode_quanta n raw = base32_char <$> encode_digits n raw.
Proof. revert raw. induction n as [|n IH]; intros raw; cbn [base32_encode_quanta encode_digits]; [done|]. by rewrite fmap_app, IH. Qed.

Lemma encode_digits_range n raw : Forall (is_digit 32) (encode_digits n raw).
Proof.
  revert raw. induction n as [|n IH]; intros raw; cbn [encode_digits]; [constructor|].
  apply Forall_app. split; [by apply pos_digits_Forall|apply IH].
Qed.

Lemma encode_digits_length n raw : length (encode_digits n raw) = (8 * n)%nat.
Proof.
  revert raw. induction n as [|n IH]; intros raw; cbn [encode_digits]; [done|].
  rewrite length_app, IH. unfold base32_digits. rewrite pos_digits_length. lia.
Qed.

(** Five bytes through eight digits and back. *)
Lemma quantum_roundtrip bs :
  length bs = 5%nat → Forall is_byte bs → base32_quantum (base32_digits 8 (be_value bs)) = bs.
Proof.
  intros Hlen Hbs. unfold base32_quantum, base32_digits. rewrite pos_digits_length. cbn [Nat.sub replicate].
  rewrite app_nil_r, pos_value_digits by lia.
  pose proof (pos_value_range 256 bs ltac:(lia) Hbs) as Hr. rewrite Hlen in Hr. unfold be_value.
  change (256 ^ Z.of_nat 5) with (32 ^ Z.of_nat 8) in Hr. rewrite Z.mod_small by lia.
  unfold be_bytes. rewrite <- Hlen at 2. rewrite pos_digits_value by (done || lia).
  apply take_ge. lia.
Qed.

Lemma quanta_roundtrip n raw fuel :
  length raw = (5 * n)%nat → Forall is_byte raw → (n <= fuel)%nat →
  base32_quanta fuel (encode_digits n raw) = raw.
Proof.
  revert raw fuel. induction n as [|n IH]; intros raw fuel Hlen Hraw Hf.
  - destruct raw; [|simpl in Hlen; lia]. by destruct fuel.
  - destruct fuel as [|fuel]; [lia|]. cbn [encode_digits base32_quanta].
    assert (H8 : length (base32_digits 8 (be_value (take 5 raw))) = 8%nat) by apply pos_digits_length.
    destruct (_ ++ _) as [|v vs] eqn:E.
    { apply (f_equal length) in E. rewrite length_app, H8 in E. simpl in E. lia. }
    rewrite <- E. rewrite take_app_length' by lia. rewrite drop_app_length' by lia.
    rewrite quantum_roundtrip, IH.
    + apply take_drop.
    + rewrite length_drop. lia.
    + by apply Forall_drop.
    + lia.
    + rewrite length_take. lia.
    + by apply Forall_take.
Qed.

Lemma mapM_base32 ds : Forall (is_digit 32) ds → mapM base32_value (base32_char <$> ds) = Some ds.
Proof.
  intros Hds. apply mapM_Some. induction Hds as [|d ds Hd _ IH]; [constructor|].
  constructor; [apply (base32_char_spec d Hd)|exact IH].
Qed.

Lemma filter_id {A} (P : A → Prop) `{∀ x, Decision (P x)} l : Forall P l → filter P l = l.
Proof.
  induction 1 as [|x l Hx _ IH]; [done|]. rewrite filter_cons_True by done. by rewrite IH.
Qed.

Lemma map_string_list f l :
  map_string f (String.string_of_list_ascii l) = String.string_of_list_ascii (f <$> l).
Proof. induction l as [|a l IH]; [done|]. cbn. f_equal. exact IH. Qed.

(** A generated secret is read back exactly: for any 20 random bytes, the
    base32 text handed to the authenticator app decodes — through the trimming
    and upper-casing of [Validate] — to those 20 bytes. *)
Theorem secret_roundtrip raw :
  length raw = SecretSize → Forall is_byte raw →
  base32_decode (to_upper (trim_space (GenerateSecret raw))) = Some raw.
Proof.
  intros Hlen Hraw. unfold GenerateSecret. rewrite Hlen, encode_quanta_digits.
  change (SecretSize / 5)%nat with 4%nat. pose proof (encode_digits_range 4 raw) as Hd.
  assert (Hc : Forall (λ c, plain c ∧ upper_byte c = c ∧ (c ≠ ascii_of_byte 10 ∧ c ≠ ascii_of_byte 13))
                 (base32_char <$> encode_digits 4 raw)).
  { apply Forall_fmap. eapply Forall_impl; [exact Hd|]. intros v Hv. simpl.
    apply (base32_char_spec v Hv). }
  rewrite trim_space_plain by (eapply Forall_impl; [exact Hc|intros c Hx; apply Hx]).
  unfold to_upper. rewrite map_string_list.
  assert (Hup : upper_byte <$> (base32_char <$> encode_digits 4 raw) = base32_char <$> encode_digits 4 raw).
  { clear Hd. induction Hc as [|c l Hx _ IH]; [done|]. cbn. f_equal; [tauto|exact IH]. }
  rewrite Hup. unfold base32_decode. rewrite string_ascii_inv.
  rewrite filter_id by (eapply Forall_impl; [exact Hc|intros c Hx; apply Hx]).
  rewrite mapM_base32 by done. cbn [mbind option_bind]. f_equal.
  apply quanta_roundtrip; [done|done|]. rewrite encode_digits_length. lia.
Qed.

Lemma secret_roundtrip_witness :
  GenerateSecret (bytes_of "12345678901234567890") = "GEZDGNBVGY3TQOJQGEZDGNBVGY3TQOJQ" ∧
  base32_decode (to_upper (trim_space (GenerateSecret (bytes_of "12345678901234567890")))) =
    Some (bytes_of "12345678901234567890").
Proof.
  split; [vm_compute; reflexivity|]. apply secret_roundtrip; [reflexivity|].
  vm_compute. repeat constructor; discriminate.
Defined.

(** ** The acceptance window *)

(** [Validate] accepts exactly the six-character codes of the steps within
    one of the current step (never a negative one), and reports the earliest
    step whose code matches — the step the caller must burn. *)
Theorem Validate_window secret code now m :
  Validate secret code now = Some m ↔
  ∃ key, base32_decode (to_upper (trim_space secret)) = Some key ∧
    String.length (trim_space code) = Digits ∧
    (0 <= m ∧ Step now - Skew <= m <= Step now + Skew) ∧ hotp key m = trim_space code ∧
    ∀ k, 0 <= k → Step now - Skew <= k < m → hotp key k ≠ trim_space code.
Proof.
  unfold Validate. destruct (base32_decode _) as [key|]; [|naive_solver].
  destruct (String.length (trim_space code) =? Digits)%nat eqn:Hl; cbn [negb].
  2: { apply Nat.eqb_neq in Hl. naive_solver. }
  apply Nat.eqb_eq in Hl. unfold validate_scan, Skew. cbn [foldl]. change (- (1)) with (-1).
  set (c := trim_space code). set (s := Step now).
  split.
  - intros H. exists key. split; [done|]. split; [done|]. revert H.
    repeat case_bool_decide; split_ifs; intros [= <-]; reflect_bools;
      (split; [lia|]; split; [done|]); intros k Hk0 Hk;
      assert (k = s + -1 ∨ k = s + 0) as [->| ->] by lia; done || lia.
  - intros (key' & [= <-] & _ & (Hm0 & Hm) & Hcode & Hfirst).
    assert (m = s + -1 ∨ m = s + 0 ∨ m = s + 1) as [->|[->| ->]] by lia.
    + destruct (s + -1 <? 0) eqn:E; reflect_bools; [lia|]. rewrite bool_decide_true by done.
      by split_ifs.
    + destruct (s + -1 <? 0) eqn:E; reflect_bools.
      * destruct (s + 0 <? 0) eqn:E'; reflect_bools; [lia|]. rewrite bool_decide_true by done. by split_ifs.
      * rewrite bool_decide_false by (apply Hfirst; lia).
        destruct (s + 0 <? 0) eqn:E'; reflect_bools; [lia|]. rewrite bool_decide_true by done. by split_ifs.
    + destruct (s + 1 <? 0) eqn:E1; reflect_bools; [lia|].
      destruct (s + 0 <? 0) eqn:E2, (s + -1 <? 0) eqn:E3; reflect_bools; try lia;
        rewrite ?(bool_decide_false (hotp key (s + -1) = c)) by (apply Hfirst; lia);
        rewrite ?(bool_decide_false (hotp key (s + 0) = c)) by (apply Hfirst; lia);
        by rewrite bool_decide_true by done.
Qed.

Example Validate_rfc : Validate "gezdgnbvgy3tqojqgezdgnbvgy3tqojq" " 287082 " (80 * second) = Some 1.
Proof. vm_compute. reflexivity. Qed.
