(* ===== verification/Session.v ===== *)
(** * Browser sessions, two-step login and role inspection

    Models [internal/session] ([session.go], [viewas.go], [totp.go]) over the
    rows and SQL statements it uses ([internal/store/sessions.sql.go],
    [mfa.sql.go], [roles.sql.go]).  A request is a function of the database and
    the clock; random tokens are arguments.  Statements that fail are not modelled:
    most abort the request, but [Login] goes on, as if the settings were the default
    and there were no second factor, when it cannot read them.  Passkeys and federated logins are
    not modelled: they share [Open]. *)
From S2P Require Import Prelude GoLib Calendar Auth Totp.
Local Open Scope Z_scope.

(** ** Rows *)

Record User := mkUser {
  u_id : Z; u_email : string; u_password : option string; u_is_root : bool;
  u_failed : Z; u_locked_until : option Z; u_deleted : bool; u_last_team : option Z
}.

(** A row of [mfa_factors] of type totp, one per user; its secret is held
    decrypted. *)
Record Factor := mkFactor {
  f_id : Z; f_secret : string; f_hashes : list string;
  f_confirmed : option Z; f_last_used : option Z
}.

Record Challenge := mkChallenge { ch_user : Z; ch_expires : Z }.

Record SessionRow := mkSessionRow {
  s_id : Z; s_user : Z; s_team : option Z; s_csrf : option string; s_expires : Z;
  s_revoked : option Z; s_mfa_pending : bool; s_totp_verified : option Z;
  s_view_role : option TeamRole; s_view_custom : option Z
}.

Record Membership := mkMembership {
  tm_user : Z; tm_team : Z; tm_role : TeamRole; tm_custom : option Z
}.

Record Team := mkTeam { t_uuid : string; t_deleted : bool }.

Record CustomRole := mkCustomRole {
  cr_uuid : string; cr_team : Z; cr_name : string; cr_permissions : list string
}.

Record Settings := mkSettings { password_login_disabled : bool; mfa_required : bool }.

(** The tables: users, factors, memberships and teams by id or user; challenges
    and sessions by token hash. *)
Record DB := mkDB {
  users : gmap Z User; factors : gmap Z Factor; next_factor : Z;
  challenges : gmap string Challenge; sessions : gmap string SessionRow; next_session : Z;
  memberships : list Membership; teams : gmap Z Team; custom_roles : gmap Z CustomRole;
  passkeys : gmap Z Z; settings : Settings
}.

(** ** Statements *)

Definition set_users (db : DB) (us : gmap Z User) : DB :=
  mkDB us (factors db) (next_factor db) (challenges db) (sessions db) (next_session db)
    (memberships db) (teams db) (custom_roles db) (passkeys db) (settings db).
Definition set_factors (db : DB) (fs : gmap Z Factor) (n : Z) : DB :=
  mkDB (users db) fs n (challenges db) (sessions db) (next_session db)
    (memberships db) (teams db) (custom_roles db) (passkeys db) (settings db).
Definition set_challenges (db : DB) (cs : gmap string Challenge) : DB :=
  mkDB (users db) (factors db) (next_factor db) cs (sessions db) (next_session db)
    (memberships db) (teams db) (custom_roles db) (passkeys db) (settings db).
Definition set_sessions (db : DB) (ss : gmap string SessionRow) (n : Z) : DB :=
  mkDB (users db) (factors db) (next_factor db) (challenges db) ss n
    (memberships db) (teams db) (custom_roles db) (passkeys db) (settings db).

(** [GetUserByEmail], [GetUserByID]: not the deleted ones. *)
Definition GetUserByEmail (db : DB) (email : string) : option User :=
  snd <$> head (filter (λ x, u_email x.2 = email ∧ u_deleted x.2 = false) (map_to_list (users db))).
Definition GetUserByID (db : DB) (id : Z) : option User :=
  u ← users db !! id; if u_deleted u then None else Some u.

(** [RecordFailedLogin]: the count grows, and from [max] on every failure
    pushes the lock forward. *)
Definition record_failure (max_attempts lock_minutes now : Z) (u : User) : User :=
  mkUser (u_id u) (u_email u) (u_password u) (u_is_root u) (u_failed u + 1)
    (if max_attempts <=? u_failed u + 1 then Some (now + lock_minutes * minute) else u_locked_until u)
    (u_deleted u) (u_last_team u).
Definition RecordFailedLogin (db : DB) (id max_attempts lock_minutes now : Z) : DB :=
  set_users db (alter (record_failure max_attempts lock_minutes now) id (users db)).

(** [ClearFailedLogins] *)
Definition clear_failures (u : User) : User :=
  mkUser (u_id u) (u_email u) (u_password u) (u_is_root u) 0 None (u_deleted u) (u_last_team u).
Definition ClearFailedLogins (db : DB) (id : Z) : DB :=
  set_users db (alter clear_failures id (users db)).

(** [SetUserLastTeam] *)
Definition SetUserLastTeam (db : DB) (id team : Z) : DB :=
  set_users db (alter (λ u, mkUser (u_id u) (u_email u) (u_password u) (u_is_root u) (u_failed u)
                          (u_locked_until u) (u_deleted u) (Some team)) id (users db)).

(** [GetTeamMembershipForUser]: a membership of a live team, the preferred team
    first, then the lowest id. *)
Definition live_team (db : DB) (id : Z) : bool :=
  match teams db !! id with Some t => negb (t_deleted t) | None => false end.
Definition better (preferred : Z) (a b : Membership) : bool :=
  let rank m := if tm_team m =? preferred then 1 else 0 in
  (rank b <? rank a) || ((rank a =? rank b) && (tm_team a <=? tm_team b)).
Definition memberships_of (db : DB) (user : Z) : list Membership :=
  filter (λ m, tm_user m = user ∧ live_team db (tm_team m) = true) (memberships db).
Fixpoint best_of (preferred : Z) (ms : list Membership) : option Membership :=
  match ms with
  | [] => None
  | m :: rest => match best_of preferred rest with
                 | None => Some m
                 | Some b => if better preferred m b then Some m else Some b
                 end
  end.
Definition GetTeamMembershipForUser (db : DB) (user preferred : Z) : option Membership :=
  match users db !! user with
  | None => None
  | Some _ => best_of preferred (memberships_of db user)
  end.

(** The custom role of a membership, through the left join. *)
Definition custom_of (db : DB) (m : Membership) : option CustomRole :=
  id ← tm_custom m; custom_roles db !! id.

(** [GetSessionByTokenHash]: live sessions of live users. *)
Definition GetSessionByTokenHash (db : DB) (hash : string) (now : Z) : option SessionRow :=
  s ← sessions db !! hash; u ← users db !! s_user s;
  if bool_decide (s_revoked s = None) && (now <? s_expires s) && negb (u_deleted u)
  then Some s else None.

(** Updates of a session row by its id. *)
Definition update_session (db : DB) (id : Z) (f : SessionRow → SessionRow) : DB :=
  set_sessions db ((λ s, if s_id s =? id then f s else s) <$> sessions db) (next_session db).

Definition SetSessionViewAs (db : DB) (id : Z) (role : option TeamRole) (custom : option Z) : DB :=
  update_session db id (λ s, mkSessionRow (s_id s) (s_user s) (s_team s) (s_csrf s) (s_expires s)
    (s_revoked s) (s_mfa_pending s) (s_totp_verified s) role custom).
Definition SetSessionCurrentTeam (db : DB) (id : Z) (team : Z) : DB :=
  update_session db id (λ s,
    if bool_decide (s_revoked s = None)
    then mkSessionRow (s_id s) (s_user s) (Some team) (s_csrf s) (s_expires s)
           (s_revoked s) (s_mfa_pending s) (s_totp_verified s) (s_view_role s) (s_view_custom s)
    else s).
Definition RevokeSession (db : DB) (id now : Z) : DB :=
  update_session db id (λ s,
    if bool_decide (s_revoked s = None)
    then mkSessionRow (s_id s) (s_user s) (s_team s) (s_csrf s) (s_expires s)
           (Some now) (s_mfa_pending s) (s_totp_verified s) (s_view_role s) (s_view_custom s)
    else s).
Definition SetSessionTotpVerified (db : DB) (id now : Z) : DB :=
  update_session db id (λ s, mkSessionRow (s_id s) (s_user s) (s_team s) (s_csrf s) (s_expires s)
    (s_revoked s) (s_mfa_pending s) (Some now) (s_view_role s) (s_view_custom s)).

(** [GetMfaFactorForUser], [UpsertUnconfirmedMfaFactor] (no row over a confirmed
    factor), [ConfirmMfaFactor], [DeleteMfaFactorForUser]. *)
Definition GetMfaFactorForUser (db : DB) (user : Z) : option Factor := factors db !! user.

Definition UpsertUnconfirmedMfaFactor (db : DB) (user : Z) (secret : string) : option DB :=
  match factors db !! user with
  | None => Some (set_factors db (<[ user := mkFactor (next_factor db) secret [] None None ]> (factors db))
                    (next_factor db + 1))
  | Some f =>
      match f_confirmed f with
      | Some _ => None
      | None => Some (set_factors db (<[ user := mkFactor (f_id f) secret [] None None ]> (factors db))
                        (next_factor db + 1))
      end
  end.

Definition ConfirmMfaFactor (db : DB) (user : Z) (hashes : list string) (used now : Z) : option DB :=
  match factors db !! user with
  | Some f =>
      match f_confirmed f with
      | None => Some (set_factors db (<[ user := mkFactor (f_id f) (f_secret f) hashes (Some now) (Some used) ]>
                                        (factors db)) (next_factor db))
      | Some _ => None
      end
  | None => None
  end.

Definition DeleteMfaFactorForUser (db : DB) (user : Z) : DB :=
  set_factors db (delete user (factors db)) (next_factor db).

(** An update of the factor with a given id and condition: the row count. *)
Definition update_factor (db : DB) (id : Z) (cond : Factor → bool) (f : Factor → Factor) : DB * Z :=
  let hit x := (f_id x =? id) && cond x in
  (set_factors db ((λ x, if hit x then f x else x) <$> factors db) (next_factor db),
   Z.of_nat (length (filter (λ x, hit x.2 = true) (map_to_list (factors db))))).

Definition TouchMfaFactorUsed (db : DB) (id used : Z) : DB * Z :=
  update_factor db id
    (λ f, match f_last_used f with None => true | Some t => t <? used end)
    (λ f, mkFactor (f_id f) (f_secret f) (f_hashes f) (f_confirmed f) (Some used)).

Definition ConsumeMfaRecoveryCode (db : DB) (id : Z) (hash : string) : DB * Z :=
  update_factor db id
    (λ f, bool_decide (is_Some (f_confirmed f)) && bool_decide (hash ∈ f_hashes f))
    (λ f, mkFactor (f_id f) (f_secret f) (filter (.≠ hash) (f_hashes f)) (f_confirmed f) (f_last_used f)).

Definition ReplaceMfaRecoveryCodes (db : DB) (user : Z) (hashes : list string) : DB * Z :=
  match factors db !! user with
  | Some f => if bool_decide (is_Some (f_confirmed f))
              then (set_factors db (<[ user := mkFactor (f_id f) (f_secret f) hashes (f_confirmed f)
                                                (f_last_used f) ]> (factors db)) (next_factor db), 1)
              else (db, 0)
  | None => (db, 0)
  end.

(** [PurgeExpiredMfaChallenges], [CreateMfaChallenge], [GetMfaChallenge],
    [ConsumeMfaChallenge]; [token_hash] is unique. *)
Definition PurgeExpiredMfaChallenges (db : DB) (now : Z) : DB :=
  set_challenges db (filter (λ x, (ch_expires x.2 <? now) = false) (challenges db)).
Definition CreateMfaChallenge (db : DB) (hash : string) (user expires : Z) : option DB :=
  match challenges db !! hash with
  | Some _ => None
  | None => Some (set_challenges db (<[ hash := mkChallenge user expires ]> (challenges db)))
  end.
Definition GetMfaChallenge (db : DB) (hash : string) (now : Z) : option Challenge :=
  c ← challenges db !! hash; if now <? ch_expires c then Some c else None.
Definition ConsumeMfaChallenge (db : DB) (hash : string) (now : Z) : option DB :=
  match GetMfaChallenge db hash now with
  | Some _ => Some (set_challenges db (delete hash (challenges db)))
  | None => None
  end.

(** [CreateSession]; [token_hash] is unique. *)
Definition CreateSession (db : DB) (hash : string) (user team : Z) (csrf : string) (expires : Z)
    (pending : bool) : option DB :=
  match sessions db !! hash with
  | Some _ => None
  | None => Some (set_sessions db
      (<[ hash := mkSessionRow (next_session db) user (Some team) (Some csrf) expires None pending None None None ]>
         (sessions db)) (next_session db + 1))
  end.

(** ** Package session *)

Definition Lifetime : Z := 12 * 60 * minute.
Definition MaxFailedLogins : Z := 5.
Definition LockoutMinutes : Z := 15.
Definition ChallengeLifetime : Z := 5 * minute.
Definition RecoveryCodeCount : nat := 10.

Inductive session_error :=
| ErrInvalidCredentials | ErrAccountLocked | ErrPasswordLoginDisabled | ErrNoTeam
| ErrMFAChallengeExpired | ErrMFACodeInvalid | ErrMFAAlreadyEnabled | ErrMFANotConfigured
| ErrNotAMember | ErrRoleNotFound | ErrNotAllowedToViewAs | ErrStoreFailed.

(** [session.Session] *)
Record Session := mkSession {
  ss_id : Z; ss_user : Z; ss_team : Z; ss_csrf : string; ss_role : TeamRole; ss_mfa_pending : bool
}.

Section Manager.
(** SHA-256 in hex of a token, and the password verifier of
    [internal/password] (Argon2id): the verdict, or an error on a malformed
    hash. *)
Context (hashToken : string → string) (Verify : string → string → option bool).
(** [pgtype.UUID.Scan] followed by [uuidString]: the canonical text of a UUID. *)
Context (scan_uuid : string → option string).

Definition locked (u : User) (now : Z) : bool :=
  match u_locked_until u with Some t => now <? t | None => false end.

(** [Manager.hasMFAFactor] *)
Definition hasMFAFactor (db : DB) (user : Z) : bool :=
  match GetMfaFactorForUser db user with
  | Some f => bool_decide (is_Some (f_confirmed f))
  | None => false
  end || (0 <? default 0 (passkeys db !! user)).

(** [Manager.Open], with the session token and CSRF token it draws. *)
Definition Open (db : DB) (user : User) (mfaSatisfied : bool) (token csrf : string) (now : Z)
    : DB * (session_error + Session * string) :=
  let preferred := default 0 (u_last_team user) in
  match GetTeamMembershipForUser db (u_id user) preferred with
  | None => (db, inl ErrNoTeam)
  | Some m =>
      let pending :=
        if mfaSatisfied then false
        else if mfa_required (settings db) then negb (hasMFAFactor db (u_id user)) else false in
      match CreateSession db (hashToken token) (u_id user) (tm_team m) csrf (now + Lifetime) pending with
      | None => (db, inl ErrStoreFailed)
      | Some db' =>
          (db', inr (mkSession (next_session db) (u_id user) (tm_team m) csrf (tm_role m) pending, token))
      end
  end.

(** [Manager.CreateChallenge] *)
Definition CreateChallenge (db : DB) (user : Z) (token : string) (now : Z) : DB * (session_error + string) :=
  let db := PurgeExpiredMfaChallenges db now in
  match CreateMfaChallenge db (hashToken token) user (now + ChallengeLifetime) with
  | None => (db, inl ErrStoreFailed)
  | Some db' => (db', inr token)
  end.

(** What a password login comes to: a session, or a challenge to answer
    ([ErrMFARequired] with the challenge token). *)
Inductive login_result :=
| LoggedIn (s : Session) (token : string)
| MFARequired (challenge : string)
| LoginFailed (e : session_error).

(** [Manager.Login] in two halves, since requests interleave between the read
    of the user row and the writes: the read with its checks … *)
Definition login_read (db : DB) (email : string) (now : Z) : session_error + User :=
  match GetUserByEmail db (to_lower (trim_space email)) with
  | None => inl ErrInvalidCredentials
  | Some u =>
      if locked u now then inl ErrAccountLocked
      else if password_login_disabled (settings db) && negb (u_is_root u) then inl ErrPasswordLoginDisabled
      else inr u
  end.

(** … and the verification with its effects; [t1], [t2] are the tokens drawn. *)
Definition password_ok (u : User) (plaintext : string) : bool :=
  match u_password u with
  | None => false
  | Some h => match Verify plaintext h with Some ok => ok | None => false end
  end.
Definition login_finish (db : DB) (u : User) (plaintext t1 t2 : string) (now : Z) : DB * login_result :=
  if negb (password_ok u plaintext)
  then (RecordFailedLogin db (u_id u) MaxFailedLogins LockoutMinutes now, LoginFailed ErrInvalidCredentials)
  else if match GetMfaFactorForUser db (u_id u) with
          | Some f => bool_decide (is_Some (f_confirmed f)) | None => false end
  then match CreateChallenge db (u_id u) t1 now with
       | (db', inr challenge) => (db', MFARequired challenge)
       | (db', inl e) => (db', LoginFailed e)
       end
  else match Open (ClearFailedLogins db (u_id u)) u false t1 t2 now with
       | (db', inr (s, token)) => (db', LoggedIn s token)
       | (db', inl e) => (db', LoginFailed e)
       end.

Definition Login (db : DB) (email plaintext t1 t2 : string) (now : Z) : DB * login_result :=
  match login_read db email now with
  | inl e => (db, LoginFailed e)
  | inr u => login_finish db u plaintext t1 t2 now
  end.

(** ** Two-step login *)

(** [session.hashRecoveryCode]: hyphens, spaces and case are noise. *)
Definition hashRecoveryCode (code : string) : string :=
  hashToken (to_lower (String.string_of_list_ascii
    (filter (λ c, c ≠ "-"%char ∧ c ≠ " "%char) (String.list_ascii_of_string code)))).

(** [session.stepTime] *)
Definition stepTime (step : Z) : Z := step * (Period / second) * second.

(** [TOTP.redeemCode] *)
Definition redeemCode (db : DB) (u : User) (code recoveryCode : string) (now : Z)
    : DB * option session_error :=
  match GetMfaFactorForUser db (u_id u) with
  | None => (db, Some ErrMFANotConfigured)
  | Some f =>
      if negb (bool_decide (is_Some (f_confirmed f))) then (db, Some ErrMFANotConfigured)
      else
        let '(db', n) :=
          if negb (bool_decide (recoveryCode = "")) then
            ConsumeMfaRecoveryCode db (f_id f) (hashRecoveryCode recoveryCode)
          else if negb (bool_decide (code = "")) then
            match Validate (f_secret f) code now with
            | Some matched => TouchMfaFactorUsed db (f_id f) (stepTime matched)
            | None => (db, 0)
            end
          else (db, 0) in
        if 0 <? n then (db', None)
        else (RecordFailedLogin db' (u_id u) MaxFailedLogins LockoutMinutes now, Some ErrMFACodeInvalid)
  end.

(** [TOTP.VerifyLogin] *)
Definition VerifyLogin (db : DB) (challenge code recoveryCode t1 t2 : string) (now : Z)
    : DB * (session_error + Session * string) :=
  if decide (challenge = "") then (db, inl ErrMFAChallengeExpired)
  else match GetMfaChallenge db (hashToken challenge) now with
  | None => (db, inl ErrMFAChallengeExpired)
  | Some chal =>
      match GetUserByID db (ch_user chal) with
      | None => (db, inl ErrMFAChallengeExpired)
      | Some u =>
          if locked u now then (db, inl ErrAccountLocked)
          else match redeemCode db u code recoveryCode now with
          | (db', Some ErrMFANotConfigured) => (db', inl ErrMFAChallengeExpired)
          | (db', Some e) => (db', inl e)
          | (db', None) =>
              match ConsumeMfaChallenge db' (hashToken challenge) now with
              | None => (db', inl ErrMFAChallengeExpired)
              | Some db'' => Open (ClearFailedLogins db'' (u_id u)) u true t1 t2 now
              end
          end
      end
  end.

(** [TOTP.Setup], given the 20 random bytes of the secret. *)
Definition Setup (db : DB) (user : Z) (raw : list Z) : DB * (session_error + string) :=
  match GetUserByID db user with
  | None => (db, inl ErrStoreFailed)
  | Some _ =>
      let secret := GenerateSecret raw in
      match UpsertUnconfirmedMfaFactor db user secret with
      | None => (db, inl ErrMFAAlreadyEnabled)
      | Some db' => (db', inr secret)
      end
  end.

(** [TOTP.Confirm], given the recovery codes it mints. *)
Definition Confirm (db : DB) (user : Z) (code : string) (codes : list string) (now : Z)
    : DB * (session_error + list string) :=
  match GetMfaFactorForUser db user with
  | None => (db, inl ErrMFANotConfigured)
  | Some f =>
      if bool_decide (is_Some (f_confirmed f)) then (db, inl ErrMFAAlreadyEnabled)
      else match Validate (f_secret f) code now with
      | None => (db, inl ErrMFACodeInvalid)
      | Some matched =>
          match ConfirmMfaFactor db user (hashRecoveryCode <$> codes) (stepTime matched) now with
          | None => (db, inl ErrMFAAlreadyEnabled)
          | Some db' => (db', inr codes)
          end
      end
  end.

(** [TOTP.Enabled] *)
Definition Enabled (db : DB) (user : Z) : bool * nat :=
  match GetMfaFactorForUser db user with
  | Some f => if bool_decide (is_Some (f_confirmed f)) then (true, length (f_hashes f)) else (false, O)
  | None => (false, O)
  end.

(** The guard [Disable], [RegenerateRecoveryCodes] and [StepUp] share: an
    unlocked account and a code that redeems. *)
Definition with_code (db : DB) (user : Z) (missing : session_error) (code recoveryCode : string) (now : Z)
    (k : DB → User → DB * option session_error) : DB * option session_error :=
  match GetUserByID db user with
  | None => (db, Some missing)
  | Some u =>
      if locked u now then (db, Some ErrAccountLocked)
      else match redeemCode db u code recoveryCode now with
      | (db', Some e) => (db', Some e)
      | (db', None) => k db' u
      end
  end.

(** [TOTP.Disable] *)
Definition Disable (db : DB) (user : Z) (code recoveryCode : string) (now : Z) : DB * option session_error :=
  with_code db user ErrStoreFailed code recoveryCode now
    (λ db' _, (DeleteMfaFactorForUser db' user, None)).

(** [TOTP.RegenerateRecoveryCodes], given the codes it mints. *)
Definition RegenerateRecoveryCodes (db : DB) (user : Z) (code : string) (codes : list string) (now : Z)
    : DB * option session_error :=
  with_code db user ErrStoreFailed code "" now
    (λ db' _, let '(db'', n) := ReplaceMfaRecoveryCodes db' user (hashRecoveryCode <$> codes) in
              (db'', if n =? 0 then Some ErrMFANotConfigured else None)).

(** [TOTP.StepUp] *)
Definition StepUp (db : DB) (session user : Z) (code recoveryCode : string) (now : Z)
    : DB * option session_error :=
  with_code db user ErrMFANotConfigured code recoveryCode now
    (λ db' u, (SetSessionTotpVerified (ClearFailedLogins db' (u_id u)) session now, None)).

(** ** Requests on a session *)

(** [Manager.SessionFromRequest]: the row behind the cookie. *)
Definition SessionFromRequest (db : DB) (cookie : string) (now : Z) : option SessionRow :=
  if decide (cookie = "") then None else GetSessionByTokenHash db (hashToken cookie) now.

Definition role_name (r : TeamRole) : string :=
  match r with
  | RoleOwner => "owner" | RoleAdmin => "admin" | RoleMember => "member"
  | RoleReviewer => "reviewer" | RoleNone => "none"
  end.

(** [Manager.narrowToViewAs] *)
Definition narrowToViewAs (db : DB) (row : SessionRow) (team : Z) (perms : list string)
    : list string * string :=
  match s_view_custom row with
  | Some id =>
      match custom_roles db !! id with
      | Some r => if cr_team r =? team
                  then (Intersect perms (ExpandGranular (cr_permissions r)), cr_name r)
                  else ([], "unknown role")
      | None => ([], "unknown role")
      end
  | None =>
      match s_view_role row with
      | Some role => (Intersect perms (ExpandGranular (PermissionsForRole role)), role_name role)
      | None => (perms, "")
      end
  end.

(** What a membership grants, before any inspection mode. *)
Definition membership_permissions (db : DB) (m : Membership) (root : bool) : list string :=
  let custom := custom_of db m in
  let granular := PermissionsForMembership (tm_role m) (bool_decide (is_Some custom))
                    (match custom with Some r => cr_permissions r | None => [] end) in
  let perms := ExpandGranular granular in
  if root then perms ++ [PermRoot] else perms.

(** [Manager.Authenticate] *)
Definition Authenticate (db : DB) (cookie : string) (now : Z) : option Identity :=
  row ← SessionFromRequest db cookie now;
  m ← GetTeamMembershipForUser db (s_user row) (default 0 (s_team row));
  u ← users db !! s_user row;
  let perms := membership_permissions db m (u_is_root u) in
  let '(perms, viewAs) := narrowToViewAs db row (tm_team m) perms in
  Some (mkIdentity (s_id row) (tm_team m) perms true (u_is_root u && bool_decide (viewAs = ""))
          (s_mfa_pending row) (Some (s_user row)) viewAs).

(** [Manager.SwitchTeam] *)
Definition SwitchTeam (db : DB) (user session : Z) (teamUUID : string) : DB * (session_error + Z) :=
  match head (filter (λ m, match teams db !! tm_team m with
                           | Some t => bool_decide (t_uuid t = teamUUID) | None => false end = true)
                (memberships_of db user)) with
  | None => (db, inl ErrNotAMember)
  | Some m =>
      let db := SetSessionCurrentTeam db session (tm_team m) in
      let db := SetSessionViewAs db session None None in
      (SetUserLastTeam db user (tm_team m), inr (tm_team m))
  end.

(** [viewAsSystemRoles] *)
Definition viewAsSystemRoles (name : string) : option TeamRole :=
  if decide (name = "admin") then Some RoleAdmin
  else if decide (name = "member") then Some RoleMember
  else if decide (name = "reviewer") then Some RoleReviewer
  else None.

(** [Manager.MayInspectRoles] *)
Definition MayInspectRoles (db : DB) (user preferred : Z) : session_error + bool * Z :=
  match GetTeamMembershipForUser db user preferred, users db !! user with
  | Some m, Some u =>
      inr (u_is_root u || bool_decide (tm_role m = RoleAdmin) || bool_decide (tm_role m = RoleOwner), tm_team m)
  | _, _ => inl ErrStoreFailed
  end.

(** [GetCustomRoleByUUID] *)
Definition GetCustomRoleByUUID (db : DB) (uuid : string) (team : Z) : option (Z * CustomRole) :=
  head (filter (λ x, cr_uuid x.2 = uuid ∧ cr_team x.2 = team) (map_to_list (custom_roles db))).

(** [Manager.SetViewAs] *)
Definition SetViewAs (db : DB) (user session preferred : Z) (role customRoleUUID : string)
    : DB * (session_error + string) :=
  let role := trim_space role in
  let customRoleUUID := trim_space customRoleUUID in
  if bool_decide (role = "") && bool_decide (customRoleUUID = "")
  then (SetSessionViewAs db session None None, inr "")
  else match MayInspectRoles db user preferred with
  | inl e => (db, inl e)
  | inr (false, _) => (db, inl ErrNotAllowedToViewAs)
  | inr (true, team) =>
      if negb (bool_decide (customRoleUUID = "")) then
        match scan_uuid customRoleUUID with
        | None => (db, inl ErrRoleNotFound)
        | Some uuid =>
            match GetCustomRoleByUUID db uuid team with
            | None => (db, inl ErrRoleNotFound)
            | Some (id, r) => (SetSessionViewAs db session None (Some id), inr (cr_name r))
            end
        end
      else match viewAsSystemRoles (to_lower role) with
      | None => (db, inl ErrRoleNotFound)
      | Some r => (SetSessionViewAs db session (Some r) None, inr (role_name r))
      end
  end.

(** [Manager.VerifyCSRF] *)
Definition VerifyCSRF (db : DB) (method cookie header : string) (now : Z) : bool :=
  if bool_decide (method ∈ ["GET"; "HEAD"; "OPTIONS"]) then true
  else if decide (cookie = "") then true
  else match GetSessionByTokenHash db (hashToken cookie) now with
  | Some row =>
      match s_csrf row with
      | Some csrf => negb (bool_decide (header = "")) && bool_decide (header = csrf)
      | None => false
      end
  | None => false
  end.

(** [Manager.Logout] *)
Definition Logout (db : DB) (cookie : string) (now : Z) : DB :=
  match SessionFromRequest db cookie now with
  | Some row => RevokeSession db (s_id row) now
  | None => db
  end.
End Manager.

(** ** Memberships *)

Lemma best_of_Some preferred ms m :
  best_of preferred ms = Some m →
  m ∈ ms ∧ ((∃ k, k ∈ ms ∧ tm_team k = preferred) → tm_team m = preferred).
Proof.
  revert m. induction ms as [|x ms IH]; intros m Hb; [done|]. simpl in Hb.
  destruct (best_of preferred ms) as [b|] eqn:E.
  - destruct (IH b eq_refl) as [Hin Hpref]. split; [destruct (better preferred x b); set_solver|].
    intros (k & [->|Hk]%elem_of_cons & Hkp).
    + unfold better in Hb. rewrite Hkp, Z.eqb_refl in Hb.
      destruct (tm_team b =? preferred) eqn:Eb; simpl in Hb; split_ifs; reflect_bools; lia.
    + specialize (Hpref ltac:(by exists k)). unfold better in Hb. rewrite Hpref, Z.eqb_refl in Hb.
      destruct (tm_team x =? preferred) eqn:Ex; simpl in Hb; split_ifs; reflect_bools; lia.
  - destruct ms as [|y ms]; [|simpl in E; destruct (best_of preferred ms); [destruct (better _ _ _)|]; done].
    simplify_eq. split; [set_solver|]. intros (k & ->%list_elem_of_singleton & ?). done.
Qed.

Lemma best_of_is_Some preferred ms m : m ∈ ms → is_Some (best_of preferred ms).
Proof.
  destruct ms as [|x ms]; [by intros ?%not_elem_of_nil|]. intros _. simpl.
  destruct (best_of preferred ms); [destruct (better _ _ _)|]; eauto.
Qed.

Lemma elem_of_memberships_of db user m :
  m ∈ memberships_of db user ↔ m ∈ memberships db ∧ tm_user m = user ∧ live_team db (tm_team m) = true.
Proof. unfold memberships_of. rewrite list_elem_of_filter. tauto. Qed.

Lemma membership_spec db user preferred m :
  GetTeamMembershipForUser db user preferred = Some m →
  m ∈ memberships db ∧ tm_user m = user ∧ live_team db (tm_team m) = true ∧
  ((∃ k, k ∈ memberships_of db user ∧ tm_team k = preferred) → tm_team m = preferred).
Proof.
  unfold GetTeamMembershipForUser. destruct (users db !! user); [|done].
  intros [Hin Hp]%best_of_Some. apply elem_of_memberships_of in Hin. tauto.
Qed.

(** ** Authentication *)

Lemma system_role_not_root role : PermRoot ∉ ExpandGranular (PermissionsForRole role).
Proof.
  assert (H : bool_decide (PermRoot ∈ ExpandGranular (PermissionsForRole role)) = false)
    by (destruct role; vm_compute; reflexivity).
  by apply bool_decide_eq_false in H.
Qed.

(** Custom roles are written by [ValidateCustomPermissions] only. *)
Definition roles_valid (db : DB) : Prop :=
  ∀ i r, custom_roles db !! i = Some r →
    ∃ perms composer, ValidateCustomPermissions perms composer = inr (cr_permissions r).

Lemma custom_role_not_root perms composer closed :
  ValidateCustomPermissions perms composer = inr closed → PermRoot ∉ ExpandGranular closed.
Proof.
  intros H. apply Validate_inr in H as (-> & Hnr & _). intros Hr.
  apply elem_of_ExpandGranular in Hr as [Hc|(p & Hc & Hp)].
  - apply (proj1 (Closure_idemp _ _)) in Hc. destruct (Hnr _ Hc) as (socle & Hs & _).
    rewrite Catalog_root_None in Hs. discriminate Hs.
  - apply (proj1 (Closure_idemp _ _)) in Hc. destruct (Hnr _ Hc) as (socle & Hs & Hne).
    rewrite Hp in Hs. injection Hs as Hs. exact (Hne (eq_sym Hs)).
Qed.

Lemma membership_not_root db m :
  roles_valid db → PermRoot ∉ membership_permissions db m false.
Proof.
  intros Hv. unfold membership_permissions, PermissionsForMembership.
  destruct (custom_of db m) as [r|] eqn:Hc.
  - rewrite bool_decide_eq_true_2 by eauto. unfold custom_of in Hc.
    destruct (tm_custom m) as [i|]; [|discriminate Hc]. simpl in Hc.
    destruct (Hv i r Hc) as (perms & composer & H). by eapply custom_role_not_root.
  - rewrite bool_decide_eq_false_2 by (by intros [? ?]). apply system_role_not_root.
Qed.

Lemma Has_root_elem perms : Has perms PermRoot = true ↔ PermRoot ∈ perms.
Proof.
  rewrite Has_grants. split.
  - intros (g & Hg & [->|[->|[H _]]]); [done|done|discriminate H].
  - intros H. exists PermRoot. split; [done|by left].
Qed.

(** The narrowing law of the inspection mode. *)
Lemma narrow_narrows db row team perms p :
  p ∈ fst (narrowToViewAs db row team perms) → p ∈ perms.
Proof.
  unfold narrowToViewAs. destruct (s_view_custom row) as [i|].
  - destruct (custom_roles db !! i) as [r|]; [|by intros ?%not_elem_of_nil].
    destruct (cr_team r =? team); [|by intros ?%not_elem_of_nil].
    by intros [? _]%elem_of_Intersect.
  - destruct (s_view_role row); [|done]. by intros [? _]%elem_of_Intersect.
Qed.

Lemma Has_mono a b r : (∀ p, p ∈ a → p ∈ b) → Has a r = true → Has b r = true.
Proof. rewrite !Has_grants. intros Hab (g & Hg & H). eauto. Qed.

Section Facts.
Context (hashToken : string → string) (Verify : string → string → option bool).
Context (scan_uuid : string → option string).

Lemma Authenticate_inv db cookie now id :
  Authenticate hashToken db cookie now = Some id →
  ∃ row u m,
    cookie ≠ "" ∧ sessions db !! hashToken cookie = Some row ∧ s_revoked row = None ∧ now < s_expires row ∧
    users db !! s_user row = Some u ∧ u_deleted u = false ∧
    GetTeamMembershipForUser db (s_user row) (default 0 (s_team row)) = Some m ∧
    id = (let perms := membership_permissions db m (u_is_root u) in
          let n := narrowToViewAs db row (tm_team m) perms in
          mkIdentity (s_id row) (tm_team m) (fst n) true (u_is_root u && bool_decide (snd n = ""))
            (s_mfa_pending row) (Some (s_user row)) (snd n)).
Proof.
  unfold Authenticate, SessionFromRequest, GetSessionByTokenHash.
  destruct (decide (cookie = "")) as [|Hc]; [done|].
  destruct (sessions db !! hashToken cookie) as [row|]; [|done]. simpl.
  destruct (users db !! s_user row) as [u|] eqn:Hu; [|done]. simpl.
  destruct (_ && _) eqn:Hlive; [|done]. simpl.
  destruct (GetTeamMembershipForUser _ _ _) as [m|] eqn:Hm; [|done]. simpl. rewrite Hu. simpl.
  destruct (narrowToViewAs _ _ _ _) as [perms view] eqn:Hn. intros [= <-].
  exists row, u, m. rewrite Hn. reflect_bools. auto 10.
Qed.

(** Whom an accepted cookie speaks for: it is that of a session neither revoked
    nor expired, of a user that still exists, acting in a live team this user is
    a member of; it grants nothing beyond that membership (plus the root
    wildcard of the instance root), and the wildcard only to the instance root,
    outside the inspection mode. *)
Definition speaks_for (db : DB) (cookie : string) (now : Z) (id : Identity) (row : SessionRow) : Prop :=
  ∃ u m,
    sessions db !! hashToken cookie = Some row ∧ s_revoked row = None ∧ now < s_expires row ∧
    users db !! s_user row = Some u ∧ u_deleted u = false ∧
    m ∈ memberships db ∧ tm_user m = s_user row ∧ live_team db (tm_team m) = true ∧
    id_team id = tm_team m ∧ id_user id = Some (s_user row) ∧
    (∀ r, Has (id_permissions id) r = true → Has (membership_permissions db m (u_is_root u)) r = true) ∧
    (IsRoot id = true → u_is_root u = true ∧ s_view_role row = None ∧ s_view_custom row = None).

Lemma Authenticate_speaks_for db cookie now id :
  roles_valid db → Authenticate hashToken db cookie now = Some id →
  ∃ row, speaks_for db cookie now id row.
Proof.
  intros Hv Ha. destruct (Authenticate_inv _ _ _ _ Ha) as (row & u & m & Hc & Hs & Hr & He & Hu & Hd & Hm & ->).
  exists row, u, m. destruct (membership_spec _ _ _ _ Hm) as (Hin & Huser & Hlive & _).
  split_and!; try done.
  - simpl. intros r. apply Has_mono. intros p. apply narrow_narrows.
  - unfold IsRoot. simpl. intros Hroot%Has_root_elem. split.
    + destruct (u_is_root u); [done|]. exfalso. eapply (membership_not_root db m Hv).
      by eapply narrow_narrows.
    + revert Hroot. unfold narrowToViewAs. destruct (s_view_custom row) as [i|].
      * destruct (custom_roles db !! i) as [r|] eqn:Er; [|by intros ?%not_elem_of_nil].
        destruct (cr_team r =? tm_team m); [|by intros ?%not_elem_of_nil]. simpl.
        intros [_ Hx]%elem_of_Intersect. exfalso. destruct (Hv i r Er) as (ps & co & Hval).
        by eapply custom_role_not_root.
      * destruct (s_view_role row) as [role|]; [|done]. simpl.
        intros [_ Hx]%elem_of_Intersect. exfalso. by eapply system_role_not_root.
Qed.

(** ** The manager behind the middleware *)

(** The manager's store and clock, and what a browser sends: the method, the
    session cookie ("" when there is none) and the CSRF header. *)
Record manager := mkManager { mg_db : DB; mg_now : Z }.
Record browser := mkBrowser { br_method : string; br_cookie : string; br_csrf : string }.

#[local] Instance Manager_authenticator : SessionAuthenticator manager browser := {|
  session_identity m b := Authenticate hashToken (mg_db m) (br_cookie b) (mg_now m);
  session_csrf m b := VerifyCSRF hashToken (mg_db m) (br_method b) (br_cookie b) (br_csrf b) (mg_now m)
|}.

(** A request that may change state carries the CSRF token of its session. *)
Definition intended (b : browser) (row : SessionRow) : Prop :=
  br_method b ∈ ["GET"; "HEAD"; "OPTIONS"] ∨ (br_csrf b ≠ "" ∧ s_csrf row = Some (br_csrf b)).

Definition browser_speaks_for (m : manager) (b : browser) (id : Identity) : Prop :=
  ∃ row, speaks_for (mg_db m) (br_cookie b) (mg_now m) id row ∧ intended b row.

Lemma VerifyCSRF_intended db b now row :
  br_cookie b ≠ "" → sessions db !! hashToken (br_cookie b) = Some row →
  VerifyCSRF hashToken db (br_method b) (br_cookie b) (br_csrf b) now = true → intended b row.
Proof.
  intros Hc Hs. unfold VerifyCSRF, intended, GetSessionByTokenHash. rewrite Hs. simpl.
  case_bool_decide as Hm; [by left|]. rewrite decide_False by done.
  destruct (users db !! s_user row) as [u|]; [simpl|done].
  destruct (_ && _ && _); [|done]. destruct (s_csrf row) as [csrf|]; [|done].
  intros H. reflect_bools. right. subst. auto.
Qed.

Lemma Authenticate_promise m b id :
  roles_valid (mg_db m) → session_identity m b = Some id → session_csrf m b = true →
  browser_speaks_for m b id.
Proof.
  simpl. intros Hv Ha Hcsrf.
  destruct (Authenticate_speaks_for _ _ _ _ Hv Ha) as (row & Hrow). exists row. split; [done|].
  destruct Hrow as (u & mb & Hs & _). apply Authenticate_inv in Ha as (? & ? & ? & Hc & _).
  by eapply VerifyCSRF_intended.
Qed.

#[local] Instance Manager_promises : SessionPromises manager browser.
Proof.
  refine {| session_ok := λ m, roles_valid (mg_db m); session_speaks_for := browser_speaks_for;
            session_promise := Authenticate_promise |}.
  intros m b id Ha. simpl in Ha. apply Authenticate_inv in Ha as (? & ? & ? & _ & _ & _ & _ & _ & _ & _ & ->).
  reflexivity.
Defined.

(** C35: whom a request served on a session cookie speaks for, through the whole
    middleware: the cookie is that of a session neither revoked nor expired, of
    a user that still exists, acting in a live team this user is a member of;
    the identity grants nothing beyond that membership, the root wildcard only
    to the instance root outside the inspection mode; and a request that may
    change state carries the CSRF token of that session. *)
Theorem served_session_confined (HashToken : string → string) (env : token_env)
    (r : api_request manager browser) (id : Identity) m :
  Handler HashToken env r = Served (Some id) → id_session id = true →
  rq_sessions r = Some m → roles_valid (mg_db m) →
  ∃ row, speaks_for (mg_db m) (br_cookie (rq_browser r)) (mg_now m) id row ∧ intended (rq_browser r) row.
Proof.
  intros Hh Hs Hr Hv.
  destruct (proj1 (Handler_doors HashToken env r id) Hh) as [_ [(_ & m' & Hm & Ha & Hc)|(_ & Ht & _)]].
  - rewrite Hm in Hr. injection Hr as ->. exact (session_promise m (rq_browser r) id Hv Ha Hc).
  - apply ResolveAPIToken_not_session in Ht. congruence.
Qed.

(** ** Role inspection *)

(** The part of [Authenticate] that comes before the inspection mode. *)
Definition resolve (db : DB) (cookie : string) (now : Z) : option (SessionRow * Membership * User) :=
  row ← SessionFromRequest hashToken db cookie now;
  m ← GetTeamMembershipForUser db (s_user row) (default 0 (s_team row));
  u ← users db !! s_user row;
  Some (row, m, u).

Definition identity_of (db : DB) (x : SessionRow * Membership * User) : Identity :=
  let '(row, m, u) := x in
  let perms := membership_permissions db m (u_is_root u) in
  let n := narrowToViewAs db row (tm_team m) perms in
  mkIdentity (s_id row) (tm_team m) (fst n) true (u_is_root u && bool_decide (snd n = ""))
    (s_mfa_pending row) (Some (s_user row)) (snd n).

Lemma Authenticate_resolve db cookie now :
  Authenticate hashToken db cookie now = identity_of db <$> resolve db cookie now.
Proof.
  unfold Authenticate, resolve, identity_of.
  destruct (SessionFromRequest _ _ _ _) as [row|]; [|done]. simpl.
  destruct (GetTeamMembershipForUser _ _ _) as [m|]; [|done]. simpl.
  destruct (users db !! s_user row) as [u|]; [|done]. simpl.
  by destruct (narrowToViewAs _ _ _ _).
Qed.

(** Changing only the inspection columns of a session changes nothing else
    about whom the cookie resolves to. *)
Lemma resolve_view db id role custom cookie now :
  resolve (SetSessionViewAs db id role custom) cookie now =
  (λ '(row, m, u), (if s_id row =? id
                    then mkSessionRow (s_id row) (s_user row) (s_team row) (s_csrf row) (s_expires row)
                           (s_revoked row) (s_mfa_pending row) (s_totp_verified row) role custom
                    else row, m, u)) <$> resolve db cookie now.
Proof.
  unfold resolve, SessionFromRequest, GetSessionByTokenHash.
  destruct (decide (cookie = "")); [done|]. unfold SetSessionViewAs, update_session. simpl.
  rewrite lookup_fmap. destruct (sessions db !! hashToken cookie) as [row|]; [|done]. simpl.
  destruct (s_id row =? id) eqn:E; simpl;
    (destruct (users db !! s_user row) as [u|] eqn:Hu; [|done]); simpl;
    (destruct (_ && _); [|done]); simpl;
    change (GetTeamMembershipForUser (set_sessions db _ _)) with (GetTeamMembershipForUser db);
    (destruct (GetTeamMembershipForUser db _ _) as [m|]; [|done]); simpl; rewrite Hu; simpl; by rewrite E.
Qed.

(** The inspection mode can only narrow: whatever is asked of [SetViewAs],
    by whomever, afterwards every cookie resolves to the same team as it would
    outside the mode, and to a subset of the permissions it has outside the
    mode; leaving the mode is always possible, restores exactly the own
    permissions of the membership, and needs no authority. *)
Theorem view_as_only_narrows db user session preferred role custom cookie now :
  let own := SetSessionViewAs db session None None in
  let db' := fst (SetViewAs scan_uuid db user session preferred role custom) in
  (∀ id', Authenticate hashToken db' cookie now = Some id' →
     ∃ id, Authenticate hashToken own cookie now = Some id ∧ id_team id' = id_team id ∧
       ∀ r, Has (id_permissions id') r = true → Has (id_permissions id) r = true) ∧
  SetViewAs scan_uuid db user session preferred " " "" = (own, inr "") ∧
  (∀ row m u, resolve db cookie now = Some (row, m, u) → s_id row = session →
     ∃ id, Authenticate hashToken own cookie now = Some id ∧ id_view_as id = "" ∧
       id_permissions id = membership_permissions db m (u_is_root u)).
Proof.
  intros own db'.
  assert (Hown : ∀ db1, (db1 = db ∨ ∃ r c, db1 = SetSessionViewAs db session r c) →
    ∀ id', Authenticate hashToken db1 cookie now = Some id' →
     ∃ id, Authenticate hashToken own cookie now = Some id ∧ id_team id' = id_team id ∧
       ∀ r, Has (id_permissions id') r = true → Has (id_permissions id) r = true).
  { intros db1 Hdb1 id' Ha. rewrite Authenticate_resolve in Ha |- *. unfold own. rewrite resolve_view.
    assert (Hres : ∃ row m u row', resolve db cookie now = Some (row, m, u) ∧ s_id row' = s_id row ∧
      ((s_id row =? session) = false → row' = row) ∧ id' = identity_of db (row', m, u)).
    { destruct Hdb1 as [->|(r & c & ->)].
      - destruct (resolve db cookie now) as [[[row m] u]|]; [|done]. injection Ha as <-.
        exists row, m, u, row. auto.
      - rewrite resolve_view in Ha. destruct (resolve db cookie now) as [[[row m] u]|]; [|done].
        cbn -[identity_of] in Ha. injection Ha as <-. exists row, m, u. eexists. split; [done|]. split; [|split; [|done]].
        + by destruct (s_id row =? session).
        + by intros ->. }
    destruct Hres as (row & m & u & row' & Hr & Hid & Hsame & ->). rewrite Hr. cbn -[identity_of].
    eexists. split; [done|]. split; [done|]. intros r.
    destruct (s_id row =? session) eqn:E; [|by rewrite Hsame].
    apply Has_mono. intros p Hp. by apply narrow_narrows in Hp. }
  split; [|split].
  - apply Hown. unfold db', SetViewAs. cbv zeta. repeat case_match; simplify_eq/=; eauto.
  - reflexivity.
  - intros row m u Hr Hs. rewrite Authenticate_resolve. unfold own. rewrite resolve_view, Hr.
    cbn -[identity_of]. rewrite Hs, Z.eqb_refl. eexists. split; [done|]. by split.
Qed.

(** ** Switching teams *)

(** [SwitchTeam] moves a session only into a live team the user is a member
    of — then the very next request acts in that team, with the permissions of
    a membership of that team and outside any inspection mode; otherwise it
    answers "team not found" and changes nothing. *)
Theorem SwitchTeam_moves db user teamUUID cookie now row u :
  SessionFromRequest hashToken db cookie now = Some row → s_user row = user →
  users db !! user = Some u →
  match SwitchTeam db user (s_id row) teamUUID with
  | (db', inr team) =>
      (∃ m t, m ∈ memberships db ∧ tm_user m = user ∧ tm_team m = team ∧
         teams db !! team = Some t ∧ t_uuid t = teamUUID ∧ t_deleted t = false) ∧
      (∃ id m, Authenticate hashToken db' cookie now = Some id ∧ id_team id = team ∧ id_view_as id = "" ∧
         m ∈ memberships db ∧ tm_user m = user ∧ tm_team m = team ∧
         id_permissions id = membership_permissions db m (u_is_root u))
  | (db', inl e) => db' = db ∧ e = ErrNotAMember ∧
      ∀ m t, m ∈ memberships db → tm_user m = user → teams db !! tm_team m = Some t →
        t_deleted t = false → t_uuid t ≠ teamUUID
  end.
Proof.
  clear Verify scan_uuid. intros Hrow Huser Hu. unfold SwitchTeam.
  destruct (head _) as [m|] eqn:Hh.
  - assert (Hin : m ∈ filter (λ m, match teams db !! tm_team m with
                           | Some t => bool_decide (t_uuid t = teamUUID) | None => false end = true)
                (memberships_of db user)).
    { destruct (filter _ _); [done|]. injection Hh as ->. set_solver. }
    apply list_elem_of_filter in Hin as [Huuid Hmem].
    destruct (proj1 (elem_of_memberships_of _ _ _) Hmem) as (Hm & Hmu & Hlive).
    destruct (teams db !! tm_team m) as [t|] eqn:Ht; [|done]. apply bool_decide_eq_true in Huuid.
    assert (Hdel : t_deleted t = false) by (unfold live_team in Hlive; rewrite Ht in Hlive; by destruct (t_deleted t)).
    split; [by exists m, t|].
    unfold SessionFromRequest, GetSessionByTokenHash in Hrow. destruct (decide (cookie = "")) as [|Hc]; [done|].
    destruct (sessions db !! hashToken cookie) as [row'|] eqn:Hs; [|done]. simpl in Hrow.
    destruct (users db !! s_user row') as [u'|] eqn:Hu'; [|done]. simpl in Hrow.
    destruct (_ && _) eqn:Hlv; [|done]. simplify_eq/=.
    apply andb_prop in Hlv as [[Hrev Hexp]%andb_prop Hdl].
    unfold Authenticate, SessionFromRequest, GetSessionByTokenHash. rewrite decide_False by done.
    unfold SetUserLastTeam, SetSessionViewAs, SetSessionCurrentTeam, update_session. simpl.
    rewrite !lookup_fmap, Hs. simpl. rewrite Z.eqb_refl. simpl. rewrite Hrev. simpl.
    rewrite Z.eqb_refl. simpl. rewrite lookup_alter_eq, Hu'. simpl.
    rewrite Hrev, Hexp, Hdl. simpl.
    unfold GetTeamMembershipForUser. simpl. rewrite lookup_alter_eq, Hu'. simpl.
    change (memberships_of _ (s_user row)) with (memberships_of db (s_user row)).
    destruct (best_of_is_Some (tm_team m) (memberships_of db (s_user row)) m Hmem) as [b Hb]. rewrite Hb. simpl.
    apply best_of_Some in Hb as [Hbin Hbt]. specialize (Hbt ltac:(by exists m)).
    destruct (proj1 (elem_of_memberships_of _ _ _) Hbin) as (Hbm & Hbu & _).
    eexists _, b. split; [reflexivity|]. auto 10.
  - split; [done|]. split; [done|]. intros m t Hm Hmu Ht Hd Huuid.
    assert (Hin : m ∈ filter (λ m, match teams db !! tm_team m with
                           | Some t => bool_decide (t_uuid t = teamUUID) | None => false end = true)
                (memberships_of db user)).
    { apply list_elem_of_filter. rewrite Ht, Huuid. split; [by apply bool_decide_eq_true_2|].
      apply elem_of_memberships_of. unfold live_team. by rewrite Ht, Hd. }
    destruct (filter _ _); [by apply not_elem_of_nil in Hin|done].
Qed.
(** ** Sequences of requests *)

Inductive request :=
| RLogin (email plaintext t1 t2 : string)
| RVerify (challenge code recovery t1 t2 : string)
| RSetup (user : Z) (raw : list Z)
| RConfirm (user : Z) (code : string) (codes : list string)
| RDisable (user : Z) (code recovery : string)
| RRegenerate (user : Z) (code : string) (codes : list string)
| RStepUp (session user : Z) (code recovery : string)
| RSwitch (user session : Z) (teamUUID : string)
| RViewAs (user session preferred : Z) (role custom : string)
| RLogout (cookie : string).

Definition handle (db : DB) (r : request) (now : Z) : DB :=
  match r with
  | RLogin email pw t1 t2 => fst (Login hashToken Verify db email pw t1 t2 now)
  | RVerify ch code rc t1 t2 => fst (VerifyLogin hashToken db ch code rc t1 t2 now)
  | RSetup user raw => fst (Setup db user raw)
  | RConfirm user code codes => fst (Confirm hashToken db user code codes now)
  | RDisable user code rc => fst (Disable hashToken db user code rc now)
  | RRegenerate user code codes => fst (RegenerateRecoveryCodes hashToken db user code codes now)
  | RStepUp session user code rc => fst (StepUp hashToken db session user code rc now)
  | RSwitch user session uuid => fst (SwitchTeam db user session uuid)
  | RViewAs user session pref role custom => fst (SetViewAs scan_uuid db user session pref role custom)
  | RLogout cookie => Logout hashToken db cookie now
  end.

(** Requests served one after the other, each some time after the previous. *)
Fixpoint serve (db : DB) (now : Z) (rs : list (Z * request)) : DB * Z :=
  match rs with
  | [] => (db, now)
  | (d, r) :: rest => serve (handle db r (now + d)) (now + d) rest
  end.

(** *** Users *)

(** What one request may do to a user row. *)
Definition user_step (now : Z) (u u' : User) : Prop :=
  u_failed u' = u_failed u ∧ u_locked_until u' = u_locked_until u ∨
  u_failed u' = 0 ∨
  locked u now = false ∧ u_failed u' = u_failed u + 1 ∧
    (MaxFailedLogins <= u_failed u' → u_locked_until u' = Some (now + LockoutMinutes * minute)).

Definition users_ok (db : DB) : Prop := ∀ i u, users db !! i = Some u → u_id u = i.

Definition users_evolve (now : Z) (us us' : gmap Z User) : Prop :=
  ∀ i u', us' !! i = Some u' → ∃ u, us !! i = Some u ∧ user_step now u u' ∧ u_id u' = u_id u.

Lemma users_evolve_refl now us : users_evolve now us us.
Proof. intros i u Hu. exists u. unfold user_step. auto. Qed.

Lemma users_evolve_alter now us i f :
  (∀ u, us !! i = Some u → user_step now u (f u) ∧ u_id (f u) = u_id u) →
  users_evolve now us (alter f i us).
Proof.
  intros Hf j u' Hj. destruct (decide (i = j)) as [<-|Hne].
  - rewrite lookup_alter_eq in Hj. destruct (us !! i) as [u|] eqn:Hu; [|done]. injection Hj as <-.
    exists u. auto.
  - rewrite lookup_alter_ne in Hj by done. exists u'. unfold user_step. auto.
Qed.

Lemma clear_evolves now db i : users_evolve now (users db) (users (ClearFailedLogins db i)).
Proof. apply users_evolve_alter. intros u _. unfold user_step. simpl. auto. Qed.

Lemma record_evolves now db u :
  users_ok db → users db !! u_id u = Some u → locked u now = false →
  users_evolve now (users db) (users (RecordFailedLogin db (u_id u) MaxFailedLogins LockoutMinutes now)).
Proof.
  intros Hok Hu Hl. apply users_evolve_alter. intros u2 Hu2. rewrite Hu in Hu2. injection Hu2 as <-.
  split; [|done]. right; right. split; [done|]. simpl. split; [done|]. intros Hm.
  rewrite (proj2 (Z.leb_le _ _)); done.
Qed.

Lemma GetUserByEmail_spec db email u :
  GetUserByEmail db email = Some u → ∃ i, users db !! i = Some u ∧ u_email u = email.
Proof.
  unfold GetUserByEmail. destruct (filter _ _) as [|[i x] l] eqn:Hf; [done|]. intros [= <-].
  assert (Hin : (i, x) ∈ filter (λ y : Z * User, u_email y.2 = email ∧ u_deleted y.2 = false) (map_to_list (users db)))
    by (rewrite Hf; set_solver).
  apply list_elem_of_filter in Hin as [[? _] Hin]. apply elem_of_map_to_list in Hin. eauto.
Qed.

Lemma GetUserByID_spec db i u : GetUserByID db i = Some u → users db !! i = Some u.
Proof. unfold GetUserByID. destruct (users db !! i); [|done]. simpl. by destruct (u_deleted _). Qed.

(** A code redemption touches at most the account it is for. *)
Lemma redeem_evolves now db u code rc :
  users_ok db → users db !! u_id u = Some u → locked u now = false →
  users_evolve now (users db) (users (fst (redeemCode hashToken db u code rc now))).
Proof.
  intros Hok Hu Hl. unfold redeemCode. destruct (GetMfaFactorForUser _ _) as [f|]; [|apply users_evolve_refl].
  destruct (bool_decide _); [|apply users_evolve_refl]. cbn [negb].
  match goal with |- context [let '(_, _) := ?x in _] => assert (Hx : users (fst x) = users db) end.
  { repeat case_match; done. }
  match goal with |- context [let '(_, _) := ?x in _] => destruct x as [db' n] end.
  simpl in Hx. destruct (0 <? n); simpl; rewrite Hx; [apply users_evolve_refl|].
  by apply record_evolves.
Qed.

Lemma redeem_ok_users db u code rc now db' :
  redeemCode hashToken db u code rc now = (db', None) → users db' = users db.
Proof.
  unfold redeemCode. destruct (GetMfaFactorForUser _ _) as [f|]; [|done].
  destruct (bool_decide _); [|done]. cbn [negb].
  match goal with |- context [let '(_, _) := ?x in _] => assert (Hx : users (fst x) = users db) end.
  { repeat case_match; done. }
  match goal with |- context [let '(_, _) := ?x in _] => destruct x as [db1 n] end.
  destruct (0 <? n); [|done]. by intros [= <-].
Qed.

Lemma with_code_evolves now db user missing code rc k :
  users_ok db →
  (∀ db' u, users db' = users db → users_evolve now (users db) (users (fst (k db' u)))) →
  users_evolve now (users db) (users (fst (with_code hashToken db user missing code rc now k))).
Proof.
  intros Hok Hk. unfold with_code. destruct (GetUserByID db user) as [u|] eqn:Hu; [|apply users_evolve_refl].
  apply GetUserByID_spec in Hu. destruct (locked u now) eqn:Hl; [apply users_evolve_refl|].
  assert (Hid : users db !! u_id u = Some u) by (by rewrite (Hok _ _ Hu)).
  pose proof (redeem_evolves now db u code rc Hok Hid Hl) as Hr.
  destruct (redeemCode _ _ _ _ _ _) as [db' [e|]] eqn:Hred; [done|].
  apply Hk. by eapply redeem_ok_users.
Qed.

Lemma Open_users db u b t1 t2 now : users (fst (Open hashToken db u b t1 t2 now)) = users db.
Proof.
  unfold Open, CreateSession. destruct (GetTeamMembershipForUser _ _ _); [|done].
  by destruct (sessions db !! hashToken t1).
Qed.

Lemma users_evolve_eq now us us' us'' : us'' = us' → users_evolve now us us' → users_evolve now us us''.
Proof. by intros ->. Qed.
Lemma login_evolves now db email pw t1 t2 :
  users_ok db → users_evolve now (users db) (users (fst (Login hashToken Verify db email pw t1 t2 now))).
Proof.
  intros Hok. unfold Login, login_read.
  destruct (GetUserByEmail _ _) as [u|] eqn:Hu; [|apply users_evolve_refl].
  apply GetUserByEmail_spec in Hu as (i & Hu & _).
  assert (Hid : users db !! u_id u = Some u) by (by rewrite (Hok _ _ Hu)).
  destruct (locked u now) eqn:Hl; [apply users_evolve_refl|].
  destruct (_ && _); [apply users_evolve_refl|]. unfold login_finish.
  destruct (password_ok _ _ _); cbn [negb]; [|by apply record_evolves].
  match goal with |- context [if ?b then _ else _] => destruct b end.
  - unfold CreateChallenge, CreateMfaChallenge.
    destruct (challenges _ !! _); apply users_evolve_refl.
  - pose proof (Open_users (ClearFailedLogins db (u_id u)) u false t1 t2 now) as Ho.
    destruct (Open _ _ _ _ _ _) as [db' [e|[s tok]]]; simpl in *; rewrite Ho; apply clear_evolves.
Qed.

Lemma verify_evolves now db ch code rc t1 t2 :
  users_ok db → users_evolve now (users db) (users (fst (VerifyLogin hashToken db ch code rc t1 t2 now))).
Proof.
  intros Hok. unfold VerifyLogin. destruct (decide (ch = "")); [apply users_evolve_refl|].
  destruct (GetMfaChallenge _ _ _) as [chal|]; [|apply users_evolve_refl].
  destruct (GetUserByID _ _) as [u|] eqn:Hu; [|apply users_evolve_refl]. apply GetUserByID_spec in Hu.
  assert (Hid : users db !! u_id u = Some u) by (by rewrite (Hok _ _ Hu)).
  destruct (locked u now) eqn:Hl; [apply users_evolve_refl|].
  pose proof (redeem_evolves now db u code rc Hok Hid Hl) as Hr.
  destruct (redeemCode _ _ _ _ _ _) as [db' [e|]] eqn:Hred; [by destruct e|].
  pose proof (redeem_ok_users _ _ _ _ _ _ Hred) as Hus.
  unfold ConsumeMfaChallenge. destruct (GetMfaChallenge _ _ _); [|done].
  rewrite Open_users, <- Hus. exact (clear_evolves now (set_challenges db' _) (u_id u)).
Qed.

Lemma handle_evolves db r now : users_ok db → users_evolve now (users db) (users (handle db r now)).
Proof.
  intros Hok. destruct r as [email pw t1 t2|ch code rc t1 t2|user raw|user code codes|user code rc
    |user code codes|session user code rc|user session uuid|user session pref role custom|cookie]; simpl.
  - by apply login_evolves.
  - by apply verify_evolves.
  - unfold Setup, UpsertUnconfirmedMfaFactor. repeat case_match; simplify_eq/=; apply users_evolve_refl.
  - unfold Confirm, ConfirmMfaFactor. repeat case_match; simplify_eq/=; apply users_evolve_refl.
  - apply with_code_evolves; [done|]. intros db' u Hus. simpl. rewrite Hus. apply users_evolve_refl.
  - apply with_code_evolves; [done|]. intros db' u Hus. unfold ReplaceMfaRecoveryCodes.
    repeat case_match; simplify_eq/=; rewrite Hus; apply users_evolve_refl.
  - apply with_code_evolves; [done|]. intros db' u Hus. simpl. rewrite <- Hus. apply clear_evolves.
  - unfold SwitchTeam. destruct (head _) as [m|]; [|apply users_evolve_refl]. simpl.
    apply users_evolve_alter. intros u _. unfold user_step. simpl. auto.
  - unfold SetViewAs. repeat case_match; simplify_eq/=; apply users_evolve_refl.
  - unfold Logout. destruct (SessionFromRequest _ _ _ _); apply users_evolve_refl.
Qed.

Lemma handle_users_ok db r now : users_ok db → users_ok (handle db r now).
Proof.
  intros Hok i u' Hu'. destruct (handle_evolves db r now Hok i u' Hu') as (u & Hu & _ & ->). by apply Hok.
Qed.

(** *** The guess budget *)

Definition lockout : Z := LockoutMinutes * minute.

(** From the fifth failure on, each one costs a whole lockout period. *)
Definition lock_ok (t0 now : Z) (u : User) : Prop :=
  u_failed u < MaxFailedLogins ∨
  ∃ t, u_locked_until u = Some t ∧ t <= now + lockout ∧
       t0 + (u_failed u - MaxFailedLogins + 1) * lockout <= t.

Lemma lock_ok_step t0 now d u u' :
  0 <= d → t0 <= now → lock_ok t0 now u → user_step (now + d) u u' → lock_ok t0 (now + d) u'.
Proof.
  unfold lock_ok, user_step, locked, lockout. intros Hd Ht Hok Hs.
  assert (Hmin : 0 < minute) by (unfold minute, second; lia).
  change MaxFailedLogins with 5 in *. change LockoutMinutes with 15 in *.
  destruct Hs as [[Hf Hl]|[Hf|(Hnl & Hf & Hl)]].
  - rewrite Hf, Hl. destruct Hok as [?|(t & -> & ? & ?)]; [by left|right]. exists t. split_and!; [done|lia|lia].
  - left. lia.
  - destruct (Z_lt_le_dec (u_failed u') 5) as [|H5]; [by left|]. right. specialize (Hl H5).
    exists (now + d + 15 * minute). split; [done|]. split; [lia|].
    destruct Hok as [?|(t & Hlock & ? & Hb)]; [replace (u_failed u') with 5 by lia; lia|].
    rewrite Hlock in Hnl. apply Z.ltb_ge in Hnl. rewrite Hf. lia.
Qed.

(** The account whose password or code a request was compared with, and did not
    match: the request is told so.  (A wrong code at the confirmation of a factor
    that is not yet in use protects nothing.) *)
Definition wrong_guess (db : DB) (r : request) (now : Z) : option Z :=
  match r with
  | RLogin email pw _ _ =>
      match login_read db email now with
      | inr u => if password_ok Verify u pw then None else Some (u_id u)
      | inl _ => None
      end
  | RVerify ch code rc t1 t2 =>
      match snd (VerifyLogin hashToken db ch code rc t1 t2 now) with
      | inl ErrMFACodeInvalid => ch_user <$> GetMfaChallenge db (hashToken ch) now
      | _ => None
      end
  | RDisable user code rc =>
      match snd (Disable hashToken db user code rc now) with Some ErrMFACodeInvalid => Some user | _ => None end
  | RRegenerate user code codes =>
      match snd (RegenerateRecoveryCodes hashToken db user code codes now) with Some ErrMFACodeInvalid => Some user | _ => None end
  | RStepUp session user code rc =>
      match snd (StepUp hashToken db session user code rc now) with Some ErrMFACodeInvalid => Some user | _ => None end
  | _ => None
  end.

(** The account whose owner a request has proven to be its sender: the password
    where there is no second factor, else a code after it, or a code again. *)
Definition proven (db : DB) (r : request) (now : Z) : option Z :=
  match r with
  | RLogin email pw _ _ =>
      match login_read db email now with
      | inr u =>
          if password_ok Verify u pw &&
             negb match GetMfaFactorForUser db (u_id u) with Some f => bool_decide (is_Some (f_confirmed f)) | None => false end
          then Some (u_id u) else None
      | inl _ => None
      end
  | RVerify ch code rc t1 t2 =>
      match snd (VerifyLogin hashToken db ch code rc t1 t2 now) with
      | inr _ | inl ErrNoTeam | inl ErrStoreFailed => ch_user <$> GetMfaChallenge db (hashToken ch) now
      | _ => None
      end
  | RStepUp session user code rc =>
      match snd (StepUp hashToken db session user code rc now) with None => Some user | _ => None end
  | _ => None
  end.

(** The wrong guesses at an account since its owner last proved himself. *)
Fixpoint guesses (i : Z) (db : DB) (now : Z) (rs : list (Z * request)) (n : Z) : Z :=
  match rs with
  | [] => n
  | (d, r) :: rest =>
      let now := now + d in
      guesses i (handle db r now) now rest
        (if decide (proven db r now = Some i) then 0
         else if decide (wrong_guess db r now = Some i) then n + 1 else n)
  end.

(** The counter of an account grows with every wrong guess, and is only cleared by
    a proof. *)
Definition grew (by_ : Z) (i : Z) (us us' : gmap Z User) : Prop :=
  ∀ u, us !! i = Some u → ∃ u', us' !! i = Some u' ∧ u_failed u + by_ <= u_failed u'.
Lemma grew_refl i us : grew 0 i us us.
Proof. intros u Hu. exists u. split; [done|lia]. Qed.
Lemma grew_record db i j now :
  grew (if decide (i = j) then 1 else 0) i (users db) (users (RecordFailedLogin db j MaxFailedLogins LockoutMinutes now)).
Proof.
  intros u Hu. simpl. rewrite lookup_alter. case_decide as E; [|rewrite decide_False by done; exists u; split; [done|lia]].
  subst j. rewrite decide_True, Hu by done. simpl. eexists. split; [done|]. simpl. lia.
Qed.
Lemma redeem_counts db u code rc now :
  users (fst (redeemCode hashToken db u code rc now)) =
    match snd (redeemCode hashToken db u code rc now) with
    | Some ErrMFACodeInvalid => users (RecordFailedLogin db (u_id u) MaxFailedLogins LockoutMinutes now)
    | _ => users db
    end.
Proof.
  unfold redeemCode. destruct (GetMfaFactorForUser _ _) as [f|]; [|done].
  destruct (bool_decide _); [|done]. cbn [negb].
  match goal with |- context [let '(_, _) := ?x in _] => assert (Hx : users (fst x) = users db) end.
  { repeat case_match; done. }
  match goal with |- context [let '(_, _) := ?x in _] => destruct x as [db' n] end.
  simpl in Hx. destruct (0 <? n); simpl; by rewrite Hx.
Qed.
(** What a code request comes to, through its guard. *)
Definition code_wrong (user : Z) (e : option session_error) : option Z :=
  match e with Some ErrMFACodeInvalid => Some user | _ => None end.
Lemma with_code_counts db user missing code rc now k i (P : option session_error → Prop) :
  users_ok db → missing ≠ ErrMFACodeInvalid →
  (∀ db' u, users db' = users db → u_id u = user →
     snd (k db' u) ≠ Some ErrMFACodeInvalid ∧ (P (snd (k db' u)) → grew 0 i (users db) (users (fst (k db' u))))) →
  let r := with_code hashToken db user missing code rc now k in
  P (snd r) → grew (if decide (code_wrong user (snd r) = Some i) then 1 else 0) i (users db) (users (fst r)).
Proof.
  intros Hok Hm Hk. unfold with_code. destruct (GetUserByID db user) as [u|] eqn:Hu; cbn [fst snd].
  2:{ intros _. case_decide as E; [by destruct missing|apply grew_refl]. }
  apply GetUserByID_spec in Hu. pose proof (Hok _ _ Hu) as Hid.
  destruct (locked u now); cbn [fst snd]; [intros _; case_decide; [done|apply grew_refl]|].
  pose proof (redeem_counts db u code rc now) as Hr.
  destruct (redeemCode _ _ _ _ _ _) as [db' [e|]]; cbn [fst snd] in *.
  - intros _. rewrite Hr. destruct e; cbn [code_wrong]; try (case_decide; [done|apply grew_refl]).
    pose proof (grew_record db i (u_id u) now) as Hg. rewrite Hid in Hg |- *.
    repeat case_decide; simplify_eq; done.
  - destruct (Hk db' u Hr Hid) as [Hne Hg]. intros HP. specialize (Hg HP).
    case_decide as E; [|done]. by destruct (snd (k db' u)) as [[]|].
Qed.

Lemma grew_clear db i j : j ≠ i → grew 0 i (users db) (users (ClearFailedLogins db j)).
Proof. intros Hne u Hu. exists u. simpl. rewrite lookup_alter_ne by done. split; [done|lia]. Qed.
Lemma grew_eq n i us us1 us2 : us2 = us1 → grew n i us us1 → grew n i us us2.
Proof. by intros ->. Qed.

Lemma login_counts db email pw t1 t2 now i :
  users_ok db → proven db (RLogin email pw t1 t2) now ≠ Some i →
  grew (if decide (wrong_guess db (RLogin email pw t1 t2) now = Some i) then 1 else 0) i (users db)
    (users (fst (Login hashToken Verify db email pw t1 t2 now))).
Proof.
  intros Hok. unfold Login, proven, wrong_guess. destruct (login_read db email now) as [e|u]; cbn [fst snd].
  { intros _. case_decide; [done|apply grew_refl]. }
  unfold login_finish. destruct (password_ok Verify u pw); cbn [negb andb fst].
  2:{ intros _. pose proof (grew_record db i (u_id u) now) as Hg. repeat case_decide; simplify_eq; done. }
  intros Hp. case_decide; [done|]. destruct (match GetMfaFactorForUser db (u_id u) with Some _ => _ | None => _ end).
  - unfold CreateChallenge, CreateMfaChallenge. destruct (challenges _ !! _); apply grew_refl.
  - cbn [negb] in Hp. pose proof (Open_users (ClearFailedLogins db (u_id u)) u false t1 t2 now) as Ho.
    destruct (Open _ _ _ _ _ _) as [db' [e|[s tok]]]; cbn [fst] in *; rewrite Ho; apply grew_clear; congruence.
Qed.

Lemma verify_counts db ch code rc t1 t2 now i :
  users_ok db → proven db (RVerify ch code rc t1 t2) now ≠ Some i →
  grew (if decide (wrong_guess db (RVerify ch code rc t1 t2) now = Some i) then 1 else 0) i (users db)
    (users (fst (VerifyLogin hashToken db ch code rc t1 t2 now))).
Proof.
  intros Hok. unfold proven, wrong_guess, VerifyLogin. destruct (decide (ch = "")); cbn [fst snd].
  { intros _. case_decide; [done|apply grew_refl]. }
  destruct (GetMfaChallenge db (hashToken ch) now) as [chal|]; cbn [fst snd].
  2:{ intros _. case_decide; [done|apply grew_refl]. }
  destruct (GetUserByID db (ch_user chal)) as [u|] eqn:Hu; cbn [fst snd].
  2:{ intros _. case_decide; [done|apply grew_refl]. }
  apply GetUserByID_spec in Hu. pose proof (Hok _ _ Hu) as Hid.
  destruct (locked u now); cbn [fst snd]; [intros _; case_decide; [done|apply grew_refl]|].
  pose proof (redeem_counts db u code rc now) as Hr.
  destruct (redeemCode _ _ _ _ _ _) as [db' [e|]]; cbn [fst snd] in *.
  - intros _. pose proof (grew_record db i (u_id u) now) as Hg. rewrite Hid in Hg, Hr.
    destruct e; cbn [fst snd fmap option_fmap option_map]; rewrite Hr; repeat case_decide; simplify_eq; done || apply grew_refl.
  - destruct (ConsumeMfaChallenge db' (hashToken ch) now) as [db2|] eqn:Hc; cbn [fst snd].
    2:{ intros _. rewrite Hr. case_decide; [done|apply grew_refl]. }
    pose proof (Open_users (ClearFailedLogins db2 (u_id u)) u true t1 t2 now) as Ho.
    assert (users db2 = users db) as H2.
    { revert Hc. unfold ConsumeMfaChallenge. destruct (GetMfaChallenge _ _ _); [|done]. by intros [= <-]. }
    assert (match snd (Open hashToken (ClearFailedLogins db2 (u_id u)) u true t1 t2 now) with
      inr _ | inl ErrNoTeam | inl ErrStoreFailed => True | _ => False end) as Hans.
    { unfold Open. repeat case_match; simplify_eq/=; done. }
    destruct (Open _ _ _ _ _ _) as [db3 x]; cbn [fst snd] in *. intros Hp. rewrite Ho.
    assert (u_id u ≠ i) as Hne by (destruct x as [[]|]; cbn in Hp; congruence || done).
    rewrite decide_False by (by destruct x as [[]|]). eapply grew_eq; [|by apply (grew_clear db i (u_id u))].
    simpl. by rewrite H2.
Qed.

(** A request that proves nothing for the account leaves its row, with one more
    failure when it guessed wrong. *)
Lemma handle_counts db r now i :
  users_ok db → proven db r now ≠ Some i →
  grew (if decide (wrong_guess db r now = Some i) then 1 else 0) i (users db) (users (handle db r now)).
Proof.
  intros Hok Hp.
  destruct r as [email pw t1 t2|ch code rc t1 t2|user raw|user code codes|user code rc
    |user code codes|session user code rc|user session uuid|user session pref role custom|cookie]; cbn [handle].
  - by apply login_counts.
  - by apply verify_counts.
  - cbn [wrong_guess]. case_decide; [done|]. unfold Setup, UpsertUnconfirmedMfaFactor.
    repeat case_match; simplify_eq/=; apply grew_refl.
  - cbn [wrong_guess]. case_decide; [done|]. unfold Confirm, ConfirmMfaFactor. repeat case_match; simplify_eq/=; apply grew_refl.
  - apply (with_code_counts db user ErrStoreFailed code rc now _ i (λ _, True)); [done|done| |done].
    intros db' u Hus _. split; [done|]. intros _. simpl. rewrite Hus. apply grew_refl.
  - apply (with_code_counts db user ErrStoreFailed code "" now _ i (λ _, True)); [done|done| |done].
    intros db' u Hus _. unfold ReplaceMfaRecoveryCodes. split; [|intros _]; repeat case_match; simplify_eq/=; try done;
      rewrite Hus; apply grew_refl.
  - apply (with_code_counts db user ErrMFANotConfigured code rc now _ i (λ e, e = None → user ≠ i)); [done|done| |].
    + intros db' u Hus Hid. split; [done|]. intros Hne. simpl. rewrite <- Hus. apply grew_clear. rewrite Hid. by apply Hne.
    + intros E. cbn [proven] in Hp. unfold StepUp in Hp. rewrite E in Hp. congruence.
  - cbn [wrong_guess]. case_decide; [done|]. unfold SwitchTeam. destruct (head _) as [m|]; [|apply grew_refl].
    intros u Hu. simpl. rewrite lookup_alter. case_decide as E; [subst|exists u; split; [done|lia]].
    rewrite Hu. simpl. eexists. split; [done|]. simpl. lia.
  - cbn [wrong_guess]. case_decide; [done|]. unfold SetViewAs. repeat case_match; simplify_eq/=; apply grew_refl.
  - cbn [wrong_guess]. case_decide; [done|]. unfold Logout. destruct (SessionFromRequest _ _ _ _); apply grew_refl.
Qed.
Lemma handle_rows db r now i u : users_ok db → users db !! i = Some u → is_Some (users (handle db r now) !! i).
Proof.
  intros Hok Hu. assert (is_Some (users db !! i)) as Hs by (by rewrite Hu). destruct (decide (proven db r now = Some i)) as [Hp|Hp].
  2:{ destruct (handle_counts db r now i Hok Hp u Hu) as (u' & -> & _). eauto. }
  assert (∀ db' f j, users db' = users db → is_Some (alter f j (users db') !! i)) as Ha.
  { intros db' f j ->. apply lookup_alter_is_Some. by rewrite Hu. }
  destruct r; try done; cbn [handle].
  - unfold proven in Hp. unfold Login. destruct (login_read db email now) as [e|v]; [done|]. unfold login_finish.
    destruct (password_ok Verify v plaintext); [|by apply Ha]. cbn [negb].
    destruct (match GetMfaFactorForUser db (u_id v) with Some _ => _ | None => _ end); [done|].
    pose proof (Open_users (ClearFailedLogins db (u_id v)) v false t1 t2 now) as Ho.
    destruct (Open _ _ _ _ _ _) as [db' [e|[s tok]]]; cbn [fst] in *; rewrite Ho; by apply Ha.
  - unfold VerifyLogin. destruct (decide (challenge = "")); [exact Hs|].
    destruct (GetMfaChallenge db _ now) as [chal|]; [|exact Hs].
    destruct (GetUserByID db (ch_user chal)) as [v|]; [|exact Hs].
    destruct (locked v now); [exact Hs|]. pose proof (redeem_counts db v code recovery now) as Hr.
    destruct (redeemCode _ _ _ _ _ _) as [db' [e|]]; cbn [fst snd] in *.
    + destruct e; cbn [fst]; rewrite Hr; first [exact Hs|by apply Ha].
    + unfold ConsumeMfaChallenge. destruct (GetMfaChallenge db' _ now); cbn [fst]; [|by rewrite Hr].
      rewrite Open_users. by apply Ha.
  - unfold StepUp, with_code. destruct (GetUserByID db user) as [v|]; [|exact Hs].
    destruct (locked v now); [exact Hs|]. pose proof (redeem_counts db v code recovery now) as Hr.
    destruct (redeemCode _ _ _ _ _ _) as [db' [e|]]; cbn [fst snd] in *; [|by apply Ha].
    destruct e; cbn [fst]; rewrite Hr; first [exact Hs|by apply Ha].
Qed.
Lemma guesses_bounded t0 rs db now i u n :
  users_ok db → t0 <= now → Forall (λ x, 0 <= x.1) rs →
  users db !! i = Some u → 0 <= u_failed u → n <= u_failed u → lock_ok t0 now u →
  t0 <= snd (serve db now rs) ∧
  ∃ u', guesses i db now rs n <= u_failed u' ∧ lock_ok t0 (snd (serve db now rs)) u'.
Proof.
  revert db now u n. induction rs as [|[d r] rs IH]; intros db now u n Hok Ht Hd Hu H0 Hn Hl; cbn [guesses serve].
  { split; [done|]. by exists u. }
  apply Forall_cons in Hd as [Hd0 Hd]. simpl in Hd0.
  destruct (handle_rows db r (now + d) i u Hok Hu) as [u' Hu'].
  destruct (handle_evolves db r (now + d) Hok i u' Hu') as (u1 & Hu1 & Hs & _).
  rewrite Hu in Hu1. injection Hu1 as <-.
  apply (IH _ _ u'); [by apply handle_users_ok|lia|done|done| | |by apply (lock_ok_step t0 now d u u')].
  - unfold user_step in Hs. lia.
  - case_decide as Hp; [unfold user_step in Hs; lia|].
    destruct (handle_counts db r (now + d) i Hok Hp u Hu) as (u2 & Hu2 & Hg).
    rewrite Hu' in Hu2. injection Hu2 as <-. case_decide; lia.
Qed.


(** *** Factors *)

(** What one request may do to a confirmed factor: keep its secret, move the
    last used step forward, and drop recovery codes — replace them only on
    [regenerate]. *)
Definition factor_kept (regenerate : bool) (f f' : Factor) : Prop :=
  is_Some (f_confirmed f) →
  f_confirmed f' = f_confirmed f ∧ f_secret f' = f_secret f ∧
  (∀ t, f_last_used f = Some t → ∃ t', f_last_used f' = Some t' ∧ t <= t') ∧
  (regenerate = false → ∀ h, h ∈ f_hashes f' → h ∈ f_hashes f).

Definition factors_evolve (regenerate : bool) (db db' : DB) : Prop :=
  next_factor db <= next_factor db' ∧
  ∀ i f', factors db' !! i = Some f' →
    (∃ f, factors db !! i = Some f ∧ f_id f' = f_id f ∧ factor_kept regenerate f f') ∨
    next_factor db <= f_id f' < next_factor db'.

Lemma factor_kept_refl b f : factor_kept b f f.
Proof. intros _. split_and!; try done. intros t ->. exists t. split; [done|lia]. Qed.

Lemma factor_kept_trans b f g h : factor_kept b f g → factor_kept b g h → factor_kept b f h.
Proof.
  intros Hfg Hgh Hc. destruct (Hfg Hc) as (H1 & H2 & H3 & H4). rewrite <- H1 in Hc.
  destruct (Hgh Hc) as (K1 & K2 & K3 & K4). split_and!; [congruence|congruence| |auto].
  intros t Ht. destruct (H3 t Ht) as (t' & Ht' & ?). destruct (K3 t' Ht') as (t'' & ? & ?).
  exists t''. split; [done|lia].
Qed.

Lemma factors_evolve_same b db db' :
  factors db' = factors db → next_factor db' = next_factor db → factors_evolve b db db'.
Proof.
  intros Hf Hn. split; [lia|]. intros i f' Hi. rewrite Hf in Hi. left. exists f'.
  split; [done|]. split; [done|apply factor_kept_refl].
Qed.

Lemma factors_evolve_trans b db1 db2 db3 :
  factors_evolve b db1 db2 → factors_evolve b db2 db3 → factors_evolve b db1 db3.
Proof.
  intros [Hn12 H12] [Hn23 H23]. split; [lia|]. intros i f3 Hf3.
  destruct (H23 i f3 Hf3) as [(f2 & Hf2 & Hid & Hk)|?]; [|right; lia].
  destruct (H12 i f2 Hf2) as [(f1 & Hf1 & Hid1 & Hk1)|?]; [|right; lia].
  left. exists f1. split; [done|]. split; [congruence|]. by eapply factor_kept_trans.
Qed.

Lemma factors_evolve_put b db i f f' n :
  factors db !! i = Some f → f_id f' = f_id f → factor_kept b f f' → next_factor db <= n →
  factors_evolve b db (set_factors db (<[ i := f' ]> (factors db)) n).
Proof.
  intros Hf Hid Hk Hn. split; [done|]. simpl. intros j g Hj. left.
  apply lookup_insert_Some in Hj as [[<- <-]|[_ Hj]]; [by exists f|].
  exists g. split; [done|]. split; [done|apply factor_kept_refl].
Qed.

Lemma update_factor_evolve b db id cond f :
  (∀ x, cond x = true → f_id (f x) = f_id x ∧ factor_kept b x (f x)) →
  factors_evolve b db (fst (update_factor db id cond f)).
Proof.
  intros Hf. split; [done|]. simpl. intros i f' Hi. apply lookup_fmap_Some in Hi as (x & <- & Hx).
  left. exists x. split; [done|]. destruct ((f_id x =? id) && cond x) eqn:E; [|split; [done|apply factor_kept_refl]].
  apply andb_prop in E as [_ E]. auto.
Qed.

Lemma touch_evolve b db id used : factors_evolve b db (fst (TouchMfaFactorUsed db id used)).
Proof.
  apply update_factor_evolve. intros x Hx. split; [done|]. intros _. simpl. split_and!; try done.
  intros t Ht. rewrite Ht in Hx. apply Z.ltb_lt in Hx. exists used. split; [done|lia].
Qed.

Lemma consume_evolve b db id h : factors_evolve b db (fst (ConsumeMfaRecoveryCode db id h)).
Proof.
  apply update_factor_evolve. intros x Hx. split; [done|]. intros _. simpl. split_and!; try done.
  - intros t Ht. exists t. split; [done|lia].
  - intros _ k Hk. by apply list_elem_of_filter in Hk as [_ Hk].
Qed.

Lemma redeem_factors b db u code rc now :
  factors_evolve b db (fst (redeemCode hashToken db u code rc now)).
Proof.
  unfold redeemCode. destruct (GetMfaFactorForUser _ _) as [f|]; [|by apply factors_evolve_same].
  destruct (bool_decide _); cbn [negb]; [|by apply factors_evolve_same].
  match goal with |- context [let '(_, _) := ?x in _] => assert (Hx : factors_evolve b db (fst x)) end.
  { destruct (negb _); [apply consume_evolve|]. destruct (negb _); [|by apply factors_evolve_same].
    destruct (Validate _ _ _); [apply touch_evolve|by apply factors_evolve_same]. }
  match goal with |- context [let '(_, _) := ?x in _] => destruct x as [db' n] end.
  destruct (0 <? n); [done|]. eapply factors_evolve_trans; [done|]. by apply factors_evolve_same.
Qed.

Lemma Open_factors db u b t1 t2 now :
  factors (fst (Open hashToken db u b t1 t2 now)) = factors db ∧
  next_factor (fst (Open hashToken db u b t1 t2 now)) = next_factor db.
Proof.
  unfold Open, CreateSession. destruct (GetTeamMembershipForUser _ _ _); [|done].
  by destruct (sessions db !! hashToken t1).
Qed.

Lemma with_code_factors b db user missing code rc now k :
  (∀ db' u, factors_evolve b db' (fst (k db' u))) →
  factors_evolve b db (fst (with_code hashToken db user missing code rc now k)).
Proof.
  intros Hk. unfold with_code. destruct (GetUserByID db user) as [u|]; [|by apply factors_evolve_same].
  destruct (locked u now); [by apply factors_evolve_same|].
  pose proof (redeem_factors b db u code rc now) as Hr.
  destruct (redeemCode _ _ _ _ _ _) as [db' [e|]]; [done|].
  eapply factors_evolve_trans; [exact Hr|apply Hk].
Qed.

Lemma login_factors b db email pw t1 t2 now :
  factors_evolve b db (fst (Login hashToken Verify db email pw t1 t2 now)).
Proof.
  unfold Login, login_read. destruct (GetUserByEmail _ _) as [u|]; [|by apply factors_evolve_same].
  destruct (locked u now); [by apply factors_evolve_same|]. destruct (_ && _); [by apply factors_evolve_same|].
  unfold login_finish. destruct (password_ok _ _ _); cbn [negb]; [|by apply factors_evolve_same].
  match goal with |- context [if ?b then _ else _] => destruct b end.
  - unfold CreateChallenge, CreateMfaChallenge. destruct (challenges _ !! _); by apply factors_evolve_same.
  - destruct (Open_factors (ClearFailedLogins db (u_id u)) u false t1 t2 now) as [H1 H2].
    destruct (Open _ _ _ _ _ _) as [db' [e|[s tok]]]; simpl in *; by apply factors_evolve_same.
Qed.

Lemma verify_factors b db ch code rc t1 t2 now :
  factors_evolve b db (fst (VerifyLogin hashToken db ch code rc t1 t2 now)).
Proof.
  unfold VerifyLogin. destruct (decide (ch = "")); [by apply factors_evolve_same|].
  destruct (GetMfaChallenge _ _ _) as [chal|]; [|by apply factors_evolve_same].
  destruct (GetUserByID _ _) as [u|]; [|by apply factors_evolve_same].
  destruct (locked u now); [by apply factors_evolve_same|].
  pose proof (redeem_factors b db u code rc now) as Hr.
  destruct (redeemCode _ _ _ _ _ _) as [db' [e|]]; [by destruct e|].
  unfold ConsumeMfaChallenge. destruct (GetMfaChallenge _ _ _); [|done].
  eapply factors_evolve_trans; [exact Hr|].
  match goal with |- factors_evolve _ _ (fst (Open _ ?d ?u ?m ?a ?c ?n)) => pose proof (Open_factors d u m a c n) as [H1 H2] end.
  apply factors_evolve_same; [rewrite H1|rewrite H2]; done.
Qed.

Definition regenerates (r : request) : bool :=
  match r with RRegenerate _ _ _ => true | _ => false end.

Lemma handle_factors db r now b :
  (regenerates r = true → b = true) → factors_evolve b db (handle db r now).
Proof.
  intros Hb. destruct r as [email pw t1 t2|ch code rc t1 t2|user raw|user code codes|user code rc
    |user code codes|session user code rc|user session uuid|user session pref role custom|cookie]; simpl.
  - apply login_factors.
  - apply verify_factors.
  - unfold Setup, UpsertUnconfirmedMfaFactor. destruct (GetUserByID db user); [|by apply factors_evolve_same].
    destruct (factors db !! user) as [f|] eqn:Hf.
    + destruct (f_confirmed f) eqn:Hc; [by apply factors_evolve_same|]. simpl.
      eapply factors_evolve_put; [done|done| |lia]. intros [? Hx]. congruence.
    + simpl. split; [simpl; lia|]. simpl. intros i f' Hi.
      apply lookup_insert_Some in Hi as [[<- <-]|[_ Hi]]; [right; simpl; lia|left].
      exists f'. split; [done|]. split; [done|apply factor_kept_refl].
  - unfold Confirm, GetMfaFactorForUser. destruct (factors db !! user) as [f|] eqn:Hf; [|by apply factors_evolve_same].
    case_bool_decide as Hc; [by apply factors_evolve_same|].
    destruct (Validate _ _ _) as [m|]; [|by apply factors_evolve_same]. unfold ConfirmMfaFactor. rewrite Hf.
    destruct (f_confirmed f) eqn:Hc'; [by apply factors_evolve_same|]. simpl.
    eapply factors_evolve_put; [done|done| |lia]. intros [? Hx]. congruence.
  - apply with_code_factors. intros db' u. split; [done|]. simpl. intros i f' Hi.
    apply lookup_delete_Some in Hi as [_ Hi]. left. exists f'. split; [done|]. split; [done|apply factor_kept_refl].
  - specialize (Hb eq_refl) as ->. apply with_code_factors. intros db' u. unfold ReplaceMfaRecoveryCodes.
    destruct (factors db' !! user) as [f|] eqn:Hf; [|by apply factors_evolve_same].
    destruct (bool_decide _); [|by apply factors_evolve_same]. simpl.
    eapply factors_evolve_put; [done|done| |lia]. intros _. simpl. split_and!; try done.
    intros t Ht. exists t. split; [done|lia].
  - apply with_code_factors. intros db' u. by apply factors_evolve_same.
  - unfold SwitchTeam. destruct (head _); by apply factors_evolve_same.
  - unfold SetViewAs. repeat case_match; simplify_eq/=; by apply factors_evolve_same.
  - unfold Logout. destruct (SessionFromRequest _ _ _ _); by apply factors_evolve_same.
Qed.

(** Once a factor is confirmed, every later state that still has it has it
    confirmed, under the same secret, with no earlier last step. *)
Definition burnt (id t : Z) (secret : string) (db : DB) : Prop :=
  id < next_factor db ∧
  ∀ i f, factors db !! i = Some f → f_id f = id →
    is_Some (f_confirmed f) ∧ f_secret f = secret ∧ ∃ t', f_last_used f = Some t' ∧ t <= t'.

Definition spent (id : Z) (h : string) (db : DB) : Prop :=
  id < next_factor db ∧
  ∀ i f, factors db !! i = Some f → f_id f = id → is_Some (f_confirmed f) ∧ h ∉ f_hashes f.

Lemma burnt_evolve b id t secret db db' :
  burnt id t secret db → factors_evolve b db db' → burnt id t secret db'.
Proof.
  intros [Hn Hb] [Hn' He]. split; [lia|]. intros i f' Hf' Hid.
  destruct (He i f' Hf') as [(f & Hf & Hfid & Hk)|?]; [|lia].
  destruct (Hb i f Hf) as (Hc & Hs & t1 & Hl & Ht); [congruence|].
  destruct (Hk Hc) as (K1 & K2 & K3 & _). rewrite K1. split; [done|]. split; [congruence|].
  destruct (K3 t1 Hl) as (t2 & ? & ?). exists t2. split; [done|lia].
Qed.

Lemma spent_evolve id h db db' :
  spent id h db → factors_evolve false db db' → spent id h db'.
Proof.
  intros [Hn Hb] [Hn' He]. split; [lia|]. intros i f' Hf' Hid.
  destruct (He i f' Hf') as [(f & Hf & Hfid & Hk)|?]; [|lia].
  destruct (Hb i f Hf) as (Hc & Hs); [congruence|].
  destruct (Hk Hc) as (K1 & _ & _ & K4). rewrite K1. split; [done|]. intros Hh. by apply Hs, K4.
Qed.

Lemma serve_invariant (P : DB → Prop) rs db now :
  (∀ db r t, P db → r ∈ rs.*2 → P (handle db r t)) → P db → P (fst (serve db now rs)).
Proof.
  revert db now. induction rs as [|[d r] rs IH]; intros db now Hstep HP; [done|]. simpl.
  apply IH; [intros; apply Hstep; set_solver|]. apply Hstep; [done|set_solver].
Qed.

(** A successful redemption burns the step it matched, or spends the code. *)
Lemma count_pos {A} (P : A → Prop) `{∀ x, Decision (P x)} (l : list A) :
  0 < Z.of_nat (length (filter P l)) → ∃ x, x ∈ l ∧ P x.
Proof.
  intros Hl. destruct (filter P l) as [|x l'] eqn:E; [simpl in Hl; lia|]. exists x.
  assert (Hx : x ∈ filter P l) by (rewrite E; set_solver). apply list_elem_of_filter in Hx. tauto.
Qed.

Lemma redeem_None_inv db u code rc now db' :
  redeemCode hashToken db u code rc now = (db', None) →
  ∃ f, factors db !! u_id u = Some f ∧ is_Some (f_confirmed f) ∧
    if decide (rc = "") then
      ∃ m, Validate (f_secret f) code now = Some m ∧
        TouchMfaFactorUsed db (f_id f) (stepTime m) = (db', snd (TouchMfaFactorUsed db (f_id f) (stepTime m))) ∧
        0 < snd (TouchMfaFactorUsed db (f_id f) (stepTime m))
    else
      let r := ConsumeMfaRecoveryCode db (f_id f) (hashRecoveryCode hashToken rc) in
      r = (db', snd r) ∧ 0 < snd r.
Proof.
  unfold redeemCode, GetMfaFactorForUser. destruct (factors db !! u_id u) as [f|]; [|done].
  case_bool_decide as Hc; [|done]. cbn [negb]. intros H. exists f. split; [done|]. split; [done|].
  destruct (decide (rc = "")) as [->|Hrc].
  - rewrite bool_decide_eq_true_2 in H by done. cbn [negb] in H.
    destruct (bool_decide (code = "")); [done|]. cbn [negb] in H.
    destruct (Validate _ _ _) as [m|]; [|done]. exists m. split; [done|].
    destruct (TouchMfaFactorUsed _ _ _) as [db1 n]. destruct (0 <? n) eqn:En; [|done].
    injection H as ->. apply Z.ltb_lt in En. done.
  - rewrite bool_decide_eq_false_2 in H by done. cbn [negb] in H.
    destruct (ConsumeMfaRecoveryCode _ _ _) as [db1 n]. destruct (0 <? n) eqn:En; [|done].
    apply Z.ltb_lt in En. by injection H as ->.
Qed.

(** Factor ids come from a sequence and each belongs to one row. *)
Definition factors_ok (db : DB) : Prop :=
  (∀ i f, factors db !! i = Some f → f_id f < next_factor db) ∧
  (∀ i k f g, factors db !! i = Some f → factors db !! k = Some g → f_id f = f_id g → i = k).

(** An update no row matches changes nothing. *)
Lemma update_factor_none db id cond f :
  (∀ i x, factors db !! i = Some x → f_id x = id → cond x = false) →
  update_factor db id cond f = (db, 0).
Proof.
  intros Hno.
  assert (Hall : ∀ i x, factors db !! i = Some x → (f_id x =? id) && cond x = false).
  { intros i x Hx. destruct (f_id x =? id) eqn:E; [|done]. apply Z.eqb_eq in E. simpl. by eapply Hno. }
  unfold update_factor. f_equal.
  - unfold set_factors. replace ((λ x, _) <$> factors db) with (factors db); [by destruct db|].
    apply map_eq. intros i. rewrite lookup_fmap. destruct (factors db !! i) as [x|] eqn:Hx; [|done].
    simpl. by rewrite (Hall i x Hx).
  - destruct (filter _ _) as [|[i x] l] eqn:E; [done|]. exfalso.
    assert (Hin : (i, x) ∈ filter (λ x : Z * Factor, (f_id x.2 =? id) && cond x.2 = true) (map_to_list (factors db)))
      by (rewrite E; set_solver).
    apply list_elem_of_filter in Hin as [Hx Hin]. apply elem_of_map_to_list in Hin. simpl in Hx.
    by rewrite (Hall i x Hin) in Hx.
Qed.

(** An update that counted a row found the one row of that id, and applied. *)
Lemma update_factor_hit db id cond f db' n i x :
  factors_ok db → factors db !! i = Some x → f_id x = id →
  update_factor db id cond f = (db', n) → 0 < n →
  cond x = true ∧ next_factor db' = next_factor db ∧ factors db' !! i = Some (f x) ∧
  ∀ k y, factors db' !! k = Some y → k ≠ i → factors db !! k = Some y ∧ f_id y ≠ id.
Proof.
  intros [_ Huniq] Hx Hid Hu Hn. unfold update_factor in Hu. injection Hu as <- <-.
  apply count_pos in Hn as ((k & y) & Hy & Hc). simpl in Hc. apply elem_of_map_to_list in Hy.
  apply andb_prop in Hc as [Heq Hc]. apply Z.eqb_eq in Heq.
  assert (k = i) as -> by (eapply Huniq; [done..|congruence]). rewrite Hx in Hy. injection Hy as <-.
  split; [done|]. split; [done|]. simpl. rewrite lookup_fmap, Hx. simpl.
  rewrite Hid, Z.eqb_refl, Hc. split; [done|]. intros k y Hk Hne.
  apply lookup_fmap_Some in Hk as (z & Hz & Hkz). assert (Hzid : f_id z ≠ id).
  { intros E. apply Hne. eapply Huniq; [done..|congruence]. }
  rewrite (proj2 (Z.eqb_neq _ _) Hzid) in Hz. simpl in Hz. by subst y.
Qed.

Lemma redeem_burns db u code now db1 f m :
  factors_ok db → factors db !! u_id u = Some f → Validate (f_secret f) code now = Some m →
  redeemCode hashToken db u code "" now = (db1, None) →
  burnt (f_id f) (stepTime m) (f_secret f) db1.
Proof.
  intros Hok Hf Hm Hr. destruct (redeem_None_inv _ _ _ _ _ _ Hr) as (g & Hg & Hc & Hx).
  rewrite Hf in Hg. injection Hg as <-. simpl in Hx. destruct Hx as (m1 & Hm1 & Ht & Hpos).
  rewrite Hm in Hm1. injection Hm1 as <-.
  destruct (update_factor_hit _ _ _ _ _ _ _ _ Hok Hf eq_refl Ht Hpos) as (_ & Hn & Hnew & Hold).
  split; [rewrite Hn; by apply (proj1 Hok (u_id u))|]. intros i h Hi Hid.
  destruct (decide (i = u_id u)) as [->|Hne]; [|by destruct (Hold i h Hi Hne)].
  rewrite Hnew in Hi. injection Hi as <-. simpl. split; [done|]. split; [done|].
  exists (stepTime m). split; [done|lia].
Qed.

Lemma burnt_refuses db u f id t secret code now m :
  burnt id t secret db → factors db !! u_id u = Some f → f_id f = id →
  Validate (f_secret f) code now = Some m → stepTime m <= t →
  redeemCode hashToken db u code "" now =
    (RecordFailedLogin db (u_id u) MaxFailedLogins LockoutMinutes now, Some ErrMFACodeInvalid).
Proof.
  intros [_ Hb] Hf Hid Hm Ht. destruct (Hb _ _ Hf Hid) as (Hc & _ & _).
  unfold redeemCode, GetMfaFactorForUser. rewrite Hf, (bool_decide_eq_true_2 (is_Some _)) by done. cbn [negb].
  rewrite bool_decide_eq_true_2 by done. cbn [negb].
  destruct (bool_decide (code = "")); cbn [negb]; [done|]. rewrite Hm.
  unfold TouchMfaFactorUsed. rewrite update_factor_none; [done|].
  intros i x Hx Hxid. destruct (Hb i x Hx) as (_ & _ & t' & -> & Ht'); [congruence|]. apply Z.ltb_ge. lia.
Qed.

(** C24: a TOTP code is accepted at most once.  After a code matching step [m]
    was redeemed on a factor, whatever requests follow — by anyone, in any
    number —, as long as the factor exists every code matching [m] or an
    earlier step is refused, and counted as a failed attempt. *)
Theorem totp_code_single_use db u code now db1 f m rs t1 u' code' now' m' f' :
  factors_ok db →
  factors db !! u_id u = Some f → Validate (f_secret f) code now = Some m →
  redeemCode hashToken db u code "" now = (db1, None) →
  let db2 := fst (serve db1 t1 rs) in
  factors db2 !! u_id u' = Some f' → f_id f' = f_id f →
  Validate (f_secret f') code' now' = Some m' → m' <= m →
  redeemCode hashToken db2 u' code' "" now' =
    (RecordFailedLogin db2 (u_id u') MaxFailedLogins LockoutMinutes now', Some ErrMFACodeInvalid).
Proof.
  intros Hok Hf Hm Hr db2 Hf' Hid Hm' Hle.
  apply (burnt_refuses db2 u' f' (f_id f) (stepTime m) (f_secret f) code' now' m'); try done.
  - apply (serve_invariant (burnt (f_id f) (stepTime m) (f_secret f))); [|by eapply redeem_burns].
    intros d r t Hd _. eapply (burnt_evolve true); [done|]. by apply handle_factors.
  - change (m' * 30 * 1000000000 <= m * 30 * 1000000000). lia.
Qed.

Lemma redeem_spends db u code rc now db1 f :
  factors_ok db → factors db !! u_id u = Some f → rc ≠ "" →
  redeemCode hashToken db u code rc now = (db1, None) →
  spent (f_id f) (hashRecoveryCode hashToken rc) db1.
Proof.
  intros Hok Hf Hrc Hr. destruct (redeem_None_inv _ _ _ _ _ _ Hr) as (g & Hg & Hc & Hx).
  rewrite Hf in Hg. injection Hg as <-. rewrite decide_False in Hx by done. destruct Hx as [Ht Hpos].
  destruct (update_factor_hit _ _ _ _ _ _ _ _ Hok Hf eq_refl Ht Hpos) as (_ & Hn & Hnew & Hold).
  split; [rewrite Hn; by apply (proj1 Hok (u_id u))|]. intros i h Hi Hid.
  destruct (decide (i = u_id u)) as [->|Hne]; [|by destruct (Hold i h Hi Hne)].
  rewrite Hnew in Hi. injection Hi as <-. simpl. split; [done|].
  intros [Hn' _]%list_elem_of_filter. done.
Qed.

(** A recovery code is accepted at most once.  After it was redeemed,
    whatever requests follow short of minting a new set, it is refused on that
    factor — however it is typed, since hyphens, spaces and case do not
    count — and the attempt is counted as a failure. *)
Theorem recovery_code_single_use db u code rc now db1 f rs t1 u' code' rc' now' f' :
  factors_ok db → factors db !! u_id u = Some f → rc ≠ "" → rc' ≠ "" →
  redeemCode hashToken db u code rc now = (db1, None) →
  (∀ r, r ∈ rs.*2 → regenerates r = false) →
  let db2 := fst (serve db1 t1 rs) in
  factors db2 !! u_id u' = Some f' → f_id f' = f_id f →
  hashRecoveryCode hashToken rc' = hashRecoveryCode hashToken rc →
  redeemCode hashToken db2 u' code' rc' now' =
    (RecordFailedLogin db2 (u_id u') MaxFailedLogins LockoutMinutes now', Some ErrMFACodeInvalid).
Proof.
  intros Hok Hf Hrc Hrc' Hr Hrs db2 Hf' Hid Hh.
  assert (Hs : spent (f_id f) (hashRecoveryCode hashToken rc) db2).
  { apply (serve_invariant (spent (f_id f) (hashRecoveryCode hashToken rc))); [|by eapply redeem_spends].
    intros d r t Hd Hin. eapply spent_evolve; [done|]. apply handle_factors. by rewrite (Hrs r Hin). }
  destruct Hs as [_ Hs]. destruct (Hs _ _ Hf' Hid) as [Hc _].
  unfold redeemCode, GetMfaFactorForUser. rewrite Hf', (bool_decide_eq_true_2 (is_Some _)) by done. cbn [negb].
  rewrite bool_decide_eq_false_2 by done. cbn [negb]. unfold ConsumeMfaRecoveryCode.
  rewrite update_factor_none; [done|]. intros i x Hx Hxid.
  destruct (Hs i x Hx) as [_ Hn]; [congruence|]. apply andb_false_iff. right.
  apply bool_decide_eq_false. by rewrite Hh.
Qed.
End Facts.

(** ** A small instance *)

Definition demo_hash (s : string) : string := "h:" +:+ s.
Definition demo_verify (plaintext hash : string) : option bool := Some (bool_decide (plaintext = hash)).
Definition demo_scan (s : string) : option string := Some s.

Definition demo_u1 : User := mkUser 1 "one@example.org" (Some "pw1") false 0 None false None.
Definition demo_u2 : User := mkUser 2 "two@example.org" (Some "pw2") false 0 None false (Some 10).
Definition demo_factor : Factor :=
  mkFactor 7 "GEZDGNBVGY3TQOJQGEZDGNBVGY3TQOJQ" [hashRecoveryCode demo_hash "1234abcd-5678ef90"]
    (Some 0) (Some 0).
Definition demo_row : SessionRow :=
  mkSessionRow 1 2 (Some 10) (Some "csrf") (12 * 60 * minute) None false None (Some RoleReviewer) None.
Definition demo_db : DB :=
  mkDB {[ 1 := demo_u1; 2 := demo_u2 ]} {[ 1 := demo_factor ]} 8 ∅ {[ "h:cookie" := demo_row ]} 2
    [mkMembership 2 10 RoleAdmin None; mkMembership 2 11 RoleMember (Some 5); mkMembership 1 10 RoleMember None]
    {[ 10 := mkTeam "t10" false; 11 := mkTeam "t11" false ]}
    {[ 5 := mkCustomRole "r5" 11 "publisher" ["registries:manage"; "sources:read"] ]}
    ∅ (mkSettings false false).

Lemma demo_users_ok : users_ok demo_db.
Proof.
  intros i u H. unfold demo_db in H. simpl in H.
  apply lookup_insert_Some in H as [[<- <-]|[_ H]]; [done|].
  by apply lookup_singleton_Some in H as [<- <-].
Qed.

Lemma demo_factors_ok : factors_ok demo_db.
Proof.
  split.
  - intros i f H. simpl in H. apply lookup_singleton_Some in H as [<- <-]. done.
  - intros i k f g Hf Hg _. simpl in Hf, Hg. apply lookup_singleton_Some in Hf as [<- _].
    by apply lookup_singleton_Some in Hg as [<- _].
Qed.

Lemma demo_roles_valid : roles_valid demo_db.
Proof.
  intros i r H. simpl in H. apply lookup_singleton_Some in H as [_ <-].
  exists ["registries:manage"], (ExpandGranular memberPermissions). vm_compute. reflexivity.
Qed.

(** A state-changing request of the demo session, with its CSRF token. *)
Definition demo_request : api_request manager browser :=
  mkRequest "/api/v1/applications" "" (Some (mkManager demo_db second))
    (mkBrowser "POST" "cookie" "csrf") (Some false).
Definition demo_tokens : token_env := mkTokenEnv (λ _, Some []) (λ _ _, None) None 0.

Lemma served_session_confined_witness :
  ∃ id row, Handler (H := Manager_authenticator demo_hash) demo_hash demo_tokens demo_request = Served (Some id) ∧
    id_view_as id = "reviewer" ∧ speaks_for demo_hash demo_db "cookie" second id row ∧
    intended (mkBrowser "POST" "cookie" "csrf") row.
Proof.
  destruct (Handler (H := Manager_authenticator demo_hash) demo_hash demo_tokens demo_request) as [[id|]| | | |] eqn:E;
    try (exfalso; revert E; vm_compute; discriminate).
  assert (id_session id = true ∧ id_view_as id = "reviewer") as [Hs Hv]
    by (revert E; vm_compute; intros [= <-]; auto).
  destruct (served_session_confined demo_hash demo_hash demo_tokens demo_request id _ E Hs eq_refl demo_roles_valid)
    as (row & Hrow & Hi).
  exists id, row. auto.
Defined.

(** The promises hold of the session manager, so the gate's theorem applies to it. *)
Lemma Handler_served_witness :
  ∃ id, Handler (H := Manager_authenticator demo_hash) demo_hash demo_tokens demo_request = Served (Some id) ∧
    browser_speaks_for demo_hash (mkManager demo_db second) (mkBrowser "POST" "cookie" "csrf") id.
Proof.
  destruct (Handler (H := Manager_authenticator demo_hash) demo_hash demo_tokens demo_request) as [[id|]| | | |] eqn:E;
    try (exfalso; revert E; vm_compute; discriminate).
  exists id. split; [done|].
  destruct (@Handler_served demo_hash _ _ _ (Manager_promises demo_hash) demo_tokens demo_request id) as [_ H].
  destruct (H E) as (m & [= <-] & Hsp); [revert E; vm_compute; by intros [= <-]|].
  exact (Hsp demo_roles_valid).
Defined.

Lemma view_as_only_narrows_witness :
  ∃ id, Authenticate demo_hash (SetSessionViewAs demo_db 1 None None) "cookie" second = Some id ∧
    id_view_as id = "" ∧ Has (id_permissions id) "applications:deploy" = true.
Proof.
  destruct (view_as_only_narrows demo_hash demo_scan demo_db 2 1 10 "member" "" "cookie" second)
    as (_ & _ & H).
  destruct (resolve demo_hash demo_db "cookie" second) as [[[row m] u]|] eqn:E;
    [|exfalso; vm_compute in E; discriminate E].
  destruct (H row m u eq_refl) as (id & Ha & Hv & Hp).
  { vm_compute in E. injection E as <- _ _. reflexivity. }
  exists id. split; [exact Ha|]. split; [exact Hv|]. rewrite Hp. clear H Hp Ha Hv.
  vm_compute in E. injection E as _ <- <-. vm_compute. reflexivity.
Defined.

Lemma SwitchTeam_moves_witness :
  ∃ db' id, SwitchTeam demo_db 2 1 "t11" = (db', inr 11) ∧
    Authenticate demo_hash db' "cookie" second = Some id ∧ id_team id = 11 ∧ id_view_as id = "".
Proof.
  pose proof (SwitchTeam_moves demo_hash demo_db 2 "t11" "cookie" second demo_row demo_u2
                eq_refl eq_refl eq_refl) as H.
  change (s_id demo_row) with 1 in H.
  destruct (SwitchTeam demo_db 2 1 "t11") as [db' [e|team]] eqn:E.
  - exfalso. clear H. revert E. vm_compute. discriminate.
  - assert (team = 11) as -> by (clear H; revert E; vm_compute; by intros [= _ <-]).
    destruct H as [_ (id & m & Ha & Ht & Hv & _)]. exists db', id. auto.
Defined.


(** The code of step 1, while it is current and one step later. *)
Lemma demo_code : Validate (f_secret demo_factor) "287082" (59 * second) = Some 1.
Proof. vm_compute. reflexivity. Qed.
Lemma demo_code_late : Validate (f_secret demo_factor) "287082" (80 * second) = Some 1.
Proof. vm_compute. reflexivity. Qed.
Definition demo_used : DB := fst (TouchMfaFactorUsed demo_db 7 (stepTime 1)).
Lemma redeemed hashToken db u f code now m db' :
  GetMfaFactorForUser db (u_id u) = Some f → f_confirmed f ≠ None → code ≠ "" →
  Validate (f_secret f) code now = Some m → TouchMfaFactorUsed db (f_id f) (stepTime m) = (db', 1) →
  redeemCode hashToken db u code "" now = (db', None).
Proof.
  intros Hf Hc Hne Hv Ht. unfold redeemCode. rewrite Hf, bool_decide_true by (by destruct (f_confirmed f)).
  simpl. rewrite bool_decide_false, Hv, Ht by done. done.
Qed.
Lemma demo_redeemed : redeemCode demo_hash demo_db demo_u1 "287082" "" (59 * second) = (demo_used, None).
Proof. apply (redeemed _ _ _ demo_factor _ _ 1); [reflexivity|done|done|exact demo_code|vm_compute; reflexivity]. Qed.

Lemma totp_code_single_use_witness :
  ∃ db1, redeemCode demo_hash demo_db demo_u1 "287082" "" (59 * second) = (db1, None) ∧
    snd (redeemCode demo_hash (fst (serve demo_hash demo_verify demo_scan db1 0 [(0, RLogout "cookie")]))
           demo_u1 "287082" "" (80 * second)) = Some ErrMFACodeInvalid.
Proof.
  exists demo_used. split; [exact demo_redeemed|].
  rewrite (totp_code_single_use demo_hash demo_verify demo_scan demo_db demo_u1 "287082" (59 * second) demo_used
             demo_factor 1 [(0, RLogout "cookie")] 0 demo_u1 "287082" (80 * second) 1
             (mkFactor 7 (f_secret demo_factor) (f_hashes demo_factor) (Some 0) (Some (stepTime 1))));
    [reflexivity|exact demo_factors_ok|reflexivity|exact demo_code|exact demo_redeemed|vm_compute; reflexivity|reflexivity
    |exact demo_code_late|lia].
Defined.

Lemma recovery_code_single_use_witness :
  ∃ db1, redeemCode demo_hash demo_db demo_u1 "" "1234ABCD 5678ef90" 0 = (db1, None) ∧
    snd (redeemCode demo_hash db1 demo_u1 "" "1234abcd-5678ef90" second) = Some ErrMFACodeInvalid.
Proof.
  destruct (redeemCode demo_hash demo_db demo_u1 "" "1234ABCD 5678ef90" 0) as [db1 r] eqn:E.
  assert (r = None) as -> by (revert E; vm_compute; by intros [= _ <-]).
  exists db1. split; [done|].
  destruct (factors db1 !! 1) as [f'|] eqn:Ef;
    [|exfalso; vm_compute in E; injection E as <-; vm_compute in Ef; discriminate].
  change db1 with (fst (serve demo_hash demo_verify demo_scan db1 0 [])) at 1.
  rewrite (recovery_code_single_use demo_hash demo_verify demo_scan demo_db demo_u1 "" "1234ABCD 5678ef90" 0 db1
             demo_factor [] 0 demo_u1 "" "1234abcd-5678ef90" second f');
    [reflexivity|exact demo_factors_ok|reflexivity|discriminate|discriminate|exact E| |exact Ef| |reflexivity].
  - intros r Hr. by apply not_elem_of_nil in Hr.
  - vm_compute in E. injection E as <-. vm_compute in Ef. injection Ef as <-. reflexivity.
Defined.

(** The lock is read before the password is verified and written after: requests
    that read the row before the fifth failure are all evaluated, however many
    they are, and the right guess among them opens a session. *)
Lemma concurrent_logins_exceed_lockout :
  ∃ u, login_read demo_db "two@example.org" 0 = inr u ∧
    let late := Nat.iter 10 (λ db, fst (login_finish demo_hash demo_verify db u "wrong" "t" "c" 0)) demo_db in
    (∃ row, users late !! 2 = Some row ∧ u_failed row = 10 ∧ locked row 0 = true) ∧
    ∃ s token, snd (login_finish demo_hash demo_verify late u "pw2" "t" "c" 0) = LoggedIn s token.
Proof.
  exists demo_u2. split; [vm_compute; reflexivity|]. split.
  - eexists. split; [vm_compute; reflexivity|]. vm_compute. auto.
  - eexists _, _. vm_compute. reflexivity.
Qed.
