(* ===== verification/Tunnel.v ===== *)
(** * Tunnel streams

    Models [internal/tunnel]: the bounded receive queue of a stream
    ([stream_queue.go]), the wire frames, the bridge side of the multiplexer
    ([tunnel.go]: [openStream], [closeStream], [closeAll]) and the admission and
    teardown of the originating side ([origin.go]).  The goroutines are
    interleaved: each step below is what one of them does between two
    synchronisations — a critical section, a channel operation, a call that may
    block. *)
From S2P Require Import Prelude GoLib.
Local Open Scope Z_scope.

(** ** Wire frames: [u32 big-endian stream id][payload] *)

Module Frame.

(** [mux.sendData], [Origin.sendData] *)
Definition encode (id : Z) (p : list Z) : list Z := pos_digits 256 4 id ++ p.

(** The binary case of [readLoop]. *)
Definition decode (data : list Z) : option (Z * list Z) :=
  if (length data <? 4)%nat then None else Some (pos_value 256 (take 4 data), drop 4 data).

Definition is_u32 (id : Z) : Prop := 0 <= id < 2 ^ 32.

Lemma decode_encode id p : is_u32 id → decode (encode id p) = Some (id, p).
Proof.
  intros Hid. unfold decode, encode. rewrite length_app, pos_digits_length.
  destruct (4 + length p <? 4)%nat eqn:E; [apply Nat.ltb_lt in E; lia|].
  rewrite take_app_length' by (by rewrite pos_digits_length).
  rewrite drop_app_length' by (by rewrite pos_digits_length).
  rewrite pos_value_digits by lia. change (256 ^ Z.of_nat 4) with (2 ^ 32).
  by rewrite Z.mod_small.
Qed.

(** What the decoder hands to stream [id], out of the frames of all streams. *)
Definition deliveries (id : Z) (frames : list (list Z)) : list (list Z) :=
  omap (λ f, '(i, p) ← decode f; if i =? id then Some p else None) frames.

Lemma deliveries_cons id f fs :
  deliveries id (f :: fs) =
  match decode f with
  | Some (i, p) => if i =? id then p :: deliveries id fs else deliveries id fs
  | None => deliveries id fs
  end.
Proof. unfold deliveries. cbn. destruct (decode f) as [[i p]|]; [|done]. cbn. by destruct (i =? id). Qed.

(** The multiplexer is transparent: whatever streams are interleaved on the
    connection, what the decoder delivers to a stream is exactly the payloads
    that were sent on it, in the order they were sent; a frame shorter than its
    header is dropped. *)
Theorem mux_transparent (sends : list (Z * list Z)) (id : Z) :
  Forall (λ x, is_u32 x.1) sends →
  deliveries id ((λ x, encode x.1 x.2) <$> sends) = (filter (λ x, x.1 = id) sends).*2.
Proof.
  induction 1 as [|[i p] sends Hi _ IH]; [done|].
  rewrite fmap_cons, deliveries_cons. cbn [fst snd]. rewrite decode_encode by done.
  destruct (i =? id) eqn:E.
  - apply Z.eqb_eq in E. rewrite filter_cons_True by done. rewrite fmap_cons. by f_equal.
  - apply Z.eqb_neq in E. by rewrite filter_cons_False by done.
Qed.

Lemma mux_transparent_witness :
  deliveries 7 ((λ x, encode x.1 x.2) <$> [(7, [1; 2]); (70000, [9]); (7, [3])]) = [[1; 2]; [3]].
Proof.
  rewrite mux_transparent; [reflexivity|]. repeat constructor; unfold is_u32; simpl; lia.
Defined.
End Frame.

(** ** The receive queue of a stream *)

Module StreamQueue.

Definition streamFramePayload : Z := 32 * 1024.
Definition streamQueueChunks : nat := 16.

(** [streamQueue] with the state of its pump; [accepted] (the bytes of the
    payloads [enqueue] took) and [written] (the bytes that reached the
    destination) are what the theorems speak about. *)
Record state := mkState {
  chunks : list (list Z); closed : bool; pumping : bool;
  accepted : list Z; written : list Z
}.

Definition newStreamQueue : state := mkState [] false true [] [].

(** [streamQueue.enqueue].  When the queue is closed and has room, both cases
    of the select are ready and the runtime picks: [pick] is its choice. *)
Definition enqueue (pick : bool) (p : list Z) (q : state) : state * bool :=
  if (length p =? 0)%nat then (q, true)
  else if streamFramePayload <? Z.of_nat (length p) then (q, false)
  else
    let room := (length (chunks q) <? streamQueueChunks)%nat in
    if closed q && (negb room || pick) then (q, false)
    else if room then
      (mkState (chunks q ++ [p]) (closed q) (pumping q) (accepted q ++ p) (written q), true)
    else (q, false).

(** [streamQueue.close] *)
Definition close (q : state) : state :=
  mkState (chunks q) true (pumping q) (accepted q) (written q).

(** [writeAll] over a destination that accepts [n] bytes of what it is given,
    or fails after some: the bytes written, and whether it ended well. *)
Inductive write_error := WriteFailed | ErrNoProgress.
Fixpoint writeAll (fuel : nat) (write : list Z → nat * bool) (p : list Z) : list Z * option write_error :=
  match fuel, p with
  | _, [] => ([], None)
  | O, _ => ([], Some ErrNoProgress)
  | S f, _ =>
      let '(n, failed) := write p in
      let n := Nat.min n (length p) in
      if failed then (take n p, Some WriteFailed)
      else if (n =? 0)%nat then ([], Some ErrNoProgress)
      else let '(out, e) := writeAll f write (drop n p) in (take n p ++ out, e)
  end.

(** One turn of the loop of [pump]: it stops when the queue is closed, or writes
    the oldest chunk and stops if that failed.  The deferred drain empties the
    queue when it stops. *)
Definition pump_stop (q : state) : option state :=
  if pumping q && closed q
  then Some (mkState [] (closed q) false (accepted q) (written q)) else None.
Definition pump_write (write : list Z → nat * bool) (q : state) : option state :=
  if pumping q then
    match chunks q with
    | [] => None
    | c :: rest =>
        match writeAll (length c) write c with
        | (out, None) => Some (mkState rest (closed q) true (accepted q) (written q ++ out))
        | (out, Some _) => Some (mkState [] (closed q) false (accepted q) (written q ++ out))
        end
    end
  else None.

Inductive step (q : state) : state → Prop :=
| step_enqueue pick p : step q (fst (enqueue pick p q))
| step_close : step q (close q)
| step_pump_stop q' : pump_stop q = Some q' → step q q'
| step_pump_write write q' : pump_write write q = Some q' → step q q'.

(** [writeAll] writes everything or reports an error, and what it wrote is a
    prefix either way; one unit of fuel per byte is enough. *)
Lemma writeAll_spec fuel write p :
  (length p <= fuel)%nat →
  match writeAll fuel write p with
  | (out, None) => out = p
  | (out, Some _) => out `prefix_of` p
  end.
Proof.
  revert p. induction fuel as [|f IH]; intros p Hp; [destruct p; [done|simpl in Hp; lia]|].
  destruct p as [|b p]; [done|]. cbn [writeAll]. destruct (write (b :: p)) as [n failed].
  destruct failed; [exists (drop (Nat.min n (length (b :: p))) (b :: p)); by rewrite take_drop|].
  destruct (_ =? 0)%nat eqn:E; [apply prefix_nil|]. apply Nat.eqb_neq in E.
  specialize (IH (drop (Nat.min n (length (b :: p))) (b :: p))).
  destruct (writeAll f write _) as [out [e|]].
  - destruct IH as [k Hk]; [rewrite length_drop; simpl in *; lia|]. exists k.
    rewrite <- app_assoc, <- Hk. by rewrite take_drop.
  - rewrite IH by (rewrite length_drop; simpl in *; lia). by rewrite take_drop.
Qed.

(** The invariant: bounds, and in-order delivery. *)
Definition ok (q : state) : Prop :=
  (length (chunks q) <= streamQueueChunks)%nat ∧
  Forall (λ c, 0 < Z.of_nat (length c) <= streamFramePayload) (chunks q) ∧
  (if pumping q then accepted q = written q ++ concat (chunks q)
   else written q `prefix_of` accepted q).

Lemma ok_enqueue pick p q : ok q → ok (fst (enqueue pick p q)).
Proof.
  intros (Hn & Hc & Ha). unfold enqueue.
  destruct (length p =? 0)%nat eqn:E0; [done|]. destruct (_ <? Z.of_nat (length p)) eqn:E1; [done|].
  destruct (closed q && _); [done|]. destruct (_ <? streamQueueChunks)%nat eqn:E2; [|done].
  apply Nat.eqb_neq in E0. apply Z.ltb_ge in E1. apply Nat.ltb_lt in E2. split_and!; simpl.
  - rewrite length_app. simpl. lia.
  - apply Forall_app. split; [done|]. constructor; [lia|constructor].
  - destruct (pumping q); [rewrite Ha, concat_app; simpl; by rewrite app_nil_r, app_assoc|].
    by apply prefix_app_r.
Qed.

Lemma ok_pump_write write q q' : ok q → pump_write write q = Some q' → ok q'.
Proof.
  intros (Hn & Hc & Ha). unfold pump_write. destruct (pumping q); [|done].
  destruct (chunks q) as [|c rest] eqn:Ec; [done|].
  pose proof (writeAll_spec (length c) write c (le_n _)) as Hw.
  apply Forall_cons in Hc as [_ Hc]. simpl in Hn.
  destruct (writeAll (length c) write c) as [out [e|]]; intros [= <-]; (split_and!; simpl).
  - lia.
  - constructor.
  - rewrite Ha. simpl. destruct Hw as [k ->]. exists (k ++ concat rest). by rewrite <- !app_assoc.
  - lia.
  - done.
  - subst out. rewrite Ha. simpl. by rewrite app_assoc.
Qed.

(** A stalled consumer costs at most sixteen chunks of 32 KiB, whatever the
    peer sends and however the goroutines interleave; and what reaches the
    destination is, byte for byte and in order, a prefix of what was accepted
    — all of it but the chunks still waiting, while the pump runs. *)
Theorem stream_queue_bounded_fifo q :
  reachable_from step newStreamQueue q →
  Z.of_nat (length (concat (chunks q))) <= 512 * 1024 ∧
  written q `prefix_of` accepted q ∧
  (pumping q = true → accepted q = written q ++ concat (chunks q)).
Proof.
  intros Hr. assert (Hok : ok q).
  { revert Hr. apply (reachable_invariant step ok).
    - split_and!; simpl; [unfold streamQueueChunks; lia|constructor|done].
    - intros q1 q2 Hok Hs. destruct Hs as [pick p| |q2 Hp|write q2 Hp].
      + by apply ok_enqueue.
      + exact Hok.
      + unfold pump_stop in Hp. destruct (pumping q1) eqn:Ep; [|done]. destruct (closed q1); [|done].
        injection Hp as <-. destruct Hok as (_ & _ & Ha). rewrite Ep in Ha.
        split_and!; simpl; [unfold streamQueueChunks; lia|constructor|]. rewrite Ha. by eexists.
      + by eapply ok_pump_write. }
  destruct Hok as (Hn & Hc & Ha). split; [|split].
  - assert (Hlen : Z.of_nat (length (concat (chunks q))) <= Z.of_nat (length (chunks q)) * streamFramePayload).
    { clear Hn Ha. induction Hc as [|c l Hx _ IH]; simpl; [lia|]. rewrite length_app. lia. }
    unfold streamFramePayload, streamQueueChunks in *. nia.
  - destruct (pumping q); [rewrite Ha; by eexists|done].
  - intros E. by rewrite E in Ha.
Qed.

Lemma stream_queue_bounded_fifo_witness :
  ∃ q, q = fst (enqueue false [1; 2; 3] newStreamQueue) ∧
    Z.of_nat (length (concat (chunks q))) <= 512 * 1024 ∧ accepted q = written q ++ concat (chunks q).
Proof.
  eexists. split; [reflexivity|].
  destruct (stream_queue_bounded_fifo (fst (enqueue false [1; 2; 3] newStreamQueue))) as (H & _ & Ha).
  { eapply reach_step; [apply reach_here|]. apply step_enqueue. }
  split; [exact H|]. apply Ha. reflexivity.
Defined.
End StreamQueue.

(** ** The bridge: dialing side of the multiplexer *)

Module Bridge.

(** [mux]; a target connection is a handle.  [live] are the connections dialed
    and not closed, [used] the stream ids the peer asked for, [dialing] the
    open the reader goroutine is in, past its limit check. *)
Record mux := mkMux {
  max : Z; streams : gmap Z Z; dialing : option Z;
  live : gset Z; next_target : Z; used : gset Z
}.

Definition new_mux (n : Z) : mux := mkMux n ∅ None ∅ 0 ∅.

Inductive action :=
| Open (id : Z)        (** the control frame "open", up to the dial *)
| DialFailed
| DialDone             (** the dial returned and the stream is registered *)
| Close (id : Z)       (** "eof"/"close", an overflow, a pump or reader that ended *)
| CloseAll.            (** the deferred teardown of [Bridge] *)

(** [mux.closeStream] *)
Definition closeStream (id : Z) (m : mux) : mux :=
  match streams m !! id with
  | Some t => mkMux (max m) (delete id (streams m)) (dialing m) (live m ∖ {[ t ]}) (next_target m) (used m)
  | None => m
  end.

(** [mux.closeAll] *)
Definition closeAll (m : mux) : mux :=
  mkMux (max m) ∅ (dialing m) (live m ∖ list_to_set (map_to_list (streams m)).*2) (next_target m) (used m).

(** [mux.openStream] in its three parts. *)
Definition open_check (id : Z) (m : mux) : mux :=
  if max m <=? Z.of_nat (size (streams m))
  then mkMux (max m) (streams m) None (live m) (next_target m) ({[ id ]} ∪ used m)
  else mkMux (max m) (streams m) (Some id) (live m) (next_target m) ({[ id ]} ∪ used m).
Definition register (id : Z) (m : mux) : mux :=
  mkMux (max m) (<[ id := next_target m ]> (streams m)) None ({[ next_target m ]} ∪ live m)
    (next_target m + 1) (used m).

Definition apply (a : action) (m : mux) : option mux :=
  match a, dialing m with
  | Open id, None => Some (open_check id m)
  | DialFailed, Some _ => Some (mkMux (max m) (streams m) None (live m) (next_target m) (used m))
  | DialDone, Some id => Some (register id m)
  | Close id, _ => Some (closeStream id m)
  | CloseAll, _ => Some (closeAll m)
  | _, _ => None
  end.

(** The peer that never reuses a stream id, as [Origin] is. *)
Definition step (m m' : mux) : Prop :=
  ∃ a, apply a m = Some m' ∧ match a with Open id => id ∉ used m | _ => True end.

(** Each registered stream has a connection of its own, and those are the live
    connections. *)
Record ok (m : mux) : Prop := mkOk {
  ok_size : Z.of_nat (size (streams m)) + (if dialing m is Some _ then 1 else 0) <= max m;
  ok_old : ∀ i t, streams m !! i = Some t → t < next_target m ∧ i ∈ used m;
  ok_inj : ∀ i k t, streams m !! i = Some t → streams m !! k = Some t → i = k;
  ok_live : ∀ t, t ∈ live m ↔ ∃ i, streams m !! i = Some t;
  ok_dial : ∀ i, dialing m = Some i → streams m !! i = None ∧ i ∈ used m
}.

Lemma bridge_ok_closeStream id m : ok m → ok (closeStream id m).
Proof.
  intros Hok. unfold closeStream. destruct (streams m !! id) as [t|] eqn:Ht; [|done].
  destruct Hok as [Hs Ho Hi Hl Hd]. split; simpl.
  - rewrite map_size_delete_Some by eauto. destruct (dialing m); lia.
  - intros i t' Hi'. apply lookup_delete_Some in Hi' as [_ Hi']. eauto.
  - intros i k t' H1 H2. apply lookup_delete_Some in H1 as [_ H1], H2 as [_ H2]. eauto.
  - intros t'. rewrite elem_of_difference, not_elem_of_singleton, Hl. split.
    + intros [[i Hi'] Hne]. exists i. apply lookup_delete_Some. split; [|done]. intros <-. congruence.
    + intros [i Hi']. apply lookup_delete_Some in Hi' as [Hne Hi']. split; [eauto|].
      intros ->. apply Hne. eauto.
  - intros i Hi'. destruct (Hd i Hi'). split; [|done]. by rewrite lookup_delete_None; right.
Qed.

Lemma elem_of_targets (s : gmap Z Z) t : t ∈ (map_to_list s).*2 ↔ ∃ i, s !! i = Some t.
Proof.
  rewrite list_elem_of_fmap. split.
  - intros ([i t'] & -> & H). exists i. by apply elem_of_map_to_list.
  - intros [i H]. exists (i, t). split; [done|]. by apply elem_of_map_to_list.
Qed.

Lemma closeAll_live m : ok m → live (closeAll m) = ∅.
Proof.
  intros [_ _ _ Hl _]. apply set_eq. intros t. simpl.
  rewrite elem_of_difference, elem_of_list_to_set, elem_of_targets, Hl. set_solver.
Qed.

Lemma bridge_ok_step m m' : ok m → step m m' → ok m'.
Proof.
  intros Hok (a & Ha & Hfresh). pose proof (closeAll_live m Hok) as Hcl.
  destruct a as [id| | |id|]; simpl in Ha; destruct (dialing m) as [d|] eqn:Ed; simplify_eq/=.
  - unfold open_check. destruct Hok as [Hs Ho Hi Hl Hd]. rewrite Ed in Hs.
    assert (Ho' : ∀ i t, streams m !! i = Some t → t < next_target m ∧ i ∈ {[ id ]} ∪ used m).
    { intros i t Hit. destruct (Ho i t Hit). split; [done|set_solver]. }
    destruct (max m <=? _) eqn:E; apply Z.leb_le in E || apply Z.leb_gt in E;
      (split; simpl; [lia|exact Ho'|exact Hi|exact Hl|]); [done|].
    intros i [= <-]. split; [|set_solver]. destruct (streams m !! id) eqn:Ei; [|done].
    exfalso. apply Hfresh. by eapply Ho.
  - destruct Hok as [Hs Ho Hi Hl Hd]. rewrite Ed in Hs. split; simpl; try done. lia.
  - destruct Hok as [Hs Ho Hi Hl Hd]. rewrite Ed in Hs. destruct (Hd d Ed) as [Hnone Hused].
    split; simpl.
    + rewrite map_size_insert_None by done. lia.
    + intros i t Hit. apply lookup_insert_Some in Hit as [[<- <-]|[_ Hit]]; [split; [lia|done]|].
      destruct (Ho i t Hit). split; [lia|done].
    + intros i k t H1 H2. apply lookup_insert_Some in H1 as [[<- <-]|[_ H1]], H2 as [[<- H2]|[_ H2]]; try done.
      * destruct (Ho _ _ H2). lia.
      * subst. destruct (Ho _ _ H1). lia.
      * eauto.
    + intros t. rewrite elem_of_union, elem_of_singleton, Hl. split.
      * intros [->|[i Hit]]; [exists d; by rewrite lookup_insert_eq|].
        exists i. rewrite lookup_insert_ne; [done|]. intros <-. congruence.
      * intros [i Hit]. apply lookup_insert_Some in Hit as [[_ <-]|[_ Hit]]; [by left|right; eauto].
    + done.
  - by apply bridge_ok_closeStream.
  - by apply bridge_ok_closeStream.
  - destruct Hok as [Hs Ho Hi Hl Hd]. rewrite Ed in Hs. split; simpl; try done.
    + rewrite Ed, map_size_empty. lia.
    + change (live (closeAll m)) with (live m ∖ list_to_set (map_to_list (streams m)).*2) in Hcl.
      rewrite Hcl. set_solver.
    + intros i Hi'. destruct (Hd i Hi'). done.
  - destruct Hok as [Hs Ho Hi Hl Hd]. rewrite Ed in Hs. split; simpl; try done.
    + rewrite Ed, map_size_empty. lia.
    + change (live (closeAll m)) with (live m ∖ list_to_set (map_to_list (streams m)).*2) in Hcl.
      rewrite Hcl. set_solver.
    + intros i Hi'. congruence.
Qed.

Definition fresh (a : action) (m : mux) : bool :=
  match a with Open id => bool_decide (id ∉ used m) | _ => true end.

Fixpoint run_actions (acts : list action) (m : mux) : option mux :=
  match acts with
  | [] => Some m
  | a :: rest => m' ← apply a m; run_actions rest m'
  end.

Fixpoint run_fresh (acts : list action) (m : mux) : option mux :=
  match acts with
  | [] => Some m
  | a :: rest => if fresh a m then m' ← apply a m; run_fresh rest m' else None
  end.

Lemma run_fresh_reachable acts m0 m m' :
  reachable_from step m0 m → run_fresh acts m = Some m' → reachable_from step m0 m'.
Proof.
  revert m. induction acts as [|a acts IH]; intros m Hr H; simpl in H; [by simplify_eq|].
  destruct (fresh a m) eqn:Hf; [|done]. destruct (apply a m) as [m1|] eqn:Ha; [|done]. simpl in H.
  apply (IH m1); [|done]. eapply reach_step; [done|]. exists a. split; [done|].
  destruct a; try done. by apply bool_decide_eq_true in Hf.
Qed.

(** With a peer that does not reuse stream ids, a bridge never has more
    streams than its bound, the target connections that are open are exactly
    those of the registered streams, and a teardown that finds no dial in
    flight leaves no connection open. *)
Theorem bridge_no_leak n m :
  0 < n → reachable_from step (new_mux n) m →
  Z.of_nat (size (streams m)) <= n ∧
  (∀ t, t ∈ live m ↔ ∃ i, streams m !! i = Some t) ∧
  (dialing m = None → live (closeAll m) = ∅ ∧ dialing (closeAll m) = None).
Proof.
  intros Hn Hr.
  assert (H : ok m ∧ max m = n).
  { revert Hr. apply (reachable_invariant step (λ m, ok m ∧ max m = n)).
    - split; [|done]. split; simpl; try done; [rewrite map_size_empty; lia|].
      intros t. split; [set_solver|intros [i Hi]; by rewrite lookup_empty in Hi].
    - intros m1 m2 [Hok Hm] Hs. split; [by eapply bridge_ok_step|]. destruct Hs as (a & Ha & _).
      destruct a; simpl in Ha; destruct (dialing m1); simplify_eq/=; try done;
        unfold open_check, closeStream; repeat case_match; done. }
  destruct H as [Hok <-]. split; [|split].
  - destruct Hok as [Hs _ _ _ _]. destruct (dialing m); lia.
  - apply Hok.
  - intros Hd. split; [by apply closeAll_live|done].
Qed.

Lemma bridge_no_leak_witness :
  ∃ m, run_fresh [Open 1; DialDone; Open 2; DialDone; Close 1; Open 3; DialFailed] (new_mux 2) = Some m ∧
    Z.of_nat (size (streams m)) <= 2 ∧ live (closeAll m) = ∅.
Proof.
  destruct (run_fresh _ _) as [m|] eqn:E; [|exfalso; vm_compute in E; discriminate].
  exists m. split; [done|]. destruct (bridge_no_leak 2 m) as (Hs & _ & Hc); [lia| |].
  - eapply run_fresh_reachable; [apply reach_here|exact E].
  - split; [exact Hs|]. apply Hc. vm_compute in E. injection E as <-. reflexivity.
Defined.

(** [openStream] registers whatever id it is asked for: a second "open" of the
    same id replaces the entry, and the first connection is in no table any
    more — neither the bound nor the teardown sees it. *)
Lemma duplicate_open_leaks :
  ∃ m, run_actions [Open 1; DialDone; Open 1; DialDone; Open 1; DialDone] (new_mux 2) = Some m ∧
    Z.of_nat (size (live m)) = 3 ∧ live (closeAll m) = {[ 0; 1 ]}.
Proof.
  eexists. split; [vm_compute; reflexivity|]. split; [vm_compute; reflexivity|].
  apply set_eq. intros t. vm_compute. done.
Qed.

(** The teardown does not mark the multiplexer closed (the originating side
    does): a dial that completes after it registers a stream nobody closes. *)
Lemma dial_during_teardown_leaks :
  ∃ m, run_fresh [Open 1; CloseAll; DialDone] (new_mux 1) = Some m ∧ live m = {[ 0 ]}.
Proof. eexists. split; [vm_compute; reflexivity|]. vm_compute. reflexivity. Qed.
End Bridge.

(** ** The originating side: admission, registration, teardown *)

Module Origin.

(** Where an [OpenStream] call is: waiting in the queue, leaving it (the
    deferred decrement still to run) with a slot or with an error, holding a
    slot before registration, or registered and waiting for the answer. *)
Inductive phase := Queued | LeavingOk | LeavingErr | Holding | Waiting (id : Z).

(** [Origin]; [slots] counts the tokens in the channel [streamSlots],
    [releasing] the goroutines that removed a stream and have yet to take its
    token out, [opens] the streams ever registered. *)
Record origin := mkOrigin {
  max : Z; maxQueued : Z; slots : Z; queued : Z; nextID : Z; opens : Z;
  streams : gset Z; closed : bool; done : bool;
  callers : gmap nat phase; releasing : Z
}.

(** [NewOriginWithOptions] *)
Definition DefaultMaxStreams : Z := 32.
Definition NewOriginWithOptions (maxStreams maxPending : Z) : origin :=
  mkOrigin (if maxStreams <=? 0 then DefaultMaxStreams else maxStreams) (Z.max maxPending 0)
    0 0 0 0 ∅ false false ∅ 0.

Definition upd (o : origin) (sl q n k : Z) (ss : gset Z) (cs : gmap nat phase) (rel : Z) : origin :=
  mkOrigin (max o) (maxQueued o) sl q n k ss (closed o) (done o) cs rel.

Inductive action :=
| Enter (c : nat)      (** a call starts: [acquireStream]'s first critical section *)
| TakeSlot (c : nat)   (** a queued call gets a slot *)
| GiveUp (c : nat)     (** context, deadline or shutdown while queued *)
| Leave (c : nat)      (** the deferred [queued--] *)
| SeeDone (c : nat)    (** the second look at [done] *)
| Register (c : nat)   (** the critical section that numbers the stream *)
| Abort (c : nat)      (** refused, timed out, cancelled: [dropStream] *)
| Return (c : nat)     (** answered: the stream is the caller's *)
| Close (id : Z)       (** [closeStream] by any other goroutine *)
| Release              (** [<-o.streamSlots] *)
| CloseDone            (** [close(o.done)] *)
| Shutdown.            (** the critical section of [shutdown] *)

(** [Origin.closeStream], up to the release. *)
Definition closeStream (id : Z) (o : origin) : origin :=
  if bool_decide (id ∈ streams o)
  then upd o (slots o) (queued o) (nextID o) (opens o) (streams o ∖ {[ id ]}) (callers o) (releasing o + 1)
  else o.

Definition set_caller (c : nat) (p : phase) (o : origin) : origin :=
  upd o (slots o) (queued o) (nextID o) (opens o) (streams o) (<[ c := p ]> (callers o)) (releasing o).
Definition drop_caller (c : nat) (o : origin) : origin :=
  upd o (slots o) (queued o) (nextID o) (opens o) (streams o) (delete c (callers o)) (releasing o).
Definition add_slots (n : Z) (o : origin) : origin :=
  upd o (slots o + n) (queued o) (nextID o) (opens o) (streams o) (callers o) (releasing o).
Definition add_queued (n : Z) (o : origin) : origin :=
  upd o (slots o) (queued o + n) (nextID o) (opens o) (streams o) (callers o) (releasing o).
Definition add_releasing (n : Z) (o : origin) : origin :=
  upd o (slots o) (queued o) (nextID o) (opens o) (streams o) (callers o) (releasing o + n).

(** [Origin.acquireStream], its first critical section: a slot at once when
    nobody waits, a refusal when the queue is full ([ErrOriginQueueFull]), a
    place in the queue otherwise. *)
Definition acquireStream (c : nat) (o : origin) : origin :=
  if (queued o =? 0) && (slots o <? max o) then set_caller c Holding (add_slots 1 o)
  else if maxQueued o <=? queued o then o
  else set_caller c Queued (add_queued 1 o).

(** [Origin.shutdown], after [close(o.done)]: the streams are detached in one
    critical section, and each gives its slot back afterwards. *)
Definition shutdown (o : origin) : origin :=
  mkOrigin (max o) (maxQueued o) (slots o) (queued o) (nextID o) (opens o) ∅ true true
    (callers o) (releasing o + Z.of_nat (size (streams o))).

Definition apply (a : action) (o : origin) : option origin :=
  match a with
  | Enter c =>
      match callers o !! c with
      | Some _ => None
      | None => if done o then Some o else Some (acquireStream c o)
      end
  | TakeSlot c =>
      match callers o !! c with
      | Some Queued => if slots o <? max o then Some (set_caller c LeavingOk (add_slots 1 o)) else None
      | _ => None
      end
  | GiveUp c =>
      match callers o !! c with Some Queued => Some (set_caller c LeavingErr o) | _ => None end
  | Leave c =>
      match callers o !! c with
      | Some LeavingOk => Some (set_caller c Holding (add_queued (-1) o))
      | Some LeavingErr => Some (drop_caller c (add_queued (-1) o))
      | _ => None
      end
  | SeeDone c =>
      match callers o !! c with
      | Some Holding => if done o then Some (drop_caller c (add_releasing 1 o)) else None
      | _ => None
      end
  | Register c =>
      match callers o !! c with
      | Some Holding =>
          if closed o then Some (drop_caller c (add_releasing 1 o))
          else
            let id := (nextID o + 1) `mod` 2 ^ 32 in
            Some (upd o (slots o) (queued o) id (opens o + 1) ({[ id ]} ∪ streams o)
                    (<[ c := Waiting id ]> (callers o)) (releasing o))
      | _ => None
      end
  | Abort c =>
      match callers o !! c with
      | Some (Waiting id) => Some (drop_caller c (closeStream id o))
      | _ => None
      end
  | Return c =>
      match callers o !! c with Some (Waiting _) => Some (drop_caller c o) | _ => None end
  | Close id => Some (closeStream id o)
  | Release => if (0 <? releasing o) && (0 <? slots o) then Some (add_releasing (-1) (add_slots (-1) o)) else None
  | CloseDone => Some (mkOrigin (max o) (maxQueued o) (slots o) (queued o) (nextID o) (opens o) (streams o)
                         (closed o) true (callers o) (releasing o))
  | Shutdown =>
      if done o && negb (closed o) then Some (shutdown o) else None
  end.

Definition step (o o' : origin) : Prop := ∃ a, apply a o = Some o'.

Definition holds (p : phase) : bool := match p with LeavingOk | Holding => true | _ => false end.
Definition waits (p : phase) : bool := match p with Queued | LeavingOk | LeavingErr => true | _ => false end.

(** Every token in the channel is accounted for. *)
Record ok (o : origin) : Prop := mkOk {
  ok_slots : slots o = Z.of_nat (size (streams o)) + count holds (callers o) + releasing o;
  ok_max : slots o <= max o;
  ok_rel : 0 <= releasing o;
  ok_queued : queued o = count waits (callers o);
  ok_maxq : queued o <= maxQueued o;
  ok_ids : (0 <= opens o ∧ nextID o = opens o) ∧ ∀ i, i ∈ streams o → 0 < i <= opens o;
  ok_closed : closed o = true → streams o = ∅ ∧ done o = true
}.

Lemma origin_ok_closeStream id o : ok o → ok (closeStream id o).
Proof.
  intros [Hs Hm Hr Hq Hmq [Hn Hi] Hc]. unfold closeStream. case_bool_decide as Hin; [|done].
  assert (Hsz : Z.of_nat (size (streams o ∖ {[ id ]})) = Z.of_nat (size (streams o)) - 1).
  { rewrite size_difference by set_solver. rewrite size_singleton.
    assert (size (streams o) ≠ 0%nat) by (intros E; apply size_empty_inv in E; set_solver). lia. }
  split; simpl; try done; try lia.
  - split; [done|]. intros i Hi'. apply Hi. set_solver.
  - intros E. destruct (Hc E). set_solver.
Qed.

(** A caller that moves between phases with the matching token and counter. *)
Lemma ok_move o c p p' ds dq dr :
  ok o → callers o !! c = Some p →
  ds = b2z (holds p') - b2z (holds p) + dr → dq = b2z (waits p') - b2z (waits p) →
  slots o + ds <= max o → queued o + dq <= maxQueued o → 0 <= releasing o + dr →
  ok (upd o (slots o + ds) (queued o + dq) (nextID o) (opens o) (streams o)
        (<[ c := p' ]> (callers o)) (releasing o + dr)).
Proof.
  intros [Hs Hm Hr Hq Hmq Hi Hc] Hp -> -> H1 H2 H3. split; simpl; try done.
  - rewrite (count_insert holds _ c p' p Hp). lia.
  - rewrite (count_insert waits _ c p' p Hp). lia.
Qed.

Lemma ok_drop o c p dq dr :
  ok o → callers o !! c = Some p → dr = b2z (holds p) → dq = - b2z (waits p) →
  ok (upd o (slots o) (queued o + dq) (nextID o) (opens o) (streams o) (delete c (callers o)) (releasing o + dr)).
Proof.
  intros [Hs Hm Hr Hq Hmq Hi Hc] Hp -> ->. split; simpl; try done.
  - rewrite (count_delete holds _ c p Hp). lia.
  - destruct (holds p); simpl; lia.
  - rewrite (count_delete waits _ c p Hp). lia.
  - destruct (waits p); simpl; lia.
Qed.

Lemma ok_enter o c p ds dq :
  ok o → callers o !! c = None → ds = b2z (holds p) → dq = b2z (waits p) →
  slots o + ds <= max o → queued o + dq <= maxQueued o →
  ok (upd o (slots o + ds) (queued o + dq) (nextID o) (opens o) (streams o)
        (<[ c := p ]> (callers o)) (releasing o)).
Proof.
  intros [Hs Hm Hr Hq Hmq Hi Hc] Hp -> -> H1 H2. split; simpl; try done.
  - rewrite (count_insert_new holds _ c p Hp). lia.
  - rewrite (count_insert_new waits _ c p Hp). lia.
Qed.

Lemma ok_eq o o' : ok o → o = o' → ok o'.
Proof. by intros H <-. Qed.

Ltac same_origin := unfold set_caller, drop_caller, add_slots, add_queued, add_releasing, upd; simpl; f_equal; lia.

Lemma ok_register o c :
  ok o → callers o !! c = Some Holding → closed o = false → opens o + 1 < 2 ^ 32 →
  let id := (nextID o + 1) `mod` 2 ^ 32 in
  ok (upd o (slots o) (queued o) id (opens o + 1) ({[ id ]} ∪ streams o)
        (<[ c := Waiting id ]> (callers o)) (releasing o)).
Proof.
  intros [Hs Hm Hr Hq Hmq [[Hpos Hn] Hi] Hc] Hp Hcl Hlt id.
  assert (Hid : id = opens o + 1) by (unfold id; rewrite Hn, Z.mod_small; lia).
  assert (Hfresh : id ∉ streams o) by (intros Hin; specialize (Hi id Hin); lia).
  split; simpl; try done.
  - rewrite (count_insert holds _ c _ _ Hp), size_union, size_singleton by set_solver. simpl. lia.
  - rewrite (count_insert waits _ c _ _ Hp). simpl. lia.
  - split; [lia|]. intros i. rewrite elem_of_union, elem_of_singleton. intros [->|Hin]; [lia|].
    specialize (Hi i Hin). lia.
  - congruence.
Qed.

Lemma origin_ok_step o o' : ok o → opens o' < 2 ^ 32 → step o o' → ok o'.
Proof.
  intros Hok Hlt [a Ha]. pose proof Hok as [Hs Hm Hr Hq Hmq Hi Hc].
  pose proof (count_nonneg holds (callers o)). pose proof (count_nonneg waits (callers o)).
  destruct a as [c|c|c|c|c|c|c|c|id| | |]; simpl in Ha.
  - destruct (callers o !! c) eqn:Ec; [done|]. destruct (done o); [by simplify_eq|].
    unfold acquireStream in Ha. destruct (_ && _) eqn:E1.
    { simplify_eq. reflect_bools. eapply ok_eq; [apply (ok_enter o c Holding 1 0); simpl; try done; lia|same_origin]. }
    destruct (maxQueued o <=? queued o) eqn:E2; simplify_eq; [done|]. reflect_bools;
      (eapply ok_eq; [apply (ok_enter o c Queued 0 1); simpl; try done; lia|same_origin]).
  - destruct (callers o !! c) as [[]|] eqn:Ec; try done. destruct (_ <? _) eqn:E; simplify_eq. reflect_bools.
    eapply ok_eq; [apply (ok_move o c Queued LeavingOk 1 0 0); simpl; try done; lia|same_origin].
  - destruct (callers o !! c) as [[]|] eqn:Ec; simplify_eq.
    eapply ok_eq; [apply (ok_move o c Queued LeavingErr 0 0 0); simpl; try done; lia|same_origin].
  - destruct (callers o !! c) as [[]|] eqn:Ec; simplify_eq.
    + eapply ok_eq; [apply (ok_move o c LeavingOk Holding 0 (-1) 0); simpl; try done; lia|same_origin].
    + eapply ok_eq; [apply (ok_drop o c LeavingErr (-1) 0); simpl; try done; lia|same_origin].
  - destruct (callers o !! c) as [[]|] eqn:Ec; try done. destruct (done o); simplify_eq.
    eapply ok_eq; [apply (ok_drop o c Holding 0 1); simpl; try done; lia|same_origin].
  - destruct (callers o !! c) as [[]|] eqn:Ec; try done. destruct (closed o) eqn:Ecl; simplify_eq.
    + eapply ok_eq; [apply (ok_drop o c Holding 0 1); simpl; try done; lia|same_origin].
    + by apply ok_register.
  - destruct (callers o !! c) as [[| | | |i]|] eqn:Ec; simplify_eq.
    assert (Ec' : callers (closeStream i o) !! c = Some (Waiting i))
      by (unfold closeStream; case_bool_decide; done).
    eapply ok_eq; [apply (ok_drop (closeStream i o) c (Waiting i) 0 0 (origin_ok_closeStream i o Hok) Ec'); done|same_origin].
  - destruct (callers o !! c) as [[| | | |i]|] eqn:Ec; simplify_eq.
    eapply ok_eq; [apply (ok_drop o c (Waiting i) 0 0); simpl; try done; lia|same_origin].
  - simplify_eq. by apply origin_ok_closeStream.
  - destruct (_ && _) eqn:E; simplify_eq. reflect_bools. split; simpl; try done; lia.
  - simplify_eq. split; simpl; try done. intros E. destruct (Hc E). done.
  - destruct (_ && _) eqn:E; simplify_eq. reflect_bools. split; simpl; try done; try lia.
    + change (set_size _) with (size (∅ : gset Z)). rewrite size_empty. lia.
    + split; [apply Hi|]. set_solver.
Qed.

Lemma opens_mono a o o' : apply a o = Some o' → opens o <= opens o'.
Proof.
  destruct a; simpl; unfold acquireStream, closeStream; intros Ha; repeat case_match; simplify_eq/=; lia.
Qed.

(** Bounds set at construction never change. *)
Lemma bounds_kept a o o' : apply a o = Some o' → max o' = max o ∧ maxQueued o' = maxQueued o.
Proof.
  destruct a; simpl; unfold acquireStream, closeStream; intros Ha; repeat case_match; simplify_eq/=; done.
Qed.

Lemma origin_ok n p o :
  reachable_from step (NewOriginWithOptions n p) o → opens o < 2 ^ 32 → ok o.
Proof.
  intros Hr. induction Hr as [|o o' Hr IH Hs]; intros Hlt.
  - split; cbn [NewOriginWithOptions slots streams callers releasing queued maxQueued max nextID opens closed done];
      try done; try lia.
    destruct (n <=? 0) eqn:E; reflect_bools; unfold DefaultMaxStreams; lia.
  - apply (origin_ok_step o o'); [|done|done]. apply IH. destruct Hs as [a Ha].
    pose proof (opens_mono a o o' Ha). lia.
Qed.

(** Admission and teardown of the originating side.  In every interleaving
    of callers, closers and the shutdown — up to 2^32 streams, after which the
    numbering wraps —: at most [MaxStreams] streams are registered and at most
    [MaxPendingStreams] callers wait; every slot taken belongs to a registered
    stream, to a caller about to register or to a goroutine about to give it
    back, so that a release never blocks and is never missed; and once the
    session shut down and everybody returned, no stream and no slot is left. *)
Theorem origin_admission n p o :
  reachable_from step (NewOriginWithOptions n p) o → opens o < 2 ^ 32 →
  Z.of_nat (size (streams o)) <= (if n <=? 0 then 32 else n) ∧ queued o <= Z.max p 0 ∧
  slots o = Z.of_nat (size (streams o)) + count holds (callers o) + releasing o ∧
  (0 < releasing o → 0 < slots o) ∧
  (∀ c, callers o !! c = Some Holding → 0 < slots o) ∧
  (callers o = ∅ → releasing o = 0 → slots o = Z.of_nat (size (streams o)) ∧ queued o = 0) ∧
  (closed o = true → callers o = ∅ → releasing o = 0 → streams o = ∅ ∧ slots o = 0).
Proof.
  intros Hr Hlt. destruct (origin_ok n p o Hr Hlt) as [Hs Hm Hrel Hq Hmq Hi Hc].
  assert (Hb : max o = (if n <=? 0 then DefaultMaxStreams else n) ∧ maxQueued o = Z.max p 0).
  { clear -Hr. induction Hr as [|o o' _ [IH1 IH2] [a Ha]]; [done|].
    destruct (bounds_kept a o o' Ha) as [-> ->]. done. }
  destruct Hb as [Hmax Hmaxq]. rewrite Hmax in Hm. rewrite Hmaxq in Hmq. unfold DefaultMaxStreams in Hm.
  pose proof (count_nonneg holds (callers o)). split_and!; try lia.
  - intros c Hc'. pose proof (count_pos_lookup holds (callers o) c Holding Hc' eq_refl). lia.
  - intros Hcal Hrel0. rewrite Hcal, count_empty in Hs, Hq. split; lia.
  - intros Hcl Hcal Hrel0. destruct (Hc Hcl) as [E _]. split; [done|].
    rewrite Hcal, count_empty, E, size_empty in Hs. lia.
Qed.

Fixpoint run_actions (acts : list action) (o : origin) : option origin :=
  match acts with
  | [] => Some o
  | a :: rest => o' ← apply a o; run_actions rest o'
  end.

Lemma origin_run_reachable acts o0 o o' :
  reachable_from step o0 o → run_actions acts o = Some o' → reachable_from step o0 o'.
Proof.
  revert o. induction acts as [|a acts IH]; intros o Hr H; simpl in H; [by simplify_eq|].
  destruct (apply a o) as [o1|] eqn:Ha; [|done]. simpl in H.
  apply (IH o1); [|done]. eapply reach_step; [done|]. by exists a.
Qed.

(** One slot, one waiter: a shutdown overtakes a caller that just got the slot. *)
Lemma origin_admission_witness :
  ∃ o, run_actions [Enter 0; Register 0; Return 0; Enter 1; Close 1; Release; TakeSlot 1; CloseDone; Shutdown;
                    Leave 1; Register 1; Release] (NewOriginWithOptions 1 1) = Some o ∧
    streams o = ∅ ∧ slots o = 0.
Proof.
  destruct (run_actions _ _) as [o|] eqn:E; [|exfalso; vm_compute in E; discriminate].
  exists o. split; [done|].
  destruct (origin_admission 1 1 o) as (_ & _ & _ & _ & _ & _ & H).
  - eapply origin_run_reachable; [apply reach_here|exact E].
  - vm_compute in E. injection E as <-. reflexivity.
  - apply H; vm_compute in E; injection E as <-; reflexivity.
Defined.
End Origin.
