(* ===== verification/AgentWire.v ===== *)
(** * The agent channel

    Models [internal/agentwire]: the table of commands in flight on a shared
    connection ([conn.go]: [start], [finish], [DeliverResult], [DeliverChunk]),
    the reader of a command's output stream, the sender behind it
    ([PumpReader]), and the typed errors ([wire.go]).  The read loop that
    delivers frames and the consumer of a stream interleave freely. *)
From S2P Require Import Prelude GoLib.
Local Open Scope Z_scope.

(** ** Errors on the wire *)

(** [Error]: a code and a message. *)
Record Error := mkError { er_code : string; er_message : string }.

Definition CodeNotFound := "not_found".
Definition CodeConflict := "conflict".
Definition CodeNotModified := "not_modified".
Definition CodeInvalid := "invalid".
Definition CodeUnavailable := "unavailable".
Definition CodeCanceled := "canceled".
Definition CodeUnimplemented := "unimplemented".
Definition CodeInternal := "internal".

(** The typed errors of the daemon, in the order [WireError] tries them. *)
Definition typed_codes : list string :=
  [CodeNotFound; CodeConflict; CodeNotModified; CodeInvalid; CodeUnavailable; CodeCanceled; CodeUnimplemented].

Section Errors.
(** An error of the daemon, the predicates of the errors library ([cerrdefs]):
    is it of that code; its text; an error that wraps the sentinel of a code
    under a text, and a plain one. *)
Context {E : Type} (is_code : E → string → bool) (text : E → string).
Context (wrap : string → string → E) (plain : string → E).

(** [WireError] *)
Definition WireError (err : E) : Error :=
  mkError (default CodeInternal (head (filter (λ c, is_code err c = true) typed_codes))) (text err).

(** [Error.Err] *)
Definition Err (e : Error) : E :=
  if decide (er_code e ∈ typed_codes) then wrap (er_code e) ("agent: " +:+ er_message e)
  else plain ("agent: " +:+ er_message e).
End Errors.

(** ** Commands in flight *)

(** [Result], [StreamChunk]. *)
Record Result := mkResult { rs_id : Z; rs_body : string; rs_err : option Error }.
Record StreamChunk := mkChunk { ck_id : Z; ck_data : string; ck_eof : bool; ck_err : option Error }.

Definition StreamBuffer : nat := 512.
Definition ChunkSize : Z := 2 ^ 15.

(** The error a reader of a stream holds. *)
Inductive read_error := EndOfStream | Remote (e : Error) | Canceled | Closed.

(** [call]: the buffered result (capacity one) and, for a stream, its chunks. *)
Record call := mkCall { cl_res : option Result; cl_chunks : option (list StreamChunk) }.

(** [Conn]: the identifiers given out, the table, and the cancel frames sent. *)
Record Conn := mkConn { cn_next : Z; cn_calls : gmap Z call; cn_cancels : list Z }.

Definition NewConn : Conn := mkConn 0 ∅ [].

(** [Conn.start] *)
Definition start (c : Conn) (stream : bool) : Conn * Z :=
  let id := wrap64 (cn_next c + 1) in
  (mkConn id (<[ id := mkCall None (if stream then Some [] else None) ]> (cn_calls c)) (cn_cancels c), id).

(** [Conn.finish] *)
Definition finish (c : Conn) (id : Z) : Conn := mkConn (cn_next c) (delete id (cn_calls c)) (cn_cancels c).

(** [Conn.CancelRemote] *)
Definition CancelRemote (c : Conn) (id : Z) : Conn := mkConn (cn_next c) (cn_calls c) (cn_cancels c ++ [id]).

(** [stream.Close], the first time: the peer is told to stop unless the stream
    has ended or its context is done ([err] is the error the reader holds). *)
Definition Close (c : Conn) (id : Z) (err : option read_error) (ctx_done : bool) : Conn :=
  let stop := match err with None => true | Some EndOfStream => false | Some _ => negb ctx_done end in
  finish (if stop then CancelRemote c id else c) id.

(** [Conn.DeliverResult]: the first result wins. *)
Definition DeliverResult (c : Conn) (res : Result) : Conn :=
  match cn_calls c !! rs_id res with
  | Some (mkCall None chunks) =>
      mkConn (cn_next c) (<[ rs_id res := mkCall (Some res) chunks ]> (cn_calls c)) (cn_cancels c)
  | _ => c
  end.

(** The wait of [Command]: the buffered result is taken. *)
Definition take_result (c : Conn) (id : Z) : Conn * option Result :=
  match cn_calls c !! id with
  | Some (mkCall (Some r) chunks) =>
      (mkConn (cn_next c) (<[ id := mkCall None chunks ]> (cn_calls c)) (cn_cancels c), Some r)
  | _ => (c, None)
  end.

(** A bounded channel of chunks: a send that does not wait, a receive that does
    not wait. *)
Definition try_send (q : list StreamChunk) (ck : StreamChunk) : option (list StreamChunk) :=
  if (length q <? StreamBuffer)%nat then Some (q ++ [ck]) else None.
Definition try_receive (q : list StreamChunk) : list StreamChunk := tail q.

Definition too_slow (id : Z) : StreamChunk :=
  mkChunk id "" false (Some (mkError CodeUnavailable "stream consumer too slow")).

Definition set_chunks (c : Conn) (id : Z) (q : list StreamChunk) : Conn :=
  mkConn (cn_next c) (alter (λ cl, mkCall (cl_res cl) (Some q)) id (cn_calls c)) (cn_cancels c).

(** [Conn.DeliverChunk] when the consumer stays away meanwhile; the interleaved
    version is [stream_step] below. *)
Definition DeliverChunk (c : Conn) (ck : StreamChunk) : Conn :=
  match cn_calls c !! ck_id ck with
  | Some (mkCall _ (Some q)) =>
      match try_send q ck with
      | Some q' => set_chunks c (ck_id ck) q'
      | None =>
          let q := try_receive q in
          CancelRemote (set_chunks c (ck_id ck) (default q (try_send q (too_slow (ck_id ck))))) (ck_id ck)
      end
  | _ => c
  end.

(** ** The sender *)

(** How a read of the source ended: [io.EOF] or another error. *)
Inductive source_end := SrcEOF | SrcError (e : Error).

(** [PumpReader] on the reads of a source, the last of which ends it; [canceled]
    says whether the command's context is done by then. *)
Definition terminal (id : Z) (e : source_end) (canceled : bool) : StreamChunk :=
  match e with
  | SrcError err => if canceled then mkChunk id "" true None else mkChunk id "" false (Some err)
  | SrcEOF => mkChunk id "" true None
  end.
Definition data_chunk (id : Z) (data : string) : list StreamChunk :=
  if decide (data = "") then [] else [mkChunk id data false None].
Fixpoint PumpReader (id : Z) (reads : list string) (last : string) (e : source_end) (canceled : bool)
    : list StreamChunk :=
  match reads with
  | [] => data_chunk id last ++ [terminal id e canceled]
  | d :: rest => data_chunk id d ++ PumpReader id rest last e canceled
  end.

(** ** The reader *)

(** [stream]: what a chunk left to hand out and the error to report after it;
    [rd_out] is what the consumer has read so far. *)
Record reader := mkReader { rd_buf : string; rd_err : option read_error; rd_out : string }.

(** The chunk case of [stream.Read]. *)
Definition accept (r : reader) (ck : StreamChunk) : reader :=
  mkReader (ck_data ck)
    (match ck_err ck with
     | Some e => Some (Remote e)
     | None => if ck_eof ck then Some EndOfStream else rd_err r
     end) (rd_out r).

(** Handing out at most [n] bytes of the buffer. *)
Fixpoint take_bytes (n : nat) (s : string) : string * string :=
  match n, s with
  | S n', String a s' => let '(x, y) := take_bytes n' s' in (String a x, y)
  | _, _ => (EmptyString, s)
  end.

(** ** A stream, interleaved

    The read loop is in one of the three selects of [DeliverChunk]. *)
Inductive phase := Idle | Shedding | Reporting.

(** [st_coming] are the chunks still on the wire, in order; [st_canceled]
    whether the peer was told to stop. *)
Record stream_state := mkStream {
  st_coming : list StreamChunk; st_queue : list StreamChunk; st_phase : phase;
  st_reader : reader; st_canceled : bool
}.

Inductive stream_step (id : Z) : stream_state → stream_state → Prop :=
| deliver_sent ck rest q q' r b :
    try_send q ck = Some q' →
    stream_step id (mkStream (ck :: rest) q Idle r b) (mkStream rest q' Idle r b)
| deliver_full ck rest q r b :
    try_send q ck = None →
    stream_step id (mkStream (ck :: rest) q Idle r b) (mkStream rest q Shedding r true)
| deliver_shed w q r b :
    stream_step id (mkStream w q Shedding r b) (mkStream w (try_receive q) Reporting r b)
| deliver_report w q r b :
    stream_step id (mkStream w q Reporting r b)
      (mkStream w (default q (try_send q (too_slow id))) Idle r b)
| read_bytes w q ph buf err out b n x y :
    buf ≠ "" → take_bytes n buf = (x, y) →
    stream_step id (mkStream w q ph (mkReader buf err out) b) (mkStream w q ph (mkReader y err (out +:+ x)) b)
| read_chunk w ck q ph out b :
    stream_step id (mkStream w (ck :: q) ph (mkReader "" None out) b)
      (mkStream w q ph (accept (mkReader "" None out) ck) b)
| read_stop w q ph out b e :
    e = Canceled ∨ e = Closed →
    stream_step id (mkStream w q ph (mkReader "" None out) b) (mkStream w q ph (mkReader "" (Some e) out) b)
| peer_goes_away w q ph r b n :
    stream_step id (mkStream w q ph r b) (mkStream (take n w) q ph r b)
| peer_canceled w q ph r n :
    (** told to stop before it sent its last chunk, the peer ends the stream *)
    w ≠ [] → Forall (λ ck, ck_eof ck = false) (take n w) →
    stream_step id (mkStream w q ph r true) (mkStream (take n w ++ [mkChunk id "" true None]) q ph r true).

Definition opened (coming : list StreamChunk) : stream_state :=
  mkStream coming [] Idle (mkReader "" None "") false.

(** ** A clean end means a complete stream *)

Definition payload (l : list StreamChunk) : string := String.concat "" (ck_data <$> l).

(** Nothing follows the end of a stream. *)
Fixpoint eof_last (l : list StreamChunk) : Prop :=
  match l with [] => True | ck :: l' => (ck_eof ck = true → l' = []) ∧ eof_last l' end.

Abbreviation no_eof := (Forall (λ ck, ck_eof ck = false)).

Lemma payload_cons ck l : payload (ck :: l) = ck_data ck +:+ payload l.
Proof. unfold payload. destruct l; cbn; [|done]. by rewrite append_nil_r. Qed.

Lemma payload_app a b : payload (a ++ b) = payload a +:+ payload b.
Proof.
  induction a as [|ck a IH]; [done|]. rewrite <- app_comm_cons, !payload_cons, IH. by rewrite append_assoc.
Qed.

Lemma eof_last_app a b : eof_last (a ++ b) ↔ eof_last b ∧ (b ≠ [] → no_eof a) ∧ eof_last a.
Proof.
  induction a as [|ck a IH]; cbn; [naive_solver|]. rewrite IH. destruct (ck_eof ck) eqn:E.
  - split; [intros [Hn ?]|intros (? & Hn & ?)].
    + specialize (Hn eq_refl). apply app_eq_nil in Hn as [-> ->]. naive_solver.
    + split; [|naive_solver]. intros _. destruct b as [|x b].
      * rewrite app_nil_r. naive_solver.
      * exfalso. specialize (Hn ltac:(done)). apply Forall_cons in Hn as [? _]. congruence.
  - rewrite Forall_cons. naive_solver.
Qed.

Lemma take_bytes_app n s x y : take_bytes n s = (x, y) → s = x +:+ y.
Proof.
  revert s x. induction n as [|n IH]; intros s x; [destruct s; by intros [= <- <-]|].
  destruct s as [|a s]; simpl; [by intros [= <- <-]|]. destruct (take_bytes n s) as [u v] eqn:E.
  intros [= <- <-]. rewrite append_cons. by rewrite <- (IH s u E).
Qed.

(** The queue never outgrows the buffer; the stream is either intact — what was
    consumed, queued and is still coming is what the peer sent — or broken, and
    then an error is on its way to the reader before any end of stream. *)
Record stream_inv (script : list StreamChunk) (s : stream_state) : Prop := {
  si_bound : (length (st_queue s) <= StreamBuffer)%nat;
  si_room : st_phase s = Reporting → (length (st_queue s) < StreamBuffer)%nat;
  si_coming : eof_last (st_coming s);
  si_end : st_coming s ≠ [] → no_eof (st_queue s);
  si_case :
    (∃ consumed lost, st_phase s = Idle ∧ st_canceled s = false ∧
       script = consumed ++ st_queue s ++ st_coming s ++ lost ∧
       rd_out (st_reader s) +:+ rd_buf (st_reader s) = payload consumed ∧
       (rd_err (st_reader s) = Some EndOfStream → ∃ pre ck, consumed = pre ++ [ck] ∧ ck_eof ck = true)) ∨
    (rd_err (st_reader s) ≠ Some EndOfStream ∧
     (rd_err (st_reader s) = None →
        match st_phase s with
        | Idle => ∃ q1 e q2, st_queue s = q1 ++ e :: q2 ∧ ck_err e ≠ None ∧ no_eof q1
        | _ => no_eof (st_queue s)
        end))
}.

Lemma try_send_Some q ck q' :
  try_send q ck = Some q' → q' = q ++ [ck] ∧ (length q < StreamBuffer)%nat.
Proof. unfold try_send. destruct (Nat.ltb_spec (length q) StreamBuffer); [by intros [= <-]|done]. Qed.

Lemma no_eof_tail q : no_eof q → no_eof (try_receive q).
Proof. destruct q; cbn; [done|]. by intros [_ ?]%Forall_cons. Qed.

Lemma eof_last_take n l : eof_last l → eof_last (take n l).
Proof. rewrite <- (take_drop n l) at 1. by intros (_ & _ & ?)%eof_last_app. Qed.

Section Stream.
Context (id : Z) (script : list StreamChunk) (Hscript : eof_last script).

Lemma step_deliver ck rest q q' r b :
  stream_inv script (mkStream (ck :: rest) q Idle r b) → try_send q ck = Some q' →
  stream_inv script (mkStream rest q' Idle r b).
Proof.
  intros [Hb _ Hc He Hcase] (-> & Hlt)%try_send_Some. cbn in *. destruct Hc as [Hlast Hc]. split; cbn.
  - rewrite length_app. cbn. lia.
  - done.
  - done.
  - intros Hr. apply Forall_app. split; [auto|]. constructor; [|done].
    destruct (ck_eof ck); [|done]. by destruct (Hr (Hlast eq_refl)).
  - destruct Hcase as [(con & lost & H1 & H2 & Hs & H4 & H5)|[H1 H2]]; [left|right].
    + exists con, lost. split_and!; try done. by rewrite Hs, <- !app_assoc.
    + split; [done|]. intros Hn. destruct (H2 Hn) as (q1 & e & q2 & -> & ? & ?).
      exists q1, e, (q2 ++ [ck]). by rewrite <- app_assoc.
Qed.

Lemma step_full ck rest q r b :
  stream_inv script (mkStream (ck :: rest) q Idle r b) → stream_inv script (mkStream rest q Shedding r true).
Proof.
  intros [Hb _ Hc He Hcase]. cbn in *. specialize (He ltac:(done)). destruct Hc as [_ Hc]. split; cbn; try done.
  right. split; [|by intros]. destruct Hcase as [(con & lost & H1 & H2 & Hs & _ & H5)|[H1 _]]; [|done].
  intros Hr. destruct (H5 Hr) as (pre & e & -> & Hee). rewrite Hs, <- !app_assoc in Hscript.
  apply eof_last_app in Hscript as ((Hn & _) & _ & _). specialize (Hn Hee).
  by destruct q.
Qed.

Lemma step_shed w q r b :
  stream_inv script (mkStream w q Shedding r b) → stream_inv script (mkStream w (try_receive q) Reporting r b).
Proof.
  intros [Hb _ Hc He Hcase]. cbn in *. destruct Hcase as [(con & lost & ? & _)|[H1 H2]]; [done|]. split; cbn.
  - destruct q; cbn in *; lia.
  - intros _. destruct q; cbn in *; unfold StreamBuffer in *; lia.
  - done.
  - intros Hw. apply no_eof_tail. auto.
  - right. split; [done|]. intros Hn. apply no_eof_tail. auto.
Qed.

Lemma step_report w q r b :
  stream_inv script (mkStream w q Reporting r b) →
  stream_inv script (mkStream w (default q (try_send q (too_slow id))) Idle r b).
Proof.
  intros [Hb Hroom Hc He Hcase]. cbn in *. specialize (Hroom eq_refl).
  destruct Hcase as [(con & lost & ? & _)|[H1 H2]]; [done|].
  unfold try_send. rewrite (proj2 (Nat.ltb_lt _ _)) by done. cbn. split; cbn; try done.
  - rewrite length_app. cbn. lia.
  - intros Hw. apply Forall_app. split; [auto|]. by constructor.
  - right. split; [done|]. intros Hn. exists q, (too_slow id), []. auto.
Qed.

Lemma step_read_chunk w ck q ph out b :
  stream_inv script (mkStream w (ck :: q) ph (mkReader "" None out) b) →
  stream_inv script (mkStream w q ph (accept (mkReader "" None out) ck) b).
Proof.
  intros [Hb Hroom Hc He Hcase]. cbn in *. split; cbn.
  - lia.
  - intros Hp. specialize (Hroom Hp). lia.
  - done.
  - intros Hw. specialize (He Hw). by apply Forall_cons in He as [_ ?].
  - destruct Hcase as [(con & lost & -> & H2 & Hs & H4 & H5)|[_ H2]].
    + left. exists (con ++ [ck]), lost. split_and!; try done.
      * by rewrite Hs, <- !app_assoc.
      * rewrite payload_app, payload_cons. cbn. rewrite append_nil_r. cbn in H4. rewrite append_nil_r in H4. by rewrite H4.
      * intros Hr. exists con, ck. split; [done|]. destruct (ck_err ck); [done|]. by destruct (ck_eof ck).
    + right. specialize (H2 eq_refl). unfold accept. cbn. destruct ph.
      * destruct H2 as (q1 & e & q2 & Hq & Hee & Hn). destruct q1 as [|x q1]; simplify_eq/=.
        -- by destruct (ck_err e).
        -- apply Forall_cons in Hn as [Hx Hn]. rewrite Hx. destruct (ck_err x); [done|]. split; [done|]. eauto 10.
      * apply Forall_cons in H2 as [Hx Hn]. rewrite Hx. by destruct (ck_err ck).
      * apply Forall_cons in H2 as [Hx Hn]. rewrite Hx. by destruct (ck_err ck).
Qed.

Lemma stream_step_inv s s' : stream_inv script s → stream_step id s s' → stream_inv script s'.
Proof.
  intros Hi Hstep. destruct Hstep.
  - by eapply step_deliver.
  - by eapply step_full.
  - by apply step_shed.
  - by apply step_report.
  - destruct Hi. split; cbn in *; try done. destruct si_case0 as [(con & lost & ? & ? & ? & Hp & ?)|?]; [left|by right].
    exists con, lost. split_and!; try done. apply take_bytes_app in H0 as ->. by rewrite append_assoc.
  - by apply step_read_chunk.
  - destruct Hi. split; cbn in *; try done. destruct si_case0 as [(con & lost & ? & ? & ? & Hp & ?)|[? ?]]; [left|right].
    + exists con, lost. split_and!; try done. destruct H as [-> | ->]; done.
    + destruct H as [-> | ->]; done.
  - destruct Hi. split; cbn in *; try done.
    + by apply eof_last_take.
    + intros Hn. apply si_end0. intros ->. by rewrite take_nil in Hn.
    + destruct si_case0 as [(con & lost & ? & ? & Hs & ?)|?]; [left|by right].
      exists con, (drop n w ++ lost). split_and!; try done; [|apply H1..].
      rewrite Hs. by rewrite (app_assoc (take n w)), take_drop.
  - destruct Hi. split; cbn in *; try done.
    + apply eof_last_app. split_and!; [done| |]; auto. by apply eof_last_take.
    + auto.
    + destruct si_case0 as [(con & lost & ? & ? & _)|?]; [done|by right].
Qed.
End Stream.

(** *** What the sender puts on the wire *)

Lemma payload_data id d l : payload (data_chunk id d ++ l) = d +:+ payload l.
Proof.
  unfold data_chunk. case_decide as Hd; [by subst|]. cbn [app]. by rewrite payload_cons.
Qed.

Lemma pump_payload id reads last e c :
  payload (PumpReader id reads last e c) = String.concat "" (reads ++ [last]).
Proof.
  induction reads as [|d reads IH]; cbn [PumpReader].
  - rewrite payload_data, payload_cons. destruct e, c; cbn; by rewrite !append_nil_r.
  - rewrite payload_data, IH. cbn. by destruct reads.
Qed.

Lemma data_no_eof id d : no_eof (data_chunk id d).
Proof. unfold data_chunk. case_decide; by repeat constructor. Qed.

Lemma no_eof_last l : no_eof l → eof_last l.
Proof. induction 1 as [|ck l Hck _ IH]; [done|]. cbn. split; [congruence|done]. Qed.

Lemma pump_eof_last id reads last e c : eof_last (PumpReader id reads last e c).
Proof.
  induction reads as [|d reads IH]; cbn [PumpReader]; apply eof_last_app; split_and!;
    auto using data_no_eof, no_eof_last. by cbn.
Qed.

(** A source that failed is not reported as ended. *)
Lemma pump_no_eof id reads last err ck :
  ck ∈ PumpReader id reads last (SrcError err) false → ck_eof ck = false.
Proof.
  pose proof (λ d, proj1 (Forall_forall _ _) (data_no_eof id d)) as Hd.
  induction reads as [|d reads IH]; cbn [PumpReader]; intros [Hin|Hin]%elem_of_app; [by eapply Hd| |by eapply Hd|auto].
  by apply list_elem_of_singleton in Hin as ->.
Qed.

(** A stream of the agent channel either ends in an error or is complete:
    whatever the interleaving of deliveries and reads, however slow the
    consumer, whether the peer goes away or is told to stop, a consumer that
    reaches a clean end of stream has read exactly the bytes of the source, and
    the source itself ended cleanly; at most [StreamBuffer] chunks are ever
    held. *)
Theorem clean_end_complete id reads last e s :
  reachable_from (stream_step id) (opened (PumpReader id reads last e false)) s →
  (length (st_queue s) <= StreamBuffer)%nat ∧
  (rd_err (st_reader s) = Some EndOfStream → rd_buf (st_reader s) = "" →
   e = SrcEOF ∧ rd_out (st_reader s) = String.concat "" (reads ++ [last])).
Proof.
  set (script := PumpReader id reads last e false). intros Hr.
  assert (stream_inv script s) as [Hb _ _ _ Hcase].
  { revert s Hr. apply reachable_invariant; [|intros; eapply stream_step_inv; try done; apply pump_eof_last].
    split; cbn; try done; [unfold StreamBuffer; lia|apply pump_eof_last|].
    left. exists [], []. rewrite app_nil_r. done. }
  split; [done|]. intros He Hbuf. destruct Hcase as [(con & lost & _ & _ & Hs & Hout & Hend)|[? _]]; [|done].
  rewrite Hbuf, append_nil_r in Hout. destruct (Hend He) as (pre & ck & -> & Hck).
  assert (Heof := pump_eof_last id reads last e false). fold script in Heof. rewrite Hs, <- app_assoc in Heof.
  apply eof_last_app in Heof as [[Hnil _] _]. specialize (Hnil Hck). cbn in Hnil.
  rewrite Hnil, app_nil_r in Hs. split.
  - destruct e as [|err]; [done|]. rewrite (pump_no_eof id reads last err ck) in Hck; [done|].
    fold script. rewrite Hs. set_solver.
  - rewrite Hout, <- Hs. apply pump_payload.
Qed.

(** *** Routing by identifier *)

(** The steps of a connection in its first [int64_max] commands. *)
Inductive conn_step : Conn → Conn → Prop :=
| conn_start c stream : cn_next c < int64_max → conn_step c (fst (start c stream))
| conn_finish c id : conn_step c (finish c id)
| conn_cancel c id : conn_step c (CancelRemote c id)
| conn_close c id err ctx_done : conn_step c (Close c id err ctx_done)
| conn_result c res : conn_step c (DeliverResult c res)
| conn_take c id : conn_step c (fst (take_result c id))
| conn_chunk c ck : conn_step c (DeliverChunk c ck)
| conn_read c id q : (∃ cl ck, cn_calls c !! id = Some cl ∧ cl_chunks cl = Some (ck :: q)) →
    conn_step c (set_chunks c id q).

(** What a call holds is its own, and within its buffers. *)
Definition call_ok (id : Z) (cl : call) : Prop :=
  (∀ r, cl_res cl = Some r → rs_id r = id) ∧
  (∀ q, cl_chunks cl = Some q → (length q <= StreamBuffer)%nat ∧ Forall (λ ck, ck_id ck = id) q).

Definition conn_ok (c : Conn) : Prop :=
  0 <= cn_next c <= int64_max ∧ ∀ id cl, cn_calls c !! id = Some cl → 0 < id <= cn_next c ∧ call_ok id cl.

Lemma try_send_ok id q ck q' :
  ck_id ck = id → Forall (λ ck, ck_id ck = id) q → try_send q ck = Some q' →
  (length q' <= StreamBuffer)%nat ∧ Forall (λ ck, ck_id ck = id) q'.
Proof.
  intros Hck Hq (-> & Hlt)%try_send_Some. rewrite length_app. cbn. split; [lia|]. apply Forall_app. auto.
Qed.

Lemma set_chunks_ok c id q :
  conn_ok c → (length q <= StreamBuffer)%nat → Forall (λ ck, ck_id ck = id) q → conn_ok (set_chunks c id q).
Proof.
  intros [Hn Hc] Hl Hq. split; [done|]. intros j cl. cbn. rewrite lookup_alter_Some.
  intros [(<- & cl0 & Hcl & ->)|[_ Hcl]]; [|auto].
  destruct (Hc _ _ Hcl) as [Hid [Hres _]]. split; [done|]. split; [done|]. cbn. intros q' [= <-]. auto.
Qed.

Lemma insert_call_ok c id cl cancels :
  conn_ok c → 0 < id <= cn_next c → call_ok id cl →
  conn_ok (mkConn (cn_next c) (<[ id := cl ]> (cn_calls c)) cancels).
Proof.
  intros [Hn Hc] Hid Hcl. split; [done|]. intros j cl'. cbn. rewrite lookup_insert_Some.
  intros [[<- <-]|[_ ?]]; auto.
Qed.

Lemma finish_ok c id : conn_ok c → conn_ok (finish c id).
Proof.
  intros [Hn Hc]. split; [done|]. intros j cl. cbn. rewrite lookup_delete_Some. intros [_ Hcl]. auto.
Qed.

Lemma DeliverChunk_ok c ck : conn_ok c → conn_ok (DeliverChunk c ck).
Proof.
  intros Hok. unfold DeliverChunk.
  destruct (cn_calls c !! ck_id ck) as [[res [q|]]|] eqn:Hl; [|done..].
  destruct (proj2 Hok _ _ Hl) as [Hid [_ Hq]]. destruct (Hq q eq_refl) as [Hlen Hall].
  destruct (try_send q ck) as [q'|] eqn:Hs.
  - destruct (try_send_ok (ck_id ck) q ck q') as [? ?]; [done..|]. by apply set_chunks_ok.
  - assert (Forall (λ x, ck_id x = ck_id ck) (try_receive q)) as Htl
      by (destruct q; [done|]; by apply Forall_cons in Hall as [_ ?]).
    assert (length (try_receive q) <= StreamBuffer)%nat by (destruct q; cbn in *; lia).
    assert (∀ c' id, conn_ok c' → conn_ok (CancelRemote c' id)) as Hcr by (intros ? ? [? ?]; by split).
    apply Hcr. destruct (try_send (try_receive q) _) as [q'|] eqn:Hs'; cbn; [|by apply set_chunks_ok].
    destruct (try_send_ok (ck_id ck) (try_receive q) (too_slow (ck_id ck)) q') as [? ?]; [done..|]. by apply set_chunks_ok.
Qed.

(** C40: on a shared connection every answer reaches the command that asked: in
    every reachable state of the table, a call's buffered result and chunks bear
    its own identifier, no identifier was given twice — those in flight are
    below the counter — a call holds at most one result and [StreamBuffer]
    chunks, and a second result for a call changes nothing. *)
Theorem conn_routes c :
  reachable_from conn_step NewConn c →
  conn_ok c ∧ (∀ stream, cn_next c < int64_max → cn_calls c !! snd (start c stream) = None) ∧
  (∀ r1 r2, rs_id r1 = rs_id r2 → DeliverResult (DeliverResult c r1) r2 = DeliverResult c r1).
Proof.
  intros Hr. assert (conn_ok c) as Hok.
  { revert c Hr. apply reachable_invariant.
    - split; [done|]. intros id cl. cbn. by rewrite lookup_empty.
    - intros c c' Hok Hstep. pose proof Hok as [Hn Hc]. destruct Hstep; cbn.
      + assert (wrap64 (cn_next c + 1) = cn_next c + 1) as Hw by (apply wrap64_id; unfold in_int64, int64_min; lia).
        unfold conn_ok. cbn. rewrite Hw. split; [lia|]. intros j cl. rewrite lookup_insert_Some. intros [[<- <-]|[_ Hcl]].
        * split; [lia|]. split; [done|]. destruct stream; [|done]. intros q [= <-]. split; [unfold StreamBuffer; cbn; lia|constructor].
        * destruct (Hc _ _ Hcl) as [? ?]. split; [lia|done].
      + by apply finish_ok.
      + done.
      + apply finish_ok. destruct (match err with None => _ | Some _ => _ end); done.
      + unfold DeliverResult. destruct (cn_calls c !! rs_id res) as [[[]]|] eqn:Hl; [done| |done].
        destruct (Hc _ _ Hl) as [Hid [_ Hq]]. apply insert_call_ok; [done..|]. split; [by intros ? [= <-]|done].
      + unfold take_result. destruct (cn_calls c !! id) as [[[]]|] eqn:Hl; [|done..].
        destruct (Hc _ _ Hl) as [Hid [_ Hq]]. apply insert_call_ok; done.
      + by apply DeliverChunk_ok.
      + destruct H as (cl & ck & Hl & Hq). destruct (Hc _ _ Hl) as [_ [_ Hcl]].
        destruct (Hcl _ Hq) as [Hlen [_ Hall]%Forall_cons_1]. apply set_chunks_ok; [done| |done]. cbn in Hlen. lia. }
  split; [done|]. split.
  - intros stream Hlt. cbn. destruct Hok as [Hn Hc].
    rewrite wrap64_id by (unfold in_int64, int64_min; lia). destruct (cn_calls c !! (cn_next c + 1)) as [cl|] eqn:E; [|done].
    apply Hc in E as [? _]. lia.
  - intros r1 r2 Hid. unfold DeliverResult. rewrite <- Hid.
    destruct (cn_calls c !! rs_id r1) as [[[]]|] eqn:E; cbn; rewrite ?E, ?lookup_insert_eq; done.
Qed.

(** The states the witness below goes through: a stream is opened, its answer
    and a chunk arrive. *)
Lemma conn_routes_witness :
  let c := DeliverChunk (DeliverResult (fst (start NewConn true)) (mkResult 1 "{}" None)) (mkChunk 1 "log" false None) in
  cn_calls c !! 1 = Some (mkCall (Some (mkResult 1 "{}" None)) (Some [mkChunk 1 "log" false None])) ∧
  cn_calls c !! snd (start c false) = None.
Proof.
  intros c. split; [reflexivity|]. apply (conn_routes c); [|done].
  eapply reach_step; [|apply conn_chunk]. eapply reach_step; [|apply conn_result].
  eapply reach_step; [constructor|]. by apply conn_start.
Defined.

(** A source that reads one line and ends: the consumer reads it and its end. *)
Lemma clean_end_complete_witness :
  ∃ s, rd_err (st_reader s) = Some EndOfStream ∧ rd_out (st_reader s) = String.concat "" (["log"] ++ [""]).
Proof.
  exists (mkStream [] [] Idle (mkReader "" (Some EndOfStream) "log") false). split; [done|].
  apply (clean_end_complete 1 ["log"] "" SrcEOF); [|done..].
  eapply reach_step; [|apply (read_chunk 1 [] (mkChunk 1 "" true None) [] Idle "log" false)].
  eapply reach_step; [|apply (read_bytes 1 [] [mkChunk 1 "" true None] Idle "log" None "" false 3 "log" ""); done].
  eapply reach_step; [|apply (read_chunk 1 [] (mkChunk 1 "log" false None) [mkChunk 1 "" true None] Idle "" false)].
  eapply reach_step; [|by apply (deliver_sent 1 (mkChunk 1 "" true None) [] [mkChunk 1 "log" false None])].
  eapply reach_step; [constructor|]. by apply deliver_sent.
Defined.

(** *** Errors keep their kind across the channel *)

Section ErrorLaws.
Context {E : Type} (is_code : E → string → bool) (text : E → string).
Context (wrap : string → string → E) (plain : string → E).
(** What the errors library documents: an error that wraps the sentinel of a
    code is of that code and of no other, a plain error of none; a wrapping
    error's text is its own followed by the sentinel's. *)
Context (sentinel_text : string → string).
Context (is_code_wrap : ∀ c m c', c ∈ typed_codes → is_code (wrap c m) c' = bool_decide (c = c')).
Context (is_code_plain : ∀ m c, is_code (plain m) c = false).
Context (text_wrap : ∀ c m, text (wrap c m) = m +:+ ": " +:+ sentinel_text c).
Context (text_plain : ∀ m, text (plain m) = m).

Lemma WireError_wrap c m : c ∈ typed_codes → er_code (WireError is_code text (wrap c m)) = c.
Proof.
  intros Hc. unfold WireError. cbn [er_code].
  rewrite (list_filter_iff _ (λ c', c = c')) by (intros c'; rewrite is_code_wrap by done; by rewrite bool_decide_eq_true).
  revert Hc. unfold typed_codes. set_unfold. intros Hc. destruct_or! Hc; subst; reflexivity.
Qed.

Lemma WireError_code err :
  er_code (WireError is_code text err) = CodeInternal ∧ (∀ c, c ∈ typed_codes → is_code err c = false) ∨
  er_code (WireError is_code text err) ∈ typed_codes ∧ is_code err (er_code (WireError is_code text err)) = true.
Proof.
  unfold WireError. cbn [er_code]. destruct (filter _ typed_codes) as [|c l] eqn:Hf; cbn.
  - left. split; [done|]. intros c Hc. destruct (is_code err c) eqn:Hi; [|done].
    assert (c ∈ filter (λ c, is_code err c = true) typed_codes) as Hin by (by apply list_elem_of_filter).
    rewrite Hf in Hin. by apply not_elem_of_nil in Hin.
  - right. assert (c ∈ filter (λ c, is_code err c = true) typed_codes) as Hin by (rewrite Hf; left).
    by apply list_elem_of_filter in Hin as [? ?].
Qed.

(** A daemon error keeps its kind across the agent channel: rebuilt on the
    other side it answers the typed predicates the way the error it was made
    from does — every one of them where that error is of at most one kind —, its
    message contains the original one, and a second hop, through the relay,
    leaves the code as it was. *)
Theorem error_survives_channel err :
  (∀ c c', c ∈ typed_codes → c' ∈ typed_codes → is_code err c = true → is_code err c' = true → c = c') →
  let err' := Err wrap plain (WireError is_code text err) in
  (∀ c, c ∈ typed_codes → is_code err' c = is_code err c) ∧
  (∃ more, text err' = "agent: " +:+ text err +:+ more) ∧
  er_code (WireError is_code text err') = er_code (WireError is_code text err).
Proof.
  intros Hone err'. subst err'. unfold Err. destruct (WireError_code err) as [[Hcode Hno]|[Hin His]].
  - rewrite Hcode, decide_False by (unfold typed_codes; set_solver). split_and!.
    + intros c Hc. rewrite is_code_plain. symmetry. auto.
    + exists "". by rewrite text_plain, append_nil_r.
    + unfold WireError. cbn [er_code]. rewrite (list_filter_iff _ (λ c', False)); [done|].
      intros c'. by rewrite is_code_plain.
  - rewrite decide_True by done. split_and!.
    + intros c Hc. rewrite is_code_wrap by done. case_bool_decide as Heq; [by subst|].
      destruct (is_code err c) eqn:Hi; [|done]. destruct Heq. by apply Hone.
    + exists (": " +:+ sentinel_text (er_code (WireError is_code text err))).
      rewrite text_wrap. reflexivity.
    + by apply WireError_wrap.
Qed.
End ErrorLaws.

(** The laws hold of errors as pairs of an optional code and a text. *)
Lemma error_survives_channel_witness :
  let is_code (e : option string * string) c := bool_decide (e.1 = Some c) in
  let err' := Err (λ c m, (Some c, m +:+ ": " +:+ c)) (λ m, (None, m))
                (WireError is_code snd (Some CodeConflict, "name in use")) in
  is_code err' CodeConflict = true ∧ is_code err' CodeNotFound = false.
Proof.
  intros is_code err'.
  pose proof (error_survives_channel is_code snd (λ c m, (Some c, m +:+ ": " +:+ c)) (λ m, (None, m)) (λ c, c)) as H.
  destruct (H ltac:(intros c m c' _; unfold is_code; apply bool_decide_ext; naive_solver)
              ltac:(done) ltac:(done) ltac:(done) (Some CodeConflict, "name in use"))
    as [Hc _].
  - unfold is_code. intros c c' _ _. rewrite !bool_decide_eq_true. cbn. congruence.
  - split; rewrite Hc; [reflexivity|unfold typed_codes; set_solver|reflexivity|unfold typed_codes; set_solver].
Defined.
