(* ===== verification/Waker.v ===== *)
(** * Scale to zero: waking a stack

    Models [internal/agent/waker.go]: [WakeResource] — the wake loop along the
    [depends_on] graph, with its deadline, readiness rules and rollback — and
    the decisions of [ServeHTTP] in front of it.  Docker, the clock and the
    context are an interface, as in the source: every call goes through the
    class [Docker] over an arbitrary world, and is recorded in a log. *)
From S2P Require Import Prelude GoLib.
Local Open Scope Z_scope.

(** ** Data *)

(** [ContainerState] *)
Record ContainerState := mkContainerState { cs_running : bool; cs_health : string }.

(** [Route], [WakeContainer], [Resource] *)
Record Route := mkRoute { rt_host : string; rt_resource : string; rt_container : string; rt_port : Z }.
Record WakeContainer := mkWakeContainer { wc_container : string; wc_needs : list string }.
Record Resource := mkResource {
  rs_uuid : string; rs_containers : list string; rs_wake_set : list WakeContainer
}.

(** [Resource.wakeSet] *)
Definition wakeSet (r : Resource) : list WakeContainer :=
  match rs_wake_set r with
  | [] => (λ c, mkWakeContainer c []) <$> rs_containers r
  | ws => ws
  end.

Definition MaxHoldBody : Z := 2 ^ 20.
Definition defaultWakeTimeout : Z := 60 * 1000000000.
Definition defaultPoll : Z := 500 * 1000000.
Definition defaultStableFor : Z := 10 * 1000000000.

(** ** The outside world

    [Docker], [now] and [sleepCtx] of the source.  An operation changes the
    world and answers; [None] and [false] are errors. *)
Class Docker (W : Type) := {
  Inspect : W → string → W * option ContainerState;
  Start : W → string → W * bool;
  Stop : W → string → W * bool;
  now : W → W * Z;
  sleepCtx : W → Z → W * bool
}.

(** The calls made, latest first. *)
Inductive call :=
| CInspect (c : string) (st : option ContainerState)
| CStart (c : string) (ok : bool)
| CStop (c : string) (ok : bool)
| CRecord (uuid : string).            (** [Activity.Record] *)

Inductive wake_error := EInspect (c : string) | EStart (c : string) | ECancelled | ETimeout (blocked : string) | EUnknownResource.

(** ** The wake loop *)

Record limits := mkLimits { WakeTimeout : Z; Poll : Z; StableFor : Z }.

(** The maps of [WakeResource]. *)
Record progress_state := mkState {
  released : gset string; startedByWake : gset string; started : list string;
  firstRunning : gmap string Z
}.

Section Wake.
Context `{Docker W} (lim : limits).

(** [Waker.ready], with the updated [firstRunning]. *)
Definition ready (c : string) (st : ContainerState) (first : gmap string Z) (w : W)
    : W * gmap string Z * bool :=
  if decide (cs_health st = "healthy") then (w, first, true)
  else if bool_decide (cs_health st ∈ ["unhealthy"; "starting"]) then (w, delete c first, false)
  else
    let '(w, first) :=
      match first !! c with
      | Some _ => (w, first)
      | None => let '(w, t) := now w in (w, <[ c := t ]> first)
      end in
    let '(w, t) := now w in
    (w, first, StableFor lim <=? t - default t (first !! c)).

(** [Waker.depsMet] *)
Definition depsMet (c : WakeContainer) (released inSet : gset string) : bool :=
  forallb (λ dep, negb (bool_decide (dep ∈ inSet)) || bool_decide (dep ∈ released)) (wc_needs c).

(** What one pass over the wake set carries along. *)
Record pass := mkPass {
  ps_state : progress_state; ps_world : W; ps_log : list call;
  ps_progress : bool; ps_blocked : string
}.

Definition block (p : pass) (c : string) : pass :=
  mkPass (ps_state p) (ps_world p) (ps_log p) (ps_progress p)
    (if decide (ps_blocked p = "") then c else ps_blocked p).

(** Release a container. *)
Definition release (s : progress_state) (c : string) (first : gmap string Z) : progress_state :=
  mkState ({[ c ]} ∪ released s) (startedByWake s) (started s) first.

Definition with_first (s : progress_state) (first : gmap string Z) : progress_state :=
  mkState (released s) (startedByWake s) (started s) first.

(** The bookkeeping of a successful [Start]. *)
Definition mark_started (s : progress_state) (c : string) : progress_state :=
  mkState (released s) ({[ c ]} ∪ startedByWake s)
    (if decide (c ∈ startedByWake s) then started s else started s ++ [c])
    (delete c (firstRunning s)).

(** The body of the inner loop, for one container. *)
Definition visit (inSet : gset string) (p : pass) (c : WakeContainer) : wake_error * pass + pass :=
  let name := wc_container c in
  let s := ps_state p in
  if decide (name ∈ released s) then inr p
  else
    let '(w, st) := Inspect (ps_world p) name in
    let log := CInspect name st :: ps_log p in
    match st with
    | None => inl (EInspect name, mkPass s w log (ps_progress p) (ps_blocked p))
    | Some st =>
        if cs_running st then
          let '(w, first, ok) :=
            if decide (name ∈ startedByWake s) then ready name st (firstRunning s) w
            else (w, firstRunning s, true) in
          if ok then inr (mkPass (release s name first) w log true (ps_blocked p))
          else inr (block (mkPass (with_first s first) w log (ps_progress p) (ps_blocked p)) name)
        else if depsMet c (released s) inSet then
          let '(w, ok) := Start w name in
          let log := CStart name ok :: log in
          if ok then inr (block (mkPass (mark_started s name) w log (ps_progress p) (ps_blocked p)) name)
          else inl (EStart name, mkPass s w log (ps_progress p) (ps_blocked p))
        else inr (block (mkPass s w log (ps_progress p) (ps_blocked p)) name)
    end.

(** The inner loop. *)
Fixpoint visit_all (inSet : gset string) (p : pass) (set : list WakeContainer) : wake_error * pass + pass :=
  match set with
  | [] => inr p
  | c :: rest =>
      match visit inSet p c with
      | inl e => inl e
      | inr p => visit_all inSet p rest
      end
  end.

Definition in_set (set : list WakeContainer) : gset string := list_to_set (wc_container <$> set).

(** State of the outer loop: the maps, the world, the log and the deadline. *)
Record loop := mkLoop { lp_state : progress_state; lp_world : W; lp_log : list call; lp_deadline : Z }.

Definition finished : Type := option wake_error * loop.

(** The body of the outer loop. *)
Definition wake_step (set : list WakeContainer) (l : loop) : outcome loop finished :=
  match visit_all (in_set set) (mkPass (lp_state l) (lp_world l) (lp_log l) false "") set with
  | inl (e, p) => Done (Some e, mkLoop (ps_state p) (ps_world p) (ps_log p) (lp_deadline l))
  | inr p =>
      if bool_decide (size (released (ps_state p)) = length set)
      then Done (None, mkLoop (ps_state p) (ps_world p) (ps_log p) (lp_deadline l))
      else
        let '(w, deadline) :=
          if ps_progress p then let '(w, t) := now (ps_world p) in (w, t + WakeTimeout lim)
          else (ps_world p, lp_deadline l) in
        let '(w, t) := now w in
        let l := mkLoop (ps_state p) w (ps_log p) deadline in
        if negb (t <? deadline) then Done (Some (ETimeout (ps_blocked p)), l)
        else
          let '(w, ok) := sleepCtx w (Poll lim) in
          let l := mkLoop (ps_state p) w (ps_log p) deadline in
          if ok then Continue l else Done (Some ECancelled, l)
  end.

(** [Waker.rollback]: best effort, in reverse order. *)
Fixpoint rollback (w : W) (log : list call) (rev_started : list string) : W * list call :=
  match rev_started with
  | [] => (w, log)
  | c :: rest => let '(w, ok) := Stop w c in rollback w (CStop c ok :: log) rest
  end.

Definition initial_state : progress_state := mkState ∅ ∅ [] ∅.

(** [Waker.WakeResource] under the resource's gate, with a bound on the number
    of turns ([None]: not finished within it). *)
Definition WakeResource (fuel : nat) (res : option Resource) (w : W)
    : option (W * list call * (wake_error + list string)) :=
  match res with
  | None => Some (w, [], inl EUnknownResource)
  | Some r =>
      let set := wakeSet r in
      let '(w, t) := now w in
      match run_nat (wake_step set) fuel (mkLoop initial_state w [] (t + WakeTimeout lim)) with
      | Continue _ => None
      | Done (Some e, l) =>
          let '(w, log) := rollback (lp_world l) (lp_log l) (reverse (started (lp_state l))) in
          Some (w, log, inl e)
      | Done (None, l) => Some (lp_world l, lp_log l, inr (started (lp_state l)))
      end
  end.
End Wake.

(** ** What the log shows *)

(** [d] was seen up: an inspection reported it running, no start of it follows,
    and if the wake had started it before, it was neither starting nor
    unhealthy. *)
Definition observed_up (log : list call) (d : string) : Prop :=
  ∃ st after before,
    log = after ++ CInspect d (Some st) :: before ∧ cs_running st = true ∧
    (∀ ok, CStart d ok ∉ after) ∧
    (CStart d true ∈ before → cs_health st ∉ ["unhealthy"; "starting"]).

(** Every start came after all the dependencies inside the wake set were up. *)
Definition starts_ordered (set : list WakeContainer) (log : list call) : Prop :=
  ∀ later c ok before, log = later ++ CStart c ok :: before →
    ∃ wc, wc ∈ set ∧ wc_container wc = c ∧
      ∀ d, d ∈ wc_needs wc → d ∈ in_set set → observed_up before d.

Definition is_stop (x : call) : bool := match x with CStop _ _ => true | _ => false end.

Record log_inv (set : list WakeContainer) (s : progress_state) (log : list call) : Prop := {
  li_up : ∀ d, d ∈ released s → observed_up log d;
  li_released : released s ⊆ in_set set;
  li_started : ∀ c, c ∈ startedByWake s ↔ CStart c true ∈ log;
  li_list : ∀ c, c ∈ started s ↔ c ∈ startedByWake s;
  li_nodup : NoDup (started s);
  li_ordered : starts_ordered set log;
  li_no_stop : Forall (λ x, is_stop x = false) log
}.

Lemma observed_up_cons log d x :
  (∀ ok, x ≠ CStart d ok) → observed_up log d → observed_up (x :: log) d.
Proof.
  intros Hx (st & after & before & -> & Hr & Ha & Hh). exists st, (x :: after), before.
  split_and!; [done..| |done]. intros ok [Heq|Hin]%elem_of_cons; [by eapply Hx|by eapply Ha].
Qed.

Lemma starts_ordered_cons set log x :
  (∀ c ok, x ≠ CStart c ok) → starts_ordered set log → starts_ordered set (x :: log).
Proof.
  intros Hx Ho later c ok before Heq. destruct later as [|y later]; simplify_eq/=.
  - by destruct (Hx c ok).
  - by eapply Ho.
Qed.

(** An inspection keeps the invariant, whatever it answers. *)
Lemma log_inv_inspect set s log c st :
  log_inv set s log → log_inv set s (CInspect c st :: log).
Proof.
  intros []. split; try done.
  - intros d Hd. apply observed_up_cons; [done|auto].
  - intros d. rewrite li_started0, elem_of_cons. naive_solver.
  - by apply starts_ordered_cons.
  - by constructor.
Qed.

Lemma log_inv_first set s log first : log_inv set s log → log_inv set (with_first s first) log.
Proof. by intros []. Qed.

Lemma log_inv_release set s log c st first :
  log_inv set s (CInspect c (Some st) :: log) → c ∈ in_set set → cs_running st = true →
  (c ∈ startedByWake s → cs_health st ∉ ["unhealthy"; "starting"]) →
  log_inv set (release s c first) (CInspect c (Some st) :: log).
Proof.
  intros Hl Hin Hr Hh. pose proof (li_started _ _ _ Hl c) as Hst. destruct Hl. split; cbn; try done.
  - intros d [->%elem_of_singleton|Hd]%elem_of_union; [|auto].
    exists st, [], log. split_and!; [done..|by intros ok ?%not_elem_of_nil|].
    intros Hb. apply Hh, Hst. by right.
  - set_solver.
Qed.

Lemma log_inv_start set s log wc (ok : bool) :
  log_inv set s log → wc ∈ set → wc_container wc ∉ released s →
  depsMet wc (released s) (in_set set) = true →
  log_inv set (if ok then mark_started s (wc_container wc) else s) (CStart (wc_container wc) ok :: log).
Proof.
  intros [] Hwc Hnr Hdeps.
  assert (∀ d, d ∈ released s → observed_up (CStart (wc_container wc) ok :: log) d) as Hup.
  { intros d Hd. apply observed_up_cons; [intros ok' [= <- _]; done|auto]. }
  assert (starts_ordered set (CStart (wc_container wc) ok :: log)) as Hord.
  { intros later c ok' before Heq. destruct later as [|y later]; simplify_eq/=; [|by eapply li_ordered0].
    exists wc. split_and!; [done..|]. intros d Hd Hin. apply li_up0.
    unfold depsMet in Hdeps. rewrite forallb_forall in Hdeps.
    specialize (Hdeps d (proj1 (list_elem_of_In _ _) Hd)). apply orb_prop in Hdeps as [Hx|Hx]; reflect_bools; done. }
  assert (Forall (λ x, is_stop x = false) (CStart (wc_container wc) ok :: log)) as Hns by by constructor.
  destruct ok; split; cbn; try done.
  - intros c. rewrite elem_of_union, elem_of_singleton, li_started0, elem_of_cons. naive_solver.
  - intros c. case_decide as Hc; rewrite ?elem_of_app, ?list_elem_of_singleton, li_list0; set_solver.
  - case_decide as Hc; [done|]. apply NoDup_app. split; [done|]. split; [|apply NoDup_singleton].
    intros x Hx%li_list0 ->%list_elem_of_singleton. done.
  - intros c. rewrite li_started0, elem_of_cons. naive_solver.
Qed.

(** What was started belongs to the wake set. *)
Lemma started_in_set set s log c : log_inv set s log → c ∈ startedByWake s → c ∈ wc_container <$> set.
Proof.
  intros Hl Hc%(li_started _ _ _ Hl). apply list_elem_of_split in Hc as (later & before & ->).
  destruct (li_ordered _ _ _ Hl later c true before eq_refl) as (wc & Hwc & <- & _).
  by apply list_elem_of_fmap_2.
Qed.

(** Containers that are ready are not starting or unhealthy. *)
Lemma ready_health {W} `{Docker W} lim c st first w w' first' :
  ready lim c st first w = (w', first', true) → cs_health st ∉ ["unhealthy"; "starting"].
Proof.
  unfold ready. case_decide as Hh; [rewrite Hh; intros _; set_solver|].
  case_bool_decide; [by intros|]. done.
Qed.

Section Safety.
Context `{Docker W} (lim : limits) (set : list WakeContainer).

Definition pass_inv (p : @pass W) : Prop := log_inv set (ps_state p) (ps_log p).

Lemma visit_safe p c :
  pass_inv p → c ∈ set →
  match visit lim (in_set set) p c with inl (_, p') => pass_inv p' | inr p' => pass_inv p' end.
Proof.
  unfold pass_inv, visit. intros Hp Hc. set (name := wc_container c). set (s := ps_state p).
  destruct (decide (name ∈ released s)) as [|Hnr]; [done|].
  destruct (Inspect (ps_world p) name) as [w st]. pose proof (log_inv_inspect _ _ _ name st Hp) as Hi.
  destruct st as [st|]; [|done]. destruct (cs_running st) eqn:Hr.
  - assert (name ∈ in_set set) as Hin by (unfold in_set; set_solver).
    destruct (if decide (name ∈ startedByWake s) then ready lim name st (firstRunning s) w
              else (w, firstRunning s, true)) as [[w' first] ok] eqn:E.
    destruct ok; [|by apply log_inv_first]. apply log_inv_release; [done..|].
    intros Hs. rewrite decide_True in E by done. by eapply ready_health.
  - destruct (depsMet c (released s) (in_set set)) eqn:Hd; [|done].
    destruct (Start w name) as [w' ok]. pose proof (log_inv_start _ _ _ c ok Hi Hc Hnr Hd) as Hs.
    by destruct ok.
Qed.

Lemma visit_all_safe p cs :
  pass_inv p → (∀ c, c ∈ cs → c ∈ set) →
  match visit_all lim (in_set set) p cs with inl (_, p') => pass_inv p' | inr p' => pass_inv p' end.
Proof.
  revert p. induction cs as [|c cs IH]; intros p Hp Hcs; [done|]. simpl.
  pose proof (visit_safe p c Hp (Hcs c ltac:(by left))) as Hv.
  destruct (visit lim (in_set set) p c) as [[e p']|p']; [done|]. apply IH; [done|set_solver].
Qed.

(** The outcome of the loop. *)
Definition loop_inv (l : @loop W) : Prop := log_inv set (lp_state l) (lp_log l).
Definition finished_ok (f : @finished W) : Prop :=
  loop_inv (snd f) ∧ (fst f = None → size (released (lp_state (snd f))) = length set).

Lemma wake_step_safe l :
  loop_inv l → match wake_step lim set l with Continue l' => loop_inv l' | Done f => finished_ok f end.
Proof.
  intros Hl. unfold wake_step, finished_ok.
  pose proof (visit_all_safe (mkPass (lp_state l) (lp_world l) (lp_log l) false "") set Hl ltac:(done)) as Hv.
  destruct (visit_all _ _ _ _) as [[e p]|p]; [by split|].
  case_bool_decide; [by split|].
  repeat match goal with |- context [let '(_, _) := ?x in _] => destruct x end.
  destruct (negb _); [by split|].
  repeat match goal with |- context [let '(_, _) := ?x in _] => destruct x end.
  match goal with b : bool |- _ => destruct b end; [exact Hv|by split].
Qed.

Lemma run_safe fuel l :
  loop_inv l → match run_nat (wake_step lim set) fuel l with Continue l' => loop_inv l' | Done f => finished_ok f end.
Proof.
  revert l. induction fuel as [|fuel IH]; intros l Hl; [done|]. simpl.
  pose proof (wake_step_safe l Hl) as Hs. destruct (wake_step lim set l); [by apply IH|done].
Qed.

Lemma all_released l :
  loop_inv l → size (released (lp_state l)) = length set → released (lp_state l) = in_set set.
Proof.
  intros Hl Hsize. apply set_subseteq_size_eq; [apply Hl|].
  rewrite Hsize. unfold in_set. etransitivity; [apply size_list_to_set_le|]. by rewrite length_fmap.
Qed.
End Safety.

Lemma initial_inv set : log_inv set initial_state [].
Proof.
  split; cbn; try (by constructor); try (by set_solver).
  intros later c ok before Heq. by destruct later.
Qed.

(** The rollback stops exactly what it is given, in that order. *)
Lemma rollback_log `{Docker W} w log cs w' log' :
  rollback w log cs = (w', log') →
  ∃ oks, length oks = length cs ∧ log' = reverse (zip_with CStop cs oks) ++ log.
Proof.
  revert w log. induction cs as [|c cs IH]; intros w log; simpl; [intros [= _ <-]; by exists []|].
  destruct (Stop w c) as [w1 ok]. intros (oks & Hlen & ->)%IH. exists (ok :: oks). simpl.
  split; [lia|]. by rewrite reverse_cons, <- app_assoc.
Qed.

Lemma starts_ordered_app set log x :
  Forall (λ c, is_stop c = true) x → starts_ordered set log → starts_ordered set (x ++ log).
Proof.
  induction 1 as [|c x Hc _ IH]; intros Ho; [done|]. simpl. apply starts_ordered_cons; [|auto].
  intros d ok ->. done.
Qed.

Lemma stops_are_stops cs oks : Forall (λ c, is_stop c = true) (reverse (zip_with CStop cs oks)).
Proof.
  apply Forall_reverse. revert oks. induction cs as [|c cs IH]; intros [|ok oks]; constructor; auto.
Qed.

(** What a wake may leave behind: on success everything is up and nothing was
    stopped; on failure exactly the containers the wake started were stopped,
    in the reverse of their starting order, after everything else. *)
Definition left_behind (set : list WakeContainer) (log : list call) (res : wake_error + list string) : Prop :=
  match res with
  | inr begun =>
      Forall (λ x, is_stop x = false) log ∧ NoDup begun ∧ (∀ c, c ∈ begun ↔ CStart c true ∈ log) ∧
      (∀ c, c ∈ set → observed_up log (wc_container c))
  | inl _ =>
      ∃ begun oks before,
        log = reverse (zip_with CStop (reverse begun) oks) ++ before ∧ length oks = length begun ∧
        Forall (λ x, is_stop x = false) before ∧ NoDup begun ∧ (∀ c, c ∈ begun ↔ CStart c true ∈ before)
  end.

(** C29: a wake is safe whatever Docker, the clock and the context do: a
    container is started only after each of its dependencies in the wake set was
    seen running — and ready, when the wake had started it; a successful wake
    saw every container up, stopped none, and reports exactly what it started,
    once each; a failed one stopped exactly the containers it had started, in
    reverse order. *)
Theorem wake_safe `{Docker W} (lim : limits) (fuel : nat) (r : Resource) (w w' : W) log res :
  WakeResource lim fuel (Some r) w = Some (w', log, res) →
  starts_ordered (wakeSet r) log ∧ left_behind (wakeSet r) log res.
Proof.
  unfold WakeResource. destruct (now w) as [w1 t].
  pose proof (run_safe lim (wakeSet r) fuel (mkLoop initial_state w1 [] (t + WakeTimeout lim)) (initial_inv _)) as Hr.
  destruct (run_nat _ _ _) as [|[[e|] l]]; [done|..]; destruct Hr as [Hl Hsize]; cbn [fst snd] in *.
  - destruct (rollback _ _ _) as [w2 log2] eqn:E. intros [= <- <- <-].
    destruct (rollback_log _ _ _ _ _ E) as (oks & Hlen & ->). rewrite length_reverse in Hlen. destruct Hl. split.
    + apply starts_ordered_app; [apply stops_are_stops|done].
    + exists (started (lp_state l)), oks, (lp_log l). split_and!; [done..|]. intros c. by rewrite li_list0.
  - intros [= <- <- <-]. specialize (Hsize eq_refl). pose proof (all_released _ l Hl Hsize) as Ha. destruct Hl.
    split; [done|]. split_and!; [done..| |].
    + intros c. by rewrite li_list0.
    + intros c Hc. apply li_up0. rewrite Ha. unfold in_set. set_solver.
Qed.

(** ** Termination

    The laws of time: no call turns the clock back, [now] reads it, and a sleep
    that is not cancelled lasts. *)
Class DockerTime (W : Type) `{!Docker W} := {
  clock : W → Z;
  inspect_clock w c : clock w <= clock (fst (Inspect w c));
  start_clock w c : clock w <= clock (fst (Start w c));
  now_clock w : clock w <= snd (now w) <= clock (fst (now w));
  sleep_clock w d : snd (sleepCtx w d) = true → clock w + d <= clock (fst (sleepCtx w d))
}.

Section Termination.
Context `{DockerTime W} (lim : limits) (set : list WakeContainer).
Context (Hpoll : 0 < Poll lim) (Htimeout : 0 <= WakeTimeout lim).

Lemma ready_clock c st first w w' first' ok :
  ready lim c st first w = (w', first', ok) → clock w <= clock w'.
Proof.
  unfold ready. case_decide; [intros [= <- _ _]; lia|]. case_bool_decide; [intros [= <- _ _]; lia|].
  destruct (first !! c) as [f|]; cbn.
  - pose proof (now_clock w). destruct (now w). cbn in *. intros [= <- _ _]. lia.
  - pose proof (now_clock w). destruct (now w) as [w1 t1]. cbn in *.
    pose proof (now_clock w1). destruct (now w1). cbn in *. intros [= <- _ _]. lia.
Qed.

(** A pass never forgets a release, notes every new one as progress, and does
    not turn back the clock. *)
Definition pass_le (p p' : @pass W) : Prop :=
  clock (ps_world p) <= clock (ps_world p') ∧
  released (ps_state p) ⊆ released (ps_state p') ∧
  (ps_progress p = true → ps_progress p' = true) ∧
  (ps_progress p' = true → ps_progress p = true ∨ released (ps_state p) ⊂ released (ps_state p')).

Lemma pass_le_refl p : pass_le p p.
Proof. unfold pass_le. split_and!; [lia|done|auto..]. Qed.

Lemma pass_le_trans p q r : pass_le p q → pass_le q r → pass_le p r.
Proof.
  intros (H1 & H2 & H3 & H4) (H5 & H6 & H7 & H8). split_and!; [lia|set_solver|auto|].
  intros [Hq|Hs]%H8; [destruct (H4 Hq); [by left|]|]; right; set_solver.
Qed.

Lemma visit_le p c p' : visit lim (in_set set) p c = inr p' → pass_le p p'.
Proof.
  unfold visit. case_decide as Hnr; [intros [= <-]; apply pass_le_refl|].
  pose proof (inspect_clock (ps_world p) (wc_container c)) as Hi.
  destruct (Inspect _ _) as [w st]. cbn [fst] in Hi. destruct st as [st|]; [|done].
  destruct (cs_running st).
  - destruct (if decide _ then _ else _) as [[w' first] ok] eqn:E.
    assert (clock w <= clock w') as Hw by (case_decide; [by eapply ready_clock|simplify_eq; lia]).
    destruct ok; intros [= <-]; unfold pass_le; cbn; split_and!; try lia; try done; auto; try set_solver.
  - destruct (depsMet _ _ _); [|intros [= <-]; unfold pass_le; cbn; split_and!; try lia; auto].
    pose proof (start_clock w (wc_container c)) as Hs. destruct (Start _ _) as [w' ok]. cbn [fst] in Hs.
    destruct ok; [|done]. intros [= <-]. unfold pass_le; cbn; split_and!; try lia; auto.
Qed.

Lemma visit_all_le cs p p' : visit_all lim (in_set set) p cs = inr p' → pass_le p p'.
Proof.
  revert p. induction cs as [|c cs IH]; intros p; simpl; [intros [= <-]; apply pass_le_refl|].
  destruct (visit _ _ p c) as [|q] eqn:E; [done|]. intros Hq.
  eapply pass_le_trans; [by eapply visit_le|by apply IH].
Qed.

(** The turns left: a full budget per container not yet released, and what
    remains of the current one. *)
Definition budget : Z := WakeTimeout lim / Poll lim.
Definition turns (l : @loop W) : Z :=
  (Z.of_nat (length set) - Z.of_nat (size (released (lp_state l)))) * (budget + 2) +
  Z.max 0 ((lp_deadline l - clock (lp_world l)) / Poll lim + 1).

Lemma inv_size (l : @loop W) : loop_inv set l → (size (released (lp_state l)) <= length set)%nat.
Proof.
  intros Hl. etransitivity; [apply subseteq_size, Hl|]. unfold in_set.
  etransitivity; [apply size_list_to_set_le|]. by rewrite length_fmap.
Qed.

Lemma budget_nonneg : 0 <= budget.
Proof. apply Z.div_pos; lia. Qed.

(** Time that passes by at least one poll costs at least one turn. *)
Lemma poll_costs x y : y + Poll lim <= x → (y / Poll lim) + 1 <= x / Poll lim.
Proof. intros Hxy. rewrite <- (Z.div_add y 1) by lia. apply Z.div_le_mono; lia. Qed.

Lemma wake_step_turns l l' :
  loop_inv set l → wake_step lim set l = Continue l' → turns l' < turns l.
Proof.
  intros Hl Hw. pose proof (wake_step_safe lim set l Hl) as Hl'. rewrite Hw in Hl'.
  apply inv_size in Hl, Hl'. pose proof budget_nonneg as Hb. unfold turns. unfold wake_step in Hw.
  destruct (visit_all _ _ _ _) as [[]|p] eqn:Hv; [done|].
  apply visit_all_le in Hv as (Hclk & Hsub & _ & Hprog). cbn in Hclk, Hsub, Hprog.
  case_bool_decide as Hsz; [done|]. destruct (ps_progress p) eqn:Hp.
  - destruct (Hprog eq_refl) as [|Hss%subset_size]; [done|].
    pose proof (now_clock (ps_world p)) as Hn1. destruct (now (ps_world p)) as [w1 t1]. cbn in Hn1, Hw.
    pose proof (now_clock w1) as Hn2. destruct (now w1) as [w2 t2]. cbn in Hn2, Hw.
    destruct (negb _); [done|]. pose proof (sleep_clock w2 (Poll lim)) as Hs.
    destruct (sleepCtx w2 _) as [w3 ok]. destruct ok; [|done]. injection Hw as <-. cbn in *. specialize (Hs eq_refl).
    assert (Hc0 : t1 + WakeTimeout lim - clock w3 + Poll lim <= WakeTimeout lim) by lia.
    pose proof (poll_costs _ _ Hc0) as Hc.
    fold budget in Hc. nia.
  - pose proof (now_clock (ps_world p)) as Hn. destruct (now (ps_world p)) as [w2 t2]. cbn in Hn, Hw.
    destruct (Z.ltb_spec t2 (lp_deadline l)) as [Hlt|]; cbn in Hw; [|done].
    pose proof (sleep_clock w2 (Poll lim)) as Hs.
    destruct (sleepCtx w2 _) as [w3 ok]. destruct ok; [|done]. injection Hw as <-. cbn in *. specialize (Hs eq_refl).
    assert (Hc0 : lp_deadline l - clock w3 + Poll lim <= lp_deadline l - clock (lp_world l)) by lia.
    pose proof (poll_costs _ _ Hc0) as Hc.
    assert (0 <= (lp_deadline l - clock (lp_world l)) / Poll lim) by (apply Z.div_pos; lia).
    apply subseteq_size in Hsub. nia.
Qed.

Lemma turns_nonneg l : loop_inv set l → 0 <= turns l.
Proof. intros Hl%inv_size. pose proof budget_nonneg. unfold turns. nia. Qed.

Lemma run_terminates l n :
  loop_inv set l → turns l < Z.of_nat n → ∃ f, run_nat (wake_step lim set) n l = Done f.
Proof.
  intros Hl Hn. pose proof (turns_nonneg l Hl).
  destruct (run_nat_total (wake_step lim set) (loop_inv set) (λ l, Z.to_nat (turns l)) (λ _, True)) with n l
    as (f & Hf & _); [|done|lia|by exists f].
  intros l0 Hl0. pose proof (wake_step_safe lim set l0 Hl0) as Hs. pose proof (wake_step_turns l0) as Ht.
  destruct (wake_step lim set l0) as [l1|f]; [|done]. split; [done|].
  specialize (Ht l1 Hl0 eq_refl). pose proof (turns_nonneg l1 Hs). lia.
Qed.
End Termination.

(** The number of turns that is always enough. *)
Definition enough (lim : limits) (r : Resource) : nat :=
  (S (length (wakeSet r)) * (Z.to_nat (WakeTimeout lim / Poll lim) + 2))%nat.

Lemma initial_turns `{DockerTime W} lim r (w : W) t :
  0 < Poll lim → 0 <= WakeTimeout lim → t <= clock w →
  turns lim (wakeSet r) (mkLoop initial_state w [] (t + WakeTimeout lim)) < Z.of_nat (enough lim r).
Proof.
  intros Hp Ht Hn. assert (0 <= WakeTimeout lim / Poll lim) by (apply Z.div_pos; lia).
  unfold turns, budget, enough. cbn [lp_state lp_deadline lp_world released initial_state].
  rewrite size_empty. set (B := WakeTimeout lim / Poll lim) in *.
  assert ((t + WakeTimeout lim - clock w) / Poll lim <= B) by (apply Z.div_le_mono; lia). nia.
Qed.

(** A wake ends: however slowly containers come up, whatever the answers,
    as long as the clock does not go back and a poll takes time, [WakeResource]
    returns — within one budget of polls per container and one more. *)
Theorem wake_terminates `{DockerTime W} (lim : limits) (r : Resource) (w : W) :
  0 < Poll lim → 0 <= WakeTimeout lim →
  ∃ w' log res, WakeResource lim (enough lim r) (Some r) w = Some (w', log, res).
Proof.
  intros Hp Ht. unfold WakeResource. pose proof (now_clock w) as Hn. destruct (now w) as [w1 t]. cbn in Hn.
  destruct (run_terminates lim (wakeSet r) Hp Ht (mkLoop initial_state w1 [] (t + WakeTimeout lim)) (enough lim r))
    as [[[e|] l] Hf]; [apply initial_inv|apply initial_turns; lia| |].
  - rewrite Hf. destruct (rollback _ _ _). eauto.
  - rewrite Hf. eauto.
Qed.

(** ** The handler in front *)

(** The state of a background wake, [wakeState]. *)
Record wakeState := mkWakeState { ws_waking : bool; ws_err : option wake_error }.

(** [Waker], less its limits and clients: the deposited configuration and the
    background wakes. *)
Record Waker := mkWaker {
  wk_routes : gmap string Route; wk_resources : gmap string Resource;
  wk_pending : gmap string string;        (** host to state *)
  wk_wakes : gmap string wakeState
}.

(** What [ServeHTTP] reads of a request; [hr_probe]: the uptime header is set,
    [hr_retry]: the query carries the retry flag. *)
Record http_request := mkHttpRequest {
  hr_host : string; hr_method : string; hr_accept : string; hr_length : Z;
  hr_probe : bool; hr_retry : bool
}.

Inductive response :=
| UnknownHost | PendingPage (state : string)
| Asleep                                    (** the probe of a sleeping resource *)
| TooLarge                                  (** body too large to hold *)
| WaitingPage (failed : option wake_error) (begun : bool) (** [begun]: a background wake was launched *)
| WakeTimedOut (e : wake_error) | WakeFailed (e : wake_error)
| Proxied (container : string) (port : Z).

(** [hostname]: what precedes the first colon. *)
Definition hostname (h : string) : string := match cut ":" h with Some (host, _) => host | None => h end.

(** [isBrowserNavigation] *)
Definition isBrowserNavigation (r : http_request) : bool :=
  bool_decide (hr_method r ∈ ["GET"; "HEAD"]) && contains_sub "text/html" (hr_accept r).

(** [normalizePreviewState] *)
Definition normalizePreviewState (state : string) : string :=
  let s := to_lower (trim_space state) in
  if decide (s = "deploying") then "deploying" else if decide (s = "failed") then "failed" else "queued".

Section Serve.
Context `{Docker W} (lim : limits) (fuel : nat).

(** [Waker.isRunning] *)
Fixpoint all_running (w : W) (log : list call) (cs : list string) : W * list call * bool :=
  match cs with
  | [] => (w, log, true)
  | c :: rest =>
      let '(w, st) := Inspect w c in
      let log := CInspect c st :: log in
      match st with
      | Some st => if cs_running st then all_running w log rest else (w, log, false)
      | None => (w, log, false)
      end
  end.
Definition isRunning (k : Waker) (w : W) (log : list call) (uuid : string) : W * list call * bool :=
  match wk_resources k !! uuid with
  | None => (w, log, false)
  | Some r => all_running w log (rs_containers r)
  end.

(** The part of [serveWaitingPage] that decides: a background wake is launched
    unless one is running or the last one failed and no retry was asked. *)
Definition serveWaitingPage (k : Waker) (uuid : string) (retry : bool) : Waker * response :=
  let ws := default (mkWakeState false None) (wk_wakes k !! uuid) in
  let failed := ws_err ws in
  let launch := negb (ws_waking ws) && (bool_decide (failed = None) || retry) in
  let ws := if launch then mkWakeState true None else ws in
  (mkWaker (wk_routes k) (wk_resources k) (wk_pending k) (<[ uuid := ws ]> (wk_wakes k)),
   WaitingPage (if launch then None else failed) launch).

(** [wakeInBackground] *)
Definition wakeInBackground (k : Waker) (w : W) (uuid : string) : option (Waker * W * list call) :=
  '(w, log, res) ← WakeResource lim fuel (wk_resources k !! uuid) w;
  let err := match res with inl e => Some e | inr _ => None end in
  Some (mkWaker (wk_routes k) (wk_resources k) (wk_pending k)
          (<[ uuid := mkWakeState false err ]> (wk_wakes k)), w,
        match res with inl _ => log | inr _ => CRecord uuid :: log end).

Definition waking (k : Waker) (uuid : string) : bool :=
  match wk_wakes k !! uuid with Some ws => ws_waking ws | None => false end.

(** The hold-and-forward path of [ServeHTTP]; [log0] is what was called before. *)
Definition hold (k : Waker) (w : W) (log0 : list call) (r : http_request) (route : Route)
    : option (Waker * W * list call * response) :=
  '(w, log, res) ← WakeResource lim fuel (wk_resources k !! rt_resource route) w;
  let log := log ++ log0 in
  Some match res with
  | inl (ETimeout b) => (k, w, log, WakeTimedOut (ETimeout b))
  | inl e => (k, w, log, WakeFailed e)
  | inr _ =>
      (k, w, if hr_probe r then log else CRecord (rt_resource route) :: log,
       Proxied (rt_container route) (rt_port route))
  end.

(** [Waker.ServeHTTP]; each [isRunning] inspects again. *)
Definition ServeHTTP (k : Waker) (w : W) (r : http_request) : option (Waker * W * list call * response) :=
  match wk_routes k !! hostname (hr_host r) with
  | None =>
      Some (k, w, [], match wk_pending k !! hostname (hr_host r) with
                      | Some s => PendingPage (normalizePreviewState s)
                      | None => UnknownHost
                      end)
  | Some route =>
      let uuid := rt_resource route in
      let '(w, log, asleep) :=
        if hr_probe r then let '(w, log, up) := isRunning k w [] uuid in (w, log, negb up) else (w, [], false) in
      if asleep then Some (k, w, log, Asleep)
      else
        let '(w, log, held) :=
          if MaxHoldBody <? hr_length r then let '(w, log, up) := isRunning k w log uuid in (w, log, negb up)
          else (w, log, false) in
        if held then Some (k, w, log, TooLarge)
        else if isBrowserNavigation r then
          let '(w, log, sleeping) :=
            if waking k uuid then (w, log, true)
            else let '(w, log, up) := isRunning k w log uuid in (w, log, negb up) in
          if sleeping then
            let '(k, resp) := serveWaitingPage k uuid (hr_retry r) in Some (k, w, log, resp)
          else hold k w log r route
        else hold k w log r route
  end.
End Serve.

(** ** What a request causes *)

Definition is_inspect (x : call) : bool := match x with CInspect _ _ => true | _ => false end.

Section ServeFacts.
Context `{Docker W} (lim : limits) (fuel : nat).

Lemma isRunning_log k w log uuid w' log' b :
  isRunning k w log uuid = (w', log', b) → Forall (λ x, is_inspect x = true) log →
  Forall (λ x, is_inspect x = true) log'.
Proof.
  unfold isRunning. destruct (wk_resources k !! uuid) as [r|]; [|by intros [= _ <- _]].
  revert w log. induction (rs_containers r) as [|c cs IH]; intros w log; simpl; [by intros [= _ <- _]|].
  destruct (Inspect w c) as [w1 st]. intros Hr Hl.
  destruct st as [st|]; [destruct (cs_running st)|]; [|injection Hr as _ <- _; by constructor..].
  eapply IH; [exact Hr|by constructor].
Qed.

(** The calls of a wake never record activity. *)
Definition silent (log : list call) : Prop := ∀ u, CRecord u ∉ log.

Lemma silent_cons x log : (∀ u, x ≠ CRecord u) → silent log → silent (x :: log).
Proof. intros Hx Hs u [E|Hin]%elem_of_cons; [by eapply Hx|by eapply Hs]. Qed.

Lemma inspects_silent log : Forall (λ x, is_inspect x = true) log → silent log.
Proof. intros Hl u Hin. rewrite Forall_forall in Hl. by specialize (Hl _ Hin). Qed.

Lemma silent_app a b : silent a → silent b → silent (a ++ b).
Proof. intros Ha Hb u [Hin|Hin]%elem_of_app; [by eapply Ha|by eapply Hb]. Qed.

Lemma visit_silent inSet p c :
  silent (ps_log p) →
  match visit lim inSet p c with inl (_, p') => silent (ps_log p') | inr p' => silent (ps_log p') end.
Proof.
  intros Hs. unfold visit. case_decide; [done|]. destruct (Inspect _ _) as [w st].
  assert (silent (CInspect (wc_container c) st :: ps_log p)) as Hi by (by apply silent_cons).
  destruct st as [st|]; [|done]. destruct (cs_running st).
  - destruct (if decide _ then _ else _) as [[w' first] ok]. by destruct ok.
  - destruct (depsMet _ _ _); [|done]. destruct (Start _ _) as [w' ok].
    destruct ok; cbn; by apply silent_cons.
Qed.

Lemma visit_all_silent inSet cs p :
  silent (ps_log p) →
  match visit_all lim inSet p cs with inl (_, p') => silent (ps_log p') | inr p' => silent (ps_log p') end.
Proof.
  revert p. induction cs as [|c cs IH]; intros p Hs; [done|]. simpl. pose proof (visit_silent inSet p c Hs) as Hv.
  destruct (visit lim inSet p c) as [[e p']|p']; [done|]. by apply IH.
Qed.

Lemma run_silent set n l :
  silent (lp_log l) →
  match run_nat (wake_step lim set) n l with Continue _ => True | Done (_, l') => silent (lp_log l') end.
Proof.
  revert l. induction n as [|n IH]; intros l Hs; [done|]. simpl. unfold wake_step.
  pose proof (visit_all_silent (in_set set) set (mkPass (lp_state l) (lp_world l) (lp_log l) false "") Hs) as Hv.
  destruct (visit_all _ _ _ _) as [[e p]|p]; [done|]. case_bool_decide; [done|].
  repeat match goal with |- context [let '(_, _) := ?x in _] => destruct x end. destruct (negb _); [done|].
  repeat match goal with |- context [let '(_, _) := ?x in _] => destruct x end.
  match goal with b : bool |- _ => destruct b end; [by apply IH|done].
Qed.

Lemma WakeResource_silent res w w' log out : WakeResource lim fuel res w = Some (w', log, out) → silent log.
Proof.
  unfold WakeResource. destruct res as [r|]; [|intros [= _ <- _] u; apply not_elem_of_nil].
  destruct (now w) as [w1 t].
  pose proof (run_silent (wakeSet r) fuel (mkLoop initial_state w1 [] (t + WakeTimeout lim))
                ltac:(intros u; apply not_elem_of_nil)) as Hr.
  destruct (run_nat _ _ _) as [|[[e|] l]]; [done|..]; [|by intros [= _ <- _]].
  destruct (rollback _ _ _) as [w2 log2] eqn:E. intros [= _ <- _].
  destruct (rollback_log _ _ _ _ _ E) as (oks & _ & ->). apply silent_app; [|done].
  intros u Hin. pose proof (stops_are_stops (reverse (started (lp_state l))) oks) as Hst.
  rewrite Forall_forall in Hst. by specialize (Hst _ Hin).
Qed.

(** What the answer says of the calls made. *)
Definition accountable (k k' : Waker) (r : http_request) (log : list call) (resp : response) : Prop :=
  match resp with
  | Proxied c port =>
      ∃ route res rec wake ins begun,
        wk_routes k !! hostname (hr_host r) = Some route ∧ c = rt_container route ∧ port = rt_port route ∧
        wk_resources k !! rt_resource route = Some res ∧
        log = rec ++ wake ++ ins ∧ Forall (λ x, is_inspect x = true) ins ∧
        starts_ordered (wakeSet res) wake ∧ left_behind (wakeSet res) wake (inr begun) ∧
        rec = (if hr_probe r then [] else [CRecord (rt_resource route)]) ∧ silent (wake ++ ins)
  | WakeTimedOut e | WakeFailed e =>
      silent log ∧ ∃ wake ins, log = wake ++ ins ∧ Forall (λ x, is_inspect x = true) ins ∧
        ∀ route res, wk_routes k !! hostname (hr_host r) = Some route →
          wk_resources k !! rt_resource route = Some res → left_behind (wakeSet res) wake (inl e)
  | WaitingPage _ begun =>
      Forall (λ x, is_inspect x = true) log ∧
      ∀ route, wk_routes k !! hostname (hr_host r) = Some route →
        (begun = true → waking k (rt_resource route) = false ∧ waking k' (rt_resource route) = true) ∧
        (begun = false → waking k' (rt_resource route) = waking k (rt_resource route))
  | _ => Forall (λ x, is_inspect x = true) log
  end.

Lemma hold_accountable k w log0 r route k' w' log resp :
  wk_routes k !! hostname (hr_host r) = Some route → Forall (λ x, is_inspect x = true) log0 →
  hold lim fuel k w log0 r route = Some (k', w', log, resp) → accountable k k' r log resp.
Proof.
  intros Hroute Hl0. unfold hold.
  destruct (WakeResource lim fuel (wk_resources k !! rt_resource route) w) as [[[w1 wl] out]|] eqn:E; [|done].
  simpl. pose proof (WakeResource_silent _ _ _ _ _ E) as Hs. pose proof (inspects_silent _ Hl0) as Hs0.
  assert (silent (wl ++ log0)) as Hall by (by apply silent_app).
  destruct (wk_resources k !! rt_resource route) as [res|] eqn:Hres.
  - destruct (wake_safe lim fuel res w w1 wl out E) as [Ho Hlb].
    destruct out as [e|begun].
    + intros Heq. assert (resp = WakeTimedOut e ∨ resp = WakeFailed e) as [-> | ->] by (destruct e; naive_solver);
        assert (log = wl ++ log0) as -> by (destruct e; naive_solver);
        (split; [done|]; exists wl, log0; split_and!; [done..|]; intros ? ? Hr1 Hr2; by simplify_eq).
    + intros [= <- <- <- <-]. exists route, res, (if hr_probe r then [] else [CRecord (rt_resource route)]), wl, log0, begun.
      split_and!; try done. by destruct (hr_probe r).
  - injection E as <- <- <-. simpl. intros [= <- <- <- <-]. split; [done|].
    exists [], log0. split_and!; [done..|]. intros ? ? Hr1 Hr2. by simplify_eq.
Qed.
End ServeFacts.

(** What answering a request does to the stack behind it: it is forwarded
    only after a wake that left every container up, and then, and only then,
    dated as activity — never for an uptime probe; every other answer than the
    failure of a wake, which rolled back, made no call but inspections; and the
    waiting page launches a background wake only when none is running. *)
Theorem ServeHTTP_accountable `{Docker W} (lim : limits) (fuel : nat) (k k' : Waker) (w w' : W) r log resp :
  ServeHTTP lim fuel k w r = Some (k', w', log, resp) → accountable k k' r log resp.
Proof.
  unfold ServeHTTP. destruct (wk_routes k !! hostname (hr_host r)) as [route|] eqn:Hroute.
  2:{ intros [= <- <- <- <-]. destruct (wk_pending k !! _); constructor. }
  set (uuid := rt_resource route).
  destruct (if hr_probe r then _ else _) as [[w1 log1] asleep1] eqn:E1.
  assert (Forall (λ x, is_inspect x = true) log1) as H1.
  { destruct (hr_probe r); [|injection E1 as _ <- _; constructor].
    destruct (isRunning k w [] uuid) as [[wa la] ba] eqn:Ea. injection E1 as _ <- _. by eapply isRunning_log. }
  destruct asleep1; [by intros [= <- <- <- <-]|].
  destruct (if MaxHoldBody <? hr_length r then _ else _) as [[w2 log2] held] eqn:E2.
  assert (Forall (λ x, is_inspect x = true) log2) as H2.
  { destruct (_ <? _); [|by injection E2 as _ <- _].
    destruct (isRunning k w1 log1 uuid) as [[wa la] ba] eqn:Ea. injection E2 as _ <- _. by eapply isRunning_log. }
  destruct held; [by intros [= <- <- <- <-]|].
  destruct (isBrowserNavigation r); [|by apply hold_accountable].
  destruct (if waking k uuid then _ else _) as [[w3 log3] sleeping] eqn:E3.
  assert (Forall (λ x, is_inspect x = true) log3) as H3.
  { destruct (waking k uuid); [by injection E3 as _ <- _|].
    destruct (isRunning k w2 log2 uuid) as [[wa la] ba] eqn:Ea. injection E3 as _ <- _. by eapply isRunning_log. }
  destruct sleeping; [|by apply hold_accountable].
  unfold serveWaitingPage. intros [= <- <- <- <-]. split; [done|].
  intros route' Hr'. rewrite Hroute in Hr'. injection Hr' as <-. unfold waking. cbn. fold uuid. rewrite lookup_insert_eq.
  destruct (wk_wakes k !! uuid) as [[[] err]|]; cbn; [done| |done]. by destruct (_ || _).
Qed.
