(* ===== verification/WakeLive.v ===== *)
(** * Scale to zero: a wake succeeds

    A well-behaved Docker daemon as an instance of the interface of [Waker], and
    the liveness of [WakeResource] on it: a stack without dependency cycles
    comes up.  The instance also runs the examples of [Waker]'s theorems. *)
From S2P Require Import Prelude GoLib Waker.
Local Open Scope Z_scope.

(** ** Liveness

    A well-behaved daemon: calls take no time, starting works, and a container
    with a healthcheck turns healthy [b] after its start ([boot c = Some b]);
    one without never reports a health. *)
Record ideal := mkIdeal { id_clock : Z; id_up : gmap string Z }.

Section Ideal.
Context (boot : string → option Z).

Definition ideal_health (w : ideal) (c : string) (since : Z) : string :=
  match boot c with
  | Some b => if since + b <=? id_clock w then "healthy" else "starting"
  | None => "none"
  end.

#[local] Instance ideal_docker : Docker ideal := {|
  Inspect w c := (w, Some match id_up w !! c with
                          | Some since => mkContainerState true (ideal_health w c since)
                          | None => mkContainerState false ""
                          end);
  Start w c := (mkIdeal (id_clock w) (<[ c := id_clock w ]> (id_up w)), true);
  Stop w c := (mkIdeal (id_clock w) (delete c (id_up w)), true);
  now w := (w, id_clock w);
  sleepCtx w d := (mkIdeal (id_clock w + d) (id_up w), true)
|}.

#[local] Instance ideal_time : DockerTime ideal.
Proof. refine {| clock := id_clock |}; intros; cbn in *; lia. Defined.

Context (lim : limits) (set : list WakeContainer).
Context (Hnodup : NoDup (wc_container <$> set)).
(** The dependencies have no cycle, and every container comes up in time. *)
Context (rank : string → nat).
Context (Hrank : ∀ wc d, wc ∈ set → d ∈ wc_needs wc → d ∈ in_set set → (rank d < rank (wc_container wc))%nat).
Context (Hpoll : 0 < Poll lim < WakeTimeout lim).
Context (Hboot : ∀ wc, wc ∈ set →
  match boot (wc_container wc) with
  | Some b => b + Poll lim <= WakeTimeout lim
  | None => 2 * Poll lim + StableFor lim <= WakeTimeout lim
  end).

Definition since (w : ideal) (c : string) : Z := default 0 (id_up w !! c).
Definition up (w : ideal) (c : string) : Prop := is_Some (id_up w !! c).

(** Between two passes: the last progress was at [p]; whatever may start is up
    or will be within a poll, and is watched from a poll after its start. *)
Record waiting (p : Z) (l : @loop ideal) : Prop := {
  wt_deadline : lp_deadline l = p + WakeTimeout lim;
  wt_started : ∀ c, c ∈ startedByWake (lp_state l) →
    up (lp_world l) c ∧ since (lp_world l) c <= id_clock (lp_world l);
  wt_watched : ∀ c, c ∈ startedByWake (lp_state l) → c ∉ released (lp_state l) → boot c = None →
    match firstRunning (lp_state l) !! c with
    | None => id_clock (lp_world l) <= since (lp_world l) c + Poll lim
    | Some f => f <= since (lp_world l) c + Poll lim
    end;
  wt_startable : ∀ wc, wc ∈ set → wc_container wc ∉ released (lp_state l) →
    depsMet wc (released (lp_state l)) (in_set set) = true →
    (¬ up (lp_world l) (wc_container wc) → id_clock (lp_world l) <= p + Poll lim) ∧
    (wc_container wc ∈ startedByWake (lp_state l) → since (lp_world l) (wc_container wc) <= p + Poll lim);
  wt_up : ∀ c, c ∈ released (lp_state l) → up (lp_world l) c
}.

(** During a pass that began in [l], the containers [seen] already visited. *)
Record passing (p : Z) (l : @loop ideal) (seen : list WakeContainer) (q : @pass ideal) : Prop := {
  pg_clock : id_clock (ps_world q) = id_clock (lp_world l);
  pg_grows : released (lp_state l) ⊆ released (ps_state q);
  pg_same : ps_progress q = false → released (ps_state q) = released (lp_state l);
  pg_started : ∀ c, c ∈ startedByWake (ps_state q) →
    up (ps_world q) c ∧ since (ps_world q) c <= id_clock (lp_world l);
  pg_watched : ∀ c, c ∈ startedByWake (ps_state q) → c ∉ released (ps_state q) → boot c = None →
    match firstRunning (ps_state q) !! c with
    | None => id_clock (lp_world l) <= since (ps_world q) c + Poll lim ∧
              (c ∈ wc_container <$> seen → since (ps_world q) c = id_clock (lp_world l))
    | Some f => f <= since (ps_world q) c + Poll lim
    end;
  pg_seen : ∀ wc, wc ∈ seen → ps_progress q = false → wc_container wc ∉ released (ps_state q) →
    depsMet wc (released (lp_state l)) (in_set set) = true →
    up (ps_world q) (wc_container wc) ∧ wc_container wc ∈ startedByWake (ps_state q) ∧
    since (ps_world q) (wc_container wc) <= p + Poll lim ∧ id_clock (lp_world l) < p + WakeTimeout lim;
  pg_unseen : ∀ c, c ∉ wc_container <$> seen →
    id_up (ps_world q) !! c = id_up (lp_world l) !! c ∧
    (c ∈ startedByWake (ps_state q) ↔ c ∈ startedByWake (lp_state l)) ∧
    firstRunning (ps_state q) !! c = firstRunning (lp_state l) !! c ∧
    (c ∈ released (ps_state q) → c ∈ released (lp_state l));
  pg_up : ∀ c, c ∈ released (ps_state q) → up (ps_world q) c
}.

Section Pass.
Context (p : Z) (l : @loop ideal) (Hw : waiting p l).
Abbreviation t := (id_clock (lp_world l)).

(** What a visit may change, and what it owes for the container it visits. *)
Lemma passing_extend seen q q' wc :
  passing p l seen q → wc_container wc ∉ wc_container <$> seen →
  let name := wc_container wc in
  id_clock (ps_world q') = t →
  released (ps_state q) ⊆ released (ps_state q') → released (ps_state q') ⊆ {[ name ]} ∪ released (ps_state q) →
  (ps_progress q' = false → ps_progress q = false ∧ released (ps_state q') = released (ps_state q)) →
  (∀ c, c ≠ name → id_up (ps_world q') !! c = id_up (ps_world q) !! c ∧
     (c ∈ startedByWake (ps_state q') ↔ c ∈ startedByWake (ps_state q)) ∧
     firstRunning (ps_state q') !! c = firstRunning (ps_state q) !! c) →
  (name ∈ startedByWake (ps_state q') → up (ps_world q') name ∧ since (ps_world q') name <= t) →
  (name ∈ startedByWake (ps_state q') → name ∉ released (ps_state q') → boot name = None →
     match firstRunning (ps_state q') !! name with
     | None => since (ps_world q') name = t
     | Some f => f <= since (ps_world q') name + Poll lim
     end) →
  (ps_progress q' = false → name ∉ released (ps_state q') →
     depsMet wc (released (lp_state l)) (in_set set) = true →
     up (ps_world q') name ∧ name ∈ startedByWake (ps_state q') ∧
     since (ps_world q') name <= p + Poll lim ∧ t < p + WakeTimeout lim) →
  (name ∈ released (ps_state q') → up (ps_world q') name) →
  passing p l (seen ++ [wc]) q'.
Proof.
  intros [] Hns name Hclk Hg1 Hg2 Hprog Hframe Hst Hwatch Hseen Hupn.
  assert (∀ c, c ≠ name → since (ps_world q') c = since (ps_world q) c ∧ (up (ps_world q') c ↔ up (ps_world q) c)) as Hs.
  { intros c Hc. destruct (Hframe c Hc) as (E & _). unfold since, up. by rewrite E. }
  split; [done|set_solver|..].
  - intros Hp. destruct (Hprog Hp) as [Hp0 ->]. auto.
  - intros c Hc. destruct (decide (c = name)) as [->|Hne]; [auto|].
    destruct (Hs c Hne) as [-> ->]. apply pg_started0. by apply Hframe.
  - intros c Hc Hnr Hb. destruct (decide (c = name)) as [->|Hne].
    + specialize (Hwatch Hc Hnr Hb). destruct (firstRunning (ps_state q') !! name); [done|].
      split; [lia|done].
    + destruct (Hframe c Hne) as (_ & E & ->). destruct (Hs c Hne) as [-> _].
      specialize (pg_watched0 c (proj1 E Hc) ltac:(set_solver) Hb).
      destruct (firstRunning (ps_state q) !! c); [done|]. destruct pg_watched0 as [? Hx]. split; [done|].
      rewrite fmap_app, elem_of_app. intros [?|Hin]; [auto|]. cbn in Hin. set_solver.
  - intros wc' [Hin| ->%list_elem_of_singleton]%elem_of_app Hp Hnr Hd; [|auto].
    assert (wc_container wc' ≠ name) as Hne by (intros E; apply Hns; fold name; rewrite <- E; by apply list_elem_of_fmap_2).
    destruct (Hframe _ Hne) as (_ & E & _). destruct (Hs _ Hne) as [-> ->]. rewrite E.
    destruct (Hprog Hp) as [Hp0 Hr]. apply pg_seen0; [done..|set_solver|done].
  - intros c. rewrite fmap_app, not_elem_of_app. cbn. intros [Hc Hne].
    assert (c ≠ name) as Hcn by set_solver. destruct (Hframe c Hcn) as (-> & -> & ->).
    destruct (pg_unseen0 c Hc) as (-> & -> & -> & ?). split_and!; [done..|].
    intros [?%elem_of_singleton|?]%Hg2%elem_of_union; [done|auto].
  - intros c Hc. destruct (decide (c = name)) as [->|Hne]; [auto|]. apply (Hs c Hne), pg_up0.
    by apply Hg2, elem_of_union in Hc as [?%elem_of_singleton|?].
Qed.

(** Visiting a container that is up and was started by the wake. *)
Lemma ideal_ready (w : ideal) name first s :
  ready lim name (mkContainerState true (ideal_health w name s)) first w =
  match boot name with
  | Some b => if s + b <=? id_clock w then (w, first, true) else (w, delete name first, false)
  | None =>
      let f := default (id_clock w) (first !! name) in
      (w, <[ name := f ]> first, StableFor lim <=? id_clock w - f)
  end.
Proof.
  unfold ready, ideal_health. destruct (boot name) as [b|].
  - by destruct (Z.leb_spec (s + b) (id_clock w)).
  - rewrite decide_False by done. rewrite bool_decide_eq_false_2 by set_solver. cbn.
    destruct (first !! name) as [f|] eqn:E; cbn.
    + rewrite E. cbn. by rewrite insert_id.
    + by rewrite lookup_insert_eq.
Qed.

Section Visit.
Context (seen : list WakeContainer) (q : @pass ideal) (wc : WakeContainer).
Context (Hq : passing p l seen q) (Hwc : wc ∈ set) (Hns : wc_container wc ∉ wc_container <$> seen).
Context (Hnr : wc_container wc ∉ released (ps_state q)).
Abbreviation name := (wc_container wc).

Lemma not_released_before : name ∉ released (lp_state l).
Proof. intros H. apply Hnr. by apply (pg_grows _ _ _ _ Hq). Qed.

(** A container that could start is waited for no longer than the budget. *)
Lemma startable_bounds :
  ps_progress q = false → depsMet wc (released (lp_state l)) (in_set set) = true →
  (¬ up (ps_world q) name → t <= p + Poll lim) ∧
  (name ∈ startedByWake (ps_state q) → since (ps_world q) name <= p + Poll lim).
Proof.
  intros _ Hd. destruct (pg_unseen _ _ _ _ Hq name Hns) as (Hu & Hst & _).
  destruct (wt_startable _ _ Hw wc Hwc not_released_before Hd) as [H1 H2].
  unfold up, since in *. rewrite Hu, Hst. auto.
Qed.

Lemma visit_start :
  id_up (ps_world q) !! name = None → 
  passing p l (seen ++ [wc])
    (block (mkPass (mark_started (ps_state q) name) (fst (Start (ps_world q) name))
       (CStart name true :: CInspect name (Some (mkContainerState false "")) :: ps_log q)
       (ps_progress q) (ps_blocked q)) name).
Proof.
  intros Hup. apply (passing_extend seen q); try done; cbn.
  - apply (pg_clock _ _ _ _ Hq).
  - set_solver.
  - intros c Hne. rewrite lookup_insert_ne, lookup_delete_ne by done. split_and!; [done|set_solver|done].
  - intros _. unfold up, since. cbn. rewrite lookup_insert_eq. split; [done|]. cbn.
    rewrite (pg_clock _ _ _ _ Hq). lia.
  - intros _ _ _. unfold since. cbn. rewrite lookup_delete_eq, lookup_insert_eq. apply (pg_clock _ _ _ _ Hq).
  - intros Hp _ Hd. destruct (startable_bounds Hp Hd) as [H1 _].
    assert (t <= p + Poll lim) by (apply H1; unfold up; rewrite Hup; by intros [? [=]]).
    unfold up, since. cbn. rewrite lookup_insert_eq. cbn. rewrite (pg_clock _ _ _ _ Hq).
    split_and!; [done|set_solver|lia|lia].
Qed.

Lemma visit_wait log :
  id_up (ps_world q) !! name = None → depsMet wc (released (ps_state q)) (in_set set) = false →
  passing p l (seen ++ [wc]) (block (mkPass (ps_state q) (ps_world q) log (ps_progress q) (ps_blocked q)) name).
Proof.
  intros Hup Hd. apply (passing_extend seen q); try done; cbn.
  - apply (pg_clock _ _ _ _ Hq).
  - set_solver.
  - apply (pg_started _ _ _ _ Hq).
  - intros Hst. destruct (pg_started _ _ _ _ Hq name Hst) as [[? Hx] _]. congruence.
  - intros Hp _ Hd'. rewrite (pg_same _ _ _ _ Hq Hp) in Hd. congruence.
Qed.

Lemma visit_release first log :
  name ∈ startedByWake (ps_state q) → up (ps_world q) name ∧ since (ps_world q) name <= t → 
  (∀ c, c ≠ name → first !! c = firstRunning (ps_state q) !! c) →
  passing p l (seen ++ [wc]) (mkPass (release (ps_state q) name first) (ps_world q) log true (ps_blocked q)).
Proof.
  intros Hst Hup Hf. apply (passing_extend seen q); try done; cbn.
  - apply (pg_clock _ _ _ _ Hq).
  - set_solver.
  - intros c Hne. by rewrite Hf.
  - intros _ Hx. set_solver.
  - intros _. apply Hup.
Qed.

Lemma visit_release_found log :
  name ∉ startedByWake (ps_state q) → up (ps_world q) name →
  passing p l (seen ++ [wc])
    (mkPass (release (ps_state q) name (firstRunning (ps_state q))) (ps_world q) log true (ps_blocked q)).
Proof.
  intros Hst Hup. apply (passing_extend seen q); try done; cbn.
  - apply (pg_clock _ _ _ _ Hq).
  - set_solver.
Qed.

Lemma visit_not_ready first log :
  name ∈ startedByWake (ps_state q) → up (ps_world q) name →
  (∀ c, c ≠ name → first !! c = firstRunning (ps_state q) !! c) →
  (boot name = None → ∃ f, first !! name = Some f ∧ f <= since (ps_world q) name + Poll lim) →
  (since (ps_world q) name <= p + Poll lim → t < p + WakeTimeout lim) →
  passing p l (seen ++ [wc]) (block (mkPass (with_first (ps_state q) first) (ps_world q) log (ps_progress q) (ps_blocked q)) name).
Proof.
  intros Hst Hup Hf Hb Hlag. apply (passing_extend seen q); try done; cbn.
  - apply (pg_clock _ _ _ _ Hq).
  - set_solver.
  - intros c Hne. by rewrite Hf.
  - intros _. apply (pg_started _ _ _ _ Hq name Hst).
  - intros _ _ Hbn. destruct (Hb Hbn) as (f & -> & Hle). done.
  - intros Hp _ Hd. destruct (startable_bounds Hp Hd) as [_ H2]. specialize (H2 Hst). auto.
Qed.

Lemma visit_passing : ∃ q', visit lim (in_set set) q wc = inr q' ∧ passing p l (seen ++ [wc]) q'.
Proof.
  unfold visit. rewrite decide_False by done. cbn [Inspect ideal_docker].
  destruct (id_up (ps_world q) !! name) as [s|] eqn:Hup; cbn [cs_running].
  - assert (up (ps_world q) name) as Hup' by (unfold up; eauto).
    assert (s = since (ps_world q) name) as Hs by (unfold since; by rewrite Hup).
    destruct (decide (name ∈ startedByWake (ps_state q))) as [Hst|Hnst];
      [|eexists; split; [reflexivity|by apply visit_release_found]].
    rewrite ideal_ready. pose proof (pg_started _ _ _ _ Hq name Hst) as Hle.
    pose proof (Hboot wc Hwc) as Hbt. pose proof (pg_clock _ _ _ _ Hq) as Hclk.
    destruct (boot name) as [b|] eqn:Hb.
    + destruct (Z.leb_spec (s + b) (id_clock (ps_world q))); (eexists; split; [reflexivity|]).
      * by apply visit_release.
      * apply visit_not_ready; [done..| |congruence|lia]. intros c Hne. by rewrite lookup_delete_ne.
    + cbn. set (f := default (id_clock (ps_world q)) (firstRunning (ps_state q) !! name)).
      assert (f <= since (ps_world q) name + Poll lim) as Hf.
      { pose proof (pg_watched _ _ _ _ Hq name Hst Hnr Hb) as Hwt. unfold f.
        destruct (firstRunning (ps_state q) !! name); cbn; lia. }
      destruct (Z.leb_spec (StableFor lim) (id_clock (ps_world q) - f)); (eexists; split; [reflexivity|]).
      * apply visit_release; try done. intros c Hne. by rewrite lookup_insert_ne.
      * apply visit_not_ready; try done; [| |lia].
        -- intros c Hne. by rewrite lookup_insert_ne.
        -- intros _. exists f. by rewrite lookup_insert_eq.
  - destruct (depsMet wc (released (ps_state q)) (in_set set)) eqn:Hd; (eexists; split; [reflexivity|]).
    + by apply visit_start.
    + by apply visit_wait.
Qed.
End Visit.

Lemma visit_skip seen q wc :
  passing p l seen q → wc_container wc ∉ wc_container <$> seen → wc_container wc ∈ released (ps_state q) →
  passing p l (seen ++ [wc]) q.
Proof.
  intros Hq Hns Hr. apply (passing_extend seen q); try done.
  - apply (pg_clock _ _ _ _ Hq).
  - set_solver.
  - apply (pg_started _ _ _ _ Hq).
  - apply (pg_up _ _ _ _ Hq).
Qed.

Lemma visit_all_passing seen q rest :
  passing p l seen q → set = seen ++ rest →
  ∃ q', visit_all lim (in_set set) q rest = inr q' ∧ passing p l set q'.
Proof.
  revert seen q. induction rest as [|wc rest IH]; intros seen q Hq Hset.
  { exists q. rewrite app_nil_r in Hset. by subst. }
  assert (wc ∈ set) as Hwc by (rewrite Hset; set_solver).
  assert (wc_container wc ∉ wc_container <$> seen) as Hns.
  { rewrite Hset, fmap_app, NoDup_app in Hnodup. destruct Hnodup as (_ & Hd & _).
    intros Hin. apply (Hd _ Hin). cbn. by left. }
  assert (∃ q', visit lim (in_set set) q wc = inr q' ∧ passing p l (seen ++ [wc]) q') as (q' & Hv & Hq').
  { destruct (decide (wc_container wc ∈ released (ps_state q))) as [Hr|Hnr]; [|by apply visit_passing].
    exists q. split; [unfold visit; by rewrite decide_True|by apply visit_skip]. }
  simpl. rewrite Hv. apply (IH (seen ++ [wc])); [done|]. by rewrite <- app_assoc.
Qed.

Lemma start_passing : passing p l [] (mkPass (lp_state l) (lp_world l) (lp_log l) false "").
Proof.
  destruct Hw. split; cbn; try done.
  - intros c Hc Hnr Hb. specialize (wt_watched0 c Hc Hnr Hb). destruct (_ !! c); [done|]. split; [done|].
    by intros ?%not_elem_of_nil.
  - by intros wc ?%not_elem_of_nil.
Qed.
End Pass.

(** Something can always start. *)
Lemma startable_exists rel :
  rel ⊆ in_set set → size rel ≠ length set →
  ∃ wc, wc ∈ set ∧ wc_container wc ∉ rel ∧ (depsMet wc rel (in_set set) = true).
Proof.
  intros Hsub Hsize.
  assert (∃ wc, wc ∈ set ∧ wc_container wc ∉ rel) as (wc & Hwc & Hnr).
  { destruct (set_choose_or_empty (in_set set ∖ rel)) as [[c [Hc Hcn]%elem_of_difference]|He].
    - unfold in_set in Hc. apply elem_of_list_to_set, list_elem_of_fmap in Hc as (wc & -> & Hwc). eauto.
    - exfalso. apply Hsize. assert (rel = in_set set) as ->.
      { apply leibniz_equiv, set_equiv_subseteq. split; [done|]. intros x Hx.
        destruct (decide (x ∈ rel)); [done|]. exfalso. apply (not_elem_of_empty (C := gset string) x).
        rewrite <- He. by apply elem_of_difference. }
      unfold in_set. by rewrite size_list_to_set, length_fmap. }
  remember (rank (wc_container wc)) as n eqn:Hn. revert wc Hwc Hnr Hn.
  induction n as [n IH] using lt_wf_ind. intros wc Hwc Hnr ->.
  destruct (depsMet wc rel (in_set set)) eqn:Hd; [by exists wc|].
  apply forallb_false in Hd as (d & Hd & Hf). apply orb_false_iff in Hf as [Hin Hdr]. reflect_bools.
  pose proof (Hrank wc d Hwc Hd Hin) as Hlt.
  apply elem_of_list_to_set, list_elem_of_fmap in Hin as (wc' & -> & Hwc').
  by eapply (IH (rank (wc_container wc'))).
Qed.

(** The state between two passes, after one that ended in [q]; [p'] is the new
    date of the last progress. *)
Lemma waiting_next p l q p' :
  passing p l set q → loop_inv set l → pass_inv set q →
  (ps_progress q = true → p' = id_clock (lp_world l)) → (ps_progress q = false → p' = p) →
  waiting p' (mkLoop (ps_state q) (mkIdeal (id_clock (ps_world q) + Poll lim) (id_up (ps_world q)))
                (ps_log q) (p' + WakeTimeout lim)).
Proof.
  intros Hq Hl Hi Htrue Hfalse. pose proof (pg_clock _ _ _ _ Hq) as Hclk. split; cbn; try done.
  - intros c Hc. destruct (pg_started _ _ _ _ Hq c Hc) as [Hu Hle]. split; [done|].
    unfold since in *. cbn. lia.
  - intros c Hc Hnr Hb. pose proof (pg_watched _ _ _ _ Hq c Hc Hnr Hb) as Hwt.
    unfold since in *. cbn. destruct (firstRunning _ !! c); [done|]. destruct Hwt as [_ Hs].
    rewrite Hs; [lia|]. by eapply started_in_set.
  - intros wc Hwc Hnr Hd. destruct (ps_progress q) eqn:Hp.
    + rewrite (Htrue eq_refl). split; [intros _; lia|]. intros Hst.
      destruct (pg_started _ _ _ _ Hq _ Hst) as [_ Hle]. unfold since in *. cbn. lia.
    + rewrite (Hfalse eq_refl). rewrite (pg_same _ _ _ _ Hq Hp) in Hd.
      destruct (pg_seen _ _ _ _ Hq wc Hwc Hp Hnr Hd) as (Hu & _ & Hs & _).
      split; [intros Hn; by destruct Hn|intros _; exact Hs].
  - apply (pg_up _ _ _ _ Hq).
Qed.

Lemma live_step p l :
  waiting p l → loop_inv set l →
  match wake_step lim set l with
  | Continue l' => ∃ p', waiting p' l'
  | Done (None, l') => ∀ wc, wc ∈ set → up (lp_world l') (wc_container wc)
  | Done (Some _, _) => False
  end.
Proof.
  intros Hwt Hl. unfold wake_step.
  destruct (visit_all_passing p l Hwt [] _ set (start_passing p l Hwt) eq_refl) as (q & Hv & Hq). rewrite Hv.
  pose proof (visit_all_safe lim set (mkPass (lp_state l) (lp_world l) (lp_log l) false "") set Hl ltac:(done)) as Hi.
  rewrite Hv in Hi. case_bool_decide as Hsize.
  { intros wc Hwc. apply (pg_up _ _ _ _ Hq).
    pose proof (all_released set (mkLoop (ps_state q) (ps_world q) (ps_log q) 0) Hi Hsize) as Ha. cbn in Ha.
    rewrite Ha. unfold in_set. apply elem_of_list_to_set. by apply list_elem_of_fmap_2. }
  cbn [now ideal_docker sleepCtx].
  destruct (startable_exists (released (ps_state q)) ltac:(apply Hi) Hsize) as (wc & Hwc & Hnr & Hdeps).
  destruct (ps_progress q) eqn:Hp.
  - rewrite (proj2 (Z.ltb_lt _ _)) by lia. cbn. exists (id_clock (ps_world q)).
    apply (waiting_next p l); [done..|intros _; apply (pg_clock _ _ _ _ Hq)|congruence].
  - assert (id_clock (lp_world l) < lp_deadline l) as Hlt.
    { rewrite (wt_deadline _ _ Hwt). rewrite (pg_same _ _ _ _ Hq Hp) in Hdeps.
      by destruct (pg_seen _ _ _ _ Hq wc Hwc Hp Hnr Hdeps) as (_ & _ & _ & ?). }
    rewrite (proj2 (Z.ltb_lt _ _)) by (by rewrite (pg_clock _ _ _ _ Hq)). cbn. exists p.
    rewrite (wt_deadline _ _ Hwt). apply (waiting_next p l); [done..|congruence|done].
Qed.

Lemma live_run n p l f :
  waiting p l → loop_inv set l → run_nat (wake_step lim set) n l = Done f →
  fst f = None ∧ ∀ wc, wc ∈ set → up (lp_world (snd f)) (wc_container wc).
Proof.
  revert p l. induction n as [|n IH]; intros p l Hwt Hl; [done|]. simpl.
  pose proof (live_step p l Hwt Hl) as Hs. pose proof (wake_step_safe lim set l Hl) as Hi.
  destruct (wake_step lim set l) as [l'|[[e|] l']].
  - destruct Hs as [p' Hs]. by apply (IH p').
  - done.
  - by intros [= <-].
Qed.

Lemma initial_waiting w :
  waiting (id_clock w) (mkLoop initial_state w [] (id_clock w + WakeTimeout lim)).
Proof.
  split; cbn; try done; try (by intros c ?%not_elem_of_empty).
  intros wc _ _ _. split; [lia|]. by intros ?%not_elem_of_empty.
Qed.
End Ideal.

(** C36: a wake succeeds: with a daemon that starts what it is asked to, if the
    dependencies have no cycle and every container is ready within the budget of
    one container — less the polls it takes to notice — [WakeResource] returns
    without an error, with every container of the stack up, however long the
    chain of dependencies. *)
Theorem wake_succeeds (boot : string → option Z) (lim : limits) (r : Resource) (rank : string → nat) (w : ideal) :
  let set := wakeSet r in
  NoDup (wc_container <$> set) →
  (∀ wc d, wc ∈ set → d ∈ wc_needs wc → d ∈ in_set set → (rank d < rank (wc_container wc))%nat) →
  0 < Poll lim < WakeTimeout lim →
  (∀ wc, wc ∈ set →
     match boot (wc_container wc) with
     | Some b => b + Poll lim <= WakeTimeout lim
     | None => 2 * Poll lim + StableFor lim <= WakeTimeout lim
     end) →
  ∃ w' log begun,
    WakeResource (H := ideal_docker boot) lim (enough lim r) (Some r) w = Some (w', log, inr begun) ∧
    ∀ wc, wc ∈ set → is_Some (id_up w' !! wc_container wc).
Proof.
  intros set Hnd Hrank Hpoll Hboot. unfold WakeResource. cbn [now ideal_docker]. fold set.
  destruct (run_terminates (H := ideal_time boot) lim set ltac:(lia) ltac:(lia)
              (mkLoop initial_state w [] (id_clock w + WakeTimeout lim)) (enough lim r)) as [f Hf].
  { apply initial_inv. }
  { apply (initial_turns (H := ideal_time boot)); cbn; lia. }
  rewrite Hf.
  destruct (live_run boot lim set Hnd rank Hrank Hpoll Hboot _ _ _ f (initial_waiting boot lim set Hpoll w)
              (initial_inv set) Hf) as [Hn Hup].
  destruct f as [[e|] l]; [done|]. eauto.
Qed.

(** A database with a healthcheck and a web server that needs it, asleep. *)
Definition demo_boot (c : string) : option Z := if decide (c = "db") then Some 5000000000 else None.
Definition demo_limits : limits := mkLimits defaultWakeTimeout defaultPoll defaultStableFor.
Definition demo_stack : Resource :=
  mkResource "r" ["db"; "web"] [mkWakeContainer "web" ["db"; "migrate"]; mkWakeContainer "db" []].
Definition asleep : ideal := mkIdeal 0 ∅.

Lemma wake_succeeds_witness :
  ∃ w' log begun,
    WakeResource (H := ideal_docker demo_boot) demo_limits (enough demo_limits demo_stack) (Some demo_stack) asleep
      = Some (w', log, inr begun) ∧ begun = ["db"; "web"] ∧ is_Some (id_up w' !! "web").
Proof.
  destruct (wake_succeeds demo_boot demo_limits demo_stack (λ c, if decide (c = "db") then 0%nat else 1%nat) asleep)
    as (w' & log & begun & Hr & Hup).
  - repeat constructor; set_solver.
  - intros wc d [->|[->|[]%not_elem_of_nil]%elem_of_cons]%elem_of_cons Hd Hin;
      [|by apply not_elem_of_nil in Hd].
    apply elem_of_cons in Hd as [->|Hd]; [vm_compute; lia|].
    apply list_elem_of_singleton in Hd as ->. by vm_compute in Hin.
  - vm_compute. auto.
  - intros wc [->|[->|[]%not_elem_of_nil]%elem_of_cons]%elem_of_cons; vm_compute; discriminate.
  - exists w', log, begun. split; [done|]. split.
    + vm_compute in Hr. by injection Hr as _ _ <-.
    + apply (Hup (mkWakeContainer "web" ["db"; "migrate"])). by left.
Defined.

(** The same stack on a server where the database never gets healthy in time:
    the wake gives up and stops what it started. *)
Definition slow_boot (c : string) : option Z := Some 100000000000.

Lemma wake_safe_witness :
  ∃ w' log, WakeResource (H := ideal_docker slow_boot) demo_limits 200 (Some demo_stack) asleep
      = Some (w', log, inl (ETimeout "web")) ∧ id_up w' = ∅ ∧ head log = Some (CStop "db" true) ∧
    starts_ordered (wakeSet demo_stack) log ∧ left_behind (wakeSet demo_stack) log (inl (ETimeout "web")).
Proof.
  destruct (WakeResource (H := ideal_docker slow_boot) demo_limits 200 (Some demo_stack) asleep)
    as [[[w' log] res]|] eqn:E; [|exfalso; vm_compute in E; discriminate].
  destruct (wake_safe (H := ideal_docker slow_boot) demo_limits 200 demo_stack asleep w' log res E) as [Ho Hl].
  assert (res = inl (ETimeout "web") ∧ id_up w' = ∅ ∧ head log = Some (CStop "db" true)) as (-> & Hup & Hh).
  { vm_compute in E. injection E as <- <- <-. done. }
  eauto 10.
Defined.

Lemma wake_terminates_witness :
  ∃ w' log res, WakeResource (H := ideal_docker slow_boot) demo_limits (enough demo_limits demo_stack)
                  (Some demo_stack) asleep = Some (w', log, res).
Proof.
  apply (wake_terminates (H := ideal_time slow_boot) demo_limits demo_stack asleep); vm_compute; [reflexivity|discriminate].
Defined.

Definition demo_waker : Waker :=
  mkWaker {[ "app.example.org" := mkRoute "app.example.org" "r" "web" 8080 ]} {[ "r" := demo_stack ]} ∅ ∅.
Definition demo_call : http_request := mkHttpRequest "app.example.org:443" "POST" "application/json" 10 false false.

Lemma ServeHTTP_accountable_witness :
  ∃ k' w' log,
    ServeHTTP (H := ideal_docker demo_boot) demo_limits 400 demo_waker asleep demo_call
      = Some (k', w', log, Proxied "web" 8080) ∧
    head log = Some (CRecord "r") ∧ accountable demo_waker k' demo_call log (Proxied "web" 8080).
Proof.
  destruct (ServeHTTP (H := ideal_docker demo_boot) demo_limits 400 demo_waker asleep demo_call)
    as [[[[k' w'] log] resp]|] eqn:E; [|exfalso; vm_compute in E; discriminate].
  pose proof (ServeHTTP_accountable (H := ideal_docker demo_boot) demo_limits 400 demo_waker k' asleep w'
                demo_call log resp E) as Ha.
  assert (resp = Proxied "web" 8080 ∧ head log = Some (CRecord "r")) as [-> Hh].
  { vm_compute in E. injection E as <- <- <- <-. done. }
  exists k', w', log. auto.
Defined.
