(* ===== verification/ComposePlan.v ===== *)
(** * The start order of a stack

    Models the dependency part of [internal/compose/transform.go]:
    [topologicalOrder] (Kahn's algorithm, ties broken by name) and [findCycle]
    (depth-first search with colours), on the [depends_on] graph of a project.
    A Go map is iterated in an arbitrary order: the model takes the order as an
    argument, and the results do not depend on it. *)
From S2P Require Import Prelude GoLib.
Local Open Scope Z_scope.

(** A project, as far as the order is concerned: each service with the keys of
    its [depends_on], which may name services that do not exist. *)
Definition project := gmap string (gset string).

(** [x] depends on the service [y] of the project. *)
Definition depends (g : project) (x y : string) : Prop :=
  ∃ ds, g !! x = Some ds ∧ y ∈ ds ∧ is_Some (g !! y).

Definition acyclic (g : project) : Prop := ∀ x, ¬ tc (depends g) x x.

(** ** [topologicalOrder] *)

(** One range over [project.Services] and, per service, one over [DependsOn]:
    an enumeration of the edges to existing services. *)
Definition known (g : project) (ds : list string) : list string :=
  filter (λ d, is_Some (g !! d)) ds.

Record tables := mkTables { indegree : gmap string Z; dependents : gmap string (list string) }.

Definition get_indegree (t : tables) (x : string) : Z := default 0 (indegree t !! x).
Definition get_dependents (t : tables) (x : string) : list string := default [] (dependents t !! x).

Definition add_edge (name : string) (t : tables) (dep : string) : tables :=
  mkTables (<[ name := get_indegree t name + 1 ]> (indegree t))
           (<[ dep := get_dependents t dep ++ [name] ]> (dependents t)).

Definition add_service (g : project) (deps_of : string → list string) (t : tables) (name : string) : tables :=
  foldl (add_edge name) t (known g (deps_of name)).

Definition build_tables (g : project) (names : list string) (deps_of : string → list string) : tables :=
  foldl (add_service g deps_of) (mkTables (list_to_map ((λ n, (n, 0)) <$> names)) ∅) names.

(** The loop over [next]. *)
Definition relax (st : gmap string Z * list string) (dependent : string) : gmap string Z * list string :=
  let '(indeg, ready) := st in
  let d := default 0 (indeg !! dependent) - 1 in
  (<[ dependent := d ]> indeg, if d =? 0 then sort_strings (ready ++ [dependent]) else ready).

(** The main loop: one service leaves [ready] per turn. *)
Definition kahn_step (dependents : string → list string)
    (st : gmap string Z * list string * list string)
    : outcome (gmap string Z * list string * list string) (list string) :=
  let '(indeg, ready, order) := st in
  match ready with
  | [] => Done order
  | name :: ready' =>
      let '(indeg', ready'') := foldl relax (indeg, ready') (sort_strings (dependents name)) in
      Continue (indeg', ready'', order ++ [name])
  end.

Definition topologicalOrder (g : project) (names : list string) (deps_of : string → list string)
    : option (list string * bool) :=
  let t := build_tables g names deps_of in
  let ready := sort_strings (filter (λ n, get_indegree t n = 0) names) in
  match run_nat (kahn_step (get_dependents t)) (S (length names)) (indegree t, ready, []) with
  | Done order => Some (order, bool_decide (length order = size g))
  | Continue _ => None
  end.

(** An enumeration of the project the runtime may use. *)
Definition enumerates (g : project) (names : list string) (deps_of : string → list string) : Prop :=
  NoDup names ∧ (∀ x, x ∈ names ↔ is_Some (g !! x)) ∧
  ∀ x ds, g !! x = Some ds → NoDup (deps_of x) ∧ ∀ d, d ∈ deps_of x ↔ d ∈ ds.

(** *** The tables *)

Lemma filter_ext_in {A} (P Q : A → Prop) `{∀ x, Decision (P x)} `{∀ x, Decision (Q x)} (l : list A) :
  (∀ x, x ∈ l → P x ↔ Q x) → filter P l = filter Q l.
Proof.
  induction l as [|x l IH]; intros Hpq; [done|]. rewrite !filter_cons, IH by set_solver.
  specialize (Hpq x ltac:(set_solver)). destruct (decide (P x)), (decide (Q x)); tauto.
Qed.

Lemma known_spec g ds d : d ∈ known g ds ↔ d ∈ ds ∧ is_Some (g !! d).
Proof. unfold known. rewrite list_elem_of_filter. tauto. Qed.

Lemma add_edges_spec name ds t :
  NoDup ds →
  let t' := foldl (add_edge name) t ds in
  (∀ x, get_indegree t' x = get_indegree t x + if decide (x = name) then Z.of_nat (length ds) else 0) ∧
  (∀ y, get_dependents t' y = get_dependents t y ++ if decide (y ∈ ds) then [name] else []).
Proof.
  revert t. induction ds as [|d ds IH]; intros t Hnd; simpl.
  - split; intros x; [destruct (decide _); lia|]. by rewrite app_nil_r.
  - apply NoDup_cons in Hnd as [Hd Hnd]. destruct (IH (add_edge name t d) Hnd) as [H1 H2]. split.
    + intros x. rewrite H1. unfold add_edge, get_indegree at 1. simpl.
      destruct (decide (x = name)) as [->|Hne].
      * rewrite lookup_insert_eq. simpl. lia.
      * rewrite lookup_insert_ne by done. done.
    + intros y. rewrite H2. unfold add_edge, get_dependents at 1. simpl.
      destruct (decide (y = d)) as [->|Hne].
      * rewrite lookup_insert_eq. simpl. rewrite (decide_False (P := d ∈ ds)) by done.
        rewrite (decide_True (P := d ∈ d :: ds)) by set_solver. by rewrite app_nil_r.
      * rewrite lookup_insert_ne by done. f_equal. destruct (decide (y ∈ ds)).
        -- by rewrite decide_True by set_solver.
        -- by rewrite decide_False by set_solver.
Qed.

Section Kahn.
Context (g : project) (names : list string) (deps_of : string → list string).
Context (Henum : enumerates g names deps_of).

(** The edges out of a service, and the services an edge comes from. *)
Definition edges (x : string) : list string := known g (deps_of x).
Definition users (y : string) : list string := filter (λ x, y ∈ edges x) names.

Lemma edges_depends x y : x ∈ names → y ∈ edges x ↔ depends g x y.
Proof.
  destruct Henum as (_ & Hn & Hd). intros Hx. unfold edges, depends. rewrite known_spec.
  destruct (proj1 (Hn x) Hx) as [ds Hds]. destruct (Hd x ds Hds) as [_ Hmem]. rewrite Hmem. naive_solver.
Qed.

Lemma edges_NoDup x : x ∈ names → NoDup (edges x).
Proof.
  destruct Henum as (_ & Hn & Hd). intros Hx. destruct (proj1 (Hn x) Hx) as [ds Hds].
  unfold edges, known. by apply NoDup_filter, (Hd x ds Hds).
Qed.

Lemma edges_names x y : y ∈ edges x → y ∈ names.
Proof. destruct Henum as (_ & Hn & _). intros [_ H]%known_spec. by apply Hn. Qed.

Lemma build_spec :
  let t := build_tables g names deps_of in
  (∀ x, x ∈ names → get_indegree t x = Z.of_nat (length (edges x))) ∧
  (∀ y, get_dependents t y = users y).
Proof.
  unfold build_tables, users. set (t0 := mkTables _ _).
  assert (Hgen : ∀ ns t, NoDup ns → (∀ x, x ∈ ns → x ∈ names) →
    let t' := foldl (add_service g deps_of) t ns in
    (∀ x, get_indegree t' x = get_indegree t x + if decide (x ∈ ns) then Z.of_nat (length (edges x)) else 0) ∧
    (∀ y, get_dependents t' y = get_dependents t y ++ filter (λ x, y ∈ edges x) ns)).
  { induction ns as [|n ns IH]; intros t Hnd Hin; cbn [foldl].
    - split; [intros x; simpl; lia|]. intros y. by rewrite filter_nil, app_nil_r.
    - apply NoDup_cons in Hnd as [Hn Hnd].
      destruct (add_edges_spec n (edges n) t) as [H1 H2]; [apply edges_NoDup, Hin; set_solver|].
      destruct (IH (add_service g deps_of t n) Hnd) as [K1 K2]; [set_solver|].
      change (add_service g deps_of t n) with (foldl (add_edge n) t (edges n)) in *. split.
      + intros x. rewrite K1, H1. destruct (decide (x = n)) as [->|Hne].
        * rewrite (decide_False (P := n ∈ ns)) by done. rewrite (decide_True (P := n ∈ n :: ns)) by set_solver. lia.
        * destruct (decide (x ∈ ns)); [rewrite decide_True by set_solver|rewrite decide_False by set_solver]; lia.
      + intros y. rewrite K2, H2, <- app_assoc. f_equal. destruct (decide (y ∈ edges n)).
        * by rewrite filter_cons_True.
        * by rewrite filter_cons_False. }
  destruct Henum as (Hnd & _ & _). destruct (Hgen names t0 Hnd) as [H1 H2]; [done|]. split.
  - intros x Hx. rewrite H1, decide_True by done. enough (get_indegree t0 x = 0) as -> by lia.
    unfold get_indegree, t0. simpl.
    destruct (list_to_map ((λ n, (n, 0)) <$> names) !! x) as [v|] eqn:Hv; [|done].
    apply elem_of_list_to_map_2, list_elem_of_fmap in Hv as (n & [= _ ->] & _). done.
  - intros y. rewrite H2. unfold get_dependents, t0. simpl. by rewrite lookup_empty.
Qed.

(** *** The loop *)

(** What one pass over the dependents of a service does. *)
Lemma relax_spec next indeg ready :
  NoDup next →
  let '(indeg', ready') := foldl relax (indeg, ready) next in
  (∀ x, default 0 (indeg' !! x) = default 0 (indeg !! x) - if decide (x ∈ next) then 1 else 0) ∧
  ready' ≡ₚ ready ++ filter (λ x, default 0 (indeg !! x) = 1) next.
Proof.
  revert indeg ready. induction next as [|n next IH]; intros indeg ready Hnd; cbn [foldl].
  - split; [intros x; simpl; lia|]. by rewrite filter_nil, app_nil_r.
  - apply NoDup_cons in Hnd as [Hn Hnd]. unfold relax at 2.
    set (d := default 0 (indeg !! n) - 1).
    specialize (IH (<[ n := d ]> indeg) (if d =? 0 then sort_strings (ready ++ [n]) else ready) Hnd).
    destruct (foldl relax _ next) as [indeg' ready']. destruct IH as [H1 H2]. split.
    + intros x. rewrite H1. destruct (decide (x = n)) as [->|Hne].
      * rewrite lookup_insert_eq. simpl. rewrite (decide_False (P := n ∈ next)) by done.
        rewrite decide_True by set_solver. unfold d. lia.
      * rewrite lookup_insert_ne by done.
        destruct (decide (x ∈ next)); [rewrite decide_True by set_solver|rewrite decide_False by set_solver]; lia.
    + rewrite H2. rewrite (filter_ext_in _ (λ x, default 0 (indeg !! x) = 1) next).
      2: { intros x Hx. rewrite lookup_insert_ne by set_solver. done. }
      destruct (d =? 0) eqn:E.
      * apply Z.eqb_eq in E. rewrite sort_strings_perm, filter_cons_True by (unfold d in E; lia).
        by rewrite <- app_assoc.
      * apply Z.eqb_neq in E. rewrite filter_cons_False by (unfold d in E; lia). done.
Qed.

(** The services still missing before [x] can start. *)
Definition missing (order : list string) (x : string) : nat :=
  length (filter (λ d, d ∉ order) (edges x)).

Lemma missing_snoc (order : list string) (name : string) (l : list string) :
  NoDup l → name ∉ order →
  length (filter (λ d, d ∉ order ++ [name]) l) =
  (length (filter (λ d, d ∉ order) l) - if decide (name ∈ l) then 1 else 0)%nat ∧
  (name ∈ l → (0 < length (filter (λ d, d ∉ order) l))%nat).
Proof.
  intros Hnd Hno. induction Hnd as [|d l Hd Hnd [IH IHpos]].
  { split; [by destruct (decide _)|]. intros H. by apply not_elem_of_nil in H. }
  destruct (decide (d ∈ order)) as [Ho|Ho].
  - rewrite !filter_cons_False by set_solver. rewrite IH. split; [|set_solver].
    destruct (decide (name ∈ l)); [by rewrite decide_True by set_solver|].
    by rewrite decide_False by set_solver.
  - rewrite (filter_cons_True (λ d, d ∉ order)) by done. split; [|simpl; lia].
    destruct (decide (d = name)) as [->|Hne].
    + rewrite filter_cons_False by set_solver. rewrite IH.
      rewrite (decide_False (P := name ∈ l)) by done. rewrite decide_True by set_solver. simpl. lia.
    + rewrite filter_cons_True by set_solver. simpl. rewrite IH.
      destruct (decide (name ∈ l)) as [Hin|].
      * rewrite decide_True by set_solver. specialize (IHpos Hin). lia.
      * rewrite decide_False by set_solver. lia.
Qed.

Lemma missing_zero order x : missing order x = 0%nat ↔ ∀ d, d ∈ edges x → d ∈ order.
Proof.
  unfold missing. split.
  - intros H d Hd. apply nil_length_inv in H. destruct (decide (d ∈ order)); [done|exfalso].
    assert (Hin : d ∈ filter (λ d, d ∉ order) (edges x)) by (by apply list_elem_of_filter).
    rewrite H in Hin. set_solver.
  - intros H. destruct (filter _ _) as [|d l] eqn:E; [done|exfalso].
    assert (Hin : d ∈ filter (λ d, d ∉ order) (edges x)) by (rewrite E; set_solver).
    apply list_elem_of_filter in Hin as [Hn Hd]. auto.
Qed.

(** Dependencies come first. *)
Definition ordered (order : list string) : Prop :=
  ∀ i x, order !! i = Some x → ∀ d, d ∈ edges x → d ∈ take i order.

Record inv (st : gmap string Z * list string * list string) : Prop := mkInv {
  inv_nodup : NoDup (st.2 ++ st.1.2);
  inv_names : ∀ x, x ∈ st.2 ++ st.1.2 → x ∈ names;
  inv_indeg : ∀ x, x ∈ names → default 0 (st.1.1 !! x) = Z.of_nat (missing st.2 x);
  inv_ready : ∀ x, x ∈ names → x ∈ st.2 ++ st.1.2 ↔ missing st.2 x = 0%nat;
  inv_order : ordered st.2
}.

Lemma elem_of_users x y : x ∈ users y ↔ x ∈ names ∧ y ∈ edges x.
Proof. unfold users. rewrite list_elem_of_filter. tauto. Qed.

Lemma ordered_snoc order name :
  ordered order → (∀ d, d ∈ edges name → d ∈ order) → ordered (order ++ [name]).
Proof.
  intros Ho Hname i x Hi d Hd. apply lookup_app_Some in Hi as [Hi|[Hlen Hi]].
  - pose proof (lookup_lt_Some _ _ _ Hi). rewrite take_app_le by lia. by eapply Ho.
  - apply list_lookup_singleton_Some in Hi as [Hi ->].
    rewrite take_app_length' by lia. auto.
Qed.

Lemma inv_step indeg name ready order :
  inv (indeg, name :: ready, order) →
  let '(indeg', ready') := foldl relax (indeg, ready) (sort_strings (users name)) in
  inv (indeg', ready', order ++ [name]).
Proof.
  intros [Hnd Hin Hdeg Hrdy Hord]. simpl in *.
  assert (Hnext : NoDup (sort_strings (users name))).
  { rewrite sort_strings_perm. apply NoDup_filter. apply Henum. }
  pose proof (relax_spec (sort_strings (users name)) indeg ready Hnext) as Hrel.
  destruct (foldl relax _ _) as [indeg' ready']. destruct Hrel as [Hdeg' Hrdy'].
  assert (Hname : name ∈ names) by (apply Hin; set_solver).
  assert (Hno : name ∉ order) by (apply NoDup_app in Hnd as (_ & Hd & _); intros H; apply (Hd name H); set_solver).
  assert (Hmiss : ∀ x, x ∈ names → missing (order ++ [name]) x =
     (missing order x - if decide (name ∈ edges x) then 1 else 0)%nat ∧ (name ∈ edges x → (0 < missing order x)%nat)).
  { intros x Hx. apply missing_snoc; [by apply edges_NoDup|done]. }
  assert (Hmem : ∀ x, x ∈ sort_strings (users name) ↔ x ∈ names ∧ name ∈ edges x).
  { intros x. rewrite sort_strings_perm. apply elem_of_users. }
  assert (Hnew : ∀ x, x ∈ filter (λ x, default 0 (indeg !! x) = 1) (sort_strings (users name)) →
            x ∈ names ∧ name ∈ edges x ∧ missing order x = 1%nat).
  { intros x [H1 [Hx He]%Hmem]%list_elem_of_filter. rewrite Hdeg in H1 by done. split_and!; try done; lia. }
  assert (Hperm : (order ++ [name]) ++ ready' ≡ₚ
            (order ++ name :: ready) ++ filter (λ x, default 0 (indeg !! x) = 1) (sort_strings (users name))).
  { rewrite Hrdy', <- !app_assoc. done. }
  split; simpl.
  - rewrite Hperm. apply NoDup_app. split; [done|]. split; [|by apply NoDup_filter].
    intros x Hx (Hxn & _ & Hm)%Hnew. apply (Hrdy x Hxn) in Hx. lia.
  - intros x. rewrite Hperm, elem_of_app. intros [Hx|Hx%Hnew]; [by apply Hin|tauto].
  - intros x Hx. rewrite Hdeg', Hdeg by done. destruct (Hmiss x Hx) as [-> Hpos].
    destruct (decide (name ∈ edges x)) as [He|He].
    + rewrite decide_True by (by apply Hmem). specialize (Hpos He). lia.
    + rewrite decide_False by (rewrite Hmem; tauto). lia.
  - intros x Hx. destruct (Hmiss x Hx) as [-> Hpos]. rewrite Hperm, elem_of_app. split.
    + intros [Ho%(Hrdy x Hx)|(_ & He & H1)%Hnew]; [lia|]. rewrite H1, decide_True by done. lia.
    + intros H0. destruct (decide (missing order x = 0%nat)) as [Hz|Hnz]; [left; by apply Hrdy|right].
      destruct (decide (name ∈ edges x)) as [He|]; [|lia].
      apply list_elem_of_filter. rewrite Hdeg by done. split; [lia|]. by apply Hmem.
  - apply ordered_snoc; [done|]. apply missing_zero. apply Hrdy; [done|set_solver].
Qed.

Lemma inv_init :
  let t := build_tables g names deps_of in
  inv (indegree t, sort_strings (filter (λ n, get_indegree t n = 0) names), []).
Proof.
  destruct build_spec as [Hdeg _]. intros t. fold t in Hdeg.
  assert (Hmiss : ∀ x, missing [] x = length (edges x)).
  { intros x. unfold missing. f_equal.
    induction (edges x) as [|d l IH]; [done|]. rewrite filter_cons_True by set_solver. by rewrite IH. }
  assert (Hmem : ∀ x, x ∈ sort_strings (filter (λ n, get_indegree t n = 0) names) ↔ x ∈ names ∧ get_indegree t x = 0).
  { intros x. rewrite sort_strings_perm, list_elem_of_filter. tauto. }
  split; simpl.
  - rewrite sort_strings_perm. apply NoDup_filter, Henum.
  - intros x. rewrite Hmem. tauto.
  - intros x Hx. rewrite Hmiss. exact (Hdeg x Hx).
  - intros x Hx. rewrite Hmiss, Hmem, (Hdeg x Hx). split; [lia|]. intros H. split; [done|lia].
  - intros i x Hi. by rewrite lookup_nil in Hi.
Qed.

(** The loop ends, with everything that could start in the order. *)
Lemma kahn_total :
  ∃ order, topologicalOrder g names deps_of = Some (order, bool_decide (length order = size g)) ∧
    ∃ indeg, inv (indeg, [], order).
Proof.
  destruct build_spec as [_ Hdep]. unfold topologicalOrder.
  set (t := build_tables g names deps_of) in *.
  destruct (run_nat_total (kahn_step (get_dependents t)) inv
      (λ st, (length names - length st.2)%nat) (λ order, ∃ indeg, inv (indeg, [], order)))
    with (n := S (length names)) (s := (indegree t, sort_strings (filter (λ n, get_indegree t n = 0) names), @nil string))
    as (order & Hrun & HQ).
  - intros [[indeg ready] order] Hinv. unfold kahn_step. destruct ready as [|name ready]; [by exists indeg|].
    rewrite Hdep. pose proof (inv_step indeg name ready order Hinv) as Hs.
    destruct (foldl relax _ _) as [indeg' ready']. split; [done|]. simpl. rewrite length_app. simpl.
    destruct Hs as [Hnd Hin _ _ _]. simpl in *.
    pose proof (submseteq_length _ _ (NoDup_submseteq _ _ Hnd Hin)) as Hle. rewrite !length_app in Hle. simpl in Hle. lia.
  - apply inv_init.
  - simpl. lia.
  - rewrite Hrun. by exists order.
Qed.

(** *** Cycles *)

Lemma depends_names x y : depends g x y → x ∈ names ∧ y ∈ names.
Proof.
  destruct Henum as (_ & Hn & _). intros (ds & Hx & _ & Hy). split; apply Hn; [by exists ds|done].
Qed.

Lemma tc_names x y : tc (depends g) x y → x ∈ names ∧ y ∈ names.
Proof.
  induction 1 as [x y H|x y z H _ [_ IH]]; [by apply depends_names|].
  split; [|done]. by apply depends_names in H as [? _].
Qed.

Lemma acyclic_sn x : acyclic g → sn (depends g) x.
Proof.
  intros Hac. apply tc_finite_sn; [exact Hac|]. exists names. intros y Hy.
  by apply tc_names in Hy as [_ Hy].
Qed.

(** In an order with everybody in it, dependencies point strictly backwards. *)
Lemma ordered_tc order x y i :
  ordered order → tc (depends g) x y → order !! i = Some x → ∃ j, (j < i)%nat ∧ order !! j = Some y.
Proof.
  intros Ho Htc.
  assert (Hone : ∀ i x y, order !! i = Some x → depends g x y → ∃ j, (j < i)%nat ∧ order !! j = Some y).
  { intros i' x' y' Hi' Hxy. destruct (depends_names x' y' Hxy) as [Hx' _].
    pose proof (Ho i' x' Hi' y' (proj2 (edges_depends x' y' Hx') Hxy)) as Hin.
    apply list_elem_of_lookup in Hin as [j Hj]. apply lookup_take_Some in Hj as [Hj ?]. eauto. }
  revert i. induction Htc as [x y Hxy|x y z Hxy _ IH]; intros i Hi.
  - destruct (Hone i x y Hi Hxy) as (j & ? & ?). eauto.
  - destruct (Hone i x y Hi Hxy) as (j & ? & Hj). destruct (IH j Hj) as (k & ? & ?).
    exists k. split; [lia|done].
Qed.

Lemma names_size : length names = size g.
Proof.
  destruct Henum as (Hnd & Hn & _).
  rewrite <- (size_dom (D := gset string) g), <- (size_list_to_set (C := gset string) names) by done.
  f_equal. apply set_eq. intros x. rewrite elem_of_list_to_set, elem_of_dom. apply Hn.
Qed.

Lemma order_complete indeg order :
  inv (indeg, [], order) → (length order = size g ↔ ∀ x, x ∈ names → x ∈ order).
Proof.
  intros [Hnd Hin _ _ _]. simpl in *. rewrite app_nil_r in *. rewrite <- names_size. split.
  - intros Hlen x Hx.
    assert (Hp : order ≡ₚ names)
      by (apply submseteq_length_Permutation; [by apply NoDup_submseteq|lia]).
    by rewrite Hp.
  - intros Hall. apply Nat.le_antisymm.
    + by apply submseteq_length, NoDup_submseteq.
    + apply submseteq_length, NoDup_submseteq; [apply Henum|done].
Qed.

Lemma kahn_acyclic indeg order :
  inv (indeg, [], order) → ((∀ x, x ∈ names → x ∈ order) ↔ acyclic g).
Proof.
  intros [Hnd Hin Hdeg Hrdy Hord]. simpl in *. rewrite app_nil_r in *. split.
  - intros Hall x Hx. assert (Hxn : x ∈ order).
    { apply Hall. by apply tc_names in Hx as [Hx _]. }
    apply list_elem_of_lookup in Hxn as [i Hi]. destruct (ordered_tc order x x i Hord Hx Hi) as (j & Hj & Hjx).
    pose proof (NoDup_lookup _ _ _ _ Hnd Hi Hjx). lia.
  - intros Hac x Hx. pose proof (acyclic_sn x Hac) as Hsn. induction Hsn as [x _ IH].
    destruct (decide (x ∈ order)) as [|Hno]; [done|exfalso]. apply Hno, Hrdy; [done|].
    apply missing_zero. intros d Hd. apply IH; [|by eapply edges_names]. by apply edges_depends.
Qed.
End Kahn.

Lemma topologicalOrder_total g names deps_of :
  enumerates g names deps_of →
  ∃ order ok, topologicalOrder g names deps_of = Some (order, ok) ∧ (ok = true ↔ acyclic g).
Proof.
  intros Hen. destruct (kahn_total g names deps_of Hen) as (order & Htop & indeg & Hinv).
  exists order, (bool_decide (length order = size g)). split; [done|].
  rewrite bool_decide_eq_true, (order_complete g names deps_of Hen indeg order Hinv).
  by apply (kahn_acyclic g names deps_of Hen indeg).
Qed.

(** C23: the start order.  For every project, however its maps are iterated,
    [topologicalOrder] returns: services of the project, each at most once,
    every one after all the services it depends on; and its verdict is true
    exactly when the graph has no cycle, in which case every service is in the
    order. *)
Theorem topologicalOrder_correct g names deps_of :
  enumerates g names deps_of →
  ∃ order ok, topologicalOrder g names deps_of = Some (order, ok) ∧
    NoDup order ∧ (∀ x, x ∈ order → is_Some (g !! x)) ∧
    (∀ i x y, order !! i = Some x → depends g x y → ∃ j, (j < i)%nat ∧ order !! j = Some y) ∧
    (ok = true ↔ acyclic g) ∧ (ok = true → ∀ x, is_Some (g !! x) → x ∈ order).
Proof.
  intros Hen. destruct (kahn_total g names deps_of Hen) as (order & Htop & indeg & Hinv).
  exists order, (bool_decide (length order = size g)). split; [done|].
  pose proof (order_complete g names deps_of Hen indeg order Hinv) as Hcomp.
  pose proof (kahn_acyclic g names deps_of Hen indeg order Hinv) as Hac.
  destruct Hinv as [Hnd Hin _ _ Hord]. simpl in *. rewrite app_nil_r in *.
  destruct Hen as (Hn1 & Hn2 & Hn3).
  split_and!; [done| | | |].
  - intros x Hx. apply Hn2. by apply Hin.
  - intros i x y Hi Hxy. eapply (ordered_tc g names deps_of (conj Hn1 (conj Hn2 Hn3))); [done| |done].
    by apply tc_once.
  - by rewrite bool_decide_eq_true, Hcomp.
  - intros Hok%bool_decide_eq_true x Hx. apply Hcomp; [done|]. by apply Hn2.
Qed.

(** *** Determinism *)

Lemma run_nat_ext {St R} (f1 f2 : St → outcome St R) n s :
  (∀ s, f1 s = f2 s) → run_nat f1 n s = run_nat f2 n s.
Proof. intros Hf. revert s. induction n as [|n IH]; intros s; simpl; [done|]. rewrite Hf. by destruct (f2 s). Qed.

(** The entries of the in-degree table are exactly the services. *)
Lemma build_indegree_lookup g names deps_of x :
  enumerates g names deps_of →
  indegree (build_tables g names deps_of) !! x =
  if decide (x ∈ names) then Some (Z.of_nat (length (edges g deps_of x))) else None.
Proof.
  intros Hen. destruct (build_spec g names deps_of Hen) as [Hdeg _].
  assert (Hdom : ∀ y, is_Some (indegree (build_tables g names deps_of) !! y) ↔ y ∈ names).
  { unfold build_tables. intros y.
    assert (Hgen : ∀ ns t, (∀ n, n ∈ ns → n ∈ names) → (∀ y, is_Some (indegree t !! y) ↔ y ∈ names) →
              ∀ y, is_Some (indegree (foldl (add_service g deps_of) t ns) !! y) ↔ y ∈ names).
    { induction ns as [|n ns IH]; intros t Hns Ht; [exact Ht|]. simpl. apply IH; [set_solver|].
      unfold add_service. assert (Hn : n ∈ names) by set_solver. revert Ht. generalize t.
      induction (known g (deps_of n)) as [|d ds IHd]; intros t' Ht'; [exact Ht'|]. simpl. apply IHd.
      intros z. unfold add_edge. simpl. rewrite lookup_insert_is_Some. split.
      - intros [->|[_ H]]; [done|by apply Ht'].
      - intros Hz. destruct (decide (n = z)); [by left|right]. split; [done|by apply Ht']. }
    apply Hgen; [done|]. intros z. simpl. split.
    - intros [v Hv]. apply elem_of_list_to_map_2, list_elem_of_fmap in Hv as (n & [= -> _] & Hn). done.
    - intros Hz. destruct (list_to_map ((λ n, (n, 0)) <$> names) !! z) as [v|] eqn:E; [by exists v|exfalso].
      apply not_elem_of_list_to_map in E. apply E. rewrite <- list_fmap_compose. apply list_elem_of_fmap.
      by exists z. }
  destruct (decide (x ∈ names)) as [Hx|Hx].
  - destruct (proj2 (Hdom x) Hx) as [v Hv]. specialize (Hdeg x Hx). unfold get_indegree in Hdeg.
    rewrite Hv in Hdeg |- *. simpl in Hdeg. by rewrite Hdeg.
  - destruct (indegree _ !! x) eqn:E; [|done]. exfalso. apply Hx, Hdom. by eexists.
Qed.

(** The start order is a function of the file: two iterations of the same
    project in different orders give the same list of services. *)
Theorem topologicalOrder_deterministic g names1 deps1 names2 deps2 :
  enumerates g names1 deps1 → enumerates g names2 deps2 →
  topologicalOrder g names1 deps1 = topologicalOrder g names2 deps2.
Proof.
  intros H1 H2. destruct (H1) as (Hnd1 & Hn1 & Hd1). destruct (H2) as (Hnd2 & Hn2 & Hd2).
  assert (Hnames : names1 ≡ₚ names2).
  { apply NoDup_Permutation; [done..|]. intros x. by rewrite Hn1, Hn2. }
  assert (Hedges : ∀ x, x ∈ names1 → edges g deps1 x ≡ₚ edges g deps2 x).
  { intros x Hx. apply NoDup_Permutation.
    - by apply (edges_NoDup g names1).
    - apply (edges_NoDup g names2); [done|]. by rewrite <- Hnames.
    - intros d. rewrite (edges_depends g names1 deps1 H1 x d Hx).
      rewrite (edges_depends g names2 deps2 H2 x d); [done|]. by rewrite <- Hnames. }
  assert (Hdeg : indegree (build_tables g names1 deps1) = indegree (build_tables g names2 deps2)).
  { apply map_eq. intros x. rewrite !build_indegree_lookup by done. destruct (decide (x ∈ names1)) as [Hx|Hx].
    - rewrite decide_True by (by rewrite <- Hnames). by rewrite (Hedges x Hx).
    - by rewrite decide_False by (by rewrite <- Hnames). }
  assert (Husers : ∀ y, get_dependents (build_tables g names1 deps1) y ≡ₚ get_dependents (build_tables g names2 deps2) y).
  { intros y. destruct (build_spec g names1 deps1 H1) as [_ ->]. destruct (build_spec g names2 deps2 H2) as [_ ->].
    unfold users. rewrite <- Hnames. erewrite filter_ext_in; [reflexivity|].
    intros x Hx. simpl. by rewrite (Hedges x Hx). }
  assert (Hready : sort_strings (filter (λ n, get_indegree (build_tables g names1 deps1) n = 0) names1) =
                   sort_strings (filter (λ n, get_indegree (build_tables g names2 deps2) n = 0) names2)).
  { apply sort_strings_unique. rewrite <- Hnames. erewrite filter_ext_in; [reflexivity|].
    intros x _. simpl. unfold get_indegree. by rewrite Hdeg. }
  unfold topologicalOrder. cbv zeta. rewrite Hready, Hdeg, (Permutation_length Hnames).
  rewrite (run_nat_ext _ (kahn_step (get_dependents (build_tables g names2 deps2)))); [done|].
  intros [[indeg ready] order]. unfold kahn_step. destruct ready as [|name ready]; [done|].
  by rewrite (sort_strings_unique _ _ (Husers name)).
Qed.

(** ** [findCycle] *)

Lemma sn_no_loop {A} (R : relation A) x : sn R x → ¬ tc R x x.
Proof.
  induction 1 as [x _ IH]. intros Hx. inversion Hx as [? ? H|? y ? H Hy]; subst.
  - by apply (IH x H), tc_once.
  - apply (IH y H). by eapply tc_r.
Qed.

Inductive colour := White | Gray | Black.
#[export] Instance colour_eq_dec : EqDecision colour.
Proof. solve_decision. Defined.

Definition colour_of (col : gmap string colour) (x : string) : colour := default White (col !! x).

(** The state the recursive closure shares: colours and stack; [inl] is a cycle
    found. *)
Definition dfs : Type := list string + gmap string colour * list string.

(** The loop over the sorted dependencies of one service. *)
Fixpoint visit_deps (g : project) (visit : string → gmap string colour → list string → option dfs)
    (deps : list string) (col : gmap string colour) (stack : list string) : option dfs :=
  match deps with
  | [] => Some (inr (col, stack))
  | dep :: rest =>
      if decide (is_Some (g !! dep)) then
        match colour_of col dep with
        | White =>
            match visit dep col stack with
            | Some (inr (col', stack')) => visit_deps g visit rest col' stack'
            | r => r
            end
        | Gray =>
            match list_find (λ on, on = dep) stack with
            | Some (i, _) => Some (inl (drop i stack ++ [dep]))
            | None => visit_deps g visit rest col stack
            end
        | Black => visit_deps g visit rest col stack
        end
      else visit_deps g visit rest col stack
  end.

Fixpoint visit (g : project) (deps_of : string → list string) (fuel : nat) (name : string)
    (col : gmap string colour) (stack : list string) : option dfs :=
  match fuel with
  | O => None
  | S f =>
      match visit_deps g (visit g deps_of f) (sort_strings (deps_of name)) (<[ name := Gray ]> col) (stack ++ [name]) with
      | Some (inr (col', stack')) => Some (inr (<[ name := Black ]> col', take (length stack' - 1) stack'))
      | r => r
      end
  end.

Fixpoint visit_all (g : project) (deps_of : string → list string) (fuel : nat) (names : list string)
    (col : gmap string colour) : option (list string) :=
  match names with
  | [] => Some []
  | name :: rest =>
      match colour_of col name with
      | White =>
          match visit g deps_of fuel name col [] with
          | Some (inr (col', _)) => visit_all g deps_of fuel rest col'
          | Some (inl cycle) => Some cycle
          | None => None
          end
      | _ => visit_all g deps_of fuel rest col
      end
  end.

(** The recursion is as deep as there are services. *)
Definition findCycle (g : project) (names : list string) (deps_of : string → list string) : option (list string) :=
  visit_all g deps_of (length names) (sort_strings names) ∅.

Definition path (g : project) (l : list string) : Prop :=
  ∀ i x y, l !! i = Some x → l !! S i = Some y → depends g x y.

(** A closed walk along dependencies: what the error message prints. *)
Definition is_cycle (g : project) (c : list string) : Prop :=
  path g c ∧ (2 <= length c)%nat ∧ head c = last c.

Section Dfs.
Context (g : project) (names : list string) (deps_of : string → list string).
Context (Henum : enumerates g names deps_of).

Lemma path_snoc l x y : path g l → last l = Some x → depends g x y → path g (l ++ [y]).
Proof.
  intros Hp Hl Hxy i a b Ha Hb. apply lookup_app_Some in Hb as [Hb|[Hlen Hb]].
  - apply lookup_lt_Some in Hb as Hlt. rewrite lookup_app_l in Ha by lia. by eapply Hp.
  - apply list_lookup_singleton_Some in Hb as [Hz ->].
    rewrite lookup_app_l in Ha by lia. rewrite last_lookup in Hl. replace (pred (length l)) with i in Hl by lia.
    by simplify_eq.
Qed.

Lemma path_drop l n : path g l → path g (drop n l).
Proof. intros Hp i x y. rewrite !lookup_drop. rewrite Nat.add_succ_r. apply Hp. Qed.

Lemma path_take l n : path g l → path g (take n l).
Proof.
  intros Hp i x y Hx Hy. apply lookup_take_Some in Hx as [Hx _], Hy as [Hy _]. by eapply Hp.
Qed.

Lemma last_drop (l : list string) n : (n < length l)%nat → last (drop n l) = last l.
Proof. intros Hn. rewrite !last_lookup, lookup_drop, length_drop. f_equal. lia. Qed.

Record dinv (col : gmap string colour) (stack : list string) : Prop := mkDinv {
  d_gray : ∀ x, colour_of col x = Gray ↔ x ∈ stack;
  d_nodup : NoDup stack;
  d_path : path g stack;
  d_black : ∀ x, colour_of col x = Black → sn (depends g) x
}.

(** Colours only darken: a service that was seen keeps its colour. *)
Definition later (col col' : gmap string colour) : Prop :=
  ∀ x, colour_of col x ≠ White → colour_of col' x = colour_of col x.

Definition whites (col : gmap string colour) : nat :=
  length (filter (λ x, colour_of col x = White) names).

Lemma colour_insert col x c y :
  colour_of (<[ x := c ]> col) y = if decide (x = y) then c else colour_of col y.
Proof.
  unfold colour_of. destruct (decide (x = y)) as [->|]; [by rewrite lookup_insert_eq|by rewrite lookup_insert_ne].
Qed.

Lemma whites_later col col' : later col col' → (whites col' <= whites col)%nat.
Proof.
  intros Hl. unfold whites. apply submseteq_length, NoDup_submseteq.
  - apply NoDup_filter, Henum.
  - intros x [Hw Hx]%list_elem_of_filter. apply list_elem_of_filter. split; [|done].
    destruct (decide (colour_of col x = White)) as [|Hn]; [done|]. rewrite (Hl x Hn) in Hw. done.
Qed.

Lemma whites_paint col x :
  x ∈ names → colour_of col x = White → (whites (<[ x := Gray ]> col) < whites col)%nat.
Proof.
  intros Hx Hw. unfold whites.
  assert (Hle : (length (x :: filter (λ y, colour_of (<[ x := Gray ]> col) y = White) names) <=
                 length (filter (λ y, colour_of col y = White) names))%nat); [|simpl in Hle; lia].
  apply submseteq_length, NoDup_submseteq.
  - constructor; [|apply NoDup_filter, Henum]. intros [Hc _]%list_elem_of_filter.
    rewrite colour_insert, decide_True in Hc by done. done.
  - intros y [->|Hy]%elem_of_cons; [by apply list_elem_of_filter|].
    apply list_elem_of_filter in Hy as [Hc Hy]. apply list_elem_of_filter. split; [|done].
    rewrite colour_insert in Hc. destruct (decide (x = y)); [done|exact Hc].
Qed.

Definition visit_post (name : string) (col : gmap string colour) (stack : list string) (r : option dfs) : Prop :=
  match r with
  | None => False
  | Some (inl c) => is_cycle g c
  | Some (inr (col', stack')) =>
      stack' = stack ∧ dinv col' stack ∧ later col col' ∧ colour_of col' name = Black
  end.

(** The loop over the dependencies of [name], which is on top of the stack. *)
Lemma visit_deps_spec (v : string → gmap string colour → list string → option dfs) n name deps col stack :
  (∀ x col1, dinv col1 stack → colour_of col1 x = White → x ∈ names → path g (stack ++ [x]) →
     (whites col1 <= n)%nat → visit_post x col1 stack (v x col1 stack)) →
  dinv col stack → last stack = Some name → (whites col <= n)%nat →
  (∀ d, d ∈ deps → is_Some (g !! d) → depends g name d) →
  match visit_deps g v deps col stack with
  | None => False
  | Some (inl c) => is_cycle g c
  | Some (inr (col', stack')) =>
      stack' = stack ∧ dinv col' stack ∧ later col col' ∧
      ∀ d, d ∈ deps → is_Some (g !! d) → colour_of col' d = Black
  end.
Proof.
  intros Hv. revert col. induction deps as [|dep deps IH]; intros col Hd Hlast Hn Hdeps; cbn [visit_deps].
  { split; [done|]. split; [done|]. split; [by intros x|]. by intros d ?%not_elem_of_nil. }
  destruct (decide (is_Some (g !! dep))) as [Hk|Hk].
  2: { specialize (IH col Hd Hlast Hn ltac:(set_solver)).
       destruct (visit_deps g v deps col stack) as [[c|[col' stack']]|]; [exact IH| |exact IH].
       destruct IH as (H1 & H2 & H3 & H4). split; [exact H1|]. split; [exact H2|]. split; [exact H3|].
       intros d [->|Hin]%elem_of_cons Hs; [done|by apply H4]. }
  assert (Hdep : depends g name dep) by (apply Hdeps; set_solver).
  destruct (colour_of col dep) eqn:Hc.
  - assert (Hdn : dep ∈ names) by (apply Henum; done).
    specialize (Hv dep col Hd Hc Hdn (path_snoc _ _ _ (d_path _ _ Hd) Hlast Hdep) Hn).
    destruct (v dep col stack) as [[c|[col1 stack1]]|]; [exact Hv| |destruct Hv].
    destruct Hv as (-> & Hd1 & Hl1 & Hb). pose proof (whites_later _ _ Hl1).
    specialize (IH col1 Hd1 Hlast ltac:(lia) ltac:(set_solver)).
    destruct (visit_deps g v deps col1 stack) as [[c|[col' stack']]|]; [exact IH| |exact IH].
    destruct IH as (-> & Hd' & Hl' & Hb'). split; [done|]. split; [done|]. split.
    + intros x Hx. rewrite <- (Hl1 x Hx). apply Hl'. by rewrite (Hl1 x Hx).
    + intros d [->|Hin]%elem_of_cons Hs; [|by apply Hb']. rewrite (Hl' dep); [done|by rewrite Hb].
  - apply (d_gray _ _ Hd) in Hc. destruct (list_find _ stack) as [[i on]|] eqn:Hf.
    + apply list_find_Some in Hf as (Hi & -> & _). split; [|split].
      * apply (path_snoc _ name); [apply path_drop, Hd| |done].
        rewrite last_drop; [done|]. by apply lookup_lt_Some in Hi.
      * rewrite length_app, length_drop. apply lookup_lt_Some in Hi. simpl. lia.
      * rewrite last_snoc. rewrite (drop_S _ _ _ Hi). done.
    + exfalso. apply list_find_None in Hf. rewrite Forall_forall in Hf. by apply (Hf dep Hc).
  - specialize (IH col Hd Hlast Hn ltac:(set_solver)).
    destruct (visit_deps g v deps col stack) as [[c|[col' stack']]|]; [exact IH| |exact IH].
    destruct IH as (H1 & H2 & H3 & H4). split; [exact H1|]. split; [exact H2|]. split; [exact H3|].
    intros d [->|Hin]%elem_of_cons Hs; [|by apply H4]. rewrite H3; [done|by rewrite Hc].
Qed.

Lemma visit_spec fuel name col stack :
  dinv col stack → colour_of col name = White → name ∈ names → path g (stack ++ [name]) →
  (whites col <= fuel)%nat → visit_post name col stack (visit g deps_of fuel name col stack).
Proof.
  revert name col stack. induction fuel as [|fuel IH]; intros name col stack Hd Hw Hname Hp Hn.
  { pose proof (whites_paint col name Hname Hw). lia. }
  cbn [visit]. pose proof (whites_paint col name Hname Hw) as Hlt.
  assert (Hnew : name ∉ stack) by (intros Hin; apply (d_gray _ _ Hd) in Hin; congruence).
  assert (Hd1 : dinv (<[ name := Gray ]> col) (stack ++ [name])).
  { destruct Hd as [Hg Hnd _ Hb]. split; [| |exact Hp|].
    - intros x. rewrite colour_insert, elem_of_app, list_elem_of_singleton, <- Hg.
      destruct (decide (name = x)) as [->|]; naive_solver.
    - apply NoDup_app. split; [done|]. split; [|apply NoDup_singleton]. intros x Hx ->%list_elem_of_singleton. done.
    - intros x. rewrite colour_insert. destruct (decide (name = x)); [done|apply Hb]. }
  pose proof (visit_deps_spec (visit g deps_of fuel) fuel name (sort_strings (deps_of name))
                (<[ name := Gray ]> col) (stack ++ [name])) as Hloop.
  assert (Hdeps : ∀ d, d ∈ sort_strings (deps_of name) → is_Some (g !! d) → depends g name d).
  { intros d Hin Hs. rewrite sort_strings_perm in Hin. apply (edges_depends g names deps_of Henum name d Hname).
    by apply known_spec. }
  specialize (Hloop ltac:(intros; by apply IH) Hd1 ltac:(by rewrite last_snoc) ltac:(lia) Hdeps).
  destruct (visit_deps _ _ _ _ _) as [[c|[col' stack']]|]; [exact Hloop| |exact Hloop].
  destruct Hloop as (-> & Hd' & Hl' & Hb'). unfold visit_post.
  assert (Hstk : take (length (stack ++ [name]) - 1) (stack ++ [name]) = stack).
  { rewrite length_app. simpl. replace (length stack + 1 - 1)%nat with (length stack) by lia. by apply take_app_length. }
  rewrite Hstk. split; [done|]. split; [|split].
  - destruct Hd' as [Hg' Hnd' Hp' Hbl']. apply NoDup_app in Hnd' as (Hnd' & _ & _). split; [|done| |].
    + intros x. rewrite colour_insert. destruct (decide (name = x)) as [<-|Hne].
      * split; [done|]. by intros ?%Hnew.
      * rewrite Hg', elem_of_app, list_elem_of_singleton. naive_solver.
    + rewrite <- Hstk. by apply path_take.
    + intros x. rewrite colour_insert. destruct (decide (name = x)) as [<-|Hne]; [intros _|apply Hbl'].
      constructor. intros y Hy. apply Hbl', Hb'.
      * rewrite sort_strings_perm. apply (edges_depends g names deps_of Henum name y Hname) in Hy.
        by apply known_spec in Hy as [? _].
      * by destruct Hy as (ds & _ & _ & Hs).
  - intros x Hx. rewrite colour_insert. destruct (decide (name = x)) as [<-|Hne]; [by rewrite Hw in Hx|].
    rewrite Hl'; rewrite colour_insert, decide_False by done; done.
  - by rewrite colour_insert, decide_True.
Qed.

Lemma visit_all_spec fuel ns col :
  dinv col [] → (whites col <= fuel)%nat → (∀ x, x ∈ ns → x ∈ names) →
  match visit_all g deps_of fuel ns col with
  | None => False
  | Some [] => ∃ col', later col col' ∧ dinv col' [] ∧ ∀ x, x ∈ ns → colour_of col' x = Black
  | Some c => is_cycle g c
  end.
Proof.
  revert col. induction ns as [|n ns IH]; intros col Hd Hn Hns; cbn [visit_all].
  { exists col. split; [by intros x|]. split; [done|]. by intros x ?%not_elem_of_nil. }
  destruct (colour_of col n) eqn:Hc.
  - pose proof (visit_spec fuel n col [] Hd Hc ltac:(set_solver)) as Hv.
    specialize (Hv ltac:(intros i x y Hx Hy; simpl in Hy; by destruct i) Hn).
    destruct (visit g deps_of fuel n col []) as [[c|[col1 stack1]]|]; [|simpl in Hv|destruct Hv].
    { destruct Hv as (Hp & Hl & Hh). destruct c; [simpl in Hl; lia|]. done. }
    destruct Hv as (-> & Hd1 & Hl1 & Hb1). pose proof (whites_later _ _ Hl1).
    specialize (IH col1 Hd1 ltac:(lia) ltac:(set_solver)).
    destruct (visit_all g deps_of fuel ns col1) as [[|x c]|]; [|exact IH|exact IH].
    destruct IH as (col' & Hl' & Hd' & Hb'). exists col'. split; [|split; [done|]].
    + intros x Hx. rewrite <- (Hl1 x Hx). apply Hl'. by rewrite (Hl1 x Hx).
    + intros x [->|Hx]%elem_of_cons; [|by apply Hb']. rewrite Hl'; [done|by rewrite Hb1].
  - apply (d_gray _ _ Hd) in Hc. by apply not_elem_of_nil in Hc.
  - specialize (IH col Hd Hn ltac:(set_solver)).
    destruct (visit_all g deps_of fuel ns col) as [[|x c]|]; [|exact IH|exact IH].
    destruct IH as (col' & Hl' & Hd' & Hb'). exists col'. split; [done|]. split; [done|].
    intros x [->|Hx]%elem_of_cons; [|by apply Hb']. rewrite Hl'; [done|by rewrite Hc].
Qed.

(** A closed walk contradicts acyclicity, and so does its absence of services. *)
Lemma path_tc c i x y :
  path g c → c !! 0%nat = Some x → c !! S i = Some y → tc (depends g) x y.
Proof.
  intros Hp Hx. revert y. induction i as [|i IH]; intros y Hy; [apply tc_once; by eapply Hp|].
  destruct (c !! S i) as [z|] eqn:Hz.
  - eapply tc_r; [by apply IH|]. by eapply Hp.
  - exfalso. apply lookup_ge_None in Hz. apply lookup_lt_Some in Hy. lia.
Qed.
End Dfs.

(** [findCycle] answers on every project; it answers an empty list exactly
    when there is no cycle, and otherwise names one: a closed walk along
    [depends_on] edges.  Since [topologicalOrder] succeeds exactly then, the
    internal error of [buildPlan] ("dependency cycle survived validation")
    cannot occur on a file that passed [validateDependencies]. *)
Theorem findCycle_correct g names deps_of :
  enumerates g names deps_of →
  ∃ c, findCycle g names deps_of = Some c ∧
    (c = [] ↔ acyclic g) ∧ (c ≠ [] → is_cycle g c) ∧
    (c = [] → ∃ order, topologicalOrder g names deps_of = Some (order, true)).
Proof.
  intros Hen. unfold findCycle.
  assert (Hinit : dinv g (∅ : gmap string colour) []).
  { split; [| |by intros i|done].
    - intros x. unfold colour_of. rewrite lookup_empty. split; [done|by intros ?%not_elem_of_nil].
    - constructor. }
  pose proof (visit_all_spec g names deps_of Hen (length names) (sort_strings names) ∅ Hinit) as H.
  specialize (H ltac:(unfold whites; apply length_filter) ltac:(intros x; by rewrite sort_strings_perm)).
  destruct (visit_all _ _ _ _ _) as [c|]; [|done]. exists c. split; [done|].
  assert (Hiff : c = [] ↔ acyclic g).
  { destruct c as [|x c].
    - split; [intros _|done]. destruct H as (col & _ & Hd & Hb). intros x Hx.
      assert (Hsn : sn (depends g) x).
      { apply Hd, Hb. rewrite sort_strings_perm. by apply (tc_names g names deps_of Hen) in Hx as [? _]. }
      exact (sn_no_loop _ _ Hsn Hx).
    - split; [done|]. intros Hac. exfalso. destruct H as (Hp & Hl & Hh). simpl in Hh.
      apply (Hac x). apply (path_tc g (x :: c) (length c - 1) x x Hp); [done|].
      change (S (length c - 1)) with (1 + (length c - 1))%nat. simpl in Hl.
      replace (1 + (length c - 1))%nat with (pred (length (x :: c))) by (simpl; lia).
      by rewrite <- last_lookup. }
  split; [done|]. split; [by destruct c|]. intros Hc. apply Hiff in Hc.
  destruct (topologicalOrder_total g names deps_of Hen) as (order & ok & Ht & Hok).
  exists order. rewrite Ht. f_equal. f_equal. by apply Hok.
Qed.

(** ** Enumerations exist, and a small stack *)

Lemma enumerates_elements (g : project) :
  enumerates g (elements (dom (g : gmap string (gset string)))) (λ x, elements (default ∅ (g !! x))).
Proof.
  split; [apply NoDup_elements|]. split.
  - intros x. by rewrite elem_of_elements, elem_of_dom.
  - intros x ds Hx. rewrite Hx. simpl. split; [apply NoDup_elements|]. intros d. by rewrite elem_of_elements.
Qed.

Lemma enumerates_reverse g names deps_of :
  enumerates g names deps_of → enumerates g (reverse names) (λ x, reverse (deps_of x)).
Proof.
  intros (Hnd & Hn & Hd). split; [by rewrite reverse_Permutation|]. split.
  - intros x. by rewrite elem_of_reverse.
  - intros x ds Hx. destruct (Hd x ds Hx). split; [by rewrite reverse_Permutation|]. intros d. by rewrite elem_of_reverse.
Qed.

Definition demo : project :=
  {[ "web" := {[ "api"; "db" ]}; "api" := {[ "db"; "elsewhere" ]}; "db" := ∅ ]}.
Definition demo_loop : project := {[ "a" := {[ "b" ]}; "b" := {[ "a" ]}; "c" := {[ "a" ]} ]}.
Definition some_names (g : project) : list string := elements (dom (g : gmap string (gset string))).
Definition some_deps (g : project) (x : string) : list string := elements (default ∅ (g !! x)).

Lemma topologicalOrder_correct_witness :
  topologicalOrder demo (some_names demo) (some_deps demo) = Some (["db"; "api"; "web"], true) ∧ acyclic demo.
Proof.
  destruct (topologicalOrder_correct demo (some_names demo) (some_deps demo) (enumerates_elements demo))
    as (order & ok & Ht & _ & _ & _ & Hok & _).
  assert (E : topologicalOrder demo (some_names demo) (some_deps demo) = Some (["db"; "api"; "web"], true))
    by (vm_compute; reflexivity).
  split; [exact E|]. apply Hok. rewrite E in Ht. by injection Ht as _ <-.
Defined.

Lemma topologicalOrder_deterministic_witness :
  topologicalOrder demo (some_names demo) (some_deps demo) =
  topologicalOrder demo (reverse (some_names demo)) (λ x, reverse (some_deps demo x)).
Proof.
  apply topologicalOrder_deterministic; [apply enumerates_elements|].
  apply enumerates_reverse, enumerates_elements.
Defined.

Lemma findCycle_correct_witness :
  findCycle demo_loop (some_names demo_loop) (some_deps demo_loop) = Some ["a"; "b"; "a"] ∧
  is_cycle demo_loop ["a"; "b"; "a"].
Proof.
  destruct (findCycle_correct demo_loop (some_names demo_loop) (some_deps demo_loop) (enumerates_elements demo_loop))
    as (c & Hf & _ & Hc & _).
  assert (E : findCycle demo_loop (some_names demo_loop) (some_deps demo_loop) = Some ["a"; "b"; "a"])
    by (vm_compute; reflexivity).
  split; [exact E|]. rewrite E in Hf. injection Hf as <-. by apply Hc.
Defined.
