(* ===== verification/ComposePolicy.v ===== *)
(** * The key policy of compose files

    Models [internal/compose/policy.go] on a loaded project: the refused keys,
    the privilege gate, reserved labels and the confinement of mounts, with
    [path.Clean].  A check returns the codes of its findings, in order; all of
    them are errors.  [validateLimits] compares floating-point CPU shares and is
    left out. *)
From S2P Require Import Prelude GoLib.
Local Open Scope Z_scope.

(** [path.Clean], on the components of the path: empty and "." components are
    dropped, ".." removes the component before it, or stays at the head of a
    relative path, or is dropped at the root. *)
Definition clean_step (rooted : bool) (out : list string) (c : string) : list string :=
  if decide (c = "") then out
  else if decide (c = ".") then out
  else if decide (c = "..") then
    match out with
    | [] => if rooted then [] else [".."]
    | top :: rest => if decide (top = "..") then ".." :: out else rest
    end
  else c :: out.
Definition clean_components (rooted : bool) (cs : list string) : list string :=
  reverse (foldl (clean_step rooted) [] cs).
Definition Clean (s : string) : string :=
  let rooted := has_prefix s "/" in
  let out := clean_components rooted (split slash s) in
  if rooted then String slash (join out)
  else match out with [] => "." | _ => join out end.

(** [compose.escapesBase] *)
Definition escapesBase (rel : string) : bool :=
  let cleaned := Clean rel in
  bool_decide (cleaned = "..") || has_prefix cleaned "../".

(** [compose.underAllowedRoot] *)
Definition underAllowedRoot (abs : string) (roots : list string) : bool :=
  let cleaned := Clean abs in
  existsb (λ root, bool_decide (cleaned = Clean root) || has_prefix cleaned (Clean root +:+ "/")) roots.

Example Clean_ex :
  (Clean "./ok/../up/../..", Clean "/a//b/./../c/", Clean "", Clean "/..", Clean "a/b") =
  ("..", "/a/c", ".", "/", "a/b").
Proof. reflexivity. Qed.

(** ** Services *)

(** [compose.Policy] *)
Record Policy := mkPolicy {
  AllowPrivileged : bool; AllowDevices : bool; AllowSecurityOpt : bool; AllowExternalObjects : bool;
  ExtraCapAdd : list string; AllowedBindRoots : list string
}.

(** The part of [types.DeployConfig] and [types.ServiceConfig] the checks read:
    only the presence of some keys, the keys of some maps. *)
Record Deploy := mkDeploy {
  dp_replicas : option Z; dp_mode : string; dp_update_config : bool; dp_rollback_config : bool;
  dp_constraints : list string; dp_preferences : list string; dp_endpoint_mode : string;
  dp_labels : list string
}.

(** The type of a volume is an open string, of which the checks know one. *)
Definition VolumeBind : string := "bind".

(** The fields the checks of [policy.go] look at; they do not look at
    the Dockerfile and the additional contexts of a build, nor at the files of
    secrets and configs. *)
Record Service := mkService {
  sv_deploy : option Deploy; sv_scale : option Z; sv_external_links : list string;
  sv_network_mode : string; sv_pid : string; sv_ipc : string; sv_userns : string; sv_cgroup : string;
  sv_cgroup_parent : string; sv_credential_spec : bool; sv_isolation : string;
  sv_privileged : bool; sv_cap_add : list string; sv_devices : list string;
  sv_security_opt : list string; sv_sysctls : list string; sv_labels : list string;
  sv_volumes : list (string * string); sv_env_files : list string;
  sv_build_context : option string; sv_extends_file : option string
}.

(** The stable codes of [findings.go] these checks use. *)
Inductive Code :=
| CodeSwarmKeyRejected | CodeNetworkModeHostRejected | CodeNetworkModeRejected
| CodeHostNamespaceRejected | CodePlatformUnsupported | CodePrivilegedDenied
| CodeReservedLabel | CodeBindMountDenied | CodePathTraversal.

Definition when (b : bool) (c : Code) : list Code := if b then [c] else [].
Definition nonempty (s : string) : bool := negb (bool_decide (s = "")).
Definition has_items {A} (l : list A) : bool := match l with [] => false | _ => true end.

(** [compose.validateRejected] *)
Definition deploy_rejected (d : Deploy) : bool :=
  (match dp_replicas d with Some _ => true | None => false end) || nonempty (dp_mode d) ||
  (dp_update_config d || dp_rollback_config d) ||
  (has_items (dp_constraints d) || has_items (dp_preferences d)) ||
  nonempty (dp_endpoint_mode d) || has_items (dp_labels d).
Definition validateRejected (s : Service) : list Code :=
  match sv_deploy s with Some d => when (deploy_rejected d) CodeSwarmKeyRejected | None => [] end ++
  match sv_scale s with Some n => when (negb (n =? 1)) CodeSwarmKeyRejected | None => [] end ++
  when (has_items (sv_external_links s)) CodeSwarmKeyRejected ++
  (if bool_decide (sv_network_mode s = "host") then [CodeNetworkModeHostRejected]
   else when (has_prefix (sv_network_mode s) "service:" || has_prefix (sv_network_mode s) "container:")
          CodeNetworkModeRejected) ++
  when (bool_decide (sv_pid s = "host") || bool_decide (sv_ipc s = "host") ||
        bool_decide (sv_userns s = "host") || bool_decide (sv_cgroup s = "host") ||
        nonempty (sv_cgroup_parent s)) CodeHostNamespaceRejected ++
  when (sv_credential_spec s || nonempty (sv_isolation s)) CodePlatformUnsupported.

(** [compose.defaultCapAllowlist], [compose.validatePolicy] *)
Definition defaultCapAllowlist : list string := ["NET_BIND_SERVICE"; "CHOWN"; "SETUID"; "SETGID"].
Definition validatePolicy (p : Policy) (s : Service) : list Code :=
  when (sv_privileged s && negb (AllowPrivileged p)) CodePrivilegedDenied ++
  mjoin ((λ cap, when (negb (bool_decide (cap ∈ defaultCapAllowlist) || bool_decide (cap ∈ ExtraCapAdd p)))
                   CodePrivilegedDenied) <$> sv_cap_add s) ++
  when (has_items (sv_devices s) && negb (AllowDevices p)) CodePrivilegedDenied ++
  mjoin ((λ opt, if bool_decide (opt = "no-new-privileges:true") || bool_decide (opt = "no-new-privileges")
                 then [] else when (negb (AllowSecurityOpt p)) CodePrivilegedDenied) <$> sv_security_opt s) ++
  mjoin ((λ key, when (negb (has_prefix key "net.")) CodePrivilegedDenied) <$> sv_sysctls s).

(** [compose.validateLabels] *)
Definition validateLabels (s : Service) : list Code :=
  mjoin ((λ key, when (has_prefix (to_lower key) "akerdock.") CodeReservedLabel) <$> sv_labels s).

(** [compose.validateMounts] *)
Definition check_volume (p : Policy) (v : string * string) : list Code :=
  let '(type, source) := v in
  if negb (bool_decide (type = VolumeBind)) then []
  else if negb (nonempty source) then []
  else if has_prefix source "/" then
    when (negb (underAllowedRoot source (AllowedBindRoots p))) CodeBindMountDenied
  else when (escapesBase source) CodePathTraversal.
Definition check_inside (path : string) : list Code :=
  when (has_prefix path "/" || escapesBase path) CodePathTraversal.
Definition validateMounts (p : Policy) (s : Service) : list Code :=
  mjoin (check_volume p <$> sv_volumes s) ++
  mjoin (check_inside <$> sv_env_files s) ++
  match sv_build_context s with Some c => check_inside c | None => [] end ++
  match sv_extends_file s with
  | Some f => if nonempty f then check_inside f else []
  | None => []
  end.

(** The checks of one service, as [compose.validate] runs them. *)
Definition validate_service (p : Policy) (s : Service) : list Code :=
  validateRejected s ++ validatePolicy p s ++ validateLabels s ++ validateMounts p s.

(** ** Cleaned paths *)

Lemma clean_step_no_char rooted out c :
  Forall (no_char slash) out → no_char slash c → Forall (no_char slash) (clean_step rooted out c).
Proof.
  intros Ho Hc. unfold clean_step. repeat case_decide; try done; [|by constructor].
  destruct out as [|top rest]; [destruct rooted; repeat constructor; done|].
  apply Forall_cons in Ho as [Ht Hr]. case_decide; [|done]. repeat constructor; done.
Qed.

Lemma clean_no_char rooted cs :
  Forall (no_char slash) cs → Forall (no_char slash) (clean_components rooted cs).
Proof.
  intros Hcs. unfold clean_components. rewrite Forall_reverse.
  assert (Hgen : ∀ out, Forall (no_char slash) out → Forall (no_char slash) (foldl (clean_step rooted) out cs)).
  { induction Hcs as [|c cs Hc _ IH]; intros out Ho; simpl; [done|]. by apply IH, clean_step_no_char. }
  by apply Hgen.
Qed.

(** Whether a walk down the components stays at or below where it started. *)
Fixpoint stays (depth : nat) (cs : list string) : bool :=
  match cs with
  | [] => true
  | c :: rest =>
      if decide (c = "") then stays depth rest
      else if decide (c = ".") then stays depth rest
      else if decide (c = "..") then match depth with O => false | S d => stays d rest end
      else stays (S depth) rest
  end.

Definition no_up (out : list string) : Prop := Forall (λ c, c ≠ "..") out.

(** Once the walk has left, the cleaned path keeps a leading "..". *)
Lemma clean_left cs out : last out = Some ".." → last (foldl (clean_step false) out cs) = Some "..".
Proof.
  revert out. induction cs as [|c cs IH]; intros out Hl; [done|]. simpl. apply IH.
  unfold clean_step. repeat case_decide; try done.
  - destruct out as [|top rest]; [done|]. case_decide as Ht; [by rewrite last_cons, Hl|].
    destruct rest as [|r rest]; [by simplify_eq/=|]. by rewrite last_cons_cons in Hl.
  - destruct out as [|top rest]; [done|]. by rewrite last_cons_cons.
Qed.

Lemma clean_walk cs out :
  no_up out →
  if stays (length out) cs then no_up (foldl (clean_step false) out cs)
  else last (foldl (clean_step false) out cs) = Some "..".
Proof.
  revert out. induction cs as [|c cs IH]; intros out Ho; [done|]. cbn [stays foldl].
  unfold clean_step at 2 4. destruct (decide (c = "")); [by apply IH|].
  destruct (decide (c = ".")); [by apply IH|]. destruct (decide (c = "..")) as [->|Hc].
  - destruct out as [|top rest]; simpl; [by apply clean_left|].
    apply Forall_cons in Ho as [Ht Hr]. rewrite decide_False by done. by apply IH.
  - apply (IH (c :: out)). by constructor.
Qed.

Lemma escapesBase_stays rel :
  has_prefix rel "/" = false → escapesBase rel = negb (stays 0 (split slash rel)).
Proof.
  intros Hrel. unfold escapesBase, Clean. rewrite Hrel.
  pose proof (clean_walk (split slash rel) [] (List.Forall_nil _)) as Hw. simpl length in Hw.
  pose proof (clean_no_char false (split slash rel) (split_no_char slash rel)) as Hn.
  unfold clean_components in *. set (out := foldl (clean_step false) [] (split slash rel)) in *.
  destruct (reverse out) as [|h l] eqn:Er.
  - apply (f_equal reverse) in Er. rewrite reverse_involutive in Er. simpl in Er. rewrite Er in Hw.
    by destruct (stays 0 _).
  - apply Forall_cons in Hn as [Hh Hl].
    assert (Hlast : last out = Some h).
    { rewrite <- (reverse_involutive out), Er. by rewrite reverse_cons, last_snoc. }
    assert (Hiff : bool_decide (join (h :: l) = "..") || has_prefix (join (h :: l)) "../" = true ↔ h = "..").
    { rewrite orb_true_iff, bool_decide_eq_true, has_prefix_spec.
      rewrite (below_spec [".."] (h :: l)); [|done|done|repeat constructor; done|by constructor].
      split; [intros [m Hm]; by injection Hm|]. intros ->. by exists l. }
    destruct (stays 0 _).
    + destruct (_ || _); [|done]. exfalso. unfold no_up in Hw; rewrite Forall_forall in Hw.
      apply (Hw h); [apply last_Some_elem_of; done|]. by apply Hiff.
    + apply Hiff. congruence.
Qed.

(** [escapesBase] refuses a relative path exactly when following it one
    component at a time leaves the base directory at some point — even if later
    components would come back. *)
Theorem escapesBase_exact rel :
  has_prefix rel "/" = false → escapesBase rel = negb (stays 0 (split slash rel)).
Proof. apply escapesBase_stays. Qed.

Lemma escapesBase_exact_witness :
  escapesBase "data/../../etc/./passwd" = true ∧ escapesBase "./data/../config" = false.
Proof.
  split.
  - rewrite (escapesBase_exact "data/../../etc/./passwd"); reflexivity.
  - rewrite (escapesBase_exact "./data/../config"); reflexivity.
Defined.

(** ** Allowed roots *)

Lemma clean_nonempty rooted cs : Forall (λ c, c ≠ "") (clean_components rooted cs).
Proof.
  unfold clean_components. rewrite Forall_reverse.
  assert (Hgen : ∀ out, Forall (λ c, c ≠ "") out → Forall (λ c, c ≠ "") (foldl (clean_step rooted) out cs)).
  { induction cs as [|c cs IH]; intros out Ho; simpl; [done|]. apply IH. unfold clean_step.
    repeat case_decide; try done; [|by constructor].
    destruct out as [|top rest]; [destruct rooted; repeat constructor; done|].
    apply Forall_cons in Ho as [Ht Hr]. case_decide; [|done]. repeat constructor; done. }
  by apply Hgen.
Qed.

Lemma join_head h l : h ≠ "" → ∃ a t, join (h :: l) = String a t ∧ (no_char slash h → a ≠ slash).
Proof.
  intros Hh. destruct h as [|a h]; [done|]. exists a. destruct l as [|w l].
  - exists h. split; [done|]. by intros [? _].
  - exists (h +:+ String slash (join (w :: l))). split; [done|]. by intros [? _].
Qed.

(** The components a cleaned absolute path goes through. *)
Definition steps (abs : string) : list string := clean_components true (split slash abs).

Lemma Clean_rooted s : has_prefix s "/" = true → Clean s = String slash (join (steps s)).
Proof. unfold Clean, steps. by intros ->. Qed.

Lemma Clean_relative s : has_prefix s "/" = false → ∃ a t, Clean s = String a t ∧ a ≠ slash.
Proof.
  intros Hs. unfold Clean. rewrite Hs.
  pose proof (clean_no_char false (split slash s) (split_no_char slash s)) as Hn.
  pose proof (clean_nonempty false (split slash s)) as He.
  destruct (clean_components false (split slash s)) as [|h l]; [by exists "."%char, ""|].
  apply Forall_cons in Hn as [Hh _], He as [Hh' _].
  destruct (join_head h l Hh') as (a & t & -> & Ha). exists a, t. auto.
Qed.

Lemma underAllowedRoot_sound abs roots :
  has_prefix abs "/" = true → underAllowedRoot abs roots = true →
  ∃ root, root ∈ roots ∧ has_prefix root "/" = true ∧ steps root `prefix_of` steps abs.
Proof.
  intros Habs Hu. unfold underAllowedRoot in Hu. apply existsb_exists in Hu as (root & Hin & Ht).
  exists root. split; [by apply list_elem_of_In|]. rewrite (Clean_rooted abs Habs) in Ht.
  assert (Hcase : String slash (join (steps abs)) = Clean root ∨
                  ∃ t, String slash (join (steps abs)) = Clean root +:+ String slash t).
  { apply orb_prop in Ht as [Ht|Ht]; [left; by apply bool_decide_eq_true in Ht|right].
    apply has_prefix_spec in Ht as [t Ht]. exists t. rewrite Ht, append_assoc. done. }
  clear Ht. destruct (has_prefix root "/") eqn:Hroot.
  2: { exfalso. destruct (Clean_relative root Hroot) as (a & t & E & Ha). rewrite E in Hcase.
       destruct Hcase as [Hc|[t' Hc]]; [|rewrite append_cons in Hc]; injection Hc as Hc _; congruence. }
  split; [done|]. rewrite (Clean_rooted root Hroot) in Hcase.
  assert (Hj : join (steps abs) = join (steps root) ∨ ∃ t, join (steps abs) = join (steps root) +:+ String slash t).
  { destruct Hcase as [[=]|[t Hc]]; [by left|right]. rewrite append_cons in Hc. injection Hc as Hc. eauto. }
  pose proof (clean_no_char true (split slash root) (split_no_char slash root)) as Fr.
  pose proof (clean_no_char true (split slash abs) (split_no_char slash abs)) as Fa.
  pose proof (clean_nonempty true (split slash root)) as Er. unfold steps in *.
  destruct (clean_components true (split slash root)) as [|h l]; [apply prefix_nil|].
  apply below_spec; [done| |done|done|exact Hj].
  intros E. rewrite E in Hj. apply Forall_cons in Er as [Hh _].
  destruct (join_head h l Hh) as (a & t & Ej & _). rewrite Ej in Hj. destruct Hj as [Hj|[t' Hj]]; discriminate Hj.
Qed.

(** ** What a service that passed may do *)

Lemma when_nil b c : when b c = [] ↔ b = false.
Proof. by destruct b. Qed.

Lemma each_nil {A} (f : A → list Code) l : mjoin (f <$> l) = [] ↔ ∀ x, x ∈ l → f x = [].
Proof.
  induction l as [|x l IH]; [by split; [intros _ x ?%not_elem_of_nil|]|].
  cbn. change (foldr app [] (f <$> l)) with (mjoin (f <$> l)). split.
  - intros H. apply app_nil in H as [H1 H2]. intros y [->|Hy]%elem_of_cons; [done|]. by apply IH.
  - intros H. rewrite (H x) by set_solver. simpl. apply IH. set_solver.
Qed.

Lemma has_items_false {A} (l : list A) : has_items l = false ↔ l = [].
Proof. by destruct l. Qed.

Lemma nonempty_false s : nonempty s = false ↔ s = "".
Proof. unfold nonempty. by rewrite negb_false_iff, bool_decide_eq_true. Qed.

Lemma check_inside_nil path :
  check_inside path = [] → has_prefix path "/" = false ∧ stays 0 (split slash path) = true.
Proof.
  unfold check_inside. rewrite when_nil. intros [H1 H2]%orb_false_elim. split; [done|].
  rewrite escapesBase_stays in H2 by done. by apply negb_false_iff in H2.
Qed.

(** What the stack may touch on the host, and with which privileges. *)
Record confined (p : Policy) (s : Service) : Prop := mkConfined {
  cf_privileged : sv_privileged s = true → AllowPrivileged p = true;
  cf_caps : ∀ c, c ∈ sv_cap_add s → c ∈ defaultCapAllowlist ∨ c ∈ ExtraCapAdd p;
  cf_devices : sv_devices s ≠ [] → AllowDevices p = true;
  cf_security : ∀ o, o ∈ sv_security_opt s →
    o = "no-new-privileges" ∨ o = "no-new-privileges:true" ∨ AllowSecurityOpt p = true;
  cf_sysctls : ∀ k, k ∈ sv_sysctls s → ∃ t, k = "net." +:+ t;
  cf_namespaces : sv_network_mode s ≠ "host" ∧ sv_pid s ≠ "host" ∧ sv_ipc s ≠ "host" ∧
    sv_userns s ≠ "host" ∧ sv_cgroup s ≠ "host" ∧ sv_cgroup_parent s = "";
  cf_single : ∀ n, sv_scale s = Some n → n = 1;
  cf_labels : ∀ k, k ∈ sv_labels s → has_prefix (to_lower k) "akerdock." = false;
  cf_binds : ∀ src, (VolumeBind, src) ∈ sv_volumes s → src ≠ "" →
    if has_prefix src "/"
    then ∃ root, root ∈ AllowedBindRoots p ∧ has_prefix root "/" = true ∧ steps root `prefix_of` steps src
    else stays 0 (split slash src) = true;
  cf_files : ∀ f, f ∈ sv_env_files s ∨ sv_build_context s = Some f ∨ (sv_extends_file s = Some f ∧ f ≠ "") →
    has_prefix f "/" = false ∧ stays 0 (split slash f) = true
}.

Lemma rejected_nil s :
  validateRejected s = [] →
  (sv_network_mode s ≠ "host" ∧ sv_pid s ≠ "host" ∧ sv_ipc s ≠ "host" ∧
   sv_userns s ≠ "host" ∧ sv_cgroup s ≠ "host" ∧ sv_cgroup_parent s = "") ∧
  (∀ n, sv_scale s = Some n → n = 1).
Proof.
  unfold validateRejected. intros (_ & (Hsc & (_ & (Hnet & (Hns & _)%app_nil)%app_nil)%app_nil)%app_nil)%app_nil.
  apply when_nil in Hns. reflect_bools. case_bool_decide; [done|]. split.
  - apply nonempty_false in H0. auto 10.
  - intros n Hn. rewrite Hn in Hsc. apply when_nil in Hsc. reflect_bools. done.
Qed.

Lemma policy_nil p s :
  validatePolicy p s = [] →
  (sv_privileged s = true → AllowPrivileged p = true) ∧
  (∀ c, c ∈ sv_cap_add s → c ∈ defaultCapAllowlist ∨ c ∈ ExtraCapAdd p) ∧
  (sv_devices s ≠ [] → AllowDevices p = true) ∧
  (∀ o, o ∈ sv_security_opt s →
     o = "no-new-privileges" ∨ o = "no-new-privileges:true" ∨ AllowSecurityOpt p = true) ∧
  (∀ k, k ∈ sv_sysctls s → ∃ t, k = "net." +:+ t).
Proof.
  unfold validatePolicy.
  intros (Hp & (Hc & (Hd & (Ho & Hk)%app_nil)%app_nil)%app_nil)%app_nil. split_and!.
  - apply when_nil in Hp. intros E. rewrite E in Hp. simpl in Hp. by apply negb_false_iff in Hp.
  - intros c Hin. rewrite each_nil in Hc. specialize (Hc c Hin). apply when_nil, negb_false_iff, orb_prop in Hc.
    rewrite !bool_decide_eq_true in Hc. done.
  - apply when_nil in Hd. intros Hne. destruct (sv_devices s); [done|]. simpl in Hd. by apply negb_false_iff in Hd.
  - intros o Hin. rewrite each_nil in Ho. specialize (Ho o Hin). simpl in Ho.
    repeat case_bool_decide; auto. simpl in Ho. apply when_nil, negb_false_iff in Ho. auto.
  - intros k Hin. rewrite each_nil in Hk. specialize (Hk k Hin). apply when_nil, negb_false_iff in Hk.
    by apply has_prefix_spec.
Qed.

Lemma mounts_nil p s :
  validateMounts p s = [] →
  (∀ src, (VolumeBind, src) ∈ sv_volumes s → src ≠ "" →
    if has_prefix src "/"
    then ∃ root, root ∈ AllowedBindRoots p ∧ has_prefix root "/" = true ∧ steps root `prefix_of` steps src
    else stays 0 (split slash src) = true) ∧
  (∀ f, f ∈ sv_env_files s ∨ sv_build_context s = Some f ∨ (sv_extends_file s = Some f ∧ f ≠ "") →
    has_prefix f "/" = false ∧ stays 0 (split slash f) = true).
Proof.
  unfold validateMounts. intros (Hv & (He & (Hb & Hx)%app_nil)%app_nil)%app_nil. split.
  - intros src Hin Hne. rewrite each_nil in Hv. specialize (Hv _ Hin). unfold check_volume in Hv.
    rewrite bool_decide_eq_true_2 in Hv by done. cbn [negb] in Hv.
    destruct (nonempty src) eqn:E; [|by apply nonempty_false in E]. cbn [negb] in Hv.
    destruct (has_prefix src "/") eqn:Hs; apply when_nil in Hv.
    + apply negb_false_iff in Hv. by apply underAllowedRoot_sound.
    + rewrite escapesBase_stays in Hv by done. by apply negb_false_iff in Hv.
  - intros f [Hf|[Hf|[Hf Hne]]].
    + rewrite each_nil in He. by apply check_inside_nil, He.
    + rewrite Hf in Hb. by apply check_inside_nil.
    + rewrite Hf in Hx. destruct (nonempty f) eqn:E; [by apply check_inside_nil|].
      by apply nonempty_false in E.
Qed.

(** C38: a service without findings is confined to what the server policy
    allows: no privilege, capability, device, security option or host namespace
    beyond it; one instance; no label in the reserved namespace; absolute binds
    only below an allowed root; every relative path — bind, env file, build
    context, extended file — inside the source at each of its steps. *)
Theorem validated_service_confined p s : validate_service p s = [] → confined p s.
Proof.
  unfold validate_service. intros (Hr & (Hp & (Hl & Hm)%app_nil)%app_nil)%app_nil.
  destruct (rejected_nil s Hr). destruct (policy_nil p s Hp) as (? & ? & ? & ? & ?).
  destruct (mounts_nil p s Hm). split; try done.
  intros k Hk. unfold validateLabels in Hl. rewrite each_nil in Hl. by apply (when_nil _ CodeReservedLabel), Hl.
Qed.

Definition demo_service : Service :=
  mkService None (Some 1) [] "" "" "" "" "" "" false "" false ["CHOWN"] [] ["no-new-privileges:true"]
    ["net.core.somaxconn"] ["com.example.tier"]
    [(VolumeBind, "/srv/data/x/../app"); (VolumeBind, "./conf/../certs"); ("volume", "db")]
    [".env"] (Some ".") None.
Definition demo_policy : Policy := mkPolicy false false false false [] ["/srv/data/"].

Lemma validated_service_confined_witness :
  validate_service demo_policy demo_service = [] ∧ confined demo_policy demo_service.
Proof.
  assert (E : validate_service demo_policy demo_service = []) by (vm_compute; reflexivity).
  split; [exact E|]. exact (validated_service_confined _ _ E).
Defined.

(** Allowing the whole file system allows nothing but its root: "/" cleans to
    itself, and no cleaned path starts with two slashes. *)
Lemma root_slash_allows_nothing_below :
  underAllowedRoot "/srv/data" ["/"] = false ∧ underAllowedRoot "/" ["/"] = true.
Proof. split; vm_compute; reflexivity. Qed.
