(* ===== verification/ComposeMagic.v ===== *)
(** * Magic variables of compose files

    Models [internal/compose/magic.go]: the names [SERVICE_<TYPE>_<ID>] of the
    variables the platform generates for a stack, found in the text of the compose
    file, parsed against the services of the stack, and given a random value.
    Messages of findings are left out, their codes kept. *)
From S2P Require Import Prelude GoLib Crypto.
Local Open Scope Z_scope.

(** [MagicType] *)
Inductive MagicType :=
| MagicFQDN | MagicURL | MagicUser | MagicPassword | MagicPasswordWithSymbols | MagicBase64 | MagicRealBase64
| MagicHex.
#[export] Instance MagicType_eq_dec : EqDecision MagicType.
Proof. solve_decision. Defined.

Definition type_text (t : MagicType) : string :=
  match t with
  | MagicFQDN => "FQDN" | MagicURL => "URL" | MagicUser => "USER" | MagicPassword => "PASSWORD"
  | MagicPasswordWithSymbols => "PASSWORDWITHSYMBOLS" | MagicBase64 => "BASE64"
  | MagicRealBase64 => "REALBASE64" | MagicHex => "HEX"
  end.

(** [MagicRef] *)
Record MagicRef := mkRef {
  m_Name : string; m_Type : MagicType; m_ID : string; m_Length : Z; m_Port : Z; m_Credential : bool
}.

(** The codes of the findings. *)
Inductive magic_finding := CodeMagicVariableInvalidType | CodeMagicVariableUnknownComp.

(** ** Names *)

Definition upper_or_digit (a : ascii) : bool :=
  ((65 <=? byte_val a) && (byte_val a <=? 90)) || ((48 <=? byte_val a) && (byte_val a <=? 57)).
Definition id_char (a : ascii) : bool := upper_or_digit a || bool_decide (a = "_"%char).
Definition word_char (a : ascii) : bool := id_char a || ((97 <=? byte_val a) && (byte_val a <=? 122)).

(** The length of the first rune of a text, as Go decodes UTF-8: 1 for a byte that
    begins no valid sequence. *)
Definition within (lo hi : Z) (a : ascii) : bool := (lo <=? byte_val a) && (byte_val a <=? hi).
Definition rune_width (s : list ascii) : nat :=
  match s with
  | a :: b :: rest =>
      if within 194 223 a && within 128 191 b then 2%nat
      else match rest with
      | c :: rest' =>
          if ((within 224 224 a && within 160 191 b) || (within 225 236 a && within 128 191 b) ||
              (within 237 237 a && within 128 159 b) || (within 238 239 a && within 128 191 b)) && within 128 191 c
          then 3%nat
          else match rest' with
          | d :: _ =>
              if ((within 240 240 a && within 144 191 b) || (within 241 243 a && within 128 191 b) ||
                  (within 244 244 a && within 128 143 b)) && within 128 191 c && within 128 191 d
              then 4%nat else 1%nat
          | [] => 1%nat
          end
      | [] => 1%nat
      end
  | _ => 1%nat
  end.

(** [NormalizeComponentID]: a rune that is not a letter or a digit is one underscore. *)
Fixpoint normalize (skip : nat) (s : list ascii) : list ascii :=
  match s with
  | [] => []
  | a :: s' =>
      match skip with
      | S skip' => normalize skip' s'
      | O => (if upper_or_digit a then a else "_"%char) :: normalize (rune_width s - 1) s'
      end
  end.
Definition NormalizeComponentID (service : string) : string :=
  String.string_of_list_ascii (normalize 0 (String.list_ascii_of_string (ToUpper service))).

(** [magicLengths]; the first is the default. *)
Definition magicLengths (t : MagicType) : list Z :=
  match t with
  | MagicUser => [16]
  | MagicPassword | MagicPasswordWithSymbols => [32; 64]
  | MagicBase64 | MagicRealBase64 | MagicHex => [32; 64; 128]
  | MagicFQDN | MagicURL => []
  end.

(** The first type whose text the rest begins with, and what follows it. *)
Definition type_order : list MagicType :=
  [MagicPasswordWithSymbols; MagicRealBase64; MagicPassword; MagicBase64; MagicFQDN; MagicURL; MagicUser; MagicHex].
Fixpoint find_type (ts : list MagicType) (rest : string) : option (MagicType * string) :=
  match ts with
  | [] => None
  | t :: ts' =>
      match cut_prefix (type_text t +:+ "_") rest with
      | Some after => Some (t, after)
      | None => find_type ts' rest
      end
  end.

(** [strings.LastIndex] of an underscore: the text before and after it. *)
Fixpoint cut_last (s : string) : option (string * string) :=
  match s with
  | EmptyString => None
  | String a s' =>
      match cut_last s' with
      | Some (b, c) => Some (String a b, c)
      | None => if decide (a = "_"%char) then Some (EmptyString, s') else None
      end
  end.

(** The identifier and port of an address, the two cases of [switch ref.Type]. *)
Definition parse_address (name : string) (t : MagicType) (rest : string) (components : gset string) :
    magic_finding + MagicRef :=
  let '(id, port) :=
    if decide (rest ∈ components) then (rest, 0)
    else match cut_last rest with
    | Some (before, after) =>
        match atoi after with
        | Some port => if bool_decide (before ≠ EmptyString) && bool_decide (before ∈ components)
                       then (before, port) else (rest, 0)
        | None => (rest, 0)
        end
    | None => (rest, 0)
    end in
  if decide (id ∈ components) then inr (mkRef name t id 0 port false)
  else inl CodeMagicVariableUnknownComp.

Definition id_ok (s : string) : bool :=
  bool_decide (s ≠ EmptyString) && forallb id_char (String.list_ascii_of_string s).
Definition parse_credential (name : string) (t : MagicType) (rest : string) : magic_finding + MagicRef :=
  let allowed := magicLengths t in
  let finish (length : Z) (id : string) :=
    if id_ok id then inr (mkRef name t id length 0 true) else inl CodeMagicVariableInvalidType in
  let plain := finish (default 0 (head allowed)) rest in
  match cut "_" rest with
  | Some (before, after) =>
      if decide (before = EmptyString) then plain
      else match atoi before with
      | Some n => if decide (n ∈ allowed) then finish n after else inl CodeMagicVariableInvalidType
      | None => plain
      end
  | None => plain
  end.

(** [ParseMagicName] *)
Definition ParseMagicName (name : string) (components : gset string) : magic_finding + MagicRef :=
  match cut_prefix "SERVICE_" name with
  | None | Some EmptyString => inl CodeMagicVariableInvalidType
  | Some rest =>
      match find_type type_order rest with
      | None => inl CodeMagicVariableInvalidType
      | Some (t, rest) =>
          if decide (t ∈ [MagicFQDN; MagicURL]) then parse_address name t rest components
          else parse_credential name t rest
      end
  end.

(** ** Scanning *)

(** The longest runs of word characters. *)
Fixpoint words (s : list ascii) (cur : list ascii) : list (list ascii) :=
  match s with
  | [] => if decide (cur = []) then [] else [rev cur]
  | a :: s' =>
      if word_char a then words s' (a :: cur)
      else if decide (cur = []) then words s' [] else rev cur :: words s' []
  end.
(** [magicName.FindAllString]: a match of [\bSERVICE_[A-Z0-9_]+\b] begins and ends
    between a word character and another, so it is one of these runs. *)
Definition magic_word (w : list ascii) : bool :=
  match cut_prefix "SERVICE_" (String.string_of_list_ascii w) with
  | Some rest => id_ok rest
  | None => false
  end.
Definition magic_names (content : string) : list string :=
  String.string_of_list_ascii <$> filter (λ w, magic_word w = true) (words (String.list_ascii_of_string content) []).

(** [ScanMagicReferences] *)
Fixpoint scan (names : list string) (seen : gset string) (components : gset string) :
    list MagicRef * list magic_finding :=
  match names with
  | [] => ([], [])
  | name :: names' =>
      if decide (name ∈ seen) then scan names' seen components
      else
        let '(refs, fs) := scan names' ({[ name ]} ∪ seen) components in
        match ParseMagicName name components with
        | inl f => (refs, f :: fs)
        | inr ref => (ref :: refs, fs)
        end
  end.
Definition by_name (r r' : MagicRef) : Prop := String.le (m_Name r) (m_Name r').
#[export] Instance by_name_dec : RelDecision by_name.
Proof. intros r r'. unfold by_name. apply _. Defined.
Definition ScanMagicReferences (content : string) (services : list string) : list MagicRef * list magic_finding :=
  let '(refs, fs) := scan (magic_names content) ∅ (list_to_set (NormalizeComponentID <$> services)) in
  (merge_sort by_name refs, fs).

(** ** Values *)

Definition alphaLower : string := "abcdefghijklmnopqrstuvwxyz".
Definition alphaLowerDigits : string := alphaLower +:+ "0123456789".
Definition alphaMixedDigits : string := "ABCDEFGHIJKLMNOPQRSTUVWXYZ" +:+ alphaLowerDigits.
Definition passwordSymbols : string := "!@#$%^&*()-_=+[]{}<>~".
Definition alphaWithSymbols : string := alphaMixedDigits +:+ passwordSymbols.

(** [crypto/rand]: a number below a bound, and bytes; either may fail.  The first
    argument counts the draws of one value. *)
Record Rand := mkRand { rand_Int : nat → Z → option Z; rand_Read : Z → option (list Z) }.
Class RandLaws (r : Rand) := mkRandLaws {
  rand_Int_below : ∀ k n v, 0 < n → rand_Int r k n = Some v → 0 <= v < n;
  rand_Read_bytes : ∀ n l, 0 <= n → rand_Read r n = Some l → Z.of_nat (length l) = n ∧ Forall is_byte l
}.

(** [randomFrom], from the draw [k] on. *)
Fixpoint randomFrom (r : Rand) (alphabet : string) (n k : nat) : option string :=
  match n with
  | O => Some EmptyString
  | S n' =>
      i ← rand_Int r k (Z.of_nat (String.length alphabet));
      c ← String.get (Z.to_nat i) alphabet;
      s ← randomFrom r alphabet n' (S k);
      Some (String c s)
  end.

(** [base64.StdEncoding.EncodeToString] *)
Definition base64_char (v : Z) : ascii :=
  ascii_of_byte (if v <? 26 then 65 + v else if v <? 52 then 71 + v else if v <? 62 then v - 4
                 else if v =? 62 then 43 else 47).
Fixpoint base64 (l : list Z) : string :=
  match l with
  | a :: b :: c :: l' =>
      String (base64_char (a / 4)) (String (base64_char ((a `mod` 4) * 16 + b / 16))
        (String (base64_char ((b `mod` 16) * 4 + c / 64)) (String (base64_char (c `mod` 64)) (base64 l'))))
  | [a; b] =>
      String (base64_char (a / 4)) (String (base64_char ((a `mod` 4) * 16 + b / 16))
        (String (base64_char ((b `mod` 16) * 4)) "="))
  | [a] => String (base64_char (a / 4)) (String (base64_char ((a `mod` 4) * 16)) "==")
  | [] => EmptyString
  end.

(** [GenerateMagicValue]; [None] is an error. *)
Definition GenerateMagicValue (r : Rand) (ref : MagicRef) : option string :=
  match m_Type ref with
  | MagicUser =>
      first ← randomFrom r alphaLower 1 0;
      rest ← randomFrom r alphaLowerDigits (Z.to_nat (m_Length ref - 1)) 1;
      Some (first +:+ rest)
  | MagicPassword | MagicBase64 => randomFrom r alphaMixedDigits (Z.to_nat (m_Length ref)) 0
  | MagicPasswordWithSymbols => randomFrom r alphaWithSymbols (Z.to_nat (m_Length ref)) 0
  | MagicRealBase64 => base64 <$> rand_Read r (m_Length ref)
  | MagicHex => EncodeToString <$> rand_Read r (m_Length ref / 2)
  | MagicFQDN | MagicURL => None
  end.

Example scan_sample :
  ScanMagicReferences "url: $SERVICE_URL_OPEN_WEBUI_3000 pw: ${SERVICE_PASSWORD_64_DB} xSERVICE_HEX_A $SERVICE_FOO_X"
    ["open-webui"; "db"] =
  ([mkRef "SERVICE_PASSWORD_64_DB" MagicPassword "DB" 64 0 true;
    mkRef "SERVICE_URL_OPEN_WEBUI_3000" MagicURL "OPEN_WEBUI" 0 3000 false], [CodeMagicVariableInvalidType]).
Proof. vm_compute. reflexivity. Qed.
Example base64_sample : base64 (bytes_of "Many hands") = "TWFueSBoYW5kcw==".
Proof. vm_compute. reflexivity. Qed.

(** ** Parsing is unambiguous *)

Definition credential (t : MagicType) : bool := negb (bool_decide (t ∈ [MagicFQDN; MagicURL])).
Definition name_of (t : MagicType) (rest : string) : string := "SERVICE_" +:+ (type_text t +:+ ("_" +:+ rest)).

(** No type is read where another was written. *)
Lemma find_type_of t rest : find_type type_order (type_text t +:+ ("_" +:+ rest)) = Some (t, rest).
Proof. by destruct t. Qed.

Lemma cut_prefix_app p s : cut_prefix p (p +:+ s) = Some s.
Proof. by apply cut_prefix_Some. Qed.

Lemma ParseMagicName_of t rest components :
  ParseMagicName (name_of t rest) components =
  if credential t then parse_credential (name_of t rest) t rest else parse_address (name_of t rest) t rest components.
Proof.
  unfold ParseMagicName. unfold name_of at 1. rewrite cut_prefix_app, find_type_of.
  destruct (type_text t +:+ ("_" +:+ rest)) eqn:E; [by destruct t|]. unfold credential.
  destruct (decide (t ∈ [MagicFQDN; MagicURL])); [by rewrite bool_decide_true|by rewrite bool_decide_false].
Qed.

(** The lengths as they are written. *)
Lemma length_text t l :
  l ∈ magicLengths t →
  ∃ s, s ≠ EmptyString ∧ no_char "_" s ∧ atoi s = Some l ∧ s = (if l =? 16 then "16" else if l =? 32 then "32" else if l =? 64 then "64" else "128").
Proof.
  intros Hl. assert (l = 16 ∨ l = 32 ∨ l = 64 ∨ l = 128) as H.
  { destruct t; simpl in Hl; rewrite ?elem_of_cons, ?elem_of_nil in Hl; naive_solver. }
  destruct H as [->|[->|[->| ->]]]; eexists; (split; [|split; [|split; [|reflexivity]]]); done || (simpl; naive_solver).
Qed.
Definition length_of (l : Z) : string := if l =? 16 then "16" else if l =? 32 then "32" else if l =? 64 then "64" else "128".

(** A magic variable written from its parts reads back as them: a credential
    with any allowed length, or with the default one when its identifier does not
    begin with a number; an address of a known component, with a port after it
    when the whole is not a component itself.  Whatever its name begins with, it
    is not taken for another type. *)
Theorem magic_name_roundtrip t id components :
  (credential t = true → id_ok id = true →
     (∀ l, l ∈ magicLengths t →
        let name := name_of t (length_of l +:+ ("_" +:+ id)) in
        ParseMagicName name components = inr (mkRef name t id l 0 true)) ∧
     ((∀ b a, cut "_" id = Some (b, a) → atoi b = None) →
        ParseMagicName (name_of t id) components =
          inr (mkRef (name_of t id) t id (default 0 (head (magicLengths t))) 0 true))) ∧
  (credential t = false → id ∈ components →
     ParseMagicName (name_of t id) components = inr (mkRef (name_of t id) t id 0 0 false) ∧
     ∀ digits port, atoi digits = Some port → no_char "_" digits → id ≠ EmptyString →
       (id +:+ ("_" +:+ digits)) ∉ components →
       let name := name_of t (id +:+ ("_" +:+ digits)) in
       ParseMagicName name components = inr (mkRef name t id 0 port false)).
Proof.
  split; intros Ht Hid; split.
  - intros l Hl. cbv zeta. rewrite ParseMagicName_of, Ht. unfold parse_credential.
    destruct (length_text t l Hl) as (s & Hne & Hno & Hat & Hs). fold (length_of l) in Hs. rewrite <- Hs.
    assert (cut "_" (s +:+ ("_" +:+ id)) = Some (s, id)) as -> by (by apply cut_Some).
    rewrite decide_False by done. rewrite Hat, decide_True by done. by rewrite Hid.
  - intros Hnum. rewrite ParseMagicName_of, Ht. unfold parse_credential.
    destruct (cut "_" id) as [[b a]|]; [|by rewrite Hid]. case_decide; [by rewrite Hid|].
    rewrite (Hnum b a eq_refl). by rewrite Hid.
  - rewrite ParseMagicName_of, Ht. unfold parse_address. by rewrite !decide_True.
  - intros digits port Hat Hno Hne Hnot. cbv zeta. rewrite ParseMagicName_of, Ht. unfold parse_address.
    rewrite decide_False by done.
    assert (cut_last (id +:+ ("_" +:+ digits)) = Some (id, digits)) as ->.
    { assert (cut_last digits = None) as Hd.
      { clear -Hno. induction digits as [|c s IH]; [done|]. destruct Hno as [Hc Hs]. simpl. rewrite IH by done.
        by rewrite decide_False. }
      clear -Hd. induction id as [|c s IH].
      - rewrite append_empty_l. change ("_" +:+ digits) with (String "_" digits). simpl. by rewrite Hd.
      - rewrite append_cons. simpl. by rewrite IH. }
    rewrite Hat, !bool_decide_true by done. simpl. by rewrite decide_True.
Qed.

Lemma magic_name_roundtrip_witness :
  ParseMagicName "SERVICE_PASSWORD_64_WITHSYMBOLS_DB" ∅ =
    inr (mkRef "SERVICE_PASSWORD_64_WITHSYMBOLS_DB" MagicPassword "WITHSYMBOLS_DB" 64 0 true) ∧
  ParseMagicName "SERVICE_URL_WEB_3000" {[ "WEB" ]} = inr (mkRef "SERVICE_URL_WEB_3000" MagicURL "WEB" 0 3000 false).
Proof.
  split.
  - destruct (proj1 (magic_name_roundtrip MagicPassword "WITHSYMBOLS_DB" ∅) eq_refl eq_refl) as [H _].
    apply (H 64). right. by left.
  - destruct (proj2 (magic_name_roundtrip MagicURL "WEB" {[ "WEB" ]}) eq_refl) as [_ H]; [by apply elem_of_singleton|].
    apply (H "3000" 3000); [reflexivity|by repeat split|done|]. by rewrite elem_of_singleton.
Defined.

(** ** Shapes of values *)

Definition chars_in (s alphabet : string) : Prop :=
  ∀ c, c ∈ String.list_ascii_of_string s → c ∈ String.list_ascii_of_string alphabet.

Lemma get_in n s c : String.get n s = Some c → c ∈ String.list_ascii_of_string s.
Proof.
  revert n. induction s as [|a s IH]; intros [|n]; simpl; try done; [intros [= <-]; by left|].
  intros H. right. by eapply IH.
Qed.
Lemma chars_in_append s s' alphabet : chars_in s alphabet → chars_in s' alphabet → chars_in (s +:+ s') alphabet.
Proof.
  intros H H'. induction s as [|a s IH]; [by rewrite append_empty_l|]. rewrite append_cons. intros c.
  simpl. intros [->|Hc]%elem_of_cons; [apply H; by left|]. apply IH; [|done]. intros x Hx. apply H. by right.
Qed.

Section Shapes.
Context (r : Rand) `{!RandLaws r}.

Lemma randomFrom_shape alphabet n k s :
  alphabet ≠ EmptyString → randomFrom r alphabet n k = Some s → String.length s = n ∧ chars_in s alphabet.
Proof.
  intros Ha. revert k s. induction n as [|n IH]; intros k s; simpl.
  { intros [= <-]. split; [done|]. intros c Hc. by apply not_elem_of_nil in Hc. }
  destruct (rand_Int r k _) as [i|] eqn:Ei; [|done]. simpl.
  destruct (String.get (Z.to_nat i) alphabet) as [c|] eqn:Ec; [|done]. simpl.
  destruct (randomFrom r alphabet n (S k)) as [t|] eqn:Et; [|done]. simpl. intros [= <-].
  destruct (IH (S k) t Et) as [Hl Hc]. split; [simpl; lia|]. intros x. simpl.
  intros [->|Hx]%elem_of_cons; [by eapply get_in|by apply Hc].
Qed.

Lemma base64_length l : String.length (base64 l) = (4 * ((length l + 2) / 3))%nat.
Proof.
  remember (length l) as n eqn:En. revert l En. induction n as [n IH] using lt_wf_ind. intros l ->.
  destruct l as [|a [|b [|c l]]]; try reflexivity. simpl base64. cbn [String.length length].
  rewrite (IH (length l)) by (simpl; lia).
  replace (S (S (S (length l))) + 2)%nat with (length l + 2 + 1 * 3)%nat by lia.
  rewrite Nat.div_add by lia. lia.
Qed.

(** What a reference of each type is worth. *)
Definition shape (ref : MagicRef) (s : string) : Prop :=
  match m_Type ref with
  | MagicUser =>
      String.length s = 16%nat ∧ chars_in s alphaLowerDigits ∧
      ∃ c s', s = String c s' ∧ c ∈ String.list_ascii_of_string alphaLower
  | MagicPassword | MagicBase64 => Z.of_nat (String.length s) = m_Length ref ∧ chars_in s alphaMixedDigits
  | MagicPasswordWithSymbols => Z.of_nat (String.length s) = m_Length ref ∧ chars_in s alphaWithSymbols
  | MagicRealBase64 =>
      ∃ l, Forall is_byte l ∧ Z.of_nat (length l) = m_Length ref ∧ s = base64 l ∧
           String.length s = (4 * ((length l + 2) / 3))%nat
  | MagicHex =>
      Z.of_nat (String.length s) = m_Length ref ∧
      ∃ l, DecodeString s = Some l ∧ 2 * Z.of_nat (length l) = m_Length ref
  | MagicFQDN | MagicURL => False
  end.

(** A reference that parsed has an allowed length. *)
Lemma ParseMagicName_length name components ref :
  ParseMagicName name components = inr ref →
  m_Credential ref = true → credential (m_Type ref) = true ∧ m_Length ref ∈ magicLengths (m_Type ref).
Proof.
  unfold ParseMagicName. destruct (cut_prefix _ name) as [rest|]; [|done]. destruct rest as [|a rest]; [done|].
  destruct (find_type _ _) as [[t rest']|]; [|done]. case_decide as Ht.
  { unfold parse_address. intros H Hcr. repeat case_match; by simplify_eq/=. }
  assert (credential t = true) as Hc by (unfold credential; by rewrite bool_decide_false).
  assert (default 0 (head (magicLengths t)) ∈ magicLengths t) as Hd by (destruct t; (by left) || done).
  unfold parse_credential. intros H _. repeat case_match; simplify_eq; done.
Qed.

(** The value of a reference that parsed, when there is one. *)
Lemma generated_shape name components ref s :
  ParseMagicName name components = inr ref → m_Credential ref = true → GenerateMagicValue r ref = Some s →
  shape ref s.
Proof.
  intros Hp Hc Hg. destruct (ParseMagicName_length name components ref Hp Hc) as [Ht Hl].
  unfold GenerateMagicValue in Hg. unfold shape.
  assert (0 < m_Length ref) as Hpos.
  { destruct (m_Type ref); simpl in Hl; rewrite ?elem_of_cons, ?elem_of_nil in Hl; lia || (intuition; lia). }
  destruct (m_Type ref) eqn:Et; try done.
  - destruct (randomFrom r alphaLower 1 0) as [first|] eqn:E1; [|done]. simpl in Hg.
    destruct (randomFrom r alphaLowerDigits _ 1) as [rest|] eqn:E2; [|done]. simpl in Hg. injection Hg as <-.
    apply randomFrom_shape in E1 as [L1 C1]; [|done]. apply randomFrom_shape in E2 as [L2 C2]; [|done].
    assert (m_Length ref = 16) as E16 by (simpl in Hl; by apply list_elem_of_singleton in Hl).
    rewrite E16 in L2. split_and!.
    + rewrite append_length, L1, L2. done.
    + apply chars_in_append; [|done]. intros c Hc'. apply C1 in Hc'. unfold alphaLowerDigits.
      assert (∀ x y, c ∈ String.list_ascii_of_string x → c ∈ String.list_ascii_of_string (x +:+ y)) as Happ.
      { clear. intros x y. induction x as [|a x IH]; [intros H; by apply not_elem_of_nil in H|].
        rewrite append_cons. simpl. intros [->|H]%elem_of_cons; [by left|right; by apply IH]. }
      by apply Happ.
    + destruct first as [|c [|]]; try done. exists c, rest. split; [done|]. apply C1. by left.
  - apply randomFrom_shape in Hg as [L C]; [|done]. split; [lia|done].
  - apply randomFrom_shape in Hg as [L C]; [|done]. split; [lia|done].
  - apply randomFrom_shape in Hg as [L C]; [|done]. split; [lia|done].
  - apply fmap_Some in Hg as (l & Hr & ->). apply rand_Read_bytes in Hr as [L B]; [|lia].
    exists l. split_and!; [done..|apply base64_length].
  - apply fmap_Some in Hg as (l & Hr & ->).
    assert (m_Length ref `mod` 2 = 0 ∧ 0 <= m_Length ref / 2) as [Hm Hd].
    { simpl in Hl. rewrite ?elem_of_cons, ?elem_of_nil in Hl. destruct Hl as [->|[->|[->|[]]]]; done. }
    apply rand_Read_bytes in Hr as [L B]; [|done]. pose proof (Z.div_mod (m_Length ref) 2).
    split; [rewrite EncodeToString_length; lia|]. exists l. rewrite DecodeString_Encode by done. split; [done|lia].
Qed.

Lemma get_below n s : (n < String.length s)%nat → is_Some (String.get n s).
Proof. revert n. induction s as [|a s IH]; intros [|n] H; simpl in *; [lia..|by eexists|apply IH; lia]. Qed.
Lemma randomFrom_total alphabet n k :
  alphabet ≠ EmptyString → (∀ k n, is_Some (rand_Int r k n)) → is_Some (randomFrom r alphabet n k).
Proof.
  intros Ha Hr. assert (0 < Z.of_nat (String.length alphabet)) as Hpos by (destruct alphabet; [done|simpl; lia]).
  revert k. induction n as [|n IH]; intros k; [by eexists|]. simpl.
  destruct (Hr k (Z.of_nat (String.length alphabet))) as [i Hi]. rewrite Hi. simpl.
  apply rand_Int_below in Hi; [|done].
  destruct (get_below (Z.to_nat i) alphabet) as [c ->]; [lia|]. simpl. destruct (IH (S k)) as [s ->]. by eexists.
Qed.

(** With a random source that keeps its word, the value generated for any name
    that parsed as a credential has the length and the alphabet its type promises:
    user names begin with a letter, hexadecimal ones decode to half as many bytes,
    base64 ones encode as many bytes as asked.  There is a value as long as the
    source does not fail. *)
Theorem generated_values_fit name components ref :
  ParseMagicName name components = inr ref → m_Credential ref = true →
  (∀ s, GenerateMagicValue r ref = Some s → shape ref s) ∧
  ((∀ k n, is_Some (rand_Int r k n)) → (∀ n, is_Some (rand_Read r n)) → is_Some (GenerateMagicValue r ref)).
Proof.
  intros Hp Hc. split; [intros s Hs; by eapply generated_shape|]. intros Hi Hr.
  destruct (ParseMagicName_length name components ref Hp Hc) as [Ht _]. unfold GenerateMagicValue.
  destruct (m_Type ref); try done; try (by apply randomFrom_total); try (by apply fmap_is_Some).
  destruct (randomFrom_total alphaLower 1 0) as [a ->]; [done..|]. simpl.
  destruct (randomFrom_total alphaLowerDigits (Z.to_nat (m_Length ref - 1)) 1) as [b ->]; [done..|]. by eexists.
Qed.
End Shapes.

(** A source that always draws the last letter, and zeroes. *)
Definition last_letter : Rand := mkRand (λ _ n, Some (n - 1)) (λ n, Some (replicate (Z.to_nat n) 0)).
#[export] Instance last_letter_laws : RandLaws last_letter.
Proof.
  split; simpl.
  - intros k n v Hn [= <-]. lia.
  - intros n l Hn [= <-]. rewrite length_replicate. split; [lia|]. apply Forall_replicate. unfold is_byte, is_digit. lia.
Qed.
Lemma generated_values_fit_witness :
  shape (mkRef "SERVICE_USER_DB" MagicUser "DB" 16 0 true) "z999999999999999".
Proof.
  apply (generated_values_fit last_letter "SERVICE_USER_DB" ∅); vm_compute; reflexivity.
Defined.

(** The same identifier with its default length written or not is two variables;
    a port may be any number. *)
Lemma magic_names_observed :
  ParseMagicName "SERVICE_PASSWORD_DB" ∅ = inr (mkRef "SERVICE_PASSWORD_DB" MagicPassword "DB" 32 0 true) ∧
  ParseMagicName "SERVICE_PASSWORD_32_DB" ∅ = inr (mkRef "SERVICE_PASSWORD_32_DB" MagicPassword "DB" 32 0 true) ∧
  ParseMagicName "SERVICE_URL_WEB_99999" {[ "WEB" ]} = inr (mkRef "SERVICE_URL_WEB_99999" MagicURL "WEB" 0 99999 false).
Proof. vm_compute. done. Qed.
