(* ===== verification/LogRedact.v ===== *)
(** * Log redaction

    Models [internal/logredact/logredact.go]: the handler that masks the values of
    sensitive attributes before a record reaches any sink.  The handler it wraps
    is what [log/slog] documents: preset attributes and groups opened earlier come
    first and nest what follows; a value that knows how to log itself
    ([LogValuer]) is resolved when it is written. *)
From S2P Require Import Prelude GoLib.

(** [slog.Attr]: a plain value, a group, or a value that resolves when written. *)
Inductive attr :=
| Leaf (key text : string)
| Group (key : string) (attrs : list attr)
| Lazy (key : string) (value : attr).

Section attr_ind.
Context (P : attr → Prop) (Hleaf : ∀ k t, P (Leaf k t)) (Hgroup : ∀ k l, Forall P l → P (Group k l))
  (Hlazy : ∀ k a, P a → P (Lazy k a)).
Fixpoint attr_nested_ind (a : attr) : P a :=
  match a with
  | Leaf k t => Hleaf k t
  | Group k l =>
      Hgroup k l ((fix go (l : list attr) : Forall P l :=
        match l with [] => Forall_nil_2 P | x :: l' => Forall_cons_2 P x l' (attr_nested_ind x) (go l') end) l)
  | Lazy k a => Hlazy k a (attr_nested_ind a)
  end.
End attr_ind.

Definition key_of (a : attr) : string := match a with Leaf k _ | Group k _ | Lazy k _ => k end.

Definition Placeholder : string := "[REDACTED]".

(** [sensitive] *)
Definition sensitiveKeys : list string :=
  ["password"; "passwd"; "secret"; "token"; "authorization"; "credential"; "credentials"; "api_key"; "apikey";
   "private_key"; "privatekey"; "access_key"; "secret_key"; "client_secret"; "bot_token"; "csrf"; "cookie";
   "set-cookie"].
Definition sensitiveSuffixes : list string := ["_token"; "_secret"; "_password"].
Fixpoint has_suffix (s suffix : string) : bool :=
  bool_decide (s = suffix) || match s with EmptyString => false | String _ s' => has_suffix s' suffix end.
Definition sensitive (key : string) : bool :=
  let k := ToLower key in
  if decide (k ∈ sensitiveKeys) then true else existsb (has_suffix k) sensitiveSuffixes.

(** [redact] *)
Fixpoint redact (a : attr) : attr :=
  if sensitive (key_of a) then Leaf (key_of a) Placeholder
  else match a with
  | Group k attrs => Group k (redact <$> attrs)
  | _ => a
  end.

(** [Handler]: what the wrapped handler was given, outermost first. *)
Inductive given := Preset (attrs : list attr) | Opened (name : string).
Definition handler : Type := list given.
Definition Wrap : handler := [].
Definition WithAttrs (h : handler) (attrs : list attr) : handler := h ++ [Preset (redact <$> attrs)].
Definition WithGroup (h : handler) (name : string) : handler := h ++ [Opened name].

(** What reaches the sinks: the presets and the record, nested in the open groups. *)
Fixpoint nest (h : handler) (l : list attr) : list attr :=
  match h with
  | [] => l
  | Preset attrs :: h' => attrs ++ nest h' l
  | Opened name :: h' => [Group name (nest h' l)]
  end.
Definition Handle (h : handler) (attrs : list attr) : list attr := nest h (redact <$> attrs).

(** What is written: the keys on the way to each value, and its text. *)
Fixpoint written (a : attr) : list (list string * string) :=
  match a with
  | Leaf k t => [([k], t)]
  | Group k l => prod_map (cons k) id <$> flat_map written l
  | Lazy k a => (λ x, (k :: tail x.1, x.2)) <$> written a
  end.

(** No value that resolves later. *)
Fixpoint settled (a : attr) : bool :=
  match a with Leaf _ _ => true | Group _ l => forallb settled l | Lazy _ _ => false end.

Definition secret_path (path : list string) : bool := existsb sensitive path.

(** ** What redaction guarantees *)

Lemma redact_key a : key_of (redact a) = key_of a.
Proof. destruct a; simpl; by destruct (sensitive _). Qed.

Lemma redact_hides a path text :
  settled a = true → (path, text) ∈ written (redact a) → secret_path path = true → text = Placeholder.
Proof.
  revert path text. induction a as [k t|k l IH|k a _] using attr_nested_ind; intros path text Hs Hin Hp; [| |done].
  - simpl in Hin. destruct (sensitive k) eqn:E; simpl in Hin; apply list_elem_of_singleton in Hin; simplify_eq; [done|].
    simpl in Hp. by rewrite E in Hp.
  - simpl in Hin. destruct (sensitive k) eqn:E; simpl in Hin.
    { apply list_elem_of_singleton in Hin. by simplify_eq. }
    apply list_elem_of_fmap in Hin as ([p t] & [= -> ->] & Hin). simpl in Hp. rewrite E in Hp. simpl in Hp.
    apply list_elem_of_In, in_flat_map in Hin as (b & Hb & Hin). apply list_elem_of_In in Hb, Hin.
    apply list_elem_of_fmap in Hb as (c & -> & Hc). rewrite Forall_forall in IH. apply (IH c Hc p t); [|done..].
    simpl in Hs. rewrite forallb_forall in Hs. apply Hs. by apply list_elem_of_In.
Qed.

Lemma redact_adds_nothing a path text :
  (path, text) ∈ written (redact a) → text = Placeholder ∨ (path, text) ∈ written a.
Proof.
  revert path text. induction a as [k t|k l IH|k a _] using attr_nested_ind; intros path text Hin.
  - simpl in Hin. destruct (sensitive k); simpl in Hin; [|by right].
    apply list_elem_of_singleton in Hin. left. by simplify_eq.
  - simpl in Hin. destruct (sensitive k); simpl in Hin.
    { apply list_elem_of_singleton in Hin. left. by simplify_eq. }
    apply list_elem_of_fmap in Hin as ([p t] & [= -> ->] & Hin).
    apply list_elem_of_In, in_flat_map in Hin as (b & Hb & Hin). apply list_elem_of_In in Hb, Hin.
    apply list_elem_of_fmap in Hb as (c & -> & Hc). rewrite Forall_forall in IH.
    destruct (IH c Hc p t Hin) as [?|Hw]; [by left|right]. simpl. apply list_elem_of_fmap. exists (p, t). split; [done|].
    apply list_elem_of_In, in_flat_map. exists c. by rewrite <- !list_elem_of_In.
  - simpl in Hin. destruct (sensitive k); simpl in Hin; [|by right].
    apply list_elem_of_singleton in Hin. left. by simplify_eq.
Qed.

Lemma redact_keeps a path text :
  settled a = true → (path, text) ∈ written a → secret_path path = false → (path, text) ∈ written (redact a).
Proof.
  revert path text. induction a as [k t|k l IH|k a _] using attr_nested_ind; intros path text Hs Hin Hp; [| |done].
  - simpl in Hin. apply list_elem_of_singleton in Hin. simplify_eq. simpl in Hp. apply orb_false_iff in Hp as [Hk _].
    simpl. rewrite Hk. by left.
  - simpl in Hin. apply list_elem_of_fmap in Hin as ([p t] & [= -> ->] & Hin). simpl in Hp.
    apply orb_false_iff in Hp as [Hk Hp]. simpl. rewrite Hk. simpl. apply list_elem_of_fmap. exists (p, t). split; [done|].
    apply list_elem_of_In, in_flat_map in Hin as (c & Hc & Hin). apply list_elem_of_In in Hc, Hin.
    apply list_elem_of_In, in_flat_map. exists (redact c). rewrite <- !list_elem_of_In. split.
    + apply list_elem_of_fmap. eauto.
    + rewrite Forall_forall in IH. apply (IH c Hc); [|done..]. simpl in Hs. rewrite forallb_forall in Hs.
      apply Hs. by apply list_elem_of_In.
Qed.

(** A handler built by the code from given attributes. *)
Inductive built : list attr → handler → Prop :=
| built_wrap : built [] Wrap
| built_attrs as' h attrs : built as' h → built (as' ++ attrs) (WithAttrs h attrs)
| built_group as' h name : built as' h → built as' (WithGroup h name).

(** Whatever reaches the sinks is a redacted attribute below open groups. *)
Lemma nest_written h l path text :
  (path, text) ∈ flat_map written (nest h l) →
  ∃ gs p a, path = gs ++ p ∧ (path = p → gs = []) ∧ (p, text) ∈ written a ∧
    (a ∈ l ∨ ∃ attrs, Preset attrs ∈ h ∧ a ∈ attrs).
Proof.
  revert path. induction h as [|[attrs|name] h IH]; intros path Hin; simpl in Hin.
  - apply list_elem_of_In, in_flat_map in Hin as (a & Ha & Hw). apply list_elem_of_In in Ha, Hw.
    exists [], path, a. split_and!; [done..|by left].
  - rewrite flat_map_app in Hin. apply elem_of_app in Hin as [Hin|Hin].
    + apply list_elem_of_In, in_flat_map in Hin as (a & Ha & Hw). apply list_elem_of_In in Ha, Hw.
      exists [], path, a. split_and!; [done..|right; exists attrs; split; [by left|done]].
    + destruct (IH path Hin) as (gs & p & a & E & E' & Hw & Ha). exists gs, p, a. split_and!; [done..|].
      destruct Ha as [?|(attrs' & ? & ?)]; [by left|right; exists attrs'; split; [by right|done]].
  - rewrite app_nil_r in Hin. apply list_elem_of_fmap in Hin as ([q t] & [= -> ->] & Hin).
    destruct (IH q Hin) as (gs & p & a & -> & E' & Hw & Ha). exists (name :: gs), p, a. split_and!; [done| |done|].
    + intros E. apply (f_equal length) in E. simpl in E. rewrite length_app in E. lia.
    + destruct Ha as [?|(attrs' & ? & ?)]; [by left|right; exists attrs'; split; [by right|done]].
Qed.
Lemma built_preset as' h attrs a :
  built as' h → Preset attrs ∈ h → a ∈ attrs → ∃ b, b ∈ as' ∧ a = redact b.
Proof.
  induction 1 as [|as' h l H IH|as' h name H IH]; intros Hin Ha.
  - by apply not_elem_of_nil in Hin.
  - apply elem_of_app in Hin as [Hin|[= ->]%list_elem_of_singleton].
    + destruct (IH Hin Ha) as (b & Hb & ->). exists b. split; [apply elem_of_app; by left|done].
    + apply list_elem_of_fmap in Ha as (b & -> & Hb). exists b. split; [apply elem_of_app; by right|done].
  - apply elem_of_app in Hin as [Hin|Hin%list_elem_of_singleton]; [by apply IH|done].
Qed.

(** Whatever attributes a logger was given and a record carries, with no value
    that resolves later: every value that reaches a sink under a sensitive key is
    the placeholder, every other value is one the caller logged, under its keys,
    below the groups opened on the logger, and no value of the record under
    ordinary keys is lost. *)
Theorem redaction_complete as' h attrs path text :
  built as' h → forallb settled (as' ++ attrs) = true →
  ((path, text) ∈ flat_map written (Handle h attrs) →
   ∃ gs p a, path = gs ++ p ∧ a ∈ as' ++ attrs ∧
     ((secret_path p = true ∧ text = Placeholder) ∨ (secret_path p = false ∧ (text = Placeholder ∨ (p, text) ∈ written a)))) ∧
  (h = Wrap → (path, text) ∈ flat_map written attrs → secret_path path = false →
   (path, text) ∈ flat_map written (Handle h attrs)).
Proof.
  intros Hb Hs. rewrite forallb_forall in Hs. split.
  - intros Hin. destruct (nest_written _ _ _ _ Hin) as (gs & p & a & -> & _ & Hw & Ha).
    assert (∃ b, b ∈ as' ++ attrs ∧ a = redact b) as (b & Hin' & ->).
    { destruct Ha as [(b & -> & Hb')%list_elem_of_fmap|(l & Hl & Ha)].
      - exists b. split; [apply elem_of_app; by right|done].
      - destruct (built_preset as' h l a Hb Hl Ha) as (b & Hb' & ->). exists b. split; [apply elem_of_app; by left|done]. }
    exists gs, p, b. split_and!; [done..|]. destruct (secret_path p) eqn:E; [left|right]; (split; [done|]).
    + apply (redact_hides b p); [|done..]. apply Hs. by apply list_elem_of_In.
    + by apply redact_adds_nothing.
  - intros -> Hin Hp. apply list_elem_of_In, in_flat_map in Hin as (a & Ha & Hw). apply list_elem_of_In in Hw.
    apply list_elem_of_In, in_flat_map. exists (redact a). rewrite <- !list_elem_of_In. split.
    + apply list_elem_of_fmap. exists a. split; [done|]. by apply list_elem_of_In.
    + apply redact_keeps; [|done..]. apply Hs, in_app_iff. by right.
Qed.

(** A login attempt, logged by a logger with a preset of its own. *)
Definition login_logger : handler := WithGroup (WithAttrs Wrap [Leaf "bot_token" "xoxb"]) "request".
Definition login_record : list attr :=
  [Leaf "user" "ada"; Group "body" [Leaf "Password" "hunter2"; Leaf "remember" "true"]].
Example login_written :
  flat_map written (Handle login_logger login_record) =
  [(["bot_token"], "[REDACTED]"); (["request"; "user"], "ada"); (["request"; "body"; "Password"], "[REDACTED]");
   (["request"; "body"; "remember"], "true")].
Proof. vm_compute. reflexivity. Qed.

Lemma redaction_complete_witness :
  ∃ gs p a, ["request"; "body"; "Password"] = gs ++ p ∧ a ∈ [Leaf "bot_token" "xoxb"] ++ login_record ∧
    ((secret_path p = true ∧ "[REDACTED]" = Placeholder) ∨
     (secret_path p = false ∧ ("[REDACTED]" = Placeholder ∨ (p, "[REDACTED]") ∈ written a))).
Proof.
  apply (proj1 (redaction_complete [Leaf "bot_token" "xoxb"] login_logger login_record
    ["request"; "body"; "Password"] "[REDACTED]"
    (built_group _ _ _ (built_attrs [] Wrap [Leaf "bot_token" "xoxb"] built_wrap)) eq_refl)).
  rewrite login_written. apply list_elem_of_In. simpl. tauto.
Defined.

(** What escapes: a value that resolves to a group once written, and what is logged
    below a group opened under a sensitive name. *)
Lemma redaction_escapes :
  flat_map written (Handle Wrap [Lazy "user" (Group "user" [Leaf "password" "hunter2"])]) =
    [(["user"; "password"], "hunter2")] ∧
  flat_map written (Handle (WithGroup Wrap "secret") [Leaf "value" "hunter2"]) = [(["secret"; "value"], "hunter2")].
Proof. vm_compute. done. Qed.
